(* ===== verification/_CoqProject ===== *)
-Q . S2P
Prelude.v
Bigint.v
Digits.v
Value.v
Decimals.v
Equal.v
Numeric.v
Utf8.v
Program.v
Decode.v
Builtins.v
Verify.v
Render.v
Collections.v
Execute.v
Frames.v
Control.v
Execution.v
Lifecycle.v
Effects.v
Iteration.v
Tasks.v
Sessions.v
Cancellation.v
TaskExecutor.v
Storage.v
Ownership.v
HostTypes.v
Host.v
HttpState.v
HttpObjects.v
TcpServer.v
TcpClients.v
TcpService.v
TcpContract.v
Posix.v
Rooted.v
FileTree.v
Capabilities.v
Process.v
Detached.v
ConsoleWrite.v
RootRead.v
Exchange.v
HttpTransport.v
HttpStreams.v
