(* ===== verification/Prelude.v ===== *)
(** * The Panackelty virtual machine

    A model of the virtual machine of src/src/vm (C11) and of what makes it
    correct.  The machine reads a bytecode artifact, verifies it, and runs it;
    programs use exact numbers, persistent collections, structured tasks, and
    services of the host, among them a TCP and an HTTP server.

    ** Parts of the program, and where they are modelled

    Every C function that returns NULL or false on failure is a computation in
    the monad [M] of this file: it returns, traps with the message of the code,
    runs out of memory, is undefined, or exceeds the bound of a loop.  What
    malloc answers is an argument, so a theorem about a computation holds for
    every pattern of refused requests.  Arrays are lists, and an access outside
    one is [Undef]; unsigned arithmetic wraps at its width ([u32], [u64]).

    - Numbers: [Bigint] is bigint.c (base 10^9 limbs), [Decimals] and [Numeric]
      are numeric.c, [Digits] the positional numerals used as a specification.
    - Values: [Value] and [Equal] are value.h and value.c as programs observe
      them (contents, structural equality); [Storage] and [Ownership] are the
      same file as memory: reference counts, [release], shared array storage.
    - Text: [Utf8] is utf8.c, [Render] is buffer.c and render.c.
    - Programs: [Program] is program.h and program.c, [Decode] decode.c,
      [Builtins] the table of builtins.c, [Verify] verify.c.
    - Pure builtins: [Collections] is builtins_collections.c, builtins_text.c and
      builtins_numeric.c.
    - The interpreter: [Execute] is execute.c (frames, the 24 opcodes, services,
      and the resumable execution of vm.h); [Frames], [Control], [Execution],
      [Lifecycle], [Effects] and [Iteration] are its theory.
    - Tasks: [Tasks] is tasks.c, written against the class [Executor] of
      executions; [Sessions] is its invariant, [Cancellation] the specification of
      what cancelling a task does to the others, and [TaskExecutor] instantiates
      the class with the interpreter and discharges its laws.
    - HTTP objects: [HttpState] is http_state.c and builtins_http_state.c, on a
      heap of objects shared by all handles; [HttpObjects] is its theory.
    - Servers: [TcpServer] is tcp_server.c on an interface of the operating
      system and of the executions of handlers; [TcpClients] and [TcpService]
      prove its invariant, [TcpContract] the contract of its header.
    - Host services: [HostTypes] is host_types.c, [Host] is host.c on an
      interface of the C library.
    - Host capabilities: [Posix] is the interface of the operating system with a
      small program logic; [Rooted] (confined reads and directory identity),
      [Capabilities] (files, directories, sleeping, the dispatcher) and [Process]
      (child processes) are host_capabilities.c; [FileTree] is a tree of files
      that implements the interface, and the path resolution it is compared with.
    - Detached operations: [Detached] is the protocol that console_write.c and
      root_read.c share between owners and threads; [ConsoleWrite] and [RootRead]
      are these two files.
    - Clients: [Exchange] is tcp.c; [HttpTransport] is http_transport.c on an
      interface of libcurl, and [HttpStreams] the theory of the streams of an
      invocation.

    ** What the theorems show

    - Exactness: integer, decimal and rational arithmetic compute the operation
      they are named after on canonical forms and fail only without memory;
      division and rounding of decimals; equality denotes equality of what
      values mean; printed numerals read back.
    - Artifacts: the decoder accepts exactly the encodings of programs, with the
      diagnostic of the first fault; the verifier accepts exactly the programs
      that keep its rules, its inference is the least fixpoint and terminates.
    - Execution: the invariant holds in every state an embedder can reach; one
      instruction changes operands, locals and frames as its opcode says, and a
      call binds the popped operands to the parameters of the function it names; slicing by budgets changes
      nothing; pure functions cannot reach a service; iterators enumerate and
      end.
    - Memory: no cell is used after it is freed, nothing leaks, and appending to
      a shared array changes no other version.
    - Tasks: sessions keep their invariant under any executor that obeys the
      class, and the interpreter obeys it; a cancelled task ends its descendants,
      fails its ancestors and cancels their other descendants, and no other task.
    - Servers: the invariant of every reachable state, the accounts of the
      report, deadlines and draining; HTTP objects keep their limits, expired
      handles change nothing and routes select their handler.
    - Host: lexical paths are normal forms; confined reads never leave their
      root, and on a static tree give what path resolution gives; every
      capability returns with all descriptors closed and all children waited
      for; detached operations are safe in every interleaving.
    - Clients: an outbound exchange reports Ok only with all bytes of the peer,
      after its whole request and in time, and closes its socket; an invocation
      uses and gives back exactly the handles of its streams, and reads from a
      stream what came next on its own connection.

    Theorems about code that calls the operating system are proved for every
    instance of its interface.  The laws of an interface are what the manual
    pages say of the calls (counts within the request, no NUL in a name, a call
    is interrupted by a signal and signals are finitely many); each such theorem
    has a witness with a concrete instance.

    ** Bounds

    Loops that are not structural take fuel, and running out of it is [Diverge],
    which the theorems exclude: normalisation and division of integers take as
    many turns as there are limbs; [Decode] one per byte; [Verify.infer_loop] one
    per function and pass; [release] one per cell; a confined walk at most
    [walk_turns] = 41 * 4097 + 1 components (40 links, each restarting a path of
    at most 4096 bytes); a read its limit, the signals to come, and two; the loop
    of a child process more turns than interruptions and readings of the clock
    before its timeout.  Running a program has no bound: [advance] takes the
    budget of the C interface and the theorems speak of every budget.

    ** Not modelled

    - coverage.c and coverage_session.c, and the calls into them: executions are
      those without a coverage collector.
    - The branches for wasi, SO_NOSIGPIPE and F_SETNOSIGPIPE.
    - What a child does between fork and execve: the plan that [fork] is given;
      the masking of SIGPIPE around a write is one call that may fail.
    - digest.c and gzip_stream.c, the clients of OpenSSL and zlib; http_runtime.c
      apart from [http_runtime_stop], builtins_vm.c, filesystem_stage.c and
      main.c.  libcurl itself is the parameter of [HttpTransport].
    - free_program and other functions that only release memory, apart from
      values ([Storage]) and detached operations ([Detached]). *)

From Stdlib Require Import ZArith Lia.
From stdpp Require Import prelude gmap strings.

#[global] Open Scope Z_scope.

(** ** Outcomes of a C computation *)

(** [VMFaultKind] of fault.h: whether a failure may cross a request boundary. *)
Inductive VMFaultKind := VM_FAULT_FATAL | VM_FAULT_REQUEST.

#[global] Instance VMFaultKind_eq_dec : EqDecision VMFaultKind.
Proof. solve_decision. Defined.

(** What a call of the VM's C code can do.  [Ret] is an ordinary return; [Trap]
    is a NULL/false return with a static diagnostic; [NoMem] is a NULL/false
    return caused by the allocator or by a size guard; [Undef] is behaviour the
    C standard leaves undefined (an access outside an array, a signed
    overflow); [Diverge] is a loop that exceeded the bound given to it. *)
Inductive outcome (A : Type) : Type :=
| Ret (a : A)
| Trap (f : VMFaultKind) (msg : string)
| NoMem
| Undef
| Diverge.
Arguments Ret {_} _.
Arguments Trap {_} _ _.
Arguments NoMem {_}.
Arguments Undef {_}.
Arguments Diverge {_}.

(** The allocator: the answers the next malloc/calloc/realloc calls will give.
    When the list is exhausted every further request is granted. *)
Definition allocator := list bool.

Definition M (A : Type) : Type := allocator → outcome A * allocator.

#[global] Instance M_ret : MRet M := λ A a al, (Ret a, al).
#[global] Instance M_bind : MBind M := λ A B f m al,
  match m al with
  | (Ret a, al') => f a al'
  | (Trap k s, al') => (Trap k s, al')
  | (NoMem, al') => (NoMem, al')
  | (Undef, al') => (Undef, al')
  | (Diverge, al') => (Diverge, al')
  end.

Definition trap {A} (f : VMFaultKind) (msg : string) : M A := λ al, (Trap f msg, al).
Definition nomem {A} : M A := λ al, (NoMem, al).
Definition undef {A} : M A := λ al, (Undef, al).
Definition diverge {A} : M A := λ al, (Diverge, al).

(** One call of malloc, calloc or realloc with a non-zero size. *)
Definition alloc : M unit := λ al,
  match al with
  | [] => (Ret tt, [])
  | true :: al' => (Ret tt, al')
  | false :: al' => (NoMem, al')
  end.

(** calloc(count, ...) whose result is only checked when [count] is non-zero. *)
Definition calloc_items (count : nat) : M unit := λ al,
  match al with
  | [] => (Ret tt, [])
  | true :: al' => (Ret tt, al')
  | false :: al' => (if decide (count = 0%nat) then Ret tt else NoMem, al')
  end.

(** Run with an allocator that never refuses. *)
Definition run {A} (m : M A) : outcome A := fst (m []).

(** ** Specifications

    [runs m P E]: whatever the allocator answers, [m] either returns a value
    satisfying [P], or traps with a diagnostic satisfying [E], or fails after
    the allocator really refused a request.  It never reaches undefined
    behaviour and never exceeds the bound of a loop. *)
Definition runs {A} (m : M A) (P : A → Prop) (E : VMFaultKind → string → Prop) : Prop :=
  ∀ al, ∃ used, al = used ++ snd (m al) ∧
    match fst (m al) with
    | Ret a => P a
    | Trap f s => E f s
    | NoMem => false ∈ used
    | Undef => False
    | Diverge => False
    end.

Definition no_trap : VMFaultKind → string → Prop := λ _ _, False.

(** [returns m P]: as [runs], and no diagnostic is raised. *)
Abbreviation returns m P := (runs m P no_trap).

Section runs_rules.
Context {A B : Type}.
Implicit Types (P : A → Prop) (E : VMFaultKind → string → Prop).

Lemma runs_ret P E a : P a → runs (mret a) P E.
Proof. intros H al. by exists []. Qed.

Lemma runs_trap P E f s : E f s → runs (trap f s : M A) P E.
Proof. intros H al. by exists []. Qed.

Lemma runs_mono P P' E E' (m : M A) :
  runs m P E → (∀ a, P a → P' a) → (∀ f s, E f s → E' f s) → runs m P' E'.
Proof.
  intros H HP HE al. destruct (H al) as (u & Hu & Ho). exists u. split; [done|].
  destruct (fst (m al)); auto.
Qed.

Lemma runs_bind (m : M A) (k : A → M B) P (Q : B → Prop) E :
  runs m P E → (∀ a, P a → runs (k a) Q E) → runs (x ← m; k x) Q E.
Proof.
  intros Hm Hk al. unfold mbind, M_bind. destruct (Hm al) as (u & Hu & Ho).
  destruct (m al) as [o al'] eqn:Em; simpl in *.
  destruct o; simpl; try by (exists u).
  destruct (Hk a Ho al') as (u' & Hu' & Ho'). exists (u ++ u'). split.
  { rewrite Hu, Hu' at 1. by rewrite (assoc (++)). }
  destruct (fst (k a al')); try done. set_solver.
Qed.

(** When nothing is refused, [runs] is total correctness. *)
Lemma runs_run P E (m : M A) :
  runs m P E →
  match run m with Ret a => P a | Trap f s => E f s | _ => False end.
Proof.
  intros H. destruct (H []) as (u & Hu & Ho). symmetry in Hu. apply app_nil in Hu as [-> _].
  unfold run. destruct (fst (m [])); try done. set_solver.
Qed.
End runs_rules.

Lemma returns_cases {A} (m : M A) P al :
  returns m P → match fst (m al) with Ret a => P a | NoMem => True | _ => False end.
Proof. intros H. destruct (H al) as (u & _ & Ho). by destruct (fst (m al)). Qed.

Lemma runs_alloc E : runs alloc (λ _, True) E.
Proof.
  intros [|[] al]; [by exists []|by exists [true]|]. exists [false]. set_solver.
Qed.

Lemma runs_calloc n E : runs (calloc_items n) (λ _, True) E.
Proof.
  intros [|[] al]; [by exists []|by exists [true]|]. exists [false].
  split; [done|]. simpl. case_decide; [done|set_solver].
Qed.

Lemma runs_if {A} (b : bool) (m1 m2 : M A) P E :
  (b = true → runs m1 P E) → (b = false → runs m2 P E) → runs (if b then m1 else m2) P E.
Proof. destruct b; auto. Qed.

(** A computation whose only possible value is known. *)
Lemma runs_eq {A} (m : M A) (a : A) (P : A → Prop) E :
  returns m (λ x, x = a) → P a → runs m P E.
Proof. intros H Ha. eapply runs_mono; [done|by intros ? ->|by intros ??[]]. Qed.

(** ** Partial specifications of monadic code

    [yields m P]: every value [m] returns satisfies [P].  Used where totality is
    not at stake: a failure of an instruction ends the execution. *)
Definition yields {A} (m : M A) (P : A → Prop) : Prop :=
  ∀ al, match fst (m al) with Ret a => P a | _ => True end.

Section yields_rules.
Context {A B : Type}.

Lemma yields_ret (P : A → Prop) a : P a → yields (mret a) P.
Proof. by intros H al. Qed.
Lemma yields_trap (P : A → Prop) k s : yields (trap k s : M A) P.
Proof. done. Qed.
Lemma yields_bind (m : M A) (k : A → M B) (P : A → Prop) (Q : B → Prop) :
  yields m P → (∀ a, P a → yields (k a) Q) → yields (x ← m; k x) Q.
Proof.
  intros Hm Hk al. unfold mbind, M_bind. specialize (Hm al).
  destruct (m al) as [[] al']; try done. by apply Hk.
Qed.
Lemma yields_any (m : M A) : yields m (λ _, True).
Proof. intros al. by destruct (fst (m al)). Qed.
Lemma yields_mono (m : M A) (P Q : A → Prop) : yields m P → (∀ a, P a → Q a) → yields m Q.
Proof. intros H HPQ al. specialize (H al). destruct (fst (m al)); auto. Qed.
Lemma yields_runs (m : M A) (P : A → Prop) E : runs m P E → yields m P.
Proof. intros H al. destruct (H al) as (u & _ & Ho). by destruct (fst (m al)). Qed.
End yields_rules.

(** ** Machine integers (LP64: [size_t] and [uint64_t] have 64 bits) *)

Definition u8 (z : Z) : Z := z mod 2 ^ 8.
Definition u16 (z : Z) : Z := z mod 2 ^ 16.
Definition u32 (z : Z) : Z := z mod 2 ^ 32.
Definition u64 (z : Z) : Z := z mod 2 ^ 64.
Definition SIZE_MAX : Z := 2 ^ 64 - 1.
Definition UINT64_MAX : Z := 2 ^ 64 - 1.
Definition INT_MAX : Z := 2 ^ 31 - 1.
Definition INT_MIN : Z := - 2 ^ 31.

(** Conversion to [int16_t]. *)
Definition s16 (z : Z) : Z :=
  let w := z mod 2 ^ 16 in if w <? 2 ^ 15 then w else w - 2 ^ 16.

(** The result of a signed [int] operation: undefined when not representable. *)
Definition c_int (z : Z) : M Z :=
  if (INT_MIN <=? z) && (z <=? INT_MAX) then mret z else undef.

Lemma u32_small z : 0 ≤ z < 2 ^ 32 → u32 z = z.
Proof. intros. by apply Z.mod_small. Qed.
Lemma u64_small z : 0 ≤ z < 2 ^ 64 → u64 z = z.
Proof. intros. by apply Z.mod_small. Qed.
Lemma u8_small z : 0 ≤ z < 2 ^ 8 → u8 z = z.
Proof. intros. by apply Z.mod_small. Qed.

Lemma runs_c_int z P E :
  INT_MIN ≤ z ≤ INT_MAX → P z → runs (c_int z) P E.
Proof.
  intros Hz HP. unfold c_int. apply runs_if; intros Hb.
  - by apply runs_ret.
  - apply andb_false_iff in Hb. destruct Hb as [Hb|Hb]; apply Z.leb_gt in Hb; lia.
Qed.

(** A bitwise or of a multiple of 2^[k] and a number below it is a sum. *)
Lemma lor_low q y k : 0 ≤ k → 0 ≤ y < 2 ^ k → Z.lor (q * 2 ^ k) y = q * 2 ^ k + y.
Proof.
  intros Hk Hy. symmetry. apply Z.add_nocarry_lor. apply Z.bits_inj'. intros n Hn.
  rewrite Z.land_spec, Z.bits_0. destruct (decide (n < k)) as [Hlt|Hge].
  - rewrite <- Z.shiftl_mul_pow2 by done. by rewrite Z.shiftl_spec_low.
  - destruct (decide (y = 0)) as [->|Hy0]; [by rewrite Z.bits_0, andb_false_r|].
    rewrite (Z.bits_above_log2 y n), andb_false_r; [done|lia|].
    apply Z.log2_lt_pow2; [lia|]. apply Z.lt_le_trans with (2 ^ k); [lia|].
    apply Z.pow_le_mono_r; lia.
Qed.

(** ** Arrays: an access outside the bounds is undefined *)

Definition rd {A} (l : list A) (i : nat) : M A :=
  match l !! i with Some x => mret x | None => undef end.

Definition wr {A} (l : list A) (i : nat) (x : A) : M (list A) :=
  if decide (i < length l)%nat then mret (<[i:=x]> l) else undef.

Lemma runs_rd {A} (l : list A) i x (P : A → Prop) E :
  l !! i = Some x → P x → runs (rd l i) P E.
Proof. intros H HP. unfold rd. rewrite H. by apply runs_ret. Qed.

Lemma runs_wr {A} (l : list A) i x (P : list A → Prop) E :
  (i < length l)%nat → P (<[i:=x]> l) → runs (wr l i x) P E.
Proof. intros H HP. unfold wr. rewrite decide_True by done. by apply runs_ret. Qed.

Definition Zlength' {A} (l : list A) : Z := Z.of_nat (length l).

(** Induction on a list two elements at a time. *)
Lemma list_pairs_ind {A} (P : list A → Prop) :
  P [] → (∀ x, P [x]) → (∀ x y l, P l → P (x :: y :: l)) → ∀ l, P l.
Proof. intros H0 H1 H2. refine (fix IH l := _). destruct l as [|x [|y l]]; [done|apply H1|apply H2, IH]. Qed.

(** ** Bytes and C strings

    A [char *] is the list of the bytes stored before its terminating NUL; the
    list may itself contain NUL bytes (decoded names are length-prefixed), in
    which case the C string functions stop at the first one. *)

Definition is_byte (b : Z) : Prop := 0 ≤ b < 256.

Definition ascii_code (c : Ascii.ascii) : Z := Z.of_N (Ascii.N_of_ascii c).

Fixpoint str (s : string) : list Z :=
  match s with
  | EmptyString => []
  | String c s' => ascii_code c :: str s'
  end.

(** The bytes the C string functions see. *)
Fixpoint cstr (s : list Z) : list Z :=
  match s with
  | [] => []
  | c :: s' => if c =? 0 then [] else c :: cstr s'
  end.

(** [strcmp], reduced to its sign. *)
Fixpoint strcmp (a b : list Z) : Z :=
  match a, b with
  | [], [] => 0
  | [], y :: _ => if y =? 0 then 0 else -1
  | x :: _, [] => if x =? 0 then 0 else 1
  | x :: a', y :: b' =>
      if x =? y then (if x =? 0 then 0 else strcmp a' b') else if x <? y then -1 else 1
  end.

(** [memcmp] of two blocks of the same length, reduced to its sign. *)
Fixpoint memcmp (a b : list Z) : Z :=
  match a, b with
  | x :: a', y :: b' => if x =? y then memcmp a' b' else if x <? y then -1 else 1
  | _, _ => 0
  end.

Definition strlen (s : list Z) : nat := length (cstr s).

(** [!strcmp(a, b)] *)
Definition streq (a b : list Z) : bool := strcmp a b =? 0.
(** [!strcmp(a, "literal")] *)
Definition is_name (a : list Z) (s : string) : bool := streq a (str s).

Lemma streq_cstr a b : streq a b = bool_decide (cstr a = cstr b).
Proof.
  revert b. induction a as [|x a IH]; intros [|y b]; simpl; try done.
  - unfold streq. simpl. destruct (Z.eqb_spec y 0); simpl; by rewrite ?bool_decide_false.
  - unfold streq. simpl. destruct (Z.eqb_spec x 0); simpl; by rewrite ?bool_decide_false.
  - unfold streq in *. simpl. destruct (Z.eqb_spec x y) as [->|Hne].
    + destruct (Z.eqb_spec y 0) as [->|Hy]; [by rewrite bool_decide_true|].
      rewrite IH. apply bool_decide_ext. split; [by intros ->|by intros [=]].
    + replace (((if x <? y then -1 else 1) =? 0)) with false by (by destruct (x <? y)).
      symmetry. apply bool_decide_false.
      destruct (Z.eqb_spec x 0), (Z.eqb_spec y 0); congruence.
Qed.

Lemma strcmp_refl a : strcmp a a = 0.
Proof. induction a as [|x a IH]; simpl; [done|]. rewrite Z.eqb_refl. by destruct (x =? 0). Qed.

Lemma strcmp_sym a b : strcmp b a = - strcmp a b.
Proof.
  revert b. induction a as [|x a IH]; intros [|y b]; simpl; try done;
    try (destruct (Z.eqb_spec y 0); done); try (destruct (Z.eqb_spec x 0); done).
  destruct (Z.eqb_spec x y) as [->|Hne].
  - rewrite Z.eqb_refl. destruct (y =? 0); [done|apply IH].
  - destruct (Z.eqb_spec y x); [congruence|].
    destruct (Z.ltb_spec x y), (Z.ltb_spec y x); lia.
Qed.

(** The order of [strcmp] is the lexicographic order of the visible bytes. *)
Lemma strcmp_range a b : strcmp a b = -1 ∨ strcmp a b = 0 ∨ strcmp a b = 1.
Proof.
  revert b. induction a as [|x a IH]; intros [|y b]; simpl; auto;
    repeat (case_match; auto).
Qed.

Lemma strcmp_trans a b c :
  Forall is_byte a → Forall is_byte b → Forall is_byte c →
  strcmp a b = -1 → strcmp b c = -1 → strcmp a c = -1.
Proof.
  intros Ha. revert b c. induction Ha as [|x a Hx Ha IH]; intros b c Hb Hc;
    destruct Hb as [|y b Hy Hb]; destruct Hc as [|z c Hz Hc]; simpl; try done;
    unfold is_byte in *.
  - by destruct (y =? 0).
  - destruct (Z.eqb_spec y 0) as [|Hy0]; [done|]. intros _.
    destruct (Z.eqb_spec z 0) as [->|]; [|done].
    destruct (Z.eqb_spec y 0); [done|]. destruct (Z.ltb_spec y 0); [lia|done].
  - by destruct (x =? 0).
  - intros _. by destruct (y =? 0).
  - destruct (Z.eqb_spec x y) as [->|Hxy].
    + destruct (Z.eqb_spec y z) as [->|].
      * destruct (z =? 0); [done|]. by apply IH.
      * destruct (Z.eqb_spec y 0); [done|]. by destruct (y <? z).
    + destruct (Z.ltb_spec x y); [|done]. intros _. destruct (Z.eqb_spec y z) as [->|].
      * destruct (Z.eqb_spec z 0); [done|]. intros _. destruct (Z.eqb_spec x z); [lia|].
        destruct (Z.ltb_spec x z); [done|lia].
      * destruct (Z.ltb_spec y z); [|done]. intros _. destruct (Z.eqb_spec x z); [lia|].
        destruct (Z.ltb_spec x z); [done|lia].
Qed.

(** ** Tactics *)

(** One step of symbolic execution of a monadic definition. *)
Ltac mret := apply runs_ret.
Ltac mbind H := eapply runs_bind; [eapply H|].
Tactic Notation "mbind" uconstr(H) "as" simple_intropattern(x) simple_intropattern(Hx) :=
  eapply runs_bind; [eapply H|intros x Hx; cbv beta in *].
Ltac mif := apply runs_if; [let H := fresh "Hc" in intros H|let H := fresh "Hc" in intros H].

(** [lia] after evaluating constant powers of two. *)
Ltac zpow :=
  repeat match goal with
  | |- context [Z.pow 2 (Zpos ?n)] =>
      let v := eval vm_compute in (2 ^ Zpos n) in change (2 ^ Zpos n) with v
  | H : context [Z.pow 2 (Zpos ?n)] |- _ =>
      let v := eval vm_compute in (2 ^ Zpos n) in change (2 ^ Zpos n) with v in H
  end.
Ltac clia := unfold SIZE_MAX, UINT64_MAX, INT_MAX, INT_MIN in *; zpow; Z.to_euclidean_division_equations; lia.

(** Turn boolean comparisons into propositions. *)
Ltac zbool :=
  repeat match goal with
  | H : context [negb ?b = true] |- _ => rewrite negb_true_iff in H
  | H : context [negb ?b = false] |- _ => rewrite negb_false_iff in H
  | H : _ && _ = true |- _ => apply andb_true_iff in H as [? ?]
  | H : _ || _ = false |- _ => apply orb_false_iff in H as [? ?]
  | H : (_ =? _) = true |- _ => apply Z.eqb_eq in H
  | H : (_ =? _) = false |- _ => apply Z.eqb_neq in H
  | H : (_ <? _) = true |- _ => apply Z.ltb_lt in H
  | H : (_ <? _) = false |- _ => apply Z.ltb_ge in H
  | H : (_ <=? _) = true |- _ => apply Z.leb_le in H
  | H : (_ <=? _) = false |- _ => apply Z.leb_gt in H
  | H : bool_decide _ = true |- _ => apply bool_decide_eq_true in H
  | H : bool_decide _ = false |- _ => apply bool_decide_eq_false in H
  end.

(** Prove a decidable proposition about concrete data by evaluation. *)
Ltac decide_now := apply (bool_decide_unpack _); vm_compute; exact I.

(** ** Sums over finite maps *)

Section sums.
Context {K A : Type} `{Countable K}.
Implicit Types (f : A → nat) (g : gmap K A).

Definition sumf f g : nat := sum_list_with (f ∘ snd) (map_to_list g).

Lemma sumf_insert f g x c : g !! x = None → sumf f (<[x:=c]> g) = (f c + sumf f g)%nat.
Proof. intros Hx. unfold sumf. rewrite (map_to_list_insert g x c Hx). done. Qed.
Lemma sumf_delete f g x c : g !! x = Some c → sumf f g = (f c + sumf f (delete x g))%nat.
Proof. intros Hx. rewrite <- (insert_delete_id g x c Hx) at 1. apply sumf_insert, lookup_delete_eq. Qed.
Lemma sumf_update f g x c c' : g !! x = Some c → (sumf f (<[x:=c']> g) + f c = sumf f g + f c')%nat.
Proof.
  intros Hx. rewrite (sumf_delete f g x c Hx), <- (insert_delete_eq g x c').
  rewrite sumf_insert by apply lookup_delete_eq. lia.
Qed.
Lemma sumf_le f1 f2 g : (∀ c, f1 c ≤ f2 c)%nat → (sumf f1 g ≤ sumf f2 g)%nat.
Proof.
  intros Hf. unfold sumf. induction (map_to_list g) as [|[y c] l IH]; simpl; [done|]. specialize (Hf c). lia.
Qed.
Lemma sumf_add f1 f2 g : sumf (λ c, f1 c + f2 c)%nat g = (sumf f1 g + sumf f2 g)%nat.
Proof. unfold sumf. induction (map_to_list g) as [|[y c] l IH]; simpl; [done|]. rewrite IH. lia. Qed.
Lemma sumf_zero f g : (∀ x c, g !! x = Some c → f c = 0%nat) → sumf f g = 0%nat.
Proof.
  induction g as [|x c g Hx IH] using map_ind; intros Hf; [done|]. rewrite sumf_insert by done.
  rewrite (Hf x c) by apply lookup_insert_eq. apply IH. intros y d Hy. apply (Hf y).
  rewrite lookup_insert_ne; [done|]. congruence.
Qed.
End sums.
