(* ===== verification/Bigint.v ===== *)
(** * Arbitrary-precision integers: src/src/vm/bigint.c

    [PnBigInt] is a sign and a little-endian array of base-10^9 limbs.  Every
    function of bigint.c is translated with its allocation failures, its
    unsigned wrap-around and its array accesses ([Prelude.rd]/[Prelude.wr] make
    an access outside the array undefined).  The theorems say that each
    operation computes the integer operation it is named after, keeps the
    canonical form [wf], and fails only when memory was refused. *)

From Stdlib Require Import ZArith Lia.
From stdpp Require Import prelude gmap strings.
From S2P Require Import Prelude.

(** ** Data *)

Definition BASE : Z := 1000000000.

Record PnBigInt := mkBig { sign : Z; limbs : list Z }.

Definition len (b : PnBigInt) : nat := length (limbs b).

#[global] Instance PnBigInt_eq_dec : EqDecision PnBigInt.
Proof. solve_decision. Defined.

(** ** Operations *)

(** The [while (len && limbs[len - 1] == 0) len--] loop. *)
Fixpoint normalize_len (l : list Z) (n : nat) : nat :=
  match n with
  | O => O
  | S m => if default 0 (l !! m) =? 0 then normalize_len l m else n
  end.

Definition normalize (v : PnBigInt) : PnBigInt :=
  let n := normalize_len (limbs v) (len v) in
  {| sign := if decide (n = 0%nat) then 0 else sign v; limbs := take n (limbs v) |}.

Definition resize (v : PnBigInt) (length : nat) : M PnBigInt :=
  if SIZE_MAX / 4 <? Z.of_nat length then nomem
  else
    _ ← (if decide (length = 0%nat) then mret tt else alloc);
    mret {| sign := sign v;
            limbs := take length (limbs v) ++ replicate (length - len v) 0 |}.

Definition pn_big_init : PnBigInt := {| sign := 0; limbs := [] |}.

Definition pn_big_copy (v : PnBigInt) : M PnBigInt :=
  out ← resize pn_big_init (len v);
  mret {| sign := sign v; limbs := limbs v |}.

(** [for (rest = value; rest; rest /= BASE) count++] *)
Fixpoint u64_count (fuel : nat) (rest : Z) : M nat :=
  if rest =? 0 then mret O
  else match fuel with
       | O => diverge
       | S f => n ← u64_count f (rest / BASE); mret (S n)
       end.

Fixpoint u64_limbs (count : nat) (value : Z) : list Z :=
  match count with
  | O => []
  | S c => u32 (value mod BASE) :: u64_limbs c (value / BASE)
  end.

Definition pn_big_from_u64 (value : Z) : M PnBigInt :=
  if value =? 0 then mret pn_big_init
  else
    count ← u64_count 3 value;
    out ← resize pn_big_init count;
    mret {| sign := 1; limbs := u64_limbs (len out) value |}.

Fixpoint mul_small_loop (l : list Z) (factor carry : Z) : list Z * Z :=
  match l with
  | [] => ([], carry)
  | x :: l' =>
      let product := u64 (u64 (x * factor) + carry) in
      let '(r, c) := mul_small_loop l' factor (product / BASE) in
      (u32 (product mod BASE) :: r, c)
  end.

(** Append the final carry of a limb loop as a new top limb. *)
Definition push_carry (v : PnBigInt) (carry : Z) : M PnBigInt :=
  if carry =? 0 then mret v
  else
    let old := len v in
    v' ← resize v (old + 1);
    l ← wr (limbs v') old (u32 carry);
    mret {| sign := sign v'; limbs := l |}.

Definition pn_big_mul_small (v : PnBigInt) (factor : Z) : M PnBigInt :=
  if (sign v =? 0) || (factor =? 1) then mret v
  else if factor =? 0 then mret {| sign := 0; limbs := [] |}
  else
    let '(l, carry) := mul_small_loop (limbs v) factor 0 in
    push_carry {| sign := sign v; limbs := l |} carry.

Fixpoint add_small_loop (l : list Z) (carry : Z) : list Z * Z :=
  match l with
  | [] => ([], carry)
  | x :: l' =>
      if carry =? 0 then (l, 0)
      else
        let sum := u64 (x + carry) in
        let '(r, c) := add_small_loop l' (sum / BASE) in
        (u32 (sum mod BASE) :: r, c)
  end.

Definition pn_big_add_small (v : PnBigInt) (addend : Z) : M PnBigInt :=
  if addend =? 0 then mret v
  else if sign v =? 0 then pn_big_from_u64 addend
  else
    let '(l, carry) := add_small_loop (limbs v) addend in
    push_carry {| sign := sign v; limbs := l |} carry.

Fixpoint from_bytes_loop (out : PnBigInt) (bytes : list Z) : M PnBigInt :=
  match bytes with
  | [] => mret out
  | b :: rest =>
      out ← (out ← pn_big_mul_small out 256; pn_big_add_small out b);
      from_bytes_loop out rest
  end.

Definition pn_big_from_bytes (bytes : list Z) : M PnBigInt :=
  from_bytes_loop pn_big_init bytes.

Fixpoint from_digits_loop (out : PnBigInt) (digits : list Z) : M PnBigInt :=
  match digits with
  | [] => mret out
  | d :: rest =>
      if (d <? 48) || (57 <? d) then nomem
      else
        out ← (out ← pn_big_mul_small out 10; pn_big_add_small out (u32 (d - 48)));
        from_digits_loop out rest
  end.

Definition pn_big_from_digits (digits : list Z) (s : Z) : M PnBigInt :=
  out ← from_digits_loop pn_big_init digits;
  mret (if decide (len out = 0%nat) then out
        else {| sign := if s <? 0 then -1 else 1; limbs := limbs out |}).

(** printf's %u and %09u conversions of a [uint32_t]. *)
Fixpoint fmt_digits (n : nat) (z : Z) : list Z :=
  match n with
  | O => []
  | S m => fmt_digits m (z / 10) ++ [48 + z mod 10]
  end.

Fixpoint count_digits (fuel : nat) (z : Z) : nat :=
  match fuel with
  | O => 1
  | S f => if z <? 10 then 1 else S (count_digits f (z / 10))
  end.

Definition fmt_u (z : Z) : list Z := fmt_digits (count_digits 10 z) z.
Definition fmt_09u (z : Z) : list Z := fmt_digits (Nat.max 9 (count_digits 10 z)) z.

(** [snprintf(text + at, cap - at, ...)]: the text must fit with its NUL. *)
Definition append_text (cap : Z) (text s : list Z) : M (list Z) :=
  if Z.of_nat (length text + length s) <? cap then mret (text ++ s) else undef.

(** [for (i = len - 1; i-- > 0;)] over the limbs below the top one. *)
Fixpoint string_loop (cap : Z) (text : list Z) (l : list Z) (i : nat) : M (list Z) :=
  match i with
  | O => mret text
  | S j =>
      x ← rd l j;
      text ← append_text cap text (fmt_09u x);
      string_loop cap text l j
  end.

Definition pn_big_string (v : PnBigInt) : M (list Z) :=
  if sign v =? 0 then _ ← alloc; mret [48]
  else
    let cap := Z.of_nat (len v) * 9 + 2 in
    _ ← alloc;
    let text := if sign v <? 0 then [45] else [] in
    top ← rd (limbs v) (len v - 1);
    text ← append_text cap text (fmt_u top);
    string_loop cap text (limbs v) (len v - 1).

(** [for (i = len; i-- > 0;)] with both arrays of that length. *)
Fixpoint abs_compare_loop (a b : list Z) (i : nat) : Z :=
  match i with
  | O => 0
  | S j =>
      let x := default 0 (a !! j) in
      let y := default 0 (b !! j) in
      if x =? y then abs_compare_loop a b j else if x <? y then -1 else 1
  end.

Definition abs_compare (a b : PnBigInt) : Z :=
  if decide (len a = len b) then abs_compare_loop (limbs a) (limbs b) (len a)
  else if decide (len a < len b)%nat then -1 else 1.

Definition pn_big_compare (a b : PnBigInt) : Z :=
  if negb (sign a =? sign b) then (if sign a <? sign b then -1 else 1)
  else
    let result := abs_compare a b in
    if sign a <? 0 then - result else result.

(** [i < a->len ? a->limbs[i] : 0] read through a cursor. *)
Definition limb0 (l : list Z) : Z := default 0 (head l).

Fixpoint abs_add_loop (n : nat) (a b : list Z) (carry : Z) : list Z * Z :=
  match n with
  | O => ([], carry)
  | S m =>
      let sum := u64 (carry + limb0 a + limb0 b) in
      let '(r, c) := abs_add_loop m (tail a) (tail b) (sum / BASE) in
      (u32 (sum mod BASE) :: r, c)
  end.

Definition abs_add (a b : PnBigInt) : M PnBigInt :=
  let count := (Nat.max (len a) (len b) + 1)%nat in
  out ← resize pn_big_init count;
  let '(l, carry) := abs_add_loop (count - 1) (limbs a) (limbs b) 0 in
  mret (normalize {| sign := sign out; limbs := l ++ [u32 carry] |}).

Fixpoint abs_sub_loop (a b : list Z) (borrow : Z) : list Z :=
  match a with
  | [] => []
  | x :: a' =>
      let diff := x - limb0 b - borrow in
      if diff <? 0 then u32 (diff + BASE) :: abs_sub_loop a' (tail b) 1
      else u32 diff :: abs_sub_loop a' (tail b) 0
  end.

Definition abs_sub (a b : PnBigInt) : M PnBigInt :=
  out ← resize pn_big_init (len a);
  mret (normalize {| sign := sign out; limbs := abs_sub_loop (limbs a) (limbs b) 0 |}).

Definition set_sign (v : PnBigInt) (s : Z) : PnBigInt := {| sign := s; limbs := limbs v |}.

Definition pn_big_add (a b : PnBigInt) : M PnBigInt :=
  if sign a =? 0 then pn_big_copy b
  else if sign b =? 0 then pn_big_copy a
  else if sign a =? sign b then
    out ← abs_add a b; mret (set_sign out (sign a))
  else
    let cmp := abs_compare a b in
    if cmp =? 0 then mret pn_big_init
    else
      out ← (if 0 <? cmp then abs_sub a b else abs_sub b a);
      mret (set_sign out (if 0 <? cmp then sign a else sign b)).

Definition pn_big_sub (a b : PnBigInt) : M PnBigInt :=
  pn_big_add a (set_sign b (- sign b)).

(** The inner [for (j ...)] loop of [pn_big_mul]; [k] is [i + j]. *)
Fixpoint mul_row (out : list Z) (k : nat) (ai : Z) (b : list Z) (carry : Z) : M (list Z * Z) :=
  match b with
  | [] => mret (out, carry)
  | bj :: b' =>
      x ← rd out k;
      let current := u64 (x + u64 (ai * bj) + carry) in
      out ← wr out k (u32 (current mod BASE));
      mul_row out (S k) ai b' (current / BASE)
  end.

(** The [while (carry)] loop of [pn_big_mul]. *)
Fixpoint mul_carry (fuel : nat) (out : list Z) (k : nat) (carry : Z) : M (list Z) :=
  if carry =? 0 then mret out
  else match fuel with
       | O => diverge
       | S f =>
           x ← rd out k;
           let current := u64 (x + carry) in
           out ← wr out k (u32 (current mod BASE));
           mul_carry f out (S k) (current / BASE)
       end.

Fixpoint mul_loop (out : list Z) (i : nat) (a b : list Z) : M (list Z) :=
  match a with
  | [] => mret out
  | ai :: a' =>
      '(out, carry) ← mul_row out i ai b 0;
      out ← mul_carry (length out) out (i + length b) carry;
      mul_loop out (S i) a' b
  end.

Definition pn_big_mul (a b : PnBigInt) : M PnBigInt :=
  if (sign a =? 0) || (sign b =? 0) then mret pn_big_init
  else if SIZE_MAX - Z.of_nat (len b) <? Z.of_nat (len a) then nomem
  else
    out ← resize pn_big_init (len a + len b);
    l ← mul_loop (limbs out) 0 (limbs a) (limbs b);
    mret (normalize {| sign := sign a * sign b; limbs := l |}).

(** The limbs are visited from the top one down, as the recursion returns. *)
Fixpoint div_small_loop (l : list Z) (divisor : Z) : list Z * Z :=
  match l with
  | [] => ([], 0)
  | x :: l' =>
      let '(q, remainder) := div_small_loop l' divisor in
      let current := u64 (remainder * BASE + x) in
      (u32 (current / divisor) :: q, current mod divisor)
  end.

Definition pn_big_div_small (v : PnBigInt) (divisor : Z) : M (PnBigInt * Z) :=
  if (divisor =? 0) && negb (bool_decide (len v = 0%nat)) then undef
  else
    let '(q, remainder) := div_small_loop (limbs v) divisor in
    mret (normalize {| sign := sign v; limbs := q |}, u32 remainder).

Definition shift_base_add (v : PnBigInt) (limb : Z) : M PnBigInt :=
  if bool_decide (len v = 0%nat) && (limb =? 0) then mret v
  else
    v' ← resize v (len v + 1);
    mret {| sign := 1; limbs := limb :: limbs v |}.

(** The binary search for one quotient digit in [pn_big_divmod]. *)
Fixpoint quotient_digit (fuel : nat) (bb r : PnBigInt) (lo hi best : Z) : M Z :=
  if lo <=? hi then
    match fuel with
    | O => diverge
    | S f =>
        let mid := u32 (lo + (hi - lo) / 2) in
        probe ← pn_big_copy bb;
        probe ← pn_big_mul_small probe mid;
        let cmp := abs_compare probe r in
        if cmp <=? 0 then
          if mid =? BASE - 1 then mret mid
          else quotient_digit f bb r (u32 (mid + 1)) hi mid
        else
          if mid =? 0 then mret best
          else quotient_digit f bb r lo (u32 (mid - 1)) best
    end
  else mret best.

(** [for (pos = aa.len; pos-- > 0;)] of [pn_big_divmod]. *)
Fixpoint divmod_loop (pos : nat) (aa : list Z) (bb : PnBigInt) (q : list Z) (r : PnBigInt)
  : M (list Z * PnBigInt) :=
  match pos with
  | O => mret (q, r)
  | S p =>
      limb ← rd aa p;
      r ← shift_base_add r limb;
      best ← quotient_digit 31 bb r 0 (BASE - 1) 0;
      q ← wr q p best;
      r ← (if best =? 0 then mret r
           else
             product ← pn_big_copy bb;
             product ← pn_big_mul_small product best;
             abs_sub r product);
      divmod_loop p aa bb q r
  end.

Definition pn_big_divmod (a b : PnBigInt) : M (PnBigInt * PnBigInt) :=
  if sign b =? 0 then nomem
  else
    aa ← pn_big_copy a;
    bb ← pn_big_copy b;
    let aa := set_sign aa (if decide (len aa = 0%nat) then 0 else 1) in
    let bb := set_sign bb (if decide (len bb = 0%nat) then 0 else 1) in
    if abs_compare aa bb <? 0 then
      r ← pn_big_copy a;
      mret (pn_big_init, r)
    else
      q ← resize pn_big_init (len aa);
      '(ql, r) ← divmod_loop (len aa) (limbs aa) bb (limbs q) pn_big_init;
      let q := {| sign := if decide (length ql = 0%nat) then 0 else sign a * sign b;
                  limbs := ql |} in
      mret (normalize q, set_sign r (if decide (len r = 0%nat) then 0 else sign a)).

Fixpoint pn_big_pow10 (v : PnBigInt) (power : nat) : M PnBigInt :=
  match power with
  | O => mret v
  | S p => v ← pn_big_mul_small v 10; pn_big_pow10 v p
  end.

Definition pn_big_is_zero (v : PnBigInt) : bool := sign v =? 0.

Definition pn_big_is_one (v : PnBigInt) : bool :=
  (sign v =? 1) && bool_decide (len v = 1%nat) && (default 0 (limbs v !! 0%nat) =? 1).

Fixpoint fits_size_loop (l : list Z) : option Z :=
  match l with
  | [] => Some 0
  | x :: l' =>
      match fits_size_loop l' with
      | None => None
      | Some result =>
          if (SIZE_MAX - x) / BASE <? result then None else Some (u64 (result * BASE + x))
      end
  end.

Definition pn_big_fits_size (v : PnBigInt) : option Z :=
  if sign v <? 0 then None else fits_size_loop (limbs v).

(** ** The integer a bigint denotes *)

Fixpoint eval (l : list Z) : Z :=
  match l with [] => 0 | x :: l' => x + BASE * eval l' end.

Definition to_Z (b : PnBigInt) : Z := sign b * eval (limbs b).

Definition limb_ok (x : Z) : Prop := 0 ≤ x < BASE.
Definition limbs_ok (l : list Z) : Prop := Forall limb_ok l.

(** Canonical limbs: each below the base and the top one not zero. *)
Definition canonical (l : list Z) : Prop := limbs_ok l ∧ last l ≠ Some 0.

(** The representation invariant of [PnBigInt] between calls. *)
Definition wf (b : PnBigInt) : Prop :=
  canonical (limbs b) ∧
  (sign b = 0 ∧ limbs b = [] ∨ (sign b = 1 ∨ sign b = -1) ∧ limbs b ≠ []).

(** At most [k] limbs. *)
Definition sized (k : Z) (b : PnBigInt) : Prop := Z.of_nat (len b) ≤ k.

(** Powers of the base, indexed by a limb position. *)
Definition pw (n : nat) : Z := BASE ^ Z.of_nat n.

Lemma pw_0 : pw 0 = 1.
Proof. done. Qed.
Lemma pw_S n : pw (S n) = BASE * pw n.
Proof. unfold pw. rewrite Nat2Z.inj_succ, Z.pow_succ_r; lia. Qed.
Lemma pw_pos n : 0 < pw n.
Proof. unfold pw. apply Z.pow_pos_nonneg; unfold BASE; lia. Qed.
Lemma pw_add n m : pw (n + m) = pw n * pw m.
Proof. unfold pw. rewrite Nat2Z.inj_add, Z.pow_add_r; lia. Qed.
Lemma pw_mono n m : (n ≤ m)%nat → pw n ≤ pw m.
Proof. intros. unfold pw. apply Z.pow_le_mono_r; unfold BASE; lia. Qed.

Lemma BASE_pos : 0 < BASE.
Proof. done. Qed.
#[export] Hint Resolve BASE_pos pw_pos : core.

Lemma eval_app l1 l2 : eval (l1 ++ l2) = eval l1 + pw (length l1) * eval l2.
Proof.
  induction l1 as [|x l1 IH]; simpl; [rewrite pw_0; lia|].
  rewrite IH, pw_S. lia.
Qed.

Lemma eval_bound l : limbs_ok l → 0 ≤ eval l < pw (length l).
Proof.
  induction 1 as [|x l Hx _ IH]; simpl; [rewrite pw_0; lia|].
  rewrite pw_S. unfold limb_ok in Hx. nia.
Qed.

Lemma eval_replicate n : eval (replicate n 0) = 0.
Proof. induction n; simpl; lia. Qed.

Lemma limbs_ok_replicate n : limbs_ok (replicate n 0).
Proof. apply Forall_replicate. unfold limb_ok, BASE. lia. Qed.

Lemma eval_insert l k x y :
  l !! k = Some x → eval (<[k:=y]> l) = eval l + (y - x) * pw k.
Proof.
  revert k. induction l as [|z l IH]; intros [|k] H; simpl in *; try done.
  - injection H as ->. rewrite pw_0. lia.
  - rewrite (IH _ H), pw_S. lia.
Qed.

Lemma limbs_ok_insert l k y : limbs_ok l → limb_ok y → limbs_ok (<[k:=y]> l).
Proof. intros. by apply Forall_insert. Qed.

Lemma limbs_ok_lookup l k x : limbs_ok l → l !! k = Some x → limb_ok x.
Proof. intros H Hk. by eapply Forall_lookup_1 in H. Qed.

Lemma limb_ok_mod z : limb_ok (u32 (z mod BASE)).
Proof.
  pose proof (Z.mod_pos_bound z BASE BASE_pos). unfold limb_ok.
  rewrite u32_small; unfold BASE in *; lia.
Qed.

Lemma u32_mod_base z : u32 (z mod BASE) = z mod BASE.
Proof. pose proof (Z.mod_pos_bound z BASE BASE_pos). rewrite u32_small; unfold BASE in *; lia. Qed.

(** The top limb is non-zero exactly when the value needs every limb. *)
Lemma last_nonzero l :
  limbs_ok l → l ≠ [] → (last l ≠ Some 0 ↔ pw (length l - 1) ≤ eval l).
Proof.
  intros Hok Hne. destruct (exists_last Hne) as (l' & x & ->).
  unfold limbs_ok in Hok. rewrite Forall_app, Forall_singleton in Hok.
  destruct Hok as [Hl Hx]. apply eval_bound in Hl.
  rewrite last_snoc, length_app, eval_app. simpl.
  replace (length l' + 1 - 1)%nat with (length l') by lia.
  pose proof (pw_pos (length l')). unfold limb_ok in Hx. split.
  - intros Hnz. assert (x ≠ 0) by congruence. nia.
  - intros Hle [= ->]. nia.
Qed.

Lemma canonical_nil : canonical [].
Proof. by split; [constructor|]. Qed.

Lemma canonical_eval_pos l : canonical l → l ≠ [] → pw (length l - 1) ≤ eval l.
Proof. intros [Hok Hl] Hne. by apply last_nonzero. Qed.

Lemma canonical_eval_0 l : canonical l → eval l = 0 → l = [].
Proof.
  intros Hc He. destruct (decide (l = [])) as [->|Hne]; [done|].
  pose proof (canonical_eval_pos l Hc Hne). pose proof (pw_pos (length l - 1)). lia.
Qed.

Lemma canonical_snoc l x : limbs_ok l → limb_ok x → x ≠ 0 → canonical (l ++ [x]).
Proof.
  intros. split.
  - apply Forall_app. by rewrite Forall_singleton.
  - rewrite last_snoc. congruence.
Qed.

Lemma canonical_inv_tail x l : canonical (x :: l) → canonical l.
Proof.
  intros [Hok Hl]. inversion Hok; subst. split; [done|].
  destruct l; [done|]. by rewrite last_cons_cons in Hl.
Qed.

(** Equal values have equal canonical limbs. *)
Lemma canonical_inj a b : canonical a → canonical b → eval a = eval b → a = b.
Proof.
  revert b. induction a as [|x a IH]; intros b Ha Hb He.
  - symmetry. apply canonical_eval_0; [done|]. by rewrite <- He.
  - destruct b as [|y b]; [by apply canonical_eval_0 in Ha|].
    assert (limb_ok x ∧ limb_ok y) as [Hx Hy].
    { destruct Ha as [Ha _], Hb as [Hb _]. by inversion Ha; inversion Hb. }
    simpl in He. unfold limb_ok in *.
    assert (x = y ∧ eval a = eval b) as [-> Hab]
      by (split; [|]; unfold BASE in *; lia).
    f_equal. apply IH; eauto using canonical_inv_tail.
Qed.

(** [abs_compare] orders canonical magnitudes. *)
Lemma abs_compare_loop_spec a b n :
  limbs_ok a → limbs_ok b → (n ≤ length a)%nat → (n ≤ length b)%nat →
  abs_compare_loop a b n = Z.sgn (eval (take n a) - eval (take n b)).
Proof.
  intros Ha Hb. induction n as [|n IH]; intros Hna Hnb.
  - by rewrite !take_0.
  - destruct (lookup_lt_is_Some_2 a n ltac:(lia)) as [x Hx].
    destruct (lookup_lt_is_Some_2 b n ltac:(lia)) as [y Hy].
    simpl. rewrite Hx, Hy, IH by lia. simpl.
    rewrite (take_S_r _ _ _ Hx), (take_S_r _ _ _ Hy), !eval_app, !length_take.
    rewrite !Nat.min_l by lia. simpl.
    pose proof (eval_bound (take n a) ltac:(by apply Forall_take)) as Ba.
    pose proof (eval_bound (take n b) ltac:(by apply Forall_take)) as Bb.
    rewrite length_take, Nat.min_l in Ba, Bb by lia.
    pose proof (limbs_ok_lookup _ _ _ Ha Hx). pose proof (limbs_ok_lookup _ _ _ Hb Hy).
    unfold limb_ok in *.
    destruct (Z.eqb_spec x y) as [->|Hne]; [f_equal; lia|].
    destruct (Z.ltb_spec x y); symmetry; [apply Z.sgn_neg|apply Z.sgn_pos]; nia.
Qed.

Lemma canonical_length_lt a b :
  canonical a → canonical b → (length a < length b)%nat → eval a < eval b.
Proof.
  intros Ha Hb Hlt. destruct Ha as [Ha _]. apply eval_bound in Ha.
  assert (b ≠ []) by (intros ->; simpl in *; lia).
  pose proof (canonical_eval_pos b Hb ltac:(done)).
  pose proof (pw_mono (length a) (length b - 1) ltac:(lia)). lia.
Qed.

Lemma abs_compare_spec a b :
  canonical (limbs a) → canonical (limbs b) →
  abs_compare a b = Z.sgn (eval (limbs a) - eval (limbs b)).
Proof.
  intros Ha Hb. unfold abs_compare, len. case_decide as Hl.
  - rewrite abs_compare_loop_spec by (try apply Ha; try apply Hb; lia).
    rewrite (take_ge (limbs a)), (take_ge (limbs b)) by lia. done.
  - case_decide.
    + symmetry. apply Z.sgn_neg. pose proof (canonical_length_lt _ _ Ha Hb). lia.
    + symmetry. apply Z.sgn_pos. pose proof (canonical_length_lt _ _ Hb Ha). lia.
Qed.

(** ** Normalization and allocation *)

Lemma normalize_len_le l n : (normalize_len l n ≤ n)%nat.
Proof. induction n as [|n IH]; simpl; [lia|]. destruct (_ =? _); lia. Qed.

Lemma normalize_len_eval l n :
  (n ≤ length l)%nat → eval (take (normalize_len l n) l) = eval (take n l).
Proof.
  induction n as [|n IH]; intros Hn; simpl; [done|].
  destruct (lookup_lt_is_Some_2 l n ltac:(lia)) as [x Hx]. rewrite Hx. simpl.
  destruct (Z.eqb_spec x 0) as [->|]; [|done].
  rewrite IH by lia. rewrite (take_S_r _ _ _ Hx), eval_app. simpl. lia.
Qed.

Lemma normalize_len_canonical l n :
  limbs_ok l → (n ≤ length l)%nat → canonical (take (normalize_len l n) l).
Proof.
  intros Hok. induction n as [|n IH]; intros Hn; simpl; [apply canonical_nil|].
  destruct (lookup_lt_is_Some_2 l n ltac:(lia)) as [x Hx]. rewrite Hx. simpl.
  destruct (Z.eqb_spec x 0) as [->|Hne]; [by apply IH; lia|].
  rewrite (take_S_r _ _ _ Hx). apply canonical_snoc; [by apply Forall_take| |done].
  by eapply limbs_ok_lookup.
Qed.

(** [normalize] keeps the value and produces canonical limbs. *)
Lemma normalize_spec v :
  limbs_ok (limbs v) →
  canonical (limbs (normalize v)) ∧ eval (limbs (normalize v)) = eval (limbs v) ∧
  (len (normalize v) ≤ len v)%nat ∧
  sign (normalize v) = if decide (eval (limbs v) = 0) then 0 else sign v.
Proof.
  intros Hok. unfold normalize, len. simpl.
  pose proof (normalize_len_canonical _ _ Hok (le_n _)) as Hc.
  pose proof (normalize_len_eval (limbs v) _ (le_n _)) as He.
  rewrite (take_ge (limbs v) (length (limbs v))) in He by lia.
  pose proof (normalize_len_le (limbs v) (length (limbs v))) as Hle.
  split; [done|]. split; [done|]. split; [rewrite length_take; lia|].
  destruct (normalize_len (limbs v) (length (limbs v))) eqn:En in He, Hc, Hle |- *; simpl.
  - rewrite take_0 in He. simpl in He. by rewrite decide_True by done.
  - rewrite decide_False; [done|]. rewrite <- He. intros E0.
    apply canonical_eval_0 in E0; [|done].
    apply (f_equal length) in E0. rewrite length_take in E0. rewrite Nat.min_l in E0 by lia. done.
Qed.

Lemma normalize_mk s l :
  limbs_ok l →
  ∃ s' l', normalize {| sign := s; limbs := l |} = {| sign := s'; limbs := l' |} ∧
    canonical l' ∧ eval l' = eval l ∧ (length l' ≤ length l)%nat ∧
    s' = if decide (eval l = 0) then 0 else s.
Proof.
  intros Hok. destruct (normalize_spec {| sign := s; limbs := l |} Hok) as (H1 & H2 & H3 & H4).
  by eexists _, _.
Qed.

Lemma wf_init : wf pn_big_init.
Proof. split; [apply canonical_nil|by left]. Qed.

Lemma wf_canonical b : wf b → canonical (limbs b).
Proof. by intros []. Qed.

Lemma wf_limbs_ok b : wf b → limbs_ok (limbs b).
Proof. by intros [[] ?]. Qed.

Lemma wf_eval_nonneg b : wf b → 0 ≤ eval (limbs b).
Proof. intros H%wf_limbs_ok%eval_bound. lia. Qed.

Lemma wf_eval_pos b : wf b → sign b ≠ 0 → 0 < eval (limbs b).
Proof.
  intros [Hc [[? ?]|[? Hne]]] Hs; [done|].
  pose proof (canonical_eval_pos _ Hc Hne). pose proof (pw_pos (length (limbs b) - 1)). lia.
Qed.

Lemma wf_sign b : wf b → sign b = 0 ∨ sign b = 1 ∨ sign b = -1.
Proof. intros [_ [[? ?]|[? ?]]]; tauto. Qed.

Lemma wf_sign_sgn b : wf b → sign b = Z.sgn (to_Z b).
Proof.
  intros Hwf. unfold to_Z. destruct (wf_sign b Hwf) as [Hs|[Hs|Hs]]; rewrite Hs;
    try pose proof (wf_eval_pos b Hwf ltac:(lia)); lia.
Qed.

Lemma wf_eval_abs b : wf b → eval (limbs b) = Z.abs (to_Z b).
Proof.
  intros Hwf. unfold to_Z. pose proof (wf_eval_nonneg b Hwf).
  destruct Hwf as [_ [[Hs Hl]|[[Hs|Hs] _]]]; rewrite Hs; try lia. by rewrite Hl.
Qed.

Lemma wf_sign_0 b : wf b → sign b = 0 → to_Z b = 0.
Proof. intros _ Hs. unfold to_Z. rewrite Hs. lia. Qed.

(** Two well-formed bigints with the same value are the same bigint. *)
Lemma to_Z_inj a b : wf a → wf b → to_Z a = to_Z b → a = b.
Proof.
  intros Ha Hb He.
  assert (sign a = sign b) by (by rewrite (wf_sign_sgn a), (wf_sign_sgn b), He).
  assert (limbs a = limbs b).
  { apply canonical_inj; try by apply wf_canonical.
    by rewrite (wf_eval_abs a), (wf_eval_abs b), He. }
  destruct a, b; simpl in *; congruence.
Qed.

(** A bigint rebuilt from canonical limbs and a unit sign. *)
Lemma wf_mk s l :
  canonical l → (eval l = 0 → s = 0) → (eval l ≠ 0 → s = 1 ∨ s = -1) →
  wf {| sign := s; limbs := l |}.
Proof.
  intros Hc H0 H1. split; [done|]. simpl.
  destruct (decide (eval l = 0)) as [He|He].
  - left. split; [auto|]. by apply canonical_eval_0.
  - right. split; [auto|]. by intros ->.
Qed.

Lemma sized_le k b : wf b → 0 ≤ k → (sized k b ↔ Z.abs (to_Z b) < BASE ^ k).
Proof.
  intros Hwf Hk. rewrite <- wf_eval_abs by done. unfold sized, len.
  destruct Hwf as [Hc _]. pose proof (eval_bound _ (proj1 Hc)) as Hb. split.
  - intros Hle. apply Z.lt_le_trans with (pw (length (limbs b))); [lia|].
    unfold pw. apply Z.pow_le_mono_r; unfold BASE; lia.
  - intros Hlt. destruct (decide (limbs b = [])) as [->|Hne]; [simpl; lia|].
    pose proof (canonical_eval_pos _ Hc Hne) as Hp. unfold pw in Hp.
    apply Z.le_lt_trans with (2 := Hlt) in Hp. apply Z.pow_lt_mono_r_iff in Hp; [|unfold BASE; lia..].
    destruct (limbs b); [done|]. simpl in *. lia.
Qed.

(** The limit under which a size guard cannot fire. *)
Definition limit : Z := 2 ^ 60.

Lemma runs_resize v n P E :
  Z.of_nat n ≤ SIZE_MAX / 4 →
  P {| sign := sign v; limbs := take n (limbs v) ++ replicate (n - len v) 0 |} →
  runs (resize v n) P E.
Proof.
  intros Hn HP. unfold resize. mif; zbool; [lia|].
  case_decide.
  - mbind (runs_ret (λ _, True)) as ? _; [done|]. by mret.
  - mbind runs_alloc as ? _. by mret.
Qed.

Lemma runs_copy v P E : sized (2 ^ 61) v → P v → runs (pn_big_copy v) P E.
Proof.
  intros Hs HP. unfold pn_big_copy.
  mbind (runs_resize _ _ (λ _, True)) as out _.
  - unfold sized in *. clia.
  - done.
  - mret. by destruct v.
Qed.

Lemma push_carry_spec v carry E :
  sized (2 ^ 61) v → limb_ok carry → limbs_ok (limbs v) →
  runs (push_carry v carry)
    (λ r, limbs r = (if carry =? 0 then limbs v else limbs v ++ [carry]) ∧ sign r = sign v) E.
Proof.
  intros Hs Hc Hok. unfold push_carry. destruct (Z.eqb_spec carry 0) as [->|Hne]; [by mret|].
  mbind (runs_resize _ _ (λ r, limbs r = limbs v ++ [0] ∧ sign r = sign v)) as r [Hl Hsg].
  - unfold sized in *. clia.
  - simpl. unfold len. rewrite take_ge by lia. split; [|done].
    f_equal. by replace (length (limbs v) + 1 - length (limbs v))%nat with 1%nat by lia.
  - rewrite Hl. eapply runs_bind.
    + apply (runs_wr _ _ _ (λ l, l = limbs v ++ [carry])).
      * rewrite length_app. unfold len. simpl. lia.
      * rewrite insert_app_r_alt by (unfold len; lia).
        replace (len v - length (limbs v))%nat with 0%nat by (unfold len; lia). simpl.
        rewrite u32_small; [done|]. unfold limb_ok, BASE in Hc. lia.
    + intros l ->. by mret.
Qed.

(** ** Conversion from machine integers *)

Lemma div_base_bound z m : 0 ≤ z < BASE * m → 0 ≤ z / BASE < m.
Proof. intros. split; [apply Z.div_pos|apply Z.div_lt_upper_bound]; unfold BASE in *; lia. Qed.

Lemma u64_count_spec fuel rest E :
  0 ≤ rest < pw fuel →
  runs (u64_count fuel rest)
    (λ n, rest < pw n ∧ (n ≤ fuel)%nat ∧ (rest = 0 → n = 0%nat) ∧
          (rest ≠ 0 → n ≠ 0%nat ∧ pw (n - 1) ≤ rest)) E.
Proof.
  revert rest. induction fuel as [|f IH]; intros rest Hr; simpl.
  - rewrite pw_0 in Hr. replace rest with 0 by lia. simpl. mret. rewrite pw_0. lia.
  - destruct (Z.eqb_spec rest 0) as [->|Hne]; [mret; rewrite pw_0; lia|].
    rewrite pw_S in Hr. pose proof (Z.div_mod rest BASE ltac:(done)) as Hd.
    pose proof (Z.mod_pos_bound rest BASE BASE_pos) as Hm.
    mbind IH as n (Hn & Hf & H0 & Hp).
    + apply div_base_bound. lia.
    + mret. rewrite pw_S. simpl. rewrite Nat.sub_0_r. split; [nia|].
      split; [lia|]. split; [done|]. split; [done|].
      destruct (decide (rest / BASE = 0)) as [E0|E0].
      * rewrite (H0 E0), pw_0. lia.
      * destruct (Hp E0) as [Hn0 Hle]. destruct n as [|n]; [done|].
        rewrite pw_S. simpl in Hle. rewrite Nat.sub_0_r in Hle. nia.
Qed.

Lemma u64_limbs_spec n value :
  limbs_ok (u64_limbs n value) ∧ length (u64_limbs n value) = n ∧
  (0 ≤ value < pw n → eval (u64_limbs n value) = value).
Proof.
  revert value. induction n as [|n IH]; intros value; simpl.
  - split; [constructor|]. split; [done|]. rewrite pw_0. lia.
  - destruct (IH (value / BASE)) as (Hok & Hl & He). split; [|split].
    + constructor; [apply limb_ok_mod|done].
    + by rewrite Hl.
    + rewrite pw_S. intros Hv. rewrite u32_mod_base, He.
      * pose proof (Z.div_mod value BASE ltac:(done)). lia.
      * by apply div_base_bound.
Qed.

Lemma from_u64_spec value E :
  0 ≤ value < 2 ^ 64 →
  runs (pn_big_from_u64 value) (λ b, wf b ∧ to_Z b = value ∧ sized 3 b) E.
Proof.
  intros Hv. unfold pn_big_from_u64. destruct (Z.eqb_spec value 0) as [->|Hne].
  { mret. by split; [apply wf_init|]. }
  assert (2 ^ 64 < pw 3) by done.
  mbind u64_count_spec as n (Hn & Hf & _ & Hp); [lia|]. destruct (Hp Hne) as [Hn0 Hlo].
  mbind (runs_resize _ _ (λ r, len r = n)) as out Hout.
  - clia.
  - unfold len. simpl. rewrite length_app, length_take, length_replicate. simpl. lia.
  - mret. rewrite Hout. destruct (u64_limbs_spec n value) as (Hok & Hl & He).
    specialize (He ltac:(lia)). split; [|split].
    + apply wf_mk; [|lia..]. split; [done|]. apply last_nonzero; [done| |by rewrite Hl, He].
      intros Hnil. rewrite Hnil in Hl. done.
    + unfold to_Z. simpl. rewrite He. lia.
    + unfold sized, len. simpl. lia.
Qed.

(** ** Multiplication and addition of one machine word *)

Lemma mul_small_loop_spec l factor carry :
  limbs_ok l → 0 < factor < 2 ^ 32 → 0 ≤ carry < factor →
  let '(r, c) := mul_small_loop l factor carry in
  limbs_ok r ∧ length r = length l ∧ 0 ≤ c < factor ∧
  eval r + pw (length l) * c = eval l * factor + carry.
Proof.
  intros Hok Hf. revert carry. induction Hok as [|x l Hx Hok IH]; intros carry Hc; simpl.
  - rewrite pw_0. split; [constructor|]. lia.
  - unfold limb_ok in Hx.
    assert (0 ≤ x * factor + carry < BASE * factor) as Hp by nia.
    rewrite (u64_small (x * factor)) by (unfold BASE in *; zpow; nia).
    rewrite u64_small by (unfold BASE in *; zpow; nia).
    pose proof (Z.div_mod (x * factor + carry) BASE ltac:(done)) as Hd.
    specialize (IH ((x * factor + carry) / BASE)).
    destruct (mul_small_loop l factor _) as [r c].
    destruct IH as (Hr & Hl & Hc' & He).
    { by apply div_base_bound. }
    split; [constructor; [apply limb_ok_mod|done]|]. simpl. rewrite Hl, u32_mod_base, pw_S.
    split; [done|]. split; [done|]. nia.
Qed.

(** A sign-preserving in-place update that does not vanish keeps [wf]. *)
Lemma wf_same_sign v l :
  wf v → sign v ≠ 0 → limbs_ok l → pw (length l - 1) ≤ eval l → l ≠ [] →
  wf {| sign := sign v; limbs := l |}.
Proof.
  intros Hwf Hs Hok Hp Hne. pose proof (pw_pos (length l - 1)).
  apply wf_mk; [|lia|].
  - split; [done|]. by apply last_nonzero.
  - destruct (wf_sign v Hwf) as [?|[?|?]]; tauto.
Qed.

(** The carry of a limb loop over a value that does not shrink. *)
Lemma push_carry_wf v l carry z E :
  wf v → sign v ≠ 0 → sized limit v → limbs_ok l → length l = len v →
  limb_ok carry → eval l + pw (length l) * carry = z → eval (limbs v) ≤ z →
  runs (push_carry {| sign := sign v; limbs := l |} carry)
    (λ r, wf r ∧ to_Z r = sign v * z ∧ sized (Z.of_nat (len v) + 1) r) E.
Proof.
  intros Hwf Hs Hsz Hok Hl Hc Hz Hle.
  assert (l ≠ []) as Hne.
  { intros ->. unfold len in Hl. destruct (limbs v) eqn:El; [|done].
    pose proof (wf_eval_pos v Hwf Hs) as Hp. rewrite El in Hp. by simpl in Hp. }
  pose proof (canonical_eval_pos _ (wf_canonical _ Hwf)) as Hpos.
  assert (limbs v ≠ []) as Hne'.
  { unfold len in Hl. destruct (limbs v); [by destruct l|done]. }
  specialize (Hpos Hne'). unfold len in Hl. rewrite <- Hl in Hpos.
  eapply runs_mono; [apply push_carry_spec| |done].
  - unfold sized, len, limit in *. simpl. rewrite Hl. clia.
  - done.
  - done.
  - intros r [Hr Hsg]. destruct r as [sr lr]. simpl in *. subst sr lr.
    unfold to_Z, sized, len. simpl.
    destruct (Z.eqb_spec carry 0) as [->|Hnz].
    + rewrite Z.mul_0_r, Z.add_0_r in Hz. split; [|split; [by rewrite Hz|rewrite Hl; lia]].
      apply wf_same_sign; try done. lia.
    + rewrite eval_app, length_app. simpl. rewrite Z.mul_0_r, Z.add_0_r.
      split; [|split; [by rewrite Hz|rewrite Hl; lia]].
      pose proof (canonical_snoc l carry Hok Hc Hnz) as Hcan.
      apply wf_same_sign; try done; [apply Hcan| |by destruct l].
      apply canonical_eval_pos; [done|by destruct l].
Qed.

Lemma mul_small_spec v factor E :
  wf v → sized limit v → 0 ≤ factor ≤ BASE →
  runs (pn_big_mul_small v factor)
    (λ r, wf r ∧ to_Z r = to_Z v * factor ∧ sized (Z.of_nat (len v) + 1) r) E.
Proof.
  intros Hwf Hs Hf. unfold pn_big_mul_small.
  destruct (Z.eqb_spec (sign v) 0) as [H0|H0]; simpl.
  { mret. rewrite wf_sign_0 by done. unfold sized in *. repeat split; try apply Hwf; lia. }
  destruct (Z.eqb_spec factor 1) as [->|H1].
  { mret. unfold sized in *. repeat split; try apply Hwf; lia. }
  destruct (Z.eqb_spec factor 0) as [->|H2].
  { mret. split; [apply wf_init|]. unfold to_Z, sized, len. simpl. lia. }
  pose proof (mul_small_loop_spec (limbs v) factor 0 (wf_limbs_ok _ Hwf)) as HL.
  destruct (mul_small_loop (limbs v) factor 0) as [l c].
  destruct HL as (Hok & Hl & Hc & He); [unfold BASE in *; zpow; lia|lia|].
  pose proof (wf_eval_pos v Hwf H0).
  eapply runs_mono; [eapply (push_carry_wf v l c (eval (limbs v) * factor))| |done]; try done.
  - unfold limb_ok. lia.
  - rewrite Hl. lia.
  - nia.
  - intros r (? & Hr & ?). split; [done|]. split; [|done]. rewrite Hr. unfold to_Z. lia.
Qed.

Lemma add_small_loop_spec l carry :
  limbs_ok l → 0 ≤ carry < BASE →
  let '(r, c) := add_small_loop l carry in
  limbs_ok r ∧ length r = length l ∧ 0 ≤ c < BASE ∧
  eval r + pw (length l) * c = eval l + carry.
Proof.
  intros Hok. revert carry. induction Hok as [|x l Hx Hok IH]; intros carry Hc; simpl.
  - rewrite pw_0. split; [constructor|]. lia.
  - destruct (Z.eqb_spec carry 0) as [->|Hne].
    { split; [by constructor|]. split; [done|]. simpl. lia. }
    unfold limb_ok in Hx. rewrite u64_small by (unfold BASE in *; zpow; lia).
    pose proof (Z.div_mod (x + carry) BASE ltac:(done)) as Hd.
    specialize (IH ((x + carry) / BASE)).
    destruct (add_small_loop l _) as [r c]. destruct IH as (Hr & Hl & Hc' & He).
    { apply div_base_bound. unfold BASE in *; lia. }
    split; [constructor; [apply limb_ok_mod|done]|]. simpl. rewrite Hl, u32_mod_base, pw_S.
    split; [done|]. split; [done|]. nia.
Qed.

Lemma add_small_spec v addend E :
  wf v → 0 ≤ to_Z v → sized limit v → 0 ≤ addend < BASE →
  runs (pn_big_add_small v addend)
    (λ r, wf r ∧ to_Z r = to_Z v + addend ∧ sized (Z.max 3 (Z.of_nat (len v) + 1)) r) E.
Proof.
  intros Hwf Hpos Hs Ha. unfold pn_big_add_small.
  destruct (Z.eqb_spec addend 0) as [->|Hne].
  { mret. unfold sized in *. repeat split; try apply Hwf; lia. }
  destruct (Z.eqb_spec (sign v) 0) as [H0|H0].
  { eapply runs_mono; [apply from_u64_spec| |done].
    - unfold BASE in *. zpow. lia.
    - intros r (? & Hr & Hz). rewrite (wf_sign_0 v) by done. unfold sized in *.
      split; [done|]. lia. }
  pose proof (add_small_loop_spec (limbs v) addend (wf_limbs_ok _ Hwf) Ha) as HL.
  destruct (add_small_loop (limbs v) addend) as [l c]. destruct HL as (Hok & Hl & Hc & He).
  assert (sign v = 1) as Hs1.
  { rewrite (wf_sign_sgn v) in H0 |- * by done. lia. }
  eapply runs_mono; [eapply (push_carry_wf v l c (eval (limbs v) + addend))| |done]; try done.
  - by rewrite Hl.
  - lia.
  - intros r (? & Hr & Hz). unfold sized in *. split; [done|]. split; [|lia].
    rewrite Hr. unfold to_Z. rewrite Hs1. lia.
Qed.

(** ** Conversion from digit strings *)

(** Positional value of a big-endian digit sequence. *)
Definition radix_value (radix acc : Z) (digits : list Z) : Z :=
  foldl (λ acc d, acc * radix + d) acc digits.

Lemma mul_add_small_spec v radix d k E :
  wf v → 0 ≤ to_Z v < BASE ^ k → 0 ≤ k < limit - 1 → 1 < radix < BASE → 0 ≤ d < radix →
  runs (r ← pn_big_mul_small v radix; pn_big_add_small r d)
    (λ r, wf r ∧ to_Z r = to_Z v * radix + d ∧ 0 ≤ to_Z r < BASE ^ (k + 1)) E.
Proof.
  intros Hwf Hv Hk Hr Hd.
  assert (sized k v) by (apply sized_le; [done|lia..]).
  mbind mul_small_spec as r (Hw & Hz & Hs); [done|unfold sized, limit in *; clia|lia|].
  eapply runs_mono; [apply add_small_spec| |done].
  - done.
  - nia.
  - unfold sized, limit in *; clia.
  - lia.
  - intros a (Ha & Haz & _). rewrite Haz, Hz. split; [done|]. split; [done|].
    rewrite Z.pow_add_r by lia. rewrite Z.pow_1_r. nia.
Qed.

Lemma from_bytes_loop_spec out bytes k E :
  wf out → 0 ≤ to_Z out < BASE ^ k → 0 ≤ k → k + Z.of_nat (length bytes) < limit - 1 →
  Forall (λ b, 0 ≤ b < 256) bytes →
  runs (from_bytes_loop out bytes)
    (λ r, wf r ∧ to_Z r = radix_value 256 (to_Z out) bytes ∧ 0 ≤ to_Z r) E.
Proof.
  revert out k. induction bytes as [|b bytes IH]; intros out k Hwf Hv Hk Hlen Hb; simpl.
  - mret. split; [done|]. split; [done|lia].
  - inversion Hb; subst. rewrite length_cons in Hlen.
    mbind (mul_add_small_spec out 256 b k) as r (Hr & Hz & Hlt); try done; [lia|].
    rewrite <- Hz. apply (IH r (k + 1)); try done; lia.
Qed.

Lemma from_digits_loop_spec out digits k E :
  wf out → 0 ≤ to_Z out < BASE ^ k → 0 ≤ k → k + Z.of_nat (length digits) < limit - 1 →
  Forall (λ d, 48 ≤ d ≤ 57) digits →
  runs (from_digits_loop out digits)
    (λ r, wf r ∧ to_Z r = radix_value 10 (to_Z out) ((λ d, d - 48) <$> digits) ∧ 0 ≤ to_Z r) E.
Proof.
  revert out k. induction digits as [|d ds IH]; intros out k Hwf Hv Hk Hlen Hb; simpl.
  - mret. split; [done|]. split; [done|lia].
  - inversion Hb; subst. rewrite length_cons in Hlen.
    destruct (Z.ltb_spec d 48); [lia|]. destruct (Z.ltb_spec 57 d); [lia|]. simpl.
    rewrite u32_small by (zpow; lia).
    mbind (mul_add_small_spec out 10 (d - 48) k) as r (Hr & Hz & Hlt); try done; [lia..|].
    rewrite <- Hz. apply (IH r (k + 1)); try done; lia.
Qed.

Lemma from_bytes_spec bytes E :
  Z.of_nat (length bytes) < limit - 1 → Forall (λ b, 0 ≤ b < 256) bytes →
  runs (pn_big_from_bytes bytes) (λ r, wf r ∧ to_Z r = radix_value 256 0 bytes) E.
Proof.
  intros Hl Hb. eapply runs_mono; [apply (from_bytes_loop_spec _ _ 0)| |done]; try done.
  - apply wf_init.
  - by intros a (? & ? & ?).
Qed.

Lemma from_digits_spec digits s E :
  Z.of_nat (length digits) < limit - 1 → Forall (λ d, 48 ≤ d ≤ 57) digits →
  runs (pn_big_from_digits digits s)
    (λ r, wf r ∧ to_Z r = (if s <? 0 then -1 else 1) *
                            radix_value 10 0 ((λ d, d - 48) <$> digits)) E.
Proof.
  intros Hl Hb. unfold pn_big_from_digits.
  mbind (from_digits_loop_spec _ _ 0) as r (Hr & Hz & Hp); try done; [apply wf_init|].
  mret. replace (to_Z pn_big_init) with 0 in Hz by done. rewrite <- Hz.
  unfold len. case_decide as Hn.
  - split; [done|]. apply nil_length_inv in Hn. unfold to_Z in *. rewrite Hn. simpl. lia.
  - assert (limbs r ≠ []) by (intros H0; by rewrite H0 in Hn).
    split; [split; [exact (wf_canonical r Hr)|right; destruct (s <? 0); simpl; auto]|].
    unfold to_Z at 1. simpl. rewrite (wf_eval_abs r) by done. by rewrite Z.abs_eq.
Qed.

(** ** Comparison *)

Lemma compare_spec a b :
  wf a → wf b → pn_big_compare a b = Z.sgn (to_Z a - to_Z b).
Proof.
  intros Ha Hb. unfold pn_big_compare.
  rewrite abs_compare_spec by (by apply wf_canonical).
  rewrite !wf_eval_abs by done.
  rewrite (wf_sign_sgn a), (wf_sign_sgn b) by done.
  destruct (Z.eqb_spec (Z.sgn (to_Z a)) (Z.sgn (to_Z b))) as [He|He]; simpl.
  - destruct (Z.ltb_spec (Z.sgn (to_Z a)) 0); lia.
  - destruct (Z.ltb_spec (Z.sgn (to_Z a)) (Z.sgn (to_Z b))); lia.
Qed.

(** ** Addition and subtraction *)

Lemma limbs_ok_limb0 l : limbs_ok l → 0 ≤ limb0 l < BASE.
Proof. intros []; unfold limb0; simpl; [split; [lia|done]|done]. Qed.

Lemma limbs_ok_tail l : limbs_ok l → limbs_ok (tail l).
Proof. intros []; simpl; [constructor|done]. Qed.

Lemma eval_step l : eval l = limb0 l + BASE * eval (tail l).
Proof. by destruct l. Qed.

Lemma abs_add_loop_spec n a b carry :
  limbs_ok a → limbs_ok b → (length a ≤ n)%nat → (length b ≤ n)%nat → 0 ≤ carry ≤ 1 →
  let '(r, c) := abs_add_loop n a b carry in
  limbs_ok r ∧ length r = n ∧ 0 ≤ c ≤ 1 ∧ eval r + pw n * c = eval a + eval b + carry.
Proof.
  revert a b carry. induction n as [|n IH]; intros a b carry Ha Hb La Lb Hc; simpl.
  - destruct a, b; simpl in *; try lia. rewrite pw_0. split; [constructor|]. lia.
  - pose proof (limbs_ok_limb0 a Ha). pose proof (limbs_ok_limb0 b Hb).
    rewrite u64_small by (unfold BASE in *; zpow; lia).
    set (sum := carry + limb0 a + limb0 b).
    pose proof (Z.div_mod sum BASE ltac:(done)) as Hd.
    assert (0 ≤ sum / BASE < 2) by (apply div_base_bound; unfold sum, BASE in *; lia).
    specialize (IH (tail a) (tail b) (sum / BASE)).
    destruct (abs_add_loop n _ _ _) as [r c].
    destruct IH as (Hr & Hl & Hc' & He).
    1,2: by apply limbs_ok_tail.
    1: destruct a; simpl in *; lia.
    1: destruct b; simpl in *; lia.
    1: lia.
    split; [constructor; [apply limb_ok_mod|done]|]. simpl. rewrite Hl, u32_mod_base, pw_S.
    split; [done|]. split; [done|].
    rewrite (eval_step a), (eval_step b). unfold sum in *. lia.
Qed.

Lemma abs_add_spec a b E :
  wf a → wf b → sized limit a → sized limit b →
  runs (abs_add a b)
    (λ r, canonical (limbs r) ∧ eval (limbs r) = eval (limbs a) + eval (limbs b)) E.
Proof.
  intros Ha Hb Sa Sb. unfold abs_add.
  mbind (runs_resize _ _ (λ _, True)) as out _; [|done|].
  - unfold sized, limit in *. clia.
  - replace (len a `max` len b + 1 - 1)%nat with (Nat.max (len a) (len b)) by lia.
    pose proof (abs_add_loop_spec (Nat.max (len a) (len b)) (limbs a) (limbs b) 0) as HL.
    destruct (abs_add_loop _ _ _ _) as [l c].
    destruct HL as (Hl & Hn & Hc & He);
      [by apply wf_limbs_ok|by apply wf_limbs_ok|unfold len; lia|unfold len; lia|lia|].
    mret. rewrite u32_small by (zpow; lia).
    destruct (normalize_spec {| sign := sign out; limbs := l ++ [c] |}) as (Hcan & Hev & _ & _).
    { simpl. apply Forall_app. split; [done|]. apply Forall_singleton. unfold limb_ok, BASE. lia. }
    split; [done|]. rewrite Hev. simpl. rewrite eval_app, Hn. simpl. lia.
Qed.

Lemma abs_sub_loop_spec a b borrow :
  limbs_ok a → limbs_ok b → (length b ≤ length a)%nat → 0 ≤ borrow ≤ 1 →
  limbs_ok (abs_sub_loop a b borrow) ∧ length (abs_sub_loop a b borrow) = length a ∧
  ∃ k, 0 ≤ k ≤ 1 ∧
       eval (abs_sub_loop a b borrow) = eval a - eval b - borrow + k * pw (length a).
Proof.
  intros Ha. revert b borrow. induction Ha as [|x a Hx Ha IH]; intros b borrow Hb Hl Hbo; simpl.
  - destruct b; simpl in *; [|lia]. split; [constructor|]. split; [done|].
    exists borrow. rewrite pw_0. lia.
  - pose proof (limbs_ok_limb0 b Hb) as Hb0. unfold limb_ok in Hx.
    assert (length (tail b) ≤ length a)%nat by (destruct b; simpl in *; lia).
    destruct (Z.ltb_spec (x - limb0 b - borrow) 0).
    + rewrite u32_small by (unfold BASE in *; zpow; lia).
      destruct (IH (tail b) 1) as (Hr & Hlr & k & Hk & He);
        [by apply limbs_ok_tail|done|lia|].
      split; [constructor; [unfold limb_ok, BASE in *; lia|done]|]. simpl. split; [by rewrite Hlr|].
      exists k. split; [done|]. rewrite He, pw_S, (eval_step b). lia.
    + rewrite u32_small by (unfold BASE in *; zpow; lia).
      destruct (IH (tail b) 0) as (Hr & Hlr & k & Hk & He);
        [by apply limbs_ok_tail|done|lia|].
      split; [constructor; [unfold limb_ok, BASE in *; lia|done]|]. simpl. split; [by rewrite Hlr|].
      exists k. split; [done|]. rewrite He, pw_S, (eval_step b). lia.
Qed.

Lemma abs_sub_spec a b E :
  canonical (limbs a) → canonical (limbs b) → sized limit a →
  eval (limbs b) ≤ eval (limbs a) →
  runs (abs_sub a b)
    (λ r, canonical (limbs r) ∧ eval (limbs r) = eval (limbs a) - eval (limbs b) ∧
          (len r ≤ len a)%nat ∧ sign r = 0) E.
Proof.
  intros Ha Hb Sa Hle. unfold abs_sub.
  mbind (runs_resize _ _ (λ r, sign r = 0)) as out Hout; [|done|].
  - unfold sized, limit in *. clia.
  - mret.
    assert (length (limbs b) ≤ length (limbs a))%nat.
    { destruct (decide (length (limbs a) < length (limbs b))%nat) as [Hlt|]; [|lia].
      pose proof (canonical_length_lt _ _ Ha Hb Hlt). lia. }
    destruct (abs_sub_loop_spec (limbs a) (limbs b) 0) as (Hok & Hl & k & Hk & He);
      [apply Ha|apply Hb|done|lia|].
    destruct (normalize_spec {| sign := sign out; limbs := abs_sub_loop (limbs a) (limbs b) 0 |})
      as (Hcan & Hev & Hlen & Hsg); [done|]. simpl in *.
    assert (k = 0) as ->.
    { pose proof (eval_bound _ Hok) as B1. pose proof (eval_bound _ (proj1 Ha)) as B2.
      pose proof (eval_bound _ (proj1 Hb)) as B3. rewrite Hl in B1. nia. }
    split; [done|]. split; [rewrite Hev, He; lia|]. split; [unfold len in *; simpl in *; lia|].
    rewrite Hsg, Hout. by destruct (decide (eval _ = 0)).
Qed.

#[global] Arguments normalize : simpl never.

Lemma set_sign_wf b s :
  canonical (limbs b) → eval (limbs b) ≠ 0 → s = 1 ∨ s = -1 →
  wf (set_sign b s) ∧ to_Z (set_sign b s) = s * eval (limbs b).
Proof. intros Hc He Hs. split; [|done]. by apply wf_mk. Qed.

Lemma wf_opp b : wf b → wf (set_sign b (- sign b)) ∧ to_Z (set_sign b (- sign b)) = - to_Z b.
Proof.
  intros [Hc Hs]. split; [|unfold to_Z; simpl; lia].
  split; [done|]. simpl. destruct Hs as [[-> ->]|[[Hs|Hs] Hne]]; [by left|right..]; split; auto; lia.
Qed.

Lemma sized_mono k k' b : sized k b → k ≤ k' → sized k' b.
Proof. unfold sized. lia. Qed.

Lemma sized_len k k' n a b :
  sized k a → (length (limbs b) ≤ length (limbs a) + n)%nat → k + Z.of_nat n ≤ k' → sized k' b.
Proof. unfold sized, len. lia. Qed.

Lemma sized_1 k b : sized k b → k ≤ limit → sized (2 ^ 61) b.
Proof. unfold sized, limit. clia. Qed.

(** [pn_big_add] computes the sum. *)
Lemma add_spec a b E :
  wf a → wf b → sized limit a → sized limit b →
  runs (pn_big_add a b) (λ r, wf r ∧ to_Z r = to_Z a + to_Z b) E.
Proof.
  intros Ha Hb Sa Sb. unfold pn_big_add.
  destruct (Z.eqb_spec (sign a) 0) as [A0|A0].
  { apply runs_copy; [by eapply sized_1|]. rewrite (wf_sign_0 a) by done. by rewrite Z.add_0_l. }
  destruct (Z.eqb_spec (sign b) 0) as [B0|B0].
  { apply runs_copy; [by eapply sized_1|]. rewrite (wf_sign_0 b) by done. by rewrite Z.add_0_r. }
  pose proof (wf_eval_pos a Ha A0). pose proof (wf_eval_pos b Hb B0).
  destruct (wf_sign a Ha) as [?|Ua]; [done|]. destruct (wf_sign b Hb) as [?|Ub]; [done|].
  destruct (Z.eqb_spec (sign a) (sign b)) as [Es|Es].
  - mbind abs_add_spec as r [Hc He]; try done. mret.
    destruct (set_sign_wf r (sign a)) as [Hw Hz]; [done|lia|done|].
    split; [done|]. rewrite Hz, He. unfold to_Z. rewrite Es. lia.
  - rewrite abs_compare_spec by (by apply wf_canonical).
    set (d := eval (limbs a) - eval (limbs b)).
    destruct (Z.eqb_spec (Z.sgn d) 0) as [Ed|Ed].
    + mret. split; [apply wf_init|]. unfold to_Z, d in *. simpl. lia.
    + destruct (Z.ltb_spec 0 (Z.sgn d)).
      * mbind abs_sub_spec as r (Hc & He & _); try by apply wf_canonical.
        1: done. 1: unfold d in *; lia.
        mret. destruct (set_sign_wf r (sign a)) as [Hw Hz]; [done|unfold d in *; lia|done|].
        split; [done|]. rewrite Hz, He. unfold to_Z. lia.
      * mbind abs_sub_spec as r (Hc & He & _); try by apply wf_canonical.
        1: done. 1: unfold d in *; lia.
        mret. destruct (set_sign_wf r (sign b)) as [Hw Hz]; [done|unfold d in *; lia|done|].
        split; [done|]. rewrite Hz, He. unfold to_Z. lia.
Qed.

Lemma sub_spec a b E :
  wf a → wf b → sized limit a → sized limit b →
  runs (pn_big_sub a b) (λ r, wf r ∧ to_Z r = to_Z a - to_Z b) E.
Proof.
  intros Ha Hb Sa Sb. destruct (wf_opp b Hb) as [Hw Hz]. unfold pn_big_sub.
  eapply runs_mono; [by apply add_spec| |done]. intros r [? Hr]. split; [done|]. lia.
Qed.

(** ** Multiplication *)

Lemma mul_row_spec out k ai b carry E :
  limbs_ok out → limbs_ok b → limb_ok ai → 0 ≤ carry < BASE → (k + length b ≤ length out)%nat →
  runs (mul_row out k ai b carry)
    (λ '(r, c), limbs_ok r ∧ length r = length out ∧ 0 ≤ c < BASE ∧
       eval r + pw (k + length b) * c = eval out + pw k * (ai * eval b + carry)) E.
Proof.
  intros Ho Hb Hai. revert out k carry Ho.
  induction Hb as [|y b Hy Hb IH]; intros out k carry Ho Hc Hk; simpl in *.
  - mret. split; [done|]. split; [done|]. split; [done|]. rewrite Nat.add_0_r. lia.
  - destruct (lookup_lt_is_Some_2 out k ltac:(lia)) as [x Hx].
    pose proof (limbs_ok_lookup _ _ _ Ho Hx) as Hxo. unfold limb_ok in *.
    mbind (runs_rd _ _ _ (λ z, z = x)) as ? ->; [done..|].
    rewrite (u64_small (ai * y)) by (unfold BASE in *; zpow; nia).
    assert (0 ≤ x + ai * y + carry < BASE * BASE) by nia.
    rewrite u64_small by (unfold BASE in *; zpow; lia).
    set (cur := x + ai * y + carry) in *.
    pose proof (Z.div_mod cur BASE ltac:(done)) as Hd.
    mbind (runs_wr _ _ _ (λ l, l = <[k:=cur mod BASE]> out)) as ? ->;
      [lia|by rewrite u32_mod_base|].
    eapply runs_mono; [apply IH| |done].
    + apply limbs_ok_insert; [done|]. unfold limb_ok. by apply Z.mod_pos_bound.
    + by apply div_base_bound.
    + rewrite length_insert. lia.
    + intros [r c] (Hr & Hl & Hc' & He). rewrite length_insert in Hl.
      split; [done|]. split; [done|]. split; [done|].
      replace (k + S (length b))%nat with (S k + length b)%nat by lia.
      rewrite He, (eval_insert _ _ _ _ Hx), pw_S.
      replace (cur mod BASE) with (cur - BASE * (cur / BASE)) by lia. unfold cur. nia.
Qed.

Lemma mul_carry_spec fuel out k carry E :
  limbs_ok out → 0 ≤ carry < BASE → (length out ≤ k + fuel)%nat → (k ≤ length out)%nat →
  eval out + pw k * carry < pw (length out) →
  runs (mul_carry fuel out k carry)
    (λ r, limbs_ok r ∧ length r = length out ∧ eval r = eval out + pw k * carry) E.
Proof.
  revert out k carry. induction fuel as [|f IH]; intros out k carry Ho Hc Hf Hk Hlt; simpl;
    (destruct (Z.eqb_spec carry 0) as [->|Hne]; [mret; split; [done|]; split; [done|lia]|]).
  - pose proof (eval_bound out Ho). replace k with (length out) in * by lia.
    pose proof (pw_pos (length out)). nia.
  - assert (k < length out)%nat.
    { destruct (decide (k = length out)) as [->|]; [|lia].
      pose proof (eval_bound out Ho). pose proof (pw_pos (length out)). nia. }
    destruct (lookup_lt_is_Some_2 out k ltac:(lia)) as [x Hx].
    pose proof (limbs_ok_lookup _ _ _ Ho Hx) as Hxo. unfold limb_ok in *.
    mbind (runs_rd _ _ _ (λ z, z = x)) as ? ->; [done..|].
    rewrite u64_small by (unfold BASE in *; zpow; lia).
    set (cur := x + carry) in *.
    pose proof (Z.div_mod cur BASE ltac:(done)) as Hd.
    assert (eval (<[k:=cur mod BASE]> out) + pw (S k) * (cur / BASE) = eval out + pw k * carry).
    { rewrite (eval_insert _ _ _ _ Hx), pw_S.
      replace (cur mod BASE) with (cur - BASE * (cur / BASE)) by lia. unfold cur. nia. }
    mbind (runs_wr _ _ _ (λ l, l = <[k:=cur mod BASE]> out)) as ? ->;
      [lia|by rewrite u32_mod_base|].
    eapply runs_mono; [apply IH| |done].
    + apply limbs_ok_insert; [done|]. unfold limb_ok. by apply Z.mod_pos_bound.
    + apply div_base_bound. unfold cur, BASE in *. lia.
    + rewrite length_insert. lia.
    + rewrite length_insert. lia.
    + rewrite length_insert. lia.
    + intros r (Hr & Hl & He). rewrite length_insert in Hl. split; [done|]. split; [done|]. lia.
Qed.

Lemma mul_loop_spec out i a b E :
  limbs_ok out → limbs_ok a → limbs_ok b → length out = (i + length a + length b)%nat →
  0 ≤ eval out ≤ (pw i - 1) * eval b →
  runs (mul_loop out i a b)
    (λ r, limbs_ok r ∧ length r = length out ∧ eval r = eval out + pw i * eval a * eval b) E.
Proof.
  intros Ho Ha Hb. revert out i Ho. induction Ha as [|x a Hx Ha IH]; intros out i Ho Hl Hev; simpl.
  - mret. split; [done|]. split; [done|lia].
  - simpl in Hl. pose proof (eval_bound b Hb) as Bb. unfold limb_ok in Hx.
    mbind (mul_row_spec out i x b 0) as [r c] (Hr & Hlr & Hc & He); try done; [lia|].
    assert (eval out + pw i * (x * eval b + 0) ≤ (pw (S i) - 1) * eval b) as Hup
      by (rewrite pw_S; pose proof (pw_pos i); nia).
    assert ((pw (S i) - 1) * eval b < pw (length r)) as Hroom.
    { apply Z.lt_le_trans with (pw (S i + length b)).
      - rewrite pw_add. pose proof (pw_pos (S i)). nia.
      - apply pw_mono. lia. }
    mbind mul_carry_spec as r' (Hr' & Hlr' & He'); [done|done|lia|lia|lia|].
    eapply runs_mono; [apply IH| |done].
    + done.
    + lia.
    + pose proof (eval_bound r' Hr'). lia.
    + intros r2 (? & ? & He2). split; [done|]. split; [lia|]. rewrite He2, pw_S. nia.
Qed.

(** [pn_big_mul] computes the product. *)
Lemma mul_spec a b E :
  wf a → wf b → sized limit a → sized limit b →
  runs (pn_big_mul a b) (λ r, wf r ∧ to_Z r = to_Z a * to_Z b) E.
Proof.
  intros Ha Hb Sa Sb. unfold pn_big_mul.
  destruct (Z.eqb_spec (sign a) 0) as [A0|A0]; simpl.
  { mret. split; [apply wf_init|]. rewrite (wf_sign_0 a) by done. done. }
  destruct (Z.eqb_spec (sign b) 0) as [B0|B0].
  { mret. split; [apply wf_init|]. rewrite (wf_sign_0 b) by done. by rewrite Z.mul_0_r. }
  mif; zbool; [unfold sized, limit in *; clia|].
  pose proof (wf_eval_pos a Ha A0). pose proof (wf_eval_pos b Hb B0).
  mbind (runs_resize _ _ (λ r, limbs r = replicate (len a + len b) 0)) as out Hout.
  - unfold sized, limit in *. clia.
  - simpl. by rewrite take_nil, Nat.sub_0_r.
  - rewrite Hout.
    mbind (mul_loop_spec _ 0 (limbs a) (limbs b)) as l (Hl & Hlen & He);
      [apply limbs_ok_replicate|by apply wf_limbs_ok|by apply wf_limbs_ok| | |].
    + by rewrite length_replicate.
    + rewrite eval_replicate, pw_0. lia.
    + mret. rewrite eval_replicate, pw_0 in He.
      destruct (normalize_mk (sign a * sign b) l Hl) as (s & l' & -> & Hcan & Hev & _ & Hs).
      assert (eval l = eval (limbs a) * eval (limbs b)) as He' by lia.
      rewrite decide_False in Hs by nia. subst s.
      split; [|unfold to_Z; simpl; rewrite Hev, He'; lia].
      apply wf_mk; [done|nia|]. intros _.
      destruct (wf_sign a Ha) as [?|[->| ->]]; [done|..];
        destruct (wf_sign b Hb) as [?|[->| ->]]; auto; done.
Qed.

(** ** Division by one machine word *)

Lemma div_small_loop_spec l d :
  limbs_ok l → 0 < d < 2 ^ 32 →
  let '(q, r) := div_small_loop l d in
  limbs_ok q ∧ length q = length l ∧ 0 ≤ r < d ∧ eval l = eval q * d + r.
Proof.
  intros Hok Hd. induction Hok as [|x l Hx Hok IH]; simpl.
  - split; [constructor|]. lia.
  - destruct (div_small_loop l d) as [q r]. destruct IH as (Hq & Hl & Hr & He).
    unfold limb_ok in Hx.
    assert (0 ≤ r * BASE + x < d * BASE) as Hb by nia.
    rewrite u64_small by (unfold BASE in *; zpow; nia).
    set (cur := r * BASE + x) in *.
    pose proof (Z.div_mod cur d ltac:(lia)). pose proof (Z.mod_pos_bound cur d ltac:(lia)).
    assert (0 ≤ cur / d < BASE).
    { split; [apply Z.div_pos; lia|]. apply Z.div_lt_upper_bound; lia. }
    rewrite u32_small by (unfold BASE in *; zpow; lia).
    split; [by constructor|]. simpl. split; [by rewrite Hl|]. split; [done|]. unfold cur in *. nia.
Qed.

(** [pn_big_div_small] is truncated division of the magnitude. *)
Lemma div_small_spec v d E :
  wf v → 0 < d < 2 ^ 32 →
  runs (pn_big_div_small v d)
    (λ '(q, r), wf q ∧ to_Z q = sign v * (Z.abs (to_Z v) / d) ∧ r = Z.abs (to_Z v) mod d ∧
                (len q ≤ len v)%nat) E.
Proof.
  intros Hv Hd. unfold pn_big_div_small. destruct (Z.eqb_spec d 0); [lia|]. simpl.
  pose proof (div_small_loop_spec (limbs v) d (wf_limbs_ok _ Hv) Hd) as HL.
  destruct (div_small_loop (limbs v) d) as [q r]. destruct HL as (Hq & Hl & Hr & He).
  mret. rewrite u32_small by lia. rewrite <- wf_eval_abs by done.
  assert (eval (limbs v) / d = eval q) as Hdiv.
  { symmetry. apply Z.div_unique_pos with r; lia. }
  assert (eval (limbs v) mod d = r) as Hmod.
  { symmetry. apply Z.mod_unique_pos with (eval q); lia. }
  destruct (normalize_mk (sign v) q Hq) as (s & l' & -> & Hc & Hev & Hln & Hs).
  rewrite Hdiv, Hmod. unfold to_Z, len. simpl.
  rewrite Hev, Hs. split; [|split; [|split; [done|lia]]].
  - apply wf_mk; [done|..]; rewrite Hev.
    + intros ->. by rewrite decide_True.
    + intros Hne. rewrite decide_False by done.
      destruct (wf_sign v Hv) as [Hs0|[?|?]]; auto.
      apply wf_sign_0 in Hs0; [|done]. pose proof (wf_eval_abs v Hv). rewrite Hs0 in *.
      pose proof (eval_bound q Hq). simpl in *. nia.
  - destruct (decide (eval q = 0)) as [->|]; [|done]. lia.
Qed.

(** ** Long division *)

Lemma canonical_length_le a b :
  canonical a → canonical b → eval a ≤ eval b → (length a ≤ length b)%nat.
Proof.
  intros Ha Hb Hle. destruct (decide (length b < length a)%nat) as [Hlt|]; [|lia].
  pose proof (canonical_length_lt _ _ Hb Ha Hlt). lia.
Qed.

Lemma canonical_cons x l : canonical l → limb_ok x → l ≠ [] ∨ x ≠ 0 → canonical (x :: l).
Proof.
  intros [Hok Hl] Hx Hor. split; [by constructor|].
  destruct l; simpl; [|done]. intros [= ->]. by destruct Hor.
Qed.

Lemma shift_base_add_spec v x E :
  canonical (limbs v) → limb_ok x → sized limit v →
  runs (shift_base_add v x)
    (λ r, canonical (limbs r) ∧ eval (limbs r) = eval (limbs v) * BASE + x ∧
          (len r ≤ len v + 1)%nat) E.
Proof.
  intros Hc Hx Hs. unfold shift_base_add. mif.
  - apply andb_true_iff in Hc0 as [Hl Hz]. zbool. subst. mret.
    apply nil_length_inv in Hl. rewrite Hl. simpl. split; [apply canonical_nil|]. split; [done|lia].
  - mbind (runs_resize _ _ (λ _, True)) as ? _; [unfold sized, limit in *; clia|done|].
    mret. simpl. split; [|split; [lia|unfold len; simpl; lia]].
    apply canonical_cons; [done|done|].
    apply andb_false_iff in Hc0 as [H|H]; zbool; [left|right]; [|done].
    intros H0. apply H. unfold len. by rewrite H0.
Qed.

(** The binary search returns the largest digit whose multiple fits. *)
Lemma quotient_digit_spec fuel bb r lo hi best E :
  wf bb → sign bb = 1 → sized limit bb → canonical (limbs r) →
  0 ≤ lo → 0 ≤ best → hi < BASE → hi - lo + 1 < 2 ^ Z.of_nat fuel →
  (lo = 0 ∧ best = 0 ∨ lo = best + 1) → 0 ≤ hi →
  best * eval (limbs bb) ≤ eval (limbs r) < (hi + 1) * eval (limbs bb) →
  runs (quotient_digit fuel bb r lo hi best)
    (λ d, 0 ≤ d < BASE ∧ d * eval (limbs bb) ≤ eval (limbs r) < (d + 1) * eval (limbs bb)) E.
Proof.
  intros Hwf Hs1 Hsz Hr.
  pose proof (wf_eval_pos bb Hwf ltac:(lia)) as HB.
  revert lo hi best.
  induction fuel as [|f IH]; intros lo hi best Hlo Hbest Hhi Hfuel Hlb Hhi0 Hinv; simpl;
    (destruct (Z.leb_spec lo hi); [|mret; split; [nia|]; nia]).
  - simpl in Hfuel. lia.
  - rewrite Nat2Z.inj_succ, Z.pow_succ_r in Hfuel by lia.
    set (mid := lo + (hi - lo) / 2).
    assert (lo ≤ mid ≤ hi ∧ hi - mid ≤ mid - lo + 1 ∧ mid - lo ≤ hi - mid) as (Hm1 & Hm2 & Hm3)
      by (unfold mid; Z.to_euclidean_division_equations; lia).
    rewrite (u32_small mid) by (unfold BASE in *; zpow; lia).
    mbind (runs_copy bb (λ p, p = bb)) as ? ->; [by eapply sized_1|done|].
    mbind mul_small_spec as probe (Hp & Hpz & _); [done|done|lia|].
    rewrite abs_compare_spec by (try done; by apply wf_canonical).
    rewrite (wf_eval_abs probe), Hpz by done.
    assert (to_Z bb = eval (limbs bb)) as Hbb by (unfold to_Z; rewrite Hs1; lia).
    rewrite Hbb, Z.abs_eq by nia.
    destruct (Z.leb_spec (Z.sgn (eval (limbs bb) * mid - eval (limbs r))) 0).
    + destruct (Z.eqb_spec mid (BASE - 1)) as [Hmb|Hmb].
      { mret. split; [lia|]. nia. }
      rewrite u32_small by (unfold BASE in *; zpow; lia).
      apply IH; try lia; nia.
    + destruct (Z.eqb_spec mid 0) as [Hm0|Hm0]; [nia|].
      rewrite u32_small by (unfold BASE in *; zpow; lia).
      apply IH; try lia; nia.
Qed.

#[global] Arguments quotient_digit : simpl never.

Lemma divmod_loop_spec pos aa bb q r E :
  wf bb → sign bb = 1 → sized (limit - 1) bb →
  limbs_ok aa → limbs_ok q → length q = length aa → (pos ≤ length aa)%nat →
  canonical (limbs r) → eval (limbs r) < eval (limbs bb) →
  eval (drop pos aa) = eval (drop pos q) * eval (limbs bb) + eval (limbs r) →
  runs (divmod_loop pos aa bb q r)
    (λ '(q, r), limbs_ok q ∧ length q = length aa ∧ canonical (limbs r) ∧
       eval (limbs r) < eval (limbs bb) ∧
       eval aa = eval q * eval (limbs bb) + eval (limbs r)) E.
Proof.
  intros Hwf Hs1 Hsz Ha. pose proof (wf_eval_pos bb Hwf ltac:(lia)) as HB.
  revert q r. induction pos as [|p IH]; intros q r Hq Hl Hp Hr Hlt Hev; simpl.
  - mret. by rewrite !drop_0 in Hev.
  - destruct (lookup_lt_is_Some_2 aa p ltac:(lia)) as [x Hx].
    destruct (lookup_lt_is_Some_2 q p ltac:(lia)) as [y Hy].
    pose proof (limbs_ok_lookup _ _ _ Ha Hx) as Hxo.
    pose proof (canonical_length_le _ _ Hr (wf_canonical _ Hwf) ltac:(lia)) as Hlen.
    mbind (runs_rd _ _ _ (λ z, z = x)) as ? ->; [done..|].
    mbind shift_base_add_spec as r1 (Hc1 & He1 & Hl1);
      [done|done|apply (sized_len (limit - 1) _ 0 bb); [done|lia|lia]|].
    unfold limb_ok in Hxo.
    mbind quotient_digit_spec as best (Hb & Hle); try done;
      [eapply sized_mono; [done|lia]|by left| |].
    { pose proof (eval_bound _ (proj1 Hr)). nia. }
    mbind (runs_wr _ _ _ (λ l, l = <[p:=best]> q)) as ? ->; [lia|done|].
    eapply runs_bind.
    { instantiate (1 := λ r2, canonical (limbs r2) ∧
        eval (limbs r2) = eval (limbs r1) - best * eval (limbs bb)).
      destruct (Z.eqb_spec best 0) as [->|Hb0]; [mret; split; [done|lia]|].
      mbind (runs_copy bb (λ p, p = bb)) as ? ->;
        [eapply sized_1; [done|lia]|done|].
      mbind mul_small_spec as pr (Hpw & Hpz & _); [done|eapply sized_mono; [done|lia]|lia|].
      assert (eval (limbs pr) = best * eval (limbs bb)) as Hpe.
      { rewrite (wf_eval_abs pr), Hpz by done. unfold to_Z. rewrite Hs1. nia. }
      eapply runs_mono; [apply abs_sub_spec| |done].
      - done.
      - by apply wf_canonical.
      - apply (sized_len (limit - 1) _ 1 bb); [done|unfold len in *; lia|lia].
      - lia.
      - intros r2 (? & ? & _). split; [done|lia]. }
    intros r2 [Hc2 He2]. apply IH; try done.
    + by apply limbs_ok_insert.
    + by rewrite length_insert.
    + lia.
    + nia.
    + rewrite (drop_S _ _ _ Hx). rewrite (drop_S _ best p) by (by apply list_lookup_insert_eq; lia).
      simpl. rewrite drop_insert_lt by lia. nia.
Qed.

(** The signs [pn_big_divmod] gives quotient and remainder. *)
Lemma divmod_signs a b r ql :
  wf a → wf b → eval (limbs a) ≠ 0 → eval (limbs b) ≠ 0 → limbs_ok ql → canonical (limbs r) →
  let q := normalize {| sign := if decide (length ql = 0%nat) then 0 else sign a * sign b;
                        limbs := ql |} in
  let r' := set_sign r (if decide (len r = 0%nat) then 0 else sign a) in
  wf q ∧ wf r' ∧ to_Z q = sign a * sign b * eval ql ∧ to_Z r' = sign a * eval (limbs r).
Proof.
  intros Ha Hb A0 B0 Hql Hr q r'.
  assert (sign a = 1 ∨ sign a = -1) as Ua.
  { destruct (wf_sign a Ha) as [H|]; [|done]. exfalso. apply A0.
    by rewrite (wf_eval_abs a), (wf_sign_0 a). }
  assert (sign b = 1 ∨ sign b = -1) as Ub.
  { destruct (wf_sign b Hb) as [H|]; [|done]. exfalso. apply B0.
    by rewrite (wf_eval_abs b), (wf_sign_0 b). }
  destruct (normalize_mk (if decide (length ql = 0%nat) then 0 else sign a * sign b) ql Hql)
    as (s & l' & Hn & Hc & He & _ & Hs).
  unfold q, r'. rewrite Hn. clear q r'.
  assert (length ql = 0%nat → eval ql = 0) by (by intros ->%nil_length_inv).
  unfold to_Z, len. simpl. rewrite He, Hs. split; [|split; [|split]].
  - apply wf_mk; [done|..]; rewrite He; intros Hz; [by rewrite decide_True|].
    rewrite !decide_False by tauto. destruct Ua as [->| ->], Ub as [->| ->]; auto.
  - apply wf_mk; [done|..]; intros Hz.
    + apply canonical_eval_0 in Hz; [|done]. by rewrite Hz.
    + rewrite decide_False; [done|]. intros Hl%nil_length_inv. by rewrite Hl in Hz.
  - destruct (decide (eval ql = 0)) as [->|]; [lia|]. rewrite decide_False by tauto. done.
  - destruct (decide (length (limbs r) = 0%nat)) as [Hl|Hl]; [|reflexivity]. apply nil_length_inv in Hl. rewrite Hl. simpl. lia.
Qed.

(** [pn_big_divmod] is C's truncated division on unbounded integers. *)
Lemma divmod_spec a b E :
  wf a → wf b → sized limit a → sized (limit - 1) b → to_Z b ≠ 0 →
  runs (pn_big_divmod a b)
    (λ '(q, r), wf q ∧ wf r ∧ to_Z q = Z.quot (to_Z a) (to_Z b) ∧
                to_Z r = Z.rem (to_Z a) (to_Z b)) E.
Proof.
  intros Ha Hb Sa Sb Hne. unfold pn_big_divmod.
  destruct (Z.eqb_spec (sign b) 0) as [B0|B0]; [by rewrite wf_sign_0 in Hne|].
  mbind (runs_copy a (λ p, p = a)) as ? ->; [by eapply sized_1|done|].
  mbind (runs_copy b (λ p, p = b)) as ? ->; [eapply sized_1; [done|lia]|done|].
  pose proof (wf_eval_pos b Hb B0) as HB. pose proof (wf_eval_nonneg a Ha) as HA.
  rewrite Z.quot_div, Z.rem_mod by done.
  rewrite <- !wf_eval_abs, <- !wf_sign_sgn by done.
  rewrite abs_compare_spec by (simpl; by apply wf_canonical). simpl.
  mif; zbool.
  - mbind (runs_copy a (λ p, p = a)) as ? ->; [by eapply sized_1|done|].
    mret. split; [apply wf_init|]. split; [done|].
    rewrite Z.div_small, Z.mod_small by lia. split; [|done]. rewrite Z.mul_0_r. done.
  - assert (len b ≠ 0%nat) as Hlb.
    { unfold len. destruct (limbs b); [by simpl in HB|done]. }
    rewrite (decide_False (P := len b = 0%nat)) by done.
    assert (wf (set_sign b 1)) as Hb1 by (apply set_sign_wf; [by apply wf_canonical|lia|auto]).
    mbind (runs_resize _ _ (λ r, limbs r = replicate (len a) 0)) as q Hq.
    + unfold sized, limit, len in Sa |- *. simpl. clia.
    + simpl. by rewrite take_nil, Nat.sub_0_r.
    + rewrite Hq. unfold len at 1. simpl.
      mbind (divmod_loop_spec _ (limbs a) (set_sign b 1)) as [ql r] (Hql & Hlq & Hr & Hlt & He);
        try done; [by apply wf_limbs_ok|apply limbs_ok_replicate|by rewrite length_replicate|
                   apply canonical_nil| |].
      * rewrite !drop_ge by (rewrite ?length_replicate; unfold len; simpl; lia). simpl. lia.
      * mret. simpl in He, Hlt.
        pose proof (eval_bound _ (proj1 Hr)) as Hr0.
        assert (eval (limbs a) / eval (limbs b) = eval ql) as Hdiv
          by (symmetry; apply Z.div_unique_pos with (eval (limbs r)); lia).
        assert (eval (limbs a) mod eval (limbs b) = eval (limbs r)) as Hmod
          by (symmetry; apply Z.mod_unique_pos with (eval ql); lia).
        rewrite Hdiv, Hmod.
        destruct (divmod_signs a b r ql) as (H1 & H2 & H3 & H4); try done; lia.
Qed.

(** ** Scaling, tests and conversion back to machine integers *)

Lemma pow10_spec n v k E :
  wf v → sized k v → k + Z.of_nat n < limit →
  runs (pn_big_pow10 v n)
    (λ r, wf r ∧ to_Z r = to_Z v * 10 ^ Z.of_nat n ∧ sized (k + Z.of_nat n) r) E.
Proof.
  revert v k. induction n as [|n IH]; intros v k Hv Hs Hk; cbn [pn_big_pow10].
  - mret. rewrite Z.pow_0_r, Z.mul_1_r, Z.add_0_r. done.
  - mbind mul_small_spec as r (Hr & Hz & Hl); [done|eapply sized_mono; [done|lia]|by unfold BASE|].
    eapply runs_mono; [apply (IH r (k + 1)); [done|unfold sized in *; lia|lia]| |done].
    intros a (? & Ha & Hsa). split; [done|]. split; [|unfold sized in *; lia].
    rewrite Ha, Hz, Nat2Z.inj_succ, Z.pow_succ_r by lia. lia.
Qed.

Lemma is_zero_spec v : wf v → pn_big_is_zero v = (to_Z v =? 0).
Proof.
  intros Hv. unfold pn_big_is_zero. rewrite wf_sign_sgn by done.
  destruct (Z.eqb_spec (Z.sgn (to_Z v)) 0), (Z.eqb_spec (to_Z v) 0); lia.
Qed.

Lemma is_one_spec v : wf v → pn_big_is_one v = (to_Z v =? 1).
Proof.
  intros Hv. set (one := {| sign := 1; limbs := [1] |}).
  assert (wf one ∧ to_Z one = 1) as [Ho Hoz].
  { split; [|done]. split; [|by right; split; [left|]]. split; [|done].
    apply Forall_singleton. unfold limb_ok, BASE. lia. }
  unfold pn_big_is_one. destruct (Z.eqb_spec (to_Z v) 1) as [H1|H1].
  - rewrite <- Hoz in H1. apply to_Z_inj in H1 as ->; done.
  - destruct (decide (len v = 1%nat)) as [Hl|Hl].
    + destruct v as [s [|x []]]; try done. unfold to_Z in H1. simpl in *.
      destruct (Z.eqb_spec s 1), (Z.eqb_spec x 1); subst; simpl; rewrite ?andb_false_r; try done.
    + rewrite (bool_decide_false _ Hl). by rewrite andb_false_r.
Qed.

Lemma fits_size_loop_spec l :
  limbs_ok l →
  fits_size_loop l = if eval l <=? SIZE_MAX then Some (eval l) else None.
Proof.
  induction 1 as [|x l Hx Hok IH]; simpl; [done|]. rewrite IH.
  pose proof (eval_bound l Hok). unfold limb_ok in Hx.
  destruct (Z.leb_spec (eval l) SIZE_MAX).
  - destruct (Z.ltb_spec ((SIZE_MAX - x) / BASE) (eval l)) as [Hlt|Hge].
    + apply Z.div_lt_upper_bound in Hlt || idtac.
      destruct (Z.leb_spec (x + BASE * eval l) SIZE_MAX); [|done].
      assert (eval l ≤ (SIZE_MAX - x) / BASE) by (apply Z.div_le_lower_bound; [done|lia]). lia.
    + assert (BASE * ((SIZE_MAX - x) / BASE) ≤ SIZE_MAX - x) by (by apply Z.mul_div_le).
      assert (x + BASE * eval l ≤ SIZE_MAX) by nia.
      destruct (Z.leb_spec (x + BASE * eval l) SIZE_MAX); [|lia].
      rewrite u64_small by (unfold SIZE_MAX, BASE in *; zpow; lia). f_equal. lia.
  - destruct (Z.leb_spec (x + BASE * eval l) SIZE_MAX); [|done].
    unfold BASE in *. lia.
Qed.

(** [pn_big_fits_size] succeeds exactly on the integers a [size_t] holds. *)
Lemma fits_size_spec v :
  wf v →
  pn_big_fits_size v =
    if (0 <=? to_Z v) && (to_Z v <=? SIZE_MAX) then Some (to_Z v) else None.
Proof.
  intros Hv. unfold pn_big_fits_size.
  rewrite fits_size_loop_spec, wf_eval_abs, wf_sign_sgn by (try done; by apply wf_limbs_ok).
  destruct (Z.leb_spec 0 (to_Z v)); destruct (Z.ltb_spec (Z.sgn (to_Z v)) 0); simpl; try lia; [|done].
  by rewrite Z.abs_eq.
Qed.

(** ** Decimal text *)

(** [ds] is the shortest decimal numeral (ASCII) of [z]. *)
Definition decimal (z : Z) (ds : list Z) : Prop :=
  Forall (λ d, 48 ≤ d ≤ 57) ds ∧ radix_value 10 0 ((λ d, d - 48) <$> ds) = z ∧ ds ≠ [] ∧
  (z ≠ 0 → 10 ^ (Z.of_nat (length ds) - 1) ≤ z) ∧ (z = 0 → ds = [48]).

Lemma radix_value_app r acc a b :
  radix_value r acc (a ++ b) = radix_value r (radix_value r acc a) b.
Proof. unfold radix_value. by rewrite foldl_app. Qed.

Lemma radix_value_acc r acc ds :
  radix_value r acc ds = acc * r ^ Z.of_nat (length ds) + radix_value r 0 ds.
Proof.
  revert acc. induction ds as [|d ds IH]; intros acc; unfold radix_value in *; cbn [foldl length]; [simpl; lia|].
  rewrite IH, (IH (0 * r + d)), Nat2Z.inj_succ, Z.pow_succ_r by lia. nia.
Qed.

Lemma radix_value_bound r ds :
  0 < r → Forall (λ d, 0 ≤ d < r) ds →
  0 ≤ radix_value r 0 ds < r ^ Z.of_nat (length ds).
Proof.
  intros Hr. induction 1 as [|d ds Hd _ IH]; [by unfold radix_value|].
  change (radix_value r 0 (d :: ds)) with (radix_value r (0 * r + d) ds).
  rewrite radix_value_acc. simpl length. rewrite Nat2Z.inj_succ, Z.pow_succ_r by lia. nia.
Qed.

Lemma fmt_digits_spec n z :
  0 ≤ z < 10 ^ Z.of_nat n →
  Forall (λ d, 48 ≤ d ≤ 57) (fmt_digits n z) ∧ length (fmt_digits n z) = n ∧
  radix_value 10 0 ((λ d, d - 48) <$> fmt_digits n z) = z.
Proof.
  revert z. induction n as [|n IH]; intros z Hz.
  - simpl in *. split; [constructor|]. unfold radix_value. simpl. lia.
  - rewrite Nat2Z.inj_succ, Z.pow_succ_r in Hz by lia. simpl.
    pose proof (Z.mod_pos_bound z 10 ltac:(lia)). pose proof (Z.div_mod z 10 ltac:(lia)).
    destruct (IH (z / 10)) as (Hok & Hl & Hv).
    { split; [apply Z.div_pos; lia|]. apply Z.div_lt_upper_bound; lia. }
    split; [apply Forall_app; split; [done|]; apply Forall_singleton; lia|].
    split; [rewrite length_app, Hl; simpl; lia|].
    rewrite fmap_app, radix_value_app, Hv. unfold radix_value. simpl. lia.
Qed.

Lemma count_digits_spec fuel z :
  0 ≤ z < 10 ^ (Z.of_nat fuel + 1) →
  (1 ≤ count_digits fuel z)%nat ∧ z < 10 ^ Z.of_nat (count_digits fuel z) ∧
  (z ≠ 0 → 10 ^ (Z.of_nat (count_digits fuel z) - 1) ≤ z) ∧ (z = 0 → count_digits fuel z = 1%nat).
Proof.
  revert z. induction fuel as [|f IH]; intros z Hz.
  - simpl in *. change (10 ^ 1) with 10 in *. lia.
  - simpl count_digits. destruct (Z.ltb_spec z 10) as [H|H].
    { simpl. change (10 ^ 1) with 10 in *. lia. }
    rewrite Nat2Z.inj_succ, Z.add_succ_l, Z.pow_succ_r in Hz by lia.
    pose proof (Z.div_mod z 10 ltac:(lia)). pose proof (Z.mod_pos_bound z 10 ltac:(lia)).
    assert (1 ≤ z / 10) by (apply Z.div_le_lower_bound; lia).
    destruct (IH (z / 10)) as (Hn & Hlt & Hle & _).
    { split; [lia|]. apply Z.div_lt_upper_bound; lia. }
    set (n := count_digits f (z / 10)) in *.
    rewrite Nat2Z.inj_succ. split; [lia|]. split; [rewrite Z.pow_succ_r by lia; lia|].
    split; [|lia]. intros _. specialize (Hle ltac:(lia)).
    replace (Z.succ (Z.of_nat n) - 1) with (Z.succ (Z.of_nat n - 1)) by lia.
    rewrite Z.pow_succ_r by lia. lia.
Qed.

Lemma count_digits_limb x : 0 ≤ x < BASE → (count_digits 10 x ≤ 9)%nat.
Proof.
  intros Hx. destruct (count_digits_spec 10 x) as (H1 & _ & H2 & H3).
  { unfold BASE in *. simpl. lia. }
  destruct (decide (x = 0)) as [->|Hne]; [rewrite H3; lia|]. specialize (H2 Hne).
  destruct (decide (count_digits 10 x ≤ 9)%nat); [done|].
  assert (10 ^ 9 ≤ 10 ^ (Z.of_nat (count_digits 10 x) - 1)) by (apply Z.pow_le_mono_r; lia).
  unfold BASE in *. lia.
Qed.

(** Text printed so far: a sign and the digits of the limbs from [i] up. *)
Definition printed (neg : list Z) (l : list Z) (i : nat) (text : list Z) : Prop :=
  ∃ ds, text = neg ++ ds ∧ decimal (eval (drop i l)) ds ∧
        (length ds ≤ 9 * (length l - i))%nat.

Lemma string_loop_spec cap neg l i text E :
  limbs_ok l → (i ≤ length l)%nat → printed neg l i text → eval (drop i l) ≠ 0 →
  (length neg ≤ 1)%nat → cap = Z.of_nat (length l) * 9 + 2 →
  runs (string_loop cap text l i) (λ t, printed neg l 0 t) E.
Proof.
  intros Hok. revert text. induction i as [|i IH]; intros text Hi Hp Hnz Hneg Hcap; simpl.
  - by mret.
  - destruct (lookup_lt_is_Some_2 l i ltac:(lia)) as [x Hx].
    pose proof (limbs_ok_lookup _ _ _ Hok Hx) as Hxo. unfold limb_ok in Hxo.
    mbind (runs_rd _ _ _ (λ z, z = x)) as ? ->; [done..|].
    destruct Hp as (ds & -> & (Hd1 & Hd2 & Hd3 & Hd4 & Hd5) & Hlen).
    pose proof (count_digits_limb x Hxo) as Hcd.
    unfold fmt_09u. rewrite Nat.max_l by lia.
    destruct (fmt_digits_spec 9 x) as (Hf1 & Hf2 & Hf3); [unfold BASE in *; simpl; lia|].
    unfold append_text. rewrite length_app, Hf2.
    destruct (Z.ltb_spec (Z.of_nat (length neg + length ds + 9)) cap); [|lia].
    mbind (runs_ret (λ t, t = (neg ++ ds) ++ fmt_digits 9 x)) as ? ->; [done|].
    assert (eval (drop i l) = x + BASE * eval (drop (S i) l)) as Hev
      by (by rewrite (drop_S _ _ _ Hx)).
    pose proof (eval_bound (drop (S i) l) ltac:(by apply Forall_drop)) as Hpos.
    apply IH; [lia| |unfold BASE in *; lia|done|done].
    exists (ds ++ fmt_digits 9 x). split; [by rewrite (assoc (++))|].
    split; [|rewrite length_app; lia].
    split; [by apply Forall_app|]. split; [|split; [by destruct ds|split]].
    + rewrite fmap_app, radix_value_app, radix_value_acc, length_fmap, Hf2, Hf3, Hd2.
      change (10 ^ Z.of_nat 9) with BASE. lia.
    + intros _. specialize (Hd4 Hnz). rewrite length_app, Hf2.
      replace (Z.of_nat (length ds + 9) - 1) with (Z.of_nat (length ds) - 1 + 9) by lia.
      destruct ds; [done|]. rewrite Z.pow_add_r by (simpl; lia).
      change (10 ^ 9) with BASE. unfold BASE in *. lia.
    + unfold BASE in *. lia.
Qed.

(** [pn_big_string] prints the shortest decimal numeral and its buffer suffices. *)
Lemma string_spec v E :
  wf v →
  runs (pn_big_string v)
    (λ text, ∃ ds, text = (if to_Z v <? 0 then [45] else []) ++ ds ∧
                   decimal (Z.abs (to_Z v)) ds) E.
Proof.
  intros Hv. unfold pn_big_string. destruct (Z.eqb_spec (sign v) 0) as [S0|S0].
  { mbind runs_alloc as ? _. mret. rewrite wf_sign_0 by done. exists [48].
    split; [done|]. split; [apply Forall_singleton; lia|]. done. }
  mbind runs_alloc as ? _.
  pose proof (wf_eval_pos v Hv S0) as Hpos.
  assert (limbs v ≠ []) as Hne by (intros H; by rewrite H in Hpos).
  destruct (exists_last Hne) as (l' & x & Hl).
  assert (len v = length l' + 1)%nat as Hlv by (unfold len; by rewrite Hl, length_app).
  assert (len v - 1 = length l')%nat as Hlen by lia.
  assert (limbs v !! (len v - 1)%nat = Some x) as Hx
    by (rewrite Hlen, Hl; by apply list_lookup_middle).
  pose proof (limbs_ok_lookup _ _ _ (wf_limbs_ok _ Hv) Hx) as Hxo. unfold limb_ok in Hxo.
  assert (x ≠ 0) as Hx0.
  { destruct (wf_canonical _ Hv) as [_ Hlast]. rewrite Hl, last_snoc in Hlast. congruence. }
  mbind (runs_rd _ _ _ (λ z, z = x)) as ? ->; [done..|].
  destruct (count_digits_spec 10 x) as (Hc1 & Hc2 & Hc3 & _); [unfold BASE in *; simpl; lia|].
  pose proof (count_digits_limb x Hxo) as Hcd.
  destruct (fmt_digits_spec (count_digits 10 x) x) as (Hf1 & Hf2 & Hf3); [lia|].
  set (neg := if sign v <? 0 then [45] else []).
  assert (length neg ≤ 1)%nat by (unfold neg; destruct (sign v <? 0); simpl; lia).
  unfold append_text, fmt_u. rewrite Hf2.
  destruct (Z.ltb_spec (Z.of_nat (length neg + count_digits 10 x)) (Z.of_nat (len v) * 9 + 2));
    [|lia].
  mbind (runs_ret (λ t, t = neg ++ fmt_digits (count_digits 10 x) x)) as ? ->; [done|].
  assert (drop (len v - 1) (limbs v) = [x]) as Hdrop by (rewrite Hlen, Hl; by rewrite drop_app_length).
  eapply runs_mono; [apply (string_loop_spec _ neg)| |done].
  - by apply wf_limbs_ok.
  - unfold len. lia.
  - exists (fmt_digits (count_digits 10 x) x). split; [done|]. rewrite Hdrop. cbn [eval].
    rewrite Z.mul_0_r, Z.add_0_r. split; [|unfold len in *; rewrite Hf2; lia].
    split; [done|]. split; [done|]. split; [|split; [rewrite Hf2; auto|done]].
    intros Hnil. rewrite Hnil in Hf2. cbn [length] in Hf2. lia.
  - rewrite Hdrop. simpl. lia.
  - done.
  - done.
  - intros t (ds & -> & Hd & _). exists ds. rewrite drop_0, wf_eval_abs in Hd by done.
    split; [|done]. f_equal. unfold neg. rewrite wf_sign_sgn by done.
    destruct (Z.ltb_spec (Z.sgn (to_Z v)) 0), (Z.ltb_spec (to_Z v) 0); try done; lia.
Qed.

(** ** Decidability, for evaluating the invariant on concrete numbers *)

#[global] Instance limb_ok_dec x : Decision (limb_ok x).
Proof. unfold limb_ok. apply _. Defined.
#[global] Instance wf_dec b : Decision (wf b).
Proof. unfold wf, canonical, limbs_ok. apply _. Defined.
#[global] Instance sized_dec k b : Decision (sized k b).
Proof. unfold sized. apply _. Defined.

(** ** What the bignum library promises *)

(** C14: addition, subtraction and multiplication of multi-limb integers are the
    operations of Z, and return a number in canonical form (no leading zero
    limb, zero with sign zero), whatever the allocator answers. *)
Theorem big_ring a b :
  wf a → wf b → sized limit a → sized limit b →
  returns (pn_big_add a b) (λ r, wf r ∧ to_Z r = to_Z a + to_Z b) ∧
  returns (pn_big_sub a b) (λ r, wf r ∧ to_Z r = to_Z a - to_Z b) ∧
  returns (pn_big_mul a b) (λ r, wf r ∧ to_Z r = to_Z a * to_Z b).
Proof. intros. split_and!; auto using add_spec, sub_spec, mul_spec. Qed.

Lemma big_ring_witness :
  let a := {| sign := 1; limbs := [999999999; 3] |} in
  let b := {| sign := -1; limbs := [2; 0; 7] |} in
  returns (pn_big_add a b) (λ r, wf r ∧ to_Z r = to_Z a + to_Z b) ∧
  returns (pn_big_sub a b) (λ r, wf r ∧ to_Z r = to_Z a - to_Z b) ∧
  returns (pn_big_mul a b) (λ r, wf r ∧ to_Z r = to_Z a * to_Z b).
Proof. intros a b. apply (big_ring a b); decide_now. Defined.

(** C16: long division with a binary search for each quotient digit terminates
    and computes the truncated quotient and the remainder of Z. *)
Theorem big_divmod a b :
  wf a → wf b → sized limit a → sized (limit - 1) b → to_Z b ≠ 0 →
  returns (pn_big_divmod a b)
    (λ '(q, r), wf q ∧ wf r ∧ to_Z q = Z.quot (to_Z a) (to_Z b) ∧
                to_Z r = Z.rem (to_Z a) (to_Z b)).
Proof. apply divmod_spec. Qed.

Lemma big_divmod_witness :
  let a := {| sign := -1; limbs := [999999999; 3; 8] |} in
  let b := {| sign := 1; limbs := [2; 7] |} in
  returns (pn_big_divmod a b)
    (λ '(q, r), wf q ∧ wf r ∧ to_Z q = Z.quot (to_Z a) (to_Z b) ∧
                to_Z r = Z.rem (to_Z a) (to_Z b)).
Proof. intros a b. apply (big_divmod a b); decide_now. Defined.

(** The representation is unique and [pn_big_compare] is the order of Z: two
    canonical numbers compare equal exactly when they are the same limbs. *)
Theorem big_compare_unique a b :
  wf a → wf b →
  pn_big_compare a b = Z.sgn (to_Z a - to_Z b) ∧ (pn_big_compare a b = 0 ↔ a = b).
Proof.
  intros Ha Hb. rewrite compare_spec by done. split; [done|]. split.
  - intros H. apply to_Z_inj; [done..|]. lia.
  - intros ->. lia.
Qed.

Lemma big_compare_unique_witness :
  let a := {| sign := 1; limbs := [5; 3] |} in
  let b := {| sign := 1; limbs := [6; 2] |} in
  pn_big_compare a b = Z.sgn (to_Z a - to_Z b) ∧ (pn_big_compare a b = 0 ↔ a = b).
Proof. intros a b. apply (big_compare_unique a b); decide_now. Defined.

Lemma decimal_length v ds k :
  wf v → sized k v → decimal (Z.abs (to_Z v)) ds → 1 ≤ k → Z.of_nat (length ds) ≤ 9 * k.
Proof.
  intros Hv Hs (_ & _ & _ & Hnz & Hz) Hk. apply sized_le in Hs; [|done|lia].
  destruct (decide (Z.abs (to_Z v) = 0)) as [H0|H0].
  - rewrite Hz by done. simpl. lia.
  - specialize (Hnz H0). change BASE with (10 ^ 9) in Hs. rewrite <- Z.pow_mul_r in Hs by lia.
    assert (10 ^ (Z.of_nat (length ds) - 1) < 10 ^ (9 * k)) as Hp by lia.
    apply Z.pow_lt_mono_r_iff in Hp; lia.
Qed.

(** Read a numeral with an optional minus sign. *)
Definition signed_digits (text : list Z) : M PnBigInt :=
  if bool_decide (head text = Some 45) then pn_big_from_digits (tail text) (-1)
  else pn_big_from_digits text 1.

Lemma string_digits_spec v E :
  wf v → sized (2 ^ 50) v →
  runs (text ← pn_big_string v; signed_digits text) (λ r, r = v) E.
Proof.
  intros Hv Hs. mbind string_spec as text (ds & -> & Hd); [done|].
  assert (Z.of_nat (length ds) < limit - 1) as Hl.
  { pose proof (decimal_length _ _ _ Hv Hs Hd ltac:(done)) as H. unfold limit. clear -H. clia. }
  destruct Hd as (Hall & Hval & _). unfold signed_digits.
  destruct (Z.ltb_spec (to_Z v) 0) as [Hneg|Hpos]; simpl.
  - eapply runs_mono; [by apply from_digits_spec| |done]. intros r (Hr & Hz). simpl in Hz.
    apply to_Z_inj; [done..|]. rewrite Hz, Hval. lia.
  - rewrite bool_decide_eq_false_2.
    2:{ destruct Hall; [done|]. intros [= ->]. lia. }
    eapply runs_mono; [by apply from_digits_spec| |done]. intros r (Hr & Hz). simpl in Hz.
    apply to_Z_inj; [done..|]. rewrite Hz, Hval. lia.
Qed.

(** C34: printing a number and reading the numeral back gives the same sign and
    limbs, and the printer never writes past the buffer it sized in advance. *)
Theorem big_text_roundtrip v :
  wf v → sized (2 ^ 50) v → returns (text ← pn_big_string v; signed_digits text) (λ r, r = v).
Proof. apply string_digits_spec. Qed.

Lemma big_text_roundtrip_witness :
  let v := {| sign := -1; limbs := [7; 0; 120] |} in
  returns (text ← pn_big_string v; signed_digits text) (λ r, r = v).
Proof. intros v. apply (big_text_roundtrip v); decide_now. Defined.

(** [pn_big_fits_size] accepts exactly the numbers of a 64-bit [size_t] and
    returns their value; its running 64-bit total never wraps. *)
Theorem big_fits_size v :
  wf v →
  pn_big_fits_size v =
    if (0 <=? to_Z v) && (to_Z v <=? SIZE_MAX) then Some (to_Z v) else None.
Proof. apply fits_size_spec. Qed.

Lemma big_fits_size_witness :
  pn_big_fits_size {| sign := 1; limbs := [709551615; 446744073; 18] |} = Some SIZE_MAX.
Proof.
  rewrite (big_fits_size {| sign := 1; limbs := [709551615; 446744073; 18] |}) by decide_now.
  vm_compute. reflexivity.
Defined.
