(* ===== verification/Digits.v ===== *)
(** * Positional digits

    Minimal digit strings in a radix: the specification of the numerals and of
    the packed coefficients the virtual machine reads and prints. *)

From Stdlib Require Import ZArith Lia.
From stdpp Require Import prelude gmap strings.
From S2P Require Import Prelude Bigint.

(** Minimal big-endian digits in a radix. *)
Fixpoint be_digits (fuel : nat) (radix z : Z) : list Z :=
  match fuel with
  | O => []
  | S f => if z =? 0 then [] else be_digits f radix (z / radix) ++ [z mod radix]
  end.

Definition digits_of (radix z : Z) : list Z := be_digits (Z.to_nat (Z.log2 z) + 1) radix z.

(** The decimal digits of a coefficient; zero has one digit. *)
Definition coefficient_digits_of (z : Z) : list Z := if z =? 0 then [0] else digits_of 10 z.

Definition ten (d : Z) : Prop := 0 ≤ d < 10.

(** ** Minimal digits in a radix *)

Section radix.
Context (radix : Z) (Hradix : 2 ≤ radix).

Definition digit (d : Z) : Prop := 0 ≤ d < radix.

Lemma radix_positive ds :
  Forall digit ds → ds ≠ [] → head ds ≠ Some 0 → 0 < radix_value radix 0 ds.
Proof.
  intros Hd Hne Hh. destruct Hd as [|d ds Hd Hds]; [done|].
  change (radix_value radix 0 (d :: ds)) with (radix_value radix (0 * radix + d) ds).
  rewrite Z.mul_0_l, Z.add_0_l, radix_value_acc.
  pose proof (radix_value_bound radix ds ltac:(lia) Hds).
  pose proof (Z.pow_pos_nonneg radix (Z.of_nat (length ds)) ltac:(lia) ltac:(lia)).
  assert (d ≠ 0) by (intros ->; done). unfold digit in Hd. nia.
Qed.

Lemma be_digits_unique fuel ds :
  Forall digit ds → head ds ≠ Some 0 → radix_value radix 0 ds < 2 ^ Z.of_nat fuel →
  be_digits fuel radix (radix_value radix 0 ds) = ds.
Proof.
  revert ds. induction fuel as [|f IH]; intros ds Hd Hh Hlt.
  - destruct (decide (ds = [])) as [->|Hne]; [done|].
    pose proof (radix_positive ds Hd Hne Hh). simpl in Hlt. lia.
  - destruct ds as [|d ds _] using rev_ind; [done|].
    assert (ds ++ [d] ≠ []) as Hne by (by destruct ds).
    pose proof (radix_positive _ Hd Hne Hh) as Hpos.
    apply Forall_app in Hd as [Hds Hd']. inversion_clear Hd' as [|? ? Hd _]. unfold digit in Hd.
    rewrite radix_value_app in *. simpl in *.
    pose proof (radix_value_bound radix ds ltac:(lia) Hds) as Hb.
    set (v := radix_value radix 0 ds) in *.
    destruct (Z.eqb_spec (v * radix + d) 0); [lia|].
    rewrite Z.div_add_l, Z.div_small, Z.add_0_r by lia.
    rewrite (Z.add_comm (v * radix)), Z.mod_add, Z.mod_small by lia.
    unfold v. rewrite IH; [done|done| |].
    + destruct ds; [done|]. done.
    + rewrite Nat2Z.inj_succ, Z.pow_succ_r in Hlt by lia. fold v. nia.
Qed.

Lemma be_digits_ok fuel z :
  0 ≤ z < 2 ^ Z.of_nat fuel →
  Forall digit (be_digits fuel radix z) ∧ radix_value radix 0 (be_digits fuel radix z) = z ∧
  head (be_digits fuel radix z) ≠ Some 0.
Proof.
  revert z. induction fuel as [|f IH]; intros z Hz; cbn [be_digits].
  - simpl in Hz. split_and!; [constructor|simpl; lia|done].
  - destruct (Z.eqb_spec z 0) as [->|Hnz]; [done|].
    assert (0 ≤ z / radix < 2 ^ Z.of_nat f) as Hq.
    { rewrite Nat2Z.inj_succ, Z.pow_succ_r in Hz by lia.
      split; [apply Z.div_pos; lia|apply Z.div_lt_upper_bound; nia]. }
    destruct (IH (z / radix) Hq) as (Hd & Hv & Hh). split_and!.
    + apply Forall_app. split; [done|]. apply Forall_singleton. apply Z.mod_pos_bound. lia.
    + rewrite radix_value_app, Hv. simpl. pose proof (Z.div_mod z radix). lia.
    + destruct (be_digits f radix (z / radix)) as [|d ds]; [|done]. simpl.
      simpl in Hv. intros [= H0]. pose proof (Z.div_mod z radix). lia.
Qed.

Lemma digits_of_ok z :
  0 ≤ z →
  Forall digit (digits_of radix z) ∧ radix_value radix 0 (digits_of radix z) = z ∧
  head (digits_of radix z) ≠ Some 0.
Proof.
  intros Hz. apply be_digits_ok. split; [done|]. destruct (decide (z = 0)) as [->|Hnz]; [done|].
  pose proof (Z.log2_spec z ltac:(lia)) as [_ H]. pose proof (Z.log2_nonneg z).
  rewrite Nat2Z.inj_add, Z2Nat.id by done. by rewrite Z.add_1_r.
Qed.

Lemma digits_of_unique ds :
  Forall digit ds → head ds ≠ Some 0 → digits_of radix (radix_value radix 0 ds) = ds.
Proof.
  intros Hd Hh. apply be_digits_unique; [done..|].
  pose proof (radix_value_bound radix ds ltac:(lia) Hd) as Hb.
  destruct (decide (radix_value radix 0 ds = 0)) as [->|Hnz]; [done|].
  pose proof (Z.log2_spec (radix_value radix 0 ds) ltac:(lia)) as [_ H].
  pose proof (Z.log2_nonneg (radix_value radix 0 ds)).
  rewrite Nat2Z.inj_add, Z2Nat.id by done. by rewrite Z.add_1_r.
Qed.

Lemma digits_of_length z k : 0 ≤ z < radix ^ k → 0 ≤ k → Z.of_nat (length (digits_of radix z)) ≤ k.
Proof.
  intros Hz Hk. destruct (digits_of_ok z ltac:(lia)) as (Hd & Hv & Hh).
  destruct (digits_of radix z) as [|d ds]; [simpl; lia|].
  change (radix_value radix 0 (d :: ds)) with (radix_value radix (0 * radix + d) ds) in Hv.
  rewrite radix_value_acc in Hv. inversion_clear Hd as [|? ? Hd0 Hds].
  pose proof (radix_value_bound radix ds ltac:(lia) Hds) as Hb.
  assert (d ≠ 0) by (intros ->; done). unfold digit in Hd0.
  pose proof (Z.pow_pos_nonneg radix (Z.of_nat (length ds)) ltac:(lia) ltac:(lia)).
  assert (radix ^ Z.of_nat (length ds) < radix ^ k) as Hlt by nia.
  apply Z.pow_lt_mono_r_iff in Hlt; simpl; lia.
Qed.
End radix.

(** ** Decimal numerals *)

Lemma cstr_digits ds : Forall (λ d, 48 ≤ d ≤ 57) ds → cstr ds = ds.
Proof.
  induction 1 as [|d ds Hd _ IH]; [done|]. simpl. destruct (Z.eqb_spec d 0); [lia|]. by rewrite IH.
Qed.

Lemma decimal_bound z ds k :
  decimal z ds → 1 ≤ k → Z.of_nat (length ds) ≤ k ↔ z < 10 ^ k.
Proof.
  intros (Hall & Hv & Hne & Hnz & Hz) Hk. split.
  - intros Hl. rewrite <- Hv.
    assert (Forall (λ d, 0 ≤ d < 10) ((λ d, d - 48) <$> ds)) as Hd.
    { apply Forall_fmap. eapply Forall_impl; [done|]. simpl. intros; lia. }
    pose proof (radix_value_bound 10 _ ltac:(lia) Hd) as Hb. rewrite length_fmap in Hb.
    pose proof (Z.pow_le_mono_r 10 (Z.of_nat (length ds)) k). lia.
  - intros Hlt. destruct (decide (z = 0)) as [->|H0]; [rewrite Hz by done; simpl; lia|].
    specialize (Hnz H0). assert (10 ^ (Z.of_nat (length ds) - 1) < 10 ^ k) as Hp by lia.
    apply Z.pow_lt_mono_r_iff in Hp; lia.
Qed.

Lemma coefficient_digits_ok z k :
  0 ≤ z < 10 ^ k → 1 ≤ k →
  let ds := coefficient_digits_of z in
  Forall ten ds ∧ radix_value 10 0 ds = z ∧ 1 ≤ Z.of_nat (length ds) ≤ k ∧
  ((1 < length ds)%nat → head ds ≠ Some 0).
Proof.
  intros Hz Hk ds. unfold ds, coefficient_digits_of. destruct (Z.eqb_spec z 0) as [->|Hnz].
  - split_and!; [repeat constructor; lia|done|done|done|simpl; lia].
  - destruct (digits_of_ok 10 ltac:(lia) z ltac:(lia)) as (Hd & Hv & Hh).
    split_and!; [done|done| |apply digits_of_length; (done || lia)|done].
    destruct (digits_of 10 z); [simpl in Hv; lia|simpl; lia].
Qed.

Lemma coefficient_digits_unique ds :
  Forall ten ds → ds ≠ [] → ((1 < length ds)%nat → head ds ≠ Some 0) →
  coefficient_digits_of (radix_value 10 0 ds) = ds.
Proof.
  intros Hd Hne Hh. unfold coefficient_digits_of.
  destruct (decide (head ds = Some 0)) as [H0|H0].
  - destruct ds as [|d [|e ds]]; [done| |by apply Hh in H0; [|simpl; lia]].
    injection H0 as ->. done.
  - pose proof (radix_positive 10 ltac:(lia) ds Hd Hne H0).
    destruct (Z.eqb_spec (radix_value 10 0 ds) 0); [lia|]. by apply digits_of_unique.
Qed.

Lemma minus_plus_48 (ds : list Z) : (λ d, d - 48) <$> ((λ d, 48 + d) <$> ds) = ds.
Proof.
  rewrite <- list_fmap_compose. rewrite <- (list_fmap_id ds) at 2.
  apply list_fmap_ext. intros ? x _. simpl. lia.
Qed.

Lemma ascii_digits (ds : list Z) : Forall ten ds → Forall (λ d, 48 ≤ d ≤ 57) ((λ d, 48 + d) <$> ds).
Proof. intros H. apply Forall_fmap. eapply Forall_impl; [done|]. unfold ten. simpl. lia. Qed.


(** The numeral [pn_big_string] prints is the minimal one. *)
Lemma decimal_text z ds :
  0 ≤ z → decimal z ds → ds = (λ d, 48 + d) <$> coefficient_digits_of z.
Proof.
  intros Hz (Hall & Hv & Hne & Hnz & H0).
  assert (ds = (λ d, 48 + d) <$> ((λ d, d - 48) <$> ds)) as Hds.
  { rewrite <- list_fmap_compose. rewrite <- (list_fmap_id ds) at 1.
    apply list_fmap_ext. intros ? x _. simpl. lia. }
  rewrite Hds. f_equal. rewrite <- Hv. symmetry. apply coefficient_digits_unique.
  - apply Forall_fmap. eapply Forall_impl; [done|]. unfold ten. simpl. lia.
  - intros ?%fmap_nil_inv. done.
  - rewrite length_fmap. intros Hl Hh. destruct ds as [|d ds]; [done|]. simpl in Hh, Hl.
    injection Hh as Hd. assert (d = 48) as -> by lia.
    assert (z ≠ 0) as Hz0 by (intros ->; specialize (H0 eq_refl); injection H0 as ->; simpl in Hl; lia).
    specialize (Hnz Hz0). inversion_clear Hall as [|? ? _ Hall'].
    assert (Forall (λ d, 0 ≤ d < 10) ((λ d, d - 48) <$> ds)) as Hb.
    { apply Forall_fmap. eapply Forall_impl; [done|]. simpl. lia. }
    pose proof (radix_value_bound 10 _ ltac:(lia) Hb) as Hbound. rewrite length_fmap in Hbound.
    cbn [length] in Hnz.
    replace (Z.of_nat (S (length ds)) - 1) with (Z.of_nat (length ds)) in Hnz by lia.
    change (radix_value 10 0 ((λ d, d - 48) <$> 48 :: ds))
      with (radix_value 10 0 ((λ d, d - 48) <$> ds)) in Hv. lia.
Qed.
