(* ===== verification/Value.v ===== *)
(** * Runtime values: src/src/vm/value.h and value.c

    The tagged union of the VM.  A value is modelled by what a program can
    observe of it: immutable values by their contents, and the kinds whose
    equality is pointer equality (ranges, iterators and the HTTP resource
    shells) by an identity given when the object is allocated.  Reference
    counts and storage sharing are the subject of [Storage]. *)

From Stdlib Require Import ZArith Lia.
From stdpp Require Import prelude gmap strings.
From S2P Require Import Prelude Bigint.

(** ** Data *)

Inductive ValueKind :=
| V_PATH | V_DURATION | V_INSTANT | V_RAT | V_UNIT | V_NAT | V_INT | V_DEC | V_STR | V_BOOL
| V_VOID | V_RANGE | V_ARRAY | V_RECORD | V_VARIANT | V_MAP | V_SET | V_BYTES | V_ITER
| V_HTTP_STATE | V_HTTP_WRITER | V_HTTP_CONNECTION.

#[global] Instance ValueKind_eq_dec : EqDecision ValueKind.
Proof. solve_decision. Defined.

Record Decimal := mkDecimal { coefficient : PnBigInt; exponent : Z; negative_zero : bool }.

(** A string's bytes with the code-point count and ASCII flag cached beside them. *)
Record Text := mkText { data : list Z; characters : Z; ascii : bool }.

(** The address of a heap object. *)
Definition ref := positive.

Inductive Value :=
| Path (bytes : list Z)
| Duration (n : PnBigInt)
| Instant (n : PnBigInt)
| Rat (numerator denominator : PnBigInt)
| VUnit
| Nat_ (n : PnBigInt)
| Int_ (n : PnBigInt)
| Dec (d : Decimal)
| Str (t : Text)
| Bool_ (b : bool)
| Void
| Range (id : ref) (start stop : PnBigInt)
| Array (items : list Value)
| Record_ (name : list Z) (names : list (list Z)) (values : list Value)
| Variant (name : list Z) (values : list Value)
| Map_ (items : list Value)
| Set_ (items : list Value)
| Bytes (bytes : list Z)
| Iter (id : ref)
| HttpState (id : ref)
| HttpWriter (id : ref)
| HttpConnection (id : ref).

Definition kind (v : Value) : ValueKind :=
  match v with
  | Path _ => V_PATH | Duration _ => V_DURATION | Instant _ => V_INSTANT | Rat _ _ => V_RAT
  | VUnit => V_UNIT | Nat_ _ => V_NAT | Int_ _ => V_INT | Dec _ => V_DEC | Str _ => V_STR
  | Bool_ _ => V_BOOL | Void => V_VOID | Range _ _ _ => V_RANGE | Array _ => V_ARRAY
  | Record_ _ _ _ => V_RECORD | Variant _ _ => V_VARIANT | Map_ _ => V_MAP | Set_ _ => V_SET
  | Bytes _ => V_BYTES | Iter _ => V_ITER | HttpState _ => V_HTTP_STATE
  | HttpWriter _ => V_HTTP_WRITER | HttpConnection _ => V_HTTP_CONNECTION
  end.

(** [v->kind == k] *)
Definition is_kind (v : Value) (k : ValueKind) : bool := bool_decide (kind v = k).

(** ** Constructors *)

Definition value_bool (b : bool) : M Value := _ ← alloc; mret (Bool_ b).
Definition value_void : M Value := _ ← alloc; mret Void.
Definition value_unit : M Value := _ ← alloc; mret VUnit.

Definition value_big (k : ValueKind) (number : PnBigInt) : M Value :=
  _ ← alloc;
  n ← pn_big_copy number;
  match k with
  | V_NAT => mret (Nat_ n)
  | V_INT => mret (Int_ n)
  | V_DURATION => mret (Duration n)
  | V_INSTANT => mret (Instant n)
  | _ => undef
  end.

Definition value_size (number : Z) : M Value :=
  n ← pn_big_from_u64 number;
  value_big V_NAT n.

(** The loop of [value_data]: bytes that are not continuation bytes. *)
Fixpoint count_characters (bytes : list Z) : Z :=
  match bytes with
  | [] => 0
  | b :: rest => (if Z.land b 192 =? 128 then 0 else 1) + count_characters rest
  end.

Definition all_ascii (bytes : list Z) : bool := forallb (λ b, b <? 128) bytes.

Definition text_of (bytes : list Z) : Text :=
  {| data := bytes; characters := count_characters bytes; ascii := all_ascii bytes |}.

Definition value_data (k : ValueKind) (bytes : list Z) : M Value :=
  _ ← alloc;
  _ ← alloc;
  match k with
  | V_STR => mret (Str (text_of bytes))
  | V_BYTES => mret (Bytes bytes)
  | V_PATH => mret (Path bytes)
  | _ => undef
  end.

Definition value_sequence (k : ValueKind) (items : list Value) : M Value :=
  _ ← alloc;
  _ ← calloc_items (length items);
  match k with
  | V_ARRAY => mret (Array items)
  | V_MAP => mret (Map_ items)
  | V_SET => mret (Set_ items)
  | _ => undef
  end.

(** [value_array_append] seen through the contents of its result; [Storage]
    models the shared backing store and proves it has these contents. *)
Definition array_append (items : list Value) (item : Value) : M Value :=
  if SIZE_MAX / 8 <=? Z.of_nat (length items) then nomem
  else
    _ ← alloc; _ ← alloc; _ ← alloc;
    mret (Array (items ++ [item])).

(** [copy_text] keeps the bytes before the first NUL. *)
Definition copy_text (text : list Z) : M (list Z) := _ ← alloc; mret (cstr text).

Fixpoint copy_texts (names : list (list Z)) : M (list (list Z)) :=
  match names with
  | [] => mret []
  | n :: rest => n ← copy_text n; rest ← copy_texts rest; mret (n :: rest)
  end.

Definition named_value (k : ValueKind) (name : list Z) (names : list (list Z))
  (values : list Value) : M Value :=
  _ ← alloc;
  name ← copy_text name;
  match k with
  | V_RECORD =>
      _ ← calloc_items (length values);
      _ ← calloc_items (length values);
      names ← copy_texts names;
      mret (Record_ name names values)
  | V_VARIANT =>
      _ ← calloc_items (length values);
      mret (Variant name values)
  | _ => undef
  end.

Definition value_index (v : Value) : option Z :=
  match v with Nat_ n => pn_big_fits_size n | _ => None end.
