(* ===== verification/Decimals.v ===== *)
(** * Exact decimals: the first half of src/src/vm/numeric.c

    Greatest common divisors, scale alignment, decimal arithmetic and the
    allocation-free decimal comparison. *)

From Stdlib Require Import ZArith QArith Qpower Lia.
From stdpp Require Import prelude gmap strings.
From S2P Require Import Prelude Bigint Value.

(** ** Operations *)

Definition big_abs_copy (v : PnBigInt) : M PnBigInt :=
  out ← pn_big_copy v;
  mret (if decide (len out = 0%nat) then out else set_sign out 1).

(** [while (!pn_big_is_zero(&b)) { ... }] *)
Fixpoint big_gcd_loop (fuel : nat) (a b : PnBigInt) : M PnBigInt :=
  if pn_big_is_zero b then mret a
  else match fuel with
       | O => diverge
       | S f =>
           '(_, r) ← pn_big_divmod a b;
           big_gcd_loop f b (if decide (len r = 0%nat) then r else set_sign r 1)
       end.

(** Euclid's algorithm halves a remainder every second step, so the number of
    bits of the operands bounds the iterations. *)
Definition gcd_fuel (a b : PnBigInt) : nat :=
  (2 + Z.to_nat (Z.log2 (eval (limbs a)) + Z.log2 (eval (limbs b))))%nat.

Definition big_gcd (lhs rhs : PnBigInt) : M PnBigInt :=
  a ← big_abs_copy lhs;
  b ← big_abs_copy rhs;
  big_gcd_loop (gcd_fuel a b) a b.

Definition decimal_align (a b : Decimal) : M (PnBigInt * PnBigInt * Z) :=
  let e := if exponent a <? exponent b then exponent a else exponent b in
  lhs ← pn_big_copy (coefficient a);
  rhs ← pn_big_copy (coefficient b);
  da ← c_int (exponent a - e);
  lhs ← pn_big_pow10 lhs (Z.to_nat da);
  db ← c_int (exponent b - e);
  rhs ← pn_big_pow10 rhs (Z.to_nat db);
  mret (lhs, rhs, e).

Definition value_decimal (c : PnBigInt) (e : Z) : M Value :=
  _ ← alloc;
  mret (Dec {| coefficient := c; exponent := e; negative_zero := false |}).

Definition decimal_result (c : PnBigInt) (e : Z) : M Value := value_decimal c e.

Definition division_by_zero : string := "VM trap: division by zero".
Definition non_terminating : string :=
  "VM trap: non-terminating decimal division requires explicit rounding".

(** The loop that divides the reduced denominator by two and by five. *)
Fixpoint factor_loop (fuel : nat) (den : PnBigInt) (twos fives : nat) : M (nat * nat) :=
  if pn_big_is_one den then mret (twos, fives)
  else match fuel with
       | O => diverge
       | S f =>
           probe ← pn_big_copy den;
           '(probe, rem) ← pn_big_div_small probe 2;
           if rem =? 0 then factor_loop f probe (S twos) fives
           else
             probe ← pn_big_copy den;
             '(probe, rem) ← pn_big_div_small probe 5;
             if rem =? 0 then factor_loop f probe twos (S fives)
             else trap VM_FAULT_REQUEST non_terminating
       end.

(** [for (i = from; i < places; i++) pn_big_mul_small(&num, factor)] *)
Fixpoint mul_times (n : nat) (num : PnBigInt) (factor : Z) : M PnBigInt :=
  match n with
  | O => mret num
  | S m => num ← pn_big_mul_small num factor; mul_times m num factor
  end.

(** [while (exponent < 0 && num.limbs[0] % 10 == 0)] *)
Fixpoint strip_loop (fuel : nat) (num : PnBigInt) (e : Z) : M (PnBigInt * Z) :=
  if negb (e <? 0) then mret (num, e)
  else
    limb ← rd (limbs num) 0;
    if negb (limb mod 10 =? 0) then mret (num, e)
    else match fuel with
         | O => diverge
         | S f => '(num, _) ← pn_big_div_small num 10; strip_loop f num (e + 1)
         end.

Definition decimal_divide (a b : Decimal) : M Value :=
  if pn_big_is_zero (coefficient b) then trap VM_FAULT_REQUEST division_by_zero
  else
    gcd ← big_gcd (coefficient a) (coefficient b);
    '(num, _) ← pn_big_divmod (coefficient a) gcd;
    '(den, _) ← pn_big_divmod (coefficient b) gcd;
    let flip := sign den <? 0 in
    let den := if flip then set_sign den (- sign den) else den in
    let num := if flip then set_sign num (- sign num) else num in
    '(twos, fives) ← factor_loop (Z.to_nat (Z.log2 (eval (limbs den)))) den 0 0;
    let places := Nat.max twos fives in
    num ← mul_times (places - twos) num 2;
    num ← mul_times (places - fives) num 5;
    e ← c_int (exponent a - exponent b);
    e ← c_int (e - Z.of_nat places);
    if pn_big_is_zero num then decimal_result num 0
    else
      '(num, e) ← strip_loop (Z.to_nat (- e)) num e;
      decimal_result num e.

(** [decimal_binary_classified]; operations 0 to 4 are + - * / %. *)
Definition decimal_binary_classified (op : Z) (a b : Decimal) : M Value :=
  if (op =? 0) || (op =? 1) || (op =? 4) then
    '(lhs, rhs, e) ← decimal_align a b;
    if op =? 0 then r ← pn_big_add lhs rhs; decimal_result r e
    else if op =? 1 then r ← pn_big_sub lhs rhs; decimal_result r e
    else if pn_big_is_zero rhs then trap VM_FAULT_REQUEST division_by_zero
    else '(_, r) ← pn_big_divmod lhs rhs; decimal_result r e
  else if op =? 2 then
    r ← pn_big_mul (coefficient a) (coefficient b);
    e ← c_int (exponent a + exponent b);
    decimal_result r e
  else if op =? 3 then decimal_divide a b
  else nomem.

(** [for (top = limbs[len - 1]; top >= 10; top /= 10) digits++] is
    [Bigint.count_digits]. *)
Definition coefficient_digits (n : PnBigInt) : Z :=
  if decide (len n = 0%nat) then 1
  else u64 ((Z.of_nat (len n) - 1) * 9 +
            Z.of_nat (count_digits 10 (default 0 (limbs n !! (len n - 1)%nat)))).

Definition powers : list Z :=
  [1; 10; 100; 1000; 10000; 100000; 1000000; 10000000; 100000000].

Definition coefficient_digit (n : PnBigInt) (digits position : Z) : Z :=
  if digits <=? position then 0
  else
    let offset := digits - position - 1 in
    default 0 (limbs n !! Z.to_nat (offset / 9)) /
      default 1 (powers !! Z.to_nat (offset mod 9)) mod 10.

(** [for (i = count - n; i < count; i++)] *)
Fixpoint digits_compare (n : nat) (count : Z) (lhs rhs : PnBigInt) (ld rd : Z) (s : Z) : Z :=
  match n with
  | O => 0
  | S m =>
      let i := count - Z.of_nat n in
      let l := coefficient_digit lhs ld i in
      let r := coefficient_digit rhs rd i in
      if negb (l =? r) then (if l <? r then -1 else 1) * s
      else digits_compare m count lhs rhs ld rd s
  end.

Definition decimal_compare (a b : Decimal) : Z :=
  let lhs := coefficient a in
  let rhs := coefficient b in
  if negb (sign lhs =? sign rhs) then (if sign lhs <? sign rhs then -1 else 1)
  else if sign lhs =? 0 then 0
  else
    let left_digits := coefficient_digits lhs in
    let right_digits := coefficient_digits rhs in
    let left_magnitude := left_digits + exponent a in
    let right_magnitude := right_digits + exponent b in
    if negb (left_magnitude =? right_magnitude) then
      (if left_magnitude <? right_magnitude then -1 else 1) * sign lhs
    else
      let count := Z.max left_digits right_digits in
      digits_compare (Z.to_nat count) count lhs rhs left_digits right_digits (sign lhs).

(** ** Greatest common divisor *)

Lemma abs_wf v :
  wf v → wf (if decide (len v = 0%nat) then v else set_sign v 1) ∧
         to_Z (if decide (len v = 0%nat) then v else set_sign v 1) = Z.abs (to_Z v).
Proof.
  intros Hv. case_decide as Hl.
  - split; [done|]. apply nil_length_inv in Hl. unfold to_Z. rewrite Hl. simpl. lia.
  - rewrite <- wf_eval_abs by done.
    destruct (set_sign_wf v 1) as [H1 H2]; [by apply wf_canonical| |by left|split; [done|lia]].
    intros H0. apply Hl. unfold len. apply canonical_eval_0 in H0; [by rewrite H0|by apply wf_canonical].
Qed.

Lemma abs_copy_spec v E :
  wf v → sized limit v →
  runs (big_abs_copy v) (λ r, wf r ∧ to_Z r = Z.abs (to_Z v) ∧ len r = len v) E.
Proof.
  intros Hv Hs. unfold big_abs_copy.
  mbind (runs_copy v (λ p, p = v)) as ? ->; [by eapply sized_1|done|].
  mret. destruct (abs_wf v Hv). split; [done|]. split; [done|]. by case_decide.
Qed.

Lemma log2_mod_lt a b : 0 < b ≤ a → 0 < a mod b → Z.log2 (a mod b) < Z.log2 a.
Proof.
  intros Hb Hm. apply Z.log2_lt_pow2; [done|].
  pose proof (Z.log2_spec a ltac:(lia)) as [H1 H2].
  pose proof (Z.mod_pos_bound a b ltac:(lia)). pose proof (Z.div_mod a b ltac:(lia)).
  rewrite Z.pow_succ_r in H2 by (apply Z.log2_nonneg).
  assert (1 ≤ a / b) by (apply Z.div_le_lower_bound; lia). nia.
Qed.

Lemma gcd_loop_spec fuel a b E :
  wf a → wf b → sized (limit - 1) a → sized (limit - 1) b →
  0 ≤ to_Z a → 0 ≤ to_Z b →
  (to_Z b ≠ 0 →
   Z.of_nat fuel > Z.log2 (to_Z a) + Z.log2 (to_Z b) + (if to_Z a <? to_Z b then 1 else 0)) →
  runs (big_gcd_loop fuel a b) (λ r, wf r ∧ to_Z r = Z.gcd (to_Z a) (to_Z b) ∧
                                     sized (limit - 1) r) E.
Proof.
  revert a b. induction fuel as [|f IH]; intros a b Ha Hb Sa Sb Pa Pb Hf;
    cbn [big_gcd_loop]; rewrite is_zero_spec by done;
    (destruct (Z.eqb_spec (to_Z b) 0) as [->|Hne];
     [mret; rewrite Z.gcd_0_r, Z.abs_eq by done; done|]).
  - specialize (Hf Hne). pose proof (Z.log2_nonneg (to_Z a)). pose proof (Z.log2_nonneg (to_Z b)).
    destruct (_ <? _); lia.
  - mbind divmod_spec as [q r] (_ & Hr & _ & Hrz);
      [done|done|eapply sized_mono; [done|lia]|done|done|].
    rewrite Z.rem_mod_nonneg in Hrz by lia.
    destruct (abs_wf r Hr) as [Hr' Hrz'].
    set (r' := if decide (len r = 0%nat) then r else set_sign r 1) in *.
    pose proof (Z.mod_pos_bound (to_Z a) (to_Z b) ltac:(lia)) as Hm.
    assert (to_Z r' = to_Z a mod to_Z b) as Hz by lia.
    eapply runs_mono; [apply IH| |done]; try done.
    + apply sized_le; [done|unfold limit; clia|].
      apply sized_le in Sb; [|done|unfold limit; clia]. rewrite Hz. lia.
    + lia.
    + rewrite Hz. intros Hnz. specialize (Hf Hne).
      destruct (Z.ltb_spec (to_Z b) (to_Z a mod to_Z b)); [lia|].
      destruct (Z.ltb_spec (to_Z a) (to_Z b)) as [Hlt|Hge].
      * rewrite Z.mod_small by lia. lia.
      * pose proof (log2_mod_lt (to_Z a) (to_Z b)). lia.
    + intros x (? & Hx & ?). split; [done|]. split; [|done].
      rewrite Hx, Hz, Z.gcd_comm, Z.gcd_mod, Z.gcd_comm; done.
Qed.

(** [big_gcd] computes the greatest common divisor within its iteration bound. *)
Lemma gcd_spec a b E :
  wf a → wf b → sized (limit - 1) a → sized (limit - 1) b →
  runs (big_gcd a b) (λ r, wf r ∧ to_Z r = Z.gcd (to_Z a) (to_Z b) ∧ sized (limit - 1) r) E.
Proof.
  intros Ha Hb Sa Sb. unfold big_gcd.
  mbind abs_copy_spec as a' (Ha' & Haz & Hal); [done|eapply sized_mono; [done|lia]|].
  mbind abs_copy_spec as b' (Hb' & Hbz & Hbl); [done|eapply sized_mono; [done|lia]|].
  eapply runs_mono; [apply gcd_loop_spec| |done]; try done.
  - unfold sized in *. by rewrite Hal.
  - unfold sized in *. by rewrite Hbl.
  - lia.
  - lia.
  - intros _. unfold gcd_fuel. rewrite !wf_eval_abs, Haz, Hbz, !Z.abs_idemp by done.
    pose proof (Z.log2_nonneg (Z.abs (to_Z a))). pose proof (Z.log2_nonneg (Z.abs (to_Z b))).
    destruct (_ <? _); lia.
  - intros r (? & Hr & ?). by rewrite Hr, Haz, Hbz, Z.gcd_abs_l, Z.gcd_abs_r.
Qed.

(** Dividing by a common divisor is exact. *)
Lemma divmod_gcd_spec a b g E :
  wf a → wf g → sized limit a → sized (limit - 1) g →
  to_Z g = Z.gcd (to_Z a) b ∨ to_Z g = Z.gcd b (to_Z a) → to_Z g ≠ 0 →
  runs (pn_big_divmod a g)
    (λ '(q, _), wf q ∧ to_Z q * to_Z g = to_Z a ∧ Z.abs (to_Z q) ≤ Z.abs (to_Z a)) E.
Proof.
  intros Ha Hg Sa Sg Hgz Hg0.
  assert (0 < to_Z g) as Hpos.
  { pose proof (Z.gcd_nonneg (to_Z a) b). pose proof (Z.gcd_nonneg b (to_Z a)). lia. }
  assert ((to_Z g | to_Z a)) as [k Hk].
  { destruct Hgz as [->| ->]; [apply Z.gcd_divide_l|apply Z.gcd_divide_r]. }
  eapply runs_mono; [by apply divmod_spec| |done]. intros [q r] (Hq & _ & Hqz & _).
  rewrite Hk, Z.quot_mul in Hqz by done. split; [done|]. rewrite Hqz, Hk. nia.
Qed.

(** ** Digits and comparison *)

(** The coefficient of [d] on the scale 10^[e]. *)
Definition dec_at (e : Z) (d : Decimal) : Z := to_Z (coefficient d) * 10 ^ (exponent d - e).

Lemma pow10_pos n : 0 < 10 ^ n ∨ n < 0.
Proof. destruct (decide (n < 0)); [by right|left; apply Z.pow_pos_nonneg; lia]. Qed.

Lemma pw_pow10 n : pw n = 10 ^ (9 * Z.of_nat n).
Proof. unfold pw. change BASE with (10 ^ 9). by rewrite <- Z.pow_mul_r by lia. Qed.

Lemma coefficient_digits_spec n :
  wf n → sized (2 ^ 58) n → to_Z n ≠ 0 →
  1 ≤ coefficient_digits n ∧
  10 ^ (coefficient_digits n - 1) ≤ eval (limbs n) < 10 ^ coefficient_digits n.
Proof.
  intros Hn Hs Hz. unfold coefficient_digits. case_decide as Hl.
  { apply nil_length_inv in Hl. unfold to_Z in Hz. rewrite Hl in Hz. simpl in Hz. lia. }
  assert (limbs n ≠ []) as Hne by (intros H; apply Hl; unfold len; by rewrite H).
  destruct (exists_last Hne) as (l & x & Hlx).
  assert (len n = length l + 1)%nat as Hlen by (unfold len; by rewrite Hlx, length_app).
  assert (limbs n !! (len n - 1)%nat = Some x) as Hx.
  { rewrite Hlen, Hlx. replace (length l + 1 - 1)%nat with (length l) by lia.
    by apply list_lookup_middle. }
  pose proof (wf_limbs_ok _ Hn) as Hok. rewrite Hx. change (default 0 (Some x)) with x.
  assert (0 ≤ x < BASE) as Hxo by (by apply (limbs_ok_lookup _ _ _ Hok Hx)).
  assert (x ≠ 0) as Hx0.
  { destruct (wf_canonical _ Hn) as [_ Hlast]. rewrite Hlx, last_snoc in Hlast. congruence. }
  destruct (count_digits_spec 10 x) as (Hc1 & Hc2 & Hc3 & _);
    [unfold BASE in *; change (10 ^ (Z.of_nat 10 + 1)) with 100000000000; lia|].
  pose proof (count_digits_limb x Hxo) as Hcd. specialize (Hc3 Hx0).
  set (c := count_digits 10 x) in *.
  rewrite u64_small by (unfold sized in Hs; clia).
  rewrite Hlx in Hok. apply Forall_app in Hok as [Hok _].
  pose proof (eval_bound l Hok) as Hb. rewrite pw_pow10 in Hb.
  rewrite Hlx, eval_app, pw_pow10. cbn [eval]. rewrite Z.mul_0_r, Z.add_0_r.
  replace (Z.of_nat (len n) - 1) with (Z.of_nat (length l)) by lia.
  replace (Z.of_nat (length l) * 9 + Z.of_nat c - 1)
    with (9 * Z.of_nat (length l) + (Z.of_nat c - 1)) by lia.
  replace (Z.of_nat (length l) * 9 + Z.of_nat c)
    with (9 * Z.of_nat (length l) + Z.of_nat c) by lia.
  split; [lia|]. rewrite !Z.pow_add_r by lia. nia.
Qed.

(** A digit of a limb is a digit of the number. *)
Lemma limb_digit l k x j :
  limbs_ok l → l !! k = Some x → 0 ≤ j < 9 →
  x / 10 ^ j mod 10 = eval l / 10 ^ (9 * Z.of_nat k + j) mod 10.
Proof.
  intros Hok Hx Hj.
  assert (eval l = eval (take k l) + pw k * (x + BASE * eval (drop (S k) l))) as He.
  { rewrite <- (take_drop_middle _ _ _ Hx) at 1. rewrite eval_app, length_take.
    rewrite Nat.min_l by (apply lookup_lt_Some in Hx; lia). done. }
  pose proof (eval_bound (take k l) ltac:(by apply Forall_take)) as Hb.
  rewrite length_take, Nat.min_l in Hb by (apply lookup_lt_Some in Hx; lia).
  rewrite Z.pow_add_r, <- pw_pow10, <- Z.div_div by (try lia; try apply pw_pos).
  pose proof (pw_pos k). rewrite He, (Z.mul_comm (pw k)), Z.div_add by lia.
  rewrite (Z.div_small (eval (take k l))) by done. rewrite Z.add_0_l.
  replace (x + BASE * eval (drop (S k) l)) with (x + (eval (drop (S k) l) * 10 ^ (8 - j) * 10) * 10 ^ j).
  - rewrite Z.div_add by (pose proof (pow10_pos j); lia). by rewrite Z.mod_add.
  - assert (BASE = 10 ^ (8 - j) * 10 * 10 ^ j) as ->; [|lia].
    transitivity (10 ^ ((8 - j) + 1 + j)); [by replace (8 - j + 1 + j) with 9 by lia|].
    by rewrite !Z.pow_add_r, Z.pow_1_r by lia.
Qed.

Lemma coefficient_digit_spec n digits i :
  wf n → sized (2 ^ 58) n → to_Z n ≠ 0 → digits = coefficient_digits n → 0 ≤ i →
  ∀ count, digits ≤ count → i < count →
  coefficient_digit n digits i =
    (eval (limbs n) * 10 ^ (count - digits)) / 10 ^ (count - 1 - i) mod 10.
Proof.
  intros Hn Hs Hz -> Hi count Hc Hic.
  destruct (coefficient_digits_spec n Hn Hs Hz) as (H1 & Hlo & Hhi).
  set (dg := coefficient_digits n) in *. unfold coefficient_digit.
  destruct (Z.leb_spec dg i).
  - replace (count - dg) with ((count - 1 - i) + (i - dg) + 1) by lia.
    rewrite !Z.pow_add_r, Z.pow_1_r by lia.
    replace (eval (limbs n) * (10 ^ (count - 1 - i) * 10 ^ (i - dg) * 10))
      with ((eval (limbs n) * 10 ^ (i - dg) * 10) * 10 ^ (count - 1 - i)) by lia.
    rewrite Z.div_mul by (pose proof (pow10_pos (count - 1 - i)); lia).
    by rewrite Z.mod_mul.
  - set (off := dg - i - 1).
    replace (count - 1 - i) with ((count - dg) + off) by lia.
    rewrite Z.pow_add_r, <- Z.div_div by (unfold off; pose proof (pow10_pos (count - dg)); pose proof (pow10_pos off); unfold off in *; lia).
    rewrite Z.div_mul by (pose proof (pow10_pos (count - dg)); lia).
    pose proof (Z.div_mod off 9 ltac:(lia)) as Hd. pose proof (Z.mod_pos_bound off 9 ltac:(lia)) as Hm.
    assert (0 ≤ off / 9) by (apply Z.div_pos; unfold off; lia).
    assert (9 * (off / 9) < 9 * Z.of_nat (len n)) as Hlt.
    { pose proof (eval_bound _ (wf_limbs_ok _ Hn)) as Hb. rewrite pw_pow10 in Hb. unfold len.
      assert (10 ^ (dg - 1) < 10 ^ (9 * Z.of_nat (length (limbs n)))) as Hp by lia.
      apply Z.pow_lt_mono_r_iff in Hp; unfold off in *; lia. }
    destruct (lookup_lt_is_Some_2 (limbs n) (Z.to_nat (off / 9))) as [x Hx]; [unfold len in *; lia|].
    fold off. rewrite Hx. change (default 0 (Some x)) with x.
    assert (default 1 (powers !! Z.to_nat (off mod 9)) = 10 ^ (off mod 9)) as ->.
    { assert (off mod 9 = 0 ∨ off mod 9 = 1 ∨ off mod 9 = 2 ∨ off mod 9 = 3 ∨ off mod 9 = 4 ∨
              off mod 9 = 5 ∨ off mod 9 = 6 ∨ off mod 9 = 7 ∨ off mod 9 = 8) as Hcase by lia.
      destruct_or! Hcase; by rewrite Hcase. }
    rewrite (limb_digit _ _ _ _ (wf_limbs_ok _ Hn) Hx Hm).
    f_equal. f_equal. f_equal. rewrite Z2Nat.id by done. lia.
Qed.

(** Comparing numerals digit by digit is comparing the numbers. *)
Lemma digits_compare_spec n count a b ld rd s :
  wf a → wf b → sized (2 ^ 58) a → sized (2 ^ 58) b → to_Z a ≠ 0 → to_Z b ≠ 0 →
  ld = coefficient_digits a → rd = coefficient_digits b → ld ≤ count → rd ≤ count →
  Z.of_nat n ≤ count →
  let A := eval (limbs a) * 10 ^ (count - ld) in
  let B := eval (limbs b) * 10 ^ (count - rd) in
  A / 10 ^ Z.of_nat n = B / 10 ^ Z.of_nat n →
  digits_compare n count a b ld rd s = Z.sgn (A - B) * s.
Proof.
  intros Ha Hb Sa Sb Za Zb Hld Hrd Hlc Hrc Hn A B.
  induction n as [|n IH]; intros Heq.
  - simpl in *. rewrite !Z.div_1_r in Heq. rewrite Heq, Z.sub_diag. done.
  - cbn [digits_compare].
    assert (0 ≤ count - Z.of_nat (S n) < count) as Hi by lia.
    rewrite (coefficient_digit_spec a ld) with (count := count) by (done || lia).
    rewrite (coefficient_digit_spec b rd) with (count := count) by (done || lia).
    fold A B. replace (count - 1 - (count - Z.of_nat (S n))) with (Z.of_nat n) by lia.
    pose proof (pow10_pos (Z.of_nat n)) as Hp. rewrite Nat2Z.inj_succ, Z.pow_succ_r in Heq by lia.
    rewrite Z.mul_comm, <- !Z.div_div in Heq by lia.
    pose proof (Z.div_mod (A / 10 ^ Z.of_nat n) 10 ltac:(lia)) as HA.
    pose proof (Z.div_mod (B / 10 ^ Z.of_nat n) 10 ltac:(lia)) as HB.
    pose proof (Z.div_mod A (10 ^ Z.of_nat n) ltac:(lia)).
    pose proof (Z.mod_pos_bound A (10 ^ Z.of_nat n) ltac:(lia)).
    pose proof (Z.div_mod B (10 ^ Z.of_nat n) ltac:(lia)).
    pose proof (Z.mod_pos_bound B (10 ^ Z.of_nat n) ltac:(lia)).
    destruct (Z.eqb_spec ((A / 10 ^ Z.of_nat n) mod 10) ((B / 10 ^ Z.of_nat n) mod 10)) as [He|He];
      cbn [negb]; [apply IH; lia|].
    f_equal. symmetry.
    destruct (Z.ltb_spec ((A / 10 ^ Z.of_nat n) mod 10) ((B / 10 ^ Z.of_nat n) mod 10));
      [apply Z.sgn_neg|apply Z.sgn_pos]; nia.
Qed.

Lemma compare_core a b :
  wf (coefficient a) → wf (coefficient b) →
  sized (2 ^ 58) (coefficient a) → sized (2 ^ 58) (coefficient b) →
  to_Z (coefficient a) ≠ 0 → to_Z (coefficient b) ≠ 0 →
  sign (coefficient a) = sign (coefficient b) →
  ∀ e, e ≤ exponent a → e ≤ exponent b →
  decimal_compare a b =
    Z.sgn (Z.abs (dec_at e a) - Z.abs (dec_at e b)) * sign (coefficient a).
Proof.
  intros Wa Wb Sa Sb Za Zb Hs e Ea Eb. unfold decimal_compare.
  rewrite Hs, Z.eqb_refl. simpl.
  destruct (Z.eqb_spec (sign (coefficient b)) 0) as [H0|_]; [by rewrite (wf_sign_0 _ Wb H0) in Zb|].
  destruct (coefficient_digits_spec _ Wa Sa Za) as (A1 & Alo & Ahi).
  destruct (coefficient_digits_spec _ Wb Sb Zb) as (B1 & Blo & Bhi).
  unfold dec_at. rewrite !Z.abs_mul, <- !wf_eval_abs by done.
  rewrite !(Z.abs_eq (10 ^ _)) by (apply Z.pow_nonneg; lia).
  set (la := coefficient_digits (coefficient a)) in *.
  set (lb := coefficient_digits (coefficient b)) in *.
  set (A := eval (limbs (coefficient a))) in *. set (B := eval (limbs (coefficient b))) in *.
  pose proof (pow10_pos (exponent a - e)) as PA. pose proof (pow10_pos (exponent b - e)) as PB.
  destruct (Z.eqb_spec (la + exponent a) (lb + exponent b)) as [Hm|Hm]; simpl.
  - rewrite (digits_compare_spec _ (Z.max la lb)); try done; try lia.
    + fold A B la lb. f_equal.
      set (c := Z.max la lb). set (k := la + exponent a - e - c).
      assert (0 ≤ k + c - la ∧ 0 ≤ c - la ∧ 0 ≤ c - lb) by (unfold k, c; lia).
      destruct (Z.le_gt_cases 0 k).
      * replace (exponent a - e) with (k + (c - la)) by (unfold k; lia).
        replace (exponent b - e) with (k + (c - lb)) by (unfold k; lia).
        rewrite !Z.pow_add_r by lia. pose proof (pow10_pos k).
        replace (A * (10 ^ k * 10 ^ (c - la)) - B * (10 ^ k * 10 ^ (c - lb)))
          with (10 ^ k * (A * 10 ^ (c - la) - B * 10 ^ (c - lb))) by lia.
        rewrite Z.sgn_mul. rewrite (Z.sgn_pos (10 ^ k)) by lia. lia.
      * replace (c - la) with (- k + (exponent a - e)) by (unfold k; lia).
        replace (c - lb) with (- k + (exponent b - e)) by (unfold k; lia).
        rewrite !Z.pow_add_r by lia. pose proof (pow10_pos (- k)).
        replace (A * (10 ^ (- k) * 10 ^ (exponent a - e)) - B * (10 ^ (- k) * 10 ^ (exponent b - e)))
          with (10 ^ (- k) * (A * 10 ^ (exponent a - e) - B * 10 ^ (exponent b - e))) by lia.
        rewrite Z.sgn_mul. rewrite (Z.sgn_pos (10 ^ (- k))) by lia. lia.
    + fold A B la lb. rewrite Z2Nat.id by lia.
      rewrite !Z.div_small; [done|..]; (split; [apply Z.mul_nonneg_nonneg; [lia|apply Z.pow_nonneg; lia]|]).
      * replace (Z.max la lb) with (lb + (Z.max la lb - lb)) at 2 by lia.
        rewrite Z.pow_add_r by lia. pose proof (pow10_pos (Z.max la lb - lb)). nia.
      * replace (Z.max la lb) with (la + (Z.max la lb - la)) at 2 by lia.
        rewrite Z.pow_add_r by lia. pose proof (pow10_pos (Z.max la lb - la)). nia.
  - f_equal. symmetry. destruct (Z.ltb_spec (la + exponent a) (lb + exponent b)).
    + apply Z.sgn_neg.
      assert (A * 10 ^ (exponent a - e) < 10 ^ (la + (exponent a - e))) by (rewrite Z.pow_add_r by lia; nia).
      assert (10 ^ (lb - 1 + (exponent b - e)) ≤ B * 10 ^ (exponent b - e)) by (rewrite Z.pow_add_r by lia; nia).
      assert (10 ^ (la + (exponent a - e)) ≤ 10 ^ (lb - 1 + (exponent b - e))) by (apply Z.pow_le_mono_r; lia).
      lia.
    + apply Z.sgn_pos.
      assert (B * 10 ^ (exponent b - e) < 10 ^ (lb + (exponent b - e))) by (rewrite Z.pow_add_r by lia; nia).
      assert (10 ^ (la - 1 + (exponent a - e)) ≤ A * 10 ^ (exponent a - e)) by (rewrite Z.pow_add_r by lia; nia).
      assert (10 ^ (lb + (exponent b - e)) ≤ 10 ^ (la - 1 + (exponent a - e))) by (apply Z.pow_le_mono_r; lia).
      lia.
Qed.

Lemma sgn_dec_at e d : e ≤ exponent d → Z.sgn (dec_at e d) = Z.sgn (to_Z (coefficient d)).
Proof.
  intros. unfold dec_at. rewrite Z.sgn_mul.
  rewrite (Z.sgn_pos (10 ^ _)) by (apply Z.pow_pos_nonneg; lia). lia.
Qed.

(** [decimal_compare] orders decimals by value, whatever their scales. *)
Lemma decimal_compare_spec a b e :
  wf (coefficient a) → wf (coefficient b) →
  sized (2 ^ 58) (coefficient a) → sized (2 ^ 58) (coefficient b) →
  e ≤ exponent a → e ≤ exponent b →
  decimal_compare a b = Z.sgn (dec_at e a - dec_at e b).
Proof.
  intros Wa Wb Sa Sb Ea Eb.
  pose proof (sgn_dec_at e a Ea) as Ga. pose proof (sgn_dec_at e b Eb) as Gb.
  rewrite <- wf_sign_sgn in Ga, Gb by done.
  destruct (Z.eqb_spec (sign (coefficient a)) (sign (coefficient b))) as [Hs|Hs].
  - destruct (decide (sign (coefficient a) = 0)) as [H0|H0].
    + unfold decimal_compare. rewrite <- Hs, H0. simpl. lia.
    + rewrite (compare_core a b) with (e := e); try done.
      * destruct (wf_sign _ Wa) as [?|[H1|H1]]; [done|..]; rewrite H1 in *; rewrite <- Hs in *; lia.
      * rewrite wf_sign_sgn in H0 by done. lia.
      * rewrite Hs, wf_sign_sgn in H0 by done. lia.
  - unfold decimal_compare. destruct (Z.eqb_spec (sign (coefficient a)) (sign (coefficient b))); [done|].
    simpl. destruct (Z.ltb_spec (sign (coefficient a)) (sign (coefficient b))); lia.
Qed.

(** ** Arithmetic *)

(** Decimals small enough for exponent arithmetic to stay within [int]. *)
Definition dec_small (d : Decimal) : Prop :=
  wf (coefficient d) ∧ sized (2 ^ 24) (coefficient d) ∧ - 2 ^ 28 ≤ exponent d ≤ 2 ^ 28.

(** The value returned is a decimal with this coefficient and scale. *)
Definition dec_result (z e : Z) (v : Value) : Prop :=
  ∃ c, v = Dec {| coefficient := c; exponent := e; negative_zero := false |} ∧ wf c ∧ to_Z c = z.

Lemma result_spec c e z E : wf c → to_Z c = z → runs (decimal_result c e) (dec_result z e) E.
Proof.
  intros Hc Hz. unfold decimal_result, value_decimal. mbind runs_alloc as ? _. mret. by exists c.
Qed.

Lemma align_spec a b E :
  dec_small a → dec_small b →
  runs (decimal_align a b)
    (λ '(l, r, e), e = Z.min (exponent a) (exponent b) ∧ wf l ∧ wf r ∧
       to_Z l = dec_at e a ∧ to_Z r = dec_at e b ∧ sized (2 ^ 30) l ∧ sized (2 ^ 30) r) E.
Proof.
  intros (Wa & Sa & Ea) (Wb & Sb & Eb). unfold decimal_align.
  replace (if exponent a <? exponent b then exponent a else exponent b)
    with (Z.min (exponent a) (exponent b)) by (destruct (Z.ltb_spec (exponent a) (exponent b)); lia).
  set (e := Z.min _ _).
  assert (0 ≤ exponent a - e ≤ 2 ^ 29 ∧ 0 ≤ exponent b - e ≤ 2 ^ 29) as [Ra Rb]
    by (unfold e; zpow; lia).
  mbind (runs_copy _ (λ p, p = coefficient a)) as ? ->; [eapply sized_mono; [done|clia]|done|].
  mbind (runs_copy _ (λ p, p = coefficient b)) as ? ->; [eapply sized_mono; [done|clia]|done|].
  mbind (runs_c_int _ (λ d, d = exponent a - e)) as ? ->; [clia|done|].
  mbind pow10_spec as l (Wl & Hl & Sl); [done|done|unfold limit; clia|].
  mbind (runs_c_int _ (λ d, d = exponent b - e)) as ? ->; [clia|done|].
  mbind pow10_spec as r (Wr & Hr & Sr); [done|done|unfold limit; clia|].
  mret. rewrite Z2Nat.id in Hl, Hr, Sl, Sr by lia.
  split_and!; try done; (eapply sized_mono; [done|clia]).
Qed.

Lemma add_decimal_spec a b E :
  dec_small a → dec_small b →
  let e := Z.min (exponent a) (exponent b) in
  runs (decimal_binary_classified 0 a b) (dec_result (dec_at e a + dec_at e b) e) E.
Proof.
  intros Ha Hb e. unfold decimal_binary_classified. simpl.
  mbind align_spec as [[l r] e'] (-> & Wl & Wr & Hl & Hr & Sl & Sr); [done..|].
  mbind add_spec as c [Wc Hc]; try done; try (eapply sized_mono; [done|unfold limit; clia]).
  apply result_spec; [done|]. by rewrite Hc, Hl, Hr.
Qed.

Lemma sub_decimal_spec a b E :
  dec_small a → dec_small b →
  let e := Z.min (exponent a) (exponent b) in
  runs (decimal_binary_classified 1 a b) (dec_result (dec_at e a - dec_at e b) e) E.
Proof.
  intros Ha Hb e. unfold decimal_binary_classified. simpl.
  mbind align_spec as [[l r] e'] (-> & Wl & Wr & Hl & Hr & Sl & Sr); [done..|].
  mbind sub_spec as c [Wc Hc]; try done; try (eapply sized_mono; [done|unfold limit; clia]).
  apply result_spec; [done|]. by rewrite Hc, Hl, Hr.
Qed.

Lemma mul_decimal_spec a b E :
  dec_small a → dec_small b →
  runs (decimal_binary_classified 2 a b)
    (dec_result (to_Z (coefficient a) * to_Z (coefficient b)) (exponent a + exponent b)) E.
Proof.
  intros (Wa & Sa & Ea) (Wb & Sb & Eb). unfold decimal_binary_classified. simpl.
  mbind mul_spec as c [Wc Hc]; try done; try (eapply sized_mono; [done|unfold limit; clia]).
  mbind (runs_c_int _ (λ d, d = exponent a + exponent b)) as ? ->; [clia|done|].
  by apply result_spec.
Qed.

(** Remainder on the common scale, truncated; only a zero divisor traps. *)
Lemma rem_decimal_spec a b :
  dec_small a → dec_small b →
  let e := Z.min (exponent a) (exponent b) in
  runs (decimal_binary_classified 4 a b)
    (λ v, to_Z (coefficient b) ≠ 0 ∧ dec_result (Z.rem (dec_at e a) (dec_at e b)) e v)
    (λ f s, f = VM_FAULT_REQUEST ∧ s = division_by_zero ∧ to_Z (coefficient b) = 0).
Proof.
  intros Ha Hb e. unfold decimal_binary_classified. simpl.
  mbind align_spec as [[l r] e'] (-> & Wl & Wr & Hl & Hr & Sl & Sr); [done..|].
  rewrite is_zero_spec by done. fold e in Hl, Hr |- *.
  pose proof (pow10_pos (exponent b - e)) as Hp.
  destruct (Z.eqb_spec (to_Z r) 0) as [H0|H0].
  - apply runs_trap. split; [done|]. split; [done|]. rewrite Hr in H0. unfold dec_at in H0.
    destruct Hp; [nia|unfold e in *; lia].
  - mbind divmod_spec as [q c] (_ & Wc & _ & Hc); try done;
      try (eapply sized_mono; [done|unfold limit; clia]).
    eapply (runs_mono _ _ no_trap); [apply result_spec; [done|]| |by intros ?? []].
    + by rewrite Hc, Hl, Hr.
    + intros v Hv. split; [|done]. intros Hz. apply H0. rewrite Hr. unfold dec_at. by rewrite Hz.
Qed.

(** ** Division *)

(** A divisor that shows the quotient has no finite decimal expansion. *)
Definition bad_factor (d : Z) : Prop :=
  ∃ p, 1 < p ∧ (p | d) ∧ p mod 2 ≠ 0 ∧ p mod 5 ≠ 0.

Lemma factor_loop_spec fuel den twos fives :
  wf den → sized limit den → 0 < to_Z den → Z.log2 (to_Z den) ≤ Z.of_nat fuel →
  runs (factor_loop fuel den twos fives)
    (λ '(t, f), (twos ≤ t)%nat ∧ (fives ≤ f)%nat ∧
       to_Z den = 2 ^ Z.of_nat (t - twos) * 5 ^ Z.of_nat (f - fives))
    (λ f s, f = VM_FAULT_REQUEST ∧ s = non_terminating ∧ bad_factor (to_Z den)).
Proof.
  revert den twos fives.
  induction fuel as [|f IH]; intros den twos fives Wd Sd Pd Hf; cbn [factor_loop];
    rewrite is_one_spec by done; (destruct (Z.eqb_spec (to_Z den) 1) as [H1|H1];
      [mret; rewrite H1, !Nat.sub_diag; split; [lia|]; split; [lia|done]|]).
  - pose proof (Z.log2_pos (to_Z den) ltac:(lia)). lia.
  - assert (sign den = 1) as Hs by (rewrite wf_sign_sgn by done; lia).
    mbind (runs_copy _ (λ p, p = den)) as ? ->; [by eapply sized_1|done|].
    mbind div_small_spec as [p r] (Wp & Hp & Hr & Lp); [done|clia|].
    rewrite Hs, Z.mul_1_l, Z.abs_eq in Hp by lia. rewrite Z.abs_eq in Hr by lia. subst r.
    destruct (Z.eqb_spec (to_Z den mod 2) 0) as [H2|H2].
    { pose proof (Z.div_mod (to_Z den) 2 ltac:(lia)) as Hd. rewrite H2, Z.add_0_r in Hd.
      eapply runs_mono; [apply IH| |].
      - done.
      - unfold sized in *. lia.
      - lia.
      - assert (0 < to_Z p) by lia. rewrite Hd, <- Hp, Z.log2_double in Hf by lia. lia.
      - intros [t k] (Ht & Hk & He). split; [lia|]. split; [done|].
        rewrite Hd, <- Hp, He. replace (t - twos)%nat with (S (t - S twos)) by lia.
        rewrite Nat2Z.inj_succ, Z.pow_succ_r by lia. lia.
      - intros k s (-> & -> & q & Hq & Hdv & ?). split; [done|]. split; [done|].
        exists q. split; [done|]. split; [|done]. rewrite Hd, <- Hp. by apply Z.divide_mul_r. }
    mbind (runs_copy _ (λ p, p = den)) as ? ->; [by eapply sized_1|done|].
    mbind div_small_spec as [p5 r5] (Wp5 & Hp5 & Hr5 & Lp5); [done|clia|].
    rewrite Hs, Z.mul_1_l, Z.abs_eq in Hp5 by lia. rewrite Z.abs_eq in Hr5 by lia. subst r5.
    destruct (Z.eqb_spec (to_Z den mod 5) 0) as [H5|H5].
    { pose proof (Z.div_mod (to_Z den) 5 ltac:(lia)) as Hd. rewrite H5, Z.add_0_r in Hd.
      eapply runs_mono; [apply IH| |].
      - done.
      - unfold sized in *. lia.
      - lia.
      - assert (0 < to_Z p5) by lia.
        pose proof (Z.log2_le_mono (2 * to_Z p5) (to_Z den) ltac:(lia)) as Hlog.
        rewrite Z.log2_double in Hlog by lia. lia.
      - intros [t k] (Ht & Hk & He). split; [done|]. split; [lia|].
        rewrite Hd, <- Hp5, He. replace (k - fives)%nat with (S (k - S fives)) by lia.
        rewrite Nat2Z.inj_succ, Z.pow_succ_r by lia. lia.
      - intros k s (-> & -> & q & Hq & Hdv & ?). split; [done|]. split; [done|].
        exists q. split; [done|]. split; [|done]. rewrite Hd, <- Hp5. by apply Z.divide_mul_r. }
    apply runs_trap. split; [done|]. split; [done|].
    exists (to_Z den). split; [lia|]. split; [by exists 1; lia|done].
Qed.

Lemma mul_times_spec n num factor k E :
  wf num → sized k num → 0 ≤ factor ≤ BASE → k + Z.of_nat n < limit →
  runs (mul_times n num factor)
    (λ r, wf r ∧ to_Z r = to_Z num * factor ^ Z.of_nat n ∧ sized (k + Z.of_nat n) r) E.
Proof.
  revert num k. induction n as [|n IH]; intros num k Hw Hs Hf Hk; cbn [mul_times].
  - mret. rewrite Z.pow_0_r, Z.mul_1_r, Z.add_0_r. done.
  - mbind mul_small_spec as r (Hr & Hz & Hl); [done|eapply sized_mono; [done|lia]|done|].
    eapply runs_mono; [apply (IH r (k + 1)); [done|unfold sized in *; lia|done|lia]| |done].
    intros a (? & Ha & Hsa). split; [done|]. split; [|unfold sized in *; lia].
    rewrite Ha, Hz, Nat2Z.inj_succ, Z.pow_succ_r by lia. lia.
Qed.

Lemma limb0_mod10 n x l : wf n → limbs n = x :: l → x mod 10 = Z.abs (to_Z n) mod 10.
Proof.
  intros Hn Hl. rewrite <- wf_eval_abs by done. rewrite Hl. simpl.
  replace (x + BASE * eval l) with (x + (100000000 * eval l) * 10) by (unfold BASE; lia).
  by rewrite Z.mod_add.
Qed.

Lemma strip_loop_spec fuel num e E :
  wf num → to_Z num ≠ 0 → - e ≤ Z.of_nat fuel →
  runs (strip_loop fuel num e)
    (λ '(n, e'), wf n ∧ to_Z num = to_Z n * 10 ^ (e' - e) ∧ e ≤ e' ≤ Z.max e 0 ∧
       (e' < 0 → Z.abs (to_Z n) mod 10 ≠ 0)) E.
Proof.
  revert num e. induction fuel as [|f IH]; intros num e Hw Hne Hf; cbn [strip_loop];
    (destruct (Z.ltb_spec e 0); cbn [negb];
     [|mret; rewrite Z.sub_diag, Z.pow_0_r, Z.mul_1_r; split; [done|]; split; [done|]; lia]).
  - simpl in Hf. lia.
  - destruct (limbs num) as [|x l] eqn:Hl.
    { unfold to_Z in Hne. rewrite Hl in Hne. simpl in Hne. lia. }
    mbind (runs_rd _ _ _ (λ z, z = x)) as ? ->; [done..|].
    rewrite (limb0_mod10 num x l) by done.
    destruct (Z.eqb_spec (Z.abs (to_Z num) mod 10) 0) as [H0|H0]; cbn [negb].
    2:{ mret. rewrite Z.sub_diag, Z.pow_0_r, Z.mul_1_r. split; [done|]. split; [done|]. split; [lia|done]. }
    mbind div_small_spec as [q r] (Wq & Hq & _ & _); [done|clia|].
    pose proof (Z.div_mod (Z.abs (to_Z num)) 10 ltac:(lia)) as Hd.
    assert (to_Z num = to_Z q * 10) as Hqz.
    { rewrite Hq. pose proof (wf_sign_sgn num Hw) as Hs. rewrite Hs. lia. }
    eapply runs_mono; [apply IH| |done]; [done|lia|lia|].
    intros [n e'] (Wn & Hn & Hr & Hnz). split; [done|]. split; [|split; [lia|done]].
    rewrite Hqz, Hn. replace (e' - e) with (e' - (e + 1) + 1) by lia.
    rewrite Z.pow_add_r, Z.pow_1_r by lia. lia.
Qed.

Lemma pow2_bound k d n : 0 ≤ k → wf d → sized k d → 0 ≤ n → 2 ^ n ≤ to_Z d → n < 30 * k.
Proof.
  intros Hk Wd Sd Hn Hle. apply sized_le in Sd; [|done..].
  assert (BASE ^ k ≤ 2 ^ (30 * k)) as Hb.
  { rewrite Z.pow_mul_r by lia. apply Z.pow_le_mono_l. unfold BASE. change (2 ^ 30) with 1073741824. lia. }
  assert (2 ^ n < 2 ^ (30 * k)) as Hlt by lia.
  apply Z.pow_lt_mono_r_iff in Hlt; lia.
Qed.

Lemma sized_abs_le k a b :
  0 ≤ k → wf a → wf b → sized k a → Z.abs (to_Z b) ≤ Z.abs (to_Z a) → sized k b.
Proof. intros Hk Wa Wb Sa Hle. apply sized_le in Sa; [|done..]. apply sized_le; [done..|lia]. Qed.

Lemma coprime_10 p : p mod 2 ≠ 0 → p mod 5 ≠ 0 → Z.gcd p 10 = 1.
Proof.
  intros H2 H5. pose proof (Z.gcd_nonneg p 10).
  destruct (Z.gcd_divide_l p 10) as [x Hx], (Z.gcd_divide_r p 10) as [y Hy].
  set (g := Z.gcd p 10) in *. clearbody g.
  assert (g = 1 ∨ g = 2 ∨ g = 5 ∨ g = 10) as [->|[->|[->| ->]]].
  { assert (g ≠ 0) by (intros ->; lia). assert (0 < y) by nia. assert (g ≤ 10) by nia.
    assert (g = 1 ∨ g = 2 ∨ g = 3 ∨ g = 4 ∨ g = 5 ∨ g = 6 ∨ g = 7 ∨ g = 8 ∨ g = 9 ∨ g = 10) by lia.
    intuition (subst; lia). }
  all: subst p; Z.to_euclidean_division_equations; lia.
Qed.

(** No multiple of a bad denominator is a power of ten. *)
Lemma bad_factor_no_power num den k n :
  0 ≤ k → Z.gcd num den = 1 → bad_factor den → num * 10 ^ k ≠ n * den.
Proof.
  intros Hk Hg (p & Hp & Hdv & H2 & H5) He.
  assert (p | 10 ^ k) as Hpk.
  { transitivity den; [done|]. apply Z.gauss with num; [exists n; lia|by rewrite Z.gcd_comm]. }
  clear He. revert k Hk Hpk.
  refine (natlike_ind _ _ _).
  - intros Hm. apply Z.divide_1_r_nonneg in Hm; lia.
  - intros k Hk IH Hpk. apply IH. rewrite Z.pow_succ_r in Hpk by done.
    apply Z.gauss with 10; [done|by apply coprime_10].
Qed.

(** What exact division promises about the decimal it returns. *)
Definition quotient_of (a b : Decimal) (v : Value) : Prop :=
  ∃ z e places s,
    dec_result z e v ∧ 0 ≤ places ∧ 0 ≤ s ∧
    z * 10 ^ s * to_Z (coefficient b) = to_Z (coefficient a) * 10 ^ places ∧
    (to_Z (coefficient a) = 0 → z = 0 ∧ e = 0) ∧
    (to_Z (coefficient a) ≠ 0 →
       e = exponent a - exponent b - places + s ∧ (e < 0 → Z.abs z mod 10 ≠ 0)).

Lemma divide_finish a b num e places E :
  wf num → to_Z num * to_Z (coefficient b) = to_Z (coefficient a) * 10 ^ places →
  0 ≤ places → to_Z (coefficient b) ≠ 0 →
  e = exponent a - exponent b - places →
  runs (if pn_big_is_zero num then decimal_result num 0
        else '(num, e) ← strip_loop (Z.to_nat (- e)) num e; decimal_result num e)
    (quotient_of a b) E.
Proof.
  intros Wn Heq Hp Hb He. rewrite is_zero_spec by done.
  pose proof (pow10_pos places) as Hpp.
  destruct (Z.eqb_spec (to_Z num) 0) as [H0|H0].
  - eapply (runs_mono _ _ no_trap); [by apply result_spec| |by intros ?? []].
    intros v Hv. exists 0, 0, places, 0. rewrite Z.pow_0_r, Z.mul_1_r. split_and!; try done; try lia.
  - mbind strip_loop_spec as [n e'] (Wn' & Hn & Hr & Hm); [done|done|lia|].
    eapply (runs_mono _ _ no_trap); [by apply result_spec| |by intros ?? []].
    intros v Hv. exists (to_Z n), e', places, (e' - e). rewrite <- Hn.
    split_and!; try done; lia.
Qed.

Lemma divide_spec a b :
  dec_small a → dec_small b →
  runs (decimal_divide a b)
    (λ v, to_Z (coefficient b) ≠ 0 ∧ quotient_of a b v)
    (λ f s, f = VM_FAULT_REQUEST ∧
       (s = division_by_zero ∧ to_Z (coefficient b) = 0 ∨
        s = non_terminating ∧ to_Z (coefficient b) ≠ 0 ∧
        ∀ n k, 0 ≤ k → to_Z (coefficient a) * 10 ^ k ≠ n * to_Z (coefficient b))).
Proof.
  intros (Wa & Sa & Ea) (Wb & Sb & Eb). unfold decimal_divide. rewrite is_zero_spec by done.
  destruct (Z.eqb_spec (to_Z (coefficient b)) 0) as [B0|B0]; [apply runs_trap; auto|].
  set (A := to_Z (coefficient a)) in *. set (B := to_Z (coefficient b)) in *.
  assert (∀ d, sized (2 ^ 24) d → sized limit d ∧ sized (limit - 1) d) as Hlim.
  { intros d Hd. split; (eapply sized_mono; [done|unfold limit; clia]). }
  mbind gcd_spec as g (Wg & Hg & Sg); try by apply Hlim. 1,2: done.
  fold A B in Hg. assert (to_Z g ≠ 0) as Hg0 by (rewrite Hg; intros ?%Z.gcd_eq_0; tauto).
  assert (0 < to_Z g) as Hgp by (pose proof (Z.gcd_nonneg A B); lia).
  mbind (divmod_gcd_spec (coefficient a) B) as [num rn] (Wn & Hn & Ln); try done;
    [by apply Hlim|by left|].
  mbind (divmod_gcd_spec (coefficient b) A) as [den rd] (Wd & Hd & Ld); try done;
    [by apply Hlim|by right|].
  fold A B in Hn, Hd, Ln, Ld.
  assert (Z.gcd (to_Z num) (to_Z den) = 1) as Hcop.
  { apply (Z.mul_cancel_l _ _ (to_Z g)); [done|]. rewrite Z.mul_1_r.
    rewrite <- (Z.abs_eq (to_Z g)) at 1 by lia. rewrite <- Z.gcd_mul_mono_l, !(Z.mul_comm (to_Z g)), Hn, Hd.
    by rewrite Hg. }
  rewrite (wf_sign_sgn den) by done.
  destruct (wf_opp den Wd) as [Wd' Hd']. destruct (wf_opp num Wn) as [Wn' Hn'].
  rewrite (wf_sign_sgn den) in Wd', Hd' by done.
  set (den' := if Z.sgn (to_Z den) <? 0 then set_sign den (- Z.sgn (to_Z den)) else den).
  set (num' := if Z.sgn (to_Z den) <? 0 then set_sign num (- sign num) else num).
  assert (wf den' ∧ wf num' ∧ to_Z den' = Z.abs (to_Z den) ∧
          (to_Z num' = to_Z num * Z.sgn (to_Z den))) as (Vd & Vn & Zd & Zn).
  { unfold den', num'. destruct (Z.ltb_spec (Z.sgn (to_Z den)) 0); split_and!; try done; nia. }
  clearbody den' num'. assert (to_Z den ≠ 0) as Hd0 by nia.
  assert (sized (2 ^ 24) den' ∧ sized (2 ^ 24) num') as [Sd Sn].
  { split; [apply (sized_abs_le _ (coefficient b))|apply (sized_abs_le _ (coefficient a))]; try done.
    - fold B. lia.
    - fold A. rewrite Zn. clear -Ln. destruct (Z.sgn_spec (to_Z den)) as [[? ->]|[[? ->]|[? ->]]]; lia. }
  assert (Z.gcd (to_Z num') (to_Z den') = 1) as Hcop'.
  { rewrite Zd, Z.gcd_abs_r, Zn. destruct (Z.sgn_spec (to_Z den)) as [[? ->]|[[? ->]|[? ->]]];
      [by rewrite Z.mul_1_r|lia|]. by rewrite Z.mul_opp_r, Z.mul_1_r, Z.gcd_opp_l. }
  assert (to_Z num' * B = A * to_Z den') as Hcross by (rewrite Zd, Zn, <- Hn, <- Hd; nia).
  eapply runs_bind.
  { eapply runs_mono; [apply factor_loop_spec| |].
    - done.
    - by apply Hlim.
    - lia.
    - rewrite wf_eval_abs by done. rewrite Z.abs_eq by lia. pose proof (Z.log2_nonneg (to_Z den')). lia.
    - intros x Hx. exact Hx.
    - intros f s (-> & -> & Hbad). split; [done|]. right. split_and!; try done. intros n k Hk He.
      apply (bad_factor_no_power (to_Z num') (to_Z den') k n Hk Hcop' Hbad).
      apply (Z.mul_cancel_r _ _ B); [done|]. rewrite <- Z.mul_assoc, (Z.mul_comm (10 ^ k)), Z.mul_assoc, Hcross. nia. }
  intros [t f] (_ & _ & Hpow). cbv beta. rewrite !Nat.sub_0_r in Hpow.
  pose proof (Z.pow_pos_nonneg 2 (Z.of_nat t) ltac:(lia) ltac:(lia)) as P2.
  pose proof (Z.pow_pos_nonneg 5 (Z.of_nat f) ltac:(lia) ltac:(lia)) as P5.
  assert (Z.of_nat t < 2 ^ 29) as Ht.
  { apply Z.lt_trans with (30 * 2 ^ 24); [|done]. apply (pow2_bound _ den'); [done|done|done|lia|nia]. }
  assert (Z.of_nat f < 2 ^ 29) as Hf.
  { apply Z.lt_trans with (30 * 2 ^ 24); [|done]. apply (pow2_bound _ den'); [done|done|done|lia|].
    pose proof (Z.pow_le_mono_l 2 5 (Z.of_nat f) ltac:(lia)). nia. }
  set (p := Nat.max t f).
  mbind (mul_times_spec (p - t) num' 2 (2 ^ 24)) as m1 (W1 & H1 & S1); try done;
    [unfold limit, p; clia|].
  mbind (mul_times_spec (p - f) m1 5) as m2 (W2 & H2 & S2); try done;
    [unfold limit, p in *; clia|].
  mbind (runs_c_int _ (λ x, x = exponent a - exponent b)) as ? ->; [clia|done|].
  mbind (runs_c_int _ (λ x, x = exponent a - exponent b - Z.of_nat p)) as ? ->;
    [unfold p; clia|done|].
  eapply (runs_mono _ _ no_trap); [apply (divide_finish a b m2 _ (Z.of_nat p)); [done| |lia|done|done]| |by intros ?? []].
  - fold A B. apply (Z.mul_cancel_r _ _ (to_Z den')); [lia|]. rewrite H2, H1.
    transitivity (to_Z num' * B * 10 ^ Z.of_nat p); [|rewrite Hcross; lia].
    rewrite Hpow. change 10 with (2 * 5). rewrite Z.pow_mul_l.
    replace (2 ^ Z.of_nat p) with (2 ^ Z.of_nat (p - t) * 2 ^ Z.of_nat t)
      by (rewrite <- Z.pow_add_r by lia; f_equal; unfold p; lia).
    replace (5 ^ Z.of_nat p) with (5 ^ Z.of_nat (p - f) * 5 ^ Z.of_nat f)
      by (rewrite <- Z.pow_add_r by lia; f_equal; unfold p; lia).
    lia.
  - by intros v Hv.
Qed.

(** ** Decimals as rational numbers *)

(** The rational number [d] denotes: coefficient * 10^exponent. *)
Definition dec_Q (d : Decimal) : Q :=
  inject_Z (to_Z (coefficient d)) * Qpower (inject_Z 10) (exponent d).

Lemma Q10_neq_0 e : ¬ (Qpower (inject_Z 10) e == 0)%Q.
Proof. apply Qpower_not_0. by compute. Qed.

Lemma Q10_nonneg n : 0 ≤ n → (Qpower (inject_Z 10) n == inject_Z (10 ^ n))%Q.
Proof.
  intros Hn. destruct n as [|p|p]; [by compute| |lia].
  rewrite <- Zpower_Qpower by lia. done.
Qed.

(** The coefficient on a common scale is the number on that scale. *)
Lemma dec_Q_at e d :
  e ≤ exponent d → (dec_Q d == inject_Z (dec_at e d) * Qpower (inject_Z 10) e)%Q.
Proof.
  intros He. unfold dec_Q, dec_at. rewrite inject_Z_mult.
  replace (exponent d) with ((exponent d - e) + e) at 1 by lia.
  rewrite Qpower_plus by (by compute). rewrite Q10_nonneg by lia. ring.
Qed.

Lemma dec_at_inj e a b :
  e ≤ exponent a → e ≤ exponent b → dec_at e a = dec_at e b ↔ (dec_Q a == dec_Q b)%Q.
Proof.
  intros Ha Hb. rewrite (dec_Q_at e a), (dec_Q_at e b) by done. split; [by intros ->|].
  intros H%Qmult_inj_r; [|apply Q10_neq_0]. by apply (proj1 (inject_Z_injective _ _)).
Qed.

Lemma dec_at_lt e a b :
  e ≤ exponent a → e ≤ exponent b → dec_at e a < dec_at e b ↔ (dec_Q a < dec_Q b)%Q.
Proof.
  intros Ha Hb. rewrite (dec_Q_at e a), (dec_Q_at e b) by done.
  rewrite Qmult_lt_r by (apply Qpower_0_lt; by compute). by rewrite <- Zlt_Qlt.
Qed.

(** [decimal_compare] orders decimals as rational numbers. *)
Lemma decimal_compare_Q a b :
  wf (coefficient a) → wf (coefficient b) →
  sized (2 ^ 58) (coefficient a) → sized (2 ^ 58) (coefficient b) →
  decimal_compare a b = match (dec_Q a ?= dec_Q b)%Q with Lt => -1 | Eq => 0 | Gt => 1 end.
Proof.
  intros Wa Wb Sa Sb. set (e := Z.min (exponent a) (exponent b)).
  rewrite (decimal_compare_spec a b e) by (done || lia).
  destruct (Qcompare_spec (dec_Q a) (dec_Q b)) as [H|H|H].
  - apply (dec_at_inj e) in H; lia.
  - apply (dec_at_lt e) in H; lia.
  - apply (dec_at_lt e) in H; lia.
Qed.

Lemma dec_result_Q z e v :
  dec_result z e v →
  ∃ d, v = Dec d ∧ wf (coefficient d) ∧ exponent d = e ∧
       (dec_Q d == inject_Z z * Qpower (inject_Z 10) e)%Q.
Proof. intros (c & -> & Hc & Hz). eexists. split_and!; [done..|]. unfold dec_Q. simpl. by rewrite Hz. Qed.

(** The result of + (0), - (1) or * (2) and the scale the language promises. *)
Definition dec_op (op : Z) (x y : Q) : Q :=
  (if op =? 0 then x + y else if op =? 1 then x - y else x * y)%Q.
Definition dec_scale (op : Z) (a b : Decimal) : Z :=
  if op =? 2 then exponent a + exponent b else Z.min (exponent a) (exponent b).

#[global] Instance dec_small_dec d : Decision (dec_small d).
Proof. unfold dec_small. apply _. Defined.

(** C36: decimal addition, subtraction and multiplication are exact: the result
    denotes the rational sum, difference or product, at the smaller exponent of
    the operands (the sum of the exponents for a product), and no [int]
    computation on exponents overflows. *)
Theorem decimal_arithmetic_exact op a b :
  0 ≤ op ≤ 2 → dec_small a → dec_small b →
  returns (decimal_binary_classified op a b)
    (λ v, ∃ d, v = Dec d ∧ wf (coefficient d) ∧ exponent d = dec_scale op a b ∧
               (dec_Q d == dec_op op (dec_Q a) (dec_Q b))%Q).
Proof.
  intros Hop Ha Hb. unfold dec_op, dec_scale.
  set (e := Z.min (exponent a) (exponent b)).
  pose proof (dec_Q_at e a ltac:(lia)) as Qa. pose proof (dec_Q_at e b ltac:(lia)) as Qb.
  assert (op = 0 ∨ op = 1 ∨ op = 2) as [->|[->| ->]] by lia; cbn [Z.eqb Pos.eqb].
  - eapply runs_mono; [by apply add_decimal_spec| |done].
    intros v (d & -> & Wd & Ed & Qd)%dec_result_Q. exists d. split_and!; [done..|].
    rewrite Qd, Qa, Qb, inject_Z_plus. fold e. ring.
  - eapply runs_mono; [by apply sub_decimal_spec| |done].
    intros v (d & -> & Wd & Ed & Qd)%dec_result_Q. exists d. split_and!; [done..|].
    rewrite Qd, Qa, Qb. fold e. unfold Z.sub. rewrite inject_Z_plus, inject_Z_opp. ring.
  - eapply runs_mono; [by apply mul_decimal_spec| |done].
    intros v (d & -> & Wd & Ed & Qd)%dec_result_Q. exists d. split_and!; [done..|].
    rewrite Qd, inject_Z_mult, Qpower_plus by (by compute). unfold dec_Q. ring.
Qed.

Lemma decimal_arithmetic_exact_witness :
  let a := mkDecimal {| sign := 1; limbs := [125] |} (-2) false in
  let b := mkDecimal {| sign := -1; limbs := [3] |} 1 false in
  returns (decimal_binary_classified 0 a b)
    (λ v, ∃ d, v = Dec d ∧ wf (coefficient d) ∧ exponent d = dec_scale 0 a b ∧
               (dec_Q d == dec_op 0 (dec_Q a) (dec_Q b))%Q).
Proof. intros a b. apply (decimal_arithmetic_exact 0 a b); [lia|decide_now|decide_now]. Defined.

Lemma Q10_inv e : (Qpower (inject_Z 10) (- e) * Qpower (inject_Z 10) e == 1)%Q.
Proof. rewrite <- Qpower_plus by (by compute). by rewrite Z.add_opp_diag_l. Qed.

Lemma quotient_of_Q a b v :
  to_Z (coefficient b) ≠ 0 → quotient_of a b v →
  ∃ d, v = Dec d ∧ wf (coefficient d) ∧ (dec_Q d * dec_Q b == dec_Q a)%Q ∧
       (exponent d < 0 → to_Z (coefficient d) mod 10 ≠ 0).
Proof.
  intros Hb (z & e & p & s & Hr & Hp & Hs & Heq & Hz & Hnz).
  destruct (decide (to_Z (coefficient a) = 0)) as [Ha|Ha].
  - destruct (Hz Ha) as [-> ->]. apply dec_result_Q in Hr as (d & -> & Wd & Ed & Qd).
    exists d. split_and!; [done..| |lia]. unfold dec_Q at 3. rewrite Qd, Ha. ring.
  - destruct (Hnz Ha) as [He Hm]. destruct Hr as (c & -> & Wc & Hc).
    eexists. split_and!; [done..| |]; simpl.
    + unfold dec_Q; simpl. rewrite Hc.
      assert (inject_Z (z * 10 ^ s * to_Z (coefficient b)) ==
              inject_Z (to_Z (coefficient a) * 10 ^ p))%Q as HeqQ by (by rewrite Heq).
      rewrite !inject_Z_mult, <- !Q10_nonneg in HeqQ by done.
      assert (inject_Z z * inject_Z (to_Z (coefficient b)) * Qpower (inject_Z 10) s ==
              inject_Z (to_Z (coefficient a)) * Qpower (inject_Z 10) p)%Q as Hq.
      { rewrite <- HeqQ. ring. }
      rewrite He. replace (exponent a - exponent b - p + s)
        with (exponent a + (- exponent b + (- p + s))) by lia.
      rewrite !Qpower_plus by (by compute).
      transitivity (inject_Z z * inject_Z (to_Z (coefficient b)) * Qpower (inject_Z 10) s *
        (Qpower (inject_Z 10) (exponent a) * Qpower (inject_Z 10) (- p) *
         (Qpower (inject_Z 10) (- exponent b) * Qpower (inject_Z 10) (exponent b))))%Q; [ring|].
      rewrite Hq, Q10_inv.
      transitivity (inject_Z (to_Z (coefficient a)) * Qpower (inject_Z 10) (exponent a) *
         (Qpower (inject_Z 10) (- p) * Qpower (inject_Z 10) p))%Q; [ring|].
      rewrite Q10_inv. ring.
    + rewrite Hc. intros Hlt H0. apply (Hm Hlt). apply Z.mod_divide; [done|].
      apply Z.divide_abs_r, Z.mod_divide; done.
Qed.

Lemma dec_Q_zero d : (dec_Q d == 0)%Q ↔ to_Z (coefficient d) = 0.
Proof.
  unfold dec_Q. split.
  - intros [H|H]%Qmult_integral; [|by apply Q10_neq_0 in H]. by apply (proj1 (inject_Z_injective _ 0)).
  - intros ->. ring.
Qed.

(** No decimal is the quotient when no power of ten clears the denominator. *)
Lemma no_quotient a b :
  to_Z (coefficient b) ≠ 0 →
  (∀ n k, 0 ≤ k → to_Z (coefficient a) * 10 ^ k ≠ n * to_Z (coefficient b)) →
  ∀ d, ¬ (dec_Q d * dec_Q b == dec_Q a)%Q.
Proof.
  intros Hb Hno d Hq. unfold dec_Q in Hq.
  set (x := exponent d + exponent b) in *.
  set (lo := Z.min x (exponent a)).
  assert (to_Z (coefficient d) * to_Z (coefficient b) * 10 ^ (x - lo) =
          to_Z (coefficient a) * 10 ^ (exponent a - lo)) as He.
  { apply (proj1 (inject_Z_injective _ _)). rewrite !inject_Z_mult, <- !Q10_nonneg by lia.
    apply (Qmult_inj_r _ _ (Qpower (inject_Z 10) lo)); [apply Q10_neq_0|].
    rewrite <- !Qmult_assoc, <- !Qpower_plus by (by compute).
    replace (x - lo + lo) with x by lia. replace (exponent a - lo + lo) with (exponent a) by lia.
    rewrite <- Hq. unfold x. rewrite Qpower_plus by (by compute). ring. }
  apply (Hno (to_Z (coefficient d) * 10 ^ (x - lo)) (exponent a - lo)); lia.
Qed.

(** C19: decimal division is exact or refused.  A decimal is returned only when it
    is the quotient, with the shortest fractional scale; the operation traps for
    a zero divisor, and with the non-terminating diagnostic exactly when no
    decimal is the quotient. *)
Theorem decimal_division_exact a b :
  dec_small a → dec_small b →
  runs (decimal_binary_classified 3 a b)
    (λ v, ∃ d, v = Dec d ∧ wf (coefficient d) ∧ ¬ (dec_Q b == 0)%Q ∧
               (dec_Q d * dec_Q b == dec_Q a)%Q ∧
               (exponent d < 0 → to_Z (coefficient d) mod 10 ≠ 0))
    (λ f s, f = VM_FAULT_REQUEST ∧
       (s = division_by_zero ∧ (dec_Q b == 0)%Q ∨
        s = non_terminating ∧ ∀ d, ¬ (dec_Q d * dec_Q b == dec_Q a)%Q)).
Proof.
  intros Ha Hb. change (decimal_binary_classified 3 a b) with (decimal_divide a b).
  eapply runs_mono; [by apply divide_spec| |].
  - intros v [Hb0 (d & -> & Wd & Qd & Hd)%quotient_of_Q]; [|done].
    exists d. rewrite dec_Q_zero. done.
  - intros f s (-> & [(-> & H0)|(-> & Hb0 & Hno)]); (split; [done|]).
    + left. by rewrite dec_Q_zero.
    + right. split; [done|]. by apply no_quotient.
Qed.

Lemma decimal_division_exact_witness :
  let a := mkDecimal {| sign := 1; limbs := [1] |} 0 false in
  let b := mkDecimal {| sign := 1; limbs := [8] |} 0 false in
  dec_small a ∧ dec_small b ∧
  run (decimal_binary_classified 3 a b) =
    Ret (Dec (mkDecimal {| sign := 1; limbs := [125] |} (-3) false)) ∧
  runs (decimal_binary_classified 3 a b)
    (λ v, ∃ d, v = Dec d ∧ wf (coefficient d) ∧ ¬ (dec_Q b == 0)%Q ∧
               (dec_Q d * dec_Q b == dec_Q a)%Q ∧
               (exponent d < 0 → to_Z (coefficient d) mod 10 ≠ 0))
    (λ f s, f = VM_FAULT_REQUEST ∧
       (s = division_by_zero ∧ (dec_Q b == 0)%Q ∨
        s = non_terminating ∧ ∀ d, ¬ (dec_Q d * dec_Q b == dec_Q a)%Q)).
Proof.
  intros a b. split; [decide_now|]. split; [decide_now|]. split; [by vm_compute|].
  apply (decimal_division_exact a b); decide_now.
Defined.

(** The allocation-free decimal comparison, by magnitude and then digit by
    digit, is the order of the rational numbers denoted, on any scales. *)
Theorem decimal_compare_order a b :
  wf (coefficient a) → wf (coefficient b) →
  sized (2 ^ 58) (coefficient a) → sized (2 ^ 58) (coefficient b) →
  decimal_compare a b = match (dec_Q a ?= dec_Q b)%Q with Lt => -1 | Eq => 0 | Gt => 1 end.
Proof. apply decimal_compare_Q. Qed.

Lemma decimal_compare_order_witness :
  let a := mkDecimal {| sign := -1; limbs := [150] |} (-2) false in
  let b := mkDecimal {| sign := -1; limbs := [2] |} 0 false in
  decimal_compare a b = match (dec_Q a ?= dec_Q b)%Q with Lt => -1 | Eq => 0 | Gt => 1 end.
Proof. intros a b. apply (decimal_compare_order a b); decide_now. Defined.
