(* ===== verification/Equal.v ===== *)
(** * Structural equality of values: [value_equal] of src/src/vm/value.c

    The equality behind [==], set and map membership and variant matching.  It
    is coarser than identity (decimals of different scale, record field names)
    and finer than structure for the kinds compared by address, so its
    correctness is stated against a denotation of values. *)

From Stdlib Require Import ZArith QArith Qcanon Lia.
From stdpp Require Import prelude gmap strings.
From S2P Require Import Prelude Bigint Value Decimals.
#[local] Open Scope Z_scope.

(** ** Induction over nested values *)

Definition children (v : Value) : list Value :=
  match v with
  | Array l | Map_ l | Set_ l | Record_ _ _ l | Variant _ l => l
  | _ => []
  end.

Definition value_forall (P : Value → Prop) (f : ∀ v, P v) : ∀ l, Forall P l :=
  fix go l := match l with [] => Forall_nil_2 _ | x :: l' => Forall_cons_2 _ x l' (f x) (go l') end.

Lemma value_children_ind (P : Value → Prop) :
  (∀ v, Forall P (children v) → P v) → ∀ v, P v.
Proof.
  intros H. refine (fix IH v := _).
  apply H. destruct v; simpl; try apply Forall_nil_2; apply (value_forall P IH).
Qed.

(** ** The operation *)

(** The loop over two arrays of [count] elements. *)
Definition all2 {A} (f : A → A → bool) : list A → list A → bool :=
  fix go xs ys :=
    match xs, ys with
    | x :: xs', y :: ys' => if f x y then go xs' ys' else false
    | _, _ => true
    end.

Definition same_bytes (a b : list Z) : bool :=
  Nat.eqb (length a) (length b) && (memcmp a b =? 0).

Fixpoint value_equal (a b : Value) : bool :=
  match a, b with
  | Nat_ m, Nat_ n | Int_ m, Int_ n | Duration m, Duration n | Instant m, Instant n =>
      pn_big_compare m n =? 0
  | Rat n d, Rat n' d' => (pn_big_compare n n' =? 0) && (pn_big_compare d d' =? 0)
  | Dec d, Dec d' => decimal_compare d d' =? 0
  | Str s, Str t => same_bytes (data s) (data t)
  | Bytes s, Bytes t | Path s, Path t => same_bytes s t
  | Bool_ x, Bool_ y => Bool.eqb x y
  | VUnit, VUnit | Void, Void => true
  | Array xs, Array ys | Set_ xs, Set_ ys | Map_ xs, Map_ ys =>
      if negb (Nat.eqb (length xs) (length ys)) then false else all2 value_equal xs ys
  | Record_ n _ xs, Record_ n' _ ys | Variant n xs, Variant n' ys =>
      if negb (streq n n') || negb (Nat.eqb (length xs) (length ys)) then false
      else all2 value_equal xs ys
  | Range p _ _, Range q _ _ | Iter p, Iter q | HttpState p, HttpState q
  | HttpWriter p, HttpWriter q | HttpConnection p, HttpConnection q => bool_decide (p = q)
  | _, _ => false
  end.

(** ** Well-formed values *)

Definition wf_number (n : PnBigInt) : Prop := wf n ∧ sized (2 ^ 58) n.

(** The invariant every operation establishes for the values it returns. *)
Fixpoint wf_value (v : Value) : Prop :=
  match v with
  | Nat_ n => wf_number n ∧ 0 ≤ to_Z n
  | Int_ n | Duration n | Instant n => wf_number n
  | Rat n d => wf_number n ∧ wf_number d ∧ 0 < to_Z d ∧ Z.gcd (to_Z n) (to_Z d) = 1
  | Dec d => wf_number (coefficient d)
  | Str t => t = text_of (data t) ∧ Forall is_byte (data t)
  | Bytes s | Path s => Forall is_byte s
  | Range _ s e => wf_number s ∧ wf_number e
  | Array l | Map_ l | Set_ l | Record_ _ _ l | Variant _ l =>
      foldr (λ x P, wf_value x ∧ P) True l
  | _ => True
  end.

Lemma wf_value_forall l : foldr (λ x P, wf_value x ∧ P) True l ↔ Forall wf_value l.
Proof. induction l; simpl; rewrite ?Forall_cons; naive_solver. Qed.

(** ** Denotation *)

Inductive meaning :=
| MInt (k : ValueKind) (z : Z)
| MRat (q : Qc)
| MDec (q : Qc)
| MBytes (k : ValueKind) (s : list Z)
| MBool (b : bool)
| MUnit (k : ValueKind)
| MSeq (k : ValueKind) (l : list meaning)
| MNamed (k : ValueKind) (name : list Z) (l : list meaning)
| MObject (k : ValueKind) (id : ref).

(** What a program can tell apart: numbers by their value, sequences by their
    elements, records and variants by their name and field values, ranges,
    iterators and resources by identity. *)
Fixpoint denote (v : Value) : meaning :=
  match v with
  | Nat_ n | Int_ n | Duration n | Instant n => MInt (kind v) (to_Z n)
  | Rat n d => MRat (Q2Qc (inject_Z (to_Z n) / inject_Z (to_Z d)))
  | Dec d => MDec (Q2Qc (dec_Q d))
  | Str t => MBytes V_STR (data t)
  | Bytes s | Path s => MBytes (kind v) s
  | Bool_ b => MBool b
  | VUnit | Void => MUnit (kind v)
  | Array l | Map_ l | Set_ l => MSeq (kind v) (denote <$> l)
  | Record_ n _ l | Variant n l => MNamed (kind v) (cstr n) (denote <$> l)
  | Range p _ _ | Iter p | HttpState p | HttpWriter p | HttpConnection p => MObject (kind v) p
  end.

(** ** Proofs *)

Lemma memcmp_eq a b : length a = length b → (memcmp a b =? 0) = bool_decide (a = b).
Proof.
  revert b. induction a as [|x a IH]; intros [|y b] Hl; try done. simpl.
  destruct (Z.eqb_spec x y) as [->|Hne].
  - rewrite IH by (simpl in Hl; lia). apply bool_decide_ext. naive_solver.
  - rewrite bool_decide_false by congruence. by destruct (x <? y).
Qed.

Lemma same_bytes_spec a b : same_bytes a b = bool_decide (a = b).
Proof.
  unfold same_bytes. destruct (Nat.eqb_spec (length a) (length b)) as [Hl|Hl]; simpl.
  - by apply memcmp_eq.
  - symmetry. apply bool_decide_false. congruence.
Qed.

Lemma compare_0 a b : wf_number a → wf_number b → (pn_big_compare a b =? 0) = true ↔ to_Z a = to_Z b.
Proof. intros [Ha _] [Hb _]. rewrite compare_spec by done. rewrite Z.eqb_eq. lia. Qed.

Lemma Q2Qc_inj p q : Q2Qc p = Q2Qc q ↔ (p == q)%Q.
Proof. split; [apply Q2Qc_eq_iff|]. intros H. by apply Q2Qc_eq_iff. Qed.

(** Two reduced fractions are equal exactly when their parts are. *)
Lemma reduced_unique n d n' d' :
  0 < d → 0 < d' → Z.gcd n d = 1 → Z.gcd n' d' = 1 →
  (inject_Z n / inject_Z d == inject_Z n' / inject_Z d')%Q ↔ n = n' ∧ d = d'.
Proof.
  intros Hd Hd' Hg Hg'. split; [|by intros [-> ->]]. intros H.
  assert (n * d' = n' * d) as Hx.
  { apply (proj1 (inject_Z_injective _ _)). rewrite !inject_Z_mult.
    assert (∀ z, 0 < z → ¬ (inject_Z z == 0)%Q) as Hnz.
    { intros z Hz He. change 0%Q with (inject_Z 0) in He. apply (proj1 (inject_Z_injective _ _)) in He. lia. }
    transitivity (inject_Z n / inject_Z d * inject_Z d * inject_Z d')%Q.
    { rewrite Qmult_comm, (Qmult_comm (_ / _)), Qmult_div_r by auto. ring. }
    rewrite H. transitivity (inject_Z n' / inject_Z d' * inject_Z d' * inject_Z d)%Q; [ring|].
    rewrite (Qmult_comm (_ / _)), Qmult_div_r by auto. ring. }
  assert (d | d') as D1 by (apply Z.gauss with n; [exists n'; lia|by rewrite Z.gcd_comm]).
  assert (d' | d) as D2 by (apply Z.gauss with n'; [exists n; lia|by rewrite Z.gcd_comm]).
  assert (d = d') as -> by (apply Z.divide_antisym_nonneg; (lia || done)).
  split; [|done]. nia.
Qed.

Lemma all2_denote xs ys :
  Forall (λ x, ∀ b, wf_value x → wf_value b → value_equal x b = true ↔ denote x = denote b) xs →
  Forall wf_value xs → Forall wf_value ys → length xs = length ys →
  all2 value_equal xs ys = true ↔ denote <$> xs = denote <$> ys.
Proof.
  intros IH. revert ys. induction IH as [|x xs Hx IH IHl]; intros [|y ys] Wx Wy Hl; try done.
  rewrite !fmap_cons. cbn [all2]. inversion Wx; inversion Wy; subst. specialize (Hx y ltac:(done) ltac:(done)).
  destruct (value_equal x y).
  - rewrite IHl by (simpl in Hl; auto with lia). split; [intros ->; f_equal; by apply Hx|by intros [= _ H]].
  - split; [done|]. intros [= H _]. apply Hx in H. done.
Qed.

Lemma sequence_denote xs ys :
  Forall (λ x, ∀ b, wf_value x → wf_value b → value_equal x b = true ↔ denote x = denote b) xs →
  Forall wf_value xs → Forall wf_value ys →
  (if negb (Nat.eqb (length xs) (length ys)) then false else all2 value_equal xs ys) = true ↔
  denote <$> xs = denote <$> ys.
Proof.
  intros IH Wx Wy. destruct (Nat.eqb_spec (length xs) (length ys)); simpl.
  - by apply all2_denote.
  - split; [done|]. intros H%(f_equal length). by rewrite !length_fmap in H.
Qed.

Lemma value_equal_spec a b :
  wf_value a → wf_value b → value_equal a b = true ↔ denote a = denote b.
Proof.
  revert b. induction a as [a IH] using value_children_ind. intros b Wa Wb.
  destruct a, b; try done; simpl in IH, Wa, Wb |- *;
    rewrite ?wf_value_forall in Wa, Wb.
  all: try (rewrite compare_0 by tauto; split; congruence).
  all: try (rewrite same_bytes_spec, bool_decide_eq_true; split; congruence).
  all: try (rewrite bool_decide_eq_true; split; congruence).
  all: try (rewrite sequence_denote by done; split; congruence).
  - destruct Wa as (? & ? & ? & ?), Wb as (? & ? & ? & ?).
    rewrite andb_true_iff, !compare_0 by done.
    rewrite <- reduced_unique, <- Q2Qc_inj by done. split; congruence.
  - destruct Wa as [Wa Sa], Wb as [Wb Sb]. rewrite decimal_compare_Q by done.
    transitivity (dec_Q d == dec_Q d0)%Q; [|rewrite <- Q2Qc_inj; split; congruence].
    rewrite Qeq_alt. destruct (_ ?= _)%Q; simpl; split; congruence.
  - rewrite eqb_true_iff. split; congruence.
  - rewrite streq_cstr. case_bool_decide as Hn; simpl; [|split; congruence].
    rewrite sequence_denote by done. split; congruence.
  - rewrite streq_cstr. case_bool_decide as Hn; simpl; [|split; congruence].
    rewrite sequence_denote by done. split; congruence.
Qed.

(** ** What equality promises *)

(** C35: on well-formed values [value_equal] decides equality of denotations:
    decimals by their rational value whatever their scale, rationals by their
    reduced fraction, sequences elementwise and in order, records and variants
    by name and field values, ranges, iterators and resources by identity. *)
Theorem value_equal_denotes a b :
  wf_value a → wf_value b → value_equal a b = true ↔ denote a = denote b.
Proof. apply value_equal_spec. Qed.

Lemma value_equal_denotes_witness :
  let a := Array [Dec (mkDecimal {| sign := 1; limbs := [150] |} (-2) false)] in
  let b := Array [Dec (mkDecimal {| sign := 1; limbs := [15] |} (-1) false)] in
  value_equal a b = true ∧ denote a = denote b.
Proof.
  intros a b. split; [by vm_compute|].
  apply (value_equal_denotes a b); [split; [split; decide_now|done]..|by vm_compute].
Defined.
