(* ===== verification/Numeric.v ===== *)
(** * Numeric operators: the second half of src/src/vm/numeric.c

    Rationals in lowest terms, the comparison operators and
    [binary_value_classified], the dispatcher of the twelve binary operators. *)

From Stdlib Require Import ZArith QArith Qpower Lia.
From stdpp Require Import prelude gmap strings.
From S2P Require Import Prelude Bigint Value Decimals Equal.
#[local] Open Scope Z_scope.

(** ** Operations *)

Definition value_rat_classified (n d : PnBigInt) : M Value :=
  if pn_big_is_zero d then trap VM_FAULT_REQUEST division_by_zero
  else
    gcd ← big_gcd n d;
    '(nn, _) ← pn_big_divmod n gcd;
    '(dd, _) ← pn_big_divmod d gcd;
    let '(nn, dd) :=
      if sign dd <? 0 then (set_sign nn (- sign nn), set_sign dd 1) else (nn, dd) in
    _ ← alloc;
    mret (Rat nn dd).

Definition rational_operand (v : Value) : bool :=
  is_kind v V_RAT || is_kind v V_NAT || is_kind v V_INT.

(** [a->kind == V_RAT ? &a->as.rational.numerator : &a->as.integer], and the
    denominator likewise; the two fields of the union exist for these kinds only. *)
Definition rational_parts (one : PnBigInt) (v : Value) : M (PnBigInt * PnBigInt) :=
  match v with
  | Rat n d => mret (n, d)
  | Nat_ n | Int_ n | Duration n | Instant n => mret (n, one)
  | _ => undef
  end.

Definition no_rat_remainder : string := "VM trap: Rat does not support remainder".

Definition rational_binary (op : Z) (a b : Value) : M Value :=
  one ← pn_big_from_u64 1;
  '(an, ad) ← rational_parts one a;
  '(bn, bd) ← rational_parts one b;
  if (5 <=? op) || (op =? 0) || (op =? 1) then
    lhs ← pn_big_mul an bd;
    rhs ← pn_big_mul bn ad;
    if 5 <=? op then
      let c := pn_big_compare lhs rhs in
      value_bool (if op =? 5 then c =? 0
                  else if op =? 6 then negb (c =? 0)
                  else if op =? 7 then c <? 0
                  else if op =? 8 then c <=? 0
                  else if op =? 9 then 0 <? c
                  else 0 <=? c)
    else
      n ← (if op =? 0 then pn_big_add lhs rhs else pn_big_sub lhs rhs);
      d ← pn_big_mul ad bd;
      value_rat_classified n d
  else if (op =? 2) || (op =? 3) then
    n ← pn_big_mul an (if op =? 2 then bn else bd);
    d ← pn_big_mul ad (if op =? 2 then bd else bn);
    value_rat_classified n d
  else trap VM_FAULT_FATAL no_rat_remainder.

Definition is_integer (v : Value) : bool := is_kind v V_NAT || is_kind v V_INT.

Definition comparable (a b : Value) : bool :=
  is_kind a V_DEC && is_kind b V_DEC || is_integer a && is_integer b ||
  is_kind a V_STR && is_kind b V_STR.

(** [(x > y) - (x < y)] *)
Definition sign_of_difference (x y : Z) : Z :=
  (if y <? x then 1 else 0) - (if x <? y then 1 else 0).

Definition compare_values (a b : Value) : Z :=
  match a, b with
  | Dec d, Dec d' => decimal_compare d d'
  | (Nat_ m | Int_ m), (Nat_ n | Int_ n) => pn_big_compare m n
  | Str s, Str t =>
      let n := Nat.min (length (data s)) (length (data t)) in
      let c := memcmp (take n (data s)) (take n (data t)) in
      if negb (c =? 0) then c
      else sign_of_difference (Z.of_nat (length (data s))) (Z.of_nat (length (data t)))
  | _, _ => 0
  end.

Definition boolean_operands : string := "VM trap: Boolean operator requires Bool".
Definition incompatible_comparison : string := "VM trap: incompatible comparison operands".
Definition incompatible_binary : string := "VM trap: incompatible binary operands".
Definition nat_underflow : string := "VM trap: Nat underflow".

(** String concatenation.  The size of the malloc is 0 when both strings are
    empty; the answer of the allocator is then the NULL an implementation may
    return for an empty block. *)
Definition concat_strings (s t : list Z) : M Value :=
  if SIZE_MAX - Z.of_nat (length t) <? Z.of_nat (length s) then nomem
  else
    _ ← alloc;
    value_data V_STR (s ++ t).

(** The integer operators + - * and % ([/] builds a rational before). *)
Definition integer_result (op : Z) (m n : PnBigInt) : M PnBigInt :=
  if op =? 0 then pn_big_add m n
  else if op =? 1 then pn_big_sub m n
  else if op =? 2 then pn_big_mul m n
  else if pn_big_is_zero n then trap VM_FAULT_REQUEST division_by_zero
  else
    '(_, r) ← pn_big_divmod m n;
    if negb (pn_big_is_zero r) && negb (sign m =? sign n) then pn_big_add r n
    else mret r.

Definition integer_binary (op : Z) (k : ValueKind) (m n : PnBigInt) : M Value :=
  result ← integer_result op m n;
  if bool_decide (k = V_NAT) && (sign result <? 0) then trap VM_FAULT_REQUEST nat_underflow
  else value_big k result.

Definition binary_value_classified (op : Z) (a b : Value) : M Value :=
  if (op <=? 10) && rational_operand a && rational_operand b &&
     (is_kind a V_RAT || is_kind b V_RAT || (op =? 3))
  then rational_binary op a b
  else if (op =? 11) || (op =? 12) then
    match a, b with
    | Bool_ x, Bool_ y => value_bool (if op =? 11 then x && y else x || y)
    | _, _ => trap VM_FAULT_FATAL boolean_operands
    end
  else if 5 <=? op then
    if (op =? 5) || (op =? 6) then value_bool (xorb (value_equal a b) (op =? 6))
    else if negb (comparable a b) then trap VM_FAULT_FATAL incompatible_comparison
    else
      let cmp := compare_values a b in
      value_bool (if op =? 7 then cmp <? 0
                  else if op =? 8 then cmp <=? 0
                  else if op =? 9 then 0 <? cmp
                  else 0 <=? cmp)
  else
    match a, b with
    | Str s, Str t =>
        if op =? 0 then concat_strings (data s) (data t)
        else trap VM_FAULT_FATAL incompatible_binary
    | Dec d, Dec d' => decimal_binary_classified op d d'
    | Nat_ m, Nat_ n => integer_binary op V_NAT m n
    | Nat_ m, Int_ n | Int_ m, Nat_ n | Int_ m, Int_ n => integer_binary op V_INT m n
    | _, _ => trap VM_FAULT_FATAL incompatible_binary
    end.

(** ** Sizes of results *)

Lemma sized_product ka kb a b r :
  wf a → wf b → wf r → 0 ≤ ka → 0 ≤ kb → sized ka a → sized kb b →
  to_Z r = to_Z a * to_Z b → sized (ka + kb) r.
Proof.
  intros Wa Wb Wr Ha Hb Sa Sb Hr. apply sized_le in Sa, Sb; try done.
  apply sized_le; [done|lia|]. rewrite Hr, Z.abs_mul, Z.pow_add_r by done. nia.
Qed.

Lemma sized_sum k a b r :
  wf a → wf b → wf r → 0 ≤ k → sized k a → sized k b →
  Z.abs (to_Z r) ≤ Z.abs (to_Z a) + Z.abs (to_Z b) → sized (k + 1) r.
Proof.
  intros Wa Wb Wr Hk Sa Sb Hr. apply sized_le in Sa, Sb; try done.
  apply sized_le; [done|lia|]. rewrite Z.pow_add_r, Z.pow_1_r by lia.
  assert (2 < BASE) by done. pose proof (Z.pow_pos_nonneg BASE k ltac:(done) Hk). nia.
Qed.

(** ** Rationals *)

(** [v] is the reduced fraction equal to [n]/[d]. *)
Definition rat_result (n d : Z) (v : Value) : Prop :=
  ∃ p q, v = Rat p q ∧ wf p ∧ wf q ∧ 0 < to_Z q ∧ Z.gcd (to_Z p) (to_Z q) = 1 ∧
         to_Z p * d = n * to_Z q.

Lemma rat_spec n d :
  wf n → wf d → sized (limit - 1) n → sized (limit - 1) d →
  runs (value_rat_classified n d)
    (λ v, to_Z d ≠ 0 ∧ rat_result (to_Z n) (to_Z d) v)
    (λ f s, f = VM_FAULT_REQUEST ∧ s = division_by_zero ∧ to_Z d = 0).
Proof.
  intros Wn Wd Sn Sd. unfold value_rat_classified. rewrite is_zero_spec by done.
  destruct (Z.eqb_spec (to_Z d) 0) as [H0|H0]; [by apply runs_trap|].
  assert (∀ x, sized (limit - 1) x → sized limit x) as Hlim
    by (intros x Hx; eapply sized_mono; [done|lia]).
  mbind gcd_spec as g (Wg & Hg & Sg); [done..|].
  assert (to_Z g ≠ 0) as Hg0 by (rewrite Hg; intros ?%Z.gcd_eq_0; tauto).
  mbind (divmod_gcd_spec n (to_Z d)) as [p rp] (Wp & Hp & _); auto.
  mbind (divmod_gcd_spec d (to_Z n)) as [q rq] (Wq & Hq & _); auto.
  pose proof (Z.gcd_nonneg (to_Z n) (to_Z d)).
  assert (Z.gcd (to_Z p) (to_Z q) = 1) as Hcop.
  { apply (Z.mul_cancel_l _ _ (to_Z g)); [done|]. rewrite Z.mul_1_r.
    rewrite <- (Z.abs_eq (to_Z g)) at 1 by lia.
    by rewrite <- Z.gcd_mul_mono_l, !(Z.mul_comm (to_Z g)), Hp, Hq. }
  assert (to_Z q ≠ 0) as Hq0 by nia.
  destruct (wf_opp p Wp) as [Wp' Hp'].
  rewrite (wf_sign_sgn q) by done. destruct (Z.ltb_spec (Z.sgn (to_Z q)) 0) as [Hs|Hs].
  - destruct (set_sign_wf q 1) as [Wq' Hq']; [by apply wf_canonical| |by left|].
    { rewrite wf_eval_abs by done. lia. }
    rewrite wf_eval_abs in Hq' by done.
    mbind runs_alloc as ? _. mret. split; [done|]. eexists _, _. split; [done|].
    rewrite Hp', Hq'. split_and!; try done; [lia| |nia].
    rewrite Z.gcd_opp_l. rewrite Z.mul_1_l, Z.gcd_abs_r. done.
  - mbind runs_alloc as ? _. mret. split; [done|]. eexists _, _. split_and!; try done; [lia|nia].
Qed.

Lemma rat_spec_eq n d N D :
  wf n → wf d → sized (limit - 1) n → sized (limit - 1) d → to_Z n = N → to_Z d = D →
  runs (value_rat_classified n d)
    (λ v, D ≠ 0 ∧ rat_result N D v)
    (λ f s, f = VM_FAULT_REQUEST ∧ s = division_by_zero ∧ D = 0).
Proof. intros ???? <- <-. by apply rat_spec. Qed.

(** A rational operand small enough for its products to be representable. *)
Definition rat_small (v : Value) : Prop :=
  match v with
  | Rat n d => wf n ∧ wf d ∧ sized (2 ^ 56) n ∧ sized (2 ^ 56) d ∧ 0 < to_Z d ∧
               Z.gcd (to_Z n) (to_Z d) = 1
  | Nat_ n => wf n ∧ sized (2 ^ 56) n ∧ 0 ≤ to_Z n
  | Int_ n => wf n ∧ sized (2 ^ 56) n
  | _ => False
  end.

Definition num (v : Value) : Z :=
  match v with Rat n _ | Nat_ n | Int_ n => to_Z n | _ => 0 end.
Definition den (v : Value) : Z :=
  match v with Rat _ d => to_Z d | _ => 1 end.

Lemma rational_parts_spec one v E :
  wf one → to_Z one = 1 → sized 3 one → rat_small v →
  runs (rational_parts one v)
    (λ '(n, d), wf n ∧ wf d ∧ sized (2 ^ 56) n ∧ sized (2 ^ 56) d ∧
                to_Z n = num v ∧ to_Z d = den v ∧ 0 < den v) E.
Proof.
  intros Wo Ho So Hv.
  assert (sized (2 ^ 56) one) by (eapply sized_mono; [done|clia]).
  destruct v; try done; simpl in *; mret; split_and!; try done; tauto || lia.
Qed.

Definition rational_compare (op : Z) (c : Z) : bool :=
  if op =? 5 then c =? 0
  else if op =? 6 then negb (c =? 0)
  else if op =? 7 then c <? 0
  else if op =? 8 then c <=? 0
  else if op =? 9 then 0 <? c
  else 0 <=? c.

Definition rat_num (op : Z) (a b : Value) : Z :=
  if op =? 0 then num a * den b + num b * den a
  else if op =? 1 then num a * den b - num b * den a
  else if op =? 2 then num a * num b
  else num a * den b.

Definition rat_den (op : Z) (a b : Value) : Z :=
  if op =? 3 then den a * num b else den a * den b.

Lemma rational_binary_spec op a b :
  0 ≤ op ≤ 3 → rat_small a → rat_small b →
  runs (rational_binary op a b)
    (λ v, rat_den op a b ≠ 0 ∧ rat_result (rat_num op a b) (rat_den op a b) v)
    (λ f s, f = VM_FAULT_REQUEST ∧ s = division_by_zero ∧ rat_den op a b = 0).
Proof.
  intros Hop Ha Hb. unfold rational_binary.
  mbind from_u64_spec as one (Wo & Ho & So); [done|].
  mbind rational_parts_spec as [an ad] (Wan & Wad & San & Sad & Han & Had & Pa); [done..|].
  mbind rational_parts_spec as [bn bd] (Wbn & Wbd & Sbn & Sbd & Hbn & Hbd & Pb); [done..|].
  assert (∀ x, sized (2 ^ 56) x → sized limit x) as Hlim
    by (intros x Hx; eapply sized_mono; [done|unfold limit; clia]).
  assert (∀ x y r, wf x → wf y → wf r → sized (2 ^ 56) x → sized (2 ^ 56) y →
            to_Z r = to_Z x * to_Z y → sized (2 ^ 57) r) as Hprod.
  { intros x y r Wx Wy Wr Sx Sy Hr. change (2 ^ 57) with (2 ^ 56 + 2 ^ 56).
    by apply (sized_product _ _ x y). }
  assert (∀ x, sized (2 ^ 57) x → sized limit x ∧ sized (limit - 1) x) as Hlim'
    by (intros x Hx; split; (eapply sized_mono; [done|unfold limit; clia])).
  assert (∀ x y r, wf x → wf y → wf r → sized (2 ^ 57) x → sized (2 ^ 57) y →
            Z.abs (to_Z r) ≤ Z.abs (to_Z x) + Z.abs (to_Z y) → sized (limit - 1) r) as Hsum.
  { intros x y r Wx Wy Wr Sx Sy Hr.
    eapply sized_mono; [by apply (sized_sum (2 ^ 57) x y)|unfold limit; clia]. }
  unfold rat_num, rat_den. destruct (Z.leb_spec 5 op); [lia|].
  assert (op = 0 ∨ op = 1 ∨ op = 2 ∨ op = 3) as [->|[->|[->| ->]]] by lia;
    cbn [Z.eqb Pos.eqb orb].
  1,2: mbind mul_spec as l (Wl & Hl); auto; mbind mul_spec as r (Wr & Hr); auto;
    assert (sized (2 ^ 57) l ∧ sized (2 ^ 57) r) as [Sl Sr] by eauto.
  - mbind add_spec as n (Wn & Hn); [done..|by apply Hlim'|by apply Hlim'|].
    mbind mul_spec as d (Wd & Hd); auto.
    apply rat_spec_eq; [done..|apply (Hsum l r); (done || lia)|eapply Hlim'; eauto| |]; congruence.
  - mbind sub_spec as n (Wn & Hn); [done..|by apply Hlim'|by apply Hlim'|].
    mbind mul_spec as d (Wd & Hd); auto.
    apply rat_spec_eq; [done..|apply (Hsum l r); (done || lia)|eapply Hlim'; eauto| |]; congruence.
  - mbind mul_spec as n (Wn & Hn); auto. mbind mul_spec as d (Wd & Hd); auto.
    apply rat_spec_eq; [done..|eapply Hlim'; eauto|eapply Hlim'; eauto| |]; congruence.
  - mbind mul_spec as n (Wn & Hn); auto. mbind mul_spec as d (Wd & Hd); auto.
    apply rat_spec_eq; [done..|eapply Hlim'; eauto|eapply Hlim'; eauto| |]; congruence.
Qed.

Lemma rational_compare_spec op a b E :
  5 ≤ op → rat_small a → rat_small b →
  runs (rational_binary op a b)
    (λ v, v = Bool_ (rational_compare op (Z.sgn (num a * den b - num b * den a)))) E.
Proof.
  intros Hop Ha Hb. unfold rational_binary.
  mbind from_u64_spec as one (Wo & Ho & So); [done|].
  mbind rational_parts_spec as [an ad] (Wan & Wad & San & Sad & Han & Had & Pa); [done..|].
  mbind rational_parts_spec as [bn bd] (Wbn & Wbd & Sbn & Sbd & Hbn & Hbd & Pb); [done..|].
  assert (∀ x, sized (2 ^ 56) x → sized limit x) as Hlim
    by (intros x Hx; eapply sized_mono; [done|unfold limit; clia]).
  destruct (Z.leb_spec 5 op); [|lia]. cbn [orb].
  mbind mul_spec as l (Wl & Hl); auto; mbind mul_spec as r (Wr & Hr); auto.
  rewrite compare_spec by done. unfold value_bool. mbind runs_alloc as ? _. mret.
  by rewrite Hl, Hr, Han, Had, Hbn, Hbd.
Qed.

Lemma remainder_unsupported a b :
  rat_small a → rat_small b →
  runs (rational_binary 4 a b) (λ _, False)
    (λ f s, f = VM_FAULT_FATAL ∧ s = no_rat_remainder).
Proof.
  intros Ha Hb. unfold rational_binary.
  mbind from_u64_spec as one (Wo & Ho & So); [done|].
  mbind rational_parts_spec as [an ad] _; [done..|].
  mbind rational_parts_spec as [bn bd] _; [done..|]. by apply runs_trap.
Qed.

(** ** Integers *)

Definition int_op (op x y : Z) : Z :=
  if op =? 0 then x + y else if op =? 1 then x - y else if op =? 2 then x * y else x mod y.

(** Adjusting the truncated remainder gives the floored one. *)
Lemma floor_adjust x y :
  y ≠ 0 →
  x mod y = if negb (Z.rem x y =? 0) && negb (Z.sgn x =? Z.sgn y) then Z.rem x y + y
            else Z.rem x y.
Proof.
  intros Hy. pose proof (Z.quot_rem x y Hy) as Hqr. pose proof (Z.rem_bound_abs x y Hy) as Hb.
  pose proof (Z.rem_sign_nz x y Hy) as Hs.
  destruct (Z.eqb_spec (Z.rem x y) 0) as [H0|H0]; cbn [negb andb].
  - rewrite H0. apply Z.mod_divide; [done|]. exists (Z.quot x y). lia.
  - specialize (Hs H0). symmetry. destruct (Z.eqb_spec (Z.sgn x) (Z.sgn y)) as [He|He]; cbn [negb].
    + apply (Zmod_unique_full x y (Z.quot x y)); [unfold Remainder; lia|lia].
    + apply (Zmod_unique_full x y (Z.quot x y - 1)); [unfold Remainder; lia|lia].
Qed.

Lemma integer_result_spec op m n :
  wf m → wf n → sized (limit - 1) m → sized (limit - 1) n →
  runs (integer_result op m n)
    (λ r, wf r ∧ sized (2 ^ 61) r ∧ to_Z r = int_op op (to_Z m) (to_Z n))
    (λ f s, f = VM_FAULT_REQUEST ∧ s = division_by_zero ∧ ¬ 0 ≤ op ≤ 2 ∧ to_Z n = 0).
Proof.
  intros Wm Wn Sm Sn. unfold integer_result, int_op.
  assert (∀ x, sized (limit - 1) x → sized limit x) as Hlim
    by (intros x Hx; eapply sized_mono; [done|lia]).
  assert (∀ r, wf r → Z.abs (to_Z r) ≤ Z.abs (to_Z m) + Z.abs (to_Z n) → sized (2 ^ 61) r) as Hsum.
  { intros r Wr Hr. eapply sized_mono; [by apply (sized_sum (limit - 1) m n)|unfold limit; clia]. }
  destruct (Z.eqb_spec op 0) as [->|].
  { eapply (runs_mono _ _ no_trap); [apply add_spec; auto| |by intros ?? []]. intros r (Wr & Hr).
    split_and!; [done|apply Hsum; (done || lia)|done]. }
  destruct (Z.eqb_spec op 1) as [->|].
  { eapply (runs_mono _ _ no_trap); [apply sub_spec; auto| |by intros ?? []]. intros r (Wr & Hr).
    split_and!; [done|apply Hsum; (done || lia)|done]. }
  destruct (Z.eqb_spec op 2) as [->|].
  { eapply (runs_mono _ _ no_trap); [apply mul_spec; auto| |by intros ?? []]. intros r (Wr & Hr).
    split_and!; [done| |done].
    eapply sized_mono; [by apply (sized_product (limit - 1) (limit - 1) m n)|unfold limit; clia]. }
  rewrite is_zero_spec by done. destruct (Z.eqb_spec (to_Z n) 0) as [H0|H0].
  { apply runs_trap. split_and!; (done || lia). }
  mbind divmod_spec as [q r] (_ & Wr & _ & Hr); auto.
  pose proof (Z.rem_bound_abs (to_Z m) (to_Z n) H0) as Hb.
  rewrite is_zero_spec, Hr, !wf_sign_sgn by done.
  rewrite (floor_adjust (to_Z m) (to_Z n)) by done. destruct (_ && _).
  - eapply (runs_mono _ _ no_trap); [apply add_spec; auto| |by intros ?? []].
    { apply Hlim, (sized_abs_le _ n); (done || lia). }
    intros x (Wx & Hx). split_and!; [done| |lia].
    assert (sized (limit - 1) r) by (apply (sized_abs_le _ n); (done || lia)).
    eapply sized_mono; [apply (sized_sum (limit - 1) r n); (done || lia)|unfold limit; clia].
  - mret. split_and!; [done|apply Hsum; (done || lia)|done].
Qed.

Lemma value_big_spec k n (P : Value → Prop) E :
  sized (2 ^ 61) n →
  match k with
  | V_NAT => P (Nat_ n) | V_INT => P (Int_ n)
  | V_DURATION => P (Duration n) | V_INSTANT => P (Instant n)
  | _ => False
  end → runs (value_big k n) P E.
Proof.
  intros Hn HP. unfold value_big. mbind runs_alloc as ? _.
  mbind (runs_copy n (λ x, x = n)) as ? ->; [done..|]. destruct k; try done; by mret.
Qed.

Lemma integer_binary_spec op k m n :
  k = V_NAT ∨ k = V_INT →
  wf m → wf n → sized (limit - 1) m → sized (limit - 1) n →
  runs (integer_binary op k m n)
    (λ v, ∃ r, v = (if decide (k = V_NAT) then Nat_ r else Int_ r) ∧ wf r ∧
               to_Z r = int_op op (to_Z m) (to_Z n) ∧ (k = V_NAT → 0 ≤ to_Z r))
    (λ f s, f = VM_FAULT_REQUEST ∧
       (s = division_by_zero ∧ ¬ 0 ≤ op ≤ 2 ∧ to_Z n = 0 ∨
        s = nat_underflow ∧ k = V_NAT ∧ int_op op (to_Z m) (to_Z n) < 0)).
Proof.
  intros Hk Wm Wn Sm Sn. unfold integer_binary.
  eapply runs_bind; [eapply runs_mono; [by apply integer_result_spec|by intros ? H|naive_solver]|].
  intros r (Wr & Sr & Hr). rewrite (wf_sign_sgn r) by done.
  destruct (decide (k = V_NAT)) as [->|Hne].
  - rewrite bool_decide_true by done. cbn [andb]. destruct (Z.ltb_spec (Z.sgn (to_Z r)) 0).
    + apply runs_trap. split; [done|]. right. split_and!; (done || lia).
    + apply value_big_spec; [done|]. exists r. split_and!; (done || lia).
  - rewrite bool_decide_false by done. cbn [andb]. destruct Hk as [->| ->]; [done|].
    apply value_big_spec; [done|]. by exists r.
Qed.

(** ** Strings *)

(** Lexicographic order on byte strings. *)
Fixpoint lex (a b : list Z) : Z :=
  match a, b with
  | [], [] => 0
  | [], _ => -1
  | _, [] => 1
  | x :: a', y :: b' => if x =? y then lex a' b' else if x <? y then -1 else 1
  end.

Lemma compare_strings_lex a b :
  (let n := Nat.min (length a) (length b) in
   let c := memcmp (take n a) (take n b) in
   if negb (c =? 0) then c
   else sign_of_difference (Z.of_nat (length a)) (Z.of_nat (length b))) = lex a b.
Proof.
  unfold sign_of_difference. revert b. induction a as [|x a IH]; intros [|y b]; try done.
  cbn [length Nat.min take memcmp lex]. rewrite <- IH. destruct (Z.eqb_spec x y) as [->|Hne].
  - cbn zeta. destruct (negb _); [done|].
    destruct (Z.ltb_spec (Z.of_nat (S (length b))) (Z.of_nat (S (length a))));
    destruct (Z.ltb_spec (Z.of_nat (length b)) (Z.of_nat (length a))); try lia;
    destruct (Z.ltb_spec (Z.of_nat (S (length a))) (Z.of_nat (S (length b))));
    destruct (Z.ltb_spec (Z.of_nat (length a)) (Z.of_nat (length b))); lia.
  - by destruct (x <? y).
Qed.

(** ** What the operators promise *)

(** The rational number an operand denotes. *)
Definition val_Q (v : Value) : Q := inject_Z (num v) / inject_Z (den v).

Definition rat_op (op : Z) (x y : Q) : Q :=
  (if op =? 0 then x + y else if op =? 1 then x - y else if op =? 2 then x * y else x / y)%Q.

#[global] Instance rat_small_dec v : Decision (rat_small v).
Proof. destruct v; simpl; apply _. Defined.

Lemma inject_Z_neq_0 z : z ≠ 0 → ¬ (inject_Z z == 0)%Q.
Proof. intros Hz He. apply Hz. by apply (proj1 (inject_Z_injective _ 0)). Qed.

Lemma cross_Q p q n d :
  q ≠ 0 → d ≠ 0 → p * d = n * q →
  (inject_Z p / inject_Z q == inject_Z n / inject_Z d)%Q.
Proof.
  intros Hq Hd Hx.
  assert (inject_Z p * inject_Z d == inject_Z n * inject_Z q)%Q as H
    by (rewrite <- !inject_Z_mult; by rewrite Hx).
  apply inject_Z_neq_0 in Hq, Hd.
  transitivity ((inject_Z p * inject_Z d) / (inject_Z q * inject_Z d))%Q; [by field|].
  rewrite H. by field.
Qed.

Lemma rat_small_den v : rat_small v → den v ≠ 0.
Proof. destruct v; simpl; intros; lia. Qed.

Lemma rat_num_den_Q op a b :
  0 ≤ op ≤ 3 → rat_small a → rat_small b → rat_den op a b ≠ 0 →
  (inject_Z (rat_num op a b) / inject_Z (rat_den op a b) == rat_op op (val_Q a) (val_Q b))%Q.
Proof.
  intros Hop Da%rat_small_den Db%rat_small_den Hd. unfold rat_num, rat_den, rat_op, val_Q in *.
  apply inject_Z_neq_0 in Da, Db.
  assert (op = 0 ∨ op = 1 ∨ op = 2 ∨ op = 3) as [->|[->|[->| ->]]] by lia;
    cbn [Z.eqb Pos.eqb] in *; unfold Z.sub;
    rewrite ?inject_Z_plus, ?inject_Z_opp, ?inject_Z_mult; try (by field).
  assert (num b ≠ 0) as Nb by (intros H0; apply Hd; rewrite H0; lia).
  apply inject_Z_neq_0 in Nb. by field.
Qed.

Lemma rational_dispatch op a b :
  0 ≤ op ≤ 10 → rat_small a → rat_small b →
  is_kind a V_RAT || is_kind b V_RAT || (op =? 3) = true →
  binary_value_classified op a b = rational_binary op a b.
Proof.
  intros Hop Ha Hb Hk. unfold binary_value_classified.
  replace (op <=? 10) with true by lia.
  assert (∀ v, rat_small v → rational_operand v = true) as Hr by (by intros []).
  by rewrite !Hr, Hk by done.
Qed.

(** + - * and / on rationals and mixed rationals and integers (and / on two
    integers) return the exact quotient in lowest terms with a positive
    denominator, and trap only for a division by zero. *)
Theorem rational_arithmetic op a b :
  0 ≤ op ≤ 3 → rat_small a → rat_small b →
  is_kind a V_RAT || is_kind b V_RAT || (op =? 3) = true →
  runs (binary_value_classified op a b)
    (λ v, ∃ p q, v = Rat p q ∧ wf p ∧ wf q ∧ 0 < to_Z q ∧ Z.gcd (to_Z p) (to_Z q) = 1 ∧
                 (val_Q v == rat_op op (val_Q a) (val_Q b))%Q)
    (λ f s, f = VM_FAULT_REQUEST ∧ s = division_by_zero ∧ op = 3 ∧ num b = 0).
Proof.
  intros Hop Ha Hb Hk. rewrite rational_dispatch by (done || lia).
  eapply runs_mono; [by apply rational_binary_spec| |].
  - intros v (Hd & p & q & -> & Wp & Wq & Hq & Hg & Hx). exists p, q. split_and!; try done.
    rewrite <- rat_num_den_Q by done. apply cross_Q; simpl; (done || lia).
  - intros f s (-> & -> & Hd). pose proof (rat_small_den a Ha). pose proof (rat_small_den b Hb).
    unfold rat_den in Hd. destruct (Z.eqb_spec op 3); split_and!; (done || nia).
Qed.

Lemma rational_arithmetic_witness :
  let a := Rat {| sign := 1; limbs := [1] |} {| sign := 1; limbs := [6] |} in
  let b := Int_ {| sign := -1; limbs := [2] |} in
  run (binary_value_classified 0 a b) =
    Ret (Rat {| sign := -1; limbs := [11] |} {| sign := 1; limbs := [6] |}) ∧
  runs (binary_value_classified 0 a b)
    (λ v, ∃ p q, v = Rat p q ∧ wf p ∧ wf q ∧ 0 < to_Z q ∧ Z.gcd (to_Z p) (to_Z q) = 1 ∧
                 (val_Q v == rat_op 0 (val_Q a) (val_Q b))%Q)
    (λ f s, f = VM_FAULT_REQUEST ∧ s = division_by_zero ∧ 0 = 3 ∧ num b = 0).
Proof.
  intros a b. split; [by vm_compute|].
  apply (rational_arithmetic 0 a b); [lia|decide_now|decide_now|reflexivity].
Defined.

(** The integer an integer operand holds. *)
Definition int_small (v : Value) : Prop :=
  match v with
  | Nat_ n => wf n ∧ sized (2 ^ 58) n ∧ 0 ≤ to_Z n
  | Int_ n => wf n ∧ sized (2 ^ 58) n
  | _ => False
  end.

#[global] Instance int_small_dec v : Decision (int_small v).
Proof. destruct v; simpl; apply _. Defined.

(** + - * and % on Nat and Int are the operations of Z, with % the floored
    remainder; the result is a Nat only when both operands are, a Nat result is
    never negative (the operation traps with the underflow diagnostic exactly
    when it would be), and % traps exactly for a zero divisor. *)
Theorem integer_arithmetic op a b :
  0 ≤ op ≤ 4 → op ≠ 3 → int_small a → int_small b →
  let both_nat := is_kind a V_NAT && is_kind b V_NAT in
  runs (binary_value_classified op a b)
    (λ v, ∃ r, v = (if both_nat then Nat_ r else Int_ r) ∧ wf r ∧
               to_Z r = int_op op (num a) (num b) ∧ (both_nat = true → 0 ≤ to_Z r))
    (λ f s, f = VM_FAULT_REQUEST ∧
       (s = division_by_zero ∧ op = 4 ∧ num b = 0 ∨
        s = nat_underflow ∧ both_nat = true ∧ int_op op (num a) (num b) < 0)).
Proof.
  intros Hop H3 Ha Hb both.
  assert (∀ n, sized (2 ^ 58) n → sized (limit - 1) n) as Hlim
    by (intros n Hn; eapply sized_mono; [done|unfold limit; clia]).
  unfold binary_value_classified.
  replace (op <=? 10) with true by lia. replace (op =? 3) with false by lia.
  replace ((op =? 11) || (op =? 12)) with false by lia. replace (5 <=? op) with false by lia.
  destruct a; try done; destruct b; try done; simpl in Ha, Hb; cbn [is_kind kind num];
    (eapply runs_mono; [apply integer_binary_spec| |]);
    [by (left + right)|tauto|tauto|apply Hlim; tauto|apply Hlim; tauto| | |
     by (left + right)|tauto|tauto|apply Hlim; tauto|apply Hlim; tauto| | |
     by (left + right)|tauto|tauto|apply Hlim; tauto|apply Hlim; tauto| | |
     by (left + right)|tauto|tauto|apply Hlim; tauto|apply Hlim; tauto| |].
  all: try (intros v (r & -> & Wr & Hr & Hp); exists r; split_and!; try done; by auto).
  all: intros f s (-> & [(-> & ? & ?)|(-> & ? & ?)]); (split; [done|]); [left|right];
    split_and!; (done || lia).
Qed.

Lemma integer_arithmetic_witness :
  let a := Int_ {| sign := -1; limbs := [7] |} in
  let b := Nat_ {| sign := 1; limbs := [3] |} in
  run (binary_value_classified 4 a b) = Ret (Int_ {| sign := 1; limbs := [2] |}) ∧
  runs (binary_value_classified 4 a b)
    (λ v, ∃ r, v = Int_ r ∧ wf r ∧
               to_Z r = int_op 4 (num a) (num b) ∧ (false = true → 0 ≤ to_Z r))
    (λ f s, f = VM_FAULT_REQUEST ∧
       (s = division_by_zero ∧ 4 = 4 ∧ num b = 0 ∨
        s = nat_underflow ∧ false = true ∧ int_op 4 (num a) (num b) < 0)).
Proof.
  intros a b. split; [by vm_compute|].
  apply (integer_arithmetic 4 a b); [lia|lia|decide_now|decide_now].
Defined.

(** String comparison, the common prefix by memcmp and then the lengths, is
    the lexicographic order of the bytes. *)
Theorem string_comparison_lexicographic s t :
  compare_values (Str s) (Str t) = lex (data s) (data t) ∧
  (compare_values (Str s) (Str t) = 0 ↔ data s = data t) ∧
  compare_values (Str t) (Str s) = - compare_values (Str s) (Str t).
Proof.
  pose proof (λ s t, compare_strings_lex (data s) (data t)) as H.
  change (∀ s t, compare_values (Str s) (Str t) = lex (data s) (data t)) in H.
  rewrite !H. split; [done|]. clear H. generalize (data s), (data t). clear s t.
  split.
  - revert l0. induction l as [|x l IH]; intros [|y l0]; simpl; try done.
    destruct (Z.eqb_spec x y) as [->|]; [rewrite IH; naive_solver|].
    destruct (x <? y); naive_solver.
  - revert l0. induction l as [|x l IH]; intros [|y l0]; simpl; try done.
    rewrite (Z.eqb_sym y x). destruct (Z.eqb_spec x y); [apply IH|].
    destruct (Z.ltb_spec x y), (Z.ltb_spec y x); lia.
Qed.

(** ** Repeated squaring of a decimal zero overflows its exponent *)

Fixpoint square_times (n : nat) (v : Value) : M Value :=
  match n with
  | O => mret v
  | S m => v ← binary_value_classified 2 v v; square_times m v
  end.

(** The exponent of a product is the [int] sum of the exponents and is not
    guarded, so squaring the literal zero with the largest exponent a program can
    contain (4096) is defined eighteen times and reaches a signed overflow,
    undefined in C, at the nineteenth. *)
Example decimal_exponent_overflow :
  let zero := Dec (mkDecimal pn_big_init 4096 false) in
  run (square_times 18 zero) = Ret (Dec (mkDecimal pn_big_init (2 ^ 30) false)) ∧
  run (square_times 19 zero) = Undef.
Proof. split; by vm_compute. Qed.
