(* ===== verification/Utf8.v ===== *)
(** * UTF-8: src/src/vm/utf8.c

    The validator run on every decoded string and every byte string turned into
    text, and the code-point offsets behind string indexing and slicing. *)

From Stdlib Require Import ZArith Lia.
From stdpp Require Import prelude gmap strings.
From S2P Require Import Prelude Bigint Value.

(** ** Operations *)

(** [while (need--)]: the continuation bytes; [None] is [return false]. *)
Fixpoint continuation (need : nat) (c : Z) (s : list Z) : option (Z * list Z) :=
  match need, s with
  | O, _ => Some (c, s)
  | S m, b :: s' =>
      if negb (Z.land b 192 =? 128) then None
      else continuation m (u32 (Z.lor (Z.shiftl c 6) (Z.land b 63))) s'
  | S _, [] => None
  end.

Definition sequence (need : nat) (c min : Z) (s : list Z) : option (list Z) :=
  if bool_decide (length s < need)%nat then None
  else
    '(c, s) ← continuation need c s;
    if (c <? min) || (1114111 <? c) || ((55296 <=? c) && (c <=? 57343)) then None else Some s.

(** One iteration of the outer loop, from the byte [c]: the bytes left. *)
Definition utf8_one (c : Z) (s : list Z) : option (list Z) :=
  if c <? 128 then Some s
  else if Z.land c 224 =? 192 then sequence 1 (Z.land c 31) 128 s
  else if Z.land c 240 =? 224 then sequence 2 (Z.land c 15) 2048 s
  else if Z.land c 248 =? 240 then sequence 3 (Z.land c 7) 65536 s
  else None.

(** Each iteration consumes a byte, so the length bounds the iterations. *)
Fixpoint utf8_loop (fuel : nat) (s : list Z) : bool :=
  match s with
  | [] => true
  | c :: s' =>
      match fuel with
      | O => false
      | S f => match utf8_one c s' with Some r => utf8_loop f r | None => false end
      end
  end.

Definition utf8 (s : list Z) : bool := utf8_loop (length s) s.

(** [i += (c & 0xe0) == 0xc0 ? 1 : (c & 0xf0) == 0xe0 ? 2 : 3] when [c >= 0x80]. *)
Definition extra (c : Z) : nat :=
  if c <? 128 then 0%nat
  else if Z.land c 224 =? 192 then 1%nat else if Z.land c 240 =? 224 then 2%nat else 3%nat.

Fixpoint offset_loop (fuel : nat) (s : list Z) (i : nat) (cp index : Z) : option (Z * Z) :=
  match fuel with
  | O => None
  | S f =>
      match s !! i with
      | None => None
      | Some c =>
          let next := (i + 1 + extra c)%nat in
          if cp =? index then Some (Z.of_nat i, Z.of_nat next)
          else offset_loop f s next (cp + 1) index
      end
  end.

Definition utf8_offset (t : Text) (index : Z) : option (Z * Z) :=
  if characters t <=? index then None
  else if ascii t then Some (index, index + 1)
  else offset_loop (length (data t)) (data t) 0 0 index.

(** ** Reference encoding *)

Definition scalar (c : Z) : Prop := 0 ≤ c ≤ 1114111 ∧ ¬ 55296 ≤ c ≤ 57343.

Definition encode (c : Z) : list Z :=
  if c <? 128 then [c]
  else if c <? 2048 then [192 + c / 64; 128 + c mod 64]
  else if c <? 65536 then [224 + c / 4096; 128 + c / 64 mod 64; 128 + c mod 64]
  else [240 + c / 262144; 128 + c / 4096 mod 64; 128 + c / 64 mod 64; 128 + c mod 64].

Definition encode_all (cps : list Z) : list Z := concat (encode <$> cps).

(** ** Bytes by exhaustion *)

Lemma byte_forall (P : Z → bool) :
  forallb P (seqZ 0 256) = true → ∀ b, is_byte b → P b = true.
Proof.
  intros H b Hb. rewrite List.forallb_forall in H. apply H.
  apply list_elem_of_In, elem_of_seqZ. unfold is_byte in Hb. lia.
Qed.

(** What the masks of the validator say about a byte. *)
Lemma byte_masks b :
  is_byte b →
  (Z.land b 224 =? 192) = ((192 <=? b) && (b <? 224)) ∧
  (Z.land b 240 =? 224) = ((224 <=? b) && (b <? 240)) ∧
  (Z.land b 248 =? 240) = ((240 <=? b) && (b <? 248)) ∧
  (Z.land b 192 =? 128) = ((128 <=? b) && (b <? 192)) ∧
  Z.land b 31 = b mod 32 ∧ Z.land b 15 = b mod 16 ∧ Z.land b 7 = b mod 8 ∧ Z.land b 63 = b mod 64.
Proof.
  intros Hb.
  assert (∀ P, forallb P (seqZ 0 256) = true → P b = true) as H
    by (intros P HP; by apply (byte_forall P HP)).
  split_and!.
  1-4: apply eqb_true_iff;
    match goal with |- eqb ?l ?r = true =>
      let f := eval pattern b in (eqb l r) in
      match f with ?g _ => apply (H g); by vm_compute end end.
  all: apply Z.eqb_eq;
    match goal with |- Z.eqb ?l ?r = true =>
      let f := eval pattern b in (Z.eqb l r) in
      match f with ?g _ => apply (H g); by vm_compute end end.
Qed.

Lemma shift_in c x : 0 ≤ c < 2 ^ 20 → 0 ≤ x < 64 → u32 (Z.lor (Z.shiftl c 6) x) = c * 64 + x.
Proof.
  intros Hc Hx. rewrite Z.shiftl_mul_pow2, lor_low by lia. change (2 ^ 6) with 64.
  apply u32_small. clia.
Qed.

(** ** The validator accepts exactly the encodings *)

Lemma continuation_step m c b s :
  is_byte b → 0 ≤ c < 2 ^ 20 →
  continuation (S m) c (b :: s) =
    if (128 <=? b) && (b <? 192) then continuation m (c * 64 + (b - 128)) s else None.
Proof.
  intros Hb Hc. cbn [continuation]. destruct (byte_masks b Hb) as (_ & _ & _ & -> & _ & _ & _ & ->).
  destruct ((128 <=? b) && (b <? 192)) eqn:E; [|done]. cbn [negb]. zbool.
  rewrite shift_in by (done || clia). do 2 f_equal. clia.
Qed.

Definition valid (c min : Z) : bool :=
  negb ((c <? min) || (1114111 <? c) || ((55296 <=? c) && (c <=? 57343))).

Lemma valid_scalar c min : 0 ≤ c → valid c min = true ↔ min ≤ c ∧ scalar c.
Proof. intros Hc. unfold valid, scalar. lia. Qed.

Definition is_cont (b : Z) : Prop := 128 ≤ b < 192.

Lemma is_cont_bool b : (128 <=? b) && (b <? 192) = true ↔ is_cont b.
Proof. unfold is_cont. lia. Qed.

(** The three multi-byte forms, as relations between bytes and code point. *)
Lemma sequence_1 c min s r :
  Forall is_byte s → 0 ≤ c < 32 →
  sequence 1 c min s = Some r ↔
  ∃ b1, s = b1 :: r ∧ is_cont b1 ∧ valid (c * 64 + (b1 - 128)) min = true.
Proof.
  intros Hs Hc. unfold sequence, valid. destruct Hs as [|b1 s Hb1 Hs]; [naive_solver|].
  rewrite bool_decide_false by (simpl; lia). rewrite continuation_step by (done || clia).
  destruct ((128 <=? b1) && (b1 <? 192)) eqn:E; cbn.
  - apply is_cont_bool in E. destruct (_ || _) eqn:V; (split; intros H).
    + done.
    + destruct H as (? & [= -> ->] & _ & H). by rewrite V in H.
    + injection H as ->. eexists. split_and!; [done..|]. by rewrite V.
    + by destruct H as (? & [= -> ->] & _ & H).
  - split; [done|]. intros (? & [= -> ->] & H%is_cont_bool & _). congruence.
Qed.

Lemma sequence_2 c min s r :
  Forall is_byte s → 0 ≤ c < 16 →
  sequence 2 c min s = Some r ↔
  ∃ b1 b2, s = b1 :: b2 :: r ∧ is_cont b1 ∧ is_cont b2 ∧
           valid ((c * 64 + (b1 - 128)) * 64 + (b2 - 128)) min = true.
Proof.
  intros Hs Hc. unfold sequence, valid.
  destruct Hs as [|b1 s Hb1 Hs]; [naive_solver|]. destruct Hs as [|b2 s Hb2 Hs]; [naive_solver|].
  rewrite bool_decide_false by (simpl; lia). rewrite continuation_step by (done || clia).
  destruct ((128 <=? b1) && (b1 <? 192)) eqn:E1; cbn -[continuation].
  2:{ split; [done|]. intros (? & ? & [= -> -> ->] & H%is_cont_bool & _). congruence. }
  apply is_cont_bool in E1. rewrite continuation_step by (done || unfold is_cont in *; clia).
  destruct ((128 <=? b2) && (b2 <? 192)) eqn:E2; cbn.
  - apply is_cont_bool in E2. destruct (_ || _) eqn:V; (split; intros H).
    + done.
    + destruct H as (? & ? & [= -> -> ->] & _ & _ & H). by rewrite V in H.
    + injection H as ->. eexists _, _. split_and!; [done..|]. by rewrite V.
    + by destruct H as (? & ? & [= -> -> ->] & _ & _ & H).
  - split; [done|]. intros (? & ? & [= -> -> ->] & _ & H%is_cont_bool & _). congruence.
Qed.

Lemma sequence_3 c min s r :
  Forall is_byte s → 0 ≤ c < 8 →
  sequence 3 c min s = Some r ↔
  ∃ b1 b2 b3, s = b1 :: b2 :: b3 :: r ∧ is_cont b1 ∧ is_cont b2 ∧ is_cont b3 ∧
           valid (((c * 64 + (b1 - 128)) * 64 + (b2 - 128)) * 64 + (b3 - 128)) min = true.
Proof.
  intros Hs Hc. unfold sequence, valid.
  destruct Hs as [|b1 s Hb1 Hs]; [naive_solver|]. destruct Hs as [|b2 s Hb2 Hs]; [naive_solver|].
  destruct Hs as [|b3 s Hb3 Hs]; [naive_solver|].
  rewrite bool_decide_false by (simpl; lia). rewrite continuation_step by (done || clia).
  destruct ((128 <=? b1) && (b1 <? 192)) eqn:E1; cbn -[continuation].
  2:{ split; [done|]. intros (? & ? & ? & [= -> -> -> ->] & H%is_cont_bool & _). congruence. }
  apply is_cont_bool in E1. rewrite continuation_step by (done || unfold is_cont in *; clia).
  destruct ((128 <=? b2) && (b2 <? 192)) eqn:E2; cbn -[continuation].
  2:{ split; [done|]. intros (? & ? & ? & [= -> -> -> ->] & _ & H%is_cont_bool & _). congruence. }
  apply is_cont_bool in E2. rewrite continuation_step by (done || unfold is_cont in *; clia).
  destruct ((128 <=? b3) && (b3 <? 192)) eqn:E3; cbn.
  - apply is_cont_bool in E3. destruct (_ || _) eqn:V; (split; intros H).
    + done.
    + destruct H as (? & ? & ? & [= -> -> -> ->] & _ & _ & _ & H). by rewrite V in H.
    + injection H as ->. eexists _, _, _. split_and!; [done..|]. by rewrite V.
    + by destruct H as (? & ? & ? & [= -> -> -> ->] & _ & _ & _ & H).
  - split; [done|]. intros (? & ? & ? & [= -> -> -> ->] & _ & _ & H%is_cont_bool & _). congruence.
Qed.

(** The reference encoding in the same relational form. *)
Lemma encode_1 c b : c < 128 → [b] = encode c ↔ b = c.
Proof. intros Hc. unfold encode. replace (c <? 128) with true by lia. naive_solver. Qed.

Ltac euclid := Z.to_euclidean_division_equations; lia.

Lemma encode_2 b0 b1 :
  192 ≤ b0 < 224 → is_cont b1 → let c := (b0 - 192) * 64 + (b1 - 128) in
  128 ≤ c → encode c = [b0; b1].
Proof.
  intros H0 H1 c Hc. unfold is_cont in *. unfold encode.
  replace (c <? 128) with false by lia. replace (c <? 2048) with true by lia.
  repeat f_equal; subst c; euclid.
Qed.

Lemma encode_3 b0 b1 b2 :
  224 ≤ b0 < 240 → is_cont b1 → is_cont b2 →
  let c := ((b0 - 224) * 64 + (b1 - 128)) * 64 + (b2 - 128) in
  2048 ≤ c → encode c = [b0; b1; b2].
Proof.
  intros H0 H1 H2 c Hc. unfold is_cont in *. unfold encode.
  replace (c <? 128) with false by lia. replace (c <? 2048) with false by lia.
  replace (c <? 65536) with true by lia. repeat f_equal; subst c; euclid.
Qed.

Lemma encode_4 b0 b1 b2 b3 :
  240 ≤ b0 < 248 → is_cont b1 → is_cont b2 → is_cont b3 →
  let c := (((b0 - 240) * 64 + (b1 - 128)) * 64 + (b2 - 128)) * 64 + (b3 - 128) in
  65536 ≤ c → encode c = [b0; b1; b2; b3].
Proof.
  intros H0 H1 H2 H3 c Hc. unfold is_cont in *. unfold encode.
  replace (c <? 128) with false by lia. replace (c <? 2048) with false by lia.
  replace (c <? 65536) with false by lia. repeat f_equal; subst c; euclid.
Qed.

(** One step of the validator reads exactly one encoded scalar value. *)
Lemma utf8_one_sound b s r :
  is_byte b → Forall is_byte s → utf8_one b s = Some r →
  ∃ c, scalar c ∧ b :: s = encode c ++ r.
Proof.
  intros Hb Hs. unfold utf8_one.
  destruct (byte_masks b Hb) as (-> & -> & -> & _ & -> & -> & -> & _). unfold is_byte in Hb.
  destruct (Z.ltb_spec b 128) as [Hlt|Hge].
  { intros [= ->]. exists b. split; [unfold scalar; lia|].
    change (b :: r) with ([b] ++ r). f_equal. by apply encode_1. }
  destruct (_ && _) eqn:E1 at 1.
  { assert (192 ≤ b < 224) as Hr by lia. replace (b mod 32) with (b - 192) by clia.
    intros (b1 & -> & C1 & V)%sequence_1; [|done|lia]. eexists. split.
    - apply valid_scalar in V; [by apply V|unfold is_cont in *; lia].
    - rewrite encode_2; try done. apply valid_scalar in V; unfold is_cont in *; lia. }
  destruct (_ && _) eqn:E2 at 1.
  { assert (224 ≤ b < 240) as Hr by lia. replace (b mod 16) with (b - 224) by clia.
    intros (b1 & b2 & -> & C1 & C2 & V)%sequence_2; [|done|lia]. eexists. split.
    - apply valid_scalar in V; [by apply V|unfold is_cont in *; lia].
    - rewrite encode_3; try done. apply valid_scalar in V; unfold is_cont in *; lia. }
  destruct (_ && _) eqn:E3 at 1; [|done].
  assert (240 ≤ b < 248) as Hr by lia. replace (b mod 8) with (b - 240) by clia.
  intros (b1 & b2 & b3 & -> & C1 & C2 & C3 & V)%sequence_3; [|done|lia]. eexists. split.
  - apply valid_scalar in V; [by apply V|unfold is_cont in *; lia].
  - rewrite encode_4; try done. apply valid_scalar in V; unfold is_cont in *; lia.
Qed.

(** The four shapes of the encoding of a scalar value. *)
Lemma encode_shape c :
  scalar c →
  (c < 128 ∧ encode c = [c]) ∨
  (∃ b0 b1, encode c = [b0; b1] ∧ 192 ≤ b0 < 224 ∧ is_cont b1 ∧ 128 ≤ c ∧
            c = (b0 - 192) * 64 + (b1 - 128)) ∨
  (∃ b0 b1 b2, encode c = [b0; b1; b2] ∧ 224 ≤ b0 < 240 ∧ is_cont b1 ∧ is_cont b2 ∧ 2048 ≤ c ∧
            c = ((b0 - 224) * 64 + (b1 - 128)) * 64 + (b2 - 128)) ∨
  (∃ b0 b1 b2 b3, encode c = [b0; b1; b2; b3] ∧ 240 ≤ b0 < 248 ∧
            is_cont b1 ∧ is_cont b2 ∧ is_cont b3 ∧ 65536 ≤ c ∧
            c = (((b0 - 240) * 64 + (b1 - 128)) * 64 + (b2 - 128)) * 64 + (b3 - 128)).
Proof.
  intros [Hc _]. unfold encode, is_cont.
  destruct (Z.ltb_spec c 128); [by left|right].
  destruct (Z.ltb_spec c 2048); [left|right].
  { eexists _, _. split; [done|]. euclid. }
  destruct (Z.ltb_spec c 65536); [left|right].
  { eexists _, _, _. split; [done|]. euclid. }
  eexists _, _, _, _. split; [done|]. euclid.
Qed.

Lemma encode_bytes c : scalar c → Forall is_byte (encode c).
Proof.
  intros Hc. pose proof Hc as [[??] _].
  destruct (encode_shape c Hc) as [[? ->]|[(?&?&->&?)|[(?&?&?&->&?)|(?&?&?&?&->&?)]]];
    unfold is_cont in *; repeat constructor; unfold is_byte; lia.
Qed.

Lemma utf8_one_complete c r :
  scalar c → Forall is_byte r →
  ∃ b s, encode c ++ r = b :: s ∧ (length r < length (b :: s))%nat ∧ utf8_one b s = Some r.
Proof.
  intros Hc Hr. pose proof (encode_bytes c Hc) as He. pose proof Hc as [[? _] _].
  destruct (encode_shape c Hc) as
    [[? E]|[(b0&b1&E&?&?&?&Hv)|[(b0&b1&b2&E&?&?&?&?&Hv)|(b0&b1&b2&b3&E&?&?&?&?&?&Hv)]]];
    rewrite E in *; (eexists _, _; split; [done|]; split; [simpl; lia|]); unfold utf8_one;
    inversion He as [|? ? Hb He']; subst x l;
    destruct (byte_masks _ Hb) as (-> & -> & -> & _ & -> & -> & -> & _); unfold is_byte in Hb.
  - by replace (c <? 128) with true by lia.
  - replace (b0 <? 128) with false by lia.
    replace ((192 <=? b0) && (b0 <? 224)) with true by lia.
    replace (b0 mod 32) with (b0 - 192) by clia.
    apply sequence_1; [by apply (Forall_app _ [b1])|lia|]. exists b1. split_and!; [done..|].
    apply valid_scalar; [lia|]. rewrite <- Hv. done.
  - replace (b0 <? 128) with false by lia.
    replace ((192 <=? b0) && (b0 <? 224)) with false by lia.
    replace ((224 <=? b0) && (b0 <? 240)) with true by lia.
    replace (b0 mod 16) with (b0 - 224) by clia.
    apply sequence_2; [by apply (Forall_app _ [b1; b2])|lia|]. exists b1, b2. split_and!; [done..|].
    apply valid_scalar; [lia|]. rewrite <- Hv. done.
  - replace (b0 <? 128) with false by lia.
    replace ((192 <=? b0) && (b0 <? 224)) with false by lia.
    replace ((224 <=? b0) && (b0 <? 240)) with false by lia.
    replace ((240 <=? b0) && (b0 <? 248)) with true by lia.
    replace (b0 mod 8) with (b0 - 240) by clia.
    apply sequence_3; [by apply (Forall_app _ [b1; b2; b3])|lia|].
    exists b1, b2, b3. split_and!; [done..|]. apply valid_scalar; [lia|]. rewrite <- Hv. done.
Qed.

Lemma encode_all_cons c cps : encode_all (c :: cps) = encode c ++ encode_all cps.
Proof. done. Qed.

Lemma encode_all_bytes cps : Forall scalar cps → Forall is_byte (encode_all cps).
Proof.
  induction 1 as [|c cps Hc _ IH]; [constructor|].
  rewrite encode_all_cons. apply Forall_app. split; [by apply encode_bytes|done].
Qed.

Lemma utf8_loop_spec fuel s :
  Forall is_byte s → (length s ≤ fuel)%nat →
  utf8_loop fuel s = true ↔ ∃ cps, Forall scalar cps ∧ s = encode_all cps.
Proof.
  revert s. induction fuel as [|f IH]; intros s Hs Hl; destruct Hs as [|b s Hb Hs];
    try (simpl in Hl; lia); try (split; [by exists []|done]).
  cbn [utf8_loop]. split.
  - destruct (utf8_one b s) as [r|] eqn:E; [|done]. intros Hr.
    destruct (utf8_one_sound b s r Hb Hs E) as (c & Hc & He).
    assert (Forall is_byte (encode c ++ r)) as Hall by (rewrite <- He; by constructor).
    apply Forall_app in Hall as [_ Hall].
    assert (length r ≤ f)%nat as Hlr.
    { apply (f_equal length) in He. rewrite length_app in He. simpl in He, Hl.
      destruct (encode_shape c Hc) as [[? E']|[(?&?&E'&?)|[(?&?&?&E'&?)|(?&?&?&?&E'&?)]]];
        rewrite E' in He; simpl in He; lia. }
    apply IH in Hr as (cps & Hcps & ->); [|done..].
    exists (c :: cps). split; [by constructor|]. by rewrite He.
  - intros (cps & Hcps & He). destruct Hcps as [|c cps Hc Hcps]; [done|].
    rewrite encode_all_cons in He.
    destruct (utf8_one_complete c (encode_all cps) Hc (encode_all_bytes _ Hcps))
      as (b' & s' & He' & Hlen & Hone).
    rewrite He' in He. injection He as -> ->. rewrite Hone.
    apply IH; [by apply encode_all_bytes|simpl in *; lia|by exists cps].
Qed.

Lemma utf8_spec s :
  Forall is_byte s → utf8 s = true ↔ ∃ cps, Forall scalar cps ∧ s = encode_all cps.
Proof. intros Hs. by apply utf8_loop_spec. Qed.

(** ** Counting and indexing code points *)

Lemma count_characters_app a b : count_characters (a ++ b) = count_characters a + count_characters b.
Proof. induction a; simpl; lia. Qed.

Lemma not_cont b : is_byte b → (Z.land b 192 =? 128) = true ↔ is_cont b.
Proof. intros Hb. destruct (byte_masks b Hb) as (_ & _ & _ & -> & _). apply is_cont_bool. Qed.

Lemma count_lead b : is_byte b → ¬ is_cont b → (Z.land b 192 =? 128) = false.
Proof. intros Hb Hn. apply not_true_is_false. by rewrite not_cont. Qed.

Lemma count_encode c : scalar c → count_characters (encode c) = 1.
Proof.
  intros Hc. pose proof Hc as [[??] _]. pose proof (encode_bytes c Hc) as He.
  destruct (encode_shape c Hc) as
    [[? E]|[(b0&b1&E&?&?&?&Hv)|[(b0&b1&b2&E&?&?&?&?&Hv)|(b0&b1&b2&b3&E&?&?&?&?&?&Hv)]]];
    rewrite E in *; decompose_Forall_hyps; cbn [count_characters];
    repeat match goal with
    | H : is_cont ?b |- context [Z.land ?b 192 =? 128] =>
        rewrite (proj2 (not_cont b ltac:(done)) H)
    | |- context [Z.land ?b 192 =? 128] =>
        rewrite (count_lead b) by (done || unfold is_cont; lia)
    end; lia.
Qed.

Lemma count_encode_all cps :
  Forall scalar cps → count_characters (encode_all cps) = Z.of_nat (length cps).
Proof.
  induction 1 as [|c cps Hc _ IH]; [done|].
  rewrite encode_all_cons, count_characters_app, IH, count_encode by done. simpl. lia.
Qed.

(** The lead byte tells the length of the sequence. *)
Lemma extra_encode c : scalar c → ∃ b s, encode c = b :: s ∧ extra b = length s.
Proof.
  intros Hc. pose proof Hc as [[??] _]. pose proof (encode_bytes c Hc) as He.
  destruct (encode_shape c Hc) as
    [[? E]|[(b0&b1&E&?&?&?&Hv)|[(b0&b1&b2&E&?&?&?&?&Hv)|(b0&b1&b2&b3&E&?&?&?&?&?&Hv)]]];
    rewrite E in *; (eexists _, _; split; [done|]); decompose_Forall_hyps; unfold extra;
    match goal with |- context [?b <? 128] =>
      destruct (byte_masks b ltac:(done)) as (-> & -> & _) end.
  - by replace (c <? 128) with true by lia.
  - replace (b0 <? 128) with false by lia. by replace ((192 <=? b0) && (b0 <? 224)) with true by lia.
  - replace (b0 <? 128) with false by lia. replace ((192 <=? b0) && (b0 <? 224)) with false by lia.
    by replace ((224 <=? b0) && (b0 <? 240)) with true by lia.
  - replace (b0 <? 128) with false by lia. replace ((192 <=? b0) && (b0 <? 224)) with false by lia.
    by replace ((224 <=? b0) && (b0 <? 240)) with false by lia.
Qed.

Lemma offset_loop_spec fuel s i cps k c cp :
  Forall scalar cps → drop i s = encode_all cps → (i ≤ length s)%nat →
  cps !! k = Some c → (k < fuel)%nat →
  let start := Z.of_nat (i + length (encode_all (take k cps))) in
  offset_loop fuel s i cp (cp + Z.of_nat k) = Some (start, start + Z.of_nat (length (encode c))).
Proof.
  intros Hcps. revert fuel i cp k. induction Hcps as [|d cps Hd Hcps IH];
    intros fuel i cp k Hs Hi Hk Hf; [done|].
  destruct fuel as [|fuel]; [lia|]. destruct (extra_encode d Hd) as (b & t & Ed & Eb).
  rewrite encode_all_cons, Ed in Hs. simpl in Hs.
  assert (s !! i = Some b) as Hb.
  { rewrite <- (Nat.add_0_r i), <- lookup_drop, Hs. done. }
  cbn [offset_loop]. rewrite Hb, Eb. destruct k as [|k].
  - injection Hk as ->. rewrite Z.add_0_r, Z.eqb_refl. simpl. rewrite Ed. simpl.
    do 2 f_equal; lia.
  - replace (cp =? cp + Z.of_nat (S k)) with false by (symmetry; apply Z.eqb_neq; lia).
    replace (cp + Z.of_nat (S k)) with (cp + 1 + Z.of_nat k) by lia.
    assert (drop (i + 1 + length t) s = encode_all cps) as Hd'.
    { rewrite <- drop_drop, <- drop_drop, Hs. simpl. rewrite drop_0. by rewrite drop_app_length. }
    assert (i + 1 + length t ≤ length s)%nat as Hi'.
    { apply (f_equal length) in Hs. rewrite length_drop in Hs. simpl in Hs.
      rewrite length_app in Hs. lia. }
    rewrite (IH fuel _ (cp + 1) k) by (done || lia). cbn [take]. rewrite encode_all_cons, Ed.
    rewrite length_app. simpl. do 2 f_equal; lia.
Qed.

Lemma all_ascii_encode cps :
  Forall scalar cps → all_ascii (encode_all cps) = true → encode_all cps = cps.
Proof.
  unfold all_ascii. induction 1 as [|c cps Hc _ IH]; [done|].
  rewrite encode_all_cons, forallb_app, andb_true_iff. intros [H1 H2]. rewrite IH by done.
  pose proof Hc as [[??] _].
  destruct (encode_shape c Hc) as [[? ->]|[(?&?&E&?)|[(?&?&?&E&?)|(?&?&?&?&E&?)]]]; [done|..];
    rewrite E in H1; simpl in H1; lia.
Qed.

Lemma encode_length_pos cps : Forall scalar cps → (length cps ≤ length (encode_all cps))%nat.
Proof.
  induction 1 as [|c cps Hc _ IH]; [done|]. rewrite encode_all_cons, length_app.
  destruct (extra_encode c Hc) as (b & t & -> & _). simpl. lia.
Qed.

(** The byte range of the code point at [k]. *)
Definition span (cps : list Z) (k : nat) : Z * Z :=
  let start := Z.of_nat (length (encode_all (take k cps))) in
  (start, start + Z.of_nat (length (encode (default 0 (cps !! k))))).

Lemma utf8_offset_spec cps k :
  Forall scalar cps →
  utf8_offset (text_of (encode_all cps)) (Z.of_nat k) =
    if decide (k < length cps)%nat then Some (span cps k) else None.
Proof.
  intros Hcps. unfold utf8_offset, text_of. cbn [characters ascii data].
  rewrite count_encode_all by done. case_decide as Hk.
  2:{ by replace (Z.of_nat (length cps) <=? Z.of_nat k) with true by lia. }
  replace (Z.of_nat (length cps) <=? Z.of_nat k) with false by lia.
  destruct (lookup_lt_is_Some_2 cps k Hk) as [c Hc].
  unfold span. rewrite Hc. change (default 0 (Some c)) with c.
  destruct (all_ascii (encode_all cps)) eqn:Ha.
  - pose proof (all_ascii_encode cps Hcps Ha) as He.
    assert (all_ascii (encode_all (take k cps)) = true ∧ encode c = [c]) as [Ht Hec].
    { rewrite <- (take_drop_middle cps k c Hc) in Ha. unfold encode_all in Ha.
      rewrite fmap_app, fmap_cons, concat_app in Ha. unfold all_ascii in Ha.
      cbn [concat] in Ha. rewrite !forallb_app, !andb_true_iff in Ha. destruct Ha as (? & Hb & _).
      split; [done|]. pose proof (Forall_lookup_1 _ _ _ _ Hcps Hc) as Hs.
      pose proof (all_ascii_encode [c] (Forall_cons_2 _ _ _ Hs (Forall_nil_2 _))) as He1.
      unfold encode_all in He1. simpl in He1. rewrite app_nil_r in He1. by apply He1. }
    rewrite (all_ascii_encode (take k cps)) by (done || by apply Forall_take).
    rewrite Hec, length_take. simpl. do 2 f_equal; lia.
  - pose proof (offset_loop_spec (length (encode_all cps)) (encode_all cps) 0 cps k c 0) as H.
    rewrite Z.add_0_l in H. apply H; try done; [lia|].
    pose proof (encode_length_pos cps Hcps). lia.
Qed.

(** The bytes of the range are the encoding of the code point. *)
Lemma span_slice cps k c :
  cps !! k = Some c →
  take (length (encode c)) (drop (length (encode_all (take k cps))) (encode_all cps)) = encode c.
Proof.
  intros Hc. rewrite <- (take_drop_middle cps k c Hc) at 2.
  unfold encode_all. rewrite fmap_app, fmap_cons, concat_app. cbn [concat].
  by rewrite drop_app_length, take_app_length.
Qed.

(** ** What the text primitives promise *)

(** C21: the validator accepts exactly the byte strings that are the UTF-8 encoding
    of a sequence of Unicode scalar values: overlong forms, surrogates, values
    above 10FFFF, stray continuation bytes and truncated sequences are refused. *)
Theorem utf8_accepts_encodings s :
  Forall is_byte s → utf8 s = true ↔ ∃ cps, Forall scalar cps ∧ s = encode_all cps.
Proof. apply utf8_spec. Qed.

Lemma utf8_accepts_encodings_witness :
  utf8 (encode_all [233; 8364; 128512]) = true ∧
  utf8 [237; 160; 128] = false ∧ utf8 [192; 128] = false ∧
  ¬ ∃ cps, Forall scalar cps ∧ [192; 128] = encode_all cps.
Proof.
  split_and!; [by vm_compute..|].
  rewrite <- (utf8_accepts_encodings [192; 128]); [by vm_compute|].
  repeat constructor; unfold is_byte; lia.
Defined.

(** For every valid string and index, [utf8_offset] fails exactly when the
    index is not below the number of code points, and otherwise returns the
    bounds of the bytes that encode that code point; the constant-time ASCII
    path and the scan agree. *)
Theorem utf8_offset_code_point cps k :
  Forall scalar cps →
  match utf8_offset (text_of (encode_all cps)) (Z.of_nat k) with
  | None => (length cps ≤ k)%nat
  | Some (start, stop) =>
      ∃ c, cps !! k = Some c ∧ 0 ≤ start ≤ stop ∧
           take (Z.to_nat (stop - start)) (drop (Z.to_nat start) (encode_all cps)) = encode c
  end.
Proof.
  intros Hcps. rewrite utf8_offset_spec by done. case_decide as Hk; [|lia].
  destruct (lookup_lt_is_Some_2 cps k Hk) as [c Hc]. unfold span. rewrite Hc. change (default 0 (Some c)) with c.
  exists c. split; [done|]. split; [lia|].
  rewrite Nat2Z.id, Z.add_simpl_l, Nat2Z.id. by apply span_slice.
Qed.

Lemma utf8_offset_code_point_witness :
  match utf8_offset (text_of (encode_all [97; 8364; 98])) 2 with
  | None => (3 ≤ 2)%nat
  | Some (start, stop) =>
      ∃ c, [97; 8364; 98] !! 2%nat = Some c ∧ 0 ≤ start ≤ stop ∧
           take (Z.to_nat (stop - start))
             (drop (Z.to_nat start) (encode_all [97; 8364; 98])) = encode c
  end.
Proof.
  apply (utf8_offset_code_point [97; 8364; 98] 2).
  repeat constructor; unfold scalar; lia.
Defined.
