(* ===== verification/Program.v ===== *)
(** * Decoded programs: src/src/vm/program.h and program.c

    Instructions, functions and programs, and the lookup of a function by name:
    linear for unverified programs, by binary search once verification has
    established the order of the names. *)

From Stdlib Require Import ZArith Lia.
From stdpp Require Import prelude gmap strings.
From S2P Require Import Prelude Bigint Value.

(** ** Data *)

(** A constant, by the tags 0 to 5 of its wire form.  A decimal keeps its wire
    sign beside the coefficient, which cannot carry the sign of zero. *)
Inductive Constant :=
| CNat (number : PnBigInt)
| CInt (number : PnBigInt)
| CDec (negative : bool) (exponent : Z) (number : PnBigInt)
| CText (text : list Z)
| CBool (boolean : bool)
| CVoid.

(** An instruction with the operands its opcode uses.  Names are the bytes read
    from the artifact, used as C strings. *)
Inductive Instruction :=
| OP_CONST (constant : Constant)
| OP_LOAD (name : list Z)
| OP_STORE (name : list Z)
| OP_POP
| OP_UNARY (code : Z)
| OP_BINARY (code : Z)
| OP_MAKE_RANGE
| OP_MAKE_ARRAY (count : nat)
| OP_INDEX_GET
| OP_INTERPOLATE (items : list (list Z))
| OP_ITER_INIT (name : list Z)
| OP_ITER_NEXT (name name2 : list Z) (target : nat)
| OP_MAKE_RECORD (name : list Z) (items : list (list Z))
| OP_FIELD_GET (name : list Z)
| OP_MAKE_VARIANT (name name2 : list Z) (count : nat)
| OP_MATCH_VARIANT (name : list Z) (target : nat)
| OP_MATCH_FAIL
| OP_CALL (name : list Z) (arity : nat)
| OP_JUMP_FALSE (target : nat)
| OP_JUMP (target : nat)
| OP_RETURN
| OP_CALL_VALUE (arity : nat)
| OP_AWAIT_CALL (name : list Z) (arity : nat)
| OP_AWAIT_VALUE (arity : nat).

Record Function := mkFunction {
  fname : list Z;
  pure : bool;
  is_async : bool;
  local_effect : bool;
  params : list (list Z);
  ins : list Instruction;
}.

Record Program := mkProgram {
  functions : list Function;
  verified_function_order : bool;
}.

(** ** Lookup *)

(** The loop of the binary search; the interval shrinks at every iteration, so
    the number of functions bounds them. *)
Fixpoint bsearch (fuel : nat) (fs : list Function) (name : list Z) (low high : nat) : option nat :=
  if Nat.ltb low high then
    match fuel with
    | O => None
    | S f =>
        let middle := (low + (high - low) / 2)%nat in
        match fs !! middle with
        | None => None
        | Some g =>
            let order := strcmp name (fname g) in
            if order =? 0 then Some middle
            else if order <? 0 then bsearch f fs name low middle
            else bsearch f fs name (middle + 1) high
        end
    end
  else None.

(** [for (i = 0; i < count; i++) if (!strcmp(...)) return &functions[i]] *)
Fixpoint linear (fs : list Function) (name : list Z) (i : nat) : option nat :=
  match fs with
  | [] => None
  | g :: fs' => if streq name (fname g) then Some i else linear fs' name (S i)
  end.

(** The index of the function found. *)
Definition program_function (p : Program) (name : list Z) : option nat :=
  if verified_function_order p
  then bsearch (length (functions p)) (functions p) name 0 (length (functions p))
  else linear (functions p) name 0.

(** ** Order of the names *)

Definition sorted_functions (fs : list Function) : Prop :=
  ∀ i f g, fs !! i = Some f → fs !! S i = Some g → strcmp (fname f) (fname g) = -1.

Definition byte_names (fs : list Function) : Prop := Forall (λ f, Forall is_byte (fname f)) fs.

Lemma strcmp_cstr a b : Forall is_byte a → strcmp a b = strcmp a (cstr b).
Proof.
  intros Ha. revert b. induction Ha as [|x a Hx Ha IH]; intros [|y b]; simpl; try done.
  - destruct (Z.eqb_spec y 0) as [->|Hy]; [done|]. simpl. by destruct (Z.eqb_spec y 0).
  - destruct (Z.eqb_spec y 0) as [->|Hy]; [|by rewrite IH].
    destruct (Z.eqb_spec x 0) as [|Hx0]; [done|]. unfold is_byte in Hx.
    by destruct (Z.ltb_spec x 0); [lia|].
Qed.

Lemma strcmp_cstr_r a b c : Forall is_byte a → cstr b = cstr c → strcmp a b = strcmp a c.
Proof. intros Ha H. rewrite (strcmp_cstr a b), (strcmp_cstr a c) by done. by rewrite H. Qed.

Lemma streq_true a b : streq a b = true ↔ cstr a = cstr b.
Proof. rewrite streq_cstr. apply bool_decide_eq_true. Qed.

Lemma sorted_lt fs i j f g :
  sorted_functions fs → byte_names fs → (i < j)%nat →
  fs !! i = Some f → fs !! j = Some g → strcmp (fname f) (fname g) = -1.
Proof.
  intros Hs Hb Hij Hf. revert g. induction Hij as [|j Hij IH]; intros g Hg; [by eapply Hs|].
  destruct (lookup_lt_is_Some_2 fs j) as [h Hh].
  { apply lookup_lt_Some in Hg. lia. }
  assert (∀ k x, fs !! k = Some x → Forall is_byte (fname x)) as Hx
    by (intros k x; by apply (Forall_lookup_1 _ _ _ _ Hb)).
  apply (strcmp_trans _ (fname h)); eauto.
Qed.

Lemma linear_spec fs name i :
  match linear fs name i with
  | Some k => (i ≤ k)%nat ∧ ∃ f, fs !! (k - i)%nat = Some f ∧ streq name (fname f) = true ∧
              ∀ j g, (j < k - i)%nat → fs !! j = Some g → streq name (fname g) = false
  | None => ∀ j g, fs !! j = Some g → streq name (fname g) = false
  end.
Proof.
  revert i. induction fs as [|f fs IH]; intros i; simpl; [done|].
  destruct (streq name (fname f)) eqn:E.
  - split; [done|]. exists f. rewrite Nat.sub_diag. split_and!; [done..|lia].
  - specialize (IH (S i)). destruct (linear fs name (S i)) as [k|].
    + destruct IH as (Hk & g & Hg & Hn & Hb). split; [lia|]. exists g.
      replace (k - i)%nat with (S (k - S i)) by lia. split_and!; [done..|].
      intros [|j] h Hj Hh; [by simplify_eq/=|]. apply (Hb j h); [lia|done].
    + intros [|j] g Hg; [by simplify_eq/=|by apply (IH j)].
Qed.

(** A function that matches inside the interval is found; nothing else is. *)
Lemma bsearch_spec fuel fs name low high :
  sorted_functions fs → byte_names fs → (high ≤ length fs)%nat → (high - low ≤ fuel)%nat →
  match bsearch fuel fs name low high with
  | Some k => (low ≤ k < high)%nat ∧ ∃ f, fs !! k = Some f ∧ streq name (fname f) = true
  | None => ∀ k f, (low ≤ k < high)%nat → fs !! k = Some f → streq name (fname f) = false
  end.
Proof.
  intros Hs Hb. revert low high. induction fuel as [|n IH]; intros low high Hh Hf;
    cbn [bsearch]; (destruct (Nat.ltb_spec low high); [|intros k f Hk; lia]); [lia|].
  assert ((high - low) / 2 < high - low)%nat as Hdiv by (apply Nat.div_lt; lia).
  set (middle := (low + (high - low) / 2)%nat) in *.
  destruct (lookup_lt_is_Some_2 fs middle) as [g Hg]; [lia|]. rewrite Hg.
  destruct (Z.eqb_spec (strcmp name (fname g)) 0) as [H0|H0].
  { split; [lia|]. exists g. split; [done|]. unfold streq. by rewrite H0. }
  assert (∀ k f, fs !! k = Some f → streq name (fname f) = true →
            strcmp name (fname g) = strcmp (fname f) (fname g)) as Hcong.
  { intros k f Hk He%streq_true. rewrite (strcmp_sym _ name), (strcmp_sym _ (fname f)).
    rewrite (strcmp_cstr_r (fname g) _ _ (Forall_lookup_1 _ _ _ _ Hb Hg) He). done. }
  pose proof (strcmp_range name (fname g)) as Hr.
  destruct (Z.ltb_spec (strcmp name (fname g)) 0) as [Hlt|Hge].
  - specialize (IH low middle ltac:(lia) ltac:(lia)).
    destruct (bsearch n fs name low middle) as [k|]; [destruct IH; split; [lia|done]|].
    intros k f Hk Hkf. destruct (decide (k < middle)%nat); [by apply (IH k); [lia|]|].
    apply not_true_is_false. intros He. pose proof (Hcong k f Hkf He) as Hc.
    destruct (decide (k = middle)) as [->|].
    + simplify_eq. rewrite strcmp_refl in Hc. lia.
    + pose proof (sorted_lt fs middle k g f Hs Hb ltac:(lia) Hg Hkf) as Hsl.
      rewrite (strcmp_sym (fname g) (fname f)) in Hc. lia.
  - specialize (IH (middle + 1)%nat high ltac:(lia) ltac:(lia)).
    destruct (bsearch n fs name (middle + 1) high) as [k|]; [destruct IH; split; [lia|done]|].
    intros k f Hk Hkf. destruct (decide (middle < k)%nat); [by apply (IH k); [lia|]|].
    apply not_true_is_false. intros He. pose proof (Hcong k f Hkf He) as Hc.
    destruct (decide (k = middle)) as [->|].
    + simplify_eq. rewrite strcmp_refl in Hc. lia.
    + pose proof (sorted_lt fs k middle f g Hs Hb ltac:(lia) Hkf Hg) as Hsl. lia.
Qed.

(** In a sorted program a name occurs once. *)
Lemma sorted_unique fs i j f g name :
  sorted_functions fs → byte_names fs → fs !! i = Some f → fs !! j = Some g →
  streq name (fname f) = true → streq name (fname g) = true → i = j.
Proof.
  intros Hs Hb Hf Hg Ef%streq_true Eg%streq_true.
  assert (cstr (fname f) = cstr (fname g)) as He by congruence.
  destruct (decide (i < j)%nat) as [H|H].
  { pose proof (sorted_lt fs i j f g Hs Hb H Hf Hg) as Hl.
    rewrite <- (strcmp_cstr_r _ _ _ (Forall_lookup_1 _ _ _ _ Hb Hf) He), strcmp_refl in Hl. lia. }
  destruct (decide (j < i)%nat) as [H'|H']; [|lia].
  pose proof (sorted_lt fs j i g f Hs Hb H' Hg Hf) as Hl.
  rewrite (strcmp_cstr_r _ _ _ (Forall_lookup_1 _ _ _ _ Hb Hg) He), strcmp_refl in Hl. lia.
Qed.

Lemma bsearch_linear fs name :
  sorted_functions fs → byte_names fs →
  bsearch (length fs) fs name 0 (length fs) = linear fs name 0.
Proof.
  intros Hs Hb. pose proof (bsearch_spec (length fs) fs name 0 (length fs) Hs Hb) as H1.
  specialize (H1 ltac:(lia) ltac:(lia)). pose proof (linear_spec fs name 0) as H2.
  destruct (bsearch _ _ _ _ _) as [k|], (linear fs name 0) as [l|].
  - destruct H1 as (_ & f & Hf & Ef), H2 as (_ & g & Hg & Eg & _). rewrite Nat.sub_0_r in Hg.
    f_equal. by eapply sorted_unique.
  - destruct H1 as (_ & f & Hf & Ef). by rewrite (H2 k f Hf) in Ef.
  - destruct H2 as (_ & g & Hg & Eg & _). rewrite Nat.sub_0_r in Hg.
    rewrite (H1 l g) in Eg; [done| |done]. apply lookup_lt_Some in Hg. lia.
  - done.
Qed.

(** What lookup promises to its callers, for verified and unverified programs. *)
Lemma program_function_spec p name :
  (verified_function_order p = true → sorted_functions (functions p) ∧ byte_names (functions p)) →
  match program_function p name with
  | Some k => ∃ f, functions p !! k = Some f ∧ streq name (fname f) = true
  | None => ∀ k f, functions p !! k = Some f → streq name (fname f) = false
  end.
Proof.
  intros Hv. unfold program_function.
  replace (if verified_function_order p then _ else _) with (linear (functions p) name 0).
  2:{ destruct (verified_function_order p); [|done]. destruct Hv; [done|]. by rewrite bsearch_linear. }
  pose proof (linear_spec (functions p) name 0) as H.
  destruct (linear (functions p) name 0) as [k|]; [|done].
  destruct H as (_ & f & Hf & Ef & _). exists f. by rewrite Nat.sub_0_r in Hf.
Qed.

(** Once verification has established the strict order of the names, the
    binary search returns exactly the function the linear scan returns, and
    terminates within the number of functions. *)
Theorem lookup_equivalence fs name :
  sorted_functions fs → byte_names fs →
  program_function (mkProgram fs true) name = program_function (mkProgram fs false) name.
Proof. intros Hs Hb. unfold program_function. simpl. by apply bsearch_linear. Qed.

Definition sample_function (s : string) : Function :=
  mkFunction (str s) false false false [] [OP_RETURN].

Lemma lookup_equivalence_witness :
  let fs := [sample_function "area"; sample_function "main"; sample_function "main2";
             sample_function "zoom"] in
  program_function (mkProgram fs true) (str "main2") = Some 2%nat ∧
  program_function (mkProgram fs true) (str "main2") =
  program_function (mkProgram fs false) (str "main2").
Proof.
  intros fs. split; [by vm_compute|]. apply (lookup_equivalence fs (str "main2")).
  - intros [|[|[|[|i]]]] f g Hf Hg; simplify_eq/=; reflexivity.
  - apply (bool_decide_unpack _). vm_compute. exact I.
Defined.
