(* ===== verification/Decode.v ===== *)
(** * Bytecode decoding: src/src/vm/decode.c

    The reader of version 9 artifacts.  A [Reader] is the list of the bytes not
    yet consumed.  Every failing read records the first diagnostic and makes
    every caller return, so a diagnostic is a [Trap] and a refused allocation
    ("out of memory") is [NoMem]. *)

From Stdlib Require Import ZArith Lia.
From stdpp Require Import prelude gmap strings.
From S2P Require Import Prelude Bigint Digits Value Utf8 Program.

Definition MAX_ARTIFACT : Z := 16 * 1024 * 1024.
Definition MAX_FUNCTIONS : Z := 4096.
Definition MAX_INSTRUCTIONS : Z := 4000000.
Definition MAX_NAME : Z := 1024.
Definition MAX_TEXT : Z := 1024 * 1024.
Definition MAX_DIGITS : Z := 4096.

(** ** Operations *)

Definition Reader := list Z.

(** [fail(r, message); return false] *)
Definition fail {A} (message : string) : M A := trap VM_FAULT_FATAL message.

Definition take_bytes (r : Reader) (n : nat) : M (list Z * Reader) :=
  if bool_decide (length r < n)%nat then fail "truncated data"
  else mret (take n r, drop n r).

Definition read_u8 (r : Reader) : M (Z * Reader) :=
  '(p, r) ← take_bytes r 1;
  p0 ← rd p 0;
  mret (p0, r).

Definition read_u16 (r : Reader) : M (Z * Reader) :=
  '(p, r) ← take_bytes r 2;
  p0 ← rd p 0; p1 ← rd p 1;
  mret (u16 (Z.lor (Z.shiftl p0 8) p1), r).

Definition read_u32 (r : Reader) : M (Z * Reader) :=
  '(p, r) ← take_bytes r 4;
  p0 ← rd p 0; p1 ← rd p 1; p2 ← rd p 2; p3 ← rd p 3;
  mret (Z.lor (Z.lor (Z.lor (u32 (Z.shiftl p0 24)) (u32 (Z.shiftl p1 16)))
                     (u32 (Z.shiftl p2 8))) p3, r).

(** The bytes of [text], once its length is known. *)
Definition text_bytes (r : Reader) (n : nat) : M (list Z * Reader) :=
  '(p, r) ← take_bytes r n;
  if negb (utf8 p) then fail "invalid UTF-8"
  else _ ← alloc; mret (p, r).

Definition text (r : Reader) (name : bool) : M (list Z * Reader) :=
  if name then
    '(n, r) ← read_u16 r;
    if MAX_NAME <? n then fail "name exceeds limit" else text_bytes r (Z.to_nat n)
  else
    '(n, r) ← read_u32 r;
    if MAX_TEXT <? n then fail "text exceeds limit" else text_bytes r (Z.to_nat n).

Definition read_name (r : Reader) : M (list Z * Reader) := text r true.
Definition read_text (r : Reader) : M (list Z * Reader) := text r false.

Definition max_bytes : Z := (MAX_DIGITS * 3322 + 7999) / 8000.

Definition read_nat (r : Reader) : M (PnBigInt * Reader) :=
  '(n, r) ← read_u16 r;
  if max_bytes <? n then fail "integer exceeds digit limit"
  else
    '(p, r) ← take_bytes r (Z.to_nat n);
    if bool_decide (head p = Some 0) then fail "non-minimal integer"
    else
      out ← pn_big_from_bytes p;
      digits ← pn_big_string out;
      if MAX_DIGITS <? Z.of_nat (strlen digits) then fail "integer exceeds digit limit"
      else mret (out, r).

(** [for (i = digits - n; i < digits; i++)]: unpack the digits two to a byte. *)
Fixpoint unpack (n : nat) (i : nat) (p : list Z) : M (list Z) :=
  match n with
  | O => mret []
  | S m =>
      b ← rd p (i / 2);
      let d := if Nat.odd i then Z.land b 15 else Z.shiftr b 4 in
      if 9 <? d then fail "invalid decimal digit"
      else rest ← unpack m (S i) p; mret ((48 + d) :: rest)
  end.

Definition read_decimal (r : Reader) : M (Constant * Reader) :=
  '(sign, r) ← read_u8 r;
  '(ex, r) ← read_u16 r;
  '(digits, r) ← read_u16 r;
  let exponent := s16 ex in
  if (1 <? sign) || (digits =? 0) || (4096 <? exponent) || (exponent <? -4096) ||
     (MAX_DIGITS <? digits)
  then fail "invalid decimal"
  else
    let bytes := (digits + 1) / 2 in
    '(p, r) ← take_bytes r (Z.to_nat bytes);
    _ ← alloc;
    value ← unpack (Z.to_nat digits) 0 p;
    last ← rd p (Z.to_nat (bytes - 1));
    if Z.odd digits && negb (Z.land last 15 =? 15) then fail "invalid decimal padding"
    else if (1 <? digits) && bool_decide (head value = Some 48)
    then fail "non-minimal decimal coefficient"
    else
      number ← pn_big_from_digits value (if sign =? 0 then 1 else -1);
      mret (CDec (negb (sign =? 0)) exponent number, r).

Definition read_constant (r : Reader) : M (Constant * Reader) :=
  '(tag, r) ← read_u8 r;
  if tag =? 0 then '(n, r) ← read_nat r; mret (CNat n, r)
  else if tag =? 1 then
    '(sign, r) ← read_u8 r;
    if 1 <? sign then fail "invalid integer sign"
    else
      '(n, r) ← read_nat r;
      if negb (sign =? 0) && pn_big_is_zero n then fail "negative zero integer"
      else mret (CInt (if sign =? 0 then n else set_sign n (-1)), r)
  else if tag =? 2 then read_decimal r
  else if tag =? 3 then '(t, r) ← read_text r; mret (CText t, r)
  else if tag =? 4 then
    '(b, r) ← read_u8 r;
    if 1 <? b then fail "invalid Bool constant" else mret (CBool (negb (b =? 0)), r)
  else if tag =? 5 then mret (CVoid, r)
  else fail "unknown constant tag".

(** The loop shared by [strings], the parameters and the instructions. *)
Fixpoint read_list {A} (read : Reader → M (A * Reader)) (n : nat) (r : Reader) : M (list A * Reader) :=
  match n with
  | O => mret ([], r)
  | S m =>
      '(x, r) ← read r;
      '(l, r) ← read_list read m r;
      mret (x :: l, r)
  end.

Definition read_strings (count : nat) (names : bool) (r : Reader) : M (list (list Z) * Reader) :=
  _ ← calloc_items count;
  read_list (if names then read_name else read_text) count r.

Definition instruction (r : Reader) : M (Instruction * Reader) :=
  '(op, r) ← read_u8 r;
  match op with
  | 0 => '(c, r) ← read_constant r; mret (OP_CONST c, r)
  | 1 => '(n, r) ← read_name r; mret (OP_LOAD n, r)
  | 2 => '(n, r) ← read_name r; mret (OP_STORE n, r)
  | 3 => mret (OP_POP, r)
  | 4 => '(c, r) ← read_u8 r;
         if 1 <? c then fail "unknown unary operator" else mret (OP_UNARY c, r)
  | 5 => '(c, r) ← read_u8 r;
         if 12 <? c then fail "unknown binary operator" else mret (OP_BINARY c, r)
  | 6 => mret (OP_MAKE_RANGE, r)
  | 7 => '(n, r) ← read_u16 r; mret (OP_MAKE_ARRAY (Z.to_nat n), r)
  | 8 => mret (OP_INDEX_GET, r)
  | 9 => '(n, r) ← read_u16 r;
         '(l, r) ← read_strings (Z.to_nat n) false r;
         mret (OP_INTERPOLATE l, r)
  | 10 => '(n, r) ← read_name r; mret (OP_ITER_INIT n, r)
  | 11 => '(n, r) ← read_name r; '(m, r) ← read_name r;
          '(t, r) ← read_u32 r; mret (OP_ITER_NEXT n m (Z.to_nat t), r)
  | 12 => '(n, r) ← read_name r;
          '(c, r) ← read_u16 r;
          '(l, r) ← read_strings (Z.to_nat c) true r;
          mret (OP_MAKE_RECORD n l, r)
  | 13 => '(n, r) ← read_name r; mret (OP_FIELD_GET n, r)
  | 14 => '(n, r) ← read_name r; '(m, r) ← read_name r;
          '(c, r) ← read_u16 r; mret (OP_MAKE_VARIANT n m (Z.to_nat c), r)
  | 15 => '(n, r) ← read_name r; '(t, r) ← read_u32 r; mret (OP_MATCH_VARIANT n (Z.to_nat t), r)
  | 16 => mret (OP_MATCH_FAIL, r)
  | 17 => '(n, r) ← read_name r; '(a, r) ← read_u8 r; mret (OP_CALL n (Z.to_nat a), r)
  | 18 => '(t, r) ← read_u32 r; mret (OP_JUMP_FALSE (Z.to_nat t), r)
  | 19 => '(t, r) ← read_u32 r; mret (OP_JUMP (Z.to_nat t), r)
  | 20 => mret (OP_RETURN, r)
  | 21 => '(a, r) ← read_u8 r; mret (OP_CALL_VALUE (Z.to_nat a), r)
  | 22 => '(n, r) ← read_name r; '(a, r) ← read_u8 r; mret (OP_AWAIT_CALL n (Z.to_nat a), r)
  | 23 => '(a, r) ← read_u8 r; mret (OP_AWAIT_VALUE (Z.to_nat a), r)
  | _ => fail "unknown bytecode opcode"
  end.

(** One iteration of the loop over functions; [total] counts instructions. *)
Definition read_function (r : Reader) (total : Z) : M (Function * Reader) :=
  '(name, r) ← read_name r;
  '(flags, r) ← read_u8 r;
  if 2 <? flags then fail "invalid function flags"
  else
    '(count, r) ← read_u8 r;
    _ ← calloc_items (Z.to_nat count);
    '(ps, r) ← read_list read_name (Z.to_nat count) r;
    '(n, r) ← read_u32 r;
    if (1000000 <? n) || (MAX_INSTRUCTIONS <? total + n)
    then fail "instruction count exceeds limit"
    else
      _ ← calloc_items (Z.to_nat n);
      '(code, r) ← read_list instruction (Z.to_nat n) r;
      mret (mkFunction name (flags =? 1) (flags =? 2) false ps code, r).

Fixpoint read_functions (n : nat) (r : Reader) (total : Z) : M (list Function * Reader) :=
  match n with
  | O => mret ([], r)
  | S m =>
      '(f, r) ← read_function r total;
      '(fs, r) ← read_functions m r (total + Z.of_nat (length (ins f)));
      mret (f :: fs, r)
  end.

Definition magic : list Z := str "PANACKBC" ++ [0].

Definition decode (data : list Z) : M Program :=
  if MAX_ARTIFACT <? Z.of_nat (length data) then fail "artifact exceeds size limit"
  else if bool_decide (length data < 9)%nat || negb (memcmp (take 9 data) magic =? 0)
  then fail "not a Panackelty bytecode file"
  else
    '(version, r) ← read_u16 (drop 9 data);
    if negb (version =? 9) then fail "unsupported bytecode version"
    else
      '(count, r) ← read_u16 r;
      if MAX_FUNCTIONS <? count then fail "function count exceeds limit"
      else
        _ ← calloc_items (Z.to_nat count);
        '(fs, r) ← read_functions (Z.to_nat count) r 0;
        if bool_decide (r = []) then mret (mkProgram fs false)
        else fail "trailing data".

(** ** The wire format, as an encoder *)

Definition enc_u8 (n : Z) : list Z := [n].
Definition enc_u16 (n : Z) : list Z := [n / 256; n mod 256].
Definition enc_u32 (n : Z) : list Z :=
  [n / 16777216; n / 65536 mod 256; n / 256 mod 256; n mod 256].

Definition enc_name (t : list Z) : list Z := enc_u16 (Z.of_nat (length t)) ++ t.
Definition enc_text (t : list Z) : list Z := enc_u32 (Z.of_nat (length t)) ++ t.

Definition enc_nat (n : PnBigInt) : list Z :=
  let p := digits_of 256 (Z.abs (to_Z n)) in enc_u16 (Z.of_nat (length p)) ++ p.

(** Two digits to a byte, an odd last digit padded with 15. *)
Fixpoint pack (ds : list Z) : list Z :=
  match ds with
  | [] => []
  | [d] => [d * 16 + 15]
  | d :: e :: ds' => (d * 16 + e) :: pack ds'
  end.

Definition b2z (b : bool) : Z := if b then 1 else 0.

Definition enc_decimal (negative : bool) (e : Z) (n : PnBigInt) : list Z :=
  let ds := coefficient_digits_of (Z.abs (to_Z n)) in
  enc_u8 (b2z negative) ++ enc_u16 (e mod 65536) ++ enc_u16 (Z.of_nat (length ds)) ++ pack ds.

Definition enc_constant (c : Constant) : list Z :=
  match c with
  | CNat n => enc_u8 0 ++ enc_nat n
  | CInt n => enc_u8 1 ++ enc_u8 (b2z (to_Z n <? 0)) ++ enc_nat n
  | CDec negative e n => enc_u8 2 ++ enc_decimal negative e n
  | CText t => enc_u8 3 ++ enc_text t
  | CBool b => enc_u8 4 ++ enc_u8 (b2z b)
  | CVoid => enc_u8 5
  end.

Definition enc_list {A} (enc : A → list Z) (l : list A) : list Z := concat (enc <$> l).

Definition enc_instruction (i : Instruction) : list Z :=
  match i with
  | OP_CONST c => enc_u8 0 ++ enc_constant c
  | OP_LOAD n => enc_u8 1 ++ enc_name n
  | OP_STORE n => enc_u8 2 ++ enc_name n
  | OP_POP => enc_u8 3
  | OP_UNARY c => enc_u8 4 ++ enc_u8 c
  | OP_BINARY c => enc_u8 5 ++ enc_u8 c
  | OP_MAKE_RANGE => enc_u8 6
  | OP_MAKE_ARRAY n => enc_u8 7 ++ enc_u16 (Z.of_nat n)
  | OP_INDEX_GET => enc_u8 8
  | OP_INTERPOLATE l => enc_u8 9 ++ enc_u16 (Z.of_nat (length l)) ++ enc_list enc_text l
  | OP_ITER_INIT n => enc_u8 10 ++ enc_name n
  | OP_ITER_NEXT n m t => enc_u8 11 ++ enc_name n ++ enc_name m ++ enc_u32 (Z.of_nat t)
  | OP_MAKE_RECORD n l =>
      enc_u8 12 ++ enc_name n ++ enc_u16 (Z.of_nat (length l)) ++ enc_list enc_name l
  | OP_FIELD_GET n => enc_u8 13 ++ enc_name n
  | OP_MAKE_VARIANT n m c => enc_u8 14 ++ enc_name n ++ enc_name m ++ enc_u16 (Z.of_nat c)
  | OP_MATCH_VARIANT n t => enc_u8 15 ++ enc_name n ++ enc_u32 (Z.of_nat t)
  | OP_MATCH_FAIL => enc_u8 16
  | OP_CALL n a => enc_u8 17 ++ enc_name n ++ enc_u8 (Z.of_nat a)
  | OP_JUMP_FALSE t => enc_u8 18 ++ enc_u32 (Z.of_nat t)
  | OP_JUMP t => enc_u8 19 ++ enc_u32 (Z.of_nat t)
  | OP_RETURN => enc_u8 20
  | OP_CALL_VALUE a => enc_u8 21 ++ enc_u8 (Z.of_nat a)
  | OP_AWAIT_CALL n a => enc_u8 22 ++ enc_name n ++ enc_u8 (Z.of_nat a)
  | OP_AWAIT_VALUE a => enc_u8 23 ++ enc_u8 (Z.of_nat a)
  end.

Definition enc_function (f : Function) : list Z :=
  enc_name (fname f) ++ enc_u8 (if pure f then 1 else if is_async f then 2 else 0) ++
  enc_u8 (Z.of_nat (length (params f))) ++ enc_list enc_name (params f) ++
  enc_u32 (Z.of_nat (length (ins f))) ++ enc_list enc_instruction (ins f).

Definition encode_program (p : Program) : list Z :=
  magic ++ enc_u16 9 ++ enc_u16 (Z.of_nat (length (functions p))) ++
  enc_list enc_function (functions p).

(** ** What the format can carry *)

Definition ok_byte (z : Z) : Prop := 0 ≤ z < 256.
Definition ok_u16 (z : Z) : Prop := 0 ≤ z < 65536.
Definition ok_u32 (z : Z) : Prop := 0 ≤ z < 2 ^ 32.
Definition ok_string (max : Z) (t : list Z) : Prop :=
  Forall is_byte t ∧ utf8 t = true ∧ Z.of_nat (length t) ≤ max.
Definition ok_name : list Z → Prop := ok_string MAX_NAME.
Definition ok_text : list Z → Prop := ok_string MAX_TEXT.

Definition ok_nat (n : PnBigInt) : Prop := wf n ∧ 0 ≤ to_Z n < 10 ^ MAX_DIGITS.

Definition ok_constant (c : Constant) : Prop :=
  match c with
  | CNat n => ok_nat n
  | CInt n => wf n ∧ Z.abs (to_Z n) < 10 ^ MAX_DIGITS
  | CDec negative e n =>
      wf n ∧ Z.abs (to_Z n) < 10 ^ MAX_DIGITS ∧ -4096 ≤ e ≤ 4096 ∧
      (to_Z n ≠ 0 → negative = (to_Z n <? 0))
  | CText t => ok_text t
  | CBool _ | CVoid => True
  end.

Definition ok_instruction (i : Instruction) : Prop :=
  match i with
  | OP_CONST c => ok_constant c
  | OP_LOAD n | OP_STORE n | OP_ITER_INIT n | OP_FIELD_GET n => ok_name n
  | OP_UNARY c => 0 ≤ c ≤ 1
  | OP_BINARY c => 0 ≤ c ≤ 12
  | OP_MAKE_ARRAY n => ok_u16 (Z.of_nat n)
  | OP_INTERPOLATE l => ok_u16 (Z.of_nat (length l)) ∧ Forall ok_text l
  | OP_ITER_NEXT n m t => ok_name n ∧ ok_name m ∧ ok_u32 (Z.of_nat t)
  | OP_MAKE_RECORD n l => ok_name n ∧ ok_u16 (Z.of_nat (length l)) ∧ Forall ok_name l
  | OP_MAKE_VARIANT n m c => ok_name n ∧ ok_name m ∧ ok_u16 (Z.of_nat c)
  | OP_MATCH_VARIANT n t => ok_name n ∧ ok_u32 (Z.of_nat t)
  | OP_CALL n a | OP_AWAIT_CALL n a => ok_name n ∧ ok_byte (Z.of_nat a)
  | OP_CALL_VALUE a | OP_AWAIT_VALUE a => ok_byte (Z.of_nat a)
  | OP_JUMP_FALSE t | OP_JUMP t => ok_u32 (Z.of_nat t)
  | OP_POP | OP_MAKE_RANGE | OP_INDEX_GET | OP_MATCH_FAIL | OP_RETURN => True
  end.

Definition ok_function (total : Z) (f : Function) : Prop :=
  ok_name (fname f) ∧ ¬ (pure f = true ∧ is_async f = true) ∧ local_effect f = false ∧
  ok_byte (Z.of_nat (length (params f))) ∧ Forall ok_name (params f) ∧
  Z.of_nat (length (ins f)) ≤ 1000000 ∧
  total + Z.of_nat (length (ins f)) ≤ MAX_INSTRUCTIONS ∧ Forall ok_instruction (ins f).

Fixpoint ok_functions (total : Z) (fs : list Function) : Prop :=
  match fs with
  | [] => True
  | f :: fs' => ok_function total f ∧ ok_functions (total + Z.of_nat (length (ins f))) fs'
  end.

Definition ok_program (p : Program) : Prop :=
  Z.of_nat (length (functions p)) ≤ MAX_FUNCTIONS ∧ ok_functions 0 (functions p) ∧
  verified_function_order p = false ∧ Z.of_nat (length (encode_program p)) ≤ MAX_ARTIFACT.

(** ** Codecs

    The contract between a reader and the encoder of the same data: reading what
    was written returns it and leaves the rest, and whatever is read was written
    by the encoder.  A reader that meets it accepts exactly the encodings. *)

Definition decode_error : VMFaultKind → string → Prop := λ f _, f = VM_FAULT_FATAL.

Class Codec {A} (read : Reader → M (A * Reader)) (enc : A → list Z) (ok : A → Prop) : Prop := {
  codec_complete x r : ok x → returns (read (enc x ++ r)) (λ y, y = (x, r));
  codec_sound r : Forall is_byte r →
    runs (read r) (λ '(x, r'), ok x ∧ r = enc x ++ r') decode_error;
}.

(** Sequencing: the two directions of a bind. *)
Lemma codec_read {A B} read enc ok `{!@Codec A read enc ok} x r (k : A * Reader → M B) Q E :
  ok x → runs (k (x, r)) Q E → runs (y ← read (enc x ++ r); k y) Q E.
Proof.
  intros Hx Hk. eapply runs_bind; [eapply runs_eq; [by apply codec_complete|]|].
  - by instantiate (1 := λ y, y = (x, r)).
  - by intros ? ->.
Qed.

Lemma codec_parse {A B} read enc ok `{!@Codec A read enc ok} r (k : A * Reader → M B) Q :
  Forall is_byte r →
  (∀ x r', ok x → r = enc x ++ r' → Forall is_byte r' → runs (k (x, r')) Q decode_error) →
  runs (y ← read r; k y) Q decode_error.
Proof.
  intros Hr Hk. eapply runs_bind; [by apply codec_sound|]. intros [x r'] [Hx Heq].
  apply Hk; [done..|]. subst r. by apply Forall_app in Hr as [_ ?].
Qed.

(** ** Fixed-width integers *)

Lemma take_app p r E :
  runs (take_bytes (p ++ r) (length p)) (λ y, y = (p, r)) E.
Proof.
  unfold take_bytes. rewrite bool_decide_false by (rewrite length_app; lia).
  mret. by rewrite take_app_length, drop_app_length.
Qed.

Lemma take_sound r n :
  runs (take_bytes r n) (λ '(p, r'), r = p ++ r' ∧ length p = n) decode_error.
Proof.
  unfold take_bytes. case_bool_decide; [by apply runs_trap|]. mret.
  rewrite take_drop, length_take. split; [done|lia].
Qed.

Lemma u16_bytes a b : is_byte a → is_byte b → u16 (Z.lor (Z.shiftl a 8) b) = a * 256 + b.
Proof.
  unfold is_byte. intros Ha Hb. rewrite Z.shiftl_mul_pow2, lor_low by lia.
  apply Z.mod_small. clia.
Qed.

Lemma u32_bytes a b c d :
  is_byte a → is_byte b → is_byte c → is_byte d →
  Z.lor (Z.lor (Z.lor (u32 (Z.shiftl a 24)) (u32 (Z.shiftl b 16))) (u32 (Z.shiftl c 8))) d =
  ((a * 256 + b) * 256 + c) * 256 + d.
Proof.
  unfold is_byte. intros Ha Hb Hc Hd. rewrite !Z.shiftl_mul_pow2 by lia.
  rewrite !u32_small by clia. rewrite (lor_low a) by clia.
  replace (a * 2 ^ 24 + b * 2 ^ 16) with ((a * 256 + b) * 2 ^ 16) by lia.
  rewrite lor_low by clia.
  replace ((a * 256 + b) * 2 ^ 16 + c * 2 ^ 8) with (((a * 256 + b) * 256 + c) * 2 ^ 8) by lia.
  rewrite lor_low by clia. lia.
Qed.

#[global] Instance codec_u8 : Codec read_u8 enc_u8 ok_byte.
Proof.
  split.
  - intros x r Hx. unfold read_u8. mbind (take_app [x]) as ? ->.
    mbind (runs_rd _ _ _ (λ y, y = x)) as ? ->; [done..|]. by mret.
  - intros r Hr. unfold read_u8. mbind take_sound as [p r'] [-> Hp].
    destruct p as [|x [|? ?]]; try done. decompose_Forall_hyps.
    mbind (runs_rd _ _ _ (λ y, y = x)) as ? ->; [done..|]. by mret.
Qed.

#[global] Instance codec_u16 : Codec read_u16 enc_u16 ok_u16.
Proof.
  split.
  - intros x r Hx. unfold read_u16, ok_u16 in *. mbind (take_app (enc_u16 x)) as ? ->.
    unfold enc_u16. mbind (runs_rd _ _ _ (λ y, y = x / 256)) as ? ->; [done..|].
    mbind (runs_rd _ _ _ (λ y, y = x mod 256)) as ? ->; [done..|]. mret.
    rewrite u16_bytes by (unfold is_byte; clia). f_equal. clia.
  - intros r Hr. unfold read_u16. mbind take_sound as [p r'] [-> Hp].
    destruct p as [|a [|b [|? ?]]]; try done. decompose_Forall_hyps.
    mbind (runs_rd _ _ _ (λ y, y = a)) as ? ->; [done..|].
    mbind (runs_rd _ _ _ (λ y, y = b)) as ? ->; [done..|]. mret.
    rewrite u16_bytes by done. unfold is_byte, ok_u16, enc_u16 in *. split; [lia|].
    simpl. repeat f_equal; clia.
Qed.

#[global] Instance codec_u32 : Codec read_u32 enc_u32 ok_u32.
Proof.
  split.
  - intros x r Hx. unfold read_u32, ok_u32 in *. mbind (take_app (enc_u32 x)) as ? ->.
    unfold enc_u32. mbind (runs_rd _ _ _ (λ y, y = x / 16777216)) as ? ->; [done..|].
    mbind (runs_rd _ _ _ (λ y, y = x / 65536 mod 256)) as ? ->; [done..|].
    mbind (runs_rd _ _ _ (λ y, y = x / 256 mod 256)) as ? ->; [done..|].
    mbind (runs_rd _ _ _ (λ y, y = x mod 256)) as ? ->; [done..|]. mret.
    rewrite u32_bytes by (unfold is_byte; clia). f_equal. clia.
  - intros r Hr. unfold read_u32. mbind take_sound as [p r'] [-> Hp].
    destruct p as [|a [|b [|c [|d [|? ?]]]]]; try done. decompose_Forall_hyps.
    mbind (runs_rd _ _ _ (λ y, y = a)) as ? ->; [done..|].
    mbind (runs_rd _ _ _ (λ y, y = b)) as ? ->; [done..|].
    mbind (runs_rd _ _ _ (λ y, y = c)) as ? ->; [done..|].
    mbind (runs_rd _ _ _ (λ y, y = d)) as ? ->; [done..|]. mret.
    rewrite u32_bytes by done. unfold is_byte, ok_u32, enc_u32 in *. split; [clia|].
    simpl. repeat f_equal; clia.
Qed.

(** ** Text *)

Lemma text_bytes_complete t r E :
  utf8 t = true → runs (text_bytes (t ++ r) (length t)) (λ y, y = (t, r)) E.
Proof.
  intros Hu. unfold text_bytes. mbind take_app as ? ->. rewrite Hu. simpl.
  mbind runs_alloc as ? _. by mret.
Qed.

Lemma text_bytes_sound r n :
  runs (text_bytes r n) (λ '(t, r'), r = t ++ r' ∧ length t = n ∧ utf8 t = true) decode_error.
Proof.
  unfold text_bytes. mbind take_sound as [p r'] [-> Hp]. destruct (utf8 p) eqn:Hu; simpl.
  - mbind runs_alloc as ? _. by mret.
  - by apply runs_trap.
Qed.

#[global] Instance codec_name : Codec read_name enc_name ok_name.
Proof.
  split.
  - intros t r (Hb & Hu & Hl). unfold read_name, text, enc_name, MAX_NAME in *.
    rewrite <- (assoc (++)). apply (codec_read _ _ ok_u16); [unfold ok_u16; lia|].
    replace (1024 <? _) with false by lia. rewrite Nat2Z.id. by apply text_bytes_complete.
  - intros r Hr. unfold read_name, text. apply (codec_parse _ enc_u16 ok_u16); [done|].
    intros n r' Hn -> Hr'. destruct (Z.ltb_spec MAX_NAME n); [by apply runs_trap|].
    eapply runs_mono; [apply text_bytes_sound| |done]. intros [t r''] (-> & Hl & Hu).
    apply Forall_app in Hr' as [Ht _]. unfold ok_u16 in Hn. unfold enc_name, ok_name, ok_string.
    rewrite Hl, Z2Nat.id by lia. by rewrite (assoc (++)).
Qed.

#[global] Instance codec_text : Codec read_text enc_text ok_text.
Proof.
  split.
  - intros t r (Hb & Hu & Hl). unfold read_text, text, enc_text, MAX_TEXT in *.
    rewrite <- (assoc (++)). apply (codec_read _ _ ok_u32); [unfold ok_u32; lia|].
    replace (1024 * 1024 <? _) with false by lia. rewrite Nat2Z.id. by apply text_bytes_complete.
  - intros r Hr. unfold read_text, text. apply (codec_parse _ enc_u32 ok_u32); [done|].
    intros n r' Hn -> Hr'. destruct (Z.ltb_spec MAX_TEXT n); [by apply runs_trap|].
    eapply runs_mono; [apply text_bytes_sound| |done]. intros [t r''] (-> & Hl & Hu).
    apply Forall_app in Hr' as [Ht _]. unfold ok_u32 in Hn. unfold enc_text, ok_text, ok_string.
    rewrite Hl, Z2Nat.id by lia. by rewrite (assoc (++)).
Qed.

(** ** Repetition *)

#[global] Instance codec_list {A} read enc ok `{!@Codec A read enc ok} n :
  Codec (read_list read n) (enc_list enc) (λ l, length l = n ∧ Forall ok l).
Proof.
  split.
  - intros l r [Hl Hok]. revert n Hl. induction Hok as [|x l Hx _ IH]; intros n <-; [by mret|].
    change (enc_list enc (x :: l)) with (enc x ++ enc_list enc l). rewrite <- (assoc (++)).
    cbn [length read_list]. apply (codec_read _ _ ok); [done|].
    mbind (IH (length l)) as ? ->; [done|]. by mret.
  - induction n as [|n IH]; intros r Hr; cbn [read_list]; [by mret|].
    apply (codec_parse _ enc ok); [done|]. intros x r' Hx -> Hr'.
    mbind IH as [l r''] [[Hl Hok] ->]; [done|]. mret.
    change (enc_list enc (x :: l)) with (enc x ++ enc_list enc l). rewrite <- (assoc (++)).
    split; [|done]. split; [simpl; lia|by constructor].
Qed.

(** ** Integers *)

(** The digit limit of [read_nat], on the number read. *)
Lemma digit_limit n E {A} (k : M A) Q :
  wf n → 0 ≤ to_Z n →
  (to_Z n < 10 ^ MAX_DIGITS → runs k Q E) →
  (10 ^ MAX_DIGITS ≤ to_Z n → E VM_FAULT_FATAL "integer exceeds digit limit") →
  runs (digits ← pn_big_string n;
        if MAX_DIGITS <? Z.of_nat (strlen digits) then fail "integer exceeds digit limit" else k)
    Q E.
Proof.
  intros Wn Hn Hk HE. mbind string_spec as t (ds & -> & Hd); [done|].
  replace (to_Z n <? 0) with false by lia. cbn [app].
  pose proof (decimal_bound _ _ MAX_DIGITS Hd ltac:(done)) as Hb. rewrite Z.abs_eq in Hb by done.
  unfold strlen. rewrite cstr_digits by apply Hd.
  destruct (Z.ltb_spec MAX_DIGITS (Z.of_nat (length ds))).
  - apply runs_trap, HE. apply Z.nlt_ge. rewrite <- Hb. lia.
  - apply Hk, Hb. lia.
Qed.

Lemma max_bytes_enough : 10 ^ MAX_DIGITS ≤ 256 ^ max_bytes.
Proof.
  change (10 ^ (512 * 8) ≤ (2 ^ 8) ^ 1701). rewrite <- (Z.pow_mul_r 2), (Z.pow_mul_r 10) by done.
  rewrite (Z.mul_comm 8), (Z.pow_mul_r 2 1701) by done. apply Z.pow_le_mono_l. split; [lia|].
  apply Z.leb_le. by vm_compute.
Qed.

#[global] Instance codec_nat : Codec read_nat enc_nat ok_nat.
Proof.
  split.
  - intros n r [Wn Hn]. unfold read_nat, enc_nat. rewrite Z.abs_eq by lia.
    set (p := digits_of 256 (to_Z n)).
    destruct (digits_of_ok 256 ltac:(lia) (to_Z n) ltac:(lia)) as (Hd & Hv & Hh).
    fold p in Hd, Hv, Hh.
    assert (Z.of_nat (length p) ≤ max_bytes) as Hl.
    { apply digits_of_length; [lia| |done]. pose proof max_bytes_enough. lia. }
    rewrite <- (assoc (++)). change max_bytes with 1701 in *.
    apply (codec_read _ _ ok_u16); [unfold ok_u16; lia|]. replace (1701 <? _) with false by lia.
    rewrite Nat2Z.id. mbind take_app as ? ->. rewrite bool_decide_false by done.
    mbind from_bytes_spec as out (Wo & Ho); [unfold limit; clia|done|].
    assert (out = n) as -> by (apply to_Z_inj; congruence).
    apply digit_limit; [done|lia|by intros; mret|lia].
  - intros r Hr. unfold read_nat. apply (codec_parse _ enc_u16 ok_u16); [done|].
    intros n r' Hn -> Hr'. destruct (Z.ltb_spec max_bytes n); [by apply runs_trap|].
    mbind take_sound as [p r''] [-> Hp]. case_bool_decide as Hh; [by apply runs_trap|].
    apply Forall_app in Hr' as [Hpb _]. unfold ok_u16 in Hn.
    mbind from_bytes_spec as out (Wo & Ho); [unfold limit; clia|done|].
    pose proof (radix_value_bound 256 p ltac:(lia) Hpb) as Hb.
    apply digit_limit; [done|lia| |done]. intros Hlt. mret. split; [split; [done|lia]|].
    unfold enc_nat. rewrite Ho, Z.abs_eq, digits_of_unique by (done || lia).
    rewrite Hp, Z2Nat.id by lia. by rewrite (assoc (++)).
Qed.

(** ** Packed decimals *)

Definition nibble (p : list Z) (i : nat) : Z :=
  let b := default 0 (p !! (i / 2)%nat) in if Nat.odd i then Z.land b 15 else Z.shiftr b 4.

Definition nibbles (p : list Z) (n : nat) : list Z := nibble p <$> seq 0 n.

Lemma unpack_spec n i p :
  (i + n ≤ 2 * length p)%nat →
  runs (unpack n i p)
    (λ v, v = (λ k, 48 + nibble p k) <$> seq i n ∧ ∀ k, (i ≤ k < i + n)%nat → nibble p k ≤ 9)
    (λ f s, decode_error f s ∧ ∃ k, (i ≤ k < i + n)%nat ∧ 9 < nibble p k).
Proof.
  revert i. induction n as [|n IH]; intros i Hl; cbn [unpack].
  - mret. split; [done|]. lia.
  - assert (i / 2 < length p)%nat as Hi by (apply Nat.Div0.div_lt_upper_bound; lia).
    destruct (lookup_lt_is_Some_2 p (i / 2) Hi) as [b Hb].
    mbind (runs_rd _ _ _ (λ y, y = b)) as ? ->; [done..|].
    assert ((if Nat.odd i then Z.land b 15 else Z.shiftr b 4) = nibble p i) as ->.
    { unfold nibble. by rewrite Hb. }
    destruct (Z.ltb_spec 9 (nibble p i)) as [H9|H9].
    { apply runs_trap. split; [done|]. exists i. split; [lia|done]. }
    eapply runs_bind; [eapply runs_mono; [apply (IH (S i)); lia|by intros ? H|]|].
    + intros f s (He & k & Hk & Hn). split; [done|]. exists k. split; [lia|done].
    + intros v [-> Hv]. mret. split; [done|]. intros k Hk.
      destruct (decide (k = i)) as [->|]; [done|]. apply Hv. lia.
Qed.

Lemma nibble_shift b p i : nibble (b :: p) (S (S i)) = nibble p i.
Proof.
  unfold nibble. replace (S (S i) / 2)%nat with (S (i / 2)); [done|].
  replace (S (S i)) with (i + 1 * 2)%nat by lia. rewrite Nat.div_add by lia. lia.
Qed.

Lemma nibbles_cons b p n :
  nibbles (b :: p) (S (S n)) = Z.shiftr b 4 :: Z.land b 15 :: nibbles p n.
Proof.
  unfold nibbles. cbn [seq fmap list_fmap]. do 2 f_equal.
  rewrite <- (fmap_S_seq 1), <- (fmap_S_seq 0), <- !list_fmap_compose.
  apply list_fmap_ext. intros k x _. apply nibble_shift.
Qed.

Lemma byte_nibbles b :
  is_byte b → Z.shiftr b 4 = b / 16 ∧ Z.land b 15 = b mod 16.
Proof.
  intros Hb. rewrite Z.shiftr_div_pow2 by lia. split; [done|].
  change 15 with (Z.ones 4). by rewrite Z.land_ones by lia.
Qed.

Lemma pack_spec ds :
  Forall ten ds →
  Forall is_byte (pack ds) ∧ nibbles (pack ds) (length ds) = ds ∧
  length (pack ds) = ((length ds + 1) / 2)%nat ∧
  (Nat.odd (length ds) = true → nibble (pack ds) (length ds) = 15).
Proof.
  induction ds as [|d|d e ds IH] using list_pairs_ind; intros Hd.
  - split_and!; [constructor|done..].
  - inversion_clear Hd as [|? ? H _]. unfold ten in H.
    assert (is_byte (d * 16 + 15)) as Hb by (unfold is_byte; lia).
    destruct (byte_nibbles _ Hb) as [H1 H2]. simpl. split_and!; [by (constructor; [|constructor])| |done|].
    + unfold nibbles, nibble. simpl. rewrite H1. f_equal. clia.
    + intros _. unfold nibble. simpl. rewrite H2. clia.
  - inversion_clear Hd as [|? ? H Hd']. inversion_clear Hd' as [|? ? H' Hd]. unfold ten in *.
    destruct (IH Hd) as (Hb & Hn & Hl & Ho). assert (is_byte (d * 16 + e)) as Hb' by (unfold is_byte; lia).
    destruct (byte_nibbles _ Hb') as [H1 H2]. cbn [pack length]. split_and!.
    + by constructor.
    + rewrite nibbles_cons, Hn, H1, H2. repeat f_equal; clia.
    + rewrite Hl. replace (S (S (length ds)) + 1)%nat with (length ds + 1 + 1 * 2)%nat by lia.
      rewrite Nat.div_add by lia. lia.
    + intros Hodd. rewrite nibble_shift. by apply Ho.
Qed.

Lemma pack_nibbles p n :
  Forall is_byte p → length p = ((n + 1) / 2)%nat →
  (Nat.odd n = true → nibble p n = 15) → pack (nibbles p n) = p.
Proof.
  intros Hp. revert n. induction Hp as [|b p Hb Hp IH]; intros n Hl Ho.
  - destruct n as [|[|n]]; [done|done|].
    replace (S (S n) + 1)%nat with (n + 1 + 1 * 2)%nat in Hl by lia.
    rewrite Nat.div_add in Hl by lia. cbn [length] in Hl. lia.
  - destruct (byte_nibbles b Hb) as [H1 H2]. unfold is_byte in Hb. destruct n as [|[|n]]; [done| |].
    + simpl in Hl. destruct p; [|done]. specialize (Ho eq_refl).
      unfold nibble in Ho. simpl in Ho. unfold nibbles, nibble. simpl. f_equal. clia.
    + rewrite nibbles_cons. cbn [pack]. rewrite IH.
      * f_equal. clia.
      * replace (S (S n) + 1)%nat with (n + 1 + 1 * 2)%nat in Hl by lia.
        rewrite Nat.div_add in Hl by lia. cbn [length] in Hl. lia.
      * intros Hodd. specialize (Ho Hodd). by rewrite nibble_shift in Ho.
Qed.

Lemma s16_mod e : -32768 ≤ e < 32768 → s16 (e mod 65536) = e.
Proof.
  intros He. unfold s16. change (2 ^ 16) with 65536. change (2 ^ 15) with 32768.
  rewrite Z.mod_mod by lia. destruct (Z.ltb_spec (e mod 65536) 32768); clia.
Qed.

Lemma mod_s16 x : 0 ≤ x < 65536 → s16 x mod 65536 = x.
Proof.
  intros Hx. unfold s16. change (2 ^ 16) with 65536. change (2 ^ 15) with 32768.
  rewrite (Z.mod_small x) by lia. destruct (Z.ltb_spec x 32768); clia.
Qed.

Definition enc_dec (c : Constant) : list Z :=
  match c with CDec negative e n => enc_decimal negative e n | _ => [] end.
Definition ok_dec (c : Constant) : Prop :=
  match c with CDec _ _ _ => ok_constant c | _ => False end.

(** The last byte of a packed coefficient holds the padding nibble. *)
Lemma padding_nibble p d :
  (0 < d)%nat → Nat.odd d = true → length p = ((d + 1) / 2)%nat →
  ∃ last, p !! Z.to_nat ((Z.of_nat d + 1) / 2 - 1) = Some last ∧ nibble p d = Z.land last 15.
Proof.
  intros Hd Ho Hl. assert ((d / 2)%nat = Z.to_nat ((Z.of_nat d + 1) / 2 - 1)) as Hi.
  { apply Nat.odd_spec in Ho as [m ->]. replace (2 * m + 1)%nat with (1 + m * 2)%nat by lia.
    rewrite Nat.div_add by lia. replace (1 / 2)%nat with 0%nat by done.
    replace (Z.of_nat (1 + m * 2) + 1) with ((Z.of_nat m + 1) * 2) by lia.
    rewrite Z.div_mul by lia. lia. }
  destruct (lookup_lt_is_Some_2 p (d / 2)) as [b Hb].
  { rewrite Hl. apply Nat.odd_spec in Ho as [m ->].
    replace (2 * m + 1)%nat with (1 + m * 2)%nat by lia.
    replace (1 + m * 2 + 1)%nat with (0 + (m + 1) * 2)%nat by lia.
    rewrite !Nat.div_add by lia. replace (1 / 2)%nat with 0%nat by done.
    replace (0 / 2)%nat with 0%nat by done. lia. }
  exists b. rewrite <- Hi. split; [done|]. unfold nibble. by rewrite Hb, Ho.
Qed.

(** Reading the digits of a decimal after its header. *)
Lemma unpack_pack ds E :
  Forall ten ds → runs (unpack (length ds) 0 (pack ds)) (λ v, v = (λ d, 48 + d) <$> ds) E.
Proof.
  intros Hd. destruct (pack_spec ds Hd) as (_ & Hn & Hl & _).
  assert (length ds ≤ 2 * length (pack ds))%nat as Hlen.
  { rewrite Hl. pose proof (Nat.Div0.div_mod (length ds + 1) 2).
    pose proof (Nat.mod_upper_bound (length ds + 1) 2). lia. }
  assert (∀ k, (k < length ds)%nat → ds !! k = Some (nibble (pack ds) k)) as Hk.
  { intros k Hk. rewrite <- Hn at 1. unfold nibbles. rewrite list_lookup_fmap, lookup_seq_lt by done. done. }
  eapply runs_mono; [apply unpack_spec; lia| |].
  - intros v [-> _]. change (λ k : nat, 48 + nibble (pack ds) k) with ((λ d, 48 + d) ∘ nibble (pack ds)).
    rewrite list_fmap_compose. unfold nibbles in Hn. by rewrite Hn.
  - intros f s (_ & k & Hkl & H9). exfalso. specialize (Hk k ltac:(lia)).
    pose proof (Forall_lookup_1 _ _ _ _ Hd Hk) as H. unfold ten in H. lia.
Qed.

Lemma head_fmap_48 (ds : list Z) : head ((λ d, 48 + d) <$> ds) = Some 48 ↔ head ds = Some 0.
Proof.
  destruct ds as [|d ds]; simpl; [done|]. split; intros [= H]; f_equal; lia.
Qed.

Lemma Z_odd_of_nat n : Z.odd (Z.of_nat n) = Nat.odd n.
Proof.
  destruct (Nat.odd n) eqn:H.
  - apply Nat.odd_spec in H as [m ->]. apply Z.odd_spec. exists (Z.of_nat m). lia.
  - apply Nat.even_spec in H || (rewrite <- Nat.negb_even, negb_false_iff in H; apply Nat.even_spec in H).
    destruct H as [m ->]. rewrite <- Z.negb_even, negb_false_iff. apply Z.even_spec.
    exists (Z.of_nat m). lia.
Qed.

(** The byte that holds the padding nibble. *)
Lemma last_byte (p : list Z) d :
  0 < d → length p = Z.to_nat ((d + 1) / 2) → ∃ last, p !! Z.to_nat ((d + 1) / 2 - 1) = Some last.
Proof. intros Hd Hp. apply lookup_lt_is_Some_2. rewrite Hp. assert (1 ≤ (d + 1) / 2) by clia. lia. Qed.

Lemma packed_length d : 0 ≤ d → Z.to_nat ((d + 1) / 2) = ((Z.to_nat d + 1) / 2)%nat.
Proof.
  intros Hd. change 2%nat with (Z.to_nat 2). replace (Z.to_nat d + 1)%nat with (Z.to_nat (d + 1)) by lia.
  by rewrite <- Z2Nat.inj_div by lia.
Qed.

Lemma dec_complete neg e n r :
  ok_dec (CDec neg e n) →
  returns (read_decimal (enc_dec (CDec neg e n) ++ r)) (λ y, y = (CDec neg e n, r)).
Proof.
  intros (Wn & Hlt & He & Hs). cbn [enc_dec]. unfold enc_decimal, read_decimal.
  destruct (coefficient_digits_ok (Z.abs (to_Z n)) MAX_DIGITS ltac:(lia) ltac:(done)) as (Hd & Hv & Hl & Hh).
  clear Hlt. set (ds := coefficient_digits_of (Z.abs (to_Z n))) in *.
  destruct (pack_spec ds Hd) as (_ & _ & Hpl & Hodd).
  rewrite <- !(assoc (++)). apply (codec_read _ _ ok_byte); [by destruct neg|].
  apply (codec_read _ _ ok_u16); [unfold ok_u16; clia|]. change MAX_DIGITS with 4096 in *.
  apply (codec_read _ _ ok_u16); [unfold ok_u16; lia|]. rewrite s16_mod by lia.
  replace (_ || _ || _ || _ || _) with false by (destruct neg; simpl; lia).
  assert (Z.to_nat ((Z.of_nat (length ds) + 1) / 2) = length (pack ds)) as Hbytes.
  { rewrite Hpl, packed_length, Nat2Z.id; [done|lia]. }
  rewrite Hbytes. mbind take_app as ? ->. mbind runs_alloc as ? _. rewrite Nat2Z.id.
  mbind unpack_pack as ? ->; [done|].
  destruct (last_byte (pack ds) (Z.of_nat (length ds))) as [last Hlast]; [lia|done|].
  mbind (runs_rd _ _ _ (λ y, y = last)) as ? ->; [done..|].
  replace (Z.odd _ && _) with false.
  2:{ symmetry. rewrite Z_odd_of_nat. destruct (Nat.odd (length ds)) eqn:Ho; [|done].
      destruct (padding_nibble (pack ds) (length ds) ltac:(lia) Ho Hpl) as (l' & Hl' & Hnib).
      rewrite Hlast in Hl'. injection Hl' as <-. rewrite <- Hnib, Hodd by done. done. }
  replace ((1 <? _) && _) with false.
  2:{ symmetry. apply andb_false_iff. destruct (decide (1 < length ds)%nat) as [H1|H1].
      - right. apply bool_decide_false. rewrite head_fmap_48. by apply Hh.
      - left. lia. }
  mbind from_digits_spec as m (Wm & Hm); [rewrite length_fmap; unfold limit; clia|by apply ascii_digits|].
  rewrite minus_plus_48, Hv in Hm. mret.
  assert (m = n) as ->.
  { apply to_Z_inj; [done..|]. rewrite Hm. destruct (decide (to_Z n = 0)) as [H0|H0]; [by rewrite H0; lia|].
    rewrite (Hs H0). destruct (Z.ltb_spec (to_Z n) 0); simpl; lia. }
  destruct neg; done.
Qed.

(** The digits unpacked from bytes that passed the checks pack to these bytes. *)
Lemma nibbles_ten p d :
  Forall is_byte p → length p = ((d + 1) / 2)%nat →
  (∀ k, (k < d)%nat → nibble p k ≤ 9) → Forall ten (nibbles p d).
Proof.
  intros Hpb Hpl Hnine. unfold nibbles. apply Forall_fmap, Forall_seq. intros k Hk. unfold ten. simpl.
  split; [|pose proof (Hnine k ltac:(lia)); lia]. unfold nibble.
  destruct (lookup_lt_is_Some_2 p (k / 2)) as [b Hb].
  { rewrite Hpl. apply Nat.Div0.div_lt_upper_bound. pose proof (Nat.Div0.div_mod (d + 1) 2).
    pose proof (Nat.mod_upper_bound (d + 1) 2). lia. }
  rewrite Hb. change (default 0 (Some b)) with b.
  pose proof (Forall_lookup_1 _ _ _ _ Hpb Hb) as Hbb. destruct (byte_nibbles b Hbb) as [-> ->].
  unfold is_byte in Hbb. destruct (Nat.odd k); clia.
Qed.

(** What a decimal read from checked bytes encodes to. *)
Lemma dec_encodes sg ex d p m :
  0 ≤ sg ≤ 1 → 0 ≤ ex < 2 ^ 16 → 0 < d ≤ 4096 → -4096 ≤ s16 ex ≤ 4096 →
  let ds := nibbles p (Z.to_nat d) in
  Forall ten ds → ((1 < length ds)%nat → head ds ≠ Some 0) → pack ds = p → wf m →
  to_Z m = (if negb (sg =? 0) then - radix_value 10 0 ds else radix_value 10 0 ds) →
  let c := CDec (negb (sg =? 0)) (s16 ex) m in
  ok_dec c ∧ ∀ r, enc_u8 sg ++ enc_u16 ex ++ enc_u16 d ++ p ++ r = enc_dec c ++ r.
Proof.
  intros Hsg Hex Hd He ds Hten Hh Hpack Wm Hm. cbn zeta.
  assert (length ds = Z.to_nat d) as Hlds by (unfold ds, nibbles; by rewrite length_fmap, length_seq).
  pose proof (radix_value_bound 10 ds ltac:(lia) Hten) as Hb. rewrite Hlds in Hb.
  assert (Z.abs (to_Z m) = radix_value 10 0 ds) as Habs by (destruct (negb _); lia).
  cbn [ok_dec ok_constant enc_dec]. unfold enc_decimal. split.
  - split_and!; [done| |lia|lia|].
    + rewrite Habs. eapply Z.lt_le_trans; [apply Hb|]. apply Z.pow_le_mono_r; [lia|].
      change MAX_DIGITS with 4096. lia.
    + intros Hnz. destruct (Z.eqb_spec sg 0); simpl in Hm |- *; symmetry; [apply Z.ltb_ge|apply Z.ltb_lt]; lia.
  - intros r. rewrite Habs, coefficient_digits_unique, Hpack, mod_s16, Hlds, Z2Nat.id; try (done || lia).
    + replace (b2z (negb (sg =? 0))) with sg by (destruct (Z.eqb_spec sg 0); simpl; lia).
      by rewrite <- !(assoc (++)).
    + intros Hnil. rewrite Hnil in Hlds. simpl in Hlds. lia.
Qed.

Lemma dec_sound r :
  Forall is_byte r → runs (read_decimal r) (λ '(x, r'), ok_dec x ∧ r = enc_dec x ++ r') decode_error.
Proof.
  intros Hr. unfold read_decimal. apply (codec_parse _ enc_u8 ok_byte); [done|].
  intros sg r1 Hsg -> Hr1. apply (codec_parse _ enc_u16 ok_u16); [done|].
  intros ex r2 Hex -> Hr2. apply (codec_parse _ enc_u16 ok_u16); [done|].
  intros d r3 Hd -> Hr3. unfold ok_byte, ok_u16 in *.
  destruct (_ || _ || _ || _ || _) eqn:Hc; [by apply runs_trap|].
  change MAX_DIGITS with 4096 in *.
  assert (sg ≤ 1 ∧ 0 < d ≤ 4096 ∧ -4096 ≤ s16 ex ≤ 4096) as (Hsg1 & Hd1 & He) by lia.
  mbind take_sound as [p r4] [-> Hp]. apply Forall_app in Hr3 as [Hpb _].
  pose proof Hp as Hpl. rewrite packed_length in Hpl by lia.
  mbind runs_alloc as ? _. eapply runs_bind.
  { eapply runs_mono; [apply unpack_spec|by intros ? H|by intros ?? [? _]].
    rewrite Hpl. pose proof (Nat.Div0.div_mod (Z.to_nat d + 1) 2).
    pose proof (Nat.mod_upper_bound (Z.to_nat d + 1) 2). lia. }
  intros v [Hv Hnine]. cbv beta.
  destruct (last_byte p d) as [last Hlast]; [lia|done|].
  mbind (runs_rd _ _ _ (λ y, y = last)) as ? ->; [done..|].
  destruct (Z.odd d && _) eqn:Hpad; [by apply runs_trap|].
  destruct ((1 <? d) && _) eqn:Hmin; [by apply runs_trap|].
  assert (Forall ten (nibbles p (Z.to_nat d))) as Hten by (apply nibbles_ten; [done..|intros; apply Hnine; lia]).
  assert (v = (λ x, 48 + x) <$> nibbles p (Z.to_nat d)) as ->.
  { rewrite Hv. unfold nibbles. by rewrite <- list_fmap_compose. }
  assert (length (nibbles p (Z.to_nat d)) = Z.to_nat d) as Hlds by (unfold nibbles; by rewrite length_fmap, length_seq).
  assert (pack (nibbles p (Z.to_nat d)) = p) as Hpack.
  { apply pack_nibbles; [done..|]. intros Ho.
    destruct (padding_nibble p (Z.to_nat d) ltac:(lia) Ho Hpl) as (l' & Hl' & ->).
    rewrite Z2Nat.id in Hl' by lia. rewrite Hlast in Hl'. injection Hl' as <-.
    rewrite <- Z_odd_of_nat, Z2Nat.id in Ho by lia. rewrite Ho in Hpad. lia. }
  mbind from_digits_spec as m (Wm & Hm);
    [rewrite length_fmap, Hlds; unfold limit; clia|by apply ascii_digits|].
  rewrite minus_plus_48 in Hm. mret.
  destruct (dec_encodes sg ex d p m) as [Hok Henc]; [lia..|done| |done|done| |].
  - intros H1 H0. apply head_fmap_48 in H0. rewrite bool_decide_true in Hmin by done. lia.
  - rewrite Hm. destruct (sg =? 0); simpl; lia.
  - split; [done|]. apply Henc.
Qed.

#[global] Instance codec_dec : Codec read_decimal enc_dec ok_dec.
Proof. split; [|apply dec_sound]. intros [| |neg e n| | |] r; try done. apply dec_complete. Qed.

(** ** Constants *)

Ltac cparse enc ok := apply (codec_parse _ enc ok); [done|].
Ltac cread ok := rewrite <- ?(assoc (++)); apply (codec_read _ _ ok).

#[global] Instance codec_constant : Codec read_constant enc_constant ok_constant.
Proof.
  split.
  - intros c r Hc. unfold read_constant. destruct c as [n|n|neg e n|t|b|]; cbn [enc_constant];
      (cread ok_byte; [done|]; cbn [Z.eqb Pos.eqb]).
    + cread ok_nat; [done|]. by mret.
    + destruct Hc as [Wn Hn]. cread ok_byte; [by destruct (_ <? 0)|].
      destruct (wf_opp n Wn) as [Wo Ho].
      destruct (Z.ltb_spec (to_Z n) 0) as [Hneg|Hpos]; cbn [b2z Z.ltb Z.compare Pos.compare Pos.compare_cont Z.eqb negb].
      * replace (enc_nat n) with (enc_nat (set_sign n (- sign n)))
          by (unfold enc_nat; rewrite Ho; by rewrite Z.abs_opp).
        cread ok_nat; [split; [done|lia]|]. rewrite is_zero_spec, Ho by done.
        replace (- to_Z n =? 0) with false by lia. cbn [andb]. mret.
        assert (sign n = -1) as Hs by (rewrite wf_sign_sgn by done; lia).
        f_equal. f_equal. destruct n as [s l]. simpl in *. by subst s.
      * cread ok_nat; [split; [done|lia]|]. cbn [andb]. by mret.
    + eapply runs_eq; [|by instantiate (1 := (CDec neg e n, r))].
      change (enc_decimal neg e n) with (enc_dec (CDec neg e n)). by apply codec_complete.
    + cread ok_text; [done|]. by mret.
    + cread ok_byte; [by destruct b|]. destruct b; by mret.
    + by mret.
  - intros r Hr. unfold read_constant. cparse enc_u8 ok_byte. intros tag r1 Ht -> Hr1.
    destruct (Z.eqb_spec tag 0) as [->|_].
    { cparse enc_nat ok_nat. intros n r2 Hn -> Hr2. mret. by rewrite (assoc (++)). }
    destruct (Z.eqb_spec tag 1) as [->|_].
    { cparse enc_u8 ok_byte. intros s r2 Hs -> Hr2. destruct (Z.ltb_spec 1 s); [by apply runs_trap|].
      cparse enc_nat ok_nat. intros n r3 [Wn Hn] -> Hr3. unfold ok_byte in Hs.
      rewrite is_zero_spec by done.
      destruct (Z.eqb_spec s 0) as [->|Hs0]; cbn [negb andb].
      - mret. split; [split; [done|lia]|]. cbn [enc_constant]. replace (to_Z n <? 0) with false by lia.
        by rewrite <- !(assoc (++)).
      - destruct (Z.eqb_spec (to_Z n) 0) as [Hz|Hz]; [by apply runs_trap|]. mret.
        assert (s = 1) as -> by lia.
        destruct (set_sign_wf n (-1)) as [Wm Hm]; [by apply wf_canonical| |by right|].
        { rewrite wf_eval_abs by done. lia. }
        rewrite wf_eval_abs in Hm by done. split; [split; [done|lia]|].
        cbn [enc_constant]. replace (to_Z (set_sign n (-1)) <? 0) with true by lia.
        assert (enc_nat (set_sign n (-1)) = enc_nat n) as ->.
        { unfold enc_nat. by replace (Z.abs (to_Z (set_sign n (-1)))) with (Z.abs (to_Z n)) by lia. }
        cbn [b2z]. by rewrite <- !(assoc (++)). }
    destruct (Z.eqb_spec tag 2) as [->|_].
    { eapply runs_mono; [by apply (codec_sound (Codec := codec_dec))| |done].
      intros [[] r2]; try by intros [[] _]. intros [Hc ->]. split; [done|].
      cbn [enc_constant enc_dec]. by rewrite (assoc (++)). }
    destruct (Z.eqb_spec tag 3) as [->|_].
    { cparse enc_text ok_text. intros t r2 Hn -> Hr2. mret. by rewrite (assoc (++)). }
    destruct (Z.eqb_spec tag 4) as [->|_].
    { cparse enc_u8 ok_byte. intros b r2 Hb -> Hr2. destruct (Z.ltb_spec 1 b); [by apply runs_trap|].
      mret. split; [done|]. unfold ok_byte in Hb. cbn [enc_constant].
      replace (b2z (negb (b =? 0))) with b by (destruct (Z.eqb_spec b 0); simpl; lia).
      cbn [b2z]. by rewrite <- !(assoc (++)). }
    destruct (Z.eqb_spec tag 5) as [->|_]; [by mret|by apply runs_trap].
Qed.

(** ** Instructions *)

#[global] Instance codec_strings n (names : bool) :
  Codec (read_strings n names) (enc_list (if names then enc_name else enc_text))
    (λ l, length l = n ∧ Forall (if names then ok_name else ok_text) l).
Proof.
  assert (Codec (read_list (if names then read_name else read_text) n)
            (enc_list (if names then enc_name else enc_text))
            (λ l, length l = n ∧ Forall (if names then ok_name else ok_text) l)) as HL
    by (destruct names; apply _).
  split; intros; unfold read_strings; mbind runs_calloc as ? _.
  - by apply (codec_complete (Codec := HL)).
  - by apply (codec_sound (Codec := HL)).
Qed.

(** Run a reader on what the encoder wrote, operand by operand. *)
Ltac write_step :=
  rewrite <- ?(assoc (++));
  match goal with
  | |- runs (_ ← read_u8 _; _) _ _ => apply (codec_read _ _ ok_byte)
  | |- runs (_ ← read_u16 _; _) _ _ => apply (codec_read _ _ ok_u16)
  | |- runs (_ ← read_u32 _; _) _ _ => apply (codec_read _ _ ok_u32)
  | |- runs (_ ← read_name _; _) _ _ => apply (codec_read _ _ ok_name)
  | |- runs (_ ← read_constant _; _) _ _ => apply (codec_read _ _ ok_constant)
  | |- runs (_ ← read_strings _ false _; _) _ _ => apply (codec_read _ (enc_list enc_text) _)
  | |- runs (_ ← read_strings _ true _; _) _ _ => apply (codec_read _ (enc_list enc_name) _)
  end; [try done; try (unfold ok_byte in *; lia); try (rewrite ?Nat2Z.id; done)|].

(** Parse one operand of arbitrary input. *)
Ltac parse_step :=
  match goal with
  | |- runs (_ ← read_u8 _; _) _ _ => cparse enc_u8 ok_byte
  | |- runs (_ ← read_u16 _; _) _ _ => cparse enc_u16 ok_u16
  | |- runs (_ ← read_u32 _; _) _ _ => cparse enc_u32 ok_u32
  | |- runs (_ ← read_name _; _) _ _ => cparse enc_name ok_name
  | |- runs (_ ← read_constant _; _) _ _ => cparse enc_constant ok_constant
  | |- runs (_ ← read_strings ?n false _; _) _ _ =>
      cparse (enc_list enc_text) (λ l, length l = n ∧ Forall ok_text l)
  | |- runs (_ ← read_strings ?n true _; _) _ _ =>
      cparse (enc_list enc_name) (λ l, length l = n ∧ Forall ok_name l)
  | |- runs (if ?c then fail _ else _) _ _ => destruct c eqn:?; [by apply runs_trap|]
  end; try (let H := fresh "Hok" in intros ? ? H -> ?).

Ltac parse_end :=
  mret; cbn [ok_instruction enc_instruction];
  repeat match goal with H : _ ∧ Forall _ _ |- _ => destruct H as [-> ?] end;
  unfold ok_byte, ok_u16, ok_u32 in *; rewrite ?Z2Nat.id by lia;
  split; [split_and?; (done || lia)|by rewrite <- ?(assoc (++))].

#[global] Instance codec_instruction : Codec instruction enc_instruction ok_instruction.
Proof.
  split.
  - intros i r Hi. unfold instruction.
    destruct i; cbn [ok_instruction enc_instruction] in *; destruct_and?; write_step; cbv iota;
      repeat write_step; rewrite ?Nat2Z.id;
      try match goal with |- runs (if ?c then _ else _) _ _ => replace c with false by lia end;
      by mret.
  - intros r Hr. unfold instruction. cparse enc_u8 ok_byte. intros op r1 Hop -> Hr1.
    destruct op as [|p|p]; [|do 5 (try (destruct p as [p|p|]; try by apply runs_trap))|by apply runs_trap];
      repeat parse_step; parse_end.
Qed.

(** ** Functions and programs *)

#[global] Instance codec_function total :
  Codec (λ r, read_function r total) enc_function (ok_function total).
Proof.
  split.
  - intros [name pu asy loc ps code] r (Hn & Hpa & Hl & Hc & Hps & Hi & Ht & Hcode).
    cbn [fname pure is_async local_effect params ins] in *. subst loc. unfold read_function, enc_function.
    cbn [fname pure is_async params ins]. write_step. write_step; [by destruct pu, asy|].
    replace (2 <? _) with false by (by destruct pu, asy).
    write_step. mbind runs_calloc as ? _. rewrite <- ?(assoc (++)), Nat2Z.id.
    apply (codec_read _ _ (λ l, length l = length ps ∧ Forall ok_name l)); [done|].
    write_step; [unfold ok_u32; lia|].
    replace ((1000000 <? _) || _) with false by lia. mbind runs_calloc as ? _. rewrite Nat2Z.id.
    apply (codec_read _ _ (λ l, length l = length code ∧ Forall ok_instruction l)); [done|].
    mret. destruct pu, asy; tauto.
  - intros r Hr. unfold read_function. repeat parse_step.
    mbind runs_calloc as ? _.
    cparse (enc_list enc_name) (λ l, length l = Z.to_nat x1 ∧ Forall ok_name l).
    intros ps r3 [Hps Hpok] -> Hr3. parse_step. destruct (_ || _) eqn:Hlim; [by apply runs_trap|].
    mbind runs_calloc as ? _.
    cparse (enc_list enc_instruction) (λ l, length l = Z.to_nat x2 ∧ Forall ok_instruction l).
    intros code r5 [Hcode Hcok] -> Hr5. mret. unfold ok_function, enc_function.
    cbn [fname pure is_async local_effect params ins]. unfold ok_byte, ok_u32 in *.
    rewrite Hps, Hcode, !Z2Nat.id by lia. split.
    + split_and!; (done || lia).
    + replace (if x0 =? 1 then 1 else if x0 =? 2 then 2 else 0) with x0.
      * by rewrite <- ?(assoc (++)).
      * destruct (Z.eqb_spec x0 1), (Z.eqb_spec x0 2); lia.
Qed.

#[global] Instance codec_functions n total :
  Codec (λ r, read_functions n r total) (enc_list enc_function)
    (λ fs, length fs = n ∧ ok_functions total fs).
Proof.
  split.
  - intros fs r [<- Hok]. revert total Hok.
    induction fs as [|f fs IH]; intros total Hok; [by mret|]. destruct Hok as [Hf Hfs].
    change (enc_list enc_function (f :: fs)) with (enc_function f ++ enc_list enc_function fs).
    rewrite <- (assoc (++)). cbn [length read_functions].
    mbind (codec_complete (Codec := codec_function total)) as ? ->; [done|].
    mbind (IH _ Hfs) as ? ->. by mret.
  - revert total. induction n as [|n IH]; intros total r Hr; cbn [read_functions]; [by mret|].
    mbind (codec_sound (Codec := codec_function total)) as [f r1] [Hf ->]; [done|].
    apply Forall_app in Hr as [_ Hr1].
    mbind IH as [fs r2] [[Hl Hfs] ->]; [done|]. mret.
    change (enc_list enc_function (f :: fs)) with (enc_function f ++ enc_list enc_function fs).
    rewrite <- (assoc (++)). split; [|done]. split; [simpl; lia|done].
Qed.

Lemma memcmp_magic data :
  (9 ≤ length data)%nat → (memcmp (take 9 data) magic =? 0) = bool_decide (take 9 data = magic).
Proof.
  intros Hl. assert (length (take 9 data) = length magic) as H9
    by (rewrite length_take; change (length magic) with 9%nat; lia).
  revert H9. generalize (take 9 data), magic. induction l as [|x l IH]; intros [|y l'] Hlen; try done.
  simpl. destruct (Z.eqb_spec x y) as [->|Hne].
  - rewrite IH by (simpl in Hlen; lia). apply bool_decide_ext. naive_solver.
  - rewrite bool_decide_false by congruence. by destruct (x <? y).
Qed.

Lemma decode_complete p : ok_program p → returns (decode (encode_program p)) (λ q, q = p).
Proof.
  destruct p as [fs b]. intros (Hn & Hok & Hb & Hlen). cbn [functions verified_function_order] in *.
  subst b. unfold decode. replace (MAX_ARTIFACT <? _) with false by lia.
  unfold encode_program. cbn [functions].
  replace (bool_decide _ || _) with false by (by vm_compute).
  replace (drop 9 _) with (enc_u16 9 ++ enc_u16 (Z.of_nat (length fs)) ++ enc_list enc_function fs) by done.
  unfold MAX_FUNCTIONS in *. write_step. cbn [Z.eqb Pos.eqb negb]. write_step; [unfold ok_u16; lia|].
  replace (4096 <? _) with false by lia. mbind runs_calloc as ? _. rewrite Nat2Z.id.
  rewrite <- (app_nil_r (enc_list enc_function fs)).
  mbind (codec_complete (Codec := codec_functions (length fs) 0)) as ? ->; [done|]. by mret.
Qed.

Lemma decode_sound data :
  Forall is_byte data →
  runs (decode data) (λ p, ok_program p ∧ data = encode_program p) decode_error.
Proof.
  intros Hd. unfold decode. destruct (Z.ltb_spec MAX_ARTIFACT (Z.of_nat (length data))) as [|Hlen];
    [by apply runs_trap|].
  destruct (bool_decide _ || _) eqn:Hm; [by apply runs_trap|]. apply orb_false_iff in Hm as [H9 Hm].
  apply bool_decide_eq_false in H9. rewrite memcmp_magic in Hm by lia.
  apply negb_false_iff, bool_decide_eq_true in Hm.
  assert (data = magic ++ drop 9 data) as Hdata by (by rewrite <- Hm, take_drop).
  set (r := drop 9 data) in *. clearbody r. subst data. apply Forall_app in Hd as [_ Hr].
  parse_step. destruct (Z.eqb_spec x 9) as [->|]; [|by apply runs_trap]. cbn [negb].
  parse_step. destruct (Z.ltb_spec MAX_FUNCTIONS x) as [|Hcount]; [by apply runs_trap|].
  mbind runs_calloc as ? _.
  mbind (codec_sound (Codec := codec_functions (Z.to_nat x) 0)) as [fs r2] [[Hl Hfs] ->]; [done|].
  case_bool_decide as Hr2; [|by apply runs_trap]. subst r2. mret.
  assert (magic ++ enc_u16 9 ++ enc_u16 x ++ enc_list enc_function fs ++ [] =
          encode_program (mkProgram fs false)) as He.
  { unfold encode_program. cbn [functions]. unfold ok_u16 in *.
    rewrite Hl, Z2Nat.id by lia. by rewrite app_nil_r. }
  split; [|done]. unfold ok_program. cbn [functions verified_function_order].
  rewrite <- He. unfold ok_u16 in *. split_and!; (done || lia).
Qed.

(** ** Decidability, for evaluating the conditions on concrete programs *)

#[global] Instance ok_string_dec max t : Decision (ok_string max t).
Proof. unfold ok_string. apply _. Defined.
#[global] Instance ok_name_dec t : Decision (ok_name t).
Proof. unfold ok_name. apply _. Defined.
#[global] Instance ok_text_dec t : Decision (ok_text t).
Proof. unfold ok_text. apply _. Defined.
#[global] Instance ok_constant_dec c : Decision (ok_constant c).
Proof. destruct c; simpl; unfold ok_nat; apply _. Defined.
#[global] Instance ok_instruction_dec i : Decision (ok_instruction i).
Proof. destruct i; simpl; unfold ok_byte, ok_u16, ok_u32; apply _. Defined.
#[global] Instance ok_function_dec total f : Decision (ok_function total f).
Proof. unfold ok_function, ok_byte. apply _. Defined.
#[global] Instance ok_functions_dec total fs : Decision (ok_functions total fs).
Proof. revert total. induction fs; intros; simpl; apply _. Defined.
#[global] Instance ok_program_dec p : Decision (ok_program p).
Proof. unfold ok_program. apply _. Defined.

Definition sample_program : Program :=
  mkProgram [mkFunction (str "main") false true false [str "x"; str "y"]
    [OP_CONST (CInt {| sign := -1; limbs := [300] |});
     OP_CONST (CDec true (-2) {| sign := 0; limbs := [] |});
     OP_CONST (CDec false 3 {| sign := 1; limbs := [125] |});
     OP_CONST (CText [226; 130; 172]); OP_INTERPOLATE [str "a"; str "b"];
     OP_ITER_NEXT (str "it") (str "v") 0; OP_AWAIT_CALL (str "sleep") 1; OP_RETURN]] false.

(** ** What decoding promises *)

(** C9: the decoder accepts exactly the encodings of the programs the format can
    carry: decoding an encoded program returns it, and whatever artifact is
    accepted is the encoding of the program returned, so the format is
    canonical; no input makes it read outside the artifact, and every refusal
    is a diagnostic. *)
Theorem decode_exact data :
  Forall is_byte data →
  runs (decode data)
    (λ p, ok_program p ∧ data = encode_program p)
    (λ f _, f = VM_FAULT_FATAL ∧ ¬ ∃ p, ok_program p ∧ data = encode_program p).
Proof.
  intros Hd al. destruct (decode_sound data Hd al) as (u & Hu & Ho). exists u. split; [done|].
  destruct (fst (decode data al)) eqn:E; try done. split; [done|].
  intros (p & Hp & ->). destruct (decode_complete p Hp al) as (u' & _ & Ho').
  by rewrite E in Ho'.
Qed.

Lemma decode_exact_witness :
  runs (decode (encode_program sample_program))
    (λ p, ok_program p ∧ encode_program sample_program = encode_program p)
    (λ f _, f = VM_FAULT_FATAL ∧
            ¬ ∃ p, ok_program p ∧ encode_program sample_program = encode_program p).
Proof. apply (decode_exact (encode_program sample_program)). decide_now. Defined.

(** C37: decoding is injective and total on encodings: a program the format can
    carry is recovered from its encoding, whatever its constants, names and
    instructions. *)
Theorem decode_encode_roundtrip p :
  ok_program p → returns (decode (encode_program p)) (λ q, q = p).
Proof. apply decode_complete. Qed.

Lemma decode_encode_roundtrip_witness :
  run (decode (encode_program sample_program)) = Ret sample_program ∧
  returns (decode (encode_program sample_program)) (λ q, q = sample_program).
Proof.
  split; [by vm_compute|]. apply (decode_encode_roundtrip sample_program). decide_now.
Defined.
