(* ===== verification/Builtins.v ===== *)
(** * The builtin registry: src/src/vm/builtins.c

    One table gives every builtin its arity, its purity and the routine that
    implements it; the verifier and the interpreter both consult it. *)

From Stdlib Require Import ZArith Lia.
From stdpp Require Import prelude gmap strings.
From S2P Require Import Prelude.

(** The routines of the [call] column. *)
Inductive Handler :=
| builtins_http_connection_call
| async_service_only
| builtins_http_writer_call
| builtins_http_state_call
| host_capability_call
| filesystem_stage_call
| digest_call
| http_stream_call
| gzip_stream_call
| host_type_call
| builtins_numeric_call
| host_call
| builtins_text_call
| builtins_collections_call
| builtins_vm_call.

#[global] Instance Handler_eq_dec : EqDecision Handler.
Proof. solve_decision. Defined.

Record Builtin := mkBuiltin { bname : string; barity : nat; bpure : bool; bcall : Handler }.

Definition BUILTINS : list Builtin := [
  mkBuiltin "http_bytes_slice" 3 true builtins_http_connection_call;
  mkBuiltin "http_body" 1 false builtins_http_connection_call;
  mkBuiltin "http_body_size" 1 false builtins_http_connection_call;
  mkBuiltin "http_body_append" 4 false builtins_http_connection_call;
  mkBuiltin "http_connection_continue" 1 false async_service_only;
  mkBuiltin "http_listen_ordinary" 2 false async_service_only;
  mkBuiltin "http_listen_contextual" 2 false async_service_only;
  mkBuiltin "http_close" 1 false async_service_only;
  mkBuiltin "http_destroy" 1 false async_service_only;
  mkBuiltin "http_connection_invoke" 4 false async_service_only;
  mkBuiltin "http_connection_writer" 1 false builtins_http_connection_call;
  mkBuiltin "http_connection_routes" 1 false builtins_http_connection_call;
  mkBuiltin "http_connection_fallback" 1 false builtins_http_connection_call;
  mkBuiltin "http_connection_admit" 1 false builtins_http_connection_call;
  mkBuiltin "http_writer_get_status" 1 false builtins_http_writer_call;
  mkBuiltin "http_writer_get_headers" 1 false builtins_http_writer_call;
  mkBuiltin "http_writer_reject" 1 false builtins_http_writer_call;
  mkBuiltin "http_writer_status" 2 false builtins_http_writer_call;
  mkBuiltin "http_writer_headers" 2 false builtins_http_writer_call;
  mkBuiltin "http_writer_commit" 2 false builtins_http_writer_call;
  mkBuiltin "http_state_create" 3 false builtins_http_state_call;
  mkBuiltin "http_state_context" 1 true builtins_http_state_call;
  mkBuiltin "http_state_setup_error" 1 false builtins_http_state_call;
  mkBuiltin "http_state_fail_setup" 1 false builtins_http_state_call;
  mkBuiltin "http_state_register" 4 false builtins_http_state_call;
  mkBuiltin "tcp_service" 6 false async_service_only;
  mkBuiltin "host_arguments_async" 0 false async_service_only;
  mkBuiltin "host_stdout_async" 1 false async_service_only;
  mkBuiltin "host_stderr_async" 1 false async_service_only;
  mkBuiltin "host_exit_async" 1 false async_service_only;
  mkBuiltin "async_fake_read" 1 false async_service_only;
  mkBuiltin "$tcp_exchange" 5 false async_service_only;
  mkBuiltin "$http_transport_exchange" 6 false async_service_only;
  mkBuiltin "$tcp_serve" 4 false async_service_only;
  mkBuiltin "$tcp_serve_stream" 5 false async_service_only;
  mkBuiltin "$tcp_server_read_chunk" 1 false async_service_only;
  mkBuiltin "fs_root_identity_async" 1 false async_service_only;
  mkBuiltin "fs_read_beneath_async" 3 false async_service_only;
  mkBuiltin "fs_read_beneath" 3 false host_capability_call;
  mkBuiltin "fs_directories_overlap" 2 false host_capability_call;
  mkBuiltin "fs_read" 2 false host_capability_call;
  mkBuiltin "fs_write" 2 false host_capability_call;
  mkBuiltin "fs_metadata" 1 false host_capability_call;
  mkBuiltin "fs_list" 1 false host_capability_call;
  mkBuiltin "fs_create_directory" 1 false host_capability_call;
  mkBuiltin "fs_remove_file" 1 false host_capability_call;
  mkBuiltin "fs_remove_directory" 1 false host_capability_call;
  mkBuiltin "fs_stage_begin" 1 false filesystem_stage_call;
  mkBuiltin "fs_stage_path" 1 false filesystem_stage_call;
  mkBuiltin "fs_stage_directory" 2 false filesystem_stage_call;
  mkBuiltin "fs_stage_write" 4 false filesystem_stage_call;
  mkBuiltin "fs_stage_symlink" 3 false filesystem_stage_call;
  mkBuiltin "fs_read_link" 2 false filesystem_stage_call;
  mkBuiltin "fs_stage_publish" 3 false filesystem_stage_call;
  mkBuiltin "fs_stage_close" 1 false filesystem_stage_call;
  mkBuiltin "digest_sha256_open" 0 false digest_call;
  mkBuiltin "digest_update" 2 false digest_call;
  mkBuiltin "digest_finish" 1 false digest_call;
  mkBuiltin "digest_close" 1 false digest_call;
  mkBuiltin "http_stream_open" 6 false http_stream_call;
  mkBuiltin "http_stream_read" 1 false http_stream_call;
  mkBuiltin "http_stream_close" 1 false http_stream_call;
  mkBuiltin "gzip_open" 1 false gzip_stream_call;
  mkBuiltin "gzip_step" 3 false gzip_stream_call;
  mkBuiltin "gzip_close" 1 false gzip_stream_call;
  mkBuiltin "fs_read_chunk" 3 false filesystem_stage_call;
  mkBuiltin "fs_atomic_write" 2 false filesystem_stage_call;
  mkBuiltin "fs_temp_file" 1 false host_capability_call;
  mkBuiltin "fs_temp_directory" 1 false host_capability_call;
  mkBuiltin "host_decode_utf8" 1 true host_capability_call;
  mkBuiltin "host_sleep" 1 false host_capability_call;
  mkBuiltin "process_run" 7 false host_capability_call;
  mkBuiltin "process_run_isolated" 7 false host_capability_call;
  mkBuiltin "path_from_text" 1 true host_type_call;
  mkBuiltin "path_from_native" 1 true host_type_call;
  mkBuiltin "path_to_text" 1 true host_type_call;
  mkBuiltin "path_native_bytes" 1 true host_type_call;
  mkBuiltin "path_display" 1 true host_type_call;
  mkBuiltin "path_absolute" 1 true host_type_call;
  mkBuiltin "path_append" 2 true host_type_call;
  mkBuiltin "path_directory" 1 true host_type_call;
  mkBuiltin "path_filename" 1 true host_type_call;
  mkBuiltin "path_current" 0 true host_type_call;
  mkBuiltin "duration_nanoseconds" 1 true host_type_call;
  mkBuiltin "duration_ticks" 1 true host_type_call;
  mkBuiltin "duration_from_seconds" 1 true host_type_call;
  mkBuiltin "instant_now" 0 false host_type_call;
  mkBuiltin "instant_add" 2 true host_type_call;
  mkBuiltin "instant_difference" 2 true host_type_call;
  mkBuiltin "instant_before" 2 true host_type_call;
  mkBuiltin "$unit" 0 true builtins_numeric_call;
  mkBuiltin "nat" 1 true builtins_numeric_call;
  mkBuiltin "dec" 1 true builtins_numeric_call;
  mkBuiltin "quotient" 2 true builtins_numeric_call;
  mkBuiltin "print" 1 false host_call;
  mkBuiltin "read_line" 0 false host_call;
  mkBuiltin "read_file" 1 false host_call;
  mkBuiltin "write_file" 2 false host_call;
  mkBuiltin "len" 1 true builtins_text_call;
  mkBuiltin "append" 2 true builtins_collections_call;
  mkBuiltin "concat" 2 true builtins_text_call;
  mkBuiltin "slice" 3 true builtins_text_call;
  mkBuiltin "starts_with" 2 true builtins_text_call;
  mkBuiltin "starts_with_at" 3 true builtins_text_call;
  mkBuiltin "reverse" 1 true builtins_text_call;
  mkBuiltin "is_digit" 1 true builtins_text_call;
  mkBuiltin "is_letter" 1 true builtins_text_call;
  mkBuiltin "is_whitespace" 1 true builtins_text_call;
  mkBuiltin "map" 0 true builtins_collections_call;
  mkBuiltin "map_put" 3 true builtins_collections_call;
  mkBuiltin "map_has" 2 true builtins_collections_call;
  mkBuiltin "map_get" 2 true builtins_collections_call;
  mkBuiltin "$method_put" 3 true builtins_collections_call;
  mkBuiltin "$method_has" 2 true builtins_collections_call;
  mkBuiltin "$method_get" 2 true builtins_collections_call;
  mkBuiltin "set" 0 true builtins_collections_call;
  mkBuiltin "set_add" 2 true builtins_collections_call;
  mkBuiltin "set_has" 2 true builtins_collections_call;
  mkBuiltin "$method_add" 2 true builtins_collections_call;
  mkBuiltin "bytes" 0 true builtins_collections_call;
  mkBuiltin "byte_append" 2 true builtins_text_call;
  mkBuiltin "bytes_concat" 2 true builtins_text_call;
  mkBuiltin "byte_len" 1 true builtins_text_call;
  mkBuiltin "byte_get" 2 true builtins_text_call;
  mkBuiltin "utf8_encode" 1 true builtins_text_call;
  mkBuiltin "utf8_decode" 1 true builtins_text_call;
  mkBuiltin "read_bytes" 1 false host_call;
  mkBuiltin "write_bytes" 2 false host_call;
  mkBuiltin "nat_from_str" 1 true builtins_text_call;
  mkBuiltin "command_args" 0 false host_call;
  mkBuiltin "environment_has" 1 false host_call;
  mkBuiltin "environment_get" 1 false host_call;
  mkBuiltin "eprint" 1 false host_call;
  mkBuiltin "process_exit" 1 false host_call;
  mkBuiltin "path_resolve" 1 false host_call;
  mkBuiltin "path_parent" 1 true host_call;
  mkBuiltin "path_join" 2 true host_call;
  mkBuiltin "path_suffix" 1 true host_call;
  mkBuiltin "path_with_suffix" 2 true host_call;
  mkBuiltin "path_is_absolute" 1 true host_call;
  mkBuiltin "file_exists" 1 false host_call;
  mkBuiltin "run_bytecode" 1 false builtins_vm_call;
  mkBuiltin "run_bytecode_args" 2 false builtins_vm_call].

Definition builtin (name : list Z) : option Builtin :=
  List.find (λ b, is_name name (bname b)) BUILTINS.

Definition builtin_is_async (entry : option Builtin) : bool :=
  match entry with Some b => bool_decide (bcall b = async_service_only) | None => false end.

Definition builtin_is_local_state (entry : option Builtin) : bool :=
  match entry with
  | Some b => bool_decide (bcall b = builtins_http_state_call) ||
              bool_decide (bcall b = builtins_http_writer_call) ||
              bool_decide (bcall b = builtins_http_connection_call)
  | None => false
  end.
