(* ===== verification/Verify.v ===== *)
(** * Bytecode verification: src/src/vm/verify.c

    The effect inference that marks functions which only touch resource shells
    they already own, and the checks a program passes before it is run. *)

From Stdlib Require Import ZArith Lia.
From stdpp Require Import prelude gmap strings.
From S2P Require Import Prelude Bigint Value Program Builtins.

(** ** Operations *)

Definition verify_call_edge (caller : Function) (callee : option Function)
  (builtin_pure builtin_async builtin_local awaited : bool) : bool :=
  let async := match callee with Some g => is_async g | None => builtin_async end in
  let pure_ := match callee with Some g => pure g | None => builtin_pure end in
  if awaited then is_async caller && negb (pure caller) && async
  else
    let local := match callee with Some g => local_effect g | None => builtin_local end in
    if pure caller then negb async && pure_
    else negb async && (negb (is_async caller || local_effect caller) || pure_ || local).

(** The function a name denotes in [p]. *)
Definition lookup_function (p : Program) (name : list Z) : option Function :=
  k ← program_function p name; functions p !! k.

(** [pure] and [resource] of a call, as the inference computes them. *)
Definition call_effect (p : Program) (name : list Z) : bool * bool :=
  match builtin name with
  | Some entry => (bpure entry, builtin_is_local_state (Some entry))
  | None =>
      match lookup_function p name with
      | Some callee => (pure callee, local_effect callee)
      | None => (false, false)
      end
  end.

(** The inner loop: (safe, local) over the instructions, stopping when unsafe. *)
Fixpoint scan (p : Program) (code : list Instruction) (local : bool) : bool * bool :=
  match code with
  | [] => (true, local)
  | i :: code' =>
      match i with
      | OP_CALL_VALUE _ | OP_AWAIT_VALUE _ | OP_AWAIT_CALL _ _ => (false, local)
      | OP_CALL name _ =>
          let '(pure_, resource) := call_effect p name in
          if pure_ || resource then scan p code' (local || resource)
          else (false, local || resource)
      | _ => scan p code' local
      end
  end.

Definition set_local (b : bool) (f : Function) : Function :=
  mkFunction (fname f) (pure f) (is_async f) b (params f) (ins f).

Definition set_functions (p : Program) (fs : list Function) : Program :=
  mkProgram fs (verified_function_order p).

(** The body of the loop over functions for index [i]: the program and [changed]. *)
Definition infer_one (p : Program) (changed : bool) (i : nat) : Program * bool :=
  match functions p !! i with
  | None => (p, changed)
  | Some f =>
      if pure f || is_async f || local_effect f then (p, changed)
      else
        let '(safe, local) := scan p (ins f) false in
        if safe && local
        then (set_functions p (<[i := set_local true f]> (functions p)), true)
        else (p, changed)
  end.

Definition infer_pass (p : Program) : Program * bool :=
  foldl (λ '(p, changed) i, infer_one p changed i) (p, false) (seq 0 (length (functions p))).

(** [do { ... } while (changed)]: every pass but the last marks a function. *)
Fixpoint infer_loop (fuel : nat) (p : Program) : option Program :=
  match fuel with
  | O => None
  | S f => let '(p', changed) := infer_pass p in if changed then infer_loop f p' else Some p'
  end.

Definition infer_local_effects (p : Program) : option Program :=
  infer_loop (S (length (functions p))) (set_functions p (set_local false <$> functions p)).

(** No two parameters have the same name. *)
Fixpoint distinct (ps : list (list Z)) : bool :=
  match ps with
  | [] => true
  | x :: ps' => forallb (λ y, negb (streq x y)) ps' && distinct ps'
  end.

(** The checks on a call; [None] when it is accepted. *)
Definition check_call (p : Program) (f : Function) (name : list Z) (arity : nat) (awaited : bool)
  : option string :=
  let b := builtin name in
  let called := lookup_function p name in
  match b, called with
  | None, None => Some "call to unknown function"
  | _, _ =>
      let expected := match b, called with
                      | Some e, _ => barity e
                      | None, Some g => length (params g)
                      | None, None => 0%nat end in
      if negb (Nat.eqb arity expected) then Some "call arity mismatch"
      else if negb (verify_call_edge f (match b with Some _ => None | None => called end)
                      (match b with Some e => bpure e | None => false end)
                      (builtin_is_async b) (builtin_is_local_state b) awaited)
      then Some (if pure f then "pure function calls impure function"
                 else "invalid async call effect")
      else None
  end.

Definition check_target (f : Function) (target : nat) : option string :=
  if Nat.leb (length (ins f)) target then Some "invalid jump target" else None.

(** The checks on one instruction.  The opcodes beyond OP_AWAIT_VALUE refused by
    the code have no [Instruction]. *)
Definition check_instruction (p : Program) (f : Function) (i : Instruction) : option string :=
  match i with
  | OP_INTERPOLATE items => if Nat.eqb (length items) 0 then Some "invalid INTERPOLATE operand" else None
  | OP_ITER_NEXT _ _ t | OP_MATCH_VARIANT _ t | OP_JUMP_FALSE t | OP_JUMP t => check_target f t
  | OP_AWAIT_VALUE _ => if negb (is_async f) then Some "invalid async instruction" else None
  | OP_CALL name arity => check_call p f name arity false
  | OP_AWAIT_CALL name arity => check_call p f name arity true
  | _ => None
  end.

(** The first diagnostic of a loop. *)
Fixpoint first_error {A} (check : A → option string) (l : list A) : option string :=
  match l with
  | [] => None
  | x :: l' => match check x with Some e => Some e | None => first_error check l' end
  end.

Definition is_return (i : Instruction) : bool := match i with OP_RETURN => true | _ => false end.

(** The checks on the function at index [i]. *)
Definition check_function (p : Program) (i : nat) : option string :=
  match functions p !! i with
  | None => None
  | Some f =>
      if (pure f && is_async f) || Nat.eqb (strlen (fname f)) 0 then Some "invalid function signature"
      else if match i with
              | O => false
              | S j => match functions p !! j with
                       | Some g => 0 <=? strcmp (fname g) (fname f)
                       | None => false
                       end
              end
      then Some "functions are not in canonical order"
      else if negb (distinct (params f)) then Some "invalid function signature"
      else if Nat.eqb (length (ins f)) 0 then Some "bytecode function is empty"
      else match first_error (check_instruction p f) (ins f) with
           | Some e => Some e
           | None => if existsb is_return (ins f) then None else Some "bytecode function has no RETURN"
           end
  end.

(** [verify]: the program as verification leaves it, or the diagnostic. *)
Definition verify (p : Program) : outcome Program :=
  match infer_local_effects (mkProgram (functions p) false) with
  | None => Diverge
  | Some p =>
      match lookup_function p (str "main") with
      | None => Trap VM_FAULT_FATAL "bytecode has no main function"
      | Some main =>
          if negb (Nat.eqb (length (params main)) 0)
          then Trap VM_FAULT_FATAL "main must not have parameters"
          else
            match first_error (check_function p) (seq 0 (length (functions p))) with
            | Some e => Trap VM_FAULT_FATAL e
            | None => Ret (mkProgram (functions p) true)
            end
      end
  end.

(** ** Effect inference computes a least fixpoint *)

(** [q] is [p] with possibly more functions marked. *)
Definition more_marked (f g : Function) : Prop :=
  g = set_local (local_effect g) f ∧ (local_effect f = true → local_effect g = true).

Definition grows (p q : Program) : Prop :=
  Forall2 more_marked (functions p) (functions q) ∧
  verified_function_order p = false ∧ verified_function_order q = false.

(** A function the inference would mark. *)
Definition eligible (p : Program) (f : Function) : Prop :=
  pure f = false ∧ is_async f = false ∧ scan p (ins f) false = (true, true).

#[global] Instance more_marked_refl : Reflexive more_marked.
Proof. intros []. done. Qed.

#[global] Instance more_marked_trans : Transitive more_marked.
Proof.
  intros f g h [Hg Hfg] [Hh Hgh]. split; [|auto]. rewrite Hh, Hg. done.
Qed.

#[global] Instance grows_trans : Transitive grows.
Proof. intros p q r (H1 & ? & _) (H2 & _ & ?). split; [by etrans|done]. Qed.

Lemma linear_names fs gs name i :
  Forall2 more_marked fs gs → linear fs name i = linear gs name i.
Proof.
  intros H. revert i. induction H as [|f g fs gs [Hg _] _ IH]; intros i; [done|].
  simpl. rewrite IH, Hg. done.
Qed.

Lemma grows_lookup p q name :
  grows p q →
  match lookup_function p name, lookup_function q name with
  | Some f, Some g => more_marked f g
  | None, None => True
  | _, _ => False
  end.
Proof.
  intros (Hfs & Hp & Hq). unfold lookup_function, program_function. rewrite Hp, Hq.
  rewrite (linear_names _ _ _ _ Hfs).
  destruct (linear (functions q) name 0) as [k|]; [|done]. simpl.
  destruct (functions p !! k) eqn:E1, (functions q !! k) eqn:E2; try done.
  - by eapply Forall2_lookup_lr.
  - apply Forall2_length in Hfs. apply lookup_lt_Some in E1. apply lookup_ge_None in E2. lia.
  - apply Forall2_length in Hfs. apply lookup_lt_Some in E2. apply lookup_ge_None in E1. lia.
Qed.

Lemma call_effect_mono p q name :
  grows p q →
  fst (call_effect p name) = fst (call_effect q name) ∧
  (snd (call_effect p name) = true → snd (call_effect q name) = true).
Proof.
  intros Hg. unfold call_effect. destruct (builtin name); [done|].
  pose proof (grows_lookup p q name Hg) as H.
  destruct (lookup_function p name) as [f|], (lookup_function q name) as [g|]; try done.
  destruct H as [Hgf Hm]. rewrite Hgf. simpl. split; [done|]. by rewrite Hgf in Hm.
Qed.

Lemma scan_mono p q code l l' :
  grows p q → (l = true → l' = true) →
  scan p code l = (true, true) → scan q code l' = (true, true).
Proof.
  intros Hg. revert l l'. induction code as [|i code IH]; intros l l' Hl; simpl.
  - intros [= ->]. by rewrite Hl.
  - destruct i; try (by apply IH); try done.
    pose proof (call_effect_mono p q name Hg) as [H1 H2].
    destruct (call_effect p name) as [u r], (call_effect q name) as [u' r']. simpl in H1, H2. subst u'.
    destruct (u || r) eqn:E; [|done]. assert (u || r' = true) as ->.
    { apply orb_true_iff in E as [->| ->]; [done|]. rewrite H2 by done. by destruct u. }
    apply IH. rewrite !orb_true_iff. tauto.
Qed.

Lemma eligible_mono p q f g : grows p q → more_marked f g → eligible p f → eligible q g.
Proof.
  intros Hg [Hgf _] (H1 & H2 & H3). rewrite Hgf. split_and!; try done. simpl.
  by eapply scan_mono.
Qed.

(** One step of the inference. *)
Definition marked (p : Program) : nat := length (filter (λ f, local_effect f = true) (functions p)).

Lemma set_local_more f : local_effect f = false → more_marked f (set_local true f).
Proof. intros Hf. split; [done|]. by rewrite Hf. Qed.

(** Marking one eligible function, the step relation of the inference. *)
Inductive marks (p : Program) : Program → Prop :=
| mark_function i f :
    functions p !! i = Some f → local_effect f = false → eligible p f →
    verified_function_order p = false →
    marks p (set_functions p (<[i := set_local true f]> (functions p))).

(** No function is left to mark. *)
Definition closed (p : Program) : Prop :=
  ∀ i f, functions p !! i = Some f → eligible p f → local_effect f = true.

Lemma infer_one_marks p c i :
  verified_function_order p = false →
  let '(p', c') := infer_one p c i in
  (p' = p ∧ c' = c ∧ (∀ f, functions p !! i = Some f → eligible p f → local_effect f = true)) ∨
  (c' = true ∧ marks p p').
Proof.
  intros Hv. unfold infer_one. destruct (functions p !! i) as [f|] eqn:Hf; [|left; naive_solver].
  destruct (pure f || is_async f || local_effect f) eqn:Hc.
  { left. split_and!; [done..|]. intros g [= <-] (H1 & H2 & _). rewrite H1, H2 in Hc. done. }
  apply orb_false_iff in Hc as [[Hp Ha]%orb_false_iff Hl].
  destruct (scan p (ins f) false) as [safe local] eqn:Hs.
  destruct (safe && local) eqn:Hsl.
  - right. apply andb_true_iff in Hsl as [-> ->]. split; [done|]. by constructor.
  - left. split_and!; [done..|]. intros g [= <-] (_ & _ & H3). rewrite Hs in H3. by simplify_eq.
Qed.

Lemma marks_grows p q : marks p q → grows p q.
Proof.
  intros [i f Hf Hl He Hv]. split; [|done]. simpl.
  apply Forall2_same_length_lookup_2; [by rewrite length_insert|].
  intros j x y Hx Hy. destruct (decide (i = j)) as [<-|Hne].
  - rewrite list_lookup_insert_eq in Hy by (by eapply lookup_lt_Some). simplify_eq.
    by apply set_local_more.
  - rewrite list_lookup_insert_ne in Hy by done. by simplify_eq.
Qed.

Lemma marks_count p q : marks p q → marked q = S (marked p).
Proof.
  intros [i f Hf Hl He Hv]. unfold marked. simpl.
  rewrite insert_take_drop by (by eapply lookup_lt_Some).
  rewrite <- (take_drop_middle (functions p) i f Hf) at 3.
  rewrite !filter_app, !filter_cons, !length_app.
  rewrite decide_True by done. rewrite decide_False by (simpl; congruence). simpl. lia.
Qed.

Lemma marked_bound p : (marked p ≤ length (functions p))%nat.
Proof. apply length_filter. Qed.

Lemma marks_unverified p q : rtc marks p q → verified_function_order p = false →
  verified_function_order q = false ∧ length (functions q) = length (functions p) ∧
  (marked p ≤ marked q)%nat.
Proof.
  induction 1 as [|p q r Hpq _ IH]; intros Hv; [done|].
  pose proof (marks_count p q Hpq) as Hc. destruct (marks_grows p q Hpq) as (Hl & _ & Hq).
  apply Forall2_length in Hl. destruct (IH Hq) as (? & ? & ?). split_and!; [done|lia|lia].
Qed.

(** A pass is a sequence of markings; if it reports no change it made none and
    every function was examined. *)
Lemma infer_fold js p c :
  verified_function_order p = false →
  let '(p', c') := foldl (λ '(p, c) i, infer_one p c i) (p, c) js in
  rtc marks p p' ∧
  (c' = false → c = false ∧ p' = p ∧
     ∀ i f, i ∈ js → functions p !! i = Some f → eligible p f → local_effect f = true) ∧
  (c = false → c' = true → (marked p < marked p')%nat).
Proof.
  revert p c. induction js as [|i js IH]; intros p c Hv; simpl.
  { split_and!; [done| |naive_solver]. intros ->. split_and!; [done..|]. set_solver. }
  pose proof (infer_one_marks p c i Hv) as H1. destruct (infer_one p c i) as [p1 c1].
  destruct H1 as [(-> & -> & Hi)|(-> & Hm)].
  - specialize (IH p c Hv). destruct (foldl _ _ js) as [p' c']. destruct IH as (H1 & H2 & H3).
    split_and!; [done| |done]. intros Hc'. destruct (H2 Hc') as (-> & -> & Hjs).
    split_and!; [done..|]. intros j f [->|Hj]%elem_of_cons; [by apply Hi|by apply Hjs].
  - destruct (marks_unverified p p1) as (Hv1 & _ & _); [by apply rtc_once|done|].
    specialize (IH p1 true Hv1). destruct (foldl _ _ js) as [p' c']. destruct IH as (H1 & H2 & _).
    pose proof (marks_count p p1 Hm). destruct (marks_unverified p1 p' H1 Hv1) as (_ & _ & ?).
    split_and!; [by eapply rtc_l| |lia]. intros Hc'. by destruct (H2 Hc').
Qed.

Lemma infer_loop_spec fuel p :
  verified_function_order p = false → (length (functions p) - marked p < fuel)%nat →
  ∃ p', infer_loop fuel p = Some p' ∧ rtc marks p p' ∧ closed p'.
Proof.
  revert p. induction fuel as [|n IH]; intros p Hv Hf; [lia|]. cbn [infer_loop].
  pose proof (infer_fold (seq 0 (length (functions p))) p false Hv) as H.
  change (foldl _ _ _) with (infer_pass p) in H. destruct (infer_pass p) as [p1 c1].
  destruct H as (Hr & Hno & Hyes). destruct (marks_unverified p p1 Hr Hv) as (Hv1 & Hl1 & _).
  destruct c1.
  - specialize (Hyes eq_refl eq_refl). pose proof (marked_bound p1).
    destruct (IH p1 Hv1) as (p' & Hp' & Hr' & Hc'); [lia|].
    exists p'. split_and!; [done|by etrans|done].
  - destruct (Hno eq_refl) as (_ & -> & Hall). exists p. split_and!; [done..|].
    intros i f Hi. apply (Hall i f); [|done]. apply elem_of_seq. apply lookup_lt_Some in Hi. lia.
Qed.

(** Every mark is justified by the marks of the result. *)
Definition justified (p : Program) : Prop :=
  ∀ i f, functions p !! i = Some f → local_effect f = true → eligible p f.

Lemma marks_justified p q : rtc marks p q → justified p → justified q.
Proof.
  induction 1 as [|p q r Hpq _ IH]; [done|]. intros Hj. apply IH. clear IH r.
  pose proof (marks_grows p q Hpq) as Hg. destruct Hpq as [i f Hf Hl He Hv].
  intros j g Hg' Hgl. simpl in Hg'. destruct (decide (i = j)) as [<-|Hne].
  - rewrite list_lookup_insert_eq in Hg' by (by eapply lookup_lt_Some). simplify_eq.
    eapply eligible_mono; [done|by apply set_local_more|done].
  - rewrite list_lookup_insert_ne in Hg' by done. eapply eligible_mono; [done..|by apply (Hj j)].
Qed.

(** A closed marking above [p] stays above it. *)
Lemma marks_least p q r : rtc marks p q → grows p r → closed r → grows q r.
Proof.
  induction 1 as [|p q q' Hpq _ IH]; [done|]. intros Hg Hc. apply IH; [|done]. clear IH q'.
  pose proof (marks_grows p q Hpq) as (_ & _ & Hvq). destruct Hpq as [i f Hf Hl He Hv].
  destruct Hg as (Hfs & Hvp & Hvr). split; [|done]. simpl.
  apply Forall2_same_length_lookup_2; [rewrite length_insert; by eapply Forall2_length|].
  intros j x y Hx Hy. destruct (decide (i = j)) as [<-|Hne].
  - rewrite list_lookup_insert_eq in Hx by (by eapply lookup_lt_Some). simplify_eq.
    pose proof (Forall2_lookup_lr _ _ _ _ _ _ Hfs Hf Hy) as [Hxy Hm].
    assert (local_effect y = true) as Hyl.
    { eapply (Hc i); [done|]. by eapply eligible_mono; [by split|split; [exact Hxy|exact Hm]|]. }
    split; [|done]. rewrite Hxy at 1. done.
  - rewrite list_lookup_insert_ne in Hx by done. by eapply Forall2_lookup_lr.
Qed.

Definition unmark (fs : list Function) : Program := mkProgram (set_local false <$> fs) false.

Lemma infer_spec fs :
  ∃ p', infer_local_effects (mkProgram fs false) = Some p' ∧
    rtc marks (unmark fs) p' ∧ closed p' ∧ justified p'.
Proof.
  unfold infer_local_effects.
  destruct (infer_loop_spec (S (length fs)) (unmark fs)) as (p' & Hp' & Hr & Hc); [done| |].
  { simpl. rewrite length_fmap. lia. }
  exists p'. split_and!; [done..|]. eapply marks_justified; [done|].
  intros i f Hf Hl. simpl in Hf. rewrite list_lookup_fmap in Hf.
  destruct (fs !! i); [|done]. simplify_eq/=.
Qed.

(** ** What an accepted program looks like *)

Definition call_ok (p : Program) (f : Function) (name : list Z) (arity : nat) (awaited : bool) : Prop :=
  match builtin name with
  | Some e => arity = barity e ∧
      verify_call_edge f None (bpure e) (builtin_is_async (Some e))
        (builtin_is_local_state (Some e)) awaited = true
  | None => ∃ g, lookup_function p name = Some g ∧ arity = length (params g) ∧
      verify_call_edge f (Some g) false false false awaited = true
  end.

Definition instruction_ok (p : Program) (f : Function) (i : Instruction) : Prop :=
  match i with
  | OP_INTERPOLATE items => items ≠ []
  | OP_ITER_NEXT _ _ t | OP_MATCH_VARIANT _ t | OP_JUMP_FALSE t | OP_JUMP t => (t < length (ins f))%nat
  | OP_AWAIT_VALUE _ => is_async f = true
  | OP_CALL name arity => call_ok p f name arity false
  | OP_AWAIT_CALL name arity => call_ok p f name arity true
  | _ => True
  end.

Definition function_ok (p : Program) (f : Function) : Prop :=
  ¬ (pure f = true ∧ is_async f = true) ∧ cstr (fname f) ≠ [] ∧ NoDup (cstr <$> params f) ∧
  OP_RETURN ∈ ins f ∧ Forall (instruction_ok p f) (ins f).

Record well_formed (p : Program) : Prop := {
  wf_sorted : sorted_functions (functions p);
  wf_functions : Forall (function_ok p) (functions p);
  wf_main : ∃ f, lookup_function p (str "main") = Some f ∧ params f = [];
}.

Lemma first_error_none {A} (check : A → option string) l :
  first_error check l = None ↔ Forall (λ x, check x = None) l.
Proof.
  induction l as [|x l IH]; simpl; [by split|]. rewrite Forall_cons, <- IH.
  destruct (check x); naive_solver.
Qed.

Lemma distinct_spec ps : distinct ps = true ↔ NoDup (cstr <$> ps).
Proof.
  induction ps as [|x ps IH]; simpl; [by split; [constructor|]|].
  rewrite NoDup_cons, <- IH, andb_true_iff, List.forallb_forall.
  enough ((∀ y, In y ps → negb (streq x y) = true) ↔ cstr x ∉ cstr <$> ps) as -> by done.
  rewrite list_elem_of_fmap. split.
  - intros H (y & Hy & Hin%list_elem_of_In). specialize (H y Hin).
    rewrite negb_true_iff, streq_cstr, bool_decide_eq_false in H. done.
  - intros H y Hin. rewrite negb_true_iff, streq_cstr, bool_decide_eq_false. intros He.
    apply H. exists y. split; [done|by apply list_elem_of_In].
Qed.

Lemma check_call_spec p f name arity awaited :
  check_call p f name arity awaited = None ↔ call_ok p f name arity awaited.
Proof.
  unfold check_call, call_ok. destruct (builtin name) as [e|].
  - destruct (Nat.eqb_spec arity (barity e)); simpl; [|split; [done|by intros [? _]]].
    destruct (verify_call_edge f None _ _ _ _); simpl; [done|split; [done|by intros [_ ?]]].
  - destruct (lookup_function p name) as [g|]; [|split; [done|by intros (? & ? & _)]].
    destruct (Nat.eqb_spec arity (length (params g))); simpl;
      [|split; [done|by intros (? & [= <-] & ? & _)]].
    destruct (verify_call_edge f (Some g) _ _ _ _) eqn:E; simpl;
      [split; [|done]; intros _; by exists g|split; [done|intros (? & [= <-] & _ & ?); congruence]].
Qed.

Lemma check_instruction_spec p f i : check_instruction p f i = None ↔ instruction_ok p f i.
Proof.
  destruct i; simpl; try done; try apply check_call_spec; unfold check_target.
  - destruct items; simpl; naive_solver.
  - destruct (Nat.leb_spec (length (ins f)) target); split; intros; (done || lia).
  - destruct (Nat.leb_spec (length (ins f)) target); split; intros; (done || lia).
  - destruct (Nat.leb_spec (length (ins f)) target); split; intros; (done || lia).
  - destruct (Nat.leb_spec (length (ins f)) target); split; intros; (done || lia).
  - destruct (is_async f); simpl; naive_solver.
Qed.

Lemma existsb_return code : existsb is_return code = true ↔ OP_RETURN ∈ code.
Proof.
  rewrite List.existsb_exists. split.
  - intros (i & Hin%list_elem_of_In & Hi). by destruct i.
  - intros Hin%list_elem_of_In. by exists OP_RETURN.
Qed.

Lemma check_function_spec p i f :
  functions p !! i = Some f →
  check_function p i = None ↔
    function_ok p f ∧
    (∀ j g, i = S j → functions p !! j = Some g → strcmp (fname g) (fname f) = -1).
Proof.
  intros Hf. unfold check_function, function_ok. rewrite Hf.
  rewrite <- distinct_spec, <- existsb_return.
  rewrite <- (Forall_iff (λ x, check_instruction p f x = None)) by (intros; apply check_instruction_spec).
  rewrite <- first_error_none.
  assert (cstr (fname f) ≠ [] ↔ strlen (fname f) ≠ 0%nat) as ->.
  { unfold strlen. destruct (cstr (fname f)); simpl; naive_solver. }
  assert ((match i with O => false | S j => match functions p !! j with
             | Some g => 0 <=? strcmp (fname g) (fname f) | None => false end end) = false ↔
          (∀ j g, i = S j → functions p !! j = Some g → strcmp (fname g) (fname f) = -1)) as <-.
  { destruct i as [|j]; [naive_solver|]. split.
    - intros H k g [= <-] Hg. rewrite Hg in H. pose proof (strcmp_range (fname g) (fname f)). lia.
    - intros H. destruct (functions p !! j) as [g|] eqn:Hg; [|done]. rewrite (H j g eq_refl Hg). done. }
  assert (existsb is_return (ins f) = true → length (ins f) ≠ 0%nat) as Hne by (by destruct (ins f)).
  destruct (pure f), (is_async f), (Nat.eqb_spec (strlen (fname f)) 0); simpl; try naive_solver;
  (destruct (match i with O => false | S _ => _ end); [naive_solver|]);
  (destruct (distinct (params f)); simpl; [|naive_solver]);
  (destruct (Nat.eqb_spec (length (ins f)) 0); [naive_solver|]);
  (destruct (first_error _ _); [naive_solver|]);
  (destruct (existsb is_return (ins f)); naive_solver).
Qed.

(** Lookups do not depend on the search used. *)
Lemma lookup_function_order fs name :
  sorted_functions fs → byte_names fs →
  lookup_function (mkProgram fs true) name = lookup_function (mkProgram fs false) name.
Proof.
  intros Hs Hb. unfold lookup_function, program_function. simpl. by rewrite bsearch_linear.
Qed.

Lemma function_ok_order fs f :
  sorted_functions fs → byte_names fs →
  function_ok (mkProgram fs true) f ↔ function_ok (mkProgram fs false) f.
Proof.
  intros Hs Hb. unfold function_ok.
  assert (∀ i, instruction_ok (mkProgram fs true) f i ↔ instruction_ok (mkProgram fs false) f i) as H.
  { intros []; simpl; try done; unfold call_ok; by rewrite lookup_function_order. }
  by rewrite (Forall_iff _ _ _ H).
Qed.

Lemma checks_spec fs :
  byte_names fs →
  first_error (check_function (mkProgram fs false)) (seq 0 (length fs)) = None ↔
  sorted_functions fs ∧ Forall (function_ok (mkProgram fs true)) fs.
Proof.
  intros Hb. rewrite first_error_none, Forall_seq.
  assert ((∀ i, (0 ≤ i < 0 + length fs)%nat → check_function (mkProgram fs false) i = None) ↔
          (∀ i f, fs !! i = Some f → function_ok (mkProgram fs false) f ∧
             ∀ j g, i = S j → fs !! j = Some g → strcmp (fname g) (fname f) = -1)) as ->.
  { split.
    - intros H i f Hf. apply (check_function_spec (mkProgram fs false)); [done|]. apply H.
      apply lookup_lt_Some in Hf. lia.
    - intros H i Hi. destruct (lookup_lt_is_Some_2 fs i) as [f Hf]; [lia|].
      apply (check_function_spec (mkProgram fs false) i f Hf). by apply H. }
  split.
  - intros H. assert (sorted_functions fs) as Hs.
    { intros i f g Hf Hg. destruct (H (S i) g Hg) as [_ Hlt]. by apply (Hlt i f). }
    split; [done|]. apply Forall_lookup. intros i f Hf. rewrite function_ok_order by done. by apply (H i).
  - intros [Hs Hall] i f Hf. split.
    + rewrite <- function_ok_order by done. by apply (Forall_lookup_1 _ _ _ _ Hall Hf).
    + intros j g -> Hg. by apply (Hs j).
Qed.

(** Verification changes nothing but the effect marks. *)
Definition same_code (f g : Function) : Prop := g = set_local (local_effect g) f.

Lemma marks_same_code fs p' : rtc marks (unmark fs) p' → Forall2 same_code fs (functions p').
Proof.
  assert (∀ p q, rtc marks p q → Forall2 same_code fs (functions p) →
            Forall2 same_code fs (functions q)) as H.
  { induction 1 as [|p q r Hpq _ IH]; [done|]. intros Hp. apply IH. clear IH r.
    destruct (marks_grows p q Hpq) as (Hg & _ & _).
    clear Hpq. revert Hg. generalize (functions q). induction Hp as [|f g fs gs Hfg _ IH];
      intros qs Hq; inversion_clear Hq as [|? h ? hs [Hh _] ?]; constructor; [|auto].
    unfold same_code in *. rewrite Hh, Hfg. done. }
  intros Hr. eapply H; [done|]. simpl. rewrite Forall2_fmap_r.
  apply Forall_Forall2_diag, Forall_true. intros []. done.
Qed.

Lemma same_code_names fs gs : Forall2 same_code fs gs → byte_names fs → byte_names gs.
Proof.
  intros H Hb. unfold byte_names in *. induction H as [|f g fs gs Hg _ IH]; [constructor|].
  inversion_clear Hb. constructor; [by rewrite Hg|by apply IH].
Qed.

(** The program [fs] with its inferred effects, ready to be searched by name. *)
Definition inferred (fs : list Function) (p : Program) : Prop :=
  verified_function_order p = true ∧ Forall2 same_code fs (functions p) ∧
  closed (mkProgram (functions p) false) ∧ justified (mkProgram (functions p) false).

Lemma verify_spec p :
  byte_names (functions p) →
  ∃ q, inferred (functions p) q ∧
    ((well_formed q ∧ verify p = Ret q) ∨
     (¬ well_formed q ∧ ∃ e, verify p = Trap VM_FAULT_FATAL e)).
Proof.
  intros Hb. unfold verify.
  destruct (infer_spec (functions p)) as (q & -> & Hr & Hc & Hj).
  pose proof (marks_same_code _ _ Hr) as Hsame. pose proof (same_code_names _ _ Hsame Hb) as Hbq.
  destruct (marks_unverified _ _ Hr eq_refl) as (Hv & _ & _).
  destruct q as [gs v]. cbn [functions verified_function_order] in *. subst v. exists (mkProgram gs true). split; [done|].
  assert (sorted_functions gs → ∀ name,
    lookup_function (mkProgram gs true) name = lookup_function (mkProgram gs false) name) as Hlook.
  { intros Hs name. by apply lookup_function_order. }
  pose proof (checks_spec gs Hbq) as Hcheck.
  destruct (lookup_function (mkProgram gs false) (str "main")) as [m|] eqn:Hm.
  2:{ right. split; [|by eexists]. intros [Hs _ (f & Hf & _)]. cbn [functions] in *. by rewrite Hlook, Hm in Hf by done. }
  destruct (Nat.eqb_spec (length (params m)) 0) as [H0|H0]; cbn [negb].
  2:{ right. split; [|by eexists]. intros [Hs _ (f & Hf & Hp)]. cbn [functions] in *.
      rewrite Hlook, Hm in Hf by done. simplify_eq. by rewrite Hp in H0. }
  destruct (first_error _ _) as [e|].
  - right. split; [|by eexists]. intros [Hs Hall _]. cbn [functions] in *.
    assert (Some e = None) by (apply Hcheck; done). done.
  - left. destruct (proj1 Hcheck eq_refl) as [Hs Hall]. split; [|done].
    split; cbn [functions]; [done..|]. exists m. rewrite Hlook by done. split; [done|].
    by apply nil_length_inv.
Qed.

(** ** Effects of verified programs *)

(** The builtins a function can reach through named calls. *)
Inductive reaches (p : Program) : Function → Builtin → Prop :=
| reaches_builtin f name arity e :
    OP_CALL name arity ∈ ins f ∨ OP_AWAIT_CALL name arity ∈ ins f →
    builtin name = Some e → reaches p f e
| reaches_call f name arity g e :
    OP_CALL name arity ∈ ins f ∨ OP_AWAIT_CALL name arity ∈ ins f →
    builtin name = None → lookup_function p name = Some g → reaches p g e → reaches p f e.

Lemma lookup_function_elem p name g : lookup_function p name = Some g → g ∈ functions p.
Proof.
  unfold lookup_function. destruct (program_function p name) as [k|]; [|done].
  apply list_elem_of_lookup_2.
Qed.

Lemma pure_call_ok p f name arity awaited :
  pure f = true → call_ok p f name arity awaited →
  (∀ e, builtin name = Some e → bpure e = true ∧ builtin_is_async (Some e) = false) ∧
  (∀ g, builtin name = None → lookup_function p name = Some g → pure g = true).
Proof.
  intros Hf Hc. unfold call_ok, verify_call_edge in Hc. rewrite Hf in Hc.
  destruct (builtin name) as [e|].
  - destruct Hc as [_ Hc]. split; [|done]. intros e' [= <-]. destruct awaited.
    + rewrite andb_false_r in Hc. done.
    + apply andb_true_iff in Hc as [Hc1 Hc2]. by rewrite negb_true_iff in Hc1.
  - destruct Hc as (g & Hg & _ & Hc). split; [done|]. intros g' _ Hg'. simplify_eq. destruct awaited.
    + rewrite andb_false_r in Hc. done.
    + by apply andb_true_iff in Hc as [_ Hc].
Qed.

Lemma call_instruction_ok p f name arity :
  function_ok p f → OP_CALL name arity ∈ ins f ∨ OP_AWAIT_CALL name arity ∈ ins f →
  ∃ awaited, call_ok p f name arity awaited.
Proof.
  intros (_ & _ & _ & _ & Hall) Hin. rewrite Forall_forall in Hall.
  destruct Hin as [H|H]; apply Hall in H; by eexists.
Qed.

Lemma pure_reaches p f e :
  well_formed p → reaches p f e → f ∈ functions p → pure f = true →
  bpure e = true ∧ builtin_is_async (Some e) = false.
Proof.
  intros [_ Hall _]. rewrite Forall_forall in Hall.
  induction 1 as [f name arity e Hin Hb|f name arity g e Hin Hb Hg _ IH]; intros Hf Hp.
  - destruct (call_instruction_ok p f name arity (Hall f Hf) Hin) as [aw Hc].
    by apply (pure_call_ok p f name arity aw Hp Hc).
  - destruct (call_instruction_ok p f name arity (Hall f Hf) Hin) as [aw Hc].
    apply IH; [by eapply lookup_function_elem|]. by eapply (pure_call_ok p f name arity aw Hp Hc).
Qed.

(** What a marked function may call. *)
Lemma scan_call p code l name arity :
  scan p code l = (true, true) →
  (OP_AWAIT_CALL name arity ∉ code) ∧
  (OP_CALL name arity ∈ code →
   fst (call_effect p name) = true ∨ snd (call_effect p name) = true).
Proof.
  revert l. induction code as [|i code IH]; intros l Hs; [set_solver|]. simpl in Hs.
  rewrite !elem_of_cons.
  destruct i as [| | | | | | | | | | | | | | | | |n a| | | | | |];
    try (destruct (IH _ Hs) as [H1 H2]; split; [by intros [?|?]|by intros [?|?]; auto]); try done.
  destruct (call_effect p n) as [u r] eqn:E. destruct (u || r) eqn:Hur; [|done].
  destruct (IH _ Hs) as [H1 H2]. split; [by intros [?|?]|]. intros [[= -> ->]|?]; [|auto].
  rewrite E. simpl. apply orb_true_iff in Hur. done.
Qed.

Lemma marked_reaches p f e :
  well_formed p → inferred (functions p) p → byte_names (functions p) →
  reaches p f e → f ∈ functions p → local_effect f = true ∨ pure f = true →
  bpure e = true ∨ builtin_is_local_state (Some e) = true.
Proof.
  intros Hwf (Hv & _ & _ & Hj) Hb Hr.
  assert (∀ name, lookup_function (mkProgram (functions p) false) name = lookup_function p name) as Hlook.
  { intros name. destruct p as [fs v]. simpl in *. subst v. symmetry.
    apply lookup_function_order; [apply Hwf|done]. }
  induction Hr as [f name arity e Hin Hbn|f name arity g e Hin Hbn Hg Hr IH]; intros Hf Hm.
  all: destruct Hm as [Hm|Hp];
    [|left; eapply (pure_reaches p f); [done| |done|done];
      first [by eapply reaches_builtin|by eapply reaches_call]].
  all: apply list_elem_of_lookup in Hf as [k Hk]; destruct (Hj k f Hk Hm) as (_ & _ & Hs);
    destruct (scan_call _ _ _ name arity Hs) as [Hna Hcall];
    assert (OP_CALL name arity ∈ ins f) as Hin' by tauto; specialize (Hcall Hin');
    unfold call_effect in Hcall; rewrite Hbn in Hcall; simpl in Hcall.
  - done.
  - rewrite Hlook, Hg in Hcall. simpl in Hcall. apply IH; [by eapply lookup_function_elem|tauto].
Qed.

(** ** What verification promises *)

(** C32: effect inference terminates within one pass per function and computes the
    least fixpoint of its rule: the marked functions are exactly those whose
    every call is pure or touches an owned resource, at least one does, and no
    smaller closed marking exists; nothing but the marks changes. *)
Theorem infer_least_fixpoint fs :
  ∃ p, infer_local_effects (mkProgram fs false) = Some p ∧
    Forall2 same_code fs (functions p) ∧
    (∀ i f, functions p !! i = Some f → local_effect f = true ↔ eligible p f) ∧
    (∀ q, grows (unmark fs) q → closed q → grows p q).
Proof.
  destruct (infer_spec fs) as (p & Hp & Hr & Hc & Hj). exists p. split_and!; [done|..].
  - by apply marks_same_code.
  - intros i f Hf. split; [by eapply Hj|by eapply Hc].
  - intros q Hg Hq. by eapply marks_least.
Qed.

(** C10: [verify] accepts exactly the well-formed programs, and never fails to
    terminate: the program it returns has its names in strict order (so that
    the binary search is valid), jump targets inside their functions, calls
    that resolve with the right arity and a permitted effect, a RETURN in
    every function and a parameterless main. *)
Theorem verify_exact p :
  byte_names (functions p) →
  ∃ q, inferred (functions p) q ∧
    ((well_formed q ∧ verify p = Ret q) ∨
     (¬ well_formed q ∧ ∃ e, verify p = Trap VM_FAULT_FATAL e)).
Proof. apply verify_spec. Qed.

Definition checked_program : Program :=
  mkProgram
    [mkFunction (str "helper") true false false [str "x"] [OP_LOAD (str "x"); OP_RETURN];
     mkFunction (str "main") false false false []
       [OP_CONST CVoid; OP_CALL (str "helper") 1; OP_CALL (str "print") 1; OP_RETURN]] false.

Lemma verify_exact_witness :
  (∃ q, verify checked_program = Ret q) ∧
  ∃ q, inferred (functions checked_program) q ∧
    ((well_formed q ∧ verify checked_program = Ret q) ∨
     (¬ well_formed q ∧ ∃ e, verify checked_program = Trap VM_FAULT_FATAL e)).
Proof.
  split; [eexists; vm_compute; reflexivity|].
  apply (verify_exact checked_program). decide_now.
Defined.

(** C20: in a program verification returned, no builtin reachable by named calls
    from a pure function is impure or asynchronous, and every builtin reachable
    from a function marked local is pure or confined to resource shells. *)
Theorem verified_effects p q f e :
  byte_names (functions p) → verify p = Ret q → f ∈ functions q → reaches q f e →
  (pure f = true → bpure e = true ∧ builtin_is_async (Some e) = false) ∧
  (local_effect f = true → bpure e = true ∨ builtin_is_local_state (Some e) = true).
Proof.
  intros Hb Hq Hf Hr. destruct (verify_spec p Hb) as (q' & Hi & [[Hwf Hq']|[_ [? Hq']]]); [|congruence].
  rewrite Hq in Hq'. injection Hq' as <-. pose proof Hi as (Hv & Hs & Hc & Hj).
  split; intros Hm; [by eapply pure_reaches|].
  eapply (marked_reaches q); [done| |by eapply same_code_names|done..|by left].
  split_and!; [done| |done|done]. apply Forall_Forall2_diag, Forall_true. by intros [].
Qed.

(** Effects through a call: [outer] and [inner] are pure, [respond] and [status]
    work on a resource shell and are marked local by verification. *)
Definition effect_function (name callee : string) (p local : bool) : Function :=
  mkFunction (str name) p false local [str "x"] [OP_LOAD (str "x"); OP_CALL (str callee) 1; OP_RETURN].
Definition effect_program (local verified : bool) : Program :=
  mkProgram
    [effect_function "inner" "path_to_text" true false;
     mkFunction (str "main") false false false [] [OP_CONST CVoid; OP_CALL (str "print") 1; OP_RETURN];
     effect_function "outer" "inner" true false; effect_function "respond" "status" false local;
     effect_function "status" "http_writer_get_status" false local] verified.

Lemma effect_verified : verify (effect_program false false) = Ret (effect_program true true).
Proof. vm_compute. reflexivity. Qed.

(** [outer] and [respond] reach a builtin through the function they call. *)
Lemma effect_reaches i name callee local b :
  functions (effect_program true true) !! i = Some (effect_function callee name local (negb local)) →
  builtin (str name) = Some b → builtin (str callee) = None →
  lookup_function (effect_program true true) (str callee) = Some (effect_function callee name local (negb local)) →
  ∀ caller, reaches (effect_program true true) (effect_function caller callee local (negb local)) b.
Proof.
  intros Hi Hb Hn Hl caller. eapply (reaches_call _ _ (str callee) 1); [left; right; left|done|exact Hl|].
  apply (reaches_builtin _ _ (str name) 1); [left; right; left|done].
Qed.

Lemma verified_effects_witness :
  (bpure (mkBuiltin "path_to_text" 1 true host_type_call) = true ∧ builtin_is_async (Some (mkBuiltin "path_to_text" 1 true host_type_call)) = false) ∧
  (bpure (mkBuiltin "http_writer_get_status" 1 false builtins_http_writer_call) = true ∨
   builtin_is_local_state (Some (mkBuiltin "http_writer_get_status" 1 false builtins_http_writer_call)) = true).
Proof.
  assert (byte_names (functions (effect_program false false))) as Hb by decide_now. split.
  - apply (verified_effects (effect_program false false) (effect_program true true) (effect_function "outer" "inner" true false));
      [exact Hb|exact effect_verified|right; right; left| |reflexivity].
    apply (effect_reaches 0 "path_to_text" "inner" true); vm_compute; reflexivity.
  - apply (verified_effects (effect_program false false) (effect_program true true) (effect_function "respond" "status" false true));
      [exact Hb|exact effect_verified|right; right; right; left| |reflexivity].
    apply (effect_reaches 4 "http_writer_get_status" "status" false); vm_compute; reflexivity.
Defined.
