(* ===== verification/Render.v ===== *)
(** * Rendering: src/src/vm/buffer.c and render.c

    The growable byte buffer and the text form of every value, used by string
    interpolation and printing. *)

From Stdlib Require Import ZArith Lia.
From stdpp Require Import prelude gmap strings.
From S2P Require Import Prelude Bigint Digits Value Decimals Equal.
#[local] Open Scope Z_scope.

(** ** Buffers *)

(** The bytes written and the size of the allocation that holds them. *)
Record Buffer := mkBuffer { content : list Z; capacity : Z }.

Definition empty_buffer : Buffer := mkBuffer [] 0.

(** [while (cap < need)]: doubling, refused when it would wrap. *)
Fixpoint grow (fuel : nat) (cap need : Z) : M Z :=
  if cap <? need then
    match fuel with
    | O => diverge
    | S f => if SIZE_MAX / 2 <? cap then nomem else grow f (cap * 2) need
    end
  else mret cap.

Definition buffer_add (b : Buffer) (s : list Z) : M Buffer :=
  let n := Z.of_nat (length s) in
  let length := Z.of_nat (length (content b)) in
  if u64 (SIZE_MAX - length - 1) <? n then nomem
  else
    let need := length + n + 1 in
    cap ← (if capacity b <? need then
             cap ← grow 64 (if capacity b =? 0 then 64 else capacity b) need;
             _ ← alloc;
             mret cap
           else mret (capacity b));
    if cap <? need then undef
    else mret (mkBuffer (content b ++ s) cap).

(** [buffer_text] of a C string. *)
Definition buffer_text (b : Buffer) (s : list Z) : M Buffer := buffer_add b (cstr s).
Definition buffer_lit (b : Buffer) (s : string) : M Buffer := buffer_text b (str s).

(** ** Values *)

Fixpoint add_zeros (n : nat) (b : Buffer) : M Buffer :=
  match n with
  | O => mret b
  | S m => b ← buffer_lit b "0"; add_zeros m b
  end.

Definition render_decimal (b : Buffer) (d : Decimal) : M Buffer :=
  raw ← pn_big_string (coefficient d);
  let minus := bool_decide (head raw = Some 45) in
  let digits := if minus then tail raw else raw in
  let n := strlen digits in
  b ← (if minus || negative_zero d then buffer_lit b "-" else mret b);
  if 0 <=? exponent d then
    b ← buffer_text b digits;
    add_zeros (Z.to_nat (exponent d)) b
  else
    let places := Z.to_nat (- exponent d) in
    if Nat.ltb places n then
      b ← buffer_add b (take (n - places) digits);
      b ← buffer_lit b ".";
      buffer_add b (take places (drop (n - places) digits))
    else
      b ← buffer_lit b "0.";
      b ← add_zeros (places - n) b;
      buffer_text b digits.

Definition hex_digit (d : Z) : Z := if d <? 10 then 48 + d else 87 + d.
(** [snprintf(hex, 3, "%02x", byte)] *)
Definition hex (b : Z) : list Z := [hex_digit (b / 16); hex_digit (b mod 16)].

Fixpoint render_hex (b : Buffer) (bytes : list Z) : M Buffer :=
  match bytes with
  | [] => mret b
  | x :: rest => b ← buffer_text b (hex x); render_hex b rest
  end.

(** The comma before every element but the first. *)
Definition separator (first : bool) (b : Buffer) : M Buffer :=
  if first then mret b else buffer_lit b ", ".

(** The loops over elements, over key and value pairs and over named fields;
    [r] renders one value in display form. *)
Definition render_items (r : Buffer → Value → M Buffer)
  : bool → list Value → Buffer → M Buffer :=
  fix go first l b :=
    match l with
    | [] => mret b
    | x :: l' => b ← separator first b; b ← r b x; go false l' b
    end.

Definition render_entries (r : Buffer → Value → M Buffer)
  : bool → list Value → Buffer → M Buffer :=
  fix go first l b :=
    match l with
    | [] => mret b
    | [_] => undef
    | k :: x :: l' =>
        b ← separator first b; b ← r b k; b ← buffer_lit b ": "; b ← r b x; go false l' b
    end.

Definition render_fields (r : Buffer → Value → M Buffer)
  : bool → list Value → list (list Z) → Buffer → M Buffer :=
  fix go first l names b :=
    match l, names with
    | [], _ => mret b
    | x :: l', n :: names' =>
        b ← separator first b; b ← buffer_text b n; b ← buffer_lit b ": ";
        b ← r b x; go false l' names' b
    | _ :: _, [] => undef
    end.

Fixpoint render (b : Buffer) (v : Value) (display : bool) {struct v} : M Buffer :=
  let show b x := render b x true in
  match v with
  | HttpConnection _ => buffer_lit b "<HttpConnectionState>"
  | HttpState _ => buffer_lit b "<HttpServerState>"
  | HttpWriter _ => buffer_lit b "<HttpResponseState>"
  | Path _ => buffer_lit b "<Path>"
  | Instant _ => buffer_lit b "<Instant>"
  | Duration n => t ← pn_big_string n; b ← buffer_text b t; buffer_lit b "ns"
  | Nat_ n | Int_ n => t ← pn_big_string n; buffer_text b t
  | VUnit => buffer_lit b "()"
  | Rat n d =>
      n ← pn_big_string n; d ← pn_big_string d;
      b ← buffer_text b n; b ← buffer_lit b "/"; buffer_text b d
  | Dec d => render_decimal b d
  | Str t =>
      b ← (if display then buffer_add b [34] else mret b);
      b ← buffer_add b (data t);
      if display then buffer_add b [34] else mret b
  | Bool_ x => buffer_lit b (if x then "true" else "false")
  | Void => buffer_lit b "void"
  | Bytes s => b ← buffer_lit b "bytes("; b ← render_hex b s; buffer_lit b ")"
  | Array l => b ← buffer_lit b "["; b ← render_items show true l b; buffer_lit b "]"
  | Set_ l => b ← buffer_lit b "set{"; b ← render_items show true l b; buffer_lit b "}"
  | Map_ l => b ← buffer_lit b "{"; b ← render_entries show true l b; buffer_lit b "}"
  | Variant n l =>
      b ← buffer_text b n; b ← buffer_lit b "("; b ← render_items show true l b; buffer_lit b ")"
  | Record_ n names l =>
      b ← buffer_text b n; b ← buffer_lit b "("; b ← render_fields show true l names b; buffer_lit b ")"
  | _ => buffer_lit b "<value>"
  end.

(** ** Buffers are appended to, within their allocation *)

(** The terminating NUL fits, except in the buffer not yet allocated. *)
Definition wf_buffer (b : Buffer) : Prop :=
  Z.of_nat (length (content b)) < capacity b ≤ SIZE_MAX ∨ b = empty_buffer.

(** [b'] is [b] followed by [s]. *)
Definition appended (b : Buffer) (s : list Z) (b' : Buffer) : Prop :=
  wf_buffer b' ∧ content b' = content b ++ s.

Lemma grow_spec fuel cap need E :
  0 < cap ≤ SIZE_MAX → need ≤ cap * 2 ^ Z.of_nat fuel → need ≤ 2 ^ 62 →
  runs (grow fuel cap need) (λ c, need ≤ c ≤ SIZE_MAX) E.
Proof.
  revert cap. induction fuel as [|f IH]; intros cap Hc Hn Hb; cbn [grow];
    (destruct (Z.ltb_spec cap need); [|mret; lia]).
  - simpl in Hn. lia.
  - replace (SIZE_MAX / 2 <? cap) with false by clia.
    apply IH; [clia| |done]. rewrite Nat2Z.inj_succ, Z.pow_succ_r in Hn by lia. lia.
Qed.

Definition room (b : Buffer) (s : list Z) : Prop :=
  Z.of_nat (length (content b)) + Z.of_nat (length s) < 2 ^ 62 - 1.

Lemma buffer_add_spec b s E : wf_buffer b → room b s → runs (buffer_add b s) (appended b s) E.
Proof.
  unfold room. intros Hb Hr. unfold buffer_add.
  rewrite u64_small by clia. replace (_ <? _) with false by clia.
  eapply (runs_bind _ _ (λ cap, Z.of_nat (length (content b)) + Z.of_nat (length s) + 1 ≤ cap ≤ SIZE_MAX)).
  - assert (0 ≤ capacity b ≤ SIZE_MAX) as Hcap by (destruct Hb as [Hb| ->]; simpl; clia).
    destruct (Z.ltb_spec (capacity b) (Z.of_nat (length (content b)) + Z.of_nat (length s) + 1));
      [|mret; clia].
    mbind grow_spec as c Hc; [destruct (Z.eqb_spec (capacity b) 0); clia| |clia|].
    { destruct (Z.eqb_spec (capacity b) 0); change (2 ^ Z.of_nat 64) with (2 ^ 64); clia. }
    mbind runs_alloc as ? _. by mret.
  - intros cap Hcap. cbv beta. replace (cap <? _) with false by lia. mret.
    split; [left; simpl; rewrite length_app; lia|done].
Qed.

Lemma cstr_str s : cstr (str s) = str s ∨ ∃ c, c ∈ str s ∧ c = 0.
Proof.
  induction s as [|c s IH]; [by left|]. simpl. destruct (Z.eqb_spec (ascii_code c) 0) as [H|H].
  - right. exists 0. split; [rewrite H; left|done].
  - destruct IH as [->|(x & Hx & ->)]; [by left|]. right. exists 0. split; [by right|done].
Qed.

(** ** The text of a value *)

Definition show_int (z : Z) : list Z :=
  (if z <? 0 then [45] else []) ++ ((λ d, 48 + d) <$> coefficient_digits_of (Z.abs z)).

(** A decimal shows every digit of its scale: as many fraction digits as its
    negative exponent, as many trailing zeros as its positive one. *)
Definition show_decimal (d : Decimal) : list Z :=
  let z := to_Z (coefficient d) in
  let digits := (λ d, 48 + d) <$> coefficient_digits_of (Z.abs z) in
  (if (z <? 0) || negative_zero d then [45] else []) ++
  if 0 <=? exponent d then digits ++ replicate (Z.to_nat (exponent d)) 48
  else
    let places := Z.to_nat (- exponent d) in
    let padded := replicate (places + 1 - length digits) 48 ++ digits in
    take (length padded - places) padded ++ [46] ++ drop (length padded - places) padded.

Fixpoint join (l : list (list Z)) : list Z :=
  match l with
  | [] => []
  | [x] => x
  | x :: l' => x ++ str ", " ++ join l'
  end.

(** Key and value of each entry. *)
Fixpoint pairs (l : list (list Z)) : list (list Z) :=
  match l with
  | k :: x :: l' => (k ++ str ": " ++ x) :: pairs l'
  | _ => []
  end.

Definition fields (names : list (list Z)) (l : list (list Z)) : list (list Z) :=
  zip_with (λ n x, cstr n ++ str ": " ++ x) names l.

Fixpoint show (display : bool) (v : Value) : list Z :=
  match v with
  | HttpConnection _ => str "<HttpConnectionState>"
  | HttpState _ => str "<HttpServerState>"
  | HttpWriter _ => str "<HttpResponseState>"
  | Path _ => str "<Path>"
  | Instant _ => str "<Instant>"
  | Duration n => show_int (to_Z n) ++ str "ns"
  | Nat_ n | Int_ n => show_int (to_Z n)
  | VUnit => str "()"
  | Rat n d => show_int (to_Z n) ++ str "/" ++ show_int (to_Z d)
  | Dec d => show_decimal d
  | Str t => if display then [34] ++ data t ++ [34] else data t
  | Bool_ x => if x then str "true" else str "false"
  | Void => str "void"
  | Bytes s => str "bytes(" ++ concat (hex <$> s) ++ str ")"
  | Array l => str "[" ++ join (show true <$> l) ++ str "]"
  | Set_ l => str "set{" ++ join (show true <$> l) ++ str "}"
  | Map_ l => str "{" ++ join (pairs (show true <$> l)) ++ str "}"
  | Variant n l => cstr n ++ str "(" ++ join (show true <$> l) ++ str ")"
  | Record_ n names l => cstr n ++ str "(" ++ join (fields names (show true <$> l)) ++ str ")"
  | Range _ _ _ | Iter _ => str "<value>"
  end.

(** What rendering needs of a value: canonical numbers, bytes, entries in pairs
    and a name for every field. *)
Fixpoint renderable (v : Value) : Prop :=
  match v with
  | Nat_ n | Int_ n | Duration n => wf n
  | Rat n d => wf n ∧ wf d
  | Dec d => wf (coefficient d)
  | Bytes s => Forall is_byte s
  | Array l | Set_ l | Variant _ l => foldr (λ x P, renderable x ∧ P) True l
  | Map_ l => Nat.even (length l) = true ∧ foldr (λ x P, renderable x ∧ P) True l
  | Record_ _ names l => length names = length l ∧ foldr (λ x P, renderable x ∧ P) True l
  | _ => True
  end.

Lemma renderable_forall l : foldr (λ x P, renderable x ∧ P) True l ↔ Forall renderable l.
Proof. induction l; simpl; rewrite ?Forall_cons; naive_solver. Qed.

(** ** Rendering appends the text *)

(** [m] appends exactly [s] to [b]. *)
Definition appends (m : Buffer → M Buffer) (s : list Z) : Prop :=
  ∀ b, wf_buffer b → room b s → returns (m b) (appended b s).

Lemma appends_add s : appends (λ b, buffer_add b s) s.
Proof. intros b Hb Hr. by apply buffer_add_spec. Qed.

Lemma appends_nil : appends (λ b, mret b) [].
Proof. intros b Hb _. mret. split; [done|]. by rewrite app_nil_r. Qed.

Lemma appends_seq m k s t :
  appends m s → appends k t → appends (λ b, b ← m b; k b) (s ++ t).
Proof.
  intros Hm Hk b Hb Hr. unfold room in Hr. rewrite length_app in Hr.
  mbind Hm as b1 [Hb1 Hc1]; [done|unfold room; lia|].
  eapply runs_mono; [apply Hk; [done|]| |done].
  - unfold room. rewrite Hc1, length_app. lia.
  - intros b2 [Hb2 Hc2]. split; [done|]. by rewrite Hc2, Hc1, (assoc (++)).
Qed.

Lemma appends_lit s : forallb (λ c, negb (c =? 0)) (str s) = true → appends (λ b, buffer_lit b s) (str s).
Proof.
  intros Hs. unfold buffer_lit, buffer_text.
  assert (cstr (str s) = str s) as ->; [|apply appends_add].
  destruct (cstr_str s) as [?|(c & Hin & ->)]; [done|].
  rewrite List.forallb_forall in Hs. apply list_elem_of_In in Hin. by apply Hs in Hin.
Qed.

Lemma appends_ext m m' s : (∀ b al, m b al = m' b al) → appends m s → appends m' s.
Proof. intros He Hm b Hb Hr al. rewrite <- He. by apply Hm. Qed.

Lemma appends_int n : wf n → appends (λ b, t ← pn_big_string n; buffer_text b t) (show_int (to_Z n)).
Proof.
  intros Hn b Hb Hr. mbind string_spec as t (ds & -> & Hd); [done|].
  pose proof (decimal_text _ _ (Z.abs_nonneg _) Hd) as Hds. unfold buffer_text.
  assert (cstr ((if to_Z n <? 0 then [45] else []) ++ ds) = show_int (to_Z n)) as ->;
    [|by apply buffer_add_spec].
  unfold show_int. rewrite <- Hds. destruct Hd as [Hall _].
  destruct (to_Z n <? 0); simpl; by rewrite cstr_digits.
Qed.

Lemma appends_text n : appends (λ b, buffer_text b n) (cstr n).
Proof. unfold buffer_text. apply appends_add. Qed.

Lemma appends_zeros n : appends (add_zeros n) (replicate n 48).
Proof.
  induction n as [|n IH]; [apply appends_nil|].
  apply (appends_seq (λ b, buffer_lit b "0") (add_zeros n) [48]); [by apply (appends_lit "0")|done].
Qed.

Lemma appends_digits ds :
  Forall (λ d, 48 ≤ d ≤ 57) ds → appends (λ b, buffer_text b ds) ds.
Proof. intros H. unfold buffer_text. rewrite cstr_digits by done. apply appends_add. Qed.

(** The two ways of placing the decimal point are one: pad to [places] + 1
    digits, then split. *)
Lemma point_split ds places :
  let padded := replicate (places + 1 - length ds) 48 ++ ds in
  take (length padded - places) padded ++ [46] ++ drop (length padded - places) padded =
  if Nat.ltb places (length ds)
  then take (length ds - places) ds ++ [46] ++ drop (length ds - places) ds
  else [48; 46] ++ replicate (places - length ds) 48 ++ ds.
Proof.
  intros padded. subst padded. destruct (Nat.ltb_spec places (length ds)).
  - by replace (places + 1 - length ds)%nat with 0%nat by lia.
  - rewrite length_app, length_replicate.
    replace (places + 1 - length ds + length ds - places)%nat with 1%nat by lia.
    by replace (places + 1 - length ds)%nat with (S (places - length ds)) by lia.
Qed.

Lemma appends_decimal d :
  wf (coefficient d) → appends (λ b, render_decimal b d) (show_decimal d).
Proof.
  intros Hd b Hb Hr. unfold render_decimal, show_decimal in *.
  mbind string_spec as raw (ds & -> & Hdec); [done|].
  rewrite <- (decimal_text _ _ (Z.abs_nonneg _) Hdec) in *.
  pose proof Hdec as (Hall & _ & Hne & _). set (z := to_Z (coefficient d)) in *.
  assert (bool_decide (head ((if z <? 0 then [45] else []) ++ ds) = Some 45) = (z <? 0)) as ->.
  { destruct (z <? 0); [done|]. apply bool_decide_false. destruct Hall; [done|]. simpl. intros [= ->]. lia. }
  assert ((if z <? 0 then tail ((if z <? 0 then [45] else []) ++ ds)
           else (if z <? 0 then [45] else []) ++ ds) = ds) as -> by (by destruct (z <? 0)).
  unfold strlen. rewrite cstr_digits by done. rewrite point_split in Hr |- *.
  refine (appends_seq (λ b, if (z <? 0) || negative_zero d then buffer_lit b "-" else mret b)
            _ _ _ _ _ b Hb Hr); clear b Hb Hr.
  { destruct ((z <? 0) || negative_zero d); [by apply (appends_lit "-")|apply appends_nil]. }
  destruct (0 <=? exponent d).
  { apply appends_seq; [by apply appends_digits|apply appends_zeros]. }
  destruct (Nat.ltb_spec (Z.to_nat (- exponent d)) (length ds)) as [Hlt|Hge].
  - apply appends_seq; [apply appends_add|]. apply appends_seq; [by apply (appends_lit ".")|].
    rewrite (take_ge (drop _ _)) by (rewrite length_drop; lia). apply appends_add.
  - apply (appends_seq _ _ [48; 46]); [by apply (appends_lit "0.")|].
    apply appends_seq; [apply appends_zeros|by apply appends_digits].
Qed.

Definition commas (l : list (list Z)) : list Z := concat ((λ x, str ", " ++ x) <$> l).

Lemma join_commas x l : join (x :: l) = x ++ commas l.
Proof.
  revert x. induction l as [|y l IH]; intros x; [by rewrite app_nil_r|].
  change (join (x :: y :: l)) with (x ++ str ", " ++ join (y :: l)). rewrite IH.
  unfold commas. simpl. by rewrite <- ?(assoc (++)).
Qed.

Definition after (first : bool) (l : list (list Z)) : list Z := if first then join l else commas l.

Lemma after_cons first x l :
  after first (x :: l) = (if first then [] else str ", ") ++ x ++ after false l.
Proof. destruct first; simpl; [apply join_commas|]. unfold commas. simpl. by rewrite ?(assoc (++)). Qed.

Lemma appends_separator first : appends (separator first) (if first then [] else str ", ").
Proof. destruct first; [apply appends_nil|by apply (appends_lit ", ")]. Qed.

Section loops.
Context (r : Buffer → Value → M Buffer) (sh : Value → list Z).

Lemma appends_items first l :
  Forall (λ x, appends (λ b, r b x) (sh x)) l →
  appends (render_items r first l) (after first (sh <$> l)).
Proof.
  intros H. revert first. induction H as [|x l Hx _ IH]; intros first.
  { destruct first; apply appends_nil. }
  rewrite fmap_cons, after_cons. apply (appends_seq (separator first)); [apply appends_separator|].
  apply (appends_seq (λ b, r b x)); [done|apply IH].
Qed.

Lemma appends_entries first l :
  Forall (λ x, appends (λ b, r b x) (sh x)) l → Nat.even (length l) = true →
  appends (render_entries r first l) (after first (pairs (sh <$> l))).
Proof.
  revert first. induction l as [|x|k x l IH] using list_pairs_ind; intros first H He; [|done|].
  { destruct first; apply appends_nil. }
  inversion_clear H as [|? ? Hk H']. inversion_clear H' as [|? ? Hx Hl]. rewrite !fmap_cons.
  cbn [pairs]. rewrite after_cons. apply (appends_seq (separator first)); [apply appends_separator|].
  rewrite <- !(assoc (++)). apply (appends_seq (λ b, r b k)); [done|].
  apply (appends_seq (λ b, buffer_lit b ": ")); [by apply appends_lit|].
  apply (appends_seq (λ b, r b x)); [done|]. by apply IH.
Qed.

Lemma appends_fields first l names :
  Forall (λ x, appends (λ b, r b x) (sh x)) l → length names = length l →
  appends (render_fields r first l names) (after first (fields names (sh <$> l))).
Proof.
  intros H. revert first names. induction H as [|x l Hx _ IH]; intros first [|n names] Hl; try done.
  { destruct first; apply appends_nil. }
  rewrite fmap_cons. cbn [fields zip_with]. rewrite after_cons.
  apply (appends_seq (separator first)); [apply appends_separator|].
  rewrite <- !(assoc (++)). apply (appends_seq (λ b, buffer_text b n)); [apply appends_text|].
  apply (appends_seq (λ b, buffer_lit b ": ")); [by apply appends_lit|].
  apply (appends_seq (λ b, r b x)); [done|]. apply IH. simpl in Hl. lia.
Qed.
End loops.

Lemma appends_hex s : Forall is_byte s → appends (λ b, render_hex b s) (concat (hex <$> s)).
Proof.
  induction 1 as [|x s Hx _ IH]; [apply appends_nil|].
  apply (appends_seq (λ b, buffer_text b (hex x))); [|apply IH].
  assert (cstr (hex x) = hex x) as Hc; [|pose proof (appends_text (hex x)) as H; by rewrite Hc in H].
  unfold hex, hex_digit. unfold is_byte in Hx.
  destruct (Z.ltb_spec (x / 16) 10), (Z.ltb_spec (x mod 16) 10); simpl;
    repeat match goal with |- context [?u =? 0] => destruct (Z.eqb_spec u 0); [exfalso; clia|] end; done.
Qed.

(** Open, elements, close. *)
Lemma appends_bracket o c m s :
  forallb (λ c, negb (c =? 0)) (str o) = true → forallb (λ c, negb (c =? 0)) (str c) = true →
  appends m s →
  appends (λ b, b ← buffer_lit b o; b ← m b; buffer_lit b c) (str o ++ s ++ str c).
Proof.
  intros Ho Hc Hm. apply (appends_seq (λ b, buffer_lit b o)); [by apply appends_lit|].
  apply appends_seq; [done|by apply appends_lit].
Qed.

Lemma appends_named n m s :
  appends m s →
  appends (λ b, b ← buffer_text b n; b ← buffer_lit b "("; b ← m b; buffer_lit b ")")
    (cstr n ++ str "(" ++ s ++ str ")").
Proof.
  intros Hm. apply (appends_seq (λ b, buffer_text b n)); [apply appends_text|].
  by apply appends_bracket.
Qed.

Lemma appends_rat n d :
  wf n → wf d →
  appends (λ b, n ← pn_big_string n; d ← pn_big_string d;
                b ← buffer_text b n; b ← buffer_lit b "/"; buffer_text b d)
    (show_int (to_Z n) ++ str "/" ++ show_int (to_Z d)).
Proof.
  intros Hn Hd b Hb Hr.
  mbind string_spec as t (ds & -> & Hdn); [done|]. mbind string_spec as t (es & -> & Hdd); [done|].
  assert (∀ z ds, decimal (Z.abs z) ds →
            appends (λ b, buffer_text b ((if z <? 0 then [45] else []) ++ ds)) (show_int z)) as H.
  { intros z l Hl. unfold show_int. rewrite <- (decimal_text _ _ (Z.abs_nonneg _) Hl).
    assert (cstr ((if z <? 0 then [45] else []) ++ l) = (if z <? 0 then [45] else []) ++ l) as Hc;
      [|pose proof (appends_text ((if z <? 0 then [45] else []) ++ l)) as H; by rewrite Hc in H]. destruct Hl as [Hall _]. destruct (z <? 0); simpl; by rewrite cstr_digits. }
  refine (appends_seq (λ b, buffer_text b _) (λ b, b ← buffer_lit b "/"; buffer_text b _) _ _ _ _ b Hb Hr);
    [by apply H|]. apply (appends_seq (λ b, buffer_lit b "/")); [by apply appends_lit|by apply H].
Qed.

Lemma render_spec v display : renderable v → appends (λ b, render b v display) (show display v).
Proof.
  revert display. induction v as [v IH] using value_children_ind. intros display Hv.
  assert (∀ l, children v = l → Forall renderable l →
            Forall (λ x, appends (λ b, render b x true) (show true x)) l) as Hch.
  { intros l <- Hl. rewrite Forall_forall in IH, Hl |- *. intros x Hx. by apply IH; [|apply Hl]. }
  destruct v; simpl in Hv; rewrite ?renderable_forall in Hv; specialize (Hch _ eq_refl);
    cbn [children] in Hch.
  - by apply (appends_lit "<Path>").
  - apply (appends_ext (λ b, b ← (t ← pn_big_string n; buffer_text b t); buffer_lit b "ns")).
    { intros b al. cbn [render]. unfold mbind, M_bind. by destruct (pn_big_string n al) as [[] ?]. }
    apply (appends_seq (λ b, t ← pn_big_string n; buffer_text b t)); [by apply appends_int|].
    by apply (appends_lit "ns").
  - by apply (appends_lit "<Instant>").
  - destruct Hv. by apply appends_rat.
  - by apply (appends_lit "()").
  - by apply appends_int.
  - by apply appends_int.
  - by apply appends_decimal.
  - destruct display; [|apply (appends_ext (λ b, buffer_add b (data t)));
      [|apply appends_add]]; cbn [show].
    + apply (appends_seq (λ b, buffer_add b [34])); [apply appends_add|].
      apply (appends_seq (λ b, buffer_add b (data t))); apply appends_add.
    + intros b al. cbn [render]. unfold mbind, M_bind, mret, M_ret. by destruct (buffer_add b (data t) al) as [[] ?].
  - destruct b; [by apply (appends_lit "true")|by apply (appends_lit "false")].
  - by apply (appends_lit "void").
  - by apply (appends_lit "<value>").
  - apply (appends_bracket "[" "]"); [done..|]. apply (appends_items _ (show true) true); auto.
  - destruct Hv as [Hn Hv]. apply appends_named. apply (appends_fields _ (show true) true); auto.
  - apply appends_named. apply (appends_items _ (show true) true); auto.
  - destruct Hv as [He Hv]. apply (appends_bracket "{" "}"); [done..|].
    apply (appends_entries _ (show true) true); auto.
  - apply (appends_bracket "set{" "}"); [done..|]. apply (appends_items _ (show true) true); auto.
  - apply (appends_bracket "bytes(" ")"); [done..|]. by apply appends_hex.
  - by apply (appends_lit "<value>").
  - by apply (appends_lit "<HttpServerState>").
  - by apply (appends_lit "<HttpResponseState>").
  - by apply (appends_lit "<HttpConnectionState>").
Qed.

(** ** What rendering promises *)

(** Rendering appends to the buffer exactly the text of the value, of any kind
    and nesting, never writes past the allocation, and fails only when the
    allocator refuses. *)
Theorem render_appends_text b v display :
  renderable v → wf_buffer b → room b (show display v) →
  returns (render b v display)
    (λ b', wf_buffer b' ∧ content b' = content b ++ show display v).
Proof. intros Hv Hb Hr. by apply (render_spec v display Hv b). Qed.

Definition sample_value : Value :=
  Map_ [Str (text_of (str "k")); Array [Nat_ {| sign := 1; limbs := [7] |};
        Dec (mkDecimal {| sign := -1; limbs := [5] |} (-3) false)]].

Lemma render_appends_text_witness :
  show true sample_value = [123; 34; 107; 34; 58; 32] ++ str "[7, -0.005]}" ∧
  returns (render empty_buffer sample_value true)
    (λ b', wf_buffer b' ∧ content b' = content empty_buffer ++ show true sample_value).
Proof.
  split; [by vm_compute|]. apply (render_appends_text empty_buffer sample_value true).
  - simpl. split_and!; (decide_now || done).
  - right. reflexivity.
  - vm_compute. reflexivity.
Defined.

(** The text of a decimal is its exact value at its scale: with a negative
    exponent it has that many digits after the point, at least one before, and
    the digits together are the coefficient; with any other it is the
    coefficient followed by one zero per power of ten. *)
Theorem decimal_text_exact d :
  wf (coefficient d) →
  ∃ minus whole fraction,
    show_decimal d = minus ++ whole ++ (if exponent d <? 0 then [46] ++ fraction else []) ∧
    minus = (if (to_Z (coefficient d) <? 0) || negative_zero d then [45] else []) ∧
    Forall (λ c, 48 ≤ c ≤ 57) (whole ++ fraction) ∧ whole ≠ [] ∧
    Z.of_nat (length fraction) = Z.max 0 (- exponent d) ∧
    radix_value 10 0 ((λ c, c - 48) <$> (whole ++ fraction)) =
      Z.abs (to_Z (coefficient d)) * 10 ^ Z.max 0 (exponent d).
Proof.
  intros Hd. unfold show_decimal. set (z := Z.abs (to_Z (coefficient d))).
  destruct (coefficient_digits_ok z (Z.log2 z + 1)) as (Hten & Hv & [Hl _] & _).
  { split; [lia|]. destruct (decide (z = 0)) as [->|]; [done|].
    apply Z.lt_le_trans with (2 ^ (Z.log2 z + 1)); [apply Z.log2_spec; lia|].
    apply Z.pow_le_mono_l; lia. }
  { pose proof (Z.log2_nonneg z). lia. }
  set (ds := coefficient_digits_of z) in *. pose proof (ascii_digits ds Hten) as Hasc.
  assert (∀ n, radix_value 10 0 ((λ c, c - 48) <$> (replicate n 48 ++ ((λ x, 48 + x) <$> ds))) = z) as Hpad.
  { intros n. rewrite fmap_app, minus_plus_48, radix_value_app, fmap_replicate.
    replace (radix_value 10 0 (replicate n (48 - 48))) with 0; [done|]. induction n; [done|].
    simpl. done. }
  assert (∀ n, Forall (λ c, 48 ≤ c ≤ 57) (replicate n 48)) as Hrep
    by (intros n; apply Forall_replicate; lia).
  destruct (Z.leb_spec 0 (exponent d)) as [He|He].
  - eexists _, (((λ x, 48 + x) <$> ds) ++ replicate (Z.to_nat (exponent d)) 48), [].
    replace (exponent d <? 0) with false by lia. rewrite !app_nil_r. split_and!; try done.
    + by apply Forall_app.
    + destruct ds; [simpl in Hl; lia|done].
    + simpl. lia.
    + rewrite fmap_app, radix_value_app, minus_plus_48, Hv, fmap_replicate.
      rewrite radix_value_acc, length_replicate, Z.max_r, Z2Nat.id by lia.
      replace (radix_value 10 0 (replicate _ (48 - 48))) with 0; [lia|].
      induction (Z.to_nat (exponent d)); [done|]. simpl. done.
  - set (places := Z.to_nat (- exponent d)).
    set (padded := replicate _ 48 ++ _). replace (exponent d <? 0) with true by lia.
    assert (places < length padded)%nat as Hp.
    { unfold padded. rewrite length_app, length_replicate, length_fmap. lia. }
    eexists _, (take (length padded - places) padded), (drop (length padded - places) padded).
    rewrite take_drop. split_and!; try done.
    + unfold padded. by apply Forall_app.
    + intros Hnil%(f_equal length). rewrite length_take in Hnil. simpl in Hnil. lia.
    + rewrite length_drop. lia.
    + rewrite (Z.max_l 0 (exponent d)) by lia. rewrite Z.pow_0_r, Z.mul_1_r. apply Hpad.
Qed.

Lemma decimal_text_exact_witness :
  let d := mkDecimal {| sign := 1; limbs := [125] |} (-2) false in
  show_decimal d = str "1.25" ∧
  ∃ minus whole fraction,
    show_decimal d = minus ++ whole ++ (if exponent d <? 0 then [46] ++ fraction else []) ∧
    minus = (if (to_Z (coefficient d) <? 0) || negative_zero d then [45] else []) ∧
    Forall (λ c, 48 ≤ c ≤ 57) (whole ++ fraction) ∧ whole ≠ [] ∧
    Z.of_nat (length fraction) = Z.max 0 (- exponent d) ∧
    radix_value 10 0 ((λ c, c - 48) <$> (whole ++ fraction)) =
      Z.abs (to_Z (coefficient d)) * 10 ^ Z.max 0 (exponent d).
Proof. intros d. split; [by vm_compute|]. apply (decimal_text_exact d). decide_now. Defined.
