(* ===== verification/Collections.v ===== *)
(** * Pure builtins: src/src/vm/builtins_collections.c, builtins_text.c and
      builtins_numeric.c

    Persistent arrays, maps and sets, text and byte operations, and numeric
    conversions, as the registry calls them: by name, with an argument array. *)

From Stdlib Require Import ZArith Lia.
From stdpp Require Import prelude gmap strings.
From S2P Require Import Prelude Bigint Digits Value Decimals Equal Numeric Utf8.
#[local] Open Scope Z_scope.

(** ** Operations *)

(** [REQUIRE(test, message)] *)
Definition require {A} (test : bool) (message : string) (k : M A) : M A :=
  if test then k else trap VM_FAULT_FATAL message.

Definition unknown_builtin : string := "VM trap: unknown builtin".

(** The items of an array, map or set; the union holds them for these kinds. *)
Definition items_of (v : Value) : list Value :=
  match v with Array l | Map_ l | Set_ l => l | _ => [] end.
Definition bytes_of (v : Value) : list Z :=
  match v with Str t => data t | Bytes s | Path s => s | _ => [] end.
Definition integer_of (v : Value) : PnBigInt :=
  match v with Nat_ n | Int_ n | Duration n | Instant n => n | _ => pn_big_init end.

(** [for (i = n; i >= 2; i -= 2)]: the last entry whose key is equal. *)
Fixpoint map_scan (n : nat) (items : list Value) (key : Value) : M (option Value) :=
  match n with
  | S (S m) =>
      k ← rd items m;
      if value_equal k key then v ← rd items (S m); mret (Some v)
      else map_scan m items key
  | _ => mret None
  end.

(** [for (i = 0; i < old; i += 2)]: the entries whose key differs. *)
Fixpoint map_without (items : list Value) (key : Value) : M (list Value) :=
  match items with
  | [] => mret []
  | [k] => if value_equal k key then mret [] else undef
  | k :: v :: rest =>
      rest ← map_without rest key;
      mret (if value_equal k key then rest else k :: v :: rest)
  end.

Definition map_has_call (a0 a1 : Value) : M Value :=
  require (is_kind a0 V_MAP) "VM trap: map operation requires Map" (
    found ← map_scan (length (items_of a0)) (items_of a0) a1;
    value_bool (bool_decide (is_Some found))).

Definition map_key_not_found : string := "VM trap: map key was not found".

Definition map_get_call (a0 a1 : Value) : M Value :=
  require (is_kind a0 V_MAP) "VM trap: map operation requires Map" (
    found ← map_scan (length (items_of a0)) (items_of a0) a1;
    match found with
    | Some v => mret v
    | None => trap VM_FAULT_REQUEST map_key_not_found
    end).

Definition map_put_call (a0 a1 a2 : Value) : M Value :=
  require (is_kind a0 V_MAP) "VM trap: map_put requires Map" (
    _ ← alloc;
    rest ← map_without (items_of a0) a1;
    value_sequence V_MAP (rest ++ [a1; a2])).

Definition contains (items : list Value) (x : Value) : bool := existsb (λ y, value_equal y x) items.

Definition set_has_call (a0 a1 : Value) : M Value :=
  require (is_kind a0 V_SET) "VM trap: set_has requires Set"
    (value_bool (contains (items_of a0) a1)).

Definition set_add_call (a0 a1 : Value) : M Value :=
  require (is_kind a0 V_SET) "VM trap: set_add requires Set" (
    if contains (items_of a0) a1 then mret a0
    else _ ← alloc; value_sequence V_SET (items_of a0 ++ [a1])).

Definition builtins_collections_call (name : list Z) (a : list Value) : M Value :=
  if is_name name "append" then
    a0 ← rd a 0; a1 ← rd a 1;
    require (is_kind a0 V_ARRAY) "VM trap: append requires Array" (array_append (items_of a0) a1)
  else if is_name name "map" || is_name name "set" || is_name name "bytes" then
    if is_name name "bytes" then value_data V_BYTES []
    else value_sequence (if is_name name "map" then V_MAP else V_SET) []
  else if is_name name "$method_has" then
    a0 ← rd a 0; a1 ← rd a 1;
    require (is_kind a0 V_MAP || is_kind a0 V_SET) "VM trap: has requires Map or Set"
      (if is_kind a0 V_MAP then map_has_call a0 a1 else set_has_call a0 a1)
  else if is_name name "map_has" then a0 ← rd a 0; a1 ← rd a 1; map_has_call a0 a1
  else if is_name name "map_get" || is_name name "$method_get" then
    a0 ← rd a 0; a1 ← rd a 1; map_get_call a0 a1
  else if is_name name "map_put" || is_name name "$method_put" then
    a0 ← rd a 0; a1 ← rd a 1; a2 ← rd a 2; map_put_call a0 a1 a2
  else if is_name name "set_has" then a0 ← rd a 0; a1 ← rd a 1; set_has_call a0 a1
  else if is_name name "set_add" || is_name name "$method_add" then
    a0 ← rd a 0; a1 ← rd a 1; set_add_call a0 a1
  else trap VM_FAULT_FATAL unknown_builtin.

(** ** Text *)

Definition len_call (a0 : Value) : M Value :=
  match a0 with
  | Map_ l => value_size (Z.of_nat (length l) / 2)
  | Set_ l | Array l => value_size (Z.of_nat (length l))
  | Str t => value_size (characters t)
  | Bytes s => value_size (Z.of_nat (length s))
  | _ => trap VM_FAULT_FATAL "VM trap: len requires Str, Bytes, Array, Map, or Set"
  end.

Definition invalid_slice : string := "VM trap: invalid string slice".

(** The byte offset of a code point index, the length at the end of the text. *)
Definition text_offset (t : Text) (index : Z) : option Z :=
  if index =? characters t then Some (Z.of_nat (length (data t)))
  else fst <$> utf8_offset t index.

Definition slice_call (a0 a1 a2 : Value) : M Value :=
  match a0, a1, a2 with
  | Str t, Nat_ _, Nat_ _ =>
      match value_index a1, value_index a2 with
      | Some start, Some stop =>
          if stop <? start then trap VM_FAULT_REQUEST invalid_slice
          else if characters t <? stop then trap VM_FAULT_REQUEST invalid_slice
          else
            match text_offset t start with
            | None => nomem
            | Some bs =>
                match text_offset t stop with
                | None => nomem
                | Some be => value_data V_STR (take (Z.to_nat (be - bs)) (drop (Z.to_nat bs) (data t)))
                end
            end
      | _, _ => trap VM_FAULT_REQUEST invalid_slice
      end
  | _, _, _ => trap VM_FAULT_FATAL "VM trap: slice requires Str and Nat bounds"
  end.

(** The comparison at the end of [starts_with] and [starts_with_at]. *)
Definition prefix_at (bs : Z) (t u : list Z) : bool :=
  (Z.of_nat (length u) <=? Z.of_nat (length t) - bs) &&
  (memcmp (take (length u) (drop (Z.to_nat bs) t)) u =? 0).

Definition starts_with_call (a0 a1 : Value) : M Value :=
  match a0, a1 with
  | Str t, Str u => value_bool (prefix_at 0 (data t) (data u))
  | _, _ => trap VM_FAULT_FATAL "VM trap: starts_with requires Str"
  end.

Definition starts_with_at_call (a0 a1 a2 : Value) : M Value :=
  match a0, a1 with
  | Str t, Str u =>
      require (is_kind a2 V_NAT) "VM trap: starts_with_at requires Nat offset" (
        match value_index a2 with
        | None => value_bool false
        | Some offset =>
            match text_offset t offset with
            | None => value_bool false
            | Some bs => value_bool (prefix_at bs (data t) (data u))
            end
        end)
  | _, _ => trap VM_FAULT_FATAL "VM trap: starts_with requires Str"
  end.

(** [while (source < n)]: copy one sequence in front of those copied so far.  A
    width that leaves the text would make [destination] wrap. *)
Fixpoint reverse_loop (fuel : nat) (s out : list Z) : M (list Z) :=
  match s with
  | [] => mret out
  | c :: _ =>
      match fuel with
      | O => diverge
      | S f =>
          let width := S (extra c) in
          if bool_decide (length s < width)%nat then undef
          else reverse_loop f (drop width s) (take width s ++ out)
      end
  end.

Definition reverse_call (a0 : Value) : M Value :=
  match a0 with
  | Str t =>
      _ ← alloc;
      out ← reverse_loop (length (data t)) (data t) [];
      value_data V_STR out
  | _ => trap VM_FAULT_FATAL "VM trap: reverse requires Str"
  end.

Definition character_class (name : list Z) (c : Z) : bool :=
  if is_name name "is_digit" then (48 <=? c) && (c <=? 57)
  else if is_name name "is_letter" then ((65 <=? c) && (c <=? 90)) || ((97 <=? c) && (c <=? 122))
  else (c =? 32) || (c =? 9) || (c =? 13) || (c =? 10).

Definition character_class_call (name : list Z) (a0 : Value) : M Value :=
  match a0 with
  | Str t => value_bool (character_class name (match data t with [c] => c | _ => 0 end))
  | _ => trap VM_FAULT_FATAL "VM trap: character class requires Str"
  end.

Definition byte_append_call (a0 a1 : Value) : M Value :=
  match a0, a1 with
  | Bytes s, Nat_ _ =>
      match value_index a1 with
      | Some byte =>
          if 255 <? byte then trap VM_FAULT_FATAL "VM trap: byte value is outside 0..255"
          else _ ← alloc; value_data V_BYTES (s ++ [u8 byte])
      | None => trap VM_FAULT_FATAL "VM trap: byte value is outside 0..255"
      end
  | _, _ => trap VM_FAULT_FATAL "VM trap: byte_append requires Bytes and Nat"
  end.

Definition byte_out_of_bounds : string := "VM trap: byte index is out of bounds".

Definition byte_get_call (a0 a1 : Value) : M Value :=
  match a0, a1 with
  | Bytes s, Nat_ _ =>
      match value_index a1 with
      | Some i =>
          if Z.of_nat (length s) <=? i then trap VM_FAULT_REQUEST byte_out_of_bounds
          else b ← rd s (Z.to_nat i); value_size b
      | None => trap VM_FAULT_REQUEST byte_out_of_bounds
      end
  | _, _ => trap VM_FAULT_FATAL "VM trap: byte_get requires Bytes and Nat"
  end.

Definition not_a_nat : string := "VM trap: text is not a Nat".

Definition nat_from_str_call (a0 : Value) : M Value :=
  match a0 with
  | Str t =>
      if bool_decide (data t = []) then trap VM_FAULT_FATAL not_a_nat
      else if negb (forallb (λ c, (48 <=? c) && (c <=? 57)) (data t))
      then trap VM_FAULT_FATAL not_a_nat
      else n ← pn_big_from_digits (data t) 1; value_big V_NAT n
  | _ => trap VM_FAULT_FATAL "VM trap: nat_from_str requires Str"
  end.

Definition builtins_text_call (name : list Z) (a : list Value) : M Value :=
  if is_name name "len" then a0 ← rd a 0; len_call a0
  else if is_name name "concat" then
    a0 ← rd a 0; a1 ← rd a 1;
    require (is_kind a0 V_ARRAY && is_kind a1 V_ARRAY) "VM trap: concat requires arrays" (
      let l := items_of a0 ++ items_of a1 in
      _ ← calloc_items (length l);
      value_sequence V_ARRAY l)
  else if is_name name "slice" then
    a0 ← rd a 0; a1 ← rd a 1; a2 ← rd a 2; slice_call a0 a1 a2
  else if is_name name "starts_with" then a0 ← rd a 0; a1 ← rd a 1; starts_with_call a0 a1
  else if is_name name "starts_with_at" then
    a0 ← rd a 0; a1 ← rd a 1; a2 ← rd a 2; starts_with_at_call a0 a1 a2
  else if is_name name "reverse" then a0 ← rd a 0; reverse_call a0
  else if is_name name "is_digit" || is_name name "is_letter" || is_name name "is_whitespace" then
    a0 ← rd a 0; character_class_call name a0
  else if is_name name "byte_append" then a0 ← rd a 0; a1 ← rd a 1; byte_append_call a0 a1
  else if is_name name "bytes_concat" then
    a0 ← rd a 0; a1 ← rd a 1;
    require (is_kind a0 V_BYTES && is_kind a1 V_BYTES) "VM trap: bytes_concat requires Bytes" (
      let s := bytes_of a0 ++ bytes_of a1 in
      _ ← calloc_items (length s);
      value_data V_BYTES s)
  else if is_name name "byte_len" then
    a0 ← rd a 0;
    require (is_kind a0 V_BYTES) "VM trap: byte_len requires Bytes"
      (value_size (Z.of_nat (length (bytes_of a0))))
  else if is_name name "byte_get" then a0 ← rd a 0; a1 ← rd a 1; byte_get_call a0 a1
  else if is_name name "utf8_encode" then
    a0 ← rd a 0;
    require (is_kind a0 V_STR) "VM trap: utf8_encode requires Str" (value_data V_BYTES (bytes_of a0))
  else if is_name name "utf8_decode" then
    a0 ← rd a 0;
    require (is_kind a0 V_BYTES) "VM trap: utf8_decode requires Bytes"
      (if utf8 (bytes_of a0) then value_data V_STR (bytes_of a0)
       else trap VM_FAULT_FATAL "VM trap: invalid UTF-8")
  else if is_name name "nat_from_str" then a0 ← rd a 0; nat_from_str_call a0
  else trap VM_FAULT_FATAL unknown_builtin.

(** ** Numbers *)

Definition quotient_call (a0 a1 : Value) : M Value :=
  require (is_kind a0 V_NAT && is_kind a1 V_NAT) "VM trap: quotient requires Nat operands" (
  require (negb (pn_big_is_zero (integer_of a1))) division_by_zero (
    '(q, _) ← pn_big_divmod (integer_of a0) (integer_of a1);
    value_big V_NAT q)).

Definition nat_call (a0 : Value) : M Value :=
  match a0 with
  | Rat n d =>
      require ((0 <=? sign n) && pn_big_is_one d) "VM trap: Rat is not an exact Nat" (value_big V_NAT n)
  | _ => trap VM_FAULT_FATAL "VM trap: rational conversion requires Rat"
  end.

Definition dec_call (a0 : Value) : M Value :=
  match a0 with
  | Rat n d =>
      decimal_binary_classified 3 (mkDecimal n 0 false) (mkDecimal d 0 false)
  | _ => trap VM_FAULT_FATAL "VM trap: rational conversion requires Rat"
  end.

Definition builtins_numeric_call (name : list Z) (a : list Value) : M Value :=
  if is_name name "$unit" then value_unit
  else if is_name name "quotient" then a0 ← rd a 0; a1 ← rd a 1; quotient_call a0 a1
  else if is_name name "nat" then a0 ← rd a 0; nat_call a0
  else if is_name name "dec" then a0 ← rd a 0; dec_call a0
  else trap VM_FAULT_FATAL unknown_builtin.

(** ** Maps as finite maps *)

(** A map value stores its entries flat, key before value. *)
Fixpoint flat (es : list (Value * Value)) : list Value :=
  match es with
  | [] => []
  | (k, v) :: es' => k :: v :: flat es'
  end.

(** The abstract contents: the value of the last entry with an equal key. *)
Fixpoint mlookup (es : list (Value * Value)) (key : Value) : option Value :=
  match es with
  | [] => None
  | (k, v) :: es' =>
      match mlookup es' key with
      | Some x => Some x
      | None => if value_equal k key then Some v else None
      end
  end.

(** Well-formed entries with pairwise different keys. *)
Definition wf_entries (es : list (Value * Value)) : Prop :=
  Forall (λ e, wf_value (fst e) ∧ wf_value (snd e)) es ∧ NoDup (denote ∘ fst <$> es).

Lemma flat_app es fs : flat (es ++ fs) = flat es ++ flat fs.
Proof. induction es as [|[k v] es IH]; simpl; [done|]. by rewrite IH. Qed.

Lemma mlookup_app es fs key :
  mlookup (es ++ fs) key = match mlookup fs key with Some x => Some x | None => mlookup es key end.
Proof.
  induction es as [|[k v] es IH]; simpl; [by destruct (mlookup fs key)|].
  rewrite IH. by destruct (mlookup fs key).
Qed.

Lemma map_scan_spec es rest key E :
  runs (map_scan (length (flat es)) (flat es ++ rest) key) (λ r, r = mlookup es key) E.
Proof.
  revert rest. induction es as [|[k v] es IH] using rev_ind; intros rest; [by mret|].
  rewrite flat_app, mlookup_app, length_app. simpl.
  replace (length (flat es) + 2)%nat with (S (S (length (flat es)))) by lia.
  rewrite <- (assoc (++)). cbn [map_scan app].
  mbind (runs_rd _ _ _ (λ x, x = k)) as ? ->; [by apply list_lookup_middle|done|].
  destruct (value_equal k key); [|apply IH].
  mbind (runs_rd _ _ _ (λ x, x = v)) as ? ->; [|done|by mret].
  rewrite lookup_app_r by lia. by replace (S (length (flat es)) - length (flat es))%nat with 1%nat by lia.
Qed.

Definition differs (key : Value) (e : Value * Value) : Prop := value_equal (fst e) key = false.
#[global] Instance differs_dec key e : Decision (differs key e).
Proof. unfold differs. apply _. Defined.

Lemma map_without_spec es key E :
  runs (map_without (flat es) key) (λ r, r = flat (filter (differs key) es)) E.
Proof.
  induction es as [|[k v] es IH]; [by mret|]. cbn [flat map_without].
  mbind IH as ? ->. mret. rewrite filter_cons. unfold differs.
  destruct (value_equal k key) eqn:E1; case_decide as D; simpl in D; done || congruence.
Qed.

Lemma mlookup_differs es key q :
  Forall (λ e, wf_value (fst e)) es → wf_value key → wf_value q →
  mlookup (filter (differs key) es) q = if value_equal key q then None else mlookup es q.
Proof.
  intros Hes Hk Hq. induction Hes as [|[k v] es Hke _ IH]; [by destruct (value_equal key q)|].
  rewrite filter_cons. simpl in *. destruct (value_equal k key) eqn:E.
  - rewrite decide_False by (unfold differs; simpl; congruence). rewrite IH. destruct (value_equal key q) eqn:E2; [done|].
    destruct (value_equal k q) eqn:E3; [|by destruct (mlookup es q)].
    apply value_equal_spec in E, E3; [|done..].
    assert (value_equal key q = true) by (apply value_equal_spec; [done..|congruence]). congruence.
  - rewrite decide_True by done. simpl. rewrite IH.
    destruct (value_equal key q) eqn:E2; [|done].
    destruct (value_equal k q) eqn:E3; [|done].
    apply value_equal_spec in E2, E3; [|done..].
    assert (value_equal k key = true) by (apply value_equal_spec; [done..|congruence]). congruence.
Qed.

Lemma value_sequence_spec k items (P : Value → Prop) E :
  match k with
  | V_ARRAY => P (Array items) | V_MAP => P (Map_ items) | V_SET => P (Set_ items) | _ => False
  end → runs (value_sequence k items) P E.
Proof.
  intros HP. unfold value_sequence. mbind runs_alloc as ? _. mbind runs_calloc as ? _.
  destruct k; try done; by mret.
Qed.

Lemma value_bool_spec b (P : Value → Prop) E : P (Bool_ b) → runs (value_bool b) P E.
Proof. intros HP. unfold value_bool. mbind runs_alloc as ? _. by mret. Qed.

Lemma put_entries es k v :
  wf_entries es → wf_value k → wf_value v → wf_entries (filter (differs k) es ++ [(k, v)]).
Proof.
  intros [Hes Hnd] Hk Hv. split.
  - apply Forall_app. split; [|by repeat constructor].
    rewrite Forall_forall in *. intros e [_ He]%list_elem_of_filter. by apply Hes.
  - rewrite fmap_app. apply NoDup_app. split_and!.
    + eapply sublist_NoDup; [done|]. apply fmap_sublist, sublist_filter.
    + intros x Hx Hx'. simpl in Hx'. apply list_elem_of_singleton in Hx' as ->.
      apply list_elem_of_fmap in Hx as ([k' v'] & He & Hin). simpl in He.
      apply list_elem_of_filter in Hin as [Hd Hin]. rewrite Forall_forall in Hes.
      destruct (Hes _ Hin) as [Hk' _]. unfold differs in Hd. simpl in *.
      assert (value_equal k' k = true) by (apply value_equal_spec; done). congruence.
    + apply NoDup_singleton.
Qed.

(** [map_put] then [map_get] and [map_has] behave as a finite map on keys up to
    equality: a put returns a map with pairwise different keys in which the key
    has the new value and every other key its old one, without touching the
    argument; get traps exactly when the key is absent. *)
Theorem map_laws es k v q :
  wf_entries es → wf_value k → wf_value v → wf_value q →
  returns (map_put_call (Map_ (flat es)) k v)
    (λ r, ∃ es', r = Map_ (flat es') ∧ wf_entries es' ∧
          mlookup es' q = if value_equal k q then Some v else mlookup es q) ∧
  runs (map_get_call (Map_ (flat es)) q)
    (λ r, mlookup es q = Some r)
    (λ f s, f = VM_FAULT_REQUEST ∧ s = map_key_not_found ∧ mlookup es q = None) ∧
  returns (map_has_call (Map_ (flat es)) q)
    (λ r, r = Bool_ (bool_decide (is_Some (mlookup es q)))).
Proof.
  intros Hes Hk Hv Hq. assert (Forall (λ e, wf_value (fst e)) es) as Hkeys.
  { eapply Forall_impl; [apply Hes|]. by intros ? [? _]. }
  split_and!.
  - unfold map_put_call, require. simpl. mbind runs_alloc as ? _. mbind map_without_spec as ? ->.
    apply value_sequence_spec. exists (filter (differs k) es ++ [(k, v)]).
    rewrite flat_app. split_and!; [done|by apply put_entries|].
    rewrite mlookup_app, mlookup_differs by done. simpl. by destruct (value_equal k q).
  - unfold map_get_call, require. simpl. rewrite <- (app_nil_r (flat es)) at 2.
    mbind map_scan_spec as ? ->. destruct (mlookup es q) eqn:E; [by mret|by apply runs_trap].
  - unfold map_has_call, require. simpl. rewrite <- (app_nil_r (flat es)) at 2.
    mbind map_scan_spec as ? ->. by apply value_bool_spec.
Qed.

Lemma map_laws_witness :
  let one := Nat_ {| sign := 1; limbs := [1] |} in
  let es := [(Bool_ true, one); (Bool_ false, Void)] in
  run (map_put_call (Map_ (flat es)) (Bool_ true) VUnit) =
    Ret (Map_ [Bool_ false; Void; Bool_ true; VUnit]) ∧
  returns (map_put_call (Map_ (flat es)) (Bool_ true) VUnit)
    (λ r, ∃ es', r = Map_ (flat es') ∧ wf_entries es' ∧
          mlookup es' one = if value_equal (Bool_ true) one then Some VUnit else mlookup es one) ∧
  runs (map_get_call (Map_ (flat es)) one)
    (λ r, mlookup es one = Some r)
    (λ f s, f = VM_FAULT_REQUEST ∧ s = map_key_not_found ∧ mlookup es one = None) ∧
  returns (map_has_call (Map_ (flat es)) one)
    (λ r, r = Bool_ (bool_decide (is_Some (mlookup es one)))).
Proof.
  intros one es. split; [by vm_compute|].
  assert (wf_value one) by (split; [split; decide_now|decide_now]).
  apply (map_laws es (Bool_ true) VUnit one); try done. split.
  - repeat constructor; done.
  - simpl. apply NoDup_cons. split; [|apply NoDup_singleton].
    intros H1%list_elem_of_singleton. congruence.
Defined.

(** ** Sets *)

Definition wf_set (l : list Value) : Prop := Forall wf_value l ∧ NoDup (denote <$> l).

Lemma contains_spec l x : Forall wf_value l → wf_value x → contains l x = true ↔ denote x ∈ denote <$> l.
Proof.
  intros Hl Hx. unfold contains. rewrite List.existsb_exists, list_elem_of_fmap.
  rewrite Forall_forall in Hl. split.
  - intros (y & Hy%list_elem_of_In & He). exists y. split; [|done].
    symmetry. apply value_equal_spec in He; auto.
  - intros (y & He & Hy). exists y. split; [by apply list_elem_of_In|]. apply value_equal_spec; auto.
Qed.

(** [set_add] returns a set without duplicates whose members are the old ones
    and the new element, and [set_has] decides membership up to equality. *)
Theorem set_laws l x y :
  wf_set l → wf_value x → wf_value y →
  returns (set_add_call (Set_ l) x)
    (λ r, ∃ l', r = Set_ l' ∧ wf_set l' ∧ contains l' y = contains l y || value_equal x y) ∧
  returns (set_has_call (Set_ l) y)
    (λ r, ∃ b, r = Bool_ b ∧ (b = true ↔ denote y ∈ denote <$> l)).
Proof.
  intros [Hl Hnd] Hx Hy. split.
  - unfold set_add_call, require. simpl. pose proof (contains_spec l x Hl Hx) as Hc.
    destruct (contains l x) eqn:E.
    + mret. exists l. split_and!; [done..|]. destruct (value_equal x y) eqn:E2; [|by rewrite orb_false_r].
      rewrite orb_true_r. apply contains_spec; [done..|]. apply value_equal_spec in E2; [|done..].
      rewrite <- E2. by apply Hc.
    + mbind runs_alloc as ? _. apply value_sequence_spec. exists (l ++ [x]). split_and!; [done| |].
      * split; [apply Forall_app; split; [done|by constructor]|]. rewrite fmap_app.
        apply NoDup_app. split_and!; [done| |apply NoDup_singleton].
        intros m Hm Hm'. simpl in Hm'. apply list_elem_of_singleton in Hm' as ->. by apply Hc in Hm.
      * unfold contains. rewrite existsb_app. simpl. by rewrite orb_false_r.
  - unfold set_has_call, require. simpl. apply value_bool_spec. eexists. split; [done|].
    by apply contains_spec.
Qed.

Lemma set_laws_witness :
  returns (set_add_call (Set_ [Bool_ true]) Void)
    (λ r, ∃ l', r = Set_ l' ∧ wf_set l' ∧
          contains l' VUnit = contains [Bool_ true] VUnit || value_equal Void VUnit) ∧
  returns (set_has_call (Set_ [Bool_ true]) VUnit)
    (λ r, ∃ b, r = Bool_ b ∧ (b = true ↔ denote VUnit ∈ denote <$> [Bool_ true])).
Proof.
  apply (set_laws [Bool_ true] Void VUnit); try done.
  split; [by repeat constructor|apply NoDup_singleton].
Defined.

(** ** Text by code points *)

Definition text_value (cps : list Z) : Value := Str (text_of (encode_all cps)).

Lemma encode_all_app a b : encode_all (a ++ b) = encode_all a ++ encode_all b.
Proof. unfold encode_all. by rewrite fmap_app, concat_app. Qed.

Lemma text_offset_spec cps k :
  Forall scalar cps → (k ≤ length cps)%nat →
  text_offset (text_of (encode_all cps)) (Z.of_nat k) =
    Some (Z.of_nat (length (encode_all (take k cps)))).
Proof.
  intros Hc Hk. unfold text_offset. cbn [text_of characters data]. rewrite count_encode_all by done.
  destruct (Z.eqb_spec (Z.of_nat k) (Z.of_nat (length cps))) as [He|He].
  - by rewrite take_ge by lia.
  - rewrite utf8_offset_spec by done. rewrite decide_True by lia. done.
Qed.

Lemma value_data_str s (P : Value → Prop) E : P (Str (text_of s)) → runs (value_data V_STR s) P E.
Proof. intros HP. unfold value_data. do 2 (mbind runs_alloc as ? _). by mret. Qed.

Lemma value_index_nat n :
  wf n → 0 ≤ to_Z n →
  value_index (Nat_ n) = if to_Z n <=? SIZE_MAX then Some (to_Z n) else None.
Proof. intros Hn Hp. simpl. rewrite fits_size_spec by done. by replace (0 <=? to_Z n) with true by lia. Qed.

Lemma slice_bytes cps i j :
  (i ≤ j ≤ length cps)%nat →
  take (length (encode_all (take j cps)) - length (encode_all (take i cps)))
    (drop (length (encode_all (take i cps))) (encode_all cps)) =
  encode_all (take (j - i) (drop i cps)).
Proof.
  intros Hij.
  assert (cps = take i cps ++ take (j - i) (drop i cps) ++ drop j cps) as Hs.
  { rewrite <- (take_drop i cps) at 1. f_equal. rewrite <- (take_drop (j - i) (drop i cps)) at 1.
    f_equal. rewrite drop_drop. f_equal. lia. }
  assert (take j cps = take i cps ++ take (j - i) (drop i cps)) as Hj.
  { rewrite <- (take_drop i (take j cps)). rewrite take_take, Nat.min_l by lia. f_equal.
    rewrite skipn_firstn_comm. done. }
  assert (encode_all cps = encode_all (take i cps) ++ encode_all (take (j - i) (drop i cps)) ++
            encode_all (drop j cps)) as ->.
  { rewrite Hs at 1. by rewrite !encode_all_app. }
  rewrite Hj, encode_all_app, length_app, drop_app_length.
  replace (_ + _ - _)%nat with (length (encode_all (take (j - i) (drop i cps)))) by lia.
  by rewrite take_app_length.
Qed.

(** [slice] on a valid string takes the code points between its bounds, and
    refuses with the request diagnostic exactly when the bounds are not ordered
    or exceed the number of code points. *)
Theorem slice_code_points cps m n :
  Forall scalar cps → Z.of_nat (length cps) ≤ SIZE_MAX →
  wf m → wf n → 0 ≤ to_Z m → 0 ≤ to_Z n →
  runs (slice_call (text_value cps) (Nat_ m) (Nat_ n))
    (λ v, to_Z m ≤ to_Z n ≤ Z.of_nat (length cps) ∧
          v = text_value (take (Z.to_nat (to_Z n - to_Z m)) (drop (Z.to_nat (to_Z m)) cps)))
    (λ f s, f = VM_FAULT_REQUEST ∧ s = invalid_slice ∧
            ¬ to_Z m ≤ to_Z n ≤ Z.of_nat (length cps)).
Proof.
  intros Hc Hlen Hm Hn Pm Pn. unfold slice_call, text_value. rewrite !value_index_nat by done.
  destruct (Z.leb_spec (to_Z m) SIZE_MAX); [|apply runs_trap; split_and!; (done || lia)].
  destruct (Z.leb_spec (to_Z n) SIZE_MAX); [|apply runs_trap; split_and!; (done || lia)].
  destruct (Z.ltb_spec (to_Z n) (to_Z m)); [apply runs_trap; split_and!; (done || lia)|].
  cbn [characters text_of]. rewrite count_encode_all by done.
  destruct (Z.ltb_spec (Z.of_nat (length cps)) (to_Z n)); [apply runs_trap; split_and!; (done || lia)|].
  change (mkText _ _ _) with (text_of (encode_all cps)).
  assert (∃ i j, to_Z m = Z.of_nat i ∧ to_Z n = Z.of_nat j) as (i & j & Hi & Hj).
  { exists (Z.to_nat (to_Z m)), (Z.to_nat (to_Z n)). lia. }
  rewrite Hi, Hj in *. rewrite !text_offset_spec by (done || lia).
  apply value_data_str. split; [lia|]. cbn [data text_of]. unfold text_value. do 2 f_equal.
  rewrite !Nat2Z.id. replace (Z.to_nat (Z.of_nat j - Z.of_nat i)) with (j - i)%nat by lia.
  rewrite <- slice_bytes by lia. f_equal. lia.
Qed.

Lemma slice_code_points_witness :
  let cps := [104; 233; 8364; 33] in
  let m := {| sign := 1; limbs := [1] |} in
  let n := {| sign := 1; limbs := [3] |} in
  runs (slice_call (text_value cps) (Nat_ m) (Nat_ n))
    (λ v, to_Z m ≤ to_Z n ≤ Z.of_nat (length cps) ∧
          v = text_value (take (Z.to_nat (to_Z n - to_Z m)) (drop (Z.to_nat (to_Z m)) cps)))
    (λ f s, f = VM_FAULT_REQUEST ∧ s = invalid_slice ∧
            ¬ to_Z m ≤ to_Z n ≤ Z.of_nat (length cps)).
Proof.
  intros cps m n. apply (slice_code_points cps m n); decide_now.
Defined.

Lemma reverse_loop_spec cps fuel out E :
  Forall scalar cps → (length cps ≤ fuel)%nat →
  runs (reverse_loop fuel (encode_all cps) out) (λ r, r = encode_all (reverse cps) ++ out) E.
Proof.
  intros Hc. revert fuel out. induction Hc as [|c cps Hc Hcps IH]; intros fuel out Hf.
  { destruct fuel; by mret. }
  destruct (extra_encode c Hc) as (b & t & Eb & Hex).
  rewrite encode_all_cons, Eb. destruct fuel as [|fuel]; [simpl in Hf; lia|].
  cbn [app reverse_loop]. rewrite Hex. rewrite bool_decide_false by (simpl; rewrite length_app; lia).
  change (b :: t ++ encode_all cps) with ((b :: t) ++ encode_all cps).
  change (S (length t)) with (length (b :: t)). rewrite drop_app_length, take_app_length.
  eapply runs_mono; [apply IH; simpl in Hf; lia| |done]. intros r ->.
  rewrite reverse_cons, encode_all_app. unfold encode_all at 3. simpl. rewrite app_nil_r, Eb.
  by rewrite <- (assoc (++)).
Qed.

(** [reverse] reverses the code points of a valid string, keeping each encoded
    sequence intact, and never writes outside its buffer. *)
Theorem reverse_code_points cps :
  Forall scalar cps →
  returns (reverse_call (text_value cps)) (λ v, v = text_value (reverse cps)).
Proof.
  intros Hc. unfold reverse_call, text_value. cbn [data text_of]. mbind runs_alloc as ? _.
  mbind reverse_loop_spec as ? ->; [done|by apply encode_length_pos|].
  apply value_data_str. by rewrite app_nil_r.
Qed.

Lemma reverse_code_points_witness :
  returns (reverse_call (text_value [97; 8364])) (λ v, v = text_value (reverse [97; 8364])).
Proof. apply (reverse_code_points [97; 8364]). repeat constructor; unfold scalar; lia. Defined.

(** Converting the text of a Nat back with [nat_from_str] gives the Nat, and
    the conversion refuses every text that is not a non-empty digit string. *)
Theorem nat_text_roundtrip n t :
  wf n → 0 ≤ to_Z n → sized (2 ^ 50) n → Forall is_byte t → Z.of_nat (length t) < 2 ^ 59 →
  returns (s ← pn_big_string n; nat_from_str_call (Str (text_of s))) (λ v, v = Nat_ n) ∧
  runs (nat_from_str_call (Str (text_of t)))
    (λ v, ∃ m, v = Nat_ m ∧ wf m ∧ Forall (λ c, 48 ≤ c ≤ 57) t ∧ t ≠ [] ∧
               to_Z m = radix_value 10 0 ((λ c, c - 48) <$> t))
    (λ f s, f = VM_FAULT_FATAL ∧ s = not_a_nat ∧ ¬ (Forall (λ c, 48 ≤ c ≤ 57) t ∧ t ≠ [])).
Proof.
  intros Wn Pn Sn Ht Hlen.
  assert (∀ ds, forallb (λ c, (48 <=? c) && (c <=? 57)) ds = true ↔ Forall (λ c, 48 ≤ c ≤ 57) ds) as Hfb.
  { intros ds. rewrite List.forallb_forall, Forall_forall. split.
    - intros H c Hc%list_elem_of_In. apply H in Hc. lia.
    - intros H c Hc%list_elem_of_In. apply H in Hc. lia. }
  split.
  - mbind string_spec as s (ds & -> & Hd); [done|]. replace (to_Z n <? 0) with false by lia.
    cbn [app]. pose proof (decimal_length _ _ _ Wn Sn Hd ltac:(done)) as Hdl.
    destruct Hd as (Hall & Hv & Hne & _).
    unfold nat_from_str_call. cbn [data text_of]. rewrite bool_decide_false by done.
    rewrite (proj2 (Hfb ds) Hall). cbn [negb].
    mbind from_digits_spec as m (Wm & Hm); [unfold limit; clear -Hdl; clia|done|].
    assert (m = n) as -> by (apply to_Z_inj; [done..|]; simpl in Hm; lia).
    apply value_big_spec; [|done]. eapply sized_mono; [done|clia].
  - unfold nat_from_str_call. cbn [data text_of]. case_bool_decide as He.
    { apply runs_trap. naive_solver. }
    destruct (forallb _ t) eqn:Hf; cbn [negb].
    + pose proof (proj1 (Hfb t) Hf) as Hall.
      mbind from_digits_spec as m (Wm & Hm); [unfold limit; clear -Hlen; clia|done|].
      assert (sized (2 ^ 61) m) as Hs.
      { apply (sized_mono (Z.of_nat (length t))); [|clear -Hlen; clia].
        apply sized_le; [done|lia|].
        assert (Forall (λ d, 0 ≤ d < 10) ((λ c, c - 48) <$> t)) as Hd.
        { apply Forall_fmap. eapply Forall_impl; [done|]. simpl. lia. }
        pose proof (radix_value_bound 10 _ ltac:(lia) Hd) as Hb. rewrite length_fmap in Hb.
        simpl in Hm. pose proof (Z.pow_le_mono_l 10 BASE (Z.of_nat (length t))) as Hp.
        assert (0 ≤ 10 ≤ BASE) by (unfold BASE; lia). lia. }
      apply value_big_spec; [done|]. exists m. simpl in Hm. split_and!; (done || lia).
    + apply runs_trap. split_and!; [done..|]. intros [H%Hfb _]. congruence.
Qed.

Lemma nat_text_roundtrip_witness :
  let n := {| sign := 1; limbs := [42; 7] |} in
  let t := [49; 50; 120] in
  returns (s ← pn_big_string n; nat_from_str_call (Str (text_of s))) (λ v, v = Nat_ n) ∧
  runs (nat_from_str_call (Str (text_of t)))
    (λ v, ∃ m, v = Nat_ m ∧ wf m ∧ Forall (λ c, 48 ≤ c ≤ 57) t ∧ t ≠ [] ∧
               to_Z m = radix_value 10 0 ((λ c, c - 48) <$> t))
    (λ f s, f = VM_FAULT_FATAL ∧ s = not_a_nat ∧ ¬ (Forall (λ c, 48 ≤ c ≤ 57) t ∧ t ≠ [])).
Proof. intros n t. apply (nat_text_roundtrip n t); decide_now. Defined.
