(* ===== verification/Execute.v ===== *)
(** * The interpreter: src/src/vm/execute.c

    Frames, the operand stack and the locals, the dispatch of the 24 opcodes,
    the services an instruction can start, and the resumable execution that
    advances under a budget and suspends while a service is pending.

    Executions are modelled without a coverage collector ([vm->coverage] is
    NULL), so the calls that record coverage do nothing.  The operating system
    side of the native services is a parameter, the class [Native]. *)

From Stdlib Require Import ZArith Lia.
From stdpp Require Import prelude gmap strings.
From S2P Require Import Prelude Bigint Value Decimals Equal Numeric Utf8 Program Builtins Verify.
From S2P Require Import Render Collections.

(** ** Data *)

Inductive VMExecutionStatus :=
| VM_YIELDED | VM_COMPLETED | VM_TRAPPED | VM_EXITED | VM_BUSY | VM_WAITING.

#[global] Instance VMExecutionStatus_eq_dec : EqDecision VMExecutionStatus.
Proof. solve_decision. Defined.

Record Local := mkLocal { lname : list Z; lvalue : Value }.

(** The operand stack is kept top first; [stack_count] and [local_count] are
    the lengths of the lists. *)
Record Frame := mkFrame {
  function : Function;
  pc : nat;
  stack : list Value;
  stack_capacity : nat;
  locals : list Local;
  local_capacity : nat;
}.

(** The mutable object behind a V_ITER value. *)
Record Iterator := mkIterator { iterable : Value; cursor : PnBigInt; index : Z }.

(** ** Frame operations *)

Definition set_stack (s : list Value) (f : Frame) : Frame :=
  mkFrame (function f) (pc f) s (stack_capacity f) (locals f) (local_capacity f).
Definition set_pc (n : nat) (f : Frame) : Frame :=
  mkFrame (function f) n (stack f) (stack_capacity f) (locals f) (local_capacity f).
Definition set_locals (l : list Local) (f : Frame) : Frame :=
  mkFrame (function f) (pc f) (stack f) (stack_capacity f) l (local_capacity f).

(** [cap ? cap * 2 : initial] *)
Definition next_capacity (initial cap : nat) : nat := if Nat.eqb cap 0 then initial else (cap * 2)%nat.

Definition stack_push (f : Frame) (v : Value) : M Frame :=
  f ← (if Nat.eqb (length (stack f)) (stack_capacity f)
       then _ ← alloc;
            mret (mkFrame (function f) (pc f) (stack f) (next_capacity 16 (stack_capacity f))
                    (locals f) (local_capacity f))
       else mret f);
  mret (set_stack (v :: stack f) f).

Definition underflow : string := "VM trap: operand stack underflow".

Definition stack_pop (f : Frame) : M (Value * Frame) :=
  match stack f with
  | [] => trap VM_FAULT_FATAL underflow
  | v :: rest => mret (v, set_stack rest f)
  end.

(** The search runs from the last local to the first. *)
Fixpoint local_find (ls : list Local) (name : list Z) : option Value :=
  match ls with
  | [] => None
  | l :: rest =>
      match local_find rest name with
      | Some v => Some v
      | None => if streq (lname l) name then Some (lvalue l) else None
      end
  end.

Definition local_get (f : Frame) (name : list Z) : option Value := local_find (locals f) name.

(** The loop that replaces the first local of that name. *)
Fixpoint local_replace (ls : list Local) (name : list Z) (v : Value) : option (list Local) :=
  match ls with
  | [] => None
  | l :: rest =>
      if streq (lname l) name then Some (mkLocal (lname l) v :: rest)
      else match local_replace rest name v with
           | Some rest => Some (l :: rest)
           | None => None
           end
  end.

Definition local_put (f : Frame) (name : list Z) (v : Value) : M Frame :=
  match local_replace (locals f) name v with
  | Some ls => mret (set_locals ls f)
  | None =>
      f ← (if Nat.eqb (length (locals f)) (local_capacity f)
           then _ ← alloc;
                mret (mkFrame (function f) (pc f) (stack f) (stack_capacity f) (locals f)
                        (next_capacity 16 (local_capacity f)))
           else mret f);
      name ← copy_text name;
      mret (set_locals (locals f ++ [mkLocal name v]) f)
  end.

(** [for (i = count; i-- > 0;) values[i] = stack_pop(...)]: the values in the
    order they were pushed. *)
Fixpoint pop_values (n : nat) (f : Frame) (acc : list Value) : M (list Value * Frame) :=
  match n with
  | O => mret (acc, f)
  | S n => '(v, f) ← stack_pop f; pop_values n f (v :: acc)
  end.

Definition constant_value (c : Constant) : M Value :=
  match c with
  | CNat number => value_big V_NAT number
  | CInt number => value_big V_INT number
  | CDec negative e number =>
      n ← pn_big_copy number;
      v ← value_decimal n e;
      mret (if negative && pn_big_is_zero number
            then Dec {| coefficient := n; exponent := e; negative_zero := true |} else v)
  | CText text => value_data V_STR text
  | CBool b => value_bool b
  | CVoid => value_void
  end.

(** ** Instructions that only touch their frame

    Each definition is one case of the switch, run with the program counter
    already past the instruction.  The frame of a failed instruction is never
    seen again, so a failure carries only its diagnostic. *)

Definition op_const (c : Constant) (f : Frame) : M Frame :=
  v ← constant_value c; stack_push f v.

Definition uninitialized : string := "VM trap: uninitialized local".

Definition op_load (name : list Z) (f : Frame) : M Frame :=
  match local_get f name with
  | None => trap VM_FAULT_FATAL uninitialized
  | Some v => stack_push f v
  end.

Definition op_store (name : list Z) (f : Frame) : M Frame :=
  '(v, f) ← stack_pop f; local_put f name v.

Definition op_pop (f : Frame) : M Frame := '(_, f) ← stack_pop f; mret f.

(** [value_rat]: a failure is not classified. *)
Definition value_rat (n d : PnBigInt) : M Value := λ al,
  match value_rat_classified n d al with
  | (Trap _ s, al') => (Trap VM_FAULT_FATAL s, al')
  | r => r
  end.

(** The value of a unary operator; [code == 1] is [!], anything else is [-]. *)
Definition unary_value (code : Z) (a : Value) : M Value :=
  if code =? 1 then
    match a with
    | Bool_ b => value_bool (negb b)
    | _ => trap VM_FAULT_FATAL "VM trap: ! requires Bool"
    end
  else
    match a with
    | Dec d => n ← pn_big_copy (coefficient d); value_decimal (set_sign n (- sign n)) (exponent d)
    | Rat n d => value_rat (set_sign n (- sign n)) d
    | Nat_ n | Int_ n => n ← pn_big_copy n; value_big V_INT (set_sign n (- sign n))
    | _ => trap VM_FAULT_FATAL "VM trap: unary - requires numeric value"
    end.

Definition op_unary (code : Z) (f : Frame) : M Frame :=
  '(a, f) ← stack_pop f; v ← unary_value code a; stack_push f v.

Definition op_binary (code : Z) (f : Frame) : M Frame :=
  '(b, f) ← stack_pop f;
  '(a, f) ← stack_pop f;
  v ← binary_value_classified code a b;
  stack_push f v.

Definition op_make_array (count : nat) (f : Frame) : M Frame :=
  _ ← calloc_items count;
  '(items, f) ← pop_values count f [];
  v ← value_sequence V_ARRAY items;
  stack_push f v.

Definition out_of_bounds : string := "VM trap: index is out of bounds".

(** The value at an index of an array, byte string or string (by code point). *)
Definition index_value (a b : Value) : M Value :=
  match value_index b with
  | None => trap (if is_kind b V_NAT then VM_FAULT_REQUEST else VM_FAULT_FATAL) "VM trap: invalid index"
  | Some i =>
      match a with
      | Array items =>
          if Z.of_nat (length items) <=? i then trap VM_FAULT_REQUEST out_of_bounds
          else rd items (Z.to_nat i)
      | Bytes s =>
          if Z.of_nat (length s) <=? i then trap VM_FAULT_REQUEST out_of_bounds
          else c ← rd s (Z.to_nat i); value_size c
      | Str t =>
          match utf8_offset t i with
          | None => trap VM_FAULT_REQUEST out_of_bounds
          | Some (start, stop) =>
              value_data V_STR (take (Z.to_nat (stop - start)) (drop (Z.to_nat start) (data t)))
          end
      | _ => trap VM_FAULT_FATAL "VM trap: value is not indexable"
      end
  end.

Definition op_index_get (f : Frame) : M Frame :=
  '(b, f) ← stack_pop f;
  '(a, f) ← stack_pop f;
  v ← index_value a b;
  stack_push f v.

(** The texts of the instruction with the rendered values between them. *)
Fixpoint interpolate (out : Buffer) (items : list (list Z)) (values : list Value) : M Buffer :=
  match items with
  | [] => mret out
  | t :: items =>
      out ← buffer_text out t;
      match values with
      | [] => interpolate out items []
      | v :: values => out ← render out v false; interpolate out items values
      end
  end.

(** When a value is missing nothing is rendered, and an empty string is still
    made and pushed before the trap is noticed. *)
Definition op_interpolate (items : list (list Z)) (f : Frame) : M Frame :=
  let count := Nat.pred (length items) in
  _ ← calloc_items count;
  if Nat.ltb (length (stack f)) count then
    v ← value_data V_STR [];
    _ ← stack_push (set_stack [] f) v;
    trap VM_FAULT_FATAL underflow
  else
    '(values, f) ← pop_values count f [];
    out ← interpolate empty_buffer items values;
    v ← value_data V_STR (content out);
    stack_push f v.

(** A record or variant; when a value is missing the object is still made (its
    missing parts NULL) and pushed before the trap is noticed. *)
Definition make_named (k : ValueKind) (name : list Z) (items : list (list Z)) (count : nat) (f : Frame)
  : M Frame :=
  _ ← calloc_items count;
  if Nat.ltb (length (stack f)) count then
    v ← named_value k name items (replicate count Void);
    _ ← stack_push (set_stack [] f) v;
    trap VM_FAULT_FATAL underflow
  else
    '(values, f) ← pop_values count f [];
    v ← named_value k name items values;
    stack_push f v.

Definition op_make_record (name : list Z) (items : list (list Z)) (f : Frame) : M Frame :=
  make_named V_RECORD name items (length items) f.

Definition op_make_variant (name2 : list Z) (count : nat) (f : Frame) : M Frame :=
  make_named V_VARIANT name2 [] count f.

(** The first field of that name. *)
Fixpoint field_find (names : list (list Z)) (values : list Value) (name : list Z) : option Value :=
  match names, values with
  | n :: names, v :: values => if streq n name then Some v else field_find names values name
  | _, _ => None
  end.

Definition op_field_get (name : list Z) (f : Frame) : M Frame :=
  '(a, f) ← stack_pop f;
  match a with
  | Record_ _ names values =>
      match field_find names values name with
      | Some v => stack_push f v
      | None => trap VM_FAULT_FATAL "VM trap: record has no field"
      end
  | _ => trap VM_FAULT_FATAL "VM trap: field access requires a record"
  end.

Fixpoint push_all (f : Frame) (values : list Value) : M Frame :=
  match values with
  | [] => mret f
  | v :: values => f ← stack_push f v; push_all f values
  end.

Definition op_match_variant (name : list Z) (target : nat) (f : Frame) : M Frame :=
  '(a, f) ← stack_pop f;
  match a with
  | Variant n values => if streq n name then push_all f values else mret (set_pc target f)
  | _ => trap VM_FAULT_FATAL "VM trap: match subject is not an enum"
  end.

Definition op_jump_false (target : nat) (f : Frame) : M Frame :=
  '(a, f) ← stack_pop f;
  match a with
  | Bool_ b => mret (if b then f else set_pc target f)
  | _ => trap VM_FAULT_FATAL "VM trap: conditional requires Bool"
  end.

(** ** Native services

    What the interpreter asks of the code that talks to the operating system
    and of the handlers of builtins that keep state outside the interpreter
    (files, sockets, consoles, HTTP shells, nested VMs).  [W] is all of that
    state; a pointer to a service object is a [ref] into it.  A reply that can
    raise a diagnostic carries it as an option beside the returned value. *)
Class Native (W : Type) := {
  (** [entry->call(vm, name, arguments)] for the handlers not modelled here *)
  native_call : Handler → list Z → list Value → W → outcome Value * W;
  tcp_server_http_continue : Value → W → bool * option string * W;
  http_runtime_listen : Value → Function → bool → bool → bool → bool → W → outcome Value * W;
  http_runtime_active : W → bool;
  http_runtime_owns_signals : W → bool;
  install_stop_signals : W → bool * W;
  http_runtime_request_close : Value → bool → W → bool * W;
  http_resource : ref → W → bool;
  http_connection_handler : Program → list Value → W → outcome (Function * list Value) * W;
  tcp_server_start_service :
    option Function → Value → Value → Z → list Z → bool → W → option ref * W;
  tcp_server_start_stream :
    option Function → Value → Value → Z → list Z → bool → W → option ref * W;
  tcp_server_start : option Function → Value → Z → list Z → bool → W → option ref * W;
  tcp_server_enable_filesystem : ref → W → W;
  tcp_server_enable_console : ref → W → W;
  tcp_server_set_ready_handler : ref → Function → Value → bool → W → bool * W;
  tcp_server_done : ref → W → bool;
  tcp_server_destroy : ref → W → W;
  console_write_start : Value → bool → W → option ref * option string * W;
  root_read_start : list Value → bool → W → option ref * option string * W;
  tcp_exchange_start : list Value → W → option ref * W;
  http_transport_start : list Value → W → option ref * W;
  (** progress, results and disposal of the service objects *)
  tcp_exchange_poll : ref → Z → W → bool * W;
  tcp_exchange_result : ref → W → option Value;
  tcp_exchange_destroy : ref → W → W;
  http_transport_poll : ref → Z → W → bool * W;
  http_transport_result : ref → W → option Value;
  http_transport_destroy : ref → W → W;
  console_write_poll : ref → W → bool * W;
  console_write_result : ref → W → option Value;
  console_write_destroy : ref → W → W;
  root_read_poll : ref → W → bool * W;
  root_read_result : ref → W → option Value;
  root_read_error : ref → W → option string;
  root_read_destroy : ref → W → W;
  service_stop_requested : W → bool;
  tcp_server_stop : ref → W → W;
  tcp_server_poll : ref → Z → W → W;
  tcp_server_advance : ref → nat → W → W;
  tcp_server_error : ref → W → option string;
  tcp_server_result : ref → W → option Value;
  restore_stop_signals : W → W;
  filesystem_stage_destroy : W → W;
  gzip_stream_destroy : W → W;
  http_stream_destroy : W → W;
  digest_destroy : W → W;
}.

(** The callbacks an embedder may supply ([VMHostCall], [VMServiceWait]); their
    context is part of [W]. *)
Definition VMHostCall (W : Type) := list Z → list Value → W → outcome Value * W.
Definition VMServiceWait (W : Type) := Value → W → bool * option string * W.

(** ** Executions *)

(** The fields set when an execution is created or by the enable functions. *)
Record Profile (W : Type) := mkProfile {
  embedded : bool;
  host_call : option (VMHostCall W);
  print_wait : option (VMServiceWait W);
  read_wait : option (VMServiceWait W);
  network_enabled : bool;
  server_read_enabled : bool;
  console_enabled : bool;
  filesystem_enabled : bool;
  server_enabled : bool;
}.
Arguments mkProfile {_}. Arguments embedded {_}. Arguments host_call {_}. Arguments print_wait {_}.
Arguments read_wait {_}. Arguments network_enabled {_}. Arguments server_read_enabled {_}.
Arguments console_enabled {_}. Arguments filesystem_enabled {_}. Arguments server_enabled {_}.

(** What the execution is waiting for. *)
Record Pending := mkPending {
  waiting_read : bool;
  fake_fail : bool;
  tcp : option ref;
  http : option ref;
  server : option ref;
  root_read : option ref;
  console_write : option ref;
  http_waiting : option ref;
}.

Definition no_pending : Pending := mkPending false false None None None None None None.

(** The parts of [VM] the interpreter uses, with the objects of the heap whose
    identity matters. *)
Record VM (W : Type) := mkVM {
  program : Program;
  active : bool;  (* [vm->execution] is set *)
  error : option string;
  fault_kind : VMFaultKind;
  iterators : gmap ref Iterator;
  next_ref : ref;
  world : W;
}.
Arguments mkVM {_}. Arguments program {_}. Arguments active {_}. Arguments error {_}. Arguments fault_kind {_}.
Arguments iterators {_}. Arguments next_ref {_}. Arguments world {_}.

(** The frames are kept innermost first; [frame_count] is their number. *)
Record VMExecution (W : Type) := mkExecution {
  vm : VM W;
  frames : list Frame;
  frame_capacity : nat;
  status : VMExecutionStatus;
  result : option Value;
  exit_status : Z;
  running : bool;
  profile : Profile W;
  pending : Pending;
  yield_requested : bool;
}.
Arguments mkExecution {_}. Arguments vm {_}. Arguments frames {_}. Arguments frame_capacity {_}.
Arguments status {_}. Arguments result {_}. Arguments exit_status {_}. Arguments running {_}.
Arguments profile {_}. Arguments pending {_}. Arguments yield_requested {_}.

Section setters.
Context {W : Type}.
Implicit Types (e : VMExecution W) (v : VM W).

Definition set_vm v e := mkExecution v (frames e) (frame_capacity e) (status e) (result e)
  (exit_status e) (running e) (profile e) (pending e) (yield_requested e).
Definition set_frames (fs : list Frame) e := mkExecution (vm e) fs (frame_capacity e) (status e)
  (result e) (exit_status e) (running e) (profile e) (pending e) (yield_requested e).
Definition set_capacity (n : nat) e := mkExecution (vm e) (frames e) n (status e)
  (result e) (exit_status e) (running e) (profile e) (pending e) (yield_requested e).
Definition set_status (s : VMExecutionStatus) e := mkExecution (vm e) (frames e) (frame_capacity e) s
  (result e) (exit_status e) (running e) (profile e) (pending e) (yield_requested e).
Definition set_result (r : option Value) e := mkExecution (vm e) (frames e) (frame_capacity e) (status e)
  r (exit_status e) (running e) (profile e) (pending e) (yield_requested e).
Definition set_exit_status (n : Z) e := mkExecution (vm e) (frames e) (frame_capacity e) (status e)
  (result e) n (running e) (profile e) (pending e) (yield_requested e).
Definition set_running (b : bool) e := mkExecution (vm e) (frames e) (frame_capacity e) (status e)
  (result e) (exit_status e) b (profile e) (pending e) (yield_requested e).
Definition set_profile (p : Profile W) e := mkExecution (vm e) (frames e) (frame_capacity e) (status e)
  (result e) (exit_status e) (running e) p (pending e) (yield_requested e).
Definition set_pending (p : Pending) e := mkExecution (vm e) (frames e) (frame_capacity e) (status e)
  (result e) (exit_status e) (running e) (profile e) p (yield_requested e).
Definition set_yield (b : bool) e := mkExecution (vm e) (frames e) (frame_capacity e) (status e)
  (result e) (exit_status e) (running e) (profile e) (pending e) b.
Definition set_world (w : W) e :=
  set_vm (mkVM (program (vm e)) (active (vm e)) (error (vm e)) (fault_kind (vm e)) (iterators (vm e))
            (next_ref (vm e)) w) e.
Definition set_error (k : VMFaultKind) (m : option string) e :=
  set_vm (mkVM (program (vm e)) (active (vm e)) m k (iterators (vm e)) (next_ref (vm e)) (world (vm e))) e.
Definition set_heap (its : gmap ref Iterator) (next : ref) e :=
  set_vm (mkVM (program (vm e)) (active (vm e)) (error (vm e)) (fault_kind (vm e)) its next (world (vm e))) e.
End setters.

Definition set_waiting_read (b : bool) (p : Pending) : Pending := mkPending b (fake_fail p) (tcp p)
  (http p) (server p) (root_read p) (console_write p) (http_waiting p).
Definition set_fake_fail (b : bool) (p : Pending) : Pending := mkPending (waiting_read p) b (tcp p)
  (http p) (server p) (root_read p) (console_write p) (http_waiting p).
Definition set_tcp (r : option ref) (p : Pending) : Pending := mkPending (waiting_read p) (fake_fail p) r
  (http p) (server p) (root_read p) (console_write p) (http_waiting p).
Definition set_http (r : option ref) (p : Pending) : Pending := mkPending (waiting_read p) (fake_fail p)
  (tcp p) r (server p) (root_read p) (console_write p) (http_waiting p).
Definition set_server (r : option ref) (p : Pending) : Pending := mkPending (waiting_read p)
  (fake_fail p) (tcp p) (http p) r (root_read p) (console_write p) (http_waiting p).
Definition set_root_read (r : option ref) (p : Pending) : Pending := mkPending (waiting_read p)
  (fake_fail p) (tcp p) (http p) (server p) r (console_write p) (http_waiting p).
Definition set_console_write (r : option ref) (p : Pending) : Pending := mkPending (waiting_read p)
  (fake_fail p) (tcp p) (http p) (server p) (root_read p) r (http_waiting p).
Definition set_http_waiting (r : option ref) (p : Pending) : Pending := mkPending (waiting_read p)
  (fake_fail p) (tcp p) (http p) (server p) (root_read p) (console_write p) r.

(** ** The monad of an execution

    A computation transforms the execution; a failure keeps the execution it
    happened in.  A diagnostic raised after a change of the execution leaves
    the change in place, as in the code. *)
Definition X (W A : Type) : Type := VMExecution W → allocator → outcome A * VMExecution W * allocator.

#[global] Instance X_ret W : MRet (X W) := λ A a e al, (Ret a, e, al).
#[global] Instance X_bind W : MBind (X W) := λ A B k m e al,
  match m e al with
  | (Ret a, e', al') => k a e' al'
  | (Trap f s, e', al') => (Trap f s, e', al')
  | (NoMem, e', al') => (NoMem, e', al')
  | (Undef, e', al') => (Undef, e', al')
  | (Diverge, e', al') => (Diverge, e', al')
  end.

Section monad.
Context {W : Type}.

Definition lift {A} (m : M A) : X W A := λ e al, let '(o, al') := m al in (o, e, al').
Definition get : X W (VMExecution W) := λ e al, (Ret e, e, al).
Definition update (g : VMExecution W → VMExecution W) : X W unit := λ e al, (Ret tt, g e, al).
(** [vm->error = message] *)
Definition raise {A} (message : string) : X W A := lift (trap VM_FAULT_FATAL message).

(** A native call: its reply decides how the computation goes on. *)
Definition native {A} (call : W → A * W) : X W A := λ e al,
  let '(a, w) := call (world (vm e)) in (Ret a, set_world w e, al).
Definition native_outcome {A} (call : W → outcome A * W) : X W A := λ e al,
  let '(o, w) := call (world (vm e)) in (o, set_world w e, al).

(** [if (vm->error) ...] after a call that may have set it. *)
Definition check_reply (message : option string) : X W unit :=
  match message with Some m => raise m | None => mret tt end.

(** [&execution->frames[execution->frame_count - 1]] *)
Definition top : X W Frame := λ e al,
  match frames e with f :: _ => (Ret f, e, al) | [] => (Undef, e, al) end.
Definition set_top (f : Frame) : X W unit :=
  update (λ e, set_frames (match frames e with _ :: fs => f :: fs | [] => [] end) e).

Definition on_top (op : Frame → M Frame) : X W unit :=
  f ← top; f ← lift (op f); set_top f.

Definition suspend : X W unit := update (set_status VM_WAITING).
Definition on_pending (g : Pending → Pending) : X W unit := update (λ e, set_pending (g (pending e)) e).
End monad.

(** ** Calls *)

Section calls.
Context {W : Type} `{!Native W}.
Implicit Types (arguments : list Value) (entry : Builtin).

(** [sizeof(Frame)] on a 64-bit target. *)
Definition sizeof_Frame : Z := 88.

Fixpoint bind_arguments (names : list (list Z)) (values : list Value) (f : Frame) : M Frame :=
  match names with
  | [] => mret f
  | n :: names =>
      match values with
      | [] => undef
      | v :: values => f ← local_put f n v; bind_arguments names values f
      end
  end.

Definition frame_push (g : Function) arguments : X W unit :=
  e ← get;
  _ ← (if Nat.eqb (length (frames e)) (frame_capacity e) then
         let capacity := next_capacity 8 (frame_capacity e) in
         if SIZE_MAX / sizeof_Frame <? Z.of_nat capacity then lift nomem
         else _ ← lift alloc; update (set_capacity capacity)
       else mret tt);
  f ← lift (bind_arguments (params g) arguments (mkFrame g 0 [] 0 [] 0));
  update (λ e, set_frames (f :: frames e) e).

(** [strlen(name) == length && !memcmp(name, data, length)] *)
Definition same_name (name text : list Z) : bool :=
  Nat.eqb (strlen name) (length text) && (memcmp name text =? 0).

Definition is_builtin (name : list Z) : bool :=
  match builtin name with Some _ => true | None => false end.

(** The named handler of a service: the first function, builtins excepted. *)
Definition execution_handler (p : Program) (callable : Value) : option Function :=
  match callable with
  | Str t => List.find (λ g, negb (is_builtin (fname g)) && same_name (fname g) (data t)) (functions p)
  | _ => None
  end.

(** [values[i]] for each field: its name and its kind must agree. *)
Fixpoint read_limits (expected : list string) (names : list (list Z)) (values : list Value)
  : option (list Z) :=
  match expected, names, values with
  | [], _, _ => Some []
  | x :: expected, n :: names, v :: values =>
      if is_name n x then
        i ← value_index v; rest ← read_limits expected names values; Some (i :: rest)
      else None
  | _, _, _ => None
  end.

(** A record of [count] fields of the given type. *)
Definition record_of (v : Value) (type : string) (count : nat) : option (list (list Z) * list Value) :=
  match v with
  | Record_ n names values =>
      if is_name n type && Nat.eqb (length values) count then Some (names, values) else None
  | _ => None
  end.

(** An allocation whose failure is handled on the spot. *)
Definition attempt {A} (m : M A) : X W (option A) := λ e al,
  match m al with
  | (Ret a, al') => (Ret (Some a), e, al')
  | (NoMem, al') => (Ret None, e, al')
  | (Trap k s, al') => (Trap k s, e, al')
  | (Undef, al') => (Undef, e, al')
  | (Diverge, al') => (Diverge, e, al')
  end.

(** [!execution->embedded || execution->..._enabled] *)
Definition granted (capability : Profile W → bool) (e : VMExecution W) : bool :=
  negb (embedded (profile e)) || capability (profile e).

(** The capabilities handed on to a started server. *)
Definition grant_server (s : ref) : X W unit :=
  e ← get;
  _ ← (if granted filesystem_enabled e then native (λ w, (tt, tcp_server_enable_filesystem s w))
       else mret tt);
  if granted console_enabled e then native (λ w, (tt, tcp_server_enable_console s w)) else mret tt.

Definition service_limits : list string :=
  ["concurrency"; "request_limit"; "response_limit"; "client_timeout_ms"; "drain_ms"].

(** The readiness callback of a server that has just started. *)
Definition configure_service (s : ref) (ready : Function) (address port : Value) : X W bool :=
  e ← get;
  context ← attempt (named_value V_RECORD (str "TcpServiceReady") [str "address"; str "port"]
                       [address; port]);
  match context with
  | None => mret false
  | Some c =>
      configured ← native (tcp_server_set_ready_handler s ready c (granted console_enabled e));
      if configured && negb (embedded (profile e)) then native install_stop_signals
      else mret configured
  end.

Definition service_call arguments : X W (option Value) :=
  e ← get;
  if negb (granted server_enabled e)
  then raise "VM trap: TCP service is unavailable in this execution"
  else
    match arguments with
    | [address; port; handler; context; record; ready] =>
        match is_kind address V_STR, value_index port, record_of record "TcpServiceLimits" 5 with
        | true, Some p, Some (names, values) =>
            match read_limits service_limits names values with
            | None => raise "VM trap: invalid TCP service limits"
            | Some limits =>
                match execution_handler (program (vm e)) ready with
                | Some g =>
                    if negb (is_async g) || pure g || negb (Nat.eqb (length (params g)) 1)
                    then raise "VM trap: invalid service readiness callback"
                    else
                      s ← native (tcp_server_start_service (execution_handler (program (vm e)) handler)
                                    context address p limits (granted network_enabled e));
                      _ ← on_pending (set_server s);
                      match s with
                      | None => lift nomem
                      | Some s =>
                          _ ← grant_server s;
                          done ← native (λ w, (tcp_server_done s w, w));
                          configured ← (if (done : bool) then mret true
                                        else configure_service s g address port);
                          if negb configured then
                            _ ← native (λ w, (tt, tcp_server_destroy s w));
                            _ ← on_pending (set_server None);
                            raise "VM trap: service readiness setup failed"
                          else _ ← suspend; mret None
                      end
                | None => raise "VM trap: invalid service readiness callback"
                end
            end
        | _, _, _ => raise "VM trap: invalid TCP service arguments"
        end
    | _ => lift undef
    end.

Definition server_limits : list string :=
  ["clients"; "concurrency"; "request_limit"; "response_limit"; "client_timeout_ms";
   "admission_timeout_ms"; "drain_ms"].

(** The handler of a bounded server: the search does not stop at a match, so
    the last function of the name wins. *)
Definition server_handler (p : Program) (callable : Value) : option Function :=
  match callable with
  | Str t =>
      fold_left (λ acc g, if negb (is_builtin (fname g)) && same_name (fname g) (data t)
                          then Some g else acc) (functions p) None
  | _ => None
  end.

Definition server_call_mode arguments (streaming : bool) : X W (option Value) :=
  e ← get;
  if negb (granted server_enabled e)
  then raise "VM trap: TCP server is unavailable in this execution"
  else
    match arguments with
    | address :: port :: callable :: rest =>
        record ← lift (rd rest (if streaming then 1 else 0)%nat);
        match is_kind address V_STR, value_index port, record_of record "TcpServerLimits" 7 with
        | true, Some p, Some (names, values) =>
            match read_limits server_limits names values with
            | None => raise "VM trap: invalid TCP server limits"
            | Some limits =>
                let handler := server_handler (program (vm e)) callable in
                s ← (if streaming then
                       context ← lift (rd rest 0);
                       native (tcp_server_start_stream handler context address p limits
                                 (granted network_enabled e))
                     else native (tcp_server_start handler address p limits
                                    (granted network_enabled e)));
                _ ← on_pending (set_server s);
                match s with
                | None => lift nomem
                | Some s => _ ← grant_server s; _ ← suspend; mret None
                end
            end
        | _, _, _ => raise "VM trap: invalid TCP server arguments"
        end
    | _ => lift undef
    end.

Definition http_unit_result : M Value :=
  unit ← value_unit; named_value V_VARIANT (str "Ok") [] [unit].

Definition http_worker_function (p : Program) (name : Value) : option Function :=
  match name with
  | Str t => List.find (λ g, same_name (fname g) (data t) && is_async g && negb (pure g) &&
                             Nat.eqb (length (params g)) 1) (functions p)
  | _ => None
  end.

Definition builtin_call entry arguments : X W Value :=
  let name := str (bname entry) in
  match bcall entry with
  | Builtins.builtins_numeric_call => lift (Collections.builtins_numeric_call name arguments)
  | Builtins.builtins_text_call => lift (Collections.builtins_text_call name arguments)
  | Builtins.builtins_collections_call => lift (Collections.builtins_collections_call name arguments)
  | async_service_only => raise "VM trap: async service requires await"
  | handler => native_outcome (native_call handler name arguments)
  end.
End calls.

(** ** Builtins and services *)

Section services.
Context {W : Type} `{!Native W}.
Implicit Types (a : list Value) (entry : Builtin).

(** [!strcmp(entry->name, "...")] *)
Definition named (entry : Builtin) (s : string) : bool := String.eqb (bname entry) s.

(** The arguments array has [arity] slots. *)
Definition arg (a : list Value) (i : nat) : X W Value := lift (rd a i).

Definition http_connection_continue_call a : X W (option Value) :=
  token ← arg a 0;
  '(ok, message) ← native (tcp_server_http_continue token);
  _ ← (if (ok : bool) then _ ← on_pending (set_waiting_read true); suspend else mret tt);
  _ ← check_reply message;
  mret None.

Definition http_listen_call entry a : X W (option Value) :=
  handle ← arg a 0;
  name ← arg a 1;
  e ← get;
  match http_worker_function (program (vm e)) name with
  | None => raise "VM trap: invalid HTTP worker"
  | Some worker =>
      if negb (granted server_enabled e) then raise "VM trap: listener capability is unavailable"
      else
        v ← native_outcome (http_runtime_listen handle worker (named entry "http_listen_contextual")
              (granted network_enabled e) (granted filesystem_enabled e) (granted console_enabled e));
        signals ← native (λ w, if http_runtime_active w && negb (http_runtime_owns_signals w)
                               then install_stop_signals w else (true, w));
        if negb signals then raise "HTTP signal setup failed"
        else _ ← update (set_yield true); mret (Some v)
  end.

Definition http_close_call entry a : X W (option Value) :=
  handle ← arg a 0;
  match handle with
  | HttpState id =>
      ok ← native (http_runtime_request_close handle (named entry "http_destroy"));
      if negb ok then raise "VM trap: invalid HTTP shutdown handle"
      else
        e ← get;
        if negb (http_resource id (world (vm e))) then v ← lift http_unit_result; mret (Some v)
        else _ ← on_pending (set_http_waiting (Some id)); _ ← suspend; mret None
  | _ => raise "VM trap: invalid HTTP shutdown handle"
  end.

Definition http_connection_invoke_call a : X W (option Value) :=
  e ← get;
  '(g, call_arguments) ← native_outcome (http_connection_handler (program (vm e)) a);
  _ ← frame_push g call_arguments;
  mret None.

Definition invalid_process_status : string := "VM trap: invalid process status".

Definition host_exit_call entry a : X W (option Value) :=
  status ← arg a 0;
  match value_index status with
  | None => raise invalid_process_status
  | Some n =>
      _ ← update (set_exit_status n);
      if 255 <? n then raise invalid_process_status
      else
        e ← get;
        if embedded (profile e) || http_runtime_active (world (vm e))
        then _ ← update (set_status VM_EXITED); mret None
        else v ← native_outcome (native_call Builtins.host_call (str "process_exit") a); mret (Some v)
  end.

(** A service whose start returns an object, or a diagnostic, or neither when
    memory ran out. *)
Definition start_service (reply : option ref * option string) (record_ : option ref → Pending → Pending)
  : X W (option Value) :=
  let '(r, message) := reply in
  _ ← on_pending (record_ r);
  _ ← (match r with Some _ => suspend | None => mret tt end);
  _ ← check_reply message;
  match r with Some _ => mret None | None => lift nomem end.

Definition host_console_call entry a : X W (option Value) :=
  e ← get;
  if negb (granted console_enabled e)
  then raise "VM trap: console service is unavailable in this execution"
  else
    text ← arg a 0;
    reply ← native (console_write_start text (named entry "host_stderr_async"));
    start_service reply set_console_write.

Definition fs_read_call entry a : X W (option Value) :=
  e ← get;
  if negb (granted filesystem_enabled e)
  then raise "VM trap: filesystem service is unavailable in this execution"
  else
    reply ← native (root_read_start a (named entry "fs_root_identity_async"));
    start_service reply set_root_read.

(** The reply of a [VMServiceWait] callback. *)
Definition wait_reply (ok : bool) (message : option string) (register : X W unit) (failed : string)
  : X W (option Value) :=
  _ ← (if ok then register else mret tt);
  _ ← check_reply message;
  if ok then mret None else raise failed.

Definition server_read_chunk_call a : X W (option Value) :=
  n ← arg a 0;
  e ← get;
  match value_index n, read_wait (profile e) with
  | Some limit, Some wait =>
      if (limit =? 0) || (16384 <? limit) || negb (embedded (profile e)) ||
         negb (server_read_enabled (profile e))
      then raise "VM trap: TCP server read is unavailable in this execution"
      else
        '(ok, message) ← native (wait n);
        wait_reply ok message (_ ← on_pending (set_waiting_read true); suspend)
          "VM trap: TCP server read registration failed"
  | _, _ => raise "VM trap: TCP server read is unavailable in this execution"
  end.

(** An outbound exchange waits for its own completion. *)
Definition exchange_call (start : list Value → W → option ref * W)
  (record_ : option ref → Pending → Pending) (unavailable : string) a : X W (option Value) :=
  e ← get;
  if negb (granted network_enabled e) then raise unavailable
  else
    r ← native (start a);
    _ ← on_pending (record_ r);
    match r with
    | None => lift nomem
    | Some _ => _ ← on_pending (set_waiting_read true); _ ← suspend; mret None
    end.

Definition async_fake_read_call a : X W (option Value) :=
  v ← arg a 0;
  e ← get;
  match v with
  | Bool_ b =>
      let register :=
        _ ← on_pending (set_waiting_read true); _ ← on_pending (set_fake_fail b); suspend in
      if negb (embedded (profile e)) then _ ← register; mret None
      else
        match read_wait (profile e) with
        | None => raise "VM trap: async service is unavailable"
        | Some wait =>
            '(ok, message) ← native (wait v);
            wait_reply ok message register "VM trap: async service is unavailable"
        end
  | _ => raise "VM trap: fake read requires Bool"
  end.

Definition process_exit_call a : X W (option Value) :=
  v ← arg a 0;
  match value_index v with
  | None => raise invalid_process_status
  | Some n => _ ← update (set_exit_status n); _ ← update (set_status VM_EXITED); mret None
  end.

(** The embedder's callbacks, for effectful builtins of an embedded execution. *)
Definition embedder_call entry a : X W (option Value) :=
  e ← get;
  if named entry "run_bytecode" || named entry "run_bytecode_args"
  then raise "VM trap: nested execution is unavailable in resumable mode"
  else
    match print_wait (profile e), named entry "print" with
    | Some wait, true =>
        v ← arg a 0;
        '(ok, message) ← native (wait v);
        wait_reply ok message suspend "VM trap: pending print registration failed"
    | _, _ =>
        match host_call (profile e) with
        | None => raise "VM trap: host service is unavailable in resumable mode"
        | Some call => v ← native_outcome (call (str (bname entry)) a); mret (Some v)
        end
    end.

(** [execution_builtin]: the value returned, if any; [called_function] is true
    only for [http_connection_invoke]. *)
Definition called_function entry : bool := named entry "http_connection_invoke".

Definition execution_builtin entry a : X W (option Value) :=
  e ← get;
  if named entry "http_connection_continue" then http_connection_continue_call a
  else if named entry "http_listen_ordinary" || named entry "http_listen_contextual"
  then http_listen_call entry a
  else if named entry "http_close" || named entry "http_destroy" then http_close_call entry a
  else if called_function entry then http_connection_invoke_call a
  else if named entry "tcp_service" then service_call a
  else if named entry "host_arguments_async" then
    if negb (granted console_enabled e)
    then raise "VM trap: invocation service is unavailable in this execution"
    else v ← native_outcome (native_call Builtins.host_call (str "command_args") []); mret (Some v)
  else if named entry "host_exit_async" then host_exit_call entry a
  else if named entry "host_stdout_async" || named entry "host_stderr_async"
  then host_console_call entry a
  else if named entry "fs_read_beneath_async" || named entry "fs_root_identity_async"
  then fs_read_call entry a
  else if named entry "$tcp_serve" then server_call_mode a false
  else if named entry "$tcp_serve_stream" then server_call_mode a true
  else if named entry "$tcp_server_read_chunk" then server_read_chunk_call a
  else if named entry "$tcp_exchange" then
    exchange_call tcp_exchange_start set_tcp "VM trap: TCP service is unavailable in this execution" a
  else if named entry "$http_transport_exchange" then
    exchange_call http_transport_start set_http
      "VM trap: HTTP transport is unavailable in this execution" a
  else if named entry "async_fake_read" then async_fake_read_call a
  else if named entry "process_exit" && (embedded (profile e) || http_runtime_active (world (vm e)))
  then process_exit_call a
  else if negb (embedded (profile e)) || bpure entry || builtin_is_local_state (Some entry)
  then v ← builtin_call entry a; mret (Some v)
  else embedder_call entry a.
End services.

(** ** Instructions that touch the execution *)

Section instructions.
Context {W : Type} `{!Native W}.

(** A fresh heap address. *)
Definition fresh : X W ref := λ e al,
  let r := next_ref (vm e) in
  (Ret r, set_heap (iterators (vm e)) (Pos.succ r) e, al).

Definition op_make_range : X W unit :=
  f ← top;
  '(b, f) ← lift (stack_pop f);
  '(a, f) ← lift (stack_pop f);
  match a, b with
  | Nat_ m, Nat_ n =>
      _ ← lift alloc;
      m ← lift (pn_big_copy m);
      n ← lift (pn_big_copy n);
      r ← fresh;
      f ← lift (stack_push f (Range r m n));
      set_top f
  | _, _ => raise "VM trap: range bounds require Nat"
  end.

Definition op_iter_init (name : list Z) : X W unit :=
  f ← top;
  '(a, f) ← lift (stack_pop f);
  _ ← lift alloc;
  c ← lift (match a with Range _ start _ => pn_big_copy start | _ => mret pn_big_init end);
  r ← fresh;
  _ ← update (λ e, set_heap (<[r:=mkIterator a c 0]> (iterators (vm e))) (next_ref (vm e)) e);
  f ← lift (local_put f name (Iter r));
  set_top f.

(** One step of an iterator: the next value and the advanced iterator, or
    [None] at the end. *)
Definition iterator_next (it : Iterator) : M (option (Value * Iterator)) :=
  match iterable it with
  | Range _ _ stop =>
      if 0 <=? pn_big_compare (cursor it) stop then mret None
      else
        b ← value_big V_NAT (cursor it);
        c ← pn_big_add_small (cursor it) 1;
        mret (Some (b, mkIterator (iterable it) c (index it)))
  | Array items =>
      if Z.of_nat (length items) <=? index it then mret None
      else
        b ← rd items (Z.to_nat (index it));
        mret (Some (b, mkIterator (iterable it) (cursor it) (index it + 1)))
  | Bytes s =>
      if Z.of_nat (length s) <=? index it then mret None
      else
        c ← rd s (Z.to_nat (index it));
        b ← value_size c;
        mret (Some (b, mkIterator (iterable it) (cursor it) (index it + 1)))
  | _ => trap VM_FAULT_FATAL "VM trap: value is not iterable"
  end.

Definition op_iter_next (name name2 : list Z) (target : nat) : X W unit :=
  f ← top;
  e ← get;
  match local_get f name with
  | Some (Iter r) =>
      match iterators (vm e) !! r with
      | None => lift undef
      | Some it =>
          next ← lift (iterator_next it);
          match next with
          | None => set_top (set_pc target f)
          | Some (b, it) =>
              _ ← update (λ e, set_heap (<[r:=it]> (iterators (vm e))) (next_ref (vm e)) e);
              f ← lift (local_put f name2 b);
              set_top f
          end
      end
  | _ => raise "VM trap: invalid iterator"
  end.

(** [if (built && !called_function && status == VM_YIELDED && ...)]: the result
    of a builtin that completed on the spot is pushed. *)
Definition push_reply (entry : Builtin) (v : option Value) : X W unit :=
  e ← get;
  if called_function entry || negb (bool_decide (status e = VM_YIELDED)) then mret tt
  else
    match v with
    | None => lift nomem
    | Some v => on_top (λ f, stack_push f v)
    end.

Definition edge_ok (caller : Function) (built : option Builtin) (called : option Function)
  (awaited : bool) : bool :=
  verify_call_edge caller called (match built with Some b => bpure b | None => false end)
    (builtin_is_async built) (builtin_is_local_state built) awaited.

Definition bad_call : string := "VM trap: invalid async call effect or signature".

(** OP_CALL, and OP_AWAIT_CALL when [awaited]. *)
Definition op_call (name : list Z) (arity : nat) (awaited : bool) : X W unit :=
  _ ← lift (calloc_items arity);
  f ← top;
  '(args, f) ← lift (pop_values arity f []);
  _ ← set_top f;
  e ← get;
  match builtin name with
  | Some b =>
      if negb (Nat.eqb arity (barity b)) || negb (edge_ok (function f) (Some b) None awaited)
      then raise bad_call
      else v ← execution_builtin b args; push_reply b v
  | None =>
      match lookup_function (program (vm e)) name with
      | None => raise bad_call
      | Some g =>
          if negb (Nat.eqb arity (length (params g))) || negb (edge_ok (function f) None (Some g) awaited)
          then raise bad_call
          else frame_push g args
      end
  end.

Definition no_callee : string := "VM trap: indirect call target was not found".
Definition arity_mismatch : string := "VM trap: indirect call arity mismatch".

(** The diagnostic of an indirect call whose effect is not allowed. *)
Definition bad_effect (caller : Function) : string :=
  if pure caller then "VM trap: pure function invokes impure callable"
  else "VM trap: invalid async callable effect".

(** OP_CALL_VALUE, and OP_AWAIT_VALUE when [awaited]: the callable is a string
    naming a builtin or a function. *)
Definition op_call_value (arity : nat) (awaited : bool) : X W unit :=
  _ ← lift (calloc_items arity);
  f ← top;
  '(args, f) ← lift (pop_values arity f []);
  '(callable, f) ← lift (stack_pop f);
  _ ← set_top f;
  match callable with
  | Str t =>
      _ ← lift alloc;
      e ← get;
      let callee := data t in
      let nul := existsb (λ c, c =? 0) callee in
      match builtin callee with
      | Some b =>
          if negb (Nat.eqb arity (barity b)) then raise arity_mismatch
          else if nul || negb (edge_ok (function f) (Some b) None awaited)
          then raise (bad_effect (function f))
          else v ← execution_builtin b args; push_reply b v
      | None =>
          match lookup_function (program (vm e)) callee with
          | None => raise no_callee
          | Some g =>
              if negb (Nat.eqb arity (length (params g))) then raise arity_mismatch
              else if nul || negb (edge_ok (function f) None (Some g) awaited)
              then raise (bad_effect (function f))
              else frame_push g args
          end
      end
  | _ => raise "VM trap: indirect call requires a callable"
  end.

Definition op_return : X W unit :=
  f ← top;
  '(v, _) ← lift (stack_pop f);
  if is_async (function f) && is_name (fname (function f)) "main" && negb (is_kind v V_UNIT)
  then raise "VM trap: async main must return Unit"
  else
    _ ← update (λ e, set_frames (tail (frames e)) e);
    e ← get;
    match frames e with
    | [] => _ ← update (set_result (Some v)); update (set_status VM_COMPLETED)
    | _ :: _ => on_top (λ f, stack_push f v)
    end.

Definition dispatch (i : Instruction) : X W unit :=
  match i with
  | OP_CONST c => on_top (op_const c)
  | OP_LOAD name => on_top (op_load name)
  | OP_STORE name => on_top (op_store name)
  | OP_POP => on_top op_pop
  | OP_UNARY code => on_top (op_unary code)
  | OP_BINARY code => on_top (op_binary code)
  | OP_MAKE_RANGE => op_make_range
  | OP_MAKE_ARRAY count => on_top (op_make_array count)
  | OP_INDEX_GET => on_top op_index_get
  | OP_INTERPOLATE items => on_top (op_interpolate items)
  | OP_ITER_INIT name => op_iter_init name
  | OP_ITER_NEXT name name2 target => op_iter_next name name2 target
  | OP_MAKE_RECORD name items => on_top (op_make_record name items)
  | OP_FIELD_GET name => on_top (op_field_get name)
  | OP_MAKE_VARIANT _ name2 count => on_top (op_make_variant name2 count)
  | OP_MATCH_VARIANT name target => on_top (op_match_variant name target)
  | OP_MATCH_FAIL => raise "VM trap: enum match was not exhaustive"
  | OP_CALL name arity => op_call name arity false
  | OP_JUMP_FALSE target => on_top (op_jump_false target)
  | OP_JUMP target => on_top (λ f, mret (set_pc target f))
  | OP_RETURN => op_return
  | OP_CALL_VALUE arity => op_call_value arity false
  | OP_AWAIT_CALL name arity => op_call name arity true
  | OP_AWAIT_VALUE arity => op_call_value arity true
  end.

(** ** The loop *)

Definition did_not_return : string := "VM trap: function did not return".

(** Fetch one instruction of the innermost frame and run it. *)
Definition step : X W unit :=
  f ← top;
  match ins (function f) !! pc f with
  | None => raise did_not_return
  | Some i => _ ← set_top (set_pc (S (pc f)) f); dispatch i
  end.

(** [!vm->error && execution->status == VM_YIELDED] *)
Definition runnable (e : VMExecution W) : bool :=
  bool_decide (error (vm e) = None) && bool_decide (status e = VM_YIELDED).

Fixpoint loop (budget : nat) : X W unit :=
  match budget with
  | O => mret tt
  | S n =>
      e ← get;
      if negb (runnable e) then mret tt
      else
        _ ← step;
        e ← get;
        if yield_requested e then update (set_yield false) else loop n
  end.

Definition out_of_memory : string := "native VM out of memory".

(** The end of [vm_execution_advance]: an error traps, and an execution that
    will not go on keeps no frames. *)
Definition settle (e : VMExecution W) : VMExecution W :=
  let e := match error (vm e) with Some _ => set_status VM_TRAPPED e | None => e end in
  let e := match status e with VM_YIELDED | VM_WAITING => e | _ => set_frames [] e end in
  set_running false e.

(** [vm->fault_kind] is only ever written when a failure may cross a request
    boundary. *)
Definition record_fault (k : VMFaultKind) (e : VMExecution W) : VMFaultKind :=
  match k with VM_FAULT_REQUEST => VM_FAULT_REQUEST | VM_FAULT_FATAL => fault_kind (vm e) end.

Definition run_loop (budget : nat) : X W unit := λ e al,
  match loop budget (set_running true e) al with
  | (Ret _, e, al) => (Ret tt, settle e, al)
  | (Trap k s, e, al) => (Ret tt, settle (set_error (record_fault k e) (Some s) e), al)
  | (NoMem, e, al) => (Ret tt, settle (set_error (fault_kind (vm e)) (Some out_of_memory) e), al)
  | (o, e, al) => (o, e, al)
  end.

(** A pending operation ends with a diagnostic: the execution traps and its
    frames are dropped. *)
Definition fail_wait (message : string) (e : VMExecution W) : VMExecution W :=
  set_frames [] (set_status VM_TRAPPED (set_error (fault_kind (vm e)) (Some message) e)).

(** A pending operation ends with a value pushed on the suspended frame, which
    resumes at the next advance. *)
Definition deliver (m : M Value) : X W unit := λ e al,
  match (f ← top; v ← lift m; f ← lift (stack_push f v); set_top f) e al with
  | (Ret _, e, al) => (Ret tt, set_status VM_YIELDED e, al)
  | (NoMem, e, al) => (Ret tt, fail_wait out_of_memory e, al)
  | (o, e, al) => (o, e, al)
  end.

(** The wait for an HTTP shutdown ends when its resource is gone. *)
Definition resume_shutdown : X W unit :=
  e ← get;
  match status e, http_waiting (pending e) with
  | VM_WAITING, Some id =>
      if http_resource id (world (vm e)) then mret tt
      else _ ← deliver http_unit_result; on_pending (set_http_waiting None)
  | _, _ => mret tt
  end.

Definition vm_execution_advance (budget : nat) : X W VMExecutionStatus :=
  e ← get;
  if running e then mret VM_BUSY
  else
    _ ← resume_shutdown;
    e ← get;
    if negb (bool_decide (status e = VM_YIELDED)) then mret (status e)
    else _ ← run_loop budget; e ← get; mret (status e).

(** ** Completion of pending operations *)

Definition vm_execution_complete_print (message : option string) : X W bool :=
  e ← get;
  if running e || negb (bool_decide (status e = VM_WAITING)) || waiting_read (pending e) ||
     bool_decide (is_Some (server (pending e))) || bool_decide (is_Some (http_waiting (pending e)))
  then mret false
  else
    _ ← update (set_error (fault_kind (vm e)) message);
    _ ← (match message with
         | None => deliver value_void
         | Some m => update (fail_wait m)
         end);
    mret true.

(** [Result[Bytes, Str]]; the value may be NULL. *)
Definition vm_fake_read_result_valid (v : option Value) : bool :=
  match v with
  | Some (Variant name [payload]) =>
      (is_name name "Ok" && is_kind payload V_BYTES) || (is_name name "Error" && is_kind payload V_STR)
  | _ => false
  end.

Definition vm_fake_read_result (fail : bool) : M Value :=
  payload ← (if fail then value_data V_STR (str "fake I/O error")
             else value_data V_BYTES (str "fake bytes"));
  named_value V_VARIANT (str (if fail then "Error" else "Ok")) [] [payload].

Definition vm_execution_complete_read (v : option Value) : X W bool :=
  e ← get;
  if running e || negb (bool_decide (status e = VM_WAITING)) || negb (waiting_read (pending e)) ||
     bool_decide (is_Some (tcp (pending e))) || bool_decide (is_Some (http (pending e)))
  then mret false
  else
    _ ← on_pending (set_waiting_read false);
    _ ← (match v with
         | None => update (fail_wait out_of_memory)
         | Some r =>
             if vm_fake_read_result_valid v then deliver (mret r)
             else update (fail_wait "VM trap: invalid async completion type")
         end);
    mret true.

(** ** Polling of native services *)

Definition vm_execution_poll_tcp (max_wait_ms : Z) : X W bool :=
  e ← get;
  match running e, status e, tcp (pending e) with
  | false, VM_WAITING, Some r =>
      finished ← native (tcp_exchange_poll r max_wait_ms);
      if (finished : bool) then
        _ ← on_pending (set_tcp None);
        e ← get;
        _ ← vm_execution_complete_read (tcp_exchange_result r (world (vm e)));
        _ ← native (λ w, (tt, tcp_exchange_destroy r w));
        mret true
      else mret true
  | _, _, _ => mret false
  end.

Definition vm_execution_poll_http (max_wait_ms : Z) : X W bool :=
  e ← get;
  match running e, status e, http (pending e) with
  | false, VM_WAITING, Some r =>
      finished ← native (http_transport_poll r max_wait_ms);
      if (finished : bool) then
        _ ← on_pending (set_http None);
        e ← get;
        _ ← vm_execution_complete_read (http_transport_result r (world (vm e)));
        _ ← native (λ w, (tt, http_transport_destroy r w));
        mret true
      else mret true
  | _, _, _ => mret false
  end.

(** The result of a native service that the interpreter does not inspect. *)
Definition deliver_result (v : option Value) : X W unit :=
  match v with
  | Some v => deliver (mret v)
  | None => update (fail_wait out_of_memory)
  end.

Definition vm_execution_poll_console : X W bool :=
  e ← get;
  match running e, status e, console_write (pending e) with
  | false, VM_WAITING, Some r =>
      finished ← native (console_write_poll r);
      if negb finished then mret true
      else
        e ← get;
        _ ← deliver_result (console_write_result r (world (vm e)));
        _ ← native (λ w, (tt, console_write_destroy r w));
        _ ← on_pending (set_console_write None);
        mret true
  | _, _, _ => mret false
  end.

(** A service that ends with a diagnostic or a result. *)
Definition finish_service (message : option string) (v : option Value) : X W unit :=
  match message with
  | Some m => update (fail_wait m)
  | None => deliver_result v
  end.

Definition vm_execution_poll_filesystem : X W bool :=
  e ← get;
  match running e, status e, root_read (pending e) with
  | false, VM_WAITING, Some r =>
      finished ← native (root_read_poll r);
      if negb finished then mret true
      else
        e ← get;
        _ ← finish_service (root_read_error r (world (vm e))) (root_read_result r (world (vm e)));
        _ ← native (λ w, (tt, root_read_destroy r w));
        _ ← on_pending (set_root_read None);
        mret true
  | _, _, _ => mret false
  end.

Definition vm_execution_poll_network (max_wait_ms : Z) : X W bool :=
  e ← get;
  if bool_decide (is_Some (console_write (pending e))) then vm_execution_poll_console
  else if bool_decide (is_Some (root_read (pending e))) then vm_execution_poll_filesystem
  else if bool_decide (is_Some (tcp (pending e))) then vm_execution_poll_tcp max_wait_ms
  else if bool_decide (is_Some (http (pending e))) then vm_execution_poll_http max_wait_ms
  else mret false.

Definition vm_execution_stop_server : X W bool :=
  e ← get;
  match running e, server (pending e) with
  | false, Some s => _ ← native (λ w, (tt, tcp_server_stop s w)); mret true
  | _, _ => mret false
  end.

(** [running] is set for the whole of the pump, so the server's callbacks find
    the execution busy. *)
Definition vm_execution_pump_server (budget : nat) (max_wait_ms : Z) : X W bool :=
  e ← get;
  match running e, status e, server (pending e) with
  | false, VM_WAITING, Some s =>
      _ ← update (set_running true);
      _ ← native (λ w, (tt, if service_stop_requested w then tcp_server_stop s w else w));
      _ ← native (λ w, (tt, tcp_server_advance s budget (tcp_server_poll s max_wait_ms w)));
      e ← get;
      _ ← (if tcp_server_done s (world (vm e)) then
             _ ← finish_service (tcp_server_error s (world (vm e))) (tcp_server_result s (world (vm e)));
             _ ← native (λ w, (tt, restore_stop_signals (tcp_server_destroy s w)));
             on_pending (set_server None)
           else mret tt);
      _ ← update (set_running false);
      mret true
  | _, _, _ => mret false
  end.

(** ** Capabilities *)

(** [execution->running || execution->status != VM_YIELDED] refuses a grant. *)
Definition enable (grant : Profile W → Profile W) : X W bool :=
  e ← get;
  if running e || negb (bool_decide (status e = VM_YIELDED)) then mret false
  else _ ← update (set_profile (grant (profile e))); mret true.

Definition vm_execution_enable_tcp : X W bool :=
  enable (λ p, mkProfile (embedded p) (host_call p) (print_wait p) (read_wait p) true
                 (server_read_enabled p) (console_enabled p) (filesystem_enabled p) (server_enabled p)).
Definition vm_execution_enable_console : X W bool :=
  enable (λ p, mkProfile (embedded p) (host_call p) (print_wait p) (read_wait p) (network_enabled p)
                 (server_read_enabled p) true (filesystem_enabled p) (server_enabled p)).
Definition vm_execution_enable_filesystem : X W bool :=
  enable (λ p, mkProfile (embedded p) (host_call p) (print_wait p) (read_wait p) (network_enabled p)
                 (server_read_enabled p) (console_enabled p) true (server_enabled p)).
Definition vm_execution_enable_server : X W bool :=
  enable (λ p, mkProfile (embedded p) (host_call p) (print_wait p) (read_wait p) (network_enabled p)
                 (server_read_enabled p) (console_enabled p) (filesystem_enabled p) true).

(** Socket reads are granted only to an embedded execution that can wait. *)
Definition vm_execution_enable_server_reads : X W bool :=
  e ← get;
  if negb (embedded (profile e)) || negb (bool_decide (is_Some (read_wait (profile e)))) then mret false
  else
    enable (λ p, mkProfile (embedded p) (host_call p) (print_wait p) (read_wait p) (network_enabled p)
                   true (console_enabled p) (filesystem_enabled p) (server_enabled p)).

(** ** Creation and destruction *)

Definition embedded_profile (call : option (VMHostCall W)) (print read : option (VMServiceWait W))
  : Profile W := mkProfile true call print read false false false false false.

(** The services still pending are cancelled, then the resources of the VM. *)
Definition dispose (p : Pending) (w : W) : W :=
  let destroy (d : ref → W → W) (r : option ref) (w : W) :=
    match r with Some r => d r w | None => w end in
  digest_destroy (http_stream_destroy (gzip_stream_destroy (filesystem_stage_destroy
    (restore_stop_signals (destroy tcp_server_destroy (server p)
      (destroy console_write_destroy (console_write p) (destroy root_read_destroy (root_read p)
        (destroy http_transport_destroy (http p) (destroy tcp_exchange_destroy (tcp p) w))))))))).

(** The VM left behind, or [None] when the execution is running. *)
Definition vm_execution_destroy (e : VMExecution W) : option (VM W) :=
  if running e then None
  else Some (mkVM (program (vm e)) false (error (vm e)) (fault_kind (vm e)) (iterators (vm e))
               (next_ref (vm e)) (dispose (pending e) (world (vm e)))).

(** The execution or the diagnostic, and the VM. *)
Definition create (m : VM W) (g : Function) (arguments : list Value) (p : Profile W) (al : allocator)
  : outcome (VMExecution W) * VM W * allocator :=
  if active m then (Trap VM_FAULT_FATAL "VM invocation is already active", m, al)
  else
    match alloc al with
    | (Ret _, al) =>
        let e := mkExecution (mkVM (program m) true None VM_FAULT_FATAL (iterators m) (next_ref m)
                                (world m)) [] 0 VM_YIELDED None 0 false p no_pending false in
        match frame_push g arguments e al with
        | (Ret _, e, al) => (Ret e, vm e, al)
        | (Trap k s, e, al) =>
            (Trap k s, default (vm e) (vm_execution_destroy (set_error k (Some s) e)), al)
        | (NoMem, e, al) =>
            (Trap VM_FAULT_FATAL out_of_memory,
             default (vm e) (vm_execution_destroy (set_error VM_FAULT_FATAL (Some out_of_memory) e)), al)
        | (o, e, al) => (match o with Diverge => Diverge | _ => Undef end, vm e, al)
        end
    | (_, al) => (Trap VM_FAULT_FATAL out_of_memory, m, al)
    end.

Definition vm_execution_create m g arguments call := create m g arguments (embedded_profile call None None).
Definition vm_execution_create_pending m g arguments wait :=
  create m g arguments (embedded_profile None (Some wait) None).
Definition vm_execution_create_async m g arguments wait :=
  create m g arguments (embedded_profile None None (Some wait)).
End instructions.
