(* ===== verification/Frames.v ===== *)
(** * Frames: the locals of a frame are a finite map

    A frame keeps its locals in an array searched from the end and replaced
    from the start.  Because a name is stored once, both searches find the same
    slot and the array refines a finite map keyed by C strings. *)

From Stdlib Require Import ZArith Lia.
From stdpp Require Import prelude gmap strings.
From S2P Require Import Prelude Bigint Value Program Execute.

(** ** The operand stack *)

Lemma stack_push_spec f v : returns (stack_push f v) (λ f', stack f' = v :: stack f).
Proof.
  unfold stack_push. eapply (runs_bind _ _ (λ f', stack f' = stack f)).
  - apply runs_if; intros _; [mbind runs_alloc as ? _|]; by mret.
  - intros g Hg. mret. simpl. by rewrite Hg.
Qed.

(** ** Locals *)

(** Every name is stored as [copy_text] left it, and once. *)
Definition locals_ok (f : Frame) : Prop :=
  NoDup (lname <$> locals f) ∧ Forall (λ l, cstr (lname l) = lname l) (locals f).

(** The finite map a frame's locals stand for. *)
Definition bindings (f : Frame) : gmap (list Z) Value :=
  list_to_map ((λ l, (lname l, lvalue l)) <$> locals f).

Lemma cstr_idem s : cstr (cstr s) = cstr s.
Proof. induction s as [|c s IH]; simpl; [done|]. destruct (c =? 0) eqn:E; simpl; [done|]. by rewrite E, IH. Qed.

Lemma streq_stored l name : cstr (lname l) = lname l → streq (lname l) name = bool_decide (lname l = cstr name).
Proof. intros H. by rewrite streq_cstr, H. Qed.

Section locals.
Implicit Types ls : list Local.

Definition stored ls : Prop := NoDup (lname <$> ls) ∧ Forall (λ l, cstr (lname l) = lname l) ls.
Definition to_map ls : gmap (list Z) Value := list_to_map ((λ l, (lname l, lvalue l)) <$> ls).

Lemma stored_cons l ls : stored (l :: ls) ↔ lname l ∉ lname <$> ls ∧ cstr (lname l) = lname l ∧ stored ls.
Proof. unfold stored. rewrite fmap_cons, NoDup_cons, Forall_cons. naive_solver. Qed.

Lemma to_map_cons l ls : to_map (l :: ls) = <[lname l := lvalue l]> (to_map ls).
Proof. done. Qed.

Lemma to_map_none ls name : name ∉ lname <$> ls → to_map ls !! name = None.
Proof.
  intros H. apply not_elem_of_list_to_map_1. by rewrite <- list_fmap_compose.
Qed.

Lemma local_find_map ls name : stored ls → local_find ls name = to_map ls !! cstr name.
Proof.
  induction ls as [|l ls IH]; [done|]. intros (Hn & Hc & Hs)%stored_cons.
  cbn [local_find]. rewrite IH, to_map_cons by done.
  rewrite (streq_stored l name Hc). destruct (decide (lname l = cstr name)) as [He|He].
  - rewrite bool_decide_true by done. rewrite <- He, lookup_insert_eq, to_map_none by done. done.
  - rewrite bool_decide_false by done. rewrite lookup_insert_ne by done.
    by destruct (to_map ls !! cstr name).
Qed.

Lemma local_replace_map ls name v :
  stored ls →
  match local_replace ls name v with
  | Some ls' => stored ls' ∧ lname <$> ls' = lname <$> ls ∧ to_map ls' = <[cstr name := v]> (to_map ls)
  | None => cstr name ∉ lname <$> ls
  end.
Proof.
  induction ls as [|l ls IH]; simpl; [intros _; by apply not_elem_of_nil|].
  intros (Hn & Hc & Hs)%stored_cons. rewrite (streq_stored l name Hc).
  destruct (decide (lname l = cstr name)) as [He|He].
  - rewrite bool_decide_true by done. rewrite stored_cons. split_and!; [done..|].
    rewrite !to_map_cons. simpl. by rewrite He, insert_insert_eq.
  - rewrite bool_decide_false by done. specialize (IH Hs). destruct (local_replace ls name v) as [ls'|].
    + destruct IH as (Hs' & Hl & Hm). rewrite stored_cons, fmap_cons, Hl. split_and!; [done..|].
      rewrite !to_map_cons, Hm. by rewrite insert_insert_ne by congruence.
    + rewrite not_elem_of_cons. done.
Qed.

Lemma stored_snoc ls name v :
  stored ls → cstr name ∉ lname <$> ls →
  stored (ls ++ [mkLocal (cstr name) v]) ∧
  to_map (ls ++ [mkLocal (cstr name) v]) = <[cstr name := v]> (to_map ls).
Proof.
  intros [Hd Hc] Hn. split.
  - split.
    + rewrite fmap_app, NoDup_app. split_and!; [done| |apply NoDup_singleton].
      intros x Hx Hx'. apply list_elem_of_singleton in Hx'. by subst.
    + apply Forall_app. split; [done|]. apply Forall_singleton. apply cstr_idem.
  - unfold to_map. rewrite fmap_app, list_to_map_app. simpl. rewrite insert_empty.
    rewrite <- insert_union_singleton_r; [done|]. apply (to_map_none ls _ Hn).
Qed.
End locals.

Lemma local_put_spec f name v :
  locals_ok f →
  returns (local_put f name v) (λ f', locals_ok f' ∧ bindings f' = <[cstr name := v]> (bindings f) ∧
    function f' = function f ∧ pc f' = pc f ∧ stack f' = stack f).
Proof.
  intros Hok. pose proof (local_replace_map _ name v Hok) as Hr. unfold local_put.
  destruct (local_replace (locals f) name v) as [ls|].
  - destruct Hr as (Hs & _ & Hm). mret. split_and!; try done.
  - eapply (runs_bind _ _ (λ f', locals f' = locals f ∧ function f' = function f ∧ pc f' = pc f ∧
                                 stack f' = stack f)).
    { apply runs_if; intros _; [mbind runs_alloc as ? _|]; by mret. }
    intros f' (Hl & Hf & Hp & Hst). unfold copy_text. eapply (runs_bind _ _ (λ x, x = cstr name)).
    { mbind runs_alloc as ? _. by mret. }
    intros ? ->. mret. destruct (stored_snoc _ name v Hok Hr) as [Hs Hm].
    unfold locals_ok, bindings. simpl. rewrite Hl. done.
Qed.

(** The locals of a frame implement a finite map keyed by C strings.  On a
    frame whose names are distinct, [local_get] (which searches backwards)
    returns exactly the binding of the map, and [local_put] (which searches
    forwards, then appends a copy of the name) always returns unless the
    allocator refuses, keeps the names distinct, updates exactly that binding
    and leaves the rest of the frame alone; hence a local reads back the last
    value stored under any spelling with the same visible bytes. *)
Theorem locals_finite_map f name v :
  locals_ok f →
  local_get f name = bindings f !! cstr name ∧
  returns (local_put f name v) (λ f', locals_ok f' ∧ bindings f' = <[cstr name := v]> (bindings f) ∧
    (∀ other, local_get f' other = if streq other name then Some v else local_get f other) ∧
    function f' = function f ∧ pc f' = pc f ∧ stack f' = stack f).
Proof.
  intros Hok. split; [by apply local_find_map|].
  eapply runs_mono; [by apply local_put_spec| |done].
  intros f' (Hok' & Hm & Hrest). split_and!; try apply Hrest; [done..|].
  intros other. unfold local_get. rewrite !local_find_map by done.
  change (to_map (locals f')) with (bindings f'). change (to_map (locals f)) with (bindings f).
  rewrite Hm, streq_cstr. case_bool_decide as He.
  - by rewrite He, lookup_insert_eq.
  - by rewrite lookup_insert_ne by congruence.
Qed.

Definition sample_frame : Frame :=
  mkFrame (mkFunction (str "main") false false false [] [OP_RETURN]) 0 [] 0
    [mkLocal (str "x") (Bool_ true); mkLocal (str "y") Void] 16.

Lemma locals_finite_map_witness :
  locals_ok sample_frame ∧ local_get sample_frame (str "x") = Some (Bool_ true).
Proof.
  assert (locals_ok sample_frame) as H by (split; [by decide_now|repeat constructor]).
  split; [done|]. by rewrite (proj1 (locals_finite_map sample_frame (str "x") Void H)).
Defined.
