(* ===== verification/Control.v ===== *)
(** * Control: what one instruction does to an execution

    The frame discipline of the interpreter.  An instruction changes the
    innermost frame only, or enters a callee whose parameters are bound to the
    popped arguments, or leaves a frame and hands its value to the caller. *)

From Stdlib Require Import ZArith Lia.
From stdpp Require Import prelude gmap strings.
From S2P Require Import Prelude Bigint Value Decimals Numeric Program Builtins Verify Render Collections.
From S2P Require Import Execute Frames.

(** ** Specifications of computations on an execution

    [ends m e Q R]: started in [e], [m] can only return with [Q] and fail, with
    a diagnostic or for lack of memory, with [R]. *)
Definition ends {W A} (m : X W A) (e : VMExecution W) (Q : A → VMExecution W → Prop)
  (R : VMExecution W → Prop) : Prop :=
  ∀ al, match m e al with
        | (Ret a, e', _) => Q a e'
        | (Trap _ _, e', _) | (NoMem, e', _) => R e'
        | _ => True
        end.

Section ends_rules.
Context {W A B : Type}.
Implicit Types (e : VMExecution W) (R : VMExecution W → Prop).

Lemma ends_ret e (Q : A → VMExecution W → Prop) R a : Q a e → ends (mret a) e Q R.
Proof. by intros H al. Qed.

Lemma ends_bind (m : X W A) (k : A → X W B) e Q' Q R :
  ends m e Q' R → (∀ a e', Q' a e' → ends (k a) e' Q R) → ends (x ← m; k x) e Q R.
Proof.
  intros Hm Hk al. unfold mbind, X_bind. specialize (Hm al).
  destruct (m e al) as [[[] e'] al']; try done. by apply Hk.
Qed.

Lemma ends_mono (m : X W A) e Q Q' R R' :
  ends m e Q R → (∀ a e', Q a e' → Q' a e') → (∀ e', R e' → R' e') → ends m e Q' R'.
Proof. intros H HQ HR al. specialize (H al). destruct (m e al) as [[[] e'] al']; auto. Qed.

Lemma ends_lift (m : M A) e (Q : A → VMExecution W → Prop) R P :
  yields m P → (∀ a, P a → Q a e) → R e → ends (lift m) e Q R.
Proof.
  intros Hm HQ HR al. unfold lift. specialize (Hm al). destruct (m al) as [[] al']; simpl in *; auto.
Qed.

Lemma ends_raise e (Q : A → VMExecution W → Prop) R s : R e → ends (raise s) e Q R.
Proof. by intros H al. Qed.
End ends_rules.

(** ** Services leave the frames alone *)

(** What calling a service or a builtin may change: the world, what is pending,
    the exit status, and the status from running to waiting or exited. *)
Record kept {W} (e e' : VMExecution W) : Prop := {
  kept_frames : frames e' = frames e;
  kept_program : program (vm e') = program (vm e);
  kept_error : error (vm e') = error (vm e);
  kept_running : running e' = running e;
  kept_profile : profile e' = profile e;
  kept_result : result e' = result e;
  kept_status : status e' = status e ∨ status e' = VM_WAITING ∨ status e' = VM_EXITED;
}.

Definition keeps {W A} (m : X W A) : Prop := ∀ e, ends m e (λ _ e', kept e e') (kept e).

Lemma kept_refl {W} (e : VMExecution W) : kept e e.
Proof. split; auto. Qed.

Lemma kept_trans {W} (e e' e'' : VMExecution W) : kept e e' → kept e' e'' → kept e e''.
Proof. intros [] []. split; try congruence. intuition congruence. Qed.

Section keeps_rules.
Context {W A B : Type}.

Lemma keeps_ret (a : A) : keeps (mret a : X W A).
Proof. intros e al. apply kept_refl. Qed.
Lemma keeps_lift (m : M A) : keeps (lift m : X W A).
Proof. intros e al. unfold lift. destruct (m al) as [[] al']; try done; apply kept_refl. Qed.
Lemma keeps_raise s : keeps (raise s : X W A).
Proof. intros e al. apply kept_refl. Qed.
Lemma keeps_get : keeps (get : X W _).
Proof. intros e al. apply kept_refl. Qed.
Lemma keeps_bind (m : X W A) (k : A → X W B) : keeps m → (∀ a, keeps (k a)) → keeps (x ← m; k x).
Proof.
  intros Hm Hk e. eapply ends_bind; [apply Hm|]. cbn beta. intros a e1 H.
  eapply ends_mono; [apply Hk| |]; cbn beta; eauto using kept_trans.
Qed.
Lemma keeps_native (call : W → A * W) : keeps (native call).
Proof. intros e al. unfold native. destruct (call _) as [a w]. split; auto. Qed.
Lemma keeps_native_outcome (call : W → outcome A * W) : keeps (native_outcome call).
Proof. intros e al. unfold native_outcome. destruct (call _) as [[] w]; try done; split; auto. Qed.
Lemma keeps_attempt (m : M A) : keeps (attempt m : X W _).
Proof. intros e al. unfold attempt. destruct (m al) as [[] al']; try done; apply kept_refl. Qed.
Lemma keeps_pending g : keeps (on_pending g : X W unit).
Proof. intros e al. split; auto. Qed.
Lemma keeps_suspend : keeps (suspend : X W unit).
Proof. intros e al. split; simpl; auto. Qed.
Lemma keeps_exit_status n : keeps (update (set_exit_status n) : X W unit).
Proof. intros e al. split; auto. Qed.
Lemma keeps_exited : keeps (update (set_status VM_EXITED) : X W unit).
Proof. intros e al. split; simpl; auto. Qed.
Lemma keeps_yield b : keeps (update (set_yield b) : X W unit).
Proof. intros e al. split; auto. Qed.
End keeps_rules.

Lemma keeps_check_reply {W} o : keeps (check_reply o : X W unit).
Proof. destruct o; [apply keeps_raise|apply keeps_ret]. Qed.

(** The services below are built from these steps by sequencing and branching. *)
Create HintDb keeps discriminated.
#[export] Hint Resolve keeps_ret keeps_lift keeps_raise keeps_get keeps_native keeps_native_outcome
  keeps_attempt keeps_pending keeps_suspend keeps_exit_status keeps_exited keeps_yield
  keeps_check_reply : keeps.

Ltac keeps :=
  repeat first
    [ progress auto with keeps
    | apply keeps_bind; [|intros]
    | match goal with
      | |- keeps (if ?b then _ else _) => destruct b
      | |- keeps (match ?x with _ => _ end) => destruct x
      | |- keeps (let '(_, _) := ?x in _) => destruct x
      end ].

Section services.
Context {W : Type} `{!Native W}.
Implicit Types (a : list Value) (b : Builtin).

Lemma grant_server_keeps s : keeps (grant_server s).
Proof. unfold grant_server. keeps. Qed.
Hint Resolve grant_server_keeps : keeps.

Lemma service_call_keeps a : keeps (service_call a).
Proof. unfold service_call, configure_service. keeps. Qed.

Lemma server_call_mode_keeps a s : keeps (server_call_mode a s).
Proof. unfold server_call_mode. keeps. Qed.
Hint Resolve service_call_keeps server_call_mode_keeps : keeps.

Lemma builtin_call_keeps b a : keeps (builtin_call b a : X W Value).
Proof. unfold builtin_call. keeps. Qed.
Hint Resolve builtin_call_keeps : keeps.

Lemma start_service_keeps r g : keeps (start_service r g : X W _).
Proof. unfold start_service. keeps. Qed.

Lemma wait_reply_keeps ok m (r : X W unit) s : keeps r → keeps (wait_reply ok m r s).
Proof. intros. unfold wait_reply. keeps. Qed.
Hint Resolve start_service_keeps wait_reply_keeps : keeps.

Lemma embedder_call_keeps b a : keeps (embedder_call b a : X W _).
Proof.
  unfold embedder_call, arg. keeps.
Qed.
Hint Resolve embedder_call_keeps : keeps.

(** Every builtin but the one that calls a handler leaves the frames alone. *)
Lemma execution_builtin_keeps b a : called_function b = false → keeps (execution_builtin b a).
Proof.
  intros Hc. unfold execution_builtin. rewrite Hc. apply keeps_bind; [auto with keeps|intros e].
  repeat match goal with |- keeps (if ?c then _ else _) => destruct c end;
    unfold http_connection_continue_call, http_listen_call, http_close_call, host_exit_call,
      host_console_call, fs_read_call, server_read_chunk_call, exchange_call, async_fake_read_call,
      process_exit_call, arg; keeps.
Qed.
End services.

(** ** Frame-local instructions *)

(** Only the operand stack changed. *)
Definition same_point (f f' : Frame) : Prop :=
  function f' = function f ∧ pc f' = pc f ∧ locals f' = locals f.

Lemma same_point_refl f : same_point f f.
Proof. by split_and!. Qed.
Lemma same_point_trans f g h : same_point f g → same_point g h → same_point f h.
Proof. unfold same_point. intuition congruence. Qed.
#[local] Hint Resolve same_point_refl same_point_trans : core.

Lemma stack_push_yields f v :
  yields (stack_push f v) (λ f', same_point f f' ∧ stack f' = v :: stack f).
Proof.
  unfold stack_push. eapply (yields_bind _ _ (λ f', same_point f f' ∧ stack f' = stack f)).
  - destruct (Nat.eqb _ _); [|by apply yields_ret].
    eapply yields_bind; [apply yields_any|]. intros _ _. by apply yields_ret.
  - intros f' [(Hf & Hp & Hl) Hs]. apply yields_ret. simpl. rewrite Hs. by split_and!.
Qed.

Lemma stack_pop_yields f :
  yields (stack_pop f) (λ r, same_point f r.2 ∧ stack f = r.1 :: stack r.2).
Proof. unfold stack_pop. destruct (stack f) eqn:E; [done|]. by apply yields_ret. Qed.

Lemma pop_values_yields n f acc :
  yields (pop_values n f acc) (λ r, same_point f r.2 ∧
    ∃ vs, r.1 = vs ++ acc ∧ length vs = n ∧ stack f = rev vs ++ stack r.2).
Proof.
  revert f acc. induction n as [|n IH]; intros f acc; simpl.
  - apply yields_ret. split; [done|]. by exists [].
  - eapply yields_bind; [apply stack_pop_yields|]. intros [v g] [Hg Hs]. simpl in *.
    eapply yields_mono; [apply IH|]. intros [l h] (Hh & vs & Hl & Hlen & Hst). simpl in *.
    split; [eauto|]. exists (vs ++ [v]). rewrite Hs, Hst, rev_app_distr, length_app, <- (assoc (++)).
    simpl. split_and!; [done|lia|done].
Qed.

Lemma push_all_yields f vs : yields (push_all f vs) (λ f', same_point f f' ∧ stack f' = rev vs ++ stack f).
Proof.
  revert f. induction vs as [|v vs IH]; intros f; [by apply yields_ret|].
  simpl. eapply yields_bind; [apply stack_push_yields|]. intros g [Hg Hs].
  eapply yields_mono; [apply IH|]. intros h [Hh Hsh]. rewrite Hsh, Hs, <- (assoc (++)). eauto.
Qed.

(** Jump targets written in an instruction. *)
Definition target_of (i : Instruction) : option nat :=
  match i with
  | OP_ITER_NEXT _ _ t | OP_MATCH_VARIANT _ t | OP_JUMP_FALSE t | OP_JUMP t => Some t
  | _ => None
  end.

(** How many operands an instruction takes from the stack. *)
Definition stack_use (i : Instruction) : nat :=
  match i with
  | OP_CONST _ | OP_LOAD _ | OP_JUMP _ | OP_ITER_NEXT _ _ _ | OP_MATCH_FAIL => 0
  | OP_STORE _ | OP_POP | OP_UNARY _ | OP_ITER_INIT _ | OP_FIELD_GET _ | OP_MATCH_VARIANT _ _
  | OP_JUMP_FALSE _ | OP_RETURN => 1
  | OP_BINARY _ | OP_MAKE_RANGE | OP_INDEX_GET => 2
  | OP_MAKE_ARRAY n | OP_MAKE_VARIANT _ _ n | OP_CALL _ n | OP_AWAIT_CALL _ n => n
  | OP_INTERPOLATE items => Nat.pred (length items)
  | OP_MAKE_RECORD _ items => length items
  | OP_CALL_VALUE n | OP_AWAIT_VALUE n => S n
  end.

(** What it puts there for the operands [used]: one value, nothing, the fields of
    a variant that matches, or the value of a builtin unless it waits. *)
Definition pushes (i : Instruction) (used pushed : list Value) : Prop :=
  match i with
  | OP_STORE _ | OP_POP | OP_ITER_INIT _ | OP_ITER_NEXT _ _ _ | OP_JUMP_FALSE _ | OP_JUMP _
  | OP_MATCH_FAIL | OP_RETURN => pushed = []
  | OP_MATCH_VARIANT name _ =>
      ∃ n values, used = [Variant n values] ∧ pushed = if streq n name then rev values else []
  | OP_CALL _ _ | OP_AWAIT_CALL _ _ | OP_CALL_VALUE _ | OP_AWAIT_VALUE _ => (length pushed ≤ 1)%nat
  | _ => length pushed = 1%nat
  end.
Definition stack_moves (i : Instruction) (f f' : Frame) : Prop :=
  ∃ used pushed rest, stack f = used ++ rest ∧ length used = stack_use i ∧ stack f' = pushed ++ rest ∧ pushes i used pushed.

(** What it does to the locals: a binding, or nothing. *)
Definition local_moves (i : Instruction) (f f' : Frame) : Prop :=
  match i with
  | OP_STORE name => ∃ v, head (stack f) = Some v ∧ (locals_ok f → bindings f' = <[cstr name := v]> (bindings f))
  | OP_ITER_INIT name => ∃ r, locals_ok f → bindings f' = <[cstr name := Iter r]> (bindings f)
  | OP_ITER_NEXT _ name2 _ =>
      locals f' = locals f ∨ ∃ v, locals_ok f → bindings f' = <[cstr name2 := v]> (bindings f)
  | _ => locals f' = locals f
  end.
Definition binds_local (i : Instruction) : bool :=
  match i with OP_STORE _ | OP_ITER_INIT _ | OP_ITER_NEXT _ _ _ => true | _ => false end.

(** What an instruction that stays in its frame does to it. *)
Definition moves (i : Instruction) (f f' : Frame) : Prop :=
  function f' = function f ∧ (pc f' = pc f ∨ target_of i = Some (pc f')) ∧ (locals_ok f → locals_ok f') ∧
  local_moves i f f' ∧ stack_moves i f f'.

Lemma same_point_moves i f f' : binds_local i = false → same_point f f' → stack_moves i f f' → moves i f f'.
Proof.
  intros Hb (Hf & Hp & Hl) Hs. split_and!; auto; [unfold locals_ok; by rewrite Hl|]. by destruct i.
Qed.

(** One value was pushed on what the operands left. *)
Lemma push_stack i f g v h used : binds_local i = false → (∀ v, pushes i used [v]) → length used = stack_use i →
  same_point f g → stack f = used ++ stack g → same_point g h → stack h = v :: stack g → moves i f h.
Proof.
  intros Hb Hp Hu Hg Hs Hh Hst. apply same_point_moves; [done|eauto|]. exists used, [v], (stack g). by split_and!.
Qed.

Lemma local_put_yields f name v : yields (local_put f name v) (λ f', function f' = function f ∧ pc f' = pc f ∧ stack f' = stack f ∧
  (locals_ok f → locals_ok f' ∧ bindings f' = <[cstr name := v]> (bindings f))).
Proof.
  intros al. destruct (fst (local_put f name v al)) as [f'| | | |] eqn:E; try done.
  assert (function f' = function f ∧ pc f' = pc f ∧ stack f' = stack f) as (Hf & Hp & Hs).
  { revert E. unfold local_put, copy_text. destruct (local_replace _ _ _); [by intros [= <-]|].
    unfold mbind, M_bind. destruct (Nat.eqb _ _); simpl;
      repeat (destruct (alloc _) as [[] ?]; simpl; try done); by intros [= <-]. }
  split_and!; auto. intros Hok. pose proof (yields_runs _ _ _ (local_put_spec f name v Hok) al) as H.
  rewrite E in H. destruct H as (H1 & H2 & _). done.
Qed.

(** A value computed from popped operands and pushed back. *)
Lemma push_result_moves i f g (m : M Value) used : binds_local i = false → (∀ v, pushes i used [v]) → length used = stack_use i →
  same_point f g → stack f = used ++ stack g → yields (v ← m; stack_push g v) (moves i f).
Proof.
  intros Hb Hp Hu Hg Hs. eapply yields_bind; [apply yields_any|]. intros v _.
  eapply yields_mono; [apply stack_push_yields|]. intros h [Hh Hst]. by eapply push_stack.
Qed.

Lemma make_named_moves i k name items count f : binds_local i = false → (∀ used v, pushes i used [v]) → stack_use i = count →
  yields (make_named k name items count f) (moves i f).
Proof.
  intros Hb Hp Hu. unfold make_named. eapply yields_bind; [apply yields_any|]. intros _ _. destruct (Nat.ltb _ _).
  - do 2 (eapply yields_bind; [apply yields_any|]; intros ? _). apply yields_trap.
  - eapply yields_bind; [apply pop_values_yields|]. intros [vs g] (Hg & us & _ & Hlen & Hst).
    apply (push_result_moves _ _ _ _ (rev us)); [done|done|rewrite length_rev; lia|done|done].
Qed.

(** Pop one operand, naming it and the frame left. *)
Ltac pop v g Hg Hs :=
  eapply yields_bind; [apply stack_pop_yields|]; intros [v g] [Hg Hs]; simpl in Hg, Hs.

(** The frame-local instructions, by the definition that models each. *)
Definition frame_op (i : Instruction) : option (Frame → M Frame) :=
  match i with
  | OP_CONST c => Some (op_const c)
  | OP_LOAD name => Some (op_load name)
  | OP_STORE name => Some (op_store name)
  | OP_POP => Some op_pop
  | OP_UNARY code => Some (op_unary code)
  | OP_BINARY code => Some (op_binary code)
  | OP_MAKE_ARRAY count => Some (op_make_array count)
  | OP_INDEX_GET => Some op_index_get
  | OP_INTERPOLATE items => Some (op_interpolate items)
  | OP_MAKE_RECORD name items => Some (op_make_record name items)
  | OP_FIELD_GET name => Some (op_field_get name)
  | OP_MAKE_VARIANT _ name2 count => Some (op_make_variant name2 count)
  | OP_MATCH_VARIANT name target => Some (op_match_variant name target)
  | OP_JUMP_FALSE target => Some (op_jump_false target)
  | OP_JUMP target => Some (λ f, mret (set_pc target f))
  | _ => None
  end.

Lemma op_interpolate_moves items f : yields (op_interpolate items f) (moves (OP_INTERPOLATE items) f).
Proof.
  unfold op_interpolate. eapply yields_bind; [apply yields_any|]. intros _ _. destruct (Nat.ltb _ _).
  - do 2 (eapply yields_bind; [apply yields_any|]; intros ? _). apply yields_trap.
  - eapply yields_bind; [apply pop_values_yields|]. intros [vs g] (Hg & us & _ & Hlen & Hst).
    eapply yields_bind; [apply yields_any|]. intros out _.
    apply (push_result_moves _ _ _ _ (rev us)); [done|done|by rewrite length_rev|done|done].
Qed.

Lemma op_match_variant_moves name target f :
  yields (op_match_variant name target f) (moves (OP_MATCH_VARIANT name target) f).
Proof.
  unfold op_match_variant. pop a g Hg Hs. destruct a; try apply yields_trap. destruct (streq _ _) eqn:Heq.
  - eapply yields_mono; [apply push_all_yields|]. intros h [Hh Hst]. apply same_point_moves; [done|eauto|].
    eexists [_], _, (stack g). split_and!; [done|done|done|]. eexists _, _. split; [done|]. by rewrite Heq.
  - apply yields_ret. destruct Hg as (Hf & Hp & Hl). split_and!; simpl; auto; [unfold locals_ok; simpl; by rewrite Hl|].
    eexists [_], [], (stack g). split_and!; [done|done|done|]. eexists _, _. split; [done|]. by rewrite Heq.
Qed.

Lemma op_jump_false_moves target f :
  yields (op_jump_false target f) (moves (OP_JUMP_FALSE target) f).
Proof.
  unfold op_jump_false. pop a g Hg Hs. destruct a; try apply yields_trap. apply yields_ret.
  assert (∀ h, stack h = stack g → stack_moves (OP_JUMP_FALSE target) f h) as Hst by (intros h Hh; by eexists [_], [], (stack g)). destruct b.
  - apply same_point_moves; auto.
  - destruct Hg as (Hf & Hp & Hl). split_and!; simpl; auto. unfold locals_ok. simpl. by rewrite Hl.
Qed.

Lemma op_field_get_moves name f : yields (op_field_get name f) (moves (OP_FIELD_GET name) f).
Proof.
  unfold op_field_get. pop a g Hg Hs. destruct a; try apply yields_trap.
  destruct (field_find _ _ _); [|apply yields_trap].
  eapply yields_mono; [apply stack_push_yields|]. intros h [Hh Hst]. by eapply (push_stack _ _ _ _ _ [_]).
Qed.

Lemma op_store_moves name f : yields (op_store name f) (moves (OP_STORE name) f).
Proof.
  unfold op_store. pop v g Hg Hs. eapply yields_mono; [apply local_put_yields|]. intros h (Hf & Hp & Hst & Hl).
  destruct Hg as (Hgf & Hgp & Hgl). assert (locals_ok f ↔ locals_ok g) as Hok by (unfold locals_ok; by rewrite Hgl).
  split_and!; [congruence|left; congruence|intros Hlf; by apply Hl, Hok| |].
  - exists v. rewrite Hs. split; [done|]. intros Hlf. destruct (Hl (proj1 Hok Hlf)) as [_ Hb]. rewrite Hb. unfold bindings. by rewrite Hgl.
  - exists [v], [], (stack g). by split_and!.
Qed.

Lemma frame_op_moves i op f : frame_op i = Some op → yields (op f) (moves i f).
Proof.
  destruct i; intros [= <-].
  - by apply (push_result_moves _ _ _ _ []).
  - unfold op_load. destruct (local_get f name); [|apply yields_trap].
    eapply yields_mono; [apply stack_push_yields|]. intros h [Hh Hst]. by eapply (push_stack _ _ f _ _ []).
  - apply op_store_moves.
  - unfold op_pop. pop v g Hg Hs. apply yields_ret. apply same_point_moves; [done..|]. by exists [v], [], (stack g).
  - unfold op_unary. pop v g Hg Hs. by apply (push_result_moves _ _ _ _ [v]).
  - unfold op_binary. pop v g Hg Hs. pop w h Hh Hs'. apply (push_result_moves _ _ _ _ [v; w]); try done; [eauto|]. by rewrite Hs, Hs'.
  - unfold op_make_array. eapply yields_bind; [apply yields_any|]. intros _ _.
    eapply yields_bind; [apply pop_values_yields|]. intros [vs g] (Hg & us & _ & Hlen & Hst).
    apply (push_result_moves _ _ _ _ (rev us)); [done|done|by rewrite length_rev|done|done].
  - unfold op_index_get. pop v g Hg Hs. pop w h Hh Hs'. apply (push_result_moves _ _ _ _ [v; w]); try done; [eauto|]. by rewrite Hs, Hs'.
  - apply op_interpolate_moves.
  - by apply make_named_moves.
  - apply op_field_get_moves.
  - by apply make_named_moves.
  - apply op_match_variant_moves.
  - apply op_jump_false_moves.
  - apply yields_ret. split_and!; simpl; auto. by exists [], [], (stack f).
Qed.

(** ** Entering and leaving frames *)

(** Binding names to values from left to right. *)
Definition bind_all (m : gmap (list Z) Value) (names : list (list Z)) (values : list Value)
  : gmap (list Z) Value :=
  foldl (λ m nv, <[cstr (fst nv) := snd nv]> m) m (zip names values).

(** A frame at the start of [g] with its parameters bound to [args]. *)
Definition enters (g : Function) (args : list Value) (h : Frame) : Prop :=
  function h = g ∧ pc h = 0%nat ∧ stack h = [] ∧ locals_ok h ∧ bindings h = bind_all ∅ (params g) args.

(** What the run-time check lets a function call. *)
Definition may_call (caller g : Function) : Prop :=
  (pure caller = true → pure g = true) ∧
  (is_async g = true → is_async caller = true ∧ pure caller = false).

(** The calls by name, and those of a callable on the stack. *)
Definition direct_call (i : Instruction) : option (list Z * nat) :=
  match i with OP_CALL name n | OP_AWAIT_CALL name n => Some (name, n) | _ => None end.
Definition value_call (i : Instruction) : option nat :=
  match i with OP_CALL_VALUE n | OP_AWAIT_VALUE n => Some n | _ => None end.

(** The instruction calls [name] with the operands [args], the last of which is
    on top of the stack, and leaves [f'].  The callable of an indirect call is
    under its arguments. *)
Definition calls (i : Instruction) (f f' : Frame) (name : list Z) (args : list Value) : Prop :=
  same_point f f' ∧
  ((direct_call i = Some (name, length args) ∧ stack f = rev args ++ stack f') ∨
   (value_call i = Some (length args) ∧ ∃ t, data t = name ∧ stack f = rev args ++ Str t :: stack f')).

(** What an instruction [i] of the innermost frame [f] does to the frames, in the
    world [w]. *)
Inductive frame_effect {W} `{!Native W} (p : Program) (w : W) (i : Instruction) (f : Frame) (fs : list Frame)
  : list Frame → Prop :=
| effect_stays f' : moves i f f' → frame_effect p w i f fs (f' :: fs)
| effect_calls f' name args g h :
    calls i f f' name args → builtin name = None → lookup_function p name = Some g → length args = length (params g) →
    may_call (function f) g → enters g args h → frame_effect p w i f fs (h :: f' :: fs)
| effect_handler f' name args b g cargs w' h :
    calls i f f' name args → builtin name = Some b → called_function b = true →
    http_connection_handler p args w = (Ret (g, cargs), w') → g ∈ functions p →
    may_call (function f) g → enters g cargs h → frame_effect p w i f fs (h :: f' :: fs)
| effect_leaves v rest :
    i = OP_RETURN → stack f = v :: rest → fs = [] → frame_effect p w i f fs []
| effect_returns v rest c c' fs' :
    i = OP_RETURN → stack f = v :: rest → fs = c :: fs' → same_point c c' → stack c' = v :: stack c →
    frame_effect p w i f fs (c' :: fs').

(** Everything [dispatch] may do. *)
Record transition {W} `{!Native W} (i : Instruction) (f : Frame) (fs : list Frame) (e e' : VMExecution W) : Prop := {
  t_frames : frame_effect (program (vm e)) (world (vm e)) i f fs (frames e');
  t_program : program (vm e') = program (vm e);
  t_error : error (vm e') = error (vm e);
  t_running : running e' = running e;
  t_profile : profile e' = profile e;
  t_status : match status e' with
             | VM_YIELDED => frames e' ≠ [] ∧ result e' = result e
             | VM_COMPLETED => frames e' = [] ∧ ∃ v, head (stack f) = Some v ∧ result e' = Some v
             | VM_WAITING | VM_EXITED => frames e' ≠ [] ∧ result e' = result e
             | VM_TRAPPED | VM_BUSY => False
             end;
}.

(** A failed instruction has not produced a result. *)
Definition failed {W} (e e' : VMExecution W) : Prop :=
  program (vm e') = program (vm e) ∧ running e' = running e ∧ profile e' = profile e ∧
  result e' = result e.

Lemma kept_failed {W} (e e' : VMExecution W) : kept e e' → failed e e'.
Proof. by intros []. Qed.

Lemma bind_arguments_yields names values f :
  locals_ok f →
  yields (bind_arguments names values f) (λ f', function f' = function f ∧ pc f' = pc f ∧
    stack f' = stack f ∧ locals_ok f' ∧ bindings f' = bind_all (bindings f) names values).
Proof.
  revert values f. induction names as [|n names IH]; intros values f Hok; simpl.
  - apply yields_ret. by split_and!.
  - destruct values as [|v values]; [done|].
    eapply yields_bind; [eapply yields_runs, local_put_spec, Hok|].
    intros g (Hg & Hb & Hf & Hp & Hs). eapply yields_mono; [by apply IH|].
    intros h (Hf' & Hp' & Hs' & Hl' & Hb'). rewrite Hb', Hb. split_and!; try congruence. done.
Qed.

Section transitions.
Context {W : Type} `{!Native W}.
Implicit Types (e : VMExecution W) (f : Frame) (fs : list Frame).

(** The handler of an HTTP connection is an asynchronous function of the program. *)
Definition handler_ok : Prop :=
  ∀ p a w g args w', http_connection_handler p a w = (Ret (g, args), w') →
    g ∈ functions p ∧ is_async g = true ∧ pure g = false.

Lemma on_top_ends e f fs op (P : Frame → Prop) :
  frames e = f :: fs → yields (op f) P →
  ends (on_top op) e (λ _ e', ∃ f', P f' ∧ e' = set_frames (f' :: fs) e) (eq e).
Proof.
  intros He Hop al. unfold on_top, mbind, X_bind, top, lift. rewrite He. specialize (Hop al).
  destruct (op f al) as [[f'| | | |] al']; simpl in *; try done.
  exists f'. by rewrite He.
Qed.

Lemma frame_push_ends e g args :
  ends (frame_push g args) e
    (λ _ e', ∃ h, enters g args h ∧ frames e' = h :: frames e ∧ kept (set_frames (h :: frames e) e) e')
    (kept e).
Proof.
  intros al. unfold frame_push.
  eapply (ends_bind (A:=VMExecution W) get _ e (λ x e', x = e ∧ e' = e)); [by intros ?|].
  intros ? ? [-> ->].
  eapply (ends_bind _ _ _ (λ _ e', kept e e')).
  { destruct (Nat.eqb _ _); [|by intros ?; apply kept_refl].
    destruct (_ <? _); [by apply keeps_lift|]. apply (keeps_bind (lift alloc)); [apply keeps_lift|].
    intros _ e1 al1. by split; auto. }
  intros _ e1 He1. eapply (ends_bind _ _ _ (λ h e', enters g args h ∧ e' = e1)).
  { eapply ends_lift; [apply bind_arguments_yields; by split; [apply NoDup_nil_2|constructor]| |done].
    intros h (Hf & Hp & Hs & Hl & Hb). done. }
  intros h ? [Hh ->] al1. simpl. exists h. split_and!; [done|by rewrite (kept_frames _ _ He1)|].
  destruct He1. split; simpl; congruence || auto.
Qed.

(** Outside a return, a transition is a change of frames and what services keep. *)
Lemma transition_kept i e f fs l e' :
  l ≠ [] → frame_effect (program (vm e)) (world (vm e)) i f fs l → status e = VM_YIELDED →
  kept (set_frames l e) e' → transition i f fs e e'.
Proof.
  intros Hl Hfe Hs []. simpl in *. split; try done; rewrite ?kept_frames0; try done.
  by destruct kept_status0 as [->|[->| ->]]; rewrite ?Hs.
Qed.

Lemma ends_top e f fs R : frames e = f :: fs → ends top e (λ g e', g = f ∧ e' = e) R.
Proof. intros He al. unfold top. by rewrite He. Qed.

Lemma ends_get e R : ends get e (λ x e', x = e ∧ e' = e) R.
Proof. by intros al. Qed.

(** A step on plain values: the execution is not touched. *)
Lemma ends_pure {A} (m : M A) e P R :
  yields m P → R e → ends (lift m) e (λ a e', P a ∧ e' = e) R.
Proof. intros H HR. eapply ends_lift; [done| |done]. auto. Qed.

Lemma set_top_ends e f fs g R :
  frames e = f :: fs → ends (set_top g) e (λ _ e', e' = set_frames (g :: fs) e) R.
Proof. intros He al. simpl. by rewrite He. Qed.

Lemma failed_refl e : failed e e.
Proof. by split_and!. Qed.
End transitions.

(** Symbolic execution of one step of an [X] computation. *)
Ltac xfail := solve [by split_and! | by apply kept_failed].
Ltac xtop := eapply ends_bind; [by eapply ends_top|]; intros ? ? [-> ->].
Ltac xget := eapply ends_bind; [apply ends_get|]; intros ? ? [-> ->].
Tactic Notation "xpure" uconstr(H) "as" simple_intropattern(p) :=
  eapply ends_bind; [eapply ends_pure; [eapply H|xfail]|]; intros ? ? [p ->].
Ltac xskip := xpure @yields_any as _.
Ltac xraise := apply ends_raise; xfail.

Section instructions.
Context {W : Type} `{!Native W}.
Implicit Types (e : VMExecution W) (f : Frame) (fs : list Frame).

(** The last step of an instruction that stays in its frame. *)
Lemma set_top_transition i e e1 f g fs :
  frames e = f :: fs → status e = VM_YIELDED → moves i f g → kept e e1 →
  ends (set_top g) e1 (λ _ e', transition i f fs e e') (failed e).
Proof.
  intros He Hs Hm Hk. eapply ends_mono; [eapply set_top_ends; by rewrite (kept_frames _ _ Hk), He| |done].
  intros _ e' ->. eapply (transition_kept _ _ _ _ (g :: fs)); [done|by apply effect_stays|done|].
  destruct Hk. by split.
Qed.

Lemma op_make_range_ends e f fs :
  frames e = f :: fs → status e = VM_YIELDED →
  ends op_make_range e (λ _ e', transition OP_MAKE_RANGE f fs e e') (failed e).
Proof.
  intros He Hs. unfold op_make_range. xtop.
  xpure stack_pop_yields as [Hb Hsb]. destruct a as [b g]. xpure stack_pop_yields as [Ha Hsa].
  destruct a as [a h]. simpl in *.
  destruct a; try xraise. destruct b; try xraise. do 3 xskip.
  eapply (ends_bind fresh _ _ (λ r e', kept e e')); [intros ?; by split; auto|].
  intros r e1 He1.
  xpure stack_push_yields as [Hk Hsk].
  apply set_top_transition; [done..| |done].
  eapply (push_stack _ _ h _ _ [_; _]); eauto using same_point_trans; try done. by rewrite Hsb, Hsa.
Qed.

Lemma op_iter_init_ends e f fs name :
  frames e = f :: fs → status e = VM_YIELDED →
  ends (op_iter_init name) e (λ _ e', transition (OP_ITER_INIT name) f fs e e') (failed e).
Proof.
  intros He Hs. unfold op_iter_init. xtop. xpure stack_pop_yields as [Hb Hsb]. destruct a as [b g].
  simpl in *. do 2 xskip.
  eapply (ends_bind fresh _ _ (λ r e', kept e e')); [intros ?; by split; auto|]. intros r e1 He1.
  eapply (ends_bind _ _ _ (λ _ e', kept e e')); [intros ?; by destruct He1; split|]. intros _ e2 He2.
  xpure local_put_yields as (Hf & Hp & Hst & Hl). destruct Hb as (Hgf & Hgp & Hgl).
  apply set_top_transition; [done..| |done].
  assert (locals_ok f ↔ locals_ok g) as Hok by (unfold locals_ok; by rewrite Hgl).
  split_and!; [congruence|left; congruence|intros Hlf; by apply Hl, Hok| |by exists [b], [], (stack g)].
  exists r. intros Hlf. destruct (Hl (proj1 Hok Hlf)) as [_ ->]. unfold bindings. by rewrite Hgl.
Qed.

Lemma op_iter_next_ends e f fs name name2 target :
  frames e = f :: fs → status e = VM_YIELDED →
  ends (op_iter_next name name2 target) e
    (λ _ e', transition (OP_ITER_NEXT name name2 target) f fs e e') (failed e).
Proof.
  intros He Hs. unfold op_iter_next. xtop. xget.
  destruct (local_get f name) as [[]|]; try xraise. destruct (iterators (vm e) !! id) as [it|]; [|done].
  xskip. destruct a as [[b it']|].
  - eapply (ends_bind _ _ _ (λ _ e', kept e e')); [intros ?; by split; auto|]. intros _ e1 He1.
    xpure local_put_yields as (Hf & Hp & Hst & Hl). apply set_top_transition; [done..| |done].
    split_and!; [done|by left|apply Hl| |by exists [], [], (stack f)]. right. exists b. apply Hl.
  - apply set_top_transition; [done..| |apply kept_refl]. split_and!; simpl; auto. by exists [], [], (stack f).
Qed.

Lemma frame_op_ends e f fs i op :
  frames e = f :: fs → status e = VM_YIELDED → frame_op i = Some op →
  ends (on_top op) e (λ _ e', transition i f fs e e') (failed e).
Proof.
  intros He Hs Hi. eapply ends_mono; [eapply on_top_ends; [done|by apply (frame_op_moves i)]| |].
  - intros _ e' (g & Hg & ->). eapply (transition_kept _ _ _ _ (g :: fs)); [done|by apply effect_stays|done|].
    apply kept_refl.
  - intros e' <-. by split_and!.
Qed.

Lemma op_return_ends e f fs :
  frames e = f :: fs → status e = VM_YIELDED →
  ends op_return e (λ _ e', transition OP_RETURN f fs e e') (failed e).
Proof.
  intros He Hs. unfold op_return. xtop. xpure stack_pop_yields as [Hg Hst]. destruct a as [v g].
  simpl in *. destruct (_ && _); [xraise|].
  eapply (ends_bind _ _ _ (λ _ e', e' = set_frames fs e)); [intros ?; simpl; by rewrite He|].
  intros _ ? ->. xget. simpl. destruct fs as [|c fs].
  - intros al. simpl. split; simpl; try done; [by eapply effect_leaves|]. split; [done|]. exists v. by rewrite Hst.
  - eapply ends_mono; [eapply on_top_ends; [done|apply stack_push_yields]| |].
    + intros _ e' (c' & [Hc Hsc] & ->). eapply (transition_kept _ _ _ _ (c' :: fs)); [done| |done|by split; auto].
      by eapply effect_returns.
    + intros e' <-. by split_and!.
Qed.

(** ** Calls *)

(** The frames after a builtin called from [f]: a value may have been pushed, or
    the handler of an HTTP connection entered. *)
Inductive builtin_effect (p : Program) (w : W) (b : Builtin) (args : list Value) (f : Frame) (fs : list Frame) :
    list Frame → Prop :=
| builtin_pushes f' pushed :
    same_point f f' → stack f' = pushed ++ stack f → (length pushed ≤ 1)%nat → builtin_effect p w b args f fs (f' :: fs)
| builtin_enters g cargs w' h :
    called_function b = true → http_connection_handler p args w = (Ret (g, cargs), w') →
    g ∈ functions p → is_async g = true → pure g = false →
    enters g cargs h → builtin_effect p w b args f fs (h :: f :: fs).

Lemma push_reply_ends w e f fs b args v :
  frames e = f :: fs → called_function b = false →
  ends (push_reply b v) e
    (λ _ e', ∃ l, l ≠ [] ∧ builtin_effect (program (vm e)) w b args f fs l ∧ kept (set_frames l e) e') (failed e).
Proof.
  intros He Hb. unfold push_reply. xget. rewrite Hb. simpl. case_bool_decide; simpl.
  - destruct v as [v|]; [|by intros al; split_and!].
    eapply ends_mono; [eapply on_top_ends; [done|apply stack_push_yields]| |].
    + intros _ e' (g & [Hg Hst] & ->). exists (g :: fs). split_and!; [done| |apply kept_refl].
      by apply (builtin_pushes _ _ _ _ _ _ g [v]).
    + intros e' <-. by split_and!.
  - apply ends_ret. exists (f :: fs). split_and!; [done| |by split; auto].
    apply (builtin_pushes _ _ _ _ _ _ f []); [done|done|simpl; lia].
Qed.

Lemma invoke_ends e b args :
  handler_ok → called_function b = true →
  ends (execution_builtin b args) e
    (λ _ e', ∃ g cargs w' h, http_connection_handler (program (vm e)) args (world (vm e)) = (Ret (g, cargs), w') ∧
       g ∈ functions (program (vm e)) ∧ is_async g = true ∧ pure g = false ∧
       enters g cargs h ∧ kept (set_frames (h :: frames e) e) e') (failed e).
Proof.
  intros Hok Hb. unfold execution_builtin. xget. pose proof Hb as Hn.
  unfold called_function, named in Hn. apply String.eqb_eq in Hn. unfold named. rewrite Hn. simpl.
  rewrite Hb. unfold http_connection_invoke_call. xget.
  eapply (ends_bind _ _ _ (λ r e', kept e e' ∧ (r.1 ∈ functions (program (vm e)) ∧
            is_async r.1 = true ∧ pure r.1 = false) ∧ ∃ w', http_connection_handler (program (vm e)) args (world (vm e)) = (Ret r, w'))).
  { intros al. unfold native_outcome.
    destruct (http_connection_handler _ _ _) as [[[g cargs]| | | |] w] eqn:E; try done; try by split_and!.
    split; [by split; auto|]. split; [by eapply Hok|]. by exists w. }
  intros [g cargs] e1 (He1 & Hg & w' & Hw). simpl in Hg.
  eapply ends_bind; [eapply ends_mono; [apply frame_push_ends|intros ? ? H; exact H|]|].
  { intros e2 H2. by apply kept_failed, (kept_trans _ e1). }
  intros _ e2 (h & Hh & _ & Hk). apply ends_ret. exists g, cargs, w', h. split_and!; try apply Hg; [done|done|].
  destruct He1, Hk. simpl in *. split; simpl; try congruence. intuition congruence.
Qed.

Lemma builtin_reply_ends e f fs b args :
  handler_ok → frames e = f :: fs →
  ends (v ← execution_builtin b args; push_reply b v) e
    (λ _ e', ∃ l, l ≠ [] ∧ builtin_effect (program (vm e)) (world (vm e)) b args f fs l ∧ kept (set_frames l e) e') (failed e).
Proof.
  intros Hok He. destruct (called_function b) eqn:Hb.
  - eapply ends_bind; [by apply invoke_ends|]. intros v e1 (g & cargs & w' & h & Hw & Hg & Ha & Hp & Hh & Hk).
    unfold push_reply. xget. rewrite Hb. simpl. apply ends_ret. rewrite He in Hk.
    exists (h :: f :: fs). split_and!; [done| |done]. by eapply builtin_enters.
  - eapply ends_bind; [eapply ends_mono; [by apply execution_builtin_keeps|intros ? ? H; exact H|]|].
    { intros e1. apply kept_failed. }
    intros v e1 Hk. eapply ends_mono; [eapply push_reply_ends; [by rewrite (kept_frames _ _ Hk)|done]| |].
    + intros _ e' (l & Hl & Hbe & Hk'). exists l. rewrite (kept_program _ _ Hk) in Hbe.
      split_and!; [done..|]. destruct Hk, Hk'. simpl in *. split; simpl; try congruence.
      intuition congruence.
    + intros e' (?&?&?&?). destruct Hk. split_and!; congruence.
Qed.

Lemma edge_function caller g awaited : edge_ok caller None (Some g) awaited = true → may_call caller g.
Proof.
  unfold edge_ok, verify_call_edge, may_call. intros H.
  destruct awaited, (is_async g), (pure g), (pure caller), (is_async caller); naive_solver.
Qed.

Lemma edge_async caller b awaited :
  edge_ok caller (Some b) None awaited = true → builtin_is_async (Some b) = true →
  is_async caller = true ∧ pure caller = false.
Proof.
  unfold edge_ok, verify_call_edge. intros H Hb. rewrite Hb in H.
  destruct awaited, (pure caller), (is_async caller); naive_solver.
Qed.

(** The builtins that enter a handler are asynchronous. *)
Lemma called_function_async b : b ∈ BUILTINS → called_function b = true → builtin_is_async (Some b) = true.
Proof.
  intros Hin Hc.
  assert (forallb (λ b, implb (called_function b) (builtin_is_async (Some b))) BUILTINS = true) as H
    by (vm_compute; reflexivity).
  rewrite List.forallb_forall in H. specialize (H b). rewrite Hc in H. apply H. by apply list_elem_of_In.
Qed.

Lemma builtin_in name b : builtin name = Some b → b ∈ BUILTINS.
Proof. intros H%List.find_some. apply list_elem_of_In, H. Qed.

Lemma calls_stack i f f' name args : calls i f f' name args →
  ∃ used, stack f = used ++ stack f' ∧ length used = stack_use i ∧ binds_local i = false ∧ (∀ l, pushes i used l ↔ (length l ≤ 1)%nat).
Proof.
  intros [_ [[Hi Hst]|[Hi (t & _ & Hst)]]].
  - exists (rev args). destruct i; simplify_eq/=; rewrite length_rev; done.
  - exists (rev args ++ [Str t]). rewrite length_app, length_rev, <- (assoc (++)). destruct i; simplify_eq/=; split_and!; try done; lia.
Qed.

Lemma builtin_call_transition i e e1 f f' fs b name args awaited :
  handler_ok → frames e = f :: fs → status e = VM_YIELDED → builtin name = Some b →
  edge_ok (function f') (Some b) None awaited = true → calls i f f' name args →
  e1 = set_frames (f' :: fs) e →
  ends (v ← execution_builtin b args; push_reply b v) e1 (λ _ e', transition i f fs e e') (failed e).
Proof.
  intros Hok He Hs Hb Hedge Hcall ->. pose proof (builtin_in _ _ Hb) as Hin. pose proof Hcall as [Hf _]. eapply ends_mono; [by apply builtin_reply_ends|..].
  - intros _ e' (l & Hl & Heff & Hk). apply (transition_kept _ _ _ _ l); [done| |done|].
    + destruct Heff as [f'' pushed H H' Hone|g cargs w' h Hc Hw Hg Ha Hp Hh].
      * destruct (calls_stack _ _ _ _ _ Hcall) as (used & Hst & Hu & Hbl & Hpush).
        apply effect_stays, same_point_moves; [done|by eapply same_point_trans|]. exists used, pushed, (stack f').
        split_and!; [done|done|done|by apply Hpush].
      * eapply effect_handler; [done..| |done]. apply called_function_async in Hc; [|done].
        destruct (edge_async _ _ _ Hedge Hc) as [Hca Hcp]. destruct Hf as (<- & _).
        split; [intros; congruence|by intros _].
    + destruct Hk. by split.
  - done.
Qed.

Lemma lookup_function_in p name g : lookup_function p name = Some g → g ∈ functions p.
Proof. unfold lookup_function. intros (k & _ & H)%bind_Some. by eapply list_elem_of_lookup_2. Qed.

Lemma frame_push_transition i e e1 f f' fs g name args awaited :
  frames e = f :: fs → status e = VM_YIELDED → builtin name = None → lookup_function (program (vm e)) name = Some g →
  length args = length (params g) → edge_ok (function f') None (Some g) awaited = true → calls i f f' name args →
  e1 = set_frames (f' :: fs) e →
  ends (frame_push g args) e1 (λ _ e', transition i f fs e e') (failed e).
Proof.
  intros He Hs Hb Hg Hlen Hedge Hcall ->. pose proof Hcall as [Hf _]. eapply ends_mono; [apply frame_push_ends|..].
  - intros _ e' (h & Hh & Hfr & Hk). simpl in *.
    apply (transition_kept _ _ _ _ (h :: f' :: fs)); [done| |done|by destruct Hk; split].
    eapply effect_calls; [done..| |done]. apply edge_function in Hedge. by destruct Hf as (<- & _).
  - intros e' []. by split_and!.
Qed.

Lemma op_call_ends i e f fs name arity awaited :
  handler_ok → frames e = f :: fs → status e = VM_YIELDED → direct_call i = Some (name, arity) →
  ends (op_call name arity awaited) e (λ _ e', transition i f fs e e') (failed e).
Proof.
  intros Hok He Hs Hi. unfold op_call. xskip. xtop. xpure pop_values_yields as (Hg & vs & Hvs & Hlen & Hst).
  destruct a0 as [args g]. simpl in *. rewrite app_nil_r in Hvs. subst vs.
  assert (calls i f g name args) as Hcall by (split; [done|left; split; [by rewrite Hlen|done]]).
  eapply ends_bind; [by eapply set_top_ends|]. intros _ ? ->. xget. simpl.
  destruct (builtin name) as [b|] eqn:Hb.
  - destruct (_ || _) eqn:Hc; [xraise|]. apply orb_false_iff in Hc as [_ Hc%negb_false_iff].
    by eapply builtin_call_transition.
  - destruct (lookup_function _ name) as [h|] eqn:Hl; [|xraise].
    destruct (_ || _) eqn:Hc; [xraise|]. apply orb_false_iff in Hc as [Ha%negb_false_iff%Nat.eqb_eq Hc%negb_false_iff].
    eapply frame_push_transition; try done. congruence.
Qed.

Lemma op_call_value_ends i e f fs arity awaited :
  handler_ok → frames e = f :: fs → status e = VM_YIELDED → value_call i = Some arity →
  ends (op_call_value arity awaited) e (λ _ e', transition i f fs e e') (failed e).
Proof.
  intros Hok He Hs Hi. unfold op_call_value. xskip. xtop.
  xpure pop_values_yields as (Hg & vs & Hvs & Hlen & Hst). destruct a0 as [args g]. simpl in *. rewrite app_nil_r in Hvs. subst vs.
  xpure stack_pop_yields as [Hk Hst']. destruct a0 as [callable h]. simpl in *.
  assert (same_point f h) as Hh by eauto using same_point_trans.
  eapply ends_bind; [by eapply set_top_ends|]. intros _ ? ->. destruct callable; try xraise.
  assert (calls i f h (data t) args) as Hcall.
  { split; [done|right]. split; [by rewrite Hlen|]. exists t. by rewrite Hst, Hst'. }
  xskip. xget. simpl. destruct (builtin (data t)) as [b|] eqn:Hb.
  - destruct (negb _); [xraise|]. destruct (_ || _) eqn:Hc; [xraise|].
    apply orb_false_iff in Hc as [_ Hc%negb_false_iff]. by eapply builtin_call_transition.
  - destruct (lookup_function _ (data t)) as [k|] eqn:Hl; [|xraise]. destruct (negb _) eqn:Ha; [xraise|].
    apply negb_false_iff, Nat.eqb_eq in Ha.
    destruct (_ || _) eqn:Hc; [xraise|]. apply orb_false_iff in Hc as [_ Hc%negb_false_iff].
    eapply frame_push_transition; try done. congruence.
Qed.

Lemma dispatch_ends i e f fs :
  handler_ok → frames e = f :: fs → status e = VM_YIELDED →
  ends (dispatch i) e (λ _ e', transition i f fs e e') (failed e).
Proof.
  intros Hok He Hs. destruct (frame_op i) as [op|] eqn:Hi.
  - destruct i; try done; injection Hi as <-; by apply frame_op_ends.
  - destruct i; try done; simpl;
      eauto using op_make_range_ends, op_iter_init_ends, op_iter_next_ends, op_call_ends, op_return_ends,
        op_call_value_ends.
Qed.

(** ** Frame discipline *)

Lemma step_transition e f fs i :
  handler_ok → frames e = f :: fs → status e = VM_YIELDED → ins (function f) !! pc f = Some i →
  ends step e (λ _ e', transition i (set_pc (S (pc f)) f) fs (set_frames (set_pc (S (pc f)) f :: fs) e) e')
    (λ _, True).
Proof.
  intros Hok He Hs Hi. unfold step. eapply ends_bind; [by eapply ends_top|]. intros ? ? [-> ->].
  rewrite Hi. eapply ends_bind; [by eapply set_top_ends|]. intros _ ? ->.
  eapply ends_mono; [by apply dispatch_ends|done..].
Qed.

End instructions.

(** ** A native side that offers nothing *)

(** Every service refuses, but for root-relative file reads, which answer
    [root]; used to run closed examples. *)
Definition sample_native (root : option ref) : Native unit := {|
  native_call := λ _ _ _ w, (Trap VM_FAULT_FATAL "VM trap: service is unavailable", w);
  tcp_server_http_continue := λ _ w, (false, None, w);
  http_runtime_listen := λ _ _ _ _ _ _ w, (NoMem, w);
  http_runtime_active := λ _, false;
  http_runtime_owns_signals := λ _, false;
  install_stop_signals := λ w, (false, w);
  http_runtime_request_close := λ _ _ w, (false, w);
  http_resource := λ _ _, false;
  http_connection_handler := λ _ _ w, (Trap VM_FAULT_FATAL "VM trap: service is unavailable", w);
  tcp_server_start_service := λ _ _ _ _ _ _ w, (None, w);
  tcp_server_start_stream := λ _ _ _ _ _ _ w, (None, w);
  tcp_server_start := λ _ _ _ _ _ w, (None, w);
  tcp_server_enable_filesystem := λ _ w, w;
  tcp_server_enable_console := λ _ w, w;
  tcp_server_set_ready_handler := λ _ _ _ _ w, (false, w);
  tcp_server_done := λ _ _, true;
  tcp_server_destroy := λ _ w, w;
  console_write_start := λ _ _ w, (None, None, w);
  root_read_start := λ _ _ w, (root, None, w);
  tcp_exchange_start := λ _ w, (None, w);
  http_transport_start := λ _ w, (None, w);
  tcp_exchange_poll := λ _ _ w, (true, w);
  tcp_exchange_result := λ _ _, None;
  tcp_exchange_destroy := λ _ w, w;
  http_transport_poll := λ _ _ w, (true, w);
  http_transport_result := λ _ _, None;
  http_transport_destroy := λ _ w, w;
  console_write_poll := λ _ w, (true, w);
  console_write_result := λ _ _, None;
  console_write_destroy := λ _ w, w;
  root_read_poll := λ _ w, (true, w);
  root_read_result := λ _ _, None;
  root_read_error := λ _ _, None;
  root_read_destroy := λ _ w, w;
  service_stop_requested := λ _, false;
  tcp_server_stop := λ _ w, w;
  tcp_server_poll := λ _ _ w, w;
  tcp_server_advance := λ _ _ w, w;
  tcp_server_error := λ _ _, None;
  tcp_server_result := λ _ _, None;
  restore_stop_signals := λ w, w;
  filesystem_stage_destroy := λ w, w;
  gzip_stream_destroy := λ w, w;
  http_stream_destroy := λ w, w;
  digest_destroy := λ w, w;
|}.

Lemma sample_native_handler root : @handler_ok unit (sample_native root).
Proof. done. Qed.

Section example.
#[local] Instance control_native : Native unit := sample_native None.

Definition pure_sample : Function :=
  mkFunction (str "constant") true false false [] [OP_CONST (CBool true); OP_RETURN].

Definition pure_start : VMExecution unit :=
  mkExecution (mkVM (mkProgram [pure_sample] true) true None VM_FAULT_FATAL ∅ 1%positive tt)
    [mkFrame pure_sample 0 [] 0 [] 0] 8 VM_YIELDED None 0 true
    (embedded_profile None None None) no_pending false.

Definition pure_next : VMExecution unit := snd (fst (step pure_start [])).

Lemma pure_start_step : step pure_start [] = (Ret tt, pure_next, []).
Proof. reflexivity. Qed.

(** A caller that subtracts its second operand from its first. *)
Definition minus_sample : Function :=
  mkFunction (str "minus") true false false [str "x"; str "y"] [OP_LOAD (str "x"); OP_LOAD (str "y"); OP_BINARY 1; OP_RETURN].
Definition caller_sample : Function :=
  mkFunction (str "caller") true false false [] [OP_CALL (str "minus") 2; OP_RETURN].
Definition call_program : Program := mkProgram [caller_sample; minus_sample] true.
Definition caller_frame : Frame := mkFrame caller_sample 0 [Bool_ false; Bool_ true; VUnit] 8 [] 0.
Definition call_start : VMExecution unit :=
  mkExecution (mkVM call_program true None VM_FAULT_FATAL ∅ 1%positive tt)
    [caller_frame] 8 VM_YIELDED None 0 true (embedded_profile None None None) no_pending false.
Definition call_next : VMExecution unit := snd (fst (step call_start [])).

Lemma call_start_step : step call_start [] = (Ret tt, call_next, []).
Proof. reflexivity. Qed.

(** The callee has its parameters in the order the arguments were pushed. *)
Example call_binds :
  match frames call_next with
  | [h; c] => (function h, local_get h (str "x"), local_get h (str "y"), stack c)
  | _ => (caller_sample, None, None, [])
  end = (minus_sample, Some (Bool_ true), Some (Bool_ false), [VUnit]).
Proof. vm_compute. reflexivity. Qed.

End example.
