(* ===== verification/Execution.v ===== *)
(** * Executions: the life of a resumable invocation

    The invariant of an execution and its preservation by every entry point,
    and the contract of vm.h: budgets, suspension, sticky outcomes. *)

From Stdlib Require Import ZArith Lia.
From stdpp Require Import prelude gmap strings.
From S2P Require Import Prelude Bigint Value Program Builtins Verify Execute Frames Control.

(** ** The invariant *)

(** The program counter may stand at the end: the next fetch then traps. *)
Definition frame_ok (p : Program) (f : Frame) : Prop :=
  function f ∈ functions p ∧ (pc f ≤ length (ins (function f)))%nat ∧ locals_ok f.

Section invariant.
Context {W : Type} `{!Native W}.
Implicit Types (e : VMExecution W) (p : Program).

(** An execution that can still run. *)
Definition live p e : Prop :=
  error (vm e) = None ∧ result e = None ∧ frames e ≠ [] ∧ Forall (frame_ok p) (frames e).

(** Between two calls of the interface: a yielded or waiting execution has
    frames of the program, a completed one has a result, a trapped one a
    diagnostic, and no finished execution keeps a frame. *)
Definition wf_execution p e : Prop :=
  program (vm e) = p ∧ running e = false ∧
  match status e with
  | VM_YIELDED | VM_WAITING => live p e
  | VM_COMPLETED => frames e = [] ∧ error (vm e) = None ∧ is_Some (result e)
  | VM_EXITED => frames e = [] ∧ error (vm e) = None ∧ result e = None
  | VM_TRAPPED => frames e = [] ∧ is_Some (error (vm e)) ∧ result e = None
  | VM_BUSY => False
  end.

(** The same while the loop runs: a finished execution has not dropped its
    frames yet. *)
Definition looping p e : Prop :=
  program (vm e) = p ∧ error (vm e) = None ∧
  match status e with
  | VM_YIELDED | VM_WAITING => live p e
  | VM_COMPLETED => is_Some (result e)
  | VM_EXITED => result e = None
  | VM_TRAPPED | VM_BUSY => False
  end.

Lemma moves_frame_ok p i f f' :
  instruction_ok p (function f) i → frame_ok p f → moves i f f' → frame_ok p f'.
Proof.
  intros Hi (Hf & Hp & Hl) (Hf' & Hp' & Hl' & _). unfold frame_ok. rewrite Hf'. split_and!; auto.
  destruct Hp' as [->|Ht]; [done|]. destruct i; simplify_eq/=; lia.
Qed.

Lemma same_point_ok p f f' : frame_ok p f → same_point f f' → frame_ok p f'.
Proof. intros (? & ? & ?) (Hf & Hp & Hl). unfold frame_ok, locals_ok. by rewrite Hf, Hp, Hl. Qed.

Lemma effect_frames_ok p w i f fs l :
  instruction_ok p (function f) i → frame_ok p f → Forall (frame_ok p) fs →
  frame_effect p w i f fs l → Forall (frame_ok p) l.
Proof.
  intros Hi Hf Hfs Heff.
  assert (∀ f' g args h, same_point f f' → g ∈ functions p → enters g args h → Forall (frame_ok p) (h :: f' :: fs)) as Hcall.
  { intros f' g args h Hs Hg (Hh & Hp & _ & Hl & _). constructor; [|constructor; [by eapply same_point_ok|done]].
    unfold frame_ok. rewrite Hh, Hp. split_and!; [done|lia|done]. }
  destruct Heff as [f' Hm|f' name args g h [Hs _] _ Hg _ _ He|f' name args b g cargs w' h [Hs _] _ _ _ Hg _ He| |v rest c c' fs' _ _ -> Hc _].
  - constructor; [by eapply moves_frame_ok|done].
  - eapply Hcall; [done|by eapply lookup_function_in|done].
  - by eapply Hcall.
  - done.
  - inversion_clear Hfs. constructor; [by eapply same_point_ok|done].
Qed.

Lemma step_ends p e :
  handler_ok → well_formed p → looping p e → status e = VM_YIELDED →
  ends step e (λ _ e', looping p e') (λ e', program (vm e') = p ∧ result e' = None).
Proof.
  intros Hok Hwf (Hprog & Herr & Hl) Hs. rewrite Hs in Hl. destruct Hl as (_ & Hres & Hne & Hfs).
  destruct (frames e) as [|f fs] eqn:He; [done|]. inversion_clear Hfs as [|?? Hf Hfs'].
  unfold step. eapply ends_bind; [by eapply ends_top|]. intros ? ? [-> ->].
  destruct (ins (function f) !! pc f) as [i|] eqn:Hi; [|by apply ends_raise].
  eapply ends_bind; [by eapply set_top_ends|]. intros _ ? ->.
  assert (instruction_ok p (function f) i) as Hiok.
  { destruct Hf as [Hf _]. pose proof (wf_functions _ Hwf) as Hall.
    rewrite Forall_forall in Hall. destruct (Hall _ Hf) as (_ & _ & _ & _ & Hins).
    by eapply (Forall_lookup_1 _ _ _ _ Hins). }
  eapply ends_mono; [by apply dispatch_ends| |].
  - intros _ e' [Hfr Hp' He' Hr' _ Hst]. simpl in *. rewrite Hprog in Hfr.
    assert (Forall (frame_ok p) (frames e')) as Hfs''.
    { eapply effect_frames_ok; [| | |exact Hfr]; try done. destruct Hf as (? & ? & ?).
      split_and!; [done| |done]. simpl. apply lookup_lt_Some in Hi. lia. }
    split_and!; [congruence..|]. unfold live.
    destruct (status e'); destruct_and?; split_and?; solve [done | congruence | naive_solver].
  - intros e' (Hp' & _ & _ & Hr'). simpl in *. split; congruence.
Qed.

Lemma loop_ends p n e :
  handler_ok → well_formed p → looping p e →
  ends (loop n) e (λ _ e', looping p e') (λ e', program (vm e') = p ∧ result e' = None).
Proof.
  intros Hok Hwf. revert e. induction n as [|n IH]; intros e He; simpl; [by apply ends_ret|].
  eapply ends_bind; [apply ends_get|]. intros ? ? [-> ->].
  destruct (runnable e) eqn:Hr; simpl; [|by apply ends_ret].
  apply andb_true_iff in Hr as [_ Hst%bool_decide_eq_true].
  eapply ends_bind; [by apply step_ends|]. cbn beta. intros _ e1 He1.
  eapply ends_bind; [apply ends_get|]. intros ? ? [-> ->].
  destruct (yield_requested e1); [|by apply IH]. by intros al.
Qed.

Lemma settle_wf p e : looping p e → wf_execution p (settle e).
Proof.
  intros (Hp & He & Hs). unfold settle, wf_execution. rewrite He.
  destruct (status e) eqn:Hst; simpl; rewrite ?Hst; try done; by rewrite He.
Qed.

Lemma settle_trap p e k s :
  program (vm e) = p → result e = None → wf_execution p (settle (set_error k (Some s) e)).
Proof. done. Qed.

Lemma run_loop_ends p n e :
  handler_ok → well_formed p → wf_execution p e → status e = VM_YIELDED →
  ends (run_loop n) e (λ _ e', wf_execution p e') (λ _, False).
Proof.
  intros Hok Hwf (Hp & Hr & Hs) Hst al. rewrite Hst in Hs. unfold run_loop.
  assert (looping p (set_running true e)) as Hl.
  { split_and!; [done|apply Hs|]. simpl. by rewrite Hst. }
  pose proof (loop_ends p n _ Hok Hwf Hl al) as H. simpl in H.
  destruct (loop n _ al) as [[[] e'] al']; try done.
  - by apply settle_wf.
  - by apply settle_trap; apply H.
  - by apply settle_trap; apply H.
Qed.

(** ** Completion of waits *)

Lemma fail_wait_wf p e s :
  program (vm e) = p → running e = false → result e = None → wf_execution p (fail_wait s e).
Proof. by intros; split_and!. Qed.

(** A suspended execution of the program. *)
Definition suspended p e : Prop := program (vm e) = p ∧ status e = VM_WAITING ∧ live p e.

Lemma live_push p e f fs g v :
  frames e = f :: fs → live p e → same_point f g ∧ stack g = v :: stack f →
  live p (set_status VM_YIELDED (set_frames (g :: fs) e)).
Proof.
  intros He (Herr & Hres & Hne & Hfs) [Hg _]. rewrite He in Hfs. inversion_clear Hfs.
  split_and!; simpl; try done. constructor; [by eapply same_point_ok|done].
Qed.

(** Delivering a value resumes the execution or, for lack of memory, traps it;
    nothing else of the execution changes. *)
Lemma deliver_ends p e m :
  returns m (λ _, True) → suspended p e →
  ends (deliver m) e (λ _ e', wf_execution p (set_running false e') ∧ running e' = running e ∧
    pending e' = pending e) (λ _, False).
Proof.
  intros Hm (Hp & Hs & Hl) al. unfold deliver, mbind, X_bind, top, lift.
  pose proof Hl as (Herr & Hres & Hne & Hfs). destruct (frames e) as [|f fs] eqn:He; [done|].
  pose proof (returns_cases _ _ al Hm) as Hc. destruct (m al) as [[v| | | |] al1]; try done.
  pose proof (stack_push_yields f v al1) as Hv. pose proof (returns_cases _ _ al1 (stack_push_spec f v)) as Hc1.
  destruct (stack_push f v al1) as [[g| | | |] al2]; try done.
  unfold set_top, update. rewrite He. split_and!; [|done..]. split_and!; [done..|].
  exact (live_push p e f fs g v He Hl Hv).
Qed.

Lemma set_running_idle e : running e = false → set_running false e = e.
Proof. destruct e. simpl. by intros ->. Qed.

Lemma http_unit_result_returns : returns http_unit_result (λ _, True).
Proof.
  unfold http_unit_result, value_unit, named_value, copy_text.
  eapply (runs_bind _ _ (λ _, True)); [mbind runs_alloc as ? _; by mret|]. intros ? _.
  mbind runs_alloc as ? _.
  eapply (runs_bind _ _ (λ _, True)); [mbind runs_alloc as ? _; by mret|]. intros ? _.
  mbind runs_calloc as ? _. by mret.
Qed.

Lemma resume_shutdown_ends p e :
  wf_execution p e → ends resume_shutdown e (λ _ e', wf_execution p e') (λ _, False).
Proof.
  intros He. unfold resume_shutdown. eapply ends_bind; [apply ends_get|]. intros ? ? [-> ->].
  destruct (status e) eqn:Hs; try by apply ends_ret.
  destruct (http_waiting (pending e)) as [id|]; [|by apply ends_ret].
  destruct (http_resource id _); [by apply ends_ret|]. pose proof He as (Hp & Hr & Hl). rewrite Hs in Hl.
  eapply ends_bind; [apply (deliver_ends p); [apply http_unit_result_returns|done]|]. cbn beta.
  intros _ e1 (Hw & Hr1 & _). rewrite set_running_idle in Hw by congruence. by intros al.
Qed.

Lemma advance_ends p n e :
  handler_ok → well_formed p → wf_execution p e →
  ends (vm_execution_advance n) e (λ s e', wf_execution p e' ∧ s = status e') (λ _, False).
Proof.
  intros Hok Hwf He. unfold vm_execution_advance. eapply ends_bind; [apply ends_get|]. intros ? ? [-> ->].
  pose proof He as (_ & -> & _). eapply ends_bind; [by apply resume_shutdown_ends|]. cbn beta.
  intros _ e1 He1. eapply ends_bind; [apply ends_get|]. intros ? ? [-> ->].
  case_bool_decide; simpl; [|by apply ends_ret].
  eapply ends_bind; [by apply (run_loop_ends p)|]. cbn beta. intros _ e2 He2.
  eapply ends_bind; [apply ends_get|]. intros ? ? [-> ->]. by apply ends_ret.
Qed.

(** A wait that ends: the execution resumes or traps. *)
Definition resolved p e (e' : VMExecution W) : Prop :=
  wf_execution p (set_running false e') ∧ running e' = running e ∧ pending e' = pending e.

Lemma fail_wait_ends p e s :
  suspended p e → ends (update (fail_wait s)) e (λ _ e', resolved p e e') (λ _, False).
Proof. intros (? & ? & ? & ? & _) al. by split_and!. Qed.

Lemma deliver_result_ends p e v :
  suspended p e → ends (deliver_result v) e (λ _ e', resolved p e e') (λ _, False).
Proof.
  intros He. destruct v; [apply deliver_ends; [by mret|done]|by apply fail_wait_ends].
Qed.

Lemma finish_service_ends p e m v :
  suspended p e → ends (finish_service m v) e (λ _ e', resolved p e e') (λ _, False).
Proof. intros. destruct m; [by apply fail_wait_ends|by apply deliver_result_ends]. Qed.

Lemma resolved_idle p e e' : running e = false → resolved p e e' → wf_execution p e'.
Proof. intros Hr (Hw & Hr' & _). by rewrite set_running_idle in Hw by congruence. Qed.

(** Changes the invariant does not look at. *)
Lemma wf_native p e w : wf_execution p e → wf_execution p (set_world w e).
Proof. done. Qed.
Lemma wf_pending p e q : wf_execution p e → wf_execution p (set_pending q e).
Proof. done. Qed.

Lemma wf_suspended p e : wf_execution p e → status e = VM_WAITING → suspended p e.
Proof. intros (Hp & _ & Hl) Hs. rewrite Hs in Hl. done. Qed.

Lemma complete_print_ends p e m :
  wf_execution p e → ends (vm_execution_complete_print m) e (λ _ e', wf_execution p e') (λ _, False).
Proof.
  intros He. unfold vm_execution_complete_print. eapply ends_bind; [apply ends_get|]. intros ? ? [-> ->].
  destruct (_ || _) eqn:Hc; [by apply ends_ret|].
  rewrite !orb_false_iff, negb_false_iff, bool_decide_eq_true in Hc. destruct Hc as [[[[Hr Hs] _] _] _].
  destruct (wf_suspended _ _ He Hs) as (Hp & _ & Hl). pose proof Hl as (_ & Hres & _).
  eapply (ends_bind _ _ _ (λ _ e', e' = set_error (fault_kind (vm e)) m e)); [by intros ?|].
  intros _ ? ->. eapply (ends_bind _ _ _ (λ _ e', wf_execution p e')); [|by intros; apply ends_ret].
  destruct m as [m|]; [by intros al; apply fail_wait_wf|].
  eapply ends_mono; [apply (deliver_ends p)| |done].
  - unfold value_void. mbind runs_alloc as ? _. by mret.
  - split_and!; [done..|]. by destruct Hl as (_ & ? & ? & ?).
  - intros ? e'. by apply resolved_idle.
Qed.

Lemma complete_read_ends p e v :
  wf_execution p e → ends (vm_execution_complete_read v) e (λ _ e', wf_execution p e') (λ _, False).
Proof.
  intros He. unfold vm_execution_complete_read. eapply ends_bind; [apply ends_get|]. intros ? ? [-> ->].
  destruct (_ || _) eqn:Hc; [by apply ends_ret|].
  rewrite !orb_false_iff, negb_false_iff, bool_decide_eq_true in Hc. destruct Hc as [[[[Hr Hs] _] _] _].
  eapply (ends_bind _ _ _ (λ _ e', wf_execution p e' ∧ status e' = VM_WAITING ∧ running e' = false));
    [by intros ?; split_and!; try apply wf_pending|].
  intros _ e1 (He1 & Hs1 & Hr1). eapply (ends_bind _ _ _ (λ _ e', wf_execution p e')); [|by intros; apply ends_ret].
  pose proof (wf_suspended _ _ He1 Hs1) as Hsus.
  destruct v as [v|]; [destruct (vm_fake_read_result_valid _)|].
  - eapply ends_mono; [by apply (deliver_ends p); [mret|]| |done]. intros ? e'. by apply resolved_idle.
  - eapply ends_mono; [by apply fail_wait_ends| |done]. intros ? e'. by apply resolved_idle.
  - eapply ends_mono; [by apply fail_wait_ends| |done]. intros ? e'. by apply resolved_idle.
Qed.

(** Entry points preserve the invariant and cannot fail outright. *)
Definition preserves {A} p (m : X W A) : Prop :=
  ∀ e, wf_execution p e → ends m e (λ _ e', wf_execution p e') (λ _, False).

Lemma preserves_ret {A} p (a : A) : preserves p (mret a).
Proof. intros e He. by apply ends_ret. Qed.
Lemma preserves_bind {A B} p (m : X W A) (k : A → X W B) :
  preserves p m → (∀ a, preserves p (k a)) → preserves p (x ← m; k x).
Proof. intros Hm Hk e He. eapply ends_bind; [by apply Hm|]. intros a e'. apply Hk. Qed.
Lemma preserves_get p : preserves p get.
Proof. by intros e He al. Qed.
Lemma preserves_native {A} p (call : W → A * W) : preserves p (native call).
Proof. intros e He al. unfold native. by destruct (call _). Qed.
Lemma preserves_pending p g : preserves p (on_pending g).
Proof. by intros e He al. Qed.
Lemma preserves_profile p q : preserves p (update (set_profile q)).
Proof. by intros e He al. Qed.

Lemma native_ends {A} e (call : W → A * W) R :
  ends (native call) e (λ _ e', ∃ w, e' = set_world w e) R.
Proof. intros al. unfold native. destruct (call _) as [a w]. by exists w. Qed.

(** A finished native service resolves the wait of an idle execution. *)
Lemma service_finished_ends p e m v :
  wf_execution p e → status e = VM_WAITING →
  ends (finish_service m v) e (λ _ e', wf_execution p e') (λ _, False).
Proof.
  intros He Hs. eapply ends_mono; [by apply finish_service_ends, wf_suspended| |done].
  intros ? e'. apply resolved_idle. by destruct He as (_ & ? & _).
Qed.

Lemma complete_read_preserves p v : preserves p (vm_execution_complete_read v).
Proof. intros e. apply complete_read_ends. Qed.

Create HintDb entry discriminated.
Hint Resolve preserves_ret preserves_get preserves_native preserves_pending preserves_profile
  complete_read_preserves : entry.

Ltac preserves := repeat first [progress auto with entry | apply preserves_bind; [|intros]].

(** Run the guard of an entry point. *)
Ltac xguard e :=
  eapply ends_bind; [apply ends_get|]; intros ? ? [-> ->];
  destruct (running e); [by apply ends_ret|]; destruct (status e) eqn:Hst; try by apply ends_ret.

Lemma poll_tcp_preserves p ms : preserves p (vm_execution_poll_tcp ms).
Proof.
  intros e He. unfold vm_execution_poll_tcp. xguard e. destruct (tcp (pending e)) as [r|]; [|by apply ends_ret].
  eapply ends_bind; [by apply preserves_native|]. intros [] e1 He1; [|by apply ends_ret].
  revert e1 He1. change (preserves p (_ ← on_pending (set_tcp None); e ← get;
    _ ← vm_execution_complete_read (tcp_exchange_result r (world (vm e)));
    _ ← native (λ w, (tt, tcp_exchange_destroy r w)); mret true)).
  preserves.
Qed.

Lemma poll_http_preserves p ms : preserves p (vm_execution_poll_http ms).
Proof.
  intros e He. unfold vm_execution_poll_http. xguard e. destruct (http (pending e)) as [r|]; [|by apply ends_ret].
  eapply ends_bind; [by apply preserves_native|]. intros [] e1 He1; [|by apply ends_ret].
  revert e1 He1. change (preserves p (_ ← on_pending (set_http None); e ← get;
    _ ← vm_execution_complete_read (http_transport_result r (world (vm e)));
    _ ← native (λ w, (tt, http_transport_destroy r w)); mret true)).
  preserves.
Qed.

Lemma poll_console_preserves p : preserves p vm_execution_poll_console.
Proof.
  intros e He. unfold vm_execution_poll_console. xguard e.
  destruct (console_write (pending e)) as [r|]; [|by apply ends_ret].
  eapply ends_bind; [apply native_ends|]. intros [] ? [w ->]; [|by apply ends_ret].
  eapply ends_bind; [apply ends_get|]. intros ? ? [-> ->].
  eapply ends_bind; [by apply (service_finished_ends p _ None)|]. cbn beta. intros _.
  change (preserves p (_ ← native (λ w, (tt, console_write_destroy r w));
    _ ← on_pending (set_console_write None); mret true)). preserves.
Qed.

Lemma poll_filesystem_preserves p : preserves p vm_execution_poll_filesystem.
Proof.
  intros e He. unfold vm_execution_poll_filesystem. xguard e.
  destruct (root_read (pending e)) as [r|]; [|by apply ends_ret].
  eapply ends_bind; [apply native_ends|]. intros [] ? [w ->]; [|by apply ends_ret].
  eapply ends_bind; [apply ends_get|]. intros ? ? [-> ->].
  eapply ends_bind; [by apply (service_finished_ends p)|]. cbn beta. intros _.
  change (preserves p (_ ← native (λ w, (tt, root_read_destroy r w));
    _ ← on_pending (set_root_read None); mret true)). preserves.
Qed.

Lemma poll_network_preserves p ms : preserves p (vm_execution_poll_network ms).
Proof.
  unfold vm_execution_poll_network. apply preserves_bind; [apply preserves_get|]. intros e.
  repeat case_bool_decide; auto using poll_console_preserves, poll_filesystem_preserves,
    poll_tcp_preserves, poll_http_preserves, preserves_ret.
Qed.

Lemma stop_server_preserves p : preserves p vm_execution_stop_server.
Proof.
  unfold vm_execution_stop_server. apply preserves_bind; [apply preserves_get|]. intros e.
  destruct (running e), (server (pending e)); preserves.
Qed.

Lemma enable_preserves p g : preserves p (enable g).
Proof.
  unfold enable. apply preserves_bind; [apply preserves_get|]. intros e. destruct (_ || _); preserves.
Qed.

Lemma enable_server_reads_preserves p : preserves p vm_execution_enable_server_reads.
Proof.
  unfold vm_execution_enable_server_reads. apply preserves_bind; [apply preserves_get|]. intros e.
  destruct (_ || _); [apply preserves_ret|apply enable_preserves].
Qed.

(** The pump holds [running] throughout: the invariant holds once it is given
    back. *)
Lemma pump_server_preserves p n ms : preserves p (vm_execution_pump_server n ms).
Proof.
  intros e He. unfold vm_execution_pump_server. eapply ends_bind; [apply ends_get|]. intros ? ? [-> ->].
  destruct (running e) eqn:Hr; [by apply ends_ret|]. destruct (status e) eqn:Hs; try by apply ends_ret.
  destruct (server (pending e)) as [s|]; [|by apply ends_ret].
  eapply (ends_bind _ _ _ (λ _ e', e' = set_running true e)); [by intros ?|]. intros _ ? ->.
  eapply ends_bind; [apply native_ends|]. intros _ ? [w1 ->].
  eapply ends_bind; [apply native_ends|]. intros _ ? [w2 ->].
  eapply ends_bind; [apply ends_get|]. intros ? ? [-> ->].
  eapply (ends_bind _ _ _ (λ _ e', wf_execution p (set_running false e'))).
  - destruct (tcp_server_done _ _).
    + eapply ends_bind; [apply (finish_service_ends p)|].
      { by apply (wf_suspended p e). }
      cbn beta. intros _ e1 (He1 & _). eapply ends_bind; [apply native_ends|]. intros _ ? [w3 ->]. by intros al.
    + apply ends_ret. destruct He as (? & _ & ?). by split_and!.
  - intros _ e1 He1. by eapply (ends_bind _ _ _ (λ _ e', wf_execution p e')); [intros ?|intros; apply ends_ret].
Qed.
End invariant.
