(* ===== verification/Lifecycle.v ===== *)
(** * Lifecycle: the contract of vm.h

    Every state an embedder can reach by calling the interface satisfies the
    invariant of [Execution]; budgets slice an execution without changing it;
    finished executions stay as they are; the two completion calls do not
    complete each other's waits. *)

From Stdlib Require Import ZArith Lia.
From stdpp Require Import prelude gmap strings relations.
From S2P Require Import Prelude Bigint Value Program Builtins Verify Execute Frames Control Execution.

(** ** The interface as a transition system *)

Inductive Entry :=
| Advance (budget : nat)
| CompletePrint (message : option string)
| CompleteRead (v : option Value)
| PollNetwork (max_wait_ms : Z)
| PollTcp (max_wait_ms : Z)
| PollHttp (max_wait_ms : Z)
| PollConsole
| PollFilesystem
| PumpServer (budget : nat) (max_wait_ms : Z)
| StopServer
| EnableTcp
| EnableConsole
| EnableFilesystem
| EnableServer
| EnableServerReads.

Section lifecycle.
Context {W : Type} `{!Native W}.
Implicit Types (e : VMExecution W) (p : Program).

(** The result of the call is dropped; only its effect on the execution counts. *)
Definition entry_op (x : Entry) : X W unit :=
  let drop {A} (m : X W A) : X W unit := _ ← m; mret tt in
  match x with
  | Advance n => drop (vm_execution_advance n)
  | CompletePrint m => drop (vm_execution_complete_print m)
  | CompleteRead v => drop (vm_execution_complete_read v)
  | PollNetwork ms => drop (vm_execution_poll_network ms)
  | PollTcp ms => drop (vm_execution_poll_tcp ms)
  | PollHttp ms => drop (vm_execution_poll_http ms)
  | PollConsole => drop vm_execution_poll_console
  | PollFilesystem => drop vm_execution_poll_filesystem
  | PumpServer n ms => drop (vm_execution_pump_server n ms)
  | StopServer => drop vm_execution_stop_server
  | EnableTcp => drop vm_execution_enable_tcp
  | EnableConsole => drop vm_execution_enable_console
  | EnableFilesystem => drop vm_execution_enable_filesystem
  | EnableServer => drop vm_execution_enable_server
  | EnableServerReads => drop vm_execution_enable_server_reads
  end.

(** One call of the interface that returns. *)
Definition calls e e' : Prop := ∃ x al al', entry_op x e al = (Ret tt, e', al').

Lemma preserves_drop {A} p (m : X W A) : preserves p m → preserves p (_ ← m; mret tt).
Proof. intros H. apply preserves_bind; [done|]. intros _. apply preserves_ret. Qed.

Lemma advance_preserves p n : handler_ok → well_formed p → preserves p (vm_execution_advance n).
Proof.
  intros Hok Hwf e He. eapply ends_mono; [by apply (advance_ends p)| |done]. by intros s e' [? _].
Qed.

Lemma entry_preserves p x : handler_ok → well_formed p → preserves p (entry_op x).
Proof.
  intros Hok Hwf. destruct x; apply preserves_drop; unfold vm_execution_enable_tcp,
    vm_execution_enable_console, vm_execution_enable_filesystem, vm_execution_enable_server;
    eauto using advance_preserves, complete_read_preserves, poll_network_preserves, poll_tcp_preserves,
    poll_http_preserves, poll_console_preserves, poll_filesystem_preserves, pump_server_preserves,
    stop_server_preserves, enable_preserves, enable_server_reads_preserves.
  intros e. apply complete_print_ends.
Qed.

Lemma calls_wf p e e' : handler_ok → well_formed p → wf_execution p e → calls e e' → wf_execution p e'.
Proof.
  intros Hok Hwf He (x & al & al' & Hx). pose proof (entry_preserves p x Hok Hwf e He al) as H.
  by rewrite Hx in H.
Qed.

Lemma create_wf m g args q al e v al' :
  g ∈ functions (program m) → create m g args q al = (Ret e, v, al') →
  wf_execution (program m) e ∧ status e = VM_YIELDED ∧ v = vm e.
Proof.
  intros Hg. unfold create. destruct (active m); [done|].
  destruct (alloc al) as [[] al1]; try done.
  match goal with |- context [frame_push g args ?e0] => set (e1 := e0) end.
  pose proof (frame_push_ends e1 g args al1) as H.
  destruct (frame_push g args e1 al1) as [[[] e2] al2] eqn:E; try done. intros [= <- <- <-].
  destruct H as (h & (Hh & Hp & _ & Hl & _) & Hfr & Hk).
  assert (status e2 = VM_YIELDED) as Hs.
  { revert E. unfold frame_push, mbind, X_bind, lift, get, update. simpl.
    repeat (case_match; simplify_eq/=; try done). by intros [= <- <-]. }
  split_and!; [|done..]. destruct Hk. simpl in *. split_and!; [done..|]. rewrite Hs.
  split_and!; [done..|by rewrite Hfr|]. rewrite Hfr. constructor; [|constructor].
  unfold frame_ok. rewrite Hh, Hp. split_and!; [done|lia|done].
Qed.

(** C2: Invariant of executions.  From the creation of an execution of a
    function of a verified program, whatever the embedder calls (advancing,
    completing, polling, pumping, granting) and whatever the services answer,
    every state reached satisfies [wf_execution]: the execution is idle between
    calls; a yielded or waiting one has frames, all of functions of the program,
    with the program counter inside the function or at its end and distinct
    locals; a completed one has a result, a trapped one a diagnostic; and no
    finished execution keeps a frame.  No call fails with a diagnostic of its
    own. *)
Theorem execution_invariant m g args q al e v al' e' :
  handler_ok → well_formed (program m) → g ∈ functions (program m) →
  create m g args q al = (Ret e, v, al') → rtc calls e e' →
  wf_execution (program m) e' ∧
  ∀ x, ends (entry_op x) e' (λ _ e'', wf_execution (program m) e'') (λ _, False).
Proof.
  intros Hok Hwf Hg Hc Hr. apply (create_wf _ _ _ _ _ _ _ _ Hg) in Hc as (He & _ & _).
  assert (wf_execution (program m) e') as He'.
  { induction Hr; eauto using calls_wf. }
  split; [done|]. intros x. by apply entry_preserves.
Qed.

(** ** Budgets *)

(** [k] calls with a budget of one instruction each. *)
Fixpoint slices (k : nat) : X W VMExecutionStatus :=
  match k with
  | O => e ← get; mret (status e)
  | S k => _ ← vm_execution_advance 1; slices k
  end.

Lemma step_running e :
  handler_ok → status e = VM_YIELDED →
  ends step e (λ _ e', running e' = running e ∧ error (vm e') = error (vm e)) (λ _, True).
Proof.
  intros Hok Hs. destruct (frames e) as [|f fs] eqn:He.
  { intros al. unfold step, mbind, X_bind, top. by rewrite He. }
  unfold step. eapply ends_bind; [by eapply ends_top|]. intros ? ? [-> ->].
  destruct (ins (function f) !! pc f) as [i|]; [|by apply ends_raise].
  eapply ends_bind; [by eapply set_top_ends|]. intros _ ? ->.
  eapply ends_mono; [by eapply dispatch_ends|by intros ? e' []|done].
Qed.

(** An idle execution about to run. *)
Definition ready e : Prop := running e = false ∧ status e = VM_YIELDED ∧ error (vm e) = None.

Lemma advance_ready n e al :
  ready e → vm_execution_advance n e al = (_ ← run_loop n; e ← get; mret (status e)) e al.
Proof.
  intros (Hr & Hs & _). unfold vm_execution_advance, resume_shutdown, mbind, X_bind, get. rewrite Hr. simpl.
  rewrite Hs. simpl. by rewrite Hs.
Qed.

Lemma settle_ready e : error (vm e) = None → status e = VM_YIELDED → settle e = set_running false e.
Proof. intros He Hs. unfold settle. rewrite He, Hs. done. Qed.

Lemma set_running_back e : running e = true → set_running true (set_running false e) = e.
Proof. destruct e. simpl. by intros ->. Qed.

(** The rest of an advance, once its first instruction has run. *)
Lemma run_loop_split n e al :
  handler_ok → ready e →
  run_loop (S n) e al = run_loop 1 e al ∨
  ∃ e1 al1, run_loop 1 e al = (Ret tt, e1, al1) ∧ ready e1 ∧ run_loop (S n) e al = run_loop n e1 al1.
Proof.
  intros Hok (Hr & Hs & He). unfold run_loop. cbn [loop]. unfold mbind, X_bind, get, mret, X_ret.
  assert (runnable (set_running true e) = true) as Hrun.
  { unfold runnable. simpl. by rewrite He, Hs. }
  rewrite Hrun. simpl. pose proof (step_running (set_running true e) Hok Hs al) as Hst.
  destruct (step (set_running true e) al) as [[o e1] al1]. destruct o; try (by left).
  destruct Hst as [Hr1 He1]. simpl in Hr1, He1. destruct (yield_requested e1); [by left|].
  destruct (decide (status e1 = VM_YIELDED)) as [Hs1|Hs1].
  - right. exists (set_running false e1), al1. rewrite settle_ready by congruence. split_and!; [done| |].
    + split_and!; simpl; congruence.
    + by rewrite set_running_back.
  - left. destruct n; [done|]. cbn [loop]. unfold mbind, X_bind, get, runnable.
    by rewrite (bool_decide_false _ Hs1), andb_false_r.
Qed.

Lemma slices_0 e al : ready e → slices 0 e al = vm_execution_advance 0 e al.
Proof.
  intros Hre. rewrite advance_ready by done. destruct Hre as (Hr & Hs & He).
  unfold run_loop. cbn [slices loop]. unfold mbind, X_bind, get, mret, X_ret.
  rewrite settle_ready by done.
  destruct e; simpl in *. by subst.
Qed.

Lemma advance_then {B} n (k : X W B) e al :
  ready e → (_ ← vm_execution_advance n; k) e al = (_ ← run_loop n; k) e al.
Proof.
  intros Hre. unfold mbind at 1, X_bind at 1. rewrite advance_ready by done. unfold mbind, X_bind.
  by destruct (run_loop n e al) as [[[] ?] ?].
Qed.

(** C31: A budget only slices an execution.  Advancing a yielded execution with
    a budget of [n] instructions is exactly [k] successive advances of one
    instruction for some [k] not above [n]: the same status, the same execution,
    the same use of the allocator, and the same failure if there is one.  In
    particular no budget dispatches more than [n] instructions, a zero budget
    does nothing, and suspending between instructions cannot be observed by the
    program. *)
Theorem advance_slices n e al :
  handler_ok → running e = false → status e = VM_YIELDED → error (vm e) = None →
  ∃ k, (k ≤ n)%nat ∧ vm_execution_advance n e al = slices k e al.
Proof.
  intros Hok Hr Hs He. assert (ready e) as Hre by done. clear Hr Hs He.
  revert e al Hre. induction n as [|n IH]; intros e al Hre.
  { exists 0%nat. by rewrite slices_0. }
  destruct (run_loop_split n e al Hok Hre) as [Heq|(e1 & al1 & H1 & Hre1 & Heq)].
  - exists 1%nat. split; [lia|]. rewrite advance_ready by done. cbn [slices].
    rewrite advance_then by done. unfold mbind, X_bind. by rewrite Heq.
  - destruct (IH e1 al1 Hre1) as (k & Hk & Hsl). exists (S k). split; [lia|]. cbn [slices].
    rewrite advance_ready in Hsl |- * by done. rewrite advance_then by done.
    unfold mbind, X_bind in *. by rewrite H1, Heq.
Qed.

(** ** Finished executions *)

Definition finished (s : VMExecutionStatus) : bool :=
  match s with VM_COMPLETED | VM_TRAPPED | VM_EXITED => true | _ => false end.

(** The entry points that reach the operating system of a finished execution. *)
Definition stops_server (x : Entry) : bool := match x with StopServer => true | _ => false end.

(** An entry point whose guard refuses changes nothing. *)
Definition refused {A} (m : X W A) e : Prop := ∀ al, ∃ a, m e al = (Ret a, e, al).

Lemma refused_drop {A} (m : X W A) e al : refused m e → (_ ← m; mret tt) e al = (Ret tt, e, al).
Proof. intros H. destruct (H al) as [a Ha]. unfold mbind, X_bind. by rewrite Ha. Qed.

(** Neither idle and yielded nor idle and waiting. *)
Definition refusing e : Prop := running e = true ∨ finished (status e) = true.

Ltac refuse e H :=
  intros al; exists false;
  unfold vm_execution_poll_tcp, vm_execution_poll_http, vm_execution_poll_console,
    vm_execution_poll_filesystem, vm_execution_pump_server, mbind, X_bind, get;
  destruct H as [H|H]; [by rewrite H|by destruct (running e), (status e)].

Lemma polls_refused e ms :
  refusing e → refused (vm_execution_poll_tcp ms) e ∧ refused (vm_execution_poll_http ms) e ∧
  refused vm_execution_poll_console e ∧ refused vm_execution_poll_filesystem e.
Proof. intros H. split_and!; refuse e H. Qed.

Lemma poll_network_refused e ms : refusing e → refused (vm_execution_poll_network ms) e.
Proof.
  intros H al. destruct (polls_refused e ms H) as (Ht & Hh & Hc & Hf).
  unfold vm_execution_poll_network, mbind at 1, X_bind at 1, get.
  repeat case_bool_decide; eauto.
Qed.

Lemma pump_refused e n ms : refusing e → refused (vm_execution_pump_server n ms) e.
Proof. intros H. refuse e H. Qed.

Lemma completions_refused e m v :
  refusing e → refused (vm_execution_complete_print m) e ∧ refused (vm_execution_complete_read v) e.
Proof.
  intros H. split; intros al; eexists; unfold vm_execution_complete_print, vm_execution_complete_read,
    mbind, X_bind, get; destruct H as [H|H]; [by rewrite H| |by rewrite H|];
    rewrite (bool_decide_false (status e = VM_WAITING)) by (by destruct (status e));
    simpl; by rewrite orb_true_r.
Qed.

Lemma enable_refused e g : refusing e → refused (enable g) e.
Proof.
  intros H al. eexists. unfold enable, mbind, X_bind, get. destruct H as [H|H]; [by rewrite H|].
  rewrite (bool_decide_false (status e = VM_YIELDED)) by (by destruct (status e)).
  simpl. by rewrite orb_true_r.
Qed.

Lemma enable_server_reads_refused e : refusing e → refused vm_execution_enable_server_reads e.
Proof.
  intros H al. unfold vm_execution_enable_server_reads, mbind at 1, X_bind at 1, get.
  destruct (_ || _); [by eexists|by apply enable_refused].
Qed.

Lemma advance_refused e n al :
  (running e = true → vm_execution_advance n e al = (Ret VM_BUSY, e, al)) ∧
  (running e = false → finished (status e) = true → vm_execution_advance n e al = (Ret (status e), e, al)).
Proof.
  unfold vm_execution_advance, resume_shutdown, mbind, X_bind, get. split; [by intros ->|]. intros -> H.
  destruct (status e) eqn:Hs; try done; simpl; by rewrite Hs.
Qed.

Lemma stop_server_running e : running e = true → refused vm_execution_stop_server e.
Proof. intros H al. eexists. unfold vm_execution_stop_server, mbind, X_bind, get. by rewrite H. Qed.

Lemma entry_refused e x :
  refusing e → (stops_server x = true → running e = true) → ∀ al, entry_op x e al = (Ret tt, e, al).
Proof.
  intros H Hst al. destruct x; apply refused_drop; try (by apply enable_refused);
    try (by apply polls_refused); try (by apply (completions_refused e message None));
    try (by apply (completions_refused e None v));
    eauto using poll_network_refused, pump_refused, enable_server_reads_refused, stop_server_running.
  - intros al'. destruct (advance_refused e budget al') as [H1 H2]. destruct (running e) eqn:Hr.
    + eexists. by apply H1.
    + destruct H as [H|H]; [congruence|]. eexists. by apply H2.
  - by apply (polls_refused e 0 H).
  - by apply (polls_refused e 0 H).
Qed.

(** Outcomes are sticky and re-entry is refused.  While the execution runs,
    advance answers VM_BUSY and every entry point leaves the execution as it is;
    once it has completed, trapped or exited, every entry point but the request
    to stop a server leaves it as it is, and advance answers the same outcome
    for any budget. *)
Theorem finished_sticky e al x n :
  (running e = true → vm_execution_advance n e al = (Ret VM_BUSY, e, al) ∧ entry_op x e al = (Ret tt, e, al)) ∧
  (running e = false → finished (status e) = true →
   vm_execution_advance n e al = (Ret (status e), e, al) ∧
   (stops_server x = false → entry_op x e al = (Ret tt, e, al))).
Proof.
  destruct (advance_refused e n al) as [H1 H2]. split.
  - intros Hr. split; [auto|]. apply entry_refused; [by left|done].
  - intros Hr Hf. split; [auto|]. intros Hx. apply entry_refused; [by right|by rewrite Hx].
Qed.

(** ** Completions *)

(** The value was pushed on the innermost frame, which runs again. *)
Definition delivered (v : Value) e (e' : VMExecution W) : Prop :=
  status e' = VM_YIELDED ∧
  match frames e, frames e' with
  | f :: fs, f' :: fs' => same_point f f' ∧ stack f' = v :: stack f ∧ fs' = fs
  | _, _ => False
  end.

Definition trapped (s : string) (e' : VMExecution W) : Prop :=
  status e' = VM_TRAPPED ∧ error (vm e') = Some s ∧ frames e' = [].

(** What a completion does: a value or, without memory for it, a trap. *)
Definition completes (v : Value) e (al : allocator) (e' : VMExecution W) : Prop :=
  delivered v e e' ∨ (trapped out_of_memory e' ∧ false ∈ al).

Lemma deliver_exact m v e al :
  returns m (λ x, x = v) → frames e ≠ [] →
  ∃ e' al', deliver m e al = (Ret tt, e', al') ∧ completes v e al e' ∧ pending e' = pending e.
Proof.
  intros Hm Hne. unfold deliver, mbind, X_bind, top, lift.
  destruct (frames e) as [|f fs] eqn:He; [done|]. destruct (Hm al) as (u & Hu & Ho).
  destruct (m al) as [[x| | | |] al1]; simpl in *; try done; subst.
  - destruct (stack_push_spec f v al1) as (u1 & Hu1 & Ho1). pose proof (stack_push_yields f v al1) as Hy.
    destruct (stack_push f v al1) as [[g| | | |] al2]; simpl in *; try done; subst.
    + eexists _, _. split_and!; [done| |done]. left. split; [done|]. simpl. rewrite He. by destruct Hy.
    + eexists _, _. split_and!; [done| |done]. right. split; [by split_and!|]. set_solver.
  - eexists _, _. split_and!; [done| |done]. right. split; [by split_and!|]. set_solver.
Qed.

Definition accepts_print e : bool :=
  bool_decide (status e = VM_WAITING) && negb (waiting_read (pending e)) &&
  negb (bool_decide (is_Some (server (pending e)))) &&
  negb (bool_decide (is_Some (http_waiting (pending e)))).

Definition accepts_read e : bool :=
  bool_decide (status e = VM_WAITING) && waiting_read (pending e) &&
  negb (bool_decide (is_Some (tcp (pending e)))) && negb (bool_decide (is_Some (http (pending e)))).

Lemma complete_print_exact p e al m :
  wf_execution p e →
  if accepts_print e then
    ∃ e' al', vm_execution_complete_print m e al = (Ret true, e', al') ∧
      match m with Some s => trapped s e' | None => completes Void e al e' end
  else vm_execution_complete_print m e al = (Ret false, e, al).
Proof.
  intros (_ & Hr & Hl). unfold vm_execution_complete_print, accepts_print, mbind, X_bind, get. rewrite Hr.
  case_bool_decide as Hs; simpl; [|done]. rewrite Hs in Hl. destruct (waiting_read _); simpl; [done|].
  case_bool_decide; simpl; [done|]. case_bool_decide; simpl; [done|].
  destruct m as [s|]; [by eexists _, _|].
  destruct (deliver_exact value_void Void (set_error (fault_kind (vm e)) None e) al) as (e' & al' & He & Hc & _).
  - unfold value_void. mbind runs_alloc as ? _. by mret.
  - by destruct Hl as (_ & _ & ? & _).
  - rewrite He. eexists _, _. by split.
Qed.

Lemma complete_read_exact p e al v :
  wf_execution p e →
  if accepts_read e then
    ∃ e' al', vm_execution_complete_read v e al = (Ret true, e', al') ∧ waiting_read (pending e') = false ∧
      match v with
      | Some r => if vm_fake_read_result_valid v then completes r e al e'
                  else trapped "VM trap: invalid async completion type" e'
      | None => trapped out_of_memory e'
      end
  else vm_execution_complete_read v e al = (Ret false, e, al).
Proof.
  intros (_ & Hr & Hl). unfold vm_execution_complete_read, accepts_read, mbind, X_bind, get. rewrite Hr.
  case_bool_decide as Hs; simpl; [|done]. rewrite Hs in Hl. destruct (waiting_read _); simpl; [|done].
  case_bool_decide; simpl; [done|]. case_bool_decide; simpl; [done|].
  destruct v as [r|]; [|by eexists _, _]. destruct (vm_fake_read_result_valid _); [|by eexists _, _].
  destruct (deliver_exact (mret r) r (set_pending (set_waiting_read false (pending e)) e) al)
    as (e' & al' & He & Hc & Hpe).
  - by mret.
  - by destruct Hl as (_ & _ & ? & _).
  - rewrite He. eexists _, _. split_and!; [done|by rewrite Hpe|done].
Qed.

(** The completion calls.  On an execution that satisfies the invariant,
    each call either is refused and changes nothing, or resolves the wait: a
    print acknowledgement pushes Void on the suspended frame, or traps with the
    given diagnostic; a read result of the expected shape is pushed as it is,
    any other value traps.  Which of the two happens is decided by the pending
    state alone, the execution is trapped for lack of memory only if the
    allocator refused, and no state accepts both calls: the two interfaces
    cannot complete each other. *)
Theorem completions_exclusive p e al m v :
  wf_execution p e →
  (if accepts_print e then
     ∃ e' al', vm_execution_complete_print m e al = (Ret true, e', al') ∧
       match m with Some s => trapped s e' | None => completes Void e al e' end
   else vm_execution_complete_print m e al = (Ret false, e, al)) ∧
  (if accepts_read e then
     ∃ e' al', vm_execution_complete_read v e al = (Ret true, e', al') ∧ waiting_read (pending e') = false ∧
       match v with
       | Some r => if vm_fake_read_result_valid v then completes r e al e'
                   else trapped "VM trap: invalid async completion type" e'
       | None => trapped out_of_memory e'
       end
   else vm_execution_complete_read v e al = (Ret false, e, al)) ∧
  accepts_print e && accepts_read e = false.
Proof.
  intros He. split_and!; [by eapply complete_print_exact|by eapply complete_read_exact|].
  unfold accepts_print, accepts_read. destruct (bool_decide (status e = VM_WAITING)), (waiting_read _); simpl;
    by rewrite ?andb_false_r.
Qed.
End lifecycle.

(** ** Closed examples *)

#[local] Instance example_native : Native unit := sample_native (Some 1%positive).

(** [async main] asks for the identity of a root directory and returns Unit. *)
Definition sample_main : Function :=
  mkFunction (str "main") false true false []
    [OP_CONST (CText (str "/srv")); OP_AWAIT_CALL (str "fs_root_identity_async") 1; OP_RETURN].
Definition sample_program : Program := mkProgram [sample_main] true.

Definition sample_vm : VM unit :=
  mkVM sample_program false None VM_FAULT_FATAL ∅ 1%positive tt.

(** The profile of an execution that may read files. *)
Definition file_profile : Profile unit := mkProfile true None None None false false false true false.

(** The outcome of an allocator that never refuses, when there is one. *)
Definition final {A} (r : outcome A * VMExecution unit * allocator) : option (A * VMExecution unit) :=
  match r with (Ret a, e, _) => Some (a, e) | _ => None end.

Definition created (r : outcome (VMExecution unit) * VM unit * allocator) : option (VMExecution unit) :=
  match r with (Ret e, _, _) => Some e | _ => None end.

(** The execution created, and the one that waits for the file service. *)
Definition sample_start : option (VMExecution unit) :=
  created (create sample_vm sample_main [] file_profile []).
Definition sample_wait : option (VMExecution unit) :=
  e ← sample_start; snd <$> final (vm_execution_advance 10 e []).

(** A print acknowledgement can resolve a file wait.  The execution below
    has advanced into [fs_root_identity_async] and waits for the file service;
    the call that acknowledges prints is accepted, pushes Void where the program
    expects the service's result and resumes the execution, while the file
    request stays pending.  The comment at the poll function says that the other
    completion entry points cannot inject a result into this wait. *)
Example print_completes_file_wait :
  (λ e, (status e, root_read (pending e))) <$> sample_wait = Some (VM_WAITING, Some 1%positive) ∧
  (r ← (e ← sample_wait; final (vm_execution_complete_print None e []));
   Some (r.1, status r.2, root_read (pending r.2), stack <$> frames r.2)) =
  Some (true, VM_YIELDED, Some 1%positive, [[Void]]).
Proof. split; vm_compute; reflexivity. Qed.

(** The verifier accepts the program as it stands, so the invariant applies. *)
Lemma sample_verified : verify sample_program = Ret sample_program.
Proof. vm_compute. reflexivity. Qed.

Lemma sample_well_formed : well_formed sample_program.
Proof.
  destruct (verify_spec sample_program) as (q & _ & [[Hwf Hq]|[_ [s Hq]]]); [decide_now| |].
  - rewrite sample_verified in Hq. by injection Hq as <-.
  - by rewrite sample_verified in Hq.
Qed.

Lemma sample_started : ∃ e v, create sample_vm sample_main [] file_profile [] = (Ret e, v, []) ∧ ready e.
Proof. eexists _, _. split; [reflexivity|by split_and!]. Qed.

Lemma sample_in : sample_main ∈ functions (program sample_vm).
Proof. constructor. Qed.

Lemma execution_invariant_witness :
  ∃ e v, create sample_vm sample_main [] file_profile [] = (Ret e, v, []) ∧ wf_execution sample_program e.
Proof.
  destruct sample_started as (e & v & Hc & _). exists e, v. split; [done|].
  apply (execution_invariant sample_vm sample_main [] file_profile [] e v [] e
           (sample_native_handler _) sample_well_formed sample_in Hc (rtc_refl _ e)).
Defined.

Lemma advance_slices_witness :
  ∃ e, ready e ∧ ∃ k, (k ≤ 10)%nat ∧ vm_execution_advance 10 e [] = slices k e [].
Proof.
  destruct sample_started as (e & v & _ & Hr & Hs & He). exists e. split; [done|].
  apply (advance_slices 10 e [] (sample_native_handler _) Hr Hs He).
Defined.

Definition sample_trapped : VMExecution unit :=
  fail_wait "stop" (mkExecution sample_vm [] 0 VM_WAITING None 0 false file_profile no_pending false).

Lemma finished_sticky_witness :
  finished (status sample_trapped) = true ∧
  vm_execution_advance 5 sample_trapped [] = (Ret VM_TRAPPED, sample_trapped, []).
Proof.
  split; [done|].
  exact (proj1 (proj2 (finished_sticky sample_trapped [] EnableTcp 5) eq_refl eq_refl)).
Defined.

Lemma completions_exclusive_witness :
  ∃ e : VMExecution unit, wf_execution sample_program e ∧ vm_execution_complete_read None e [] = (Ret false, e, []).
Proof.
  destruct sample_started as (e & v & Hc & Hr & Hs & He). exists e.
  apply (create_wf _ _ _ _ _ _ _ _ sample_in) in Hc as (Hw & _ & _).
  split; [done|]. pose proof (completions_exclusive sample_program e [] None None Hw) as (_ & H & _).
  revert H. unfold accepts_read. by rewrite (bool_decide_false _) by (by rewrite Hs).
Defined.
