(* ===== verification/Effects.v ===== *)
(** * Effects: frames and the world during a run

    One instruction touches one frame, and code that runs below a pure function
    cannot reach a service: the run-time check of indirect calls extends the
    static effect discipline of the verifier to callables chosen at run time. *)

From Stdlib Require Import ZArith Lia.
From stdpp Require Import prelude gmap strings relations.
From S2P Require Import Prelude Bigint Value Program Builtins Verify Collections Execute Frames Control.
From S2P Require Import Execution Lifecycle.

(** ** Computations that stay inside the interpreter *)

(** The world is not touched and the execution neither suspends nor exits. *)
Definition unseen {W} (e e' : VMExecution W) : Prop :=
  world (vm e') = world (vm e) ∧ (status e' = status e ∨ status e' = VM_COMPLETED).

Definition quiet {W A} (m : X W A) : Prop := ∀ e, ends m e (λ _ e', unseen e e') (unseen e).

Lemma unseen_refl {W} (e : VMExecution W) : unseen e e.
Proof. split; auto. Qed.

Lemma unseen_trans {W} (e e' e'' : VMExecution W) : unseen e e' → unseen e' e'' → unseen e e''.
Proof. intros [H1 H2] [H3 H4]. split; [congruence|]. intuition congruence. Qed.

Section quiet_rules.
Context {W A B : Type}.

Lemma quiet_ret (a : A) : quiet (mret a : X W A).
Proof. intros e al. apply unseen_refl. Qed.
Lemma quiet_lift (m : M A) : quiet (lift m : X W A).
Proof. intros e al. unfold lift. destruct (m al) as [[] al']; try done; apply unseen_refl. Qed.
Lemma quiet_raise s : quiet (raise s : X W A).
Proof. intros e al. apply unseen_refl. Qed.
Lemma quiet_get : quiet (get : X W _).
Proof. intros e al. apply unseen_refl. Qed.
Lemma quiet_top : quiet (top : X W _).
Proof. intros e al. unfold top. destruct (frames e); [done|apply unseen_refl]. Qed.
Lemma quiet_set_top f : quiet (set_top f : X W _).
Proof. intros e al. split; auto. Qed.
Lemma quiet_fresh : quiet (fresh : X W _).
Proof. intros e al. split; auto. Qed.
Lemma quiet_heap its : quiet (update (λ e, set_heap (its e) (next_ref (vm e)) e) : X W unit).
Proof. intros e al. split; auto. Qed.
Lemma quiet_frames fs : quiet (update (λ e, set_frames (fs e) e) : X W unit).
Proof. intros e al. split; auto. Qed.
Lemma quiet_capacity n : quiet (update (set_capacity n) : X W unit).
Proof. intros e al. split; auto. Qed.
Lemma quiet_result r : quiet (update (set_result r) : X W unit).
Proof. intros e al. split; auto. Qed.
Lemma quiet_completed : quiet (update (set_status VM_COMPLETED) : X W unit).
Proof. intros e al. split; simpl; auto. Qed.
Lemma quiet_bind (m : X W A) (k : A → X W B) : quiet m → (∀ a, quiet (k a)) → quiet (x ← m; k x).
Proof.
  intros Hm Hk e. eapply ends_bind; [apply Hm|]. cbn beta. intros a e1 H.
  eapply ends_mono; [apply Hk| |]; cbn beta; eauto using unseen_trans.
Qed.
End quiet_rules.

Create HintDb quiet discriminated.
#[export] Hint Resolve quiet_ret quiet_lift quiet_raise quiet_get quiet_top quiet_set_top quiet_fresh
  quiet_heap quiet_frames quiet_capacity quiet_result quiet_completed : quiet.

Ltac quiet :=
  repeat first
    [ progress auto with quiet
    | apply quiet_bind; [|intros]
    | match goal with
      | |- quiet (if ?b then _ else _) => destruct b
      | |- quiet (match ?x with _ => _ end) => destruct x
      end ].

Section effects.
Context {W : Type} `{!Native W}.
Implicit Types (e : VMExecution W) (b : Builtin).

(** What purity promises of the handlers the interpreter only calls: they read
    the world but leave it as it is. *)
Definition pure_native : Prop :=
  ∀ b args w, b ∈ BUILTINS → bpure b = true →
    snd (native_call (bcall b) (str (bname b)) args w) = w.

Lemma on_top_quiet op : quiet (on_top op : X W unit).
Proof. unfold on_top. quiet. Qed.

Lemma frame_push_quiet g args : quiet (frame_push g args : X W unit).
Proof. unfold frame_push. quiet. Qed.
Hint Resolve on_top_quiet frame_push_quiet : quiet.

Lemma op_return_quiet : quiet (op_return : X W unit).
Proof. unfold op_return. quiet. Qed.
Lemma op_make_range_quiet : quiet (op_make_range : X W unit).
Proof. unfold op_make_range. quiet. Qed.
Lemma op_iter_init_quiet name : quiet (op_iter_init name : X W unit).
Proof. unfold op_iter_init. quiet. Qed.
Lemma op_iter_next_quiet n1 n2 t : quiet (op_iter_next n1 n2 t : X W unit).
Proof. unfold op_iter_next. quiet. Qed.
Hint Resolve op_return_quiet op_make_range_quiet op_iter_init_quiet op_iter_next_quiet : quiet.

(** No service is pure. *)
Definition service_names : list string :=
  ["http_connection_continue"; "http_listen_ordinary"; "http_listen_contextual"; "http_close";
   "http_destroy"; "http_connection_invoke"; "tcp_service"; "host_arguments_async"; "host_exit_async";
   "host_stdout_async"; "host_stderr_async"; "fs_read_beneath_async"; "fs_root_identity_async";
   "$tcp_serve"; "$tcp_serve_stream"; "$tcp_server_read_chunk"; "$tcp_exchange";
   "$http_transport_exchange"; "async_fake_read"; "process_exit"]%string.

Lemma pure_not_service b :
  b ∈ BUILTINS → bpure b = true → Forall (λ s, named b s = false) service_names.
Proof.
  intros Hin Hp.
  assert (forallb (λ b, implb (bpure b) (forallb (λ s, negb (named b s)) service_names)) BUILTINS = true)
    as H by (vm_compute; reflexivity).
  rewrite List.forallb_forall in H. specialize (H b). rewrite Hp in H. cbn [implb] in H.
  rewrite list_elem_of_In in Hin. specialize (H Hin).
  apply Forall_forall. intros s Hs. rewrite List.forallb_forall in H.
  apply negb_true_iff, (H s). by apply list_elem_of_In.
Qed.

Lemma builtin_call_quiet b args : pure_native → b ∈ BUILTINS → bpure b = true → quiet (builtin_call b args).
Proof.
  intros Hpn Hb Hp. pose proof (λ w, Hpn b args w Hb Hp) as Hw. unfold builtin_call.
  destruct (bcall b); try (by auto with quiet); intros e al; unfold native_outcome;
    specialize (Hw (world (vm e))); destruct (native_call _ _ _ _) as [[] w]; simpl in Hw; subst; try done;
    split; auto.
Qed.

Lemma execution_builtin_quiet b args :
  pure_native → b ∈ BUILTINS → bpure b = true → quiet (execution_builtin b args).
Proof.
  intros Hpn Hb Hp. pose proof (pure_not_service b Hb Hp) as Hn. unfold service_names in Hn.
  repeat (apply Forall_cons_1 in Hn as [? Hn]).
  unfold execution_builtin, called_function. apply quiet_bind; [auto with quiet|]. intros e.
  repeat match goal with H : named b _ = false |- _ => rewrite H; clear H end. simpl.
  rewrite Hp, orb_true_r. simpl. apply quiet_bind; [by apply builtin_call_quiet|]. auto with quiet.
Qed.

Lemma push_reply_quiet b v : quiet (push_reply b v : X W unit).
Proof. unfold push_reply. quiet. Qed.

(** From a pure caller the checks let only pure callees through. *)
Lemma edge_pure_builtin caller b awaited :
  pure caller = true → edge_ok caller (Some b) None awaited = true → bpure b = true.
Proof.
  unfold edge_ok, verify_call_edge. intros Hp. rewrite Hp, andb_false_r.
  by destruct awaited; [|rewrite andb_true_iff; intros [_ ?]].
Qed.

(** Run a pure step of the interpreter, keeping what it says of its value. *)
Ltac ypure H p :=
  eapply ends_bind; [eapply ends_pure; [eapply H|by split; auto]|]; intros ? ? [p ->].

Lemma builtin_reply_quiet b args :
  pure_native → b ∈ BUILTINS → bpure b = true → quiet (v ← execution_builtin b args; push_reply b v).
Proof.
  intros. apply quiet_bind; [by apply execution_builtin_quiet|]. intros. apply push_reply_quiet.
Qed.

Lemma quiet_from {A} (m : X W A) e e1 :
  quiet m → unseen e e1 → ends m e1 (λ _ e', unseen e e') (unseen e).
Proof. intros Hm He. eapply ends_mono; [apply Hm| |]; cbn beta; eauto using unseen_trans. Qed.

Lemma op_call_pure e f fs name arity awaited :
  pure_native → frames e = f :: fs → pure (function f) = true →
  ends (op_call name arity awaited) e (λ _ e', unseen e e') (unseen e).
Proof.
  intros Hpn He Hp. unfold op_call. ypure @yields_any ipattern:(_).
  eapply ends_bind; [by eapply ends_top|]. intros ? ? [-> ->].
  ypure pop_values_yields ipattern:([[Hf _] _]). destruct a0 as [args g]. simpl in Hf.
  eapply ends_bind; [by eapply set_top_ends|]. intros _ ? ->. xget. simpl. rewrite Hf.
  destruct (builtin name) as [b|] eqn:Hb.
  - destruct (_ || _) eqn:Hc; [by apply ends_raise; split; auto|].
    apply orb_false_iff in Hc as [_ Hc%negb_false_iff]. apply quiet_from; [|by split; auto].
    apply builtin_reply_quiet; eauto using builtin_in, edge_pure_builtin.
  - destruct (lookup_function _ name); [|by apply ends_raise; split; auto].
    destruct (_ || _); [by apply ends_raise; split; auto|].
    apply quiet_from; [apply frame_push_quiet|by split; auto].
Qed.

Lemma op_call_value_pure e f fs arity awaited :
  pure_native → frames e = f :: fs → pure (function f) = true →
  ends (op_call_value arity awaited) e (λ _ e', unseen e e') (unseen e).
Proof.
  intros Hpn He Hp. unfold op_call_value. ypure @yields_any ipattern:(_).
  eapply ends_bind; [by eapply ends_top|]. intros ? ? [-> ->].
  ypure pop_values_yields ipattern:([[Hf _] _]). destruct a0 as [args g]. simpl in Hf.
  ypure stack_pop_yields ipattern:([[Hf' _] _]). destruct a0 as [callable h]. simpl in Hf'.
  eapply ends_bind; [by eapply set_top_ends|]. intros _ ? ->.
  destruct callable; try (by apply ends_raise; split; auto).
  ypure @yields_any ipattern:(_). xget. simpl. rewrite Hf', Hf.
  destruct (builtin (data t)) as [b|] eqn:Hb.
  - destruct (negb _); [by apply ends_raise; split; auto|].
    destruct (_ || _) eqn:Hc; [by apply ends_raise; split; auto|].
    apply orb_false_iff in Hc as [_ Hc%negb_false_iff]. apply quiet_from; [|by split; auto].
    apply builtin_reply_quiet; eauto using builtin_in, edge_pure_builtin.
  - destruct (lookup_function _ (data t)); [|by apply ends_raise; split; auto].
    destruct (negb (Nat.eqb _ _)); [by apply ends_raise; split; auto|].
    destruct (_ || _); [by apply ends_raise; split; auto|].
    apply quiet_from; [apply frame_push_quiet|by split; auto].
Qed.

Lemma dispatch_pure i e f fs :
  pure_native → frames e = f :: fs → pure (function f) = true →
  ends (dispatch i) e (λ _ e', unseen e e') (unseen e).
Proof.
  intros Hpn He Hp. destruct i; simpl; try (by eapply op_call_pure); try (by eapply op_call_value_pure);
    first [apply on_top_quiet | apply op_return_quiet | apply op_make_range_quiet | apply op_iter_init_quiet
          | apply op_iter_next_quiet | apply quiet_raise].
Qed.

Lemma step_pure e f fs :
  pure_native → frames e = f :: fs → pure (function f) = true →
  ends step e (λ _ e', unseen e e') (unseen e).
Proof.
  intros Hpn He Hp. unfold step. eapply ends_bind; [by eapply ends_top|]. intros ? ? [-> ->].
  destruct (ins (function f) !! pc f) as [i|]; [|by apply ends_raise; split; auto].
  eapply ends_bind; [by eapply set_top_ends|]. intros _ ? ->.
  eapply ends_mono; [by eapply dispatch_pure|done..].
Qed.

(** ** Pure functions *)

(** An instruction executed while more than [d] frames are active. *)
Definition inside (d : nat) e e' : Prop :=
  (d < length (frames e))%nat ∧ status e = VM_YIELDED ∧ ∃ al al', step e al = (Ret tt, e', al').

(** The frames above [fs] belong to pure functions, or are gone. *)
Definition pure_above (fs : list Frame) e : Prop :=
  (∃ ps, frames e = ps ++ fs ∧ Forall (λ f, pure (function f) = true) ps) ∨
  (length (frames e) ≤ length fs)%nat.

Lemma effect_pure_above p w i f fs0 fs ps l :
  pure (function f) = true → Forall (λ f, pure (function f) = true) ps → fs0 = ps ++ fs →
  frame_effect p w i f fs0 l →
  (∃ ps, l = ps ++ fs ∧ Forall (λ f, pure (function f) = true) ps) ∨ (length l ≤ length fs)%nat.
Proof.
  intros Hf Hps -> Heff. destruct Heff as [f' (Hf' & _)|f' name args g h [(Hf' & _) _] _ _ _ [Hg _] (Hh & _)
    |f' name args b g cargs w' h [(Hf' & _) _] _ _ _ _ [Hg _] (Hh & _)| |v rest c c' fs' _ _ Hc (Hf' & _)].
  - left. exists (f' :: ps). split; [done|]. constructor; [by rewrite Hf'|done].
  - left. exists (h :: f' :: ps). split; [done|]. repeat constructor; [rewrite Hh; auto|by rewrite Hf'|done].
  - left. exists (h :: f' :: ps). split; [done|]. repeat constructor; [rewrite Hh; auto|by rewrite Hf'|done].
  - right. simpl. lia.
  - destruct ps as [|q ps].
    + right. simpl in Hc. rewrite Hc. simpl. lia.
    + left. simplify_eq/=. inversion_clear Hps as [|?? Hq Hps']. exists (c' :: ps). split; [done|].
      constructor; [by rewrite Hf'|done].
Qed.

Lemma inside_pure e e' fs :
  handler_ok → pure_native → pure_above fs e → inside (length fs) e e' →
  pure_above fs e' ∧ unseen e e'.
Proof.
  intros Hok Hpn Hab (Hlen & Hs & al & al' & Hst). destruct Hab as [(ps & He & Hps)|Hle]; [|lia].
  destruct ps as [|f ps]; [rewrite He in Hlen; simpl in Hlen; lia|].
  inversion_clear Hps as [|?? Hf Hps']. simpl in He.
  pose proof (step_pure e f (ps ++ fs) Hpn He Hf al) as Hu. rewrite Hst in Hu. split; [|done].
  destruct (ins (function f) !! pc f) as [i|] eqn:Hi.
  - pose proof (step_transition e f (ps ++ fs) i Hok He Hs Hi al) as Ht. rewrite Hst in Ht.
    destruct Ht as [Hfr _ _ _ _ _]. by eapply (effect_pure_above _ _ _ (set_pc (S (pc f)) f)).
  - unfold step, mbind, X_bind, top in Hst. by rewrite He, Hi in Hst.
Qed.

(** C3: Pure functions have no effects, whatever they call.  From the moment a
    frame of a pure function is the innermost one until it returns, through any
    number of instructions, direct calls and calls of callables chosen at run
    time, every frame above it belongs to a pure function, the world outside the
    interpreter is not touched, and the execution neither suspends nor exits. *)
Theorem pure_function_effects e f fs e' :
  handler_ok → pure_native → frames e = f :: fs → pure (function f) = true →
  status e = VM_YIELDED → rtc (inside (length fs)) e e' →
  world (vm e') = world (vm e) ∧ (status e' = VM_YIELDED ∨ status e' = VM_COMPLETED) ∧ pure_above fs e'.
Proof.
  intros Hok Hpn He Hf Hs Hr. assert (pure_above fs e) as Hab.
  { left. exists [f]. split; [done|]. by constructor. }
  clear He Hf. revert Hs Hab. induction Hr as [e|e e1 e' Hin Hr IH]; intros Hs Hab; [auto|].
  destruct (inside_pure e e1 fs Hok Hpn Hab Hin) as [Hab1 [Hw Hst1]].
  destruct Hst1 as [Hs1|Hc]; [rewrite Hs in Hs1|].
  - destruct (IH Hs1 Hab1) as (Hw' & ? & ?). split_and!; [congruence|done..].
  - inversion Hr as [|? ? ? Hin' Hr']; subst; [split_and!; auto|].
    destruct Hin' as (_ & Hs' & _). congruence.
Qed.
End effects.

(** ** A closed example *)

Section example.
#[local] Instance effects_native : Native unit := sample_native None.

Lemma sample_pure_native : pure_native (W:=unit).
Proof. by intros b args []. Qed.

Lemma pure_function_effects_witness :
  world (vm pure_next) = tt ∧ status pure_next = VM_YIELDED ∧ pure_above [] pure_next.
Proof.
  assert (rtc (inside 0) pure_start pure_next) as Hr.
  { apply rtc_once. split; [simpl; lia|]. split; [done|]. exists [], []. exact pure_start_step. }
  destruct (pure_function_effects pure_start (mkFrame pure_sample 0 [] 0 [] 0) [] pure_next
              (sample_native_handler None) sample_pure_native eq_refl eq_refl eq_refl Hr) as (Hw & _ & Ha).
  by split_and!.
Defined.
End example.
