(* ===== verification/Iteration.v ===== *)
(** * Iteration: what the iterator instructions enumerate

    An iterator is a mutable object shared by every copy of its value; each
    OP_ITER_NEXT takes the first of the values that remain. *)

From Stdlib Require Import ZArith Lia.
From stdpp Require Import prelude gmap strings.
From S2P Require Import Prelude Bigint Value Decimals Equal Numeric Program Execute Frames.

(** ** What remains *)

(** The meanings of the elements of an iterable, from its [k]-th on, for a
    range from the cursor [c] on. *)
Definition elements_from (a : Value) (c k : Z) : list meaning :=
  match a with
  | Range _ _ stop => MInt V_NAT <$> seqZ c (to_Z stop - c)
  | Array items => denote <$> drop (Z.to_nat k) items
  | Bytes s => MInt V_NAT <$> drop (Z.to_nat k) s
  | _ => []
  end.

(** What an iterator has still to give. *)
Definition remaining (it : Iterator) : list meaning :=
  elements_from (iterable it) (to_Z (cursor it)) (index it).

Definition is_iterable (a : Value) : bool :=
  match a with Range _ _ _ | Array _ | Bytes _ => true | _ => false end.

Definition wf_iterator (it : Iterator) : Prop :=
  0 ≤ index it ∧
  match iterable it with
  | Range _ _ stop => wf_number (cursor it) ∧ 0 ≤ to_Z (cursor it) ∧ wf_number stop
  | Bytes s => Forall is_byte s
  | _ => True
  end.

(** The values of successive OP_ITER_NEXT, at most [n] of them. *)
Fixpoint drain (n : nat) (it : Iterator) : M (list Value) :=
  match n with
  | O => mret []
  | S n =>
      next ← iterator_next it;
      match next with
      | None => mret []
      | Some (v, it) => vs ← drain n it; mret (v :: vs)
      end
  end.

(** ** Proofs *)

(** One step gives the first element that remains. *)
Definition next_ok (it : Iterator) (r : option (Value * Iterator)) : Prop :=
  match r with
  | None => remaining it = []
  | Some (v, it') => wf_iterator it' ∧ iterable it' = iterable it ∧ remaining it = denote v :: remaining it'
  end.

Lemma drop_cons {A} (l : list A) k x :
  0 ≤ k → l !! Z.to_nat k = Some x → drop (Z.to_nat k) l = x :: drop (Z.to_nat (k + 1)) l.
Proof.
  intros Hk Hx. rewrite (drop_S _ x) by done. f_equal. f_equal. lia.
Qed.

Lemma next_range_ok it r s stop E :
  iterable it = Range r s stop → wf_iterator it → runs (iterator_next it) (next_ok it) E.
Proof.
  intros Hi [Hk Hw]. unfold iterator_next. rewrite Hi in Hw |- *. destruct Hw as ([Wc Sc] & Hc & [Ws Ss]).
  rewrite compare_spec by done. apply runs_if; intros Hb.
  - mret. unfold next_ok, remaining. rewrite Hi. simpl. rewrite seqZ_nil; [done|]. zbool. lia.
  - assert (to_Z (cursor it) < to_Z stop) as Hlt by (zbool; lia).
    eapply (runs_bind _ _ (λ v, v = Nat_ (cursor it))).
    { apply value_big_spec; [|done]. eapply sized_mono; [done|clia]. }
    intros ? ->. eapply runs_bind; [apply add_small_spec; [done..|eapply sized_mono; [done|unfold limit; clia]|done]|].
    intros c (Wc' & Hc' & _). mret. unfold next_ok, remaining, wf_iterator. rewrite Hi. simpl.
    rewrite Hc'. split_and!; try done; [|lia|].
    + split; [done|]. eapply (sized_abs_le _ stop); [clia|done..|]. lia.
    + rewrite seqZ_cons by lia. simpl. f_equal. f_equal. f_equal; lia.
Qed.

Lemma next_array_ok it items E :
  iterable it = Array items → wf_iterator it → runs (iterator_next it) (next_ok it) E.
Proof.
  intros Hi [Hk _]. unfold iterator_next. rewrite Hi. apply runs_if; intros Hb; zbool.
  - mret. unfold next_ok, remaining. rewrite Hi. simpl. by rewrite drop_ge by lia.
  - destruct (lookup_lt_is_Some_2 items (Z.to_nat (index it))) as [x Hx]; [lia|].
    eapply (runs_bind _ _ (λ v, v = x)); [by eapply runs_rd|]. intros ? ->. mret.
    unfold next_ok, remaining, wf_iterator. rewrite Hi. simpl. split_and!; try done; [lia|].
    by rewrite (drop_cons items _ x) by done.
Qed.

Lemma next_bytes_ok it s E :
  iterable it = Bytes s → wf_iterator it → runs (iterator_next it) (next_ok it) E.
Proof.
  intros Hi [Hk Hw]. unfold iterator_next. rewrite Hi in Hw |- *. apply runs_if; intros Hb; zbool.
  - mret. unfold next_ok, remaining. rewrite Hi. simpl. by rewrite drop_ge by lia.
  - destruct (lookup_lt_is_Some_2 s (Z.to_nat (index it))) as [x Hx]; [lia|].
    pose proof (Forall_lookup_1 _ _ _ _ Hw Hx) as Hbx. unfold is_byte in Hbx.
    eapply (runs_bind _ _ (λ v, v = x)); [by eapply runs_rd|]. intros ? ->.
    eapply (runs_bind _ _ (λ v, denote v = MInt V_NAT x)).
    { unfold value_size. eapply runs_bind; [apply from_u64_spec; clia|]. intros n (Wn & Hn & Sn).
      apply value_big_spec; [eapply sized_mono; [done|clia]|]. simpl. by rewrite Hn. }
    intros v Hv. mret. unfold next_ok, remaining, wf_iterator. rewrite Hi. simpl.
    split_and!; try done; [lia|]. by rewrite (drop_cons s _ x), Hv by done.
Qed.

Lemma iterator_next_ok it E :
  is_iterable (iterable it) = true → wf_iterator it → runs (iterator_next it) (next_ok it) E.
Proof.
  intros Hi Hw. destruct (iterable it) eqn:Ha; try done;
    eauto using next_range_ok, next_array_ok, next_bytes_ok.
Qed.

(** C33: Iteration.  On a well-formed iterator over a range, an array or a byte
    string, OP_ITER_NEXT always answers (unless the allocator refuses): it ends
    exactly when nothing remains, and otherwise gives the first element that
    remains and leaves an iterator over the others.  Hence the loop over an
    iterable terminates, after as many steps as there are elements, having given
    exactly the elements in order: the numbers from the start of a range up to
    but not including its end, the items of an array, the bytes of a byte string.
    Any other value traps. *)
Theorem iteration_exhausts it n :
  wf_iterator it →
  (is_iterable (iterable it) = true →
   runs (iterator_next it) (next_ok it) no_trap ∧
   ((length (remaining it) < n)%nat → returns (drain n it) (λ vs, denote <$> vs = remaining it))) ∧
  (is_iterable (iterable it) = false →
   ∀ al, iterator_next it al = (Trap VM_FAULT_FATAL "VM trap: value is not iterable", al)).
Proof.
  intros Hw. split.
  - intros Hi. split; [by apply iterator_next_ok|]. revert it Hw Hi.
    induction n as [|n IH]; intros it Hw Hi Hn; [lia|]. cbn [drain].
    eapply runs_bind; [by apply iterator_next_ok|]. intros [[v it']|]; simpl.
    + intros (Hw' & Hi' & Hr). rewrite Hr in Hn |- *. simpl in Hn.
      eapply runs_bind; [apply IH; [done|by rewrite Hi'|lia]|]. intros vs Hvs. mret. by rewrite fmap_cons, Hvs.
    + intros Hr. mret. by rewrite Hr.
  - intros Hi al. unfold iterator_next. by destruct (iterable it).
Qed.

Lemma iteration_exhausts_witness :
  wf_iterator (mkIterator (Array [Void; Bool_ true]) pn_big_init 0) ∧
  returns (drain 3 (mkIterator (Array [Void; Bool_ true]) pn_big_init 0))
    (λ vs, denote <$> vs = [MUnit V_VOID; MBool true]).
Proof.
  assert (wf_iterator (mkIterator (Array [Void; Bool_ true]) pn_big_init 0)) as H by (split; simpl; lia || done).
  split; [done|]. apply (iteration_exhausts _ 3 H); [done|simpl; lia].
Defined.
