(* ===== verification/Tasks.v ===== *)
(** * Structured tasks: src/src/vm/tasks.h and tasks.c

    A session admits a bounded number of tasks, runs their executions round
    robin one instruction at a time, delivers completions through a bounded
    ring, cancels at deadlines, and joins children before their parent ends.
    The session is a client of executions: it is written against the class
    [Executor], which [TaskExecutor] instantiates with the interpreter.

    Sessions are modelled without coverage runs. *)

From Stdlib Require Import ZArith Lia.
From stdpp Require Import prelude gmap strings.
From S2P Require Import Prelude Bigint Value Program Execute.

(** ** Data *)

Record VMTaskId := mkTaskId { session : Z; id_slot : nat }.
Record VMOperationId := mkOperationId { op_task : VMTaskId; op_generation : Z }.

Inductive VMTaskStatus :=
| TASK_INVALID | TASK_READY | TASK_WAITING | TASK_JOINING | TASK_COMPLETED | TASK_TRAPPED | TASK_EXITED
| TASK_CANCELLED.

#[global] Instance VMTaskStatus_eq_dec : EqDecision VMTaskStatus.
Proof. solve_decision. Defined.
#[global] Instance VMTaskId_eq_dec : EqDecision VMTaskId.
Proof. solve_decision. Defined.

(** The part of a task, and of its session, that the wait callback writes. *)
Record Request := mkRequest {
  pending : bool;
  queued : bool;
  input : option Value;
  generation : Z;
  registered : Z;
}.

Definition request_limit : string := "task pending-operation limit reached".

Definition register_request (v : Value) (r : Request) : bool * option string * Request :=
  if pending r || (generation r =? UINT64_MAX) || (registered r =? SIZE_MAX)
  then (false, Some request_limit, r)
  else (true, None, mkRequest true (queued r) (Some v) (generation r + 1) (registered r + 1)).

(** ** Executions as the session sees them

    [exec_create] makes the execution of an asynchronous function with a read
    wait and of any other function with a print wait, both calling
    [register_request]; [exec_advance] runs one instruction. *)
Class Executor (E : Type) := {
  exec_create : Function → list Value → M E;
  exec_advance : E → Request → M (VMExecutionStatus * E * Request);
  exec_complete_read : E → option Value → M E;
  exec_complete_print : E → option string → M E;
  exec_error : E → option string;
  exec_result : E → option Value;
  exec_exit_status : E → Z;
}.

(** What a session relies on: executions of an [admissible] function satisfy an
    invariant [exec_ok] that every call keeps, and an instruction touches the
    request only by registering one. *)
Inductive registers : Request → Request → Prop :=
| registers_ok v r r' : register_request v r = (true, None, r') → registers r r'.

Class ExecutorLaws (E : Type) `{!Executor E} := {
  exec_ok : E → Prop;
  admissible : Function → Prop;
  create_ok g args : admissible g → yields (exec_create g args) exec_ok;
  advance_ok e r : exec_ok e →
    yields (exec_advance e r) (λ x, exec_ok x.1.2 ∧ (x.2 = r ∨ registers r x.2));
  complete_read_ok e v : exec_ok e → yields (exec_complete_read e v) exec_ok;
  complete_print_ok e m : exec_ok e → yields (exec_complete_print e m) exec_ok;
}.

(** ** Sessions *)

Record Task (E : Type) := mkTask {
  execution : option E;
  slot : nat;
  parent : nat;
  deadline : Z;
  task_status : VMTaskStatus;
  task_outcome : VMTaskStatus;
  task_result : option Value;
  task_error : option string;
  task_exit_status : Z;
  request_pending : bool;
  request_queued : bool;
  request_input : option Value;
  request_generation : Z;
  async_read : bool;
}.
Arguments mkTask {_}. Arguments execution {_}. Arguments slot {_}. Arguments parent {_}.
Arguments deadline {_}. Arguments task_status {_}. Arguments task_outcome {_}.
Arguments task_result {_}. Arguments task_error {_}. Arguments task_exit_status {_}.
Arguments request_pending {_}. Arguments request_queued {_}. Arguments request_input {_}.
Arguments request_generation {_}. Arguments async_read {_}.

Record Completion := mkCompletion {
  operation : VMOperationId;
  completion_error : option string;
  completion_result : option Value;
}.

(** The slots in use, in creation order ([count] is their number); the ring of
    completions is an array of [event_capacity] entries. *)
Record VMTasks (E : Type) := mkTasks {
  tasks : list (Task E);
  capacity : nat;
  events : list Completion;
  event_head : nat;
  event_count : nat;
  cursor : nat;
  identity : Z;
  now : Z;
  total_registered : Z;
  total_released : Z;
  pumping : bool;
}.
Arguments mkTasks {_}. Arguments tasks {_}. Arguments capacity {_}. Arguments events {_}.
Arguments event_head {_}. Arguments event_count {_}. Arguments cursor {_}. Arguments identity {_}.
Arguments now {_}. Arguments total_registered {_}. Arguments total_released {_}. Arguments pumping {_}.

Section model.
Context {E : Type} `{!Executor E}.
Implicit Types (ts : VMTasks E) (t : Task E).

(** *** Field updates *)

Definition set_tasks (l : list (Task E)) ts := mkTasks l (capacity ts) (events ts) (event_head ts)
  (event_count ts) (cursor ts) (identity ts) (now ts) (total_registered ts) (total_released ts)
  (pumping ts).
Definition set_released (n : Z) ts := mkTasks (tasks ts) (capacity ts) (events ts) (event_head ts)
  (event_count ts) (cursor ts) (identity ts) (now ts) (total_registered ts) n (pumping ts).
Definition set_registered (n : Z) ts := mkTasks (tasks ts) (capacity ts) (events ts) (event_head ts)
  (event_count ts) (cursor ts) (identity ts) (now ts) n (total_released ts) (pumping ts).
Definition set_ring (l : list Completion) (head count : nat) ts := mkTasks (tasks ts) (capacity ts) l head
  count (cursor ts) (identity ts) (now ts) (total_registered ts) (total_released ts) (pumping ts).
Definition set_cursor (n : nat) ts := mkTasks (tasks ts) (capacity ts) (events ts) (event_head ts)
  (event_count ts) n (identity ts) (now ts) (total_registered ts) (total_released ts) (pumping ts).
Definition set_now (n : Z) ts := mkTasks (tasks ts) (capacity ts) (events ts) (event_head ts)
  (event_count ts) (cursor ts) (identity ts) n (total_registered ts) (total_released ts) (pumping ts).
Definition set_pumping (b : bool) ts := mkTasks (tasks ts) (capacity ts) (events ts) (event_head ts)
  (event_count ts) (cursor ts) (identity ts) (now ts) (total_registered ts) (total_released ts) b.

Definition set_task_status (s : VMTaskStatus) t := mkTask (execution t) (slot t) (parent t) (deadline t) s
  (task_outcome t) (task_result t) (task_error t) (task_exit_status t) (request_pending t)
  (request_queued t) (request_input t) (request_generation t) (async_read t).
Definition set_task_error (m : option string) t := mkTask (execution t) (slot t) (parent t) (deadline t)
  (task_status t) (task_outcome t) (task_result t) m (task_exit_status t) (request_pending t)
  (request_queued t) (request_input t) (request_generation t) (async_read t).
Definition set_execution (e : E) t := mkTask (Some e) (slot t) (parent t) (deadline t)
  (task_status t) (task_outcome t) (task_result t) (task_error t) (task_exit_status t)
  (request_pending t) (request_queued t) (request_input t) (request_generation t) (async_read t).
Definition set_request (r : Request) t := mkTask (execution t) (slot t) (parent t) (deadline t)
  (task_status t) (task_outcome t) (task_result t) (task_error t) (task_exit_status t)
  (pending r) (queued r) (input r) (generation r) (async_read t).
Definition set_queued (b : bool) t := mkTask (execution t) (slot t) (parent t) (deadline t)
  (task_status t) (task_outcome t) (task_result t) (task_error t) (task_exit_status t)
  (request_pending t) b (request_input t) (request_generation t) (async_read t).

Definition drop_execution t : Task E := mkTask None (slot t) (parent t) (deadline t)
  (task_status t) (task_outcome t) (task_result t) (task_error t) (task_exit_status t)
  (request_pending t) (request_queued t) (request_input t) (request_generation t) (async_read t).

Definition put_task (i : nat) t ts : VMTasks E := set_tasks (<[i := t]> (tasks ts)) ts.
Definition get_task (i : nat) ts : M (Task E) := rd (tasks ts) i.

(** *** Lookup *)

(** The index of a task from its id. *)
Definition lookup_task ts (id : VMTaskId) : option nat :=
  if negb (session id =? identity ts) || Nat.eqb (id_slot id) 0 ||
     Nat.ltb (length (tasks ts)) (id_slot id)
  then None else Some (id_slot id - 1)%nat.

(** [status >= TASK_COMPLETED] *)
Definition terminal_status (s : VMTaskStatus) : bool :=
  match s with TASK_COMPLETED | TASK_TRAPPED | TASK_EXITED | TASK_CANCELLED => true | _ => false end.
Definition terminal t : bool := terminal_status (task_status t).

(** *** Ending a task *)

(** The task and the session's count of released requests. *)
Definition release_request t (released : Z) : Task E * Z :=
  if request_pending t then
    (mkTask (execution t) (slot t) (parent t) (deadline t) (task_status t) (task_outcome t)
       (task_result t) (task_error t) (task_exit_status t) false false None (request_generation t)
       (async_read t), released + 1)
  else (t, released).

Definition is_completed (s : VMTaskStatus) : bool := bool_decide (s = TASK_COMPLETED).

(** The results a body leaves, when it still has an execution. *)
Definition keep_result t (o : VMTaskStatus) : Task E :=
  match execution t with
  | None => t
  | Some e =>
      mkTask None (slot t) (parent t) (deadline t) (task_status t) (task_outcome t)
        (if is_completed o then exec_result e else task_result t)
        (if bool_decide (o = TASK_TRAPPED) then exec_error e else task_error t)
        (if bool_decide (o = TASK_EXITED) then exec_exit_status e else task_exit_status t)
        (request_pending t) (request_queued t) (request_input t) (request_generation t) (async_read t)
  end.

Definition finish_body t (o : VMTaskStatus) (released : Z) : Task E * Z :=
  let t := keep_result t o in
  let '(t, released) := release_request t released in
  (mkTask (execution t) (slot t) (parent t) (deadline t) TASK_JOINING o
     (if is_completed o then task_result t else None) (task_error t) (task_exit_status t)
     (request_pending t) (request_queued t) (request_input t) (request_generation t) (async_read t),
   released).

(** [finish_body] on the task at index [i], then [g] on the task. *)
Definition finish_task (i : nat) (o : VMTaskStatus) (g : Task E → Task E) ts : M (VMTasks E) :=
  t ← get_task i ts;
  let '(t, released) := finish_body t o (total_released ts) in
  mret (set_released released (put_task i (g t) ts)).

(** [while (slot && slot != parent)]: the bound is the number of tasks, whose
    parents have smaller slots. *)
Fixpoint ancestor_loop (fuel : nat) ts (s target : nat) : M bool :=
  if Nat.eqb s 0 || Nat.eqb s target then mret (Nat.eqb s target)
  else
    match fuel with
    | O => diverge
    | S fuel => t ← get_task (s - 1) ts; ancestor_loop fuel ts (parent t) target
    end.

Definition descendant ts t (target : nat) : M bool :=
  ancestor_loop (length (tasks ts)) ts (slot t) target.

(** The teardown loop from the last of the first [n] tasks to the first; the
    root itself is spared by [cancel_children]. *)
Fixpoint cancel_loop (n : nat) (spare : bool) (root : nat) ts : M (VMTasks E) :=
  match n with
  | O => mret ts
  | S i =>
      t ← get_task i ts;
      ts ← (if (spare && Nat.eqb (slot t) root) || terminal t then mret ts
            else
              below ← descendant ts t root;
              if (below : bool) then finish_task i TASK_CANCELLED (set_task_status TASK_CANCELLED) ts
              else mret ts);
      cancel_loop i spare root ts
  end.

Definition cancel_tree (root : nat) ts : M (VMTasks E) := cancel_loop (length (tasks ts)) false root ts.
Definition cancel_children (root : nat) ts : M (VMTasks E) := cancel_loop (length (tasks ts)) true root ts.

(** The children of the task at [i] have ended. *)
Definition joined (i : nat) t ts : bool :=
  forallb (λ c, negb (Nat.eqb (parent c) (slot t)) || terminal c) (drop (S i) (tasks ts)).

Definition child_failed : string := "child task did not complete successfully".

(** A task that ended badly fails a parent that has not failed yet. *)
Definition propagate t ts : M (VMTasks E) :=
  if terminal t && negb (is_completed (task_status t)) && negb (Nat.eqb (parent t) 0) then
    p ← get_task (parent t - 1) ts;
    if negb (terminal p) && negb (bool_decide (task_outcome p = TASK_TRAPPED)) &&
       negb (bool_decide (task_outcome p = TASK_EXITED)) then
      ts ← finish_task (parent t - 1) TASK_TRAPPED (set_task_error (Some child_failed)) ts;
      cancel_children (slot p) ts
    else mret ts
  else mret ts.

Fixpoint settle_loop (n : nat) ts : M (VMTasks E) :=
  match n with
  | O => mret ts
  | S i =>
      t ← get_task i ts;
      let ts := if bool_decide (task_status t = TASK_JOINING) && joined i t ts
                then put_task i (set_task_status (task_outcome t) t) ts else ts in
      t ← get_task i ts;
      ts ← propagate t ts;
      settle_loop i ts
  end.

Definition settle_tasks ts : M (VMTasks E) := settle_loop (length (tasks ts)) ts.

(** *** The interface *)

Definition sizeof_Task : Z := 224.
Definition sizeof_Completion : Z := 40.
Definition empty_completion : Completion := mkCompletion (mkOperationId (mkTaskId 0 0) 0) None None.
Definition bad_session : string := "invalid task session configuration".

(** A session; [active] says that the template VM has an execution, and
    [last_session] is the last identity handed out. *)
Definition vm_tasks_create (active : bool) (task_limit event_limit : nat) (last_session : Z)
  : M (VMTasks E) :=
  if active || Nat.eqb task_limit 0 || Nat.eqb event_limit 0 ||
     (SIZE_MAX / sizeof_Task <? Z.of_nat task_limit) ||
     (SIZE_MAX / sizeof_Completion <? Z.of_nat event_limit) || (last_session =? UINT64_MAX)
  then trap VM_FAULT_FATAL bad_session
  else
    _ ← alloc; _ ← alloc; _ ← alloc;
    mret (mkTasks [] task_limit (replicate event_limit empty_completion) 0 0 0 (last_session + 1) 0 0 0
            false).

Definition rejected : string := "task admission rejected".

Definition vm_tasks_spawn ts (p : VMTaskId) (g : Function) (arguments : list Value) (limit : Z)
  : M (VMTaskId * VMTasks E) :=
  let ancestor := i ← lookup_task ts p; tasks ts !! i in
  let root := (session p =? 0) && Nat.eqb (id_slot p) 0 in
  let may_parent := match ancestor with
                    | Some a => bool_decide (task_status a = TASK_READY) ||
                                bool_decide (task_status a = TASK_WAITING)
                    | None => false end in
  if pumping ts || Nat.eqb (length (tasks ts)) (capacity ts) || (negb root && negb may_parent)
  then trap VM_FAULT_FATAL rejected
  else
    let limit := match ancestor with
                 | Some a => if deadline a <? limit then deadline a else limit
                 | None => limit end in
    e ← exec_create g arguments;
    let s := S (length (tasks ts)) in
    mret (mkTaskId (identity ts) s,
          set_tasks (tasks ts ++ [mkTask (Some e) s (id_slot p) limit TASK_READY TASK_INVALID None None 0
                                    false false None 0 (is_async g)]) ts).

Definition vm_tasks_cancel ts (id : VMTaskId) : M (bool * VMTasks E) :=
  match lookup_task ts id with
  | None => mret (false, ts)
  | Some i =>
      if pumping ts then mret (false, ts)
      else
        t ← get_task i ts;
        ts ← cancel_tree (slot t) ts;
        ts ← settle_tasks ts;
        mret (true, ts)
  end.

Definition vm_tasks_pending ts (id : VMTaskId) : option (VMOperationId * option Value) :=
  i ← lookup_task ts id;
  t ← tasks ts !! i;
  if request_pending t then Some (mkOperationId id (request_generation t), request_input t) else None.

(** [read] tells the two typed entry points apart. *)
Definition complete ts (op : VMOperationId) (message : option string) (v : option Value) (read : bool)
  : M (bool * VMTasks E) :=
  match lookup_task ts (op_task op) with
  | None => mret (false, ts)
  | Some i =>
      t ← get_task i ts;
      if pumping ts || negb (Bool.eqb (async_read t) read) || negb (request_pending t) ||
         request_queued t || negb (request_generation t =? op_generation op) ||
         Nat.eqb (event_count ts) (length (events ts))
      then mret (false, ts)
      else
        let tail := ((event_head ts + event_count ts) mod length (events ts))%nat in
        evs ← wr (events ts) tail (mkCompletion op message v);
        let ts := set_ring evs (event_head ts) (S (event_count ts)) ts in
        mret (true, put_task i (set_queued true t) ts)
  end.

Definition vm_tasks_complete ts op message := complete ts op message None false.
Definition vm_tasks_complete_read ts op v := complete ts op None v true.

(** One completion handed to its task, if it still waits for it. *)
Definition deliver_event (ev : Completion) ts : M (VMTasks E) :=
  match lookup_task ts (op_task (operation ev)) with
  | None => mret ts
  | Some i =>
      t ← get_task i ts;
      if negb (request_pending t) || negb (request_generation t =? op_generation (operation ev))
      then mret ts
      else
        match execution t with
        | None => undef
        | Some e =>
            e ← (if async_read t then exec_complete_read e (completion_result ev)
                 else exec_complete_print e (completion_error ev));
            let '(t, released) := release_request (set_execution e t) (total_released ts) in
            let ts := set_released released (put_task i t ts) in
            match exec_error e with
            | Some _ =>
                ts ← finish_task i TASK_TRAPPED id ts;
                ts ← cancel_children (slot t) ts;
                settle_tasks ts
            | None => mret (put_task i (set_task_status TASK_READY t) ts)
            end
        end
  end.

(** [while (event_count)]: every turn takes one completion off the ring. *)
Fixpoint deliver_loop (n : nat) ts : M (VMTasks E) :=
  match n with
  | O => mret ts
  | S n =>
      ev ← rd (events ts) (event_head ts);
      let ts := set_ring (events ts) ((event_head ts + 1) mod length (events ts)) n ts in
      ts ← deliver_event ev ts;
      deliver_loop n ts
  end.

Definition deliver_completions ts : M (VMTasks E) := deliver_loop (event_count ts) ts.

(** Tasks past their deadline, in creation order. *)
Fixpoint expire_loop (n i : nat) ts : M (VMTasks E) :=
  match n with
  | O => mret ts
  | S n =>
      t ← get_task i ts;
      ts ← (if negb (terminal t) && negb (deadline t =? UINT64_MAX) && (deadline t <=? now ts)
            then cancel_tree (slot t) ts else mret ts);
      expire_loop n (S i) ts
  end.

(** The next ready task from the cursor on, and the cursor after it. *)
Fixpoint next_ready (scan : nat) ts (c : nat) : option nat * nat :=
  match scan with
  | O => (None, c)
  | S scan =>
      let c' := ((c + 1) mod length (tasks ts))%nat in
      match tasks ts !! c with
      | Some t => if bool_decide (task_status t = TASK_READY) then (Some c, c') else next_ready scan ts c'
      | None => next_ready scan ts c'
      end
  end.

Definition outcome_of (s : VMExecutionStatus) : VMTaskStatus :=
  match s with VM_COMPLETED => TASK_COMPLETED | VM_EXITED => TASK_EXITED | _ => TASK_TRAPPED end.

(** The request fields lent to the wait callback for one instruction. *)
Definition request_of t ts : Request :=
  mkRequest (request_pending t) (request_queued t) (request_input t) (request_generation t)
    (total_registered ts).

(** One instruction of the task at [i]. *)
Definition run_task (i : nat) ts : M (VMTasks E) :=
  t ← get_task i ts;
  match execution t with
  | None => undef
  | Some e =>
      '(s, e, r) ← exec_advance e (request_of t ts);
      let t := set_request r (set_execution e t) in
      let ts := set_registered (registered r) (put_task i t ts) in
      match s with
      | VM_WAITING => mret (put_task i (set_task_status TASK_WAITING t) ts)
      | VM_YIELDED => mret ts
      | _ =>
          let o := outcome_of s in
          ts ← finish_task i o id ts;
          ts ← (if is_completed o then mret ts else cancel_children (slot t) ts);
          settle_tasks ts
      end
  end.

Fixpoint dispatch_loop (budget : nat) ts : M (VMTasks E) :=
  match budget with
  | O => mret ts
  | S budget =>
      if Nat.eqb (length (tasks ts)) 0 then mret ts
      else
        let '(found, c) := next_ready (length (tasks ts)) ts (cursor ts) in
        let ts := set_cursor c ts in
        match found with
        | None => mret ts
        | Some i => ts ← run_task i ts; dispatch_loop budget ts
        end
  end.

Definition vm_tasks_pump ts (time : Z) (budget : nat) : M (bool * VMTasks E) :=
  if pumping ts || (time <? now ts) then mret (false, ts)
  else
    let ts := set_now time (set_pumping true ts) in
    ts ← deliver_completions ts;
    ts ← expire_loop (length (tasks ts)) 0 ts;
    ts ← settle_tasks ts;
    ts ← dispatch_loop budget ts;
    mret (true, set_pumping false ts).

(** *** Observation *)

Definition find_task ts (id : VMTaskId) : option (Task E) := i ← lookup_task ts id; tasks ts !! i.

Definition vm_tasks_status ts id : VMTaskStatus :=
  match find_task ts id with Some t => task_status t | None => TASK_INVALID end.
Definition vm_tasks_result ts id : option Value :=
  t ← find_task ts id; if is_completed (task_status t) then task_result t else None.
Definition vm_tasks_error ts id : option string := t ← find_task ts id; task_error t.
Definition vm_tasks_exit_status ts id : Z :=
  match find_task ts id with Some t => task_exit_status t | None => 0 end.
Definition vm_tasks_next_deadline ts : Z :=
  fold_left (λ d t, if negb (terminal t) && (deadline t <? d) then deadline t else d) (tasks ts)
    UINT64_MAX.
Definition vm_tasks_stats ts : Z * Z * nat :=
  (total_registered ts, total_released ts, event_count ts).

(** *** Destruction *)

(** Executions and requests are dropped in reverse creation order. *)
Fixpoint destroy_loop (n : nat) ts : M (VMTasks E) :=
  match n with
  | O => mret ts
  | S i =>
      t ← get_task i ts;
      let '(t, released) := release_request t (total_released ts) in
      destroy_loop i (set_released released (put_task i (drop_execution t) ts))
  end.

(** The completions still queued are dropped. *)
Fixpoint drain_loop (n : nat) ts : M (VMTasks E) :=
  match n with
  | O => mret ts
  | S n =>
      _ ← rd (events ts) (event_head ts);
      drain_loop n (set_ring (events ts) ((event_head ts + 1) mod length (events ts)) n ts)
  end.

(** The session as it is when its memory is released, or refused while pumping. *)
Definition vm_tasks_destroy ts : M (bool * VMTasks E) :=
  if pumping ts then mret (false, ts)
  else
    ts ← destroy_loop (length (tasks ts)) ts;
    ts ← drain_loop (event_count ts) ts;
    mret (true, ts).
End model.
