(* ===== verification/Sessions.v ===== *)
(** * Sessions: the invariant of structured tasks

    Tasks form a forest in creation order; a task that has ended has no running
    descendant; every registered request is released once; teardown terminates
    and never touches a task that has ended. *)

From Stdlib Require Import ZArith Lia.
From stdpp Require Import prelude gmap strings relations.
From S2P Require Import Prelude Bigint Value Program Execute Frames Tasks.

Section sessions.
Context {E : Type} `{!Executor E} `{!ExecutorLaws E}.
Implicit Types (ts : VMTasks E) (t c : Task E).

(** ** The invariant *)

(** A running task has an execution; one that is over has neither an execution
    nor a request, and remembers how its body ended. *)
Definition task_ok t : Prop :=
  (request_queued t = true → request_pending t = true) ∧
  (∀ e, execution t = Some e → exec_ok e) ∧
  match task_status t with
  | TASK_READY | TASK_WAITING => is_Some (execution t) ∧ task_outcome t = TASK_INVALID
  | TASK_JOINING => execution t = None ∧ request_pending t = false ∧ terminal_status (task_outcome t) = true
  | TASK_INVALID => False
  | s => execution t = None ∧ request_pending t = false ∧ task_outcome t = s
  end.

Definition pending_count (l : list (Task E)) : nat := length (filter (λ t, request_pending t = true) l).

Record session_ok ts : Prop := {
  ok_tree i t : tasks ts !! i = Some t → slot t = S i ∧ (parent t ≤ i)%nat ∧ task_ok t;
  ok_joined i t j c : tasks ts !! i = Some t → tasks ts !! j = Some c → parent c = slot t →
    terminal t = true → terminal c = true;
  ok_deadline i t j c : tasks ts !! i = Some t → tasks ts !! j = Some c → parent c = slot t →
    deadline c ≤ deadline t;
  ok_requests : total_registered ts = total_released ts + Z.of_nat (pending_count (tasks ts));
  ok_released : 0 ≤ total_released ts;
  ok_ring : (event_count ts ≤ length (events ts) ∧ event_head ts < length (events ts))%nat;
  ok_capacity : (length (tasks ts) ≤ capacity ts)%nat;
}.

(** What teardown may change of a task: nothing once it has ended, and never its
    place in the forest. *)
Definition later t t' : Prop :=
  slot t' = slot t ∧ parent t' = parent t ∧ deadline t' = deadline t ∧ (terminal t = true → t' = t).

(** ... and of a session. *)
Record torn ts ts' : Prop := {
  torn_tasks : Forall2 later (tasks ts) (tasks ts');
  torn_capacity : capacity ts' = capacity ts;
  torn_events : events ts' = events ts;
  torn_head : event_head ts' = event_head ts;
  torn_count : event_count ts' = event_count ts;
  torn_identity : identity ts' = identity ts;
  torn_now : now ts' = now ts;
  torn_pumping : pumping ts' = pumping ts;
}.

#[local] Instance later_preorder : PreOrder later.
Proof.
  split; [by intros t; split_and!|].
  intros t1 t2 t3 (Hs & Hp & Hd & Hf) (Hs' & Hp' & Hd' & Hf'). split_and!; [congruence..|].
  intros H. specialize (Hf H). subst. auto.
Qed.

Lemma torn_refl ts : torn ts ts.
Proof. split; try done. Qed.

Lemma torn_trans ts1 ts2 ts3 : torn ts1 ts2 → torn ts2 ts3 → torn ts1 ts3.
Proof. intros [] []. split; try congruence. by etrans. Qed.

Lemma torn_lookup ts ts' i t :
  torn ts ts' → tasks ts !! i = Some t → ∃ t', tasks ts' !! i = Some t' ∧ later t t'.
Proof. intros [H _ _ _ _ _ _ _] Ht. by eapply Forall2_lookup_l. Qed.

Lemma torn_lookup_r ts ts' i t' :
  torn ts ts' → tasks ts' !! i = Some t' → ∃ t, tasks ts !! i = Some t ∧ later t t'.
Proof. intros [H _ _ _ _ _ _ _] Ht. by eapply Forall2_lookup_r. Qed.

Lemma torn_length ts ts' : torn ts ts' → length (tasks ts') = length (tasks ts).
Proof. intros [H _ _ _ _ _ _ _]. by eapply Forall2_length in H. Qed.

(** ** The forest *)

(** The task in slot [s] descends from the one in slot [root], or is it. *)
Inductive below ts (root : nat) : nat → Prop :=
| below_here : below ts root root
| below_up i t : tasks ts !! i = Some t → below ts root (parent t) → below ts root (S i).

Lemma below_torn ts ts' root s : torn ts ts' → below ts root s → below ts' root s.
Proof.
  intros Ht. induction 1 as [|i t Hi Hb IH]; [constructor|].
  destruct (torn_lookup _ _ _ _ Ht Hi) as (t' & Hi' & _ & Hp & _). apply (below_up _ _ _ t'); [done|].
  by rewrite Hp.
Qed.

Lemma below_torn_r ts ts' root s : torn ts ts' → below ts' root s → below ts root s.
Proof.
  intros Ht. induction 1 as [|i t Hi Hb IH]; [constructor|].
  destruct (torn_lookup_r _ _ _ _ Ht Hi) as (t0 & Hi0 & _ & Hp & _). apply (below_up _ _ _ t0); [done|].
  by rewrite <- Hp.
Qed.

Lemma ancestor_loop_spec ts fuel s root :
  session_ok ts → root ≠ 0%nat → (s ≤ fuel)%nat → (s ≤ length (tasks ts))%nat →
  returns (ancestor_loop fuel ts s root) (λ b, b = true ↔ below ts root s).
Proof.
  intros Hok Hroot. revert s. induction fuel as [|fuel IH]; intros s Hf Hs; cbn [ancestor_loop].
  - replace s with 0%nat by lia. simpl. mret. destruct root; [done|]. split; [done|].
    intros H. by inversion H.
  - destruct (Nat.eqb_spec s 0) as [->|Hs0]; simpl.
    { mret. destruct root; [done|]. split; [done|]. intros H. by inversion H. }
    destruct (Nat.eqb_spec s root) as [->|Hne]; simpl.
    { mret. split; [constructor|done]. }
    destruct (lookup_lt_is_Some_2 (tasks ts) (s - 1)) as [t Ht]; [lia|].
    eapply (runs_bind _ _ (λ x, x = t)); [by eapply runs_rd|]. intros ? ->.
    destruct (ok_tree _ Hok _ _ Ht) as (Hslot & Hpar & _).
    eapply runs_mono; [apply IH; lia| |done]. intros b ->. split.
    + intros Hb. replace s with (S (s - 1)) by lia. by eapply below_up.
    + intros Hb. inversion Hb as [|i t' Hi Hb']; subst; [done|]. simpl in Ht.
      rewrite Nat.sub_0_r in Ht. by simplify_eq.
Qed.

Lemma descendant_spec ts i t root :
  session_ok ts → root ≠ 0%nat → tasks ts !! i = Some t →
  returns (descendant ts t root) (λ b, b = true ↔ below ts root (slot t)).
Proof.
  intros Hok Hr Hi. destruct (ok_tree _ Hok _ _ Hi) as (Hs & _). apply lookup_lt_Some in Hi.
  apply ancestor_loop_spec; lia || done.
Qed.

(** ** Elementary changes *)

Lemma pending_count_insert l i t t' :
  l !! i = Some t →
  Z.of_nat (pending_count (<[i:=t']> l)) =
  Z.of_nat (pending_count l) - (if request_pending t then 1 else 0) + (if request_pending t' then 1 else 0).
Proof.
  unfold pending_count. revert i. induction l as [|x l IH]; intros [|i] Hi; simplify_eq/=.
  - rewrite !filter_cons. destruct (request_pending t), (request_pending t'); simpl; lia.
  - specialize (IH i Hi). rewrite !filter_cons. destruct (decide (request_pending x = true)); simpl; lia.
Qed.

(** A change of one task, and of the counts of requests, that keeps the
    invariant. *)
Lemma put_requests_ok ts i t t' reg released :
  session_ok ts → tasks ts !! i = Some t →
  slot t' = slot t → parent t' = parent t → deadline t' = deadline t → task_ok t' →
  (terminal t = true → terminal t' = true) →
  (terminal t' = true → ∀ j c, tasks ts !! j = Some c → parent c = slot t → terminal c = true) →
  reg - released = total_registered ts - total_released ts - (if request_pending t then 1 else 0) +
    (if request_pending t' then 1 else 0) →
  0 ≤ released →
  session_ok (set_registered reg (set_released released (put_task i t' ts))).
Proof.
  intros Hok Hi Hs Hp Hd Ht' Hmono Hch Hrel Hle.
  assert (∀ j c', <[i:=t']> (tasks ts) !! j = Some c' →
    ∃ c, tasks ts !! j = Some c ∧ slot c' = slot c ∧ parent c' = parent c ∧ deadline c' = deadline c ∧
      (j = i ∧ c' = t' ∧ c = t ∨ j ≠ i ∧ c' = c)) as Hl.
  { intros j c' Hj. destruct (decide (j = i)) as [->|Hne].
    - rewrite list_lookup_insert_eq in Hj by (by eapply lookup_lt_Some). simplify_eq. exists t. by auto 10.
    - rewrite list_lookup_insert_ne in Hj by done. exists c'. by auto 10. }
  pose proof (lookup_lt_Some _ _ _ Hi) as Hlt. destruct Hok. split; simpl; try done.
  - intros j c' Hj. destruct (Hl j c' Hj) as (c & Hc & -> & -> & _ & [(-> & -> & ->)|(_ & ->)]).
    + by destruct (ok_tree0 _ _ Hi) as (? & ? & _).
    + by apply ok_tree0.
  - intros j a k b Ha Hb Hpar Hta.
    destruct (Hl j a Ha) as (a0 & Ha0 & Hsa & _ & _ & Hca). destruct (Hl k b Hb) as (b0 & Hb0 & _ & Hpb & _ & Hcb).
    rewrite Hsa, Hpb in Hpar.
    assert (terminal b0 = true) as Hb0t.
    { destruct Hca as [(-> & -> & ->)|(_ & ->)]; [by eapply Hch|by eapply (ok_joined0 j a0 k b0)]. }
    destruct Hcb as [(-> & -> & ->)|(_ & ->)]; auto.
  - intros j a k b Ha Hb Hpar.
    destruct (Hl j a Ha) as (a0 & Ha0 & Hsa & _ & -> & _). destruct (Hl k b Hb) as (b0 & Hb0 & _ & Hpb & -> & _).
    rewrite Hsa, Hpb in Hpar. eauto.
  - rewrite (pending_count_insert _ _ _ _ Hi). lia.
  - by rewrite length_insert.
Qed.

Lemma put_ok ts i t t' released :
  session_ok ts → tasks ts !! i = Some t →
  slot t' = slot t → parent t' = parent t → deadline t' = deadline t → task_ok t' →
  (terminal t = true → terminal t' = true) →
  (terminal t' = true → ∀ j c, tasks ts !! j = Some c → parent c = slot t → terminal c = true) →
  released = total_released ts + (if request_pending t then 1 else 0) - (if request_pending t' then 1 else 0) →
  total_released ts ≤ released →
  session_ok (set_released released (put_task i t' ts)).
Proof.
  intros Hok Hi. intros. pose proof (ok_released _ Hok).
  apply (put_requests_ok ts i t t' (total_registered ts) released); try done; lia.
Qed.

Lemma put_torn ts i t t' released :
  tasks ts !! i = Some t → later t t' → torn ts (set_released released (put_task i t' ts)).
Proof.
  intros Hi Hl. split; try done. simpl. apply Forall2_same_length_lookup_2; [by rewrite length_insert|].
  intros j x y Hx Hy. destruct (decide (j = i)) as [->|Hne].
  - rewrite list_lookup_insert_eq in Hy by (by eapply lookup_lt_Some). by simplify_eq.
  - rewrite list_lookup_insert_ne in Hy by done. by simplify_eq.
Qed.

(** ** Ending bodies *)

Lemma finish_body_spec t o r :
  let '(t', r') := finish_body t o r in
  slot t' = slot t ∧ parent t' = parent t ∧ deadline t' = deadline t ∧ execution t' = None ∧
  task_status t' = TASK_JOINING ∧ task_outcome t' = o ∧ request_pending t' = false ∧
  request_queued t' = (if request_pending t then false else request_queued t) ∧
  r' = r + (if request_pending t then 1 else 0).
Proof.
  unfold finish_body, keep_result, release_request.
  destruct (execution t) eqn:He, (request_pending t) eqn:Hp; simpl; rewrite ?Hp; simpl;
    split_and!; done || lia.
Qed.

(** What is done to a task right after its body ended: its status or its error. *)
Definition marks_end (g : Task E → Task E) (s : VMTaskStatus) : Prop :=
  ∀ u, slot (g u) = slot u ∧ parent (g u) = parent u ∧ deadline (g u) = deadline u ∧
    execution (g u) = execution u ∧ task_outcome (g u) = task_outcome u ∧
    request_pending (g u) = request_pending u ∧ request_queued (g u) = request_queued u ∧
    (task_status u = TASK_JOINING → task_status (g u) = s).

(** The children of the task in slot [s] have all ended. *)
Definition childless ts (s : nat) : Prop :=
  ∀ j c, tasks ts !! j = Some c → parent c = s → terminal c = true.

Lemma finish_task_spec i o g s ts t :
  session_ok ts → tasks ts !! i = Some t → terminal t = false → terminal_status o = true →
  marks_end g s → (s = TASK_JOINING ∨ s = o ∧ childless ts (slot t)) →
  returns (finish_task i o g ts) (λ ts', session_ok ts' ∧ torn ts ts' ∧
    (∀ j c c', j ≠ i → tasks ts !! j = Some c → tasks ts' !! j = Some c' → c' = c) ∧
    ∃ t', tasks ts' !! i = Some t' ∧ task_status t' = s ∧ task_outcome t' = o ∧ ∃ u, t' = g u).
Proof.
  intros Hok Hi Hnt Ho Hg Hs. unfold finish_task.
  eapply (runs_bind _ _ (λ x, x = t)); [by eapply runs_rd|]. intros ? ->.
  pose proof (finish_body_spec t o (total_released ts)) as Hf.
  destruct (finish_body t o (total_released ts)) as [u r'].
  destruct Hf as (Fs & Fp & Fd & Fe & Fst & Fo & Fq & Fq' & Fr).
  destruct (Hg u) as (Gs & Gp & Gd & Ge & Go & Gq & Gq' & Gst). specialize (Gst Fst). mret.
  destruct (ok_tree _ Hok _ _ Hi) as (_ & _ & Hqt & _). split_and!.
  - apply (put_ok ts i t); try done; try congruence.
    + split.
      { rewrite Gq', Fq'. destruct (request_pending t) eqn:Eq; [done|]. intros H. by specialize (Hqt H). }
      rewrite Gst, Ge, Go, Gq, Fe, Fo, Fq.
      destruct Hs as [->|[-> _]]; [done|]. by destruct o.
    + unfold terminal at 1. rewrite Gst. destruct Hs as [->|[-> Hc]]; [done|]. intros _. apply Hc.
    + rewrite Gq, Fq. lia.
    + destruct (request_pending t); lia.
  - apply put_torn with t; [done|]. split_and!; try congruence.
  - intros j c c' Hne Hc. simpl. rewrite list_lookup_insert_ne by done. intros. by simplify_eq.
  - exists (g u). split_and!; [|done|congruence|by eexists]. simpl.
    apply list_lookup_insert_eq. by eapply lookup_lt_Some.
Qed.

Lemma marks_cancelled : marks_end (set_task_status TASK_CANCELLED) TASK_CANCELLED.
Proof. intros u. by split_and!. Qed.
Lemma marks_id : marks_end id TASK_JOINING.
Proof. intros u. by split_and!. Qed.
Lemma marks_error m : marks_end (set_task_error m) TASK_JOINING.
Proof. intros u. by split_and!. Qed.

(** ** Teardown *)

(** Every task from index [n] on that descends from [root] has ended, the root
    itself excepted when it is spared. *)
Definition cleared ts (n : nat) (spare : bool) (root : nat) : Prop :=
  ∀ j c, (n ≤ j)%nat → tasks ts !! j = Some c → below ts root (slot c) →
    (spare = true → slot c ≠ root) → terminal c = true.

Lemma cleared_childless ts i t spare root :
  session_ok ts → tasks ts !! i = Some t → cleared ts (S i) spare root →
  below ts root (slot t) → (spare = true → (slot t ≠ root)) → childless ts (slot t).
Proof.
  intros Hok Hi Hc Hb Hsp j c Hj Hp.
  destruct (ok_tree _ Hok _ _ Hi) as (Hs & Hpt & _). destruct (ok_tree _ Hok _ _ Hj) as (Hsc & Hpc & _).
  apply (Hc j c); [lia|done| |].
  - rewrite Hsc. apply (below_up _ _ _ c); [done|by rewrite Hp].
  - intros Hspare Hroot. rewrite Hsc in Hroot.
    (* the root would be a child of its own descendant *)
    assert (∀ s, below ts root s → (root ≤ s)%nat) as Hle.
    { induction 1 as [|k u Hk Hb' IH]; [done|]. destruct (ok_tree _ Hok _ _ Hk) as (_ & ? & _). lia. }
    specialize (Hle _ Hb). lia.
Qed.

(** Teardown changes a task only by cancelling it, and only below [root], the
    root itself excepted when it is spared. *)
Definition cancels ts ts' (spare : bool) (root : nat) : Prop :=
  ∀ j t t', tasks ts !! j = Some t → tasks ts' !! j = Some t' →
    t' = t ∨ below ts root (slot t) ∧ task_status t' = TASK_CANCELLED ∧ (spare = true → slot t ≠ root).

Lemma cancels_refl ts spare root : cancels ts ts spare root.
Proof. intros j t t' H H'. simplify_eq. by left. Qed.

Lemma cancels_trans ts1 ts2 ts3 spare root :
  torn ts1 ts2 → torn ts2 ts3 → cancels ts1 ts2 spare root → cancels ts2 ts3 spare root → cancels ts1 ts3 spare root.
Proof.
  intros Ht12 Ht23 H12 H23 j t t3 H1 H3. destruct (torn_lookup _ _ _ _ Ht12 H1) as (t2 & H2 & Hs & _).
  destruct (H23 _ _ _ H2 H3) as [->|(Hb & Hc & Hr)]; [by apply (H12 j)|]. right. rewrite Hs in Hr. split; [|done].
  apply (below_torn_r _ _ _ _ Ht12). by rewrite <- Hs.
Qed.

Lemma cleared_finish ts ts' i t' spare root :
  torn ts ts' → cleared ts (S i) spare root → tasks ts' !! i = Some t' → terminal t' = true →
  cleared ts' i spare root.
Proof.
  intros Ht Hc Hi' Hst j c Hj Hjc Hbc Hspc. destruct (decide (j = i)) as [->|Hne]; [by simplify_eq|].
  destruct (torn_lookup_r _ _ _ _ Ht Hjc) as (c0 & Hj0 & Hs0 & _ & _ & Hfr).
  assert (terminal c0 = true) as Hc0.
  { apply (Hc j c0); [lia|done| |by rewrite <- Hs0]. rewrite <- Hs0. by eapply below_torn_r. }
  by rewrite (Hfr Hc0).
Qed.

Lemma cleared_skip ts i t spare root :
  cleared ts (S i) spare root → tasks ts !! i = Some t →
  (below ts root (slot t) → (spare = true → slot t ≠ root) → terminal t = true) → cleared ts i spare root.
Proof.
  intros Hc Hi Ht j c Hj Hjc Hb Hsp. destruct (decide (j = i)) as [->|]; [by simplify_eq; auto|].
  by apply (Hc j); [lia|..].
Qed.

(** One turn of the loop. *)
Lemma cancel_one_spec i t spare root ts :
  session_ok ts → root ≠ 0%nat → tasks ts !! i = Some t → cleared ts (S i) spare root →
  returns (if (spare && Nat.eqb (slot t) root) || terminal t then mret ts
           else below ← descendant ts t root;
                if (below : bool) then finish_task i TASK_CANCELLED (set_task_status TASK_CANCELLED) ts
                else mret ts)
    (λ ts', session_ok ts' ∧ torn ts ts' ∧ cancels ts ts' spare root ∧ cleared ts' i spare root).
Proof.
  intros Hok Hr Hi Hc. destruct ((_ && _) || _) eqn:Hskip.
  { mret. split_and!; [done|apply torn_refl|apply cancels_refl|]. eapply cleared_skip; [done..|].
    intros Hb Hsp. apply orb_true_iff in Hskip as [[-> Heq%Nat.eqb_eq]%andb_true_iff|]; [|done].
    by destruct (Hsp eq_refl). }
  apply orb_false_iff in Hskip as [Hsp Hnt].
  eapply runs_bind; [by eapply descendant_spec|]. intros b Hb. destruct b.
  - pose proof (proj1 Hb eq_refl) as Hbelow. clear Hb.
    assert (spare = true → slot t ≠ root) as Hspared by (intros ->; by apply Nat.eqb_neq).
    assert (childless ts (slot t)) as Hch by (by eapply cleared_childless).
    eapply runs_mono; [by eapply (finish_task_spec i _ _ TASK_CANCELLED); eauto using marks_cancelled| |done].
    intros ts' (Hok' & Ht & Hone & t' & Hi' & Hst & _).
    assert (terminal t' = true) as Htt by (unfold terminal; by rewrite Hst).
    split_and!; [done..| |by eapply cleared_finish].
    intros j c c' Hj Hj'. destruct (decide (j = i)) as [->|Hne]; [right; simplify_eq; by split_and!|left].
    by apply (Hone j).
  - mret. split_and!; [done|apply torn_refl|apply cancels_refl|]. eapply cleared_skip; [done..|].
    intros Hbc _. by apply Hb in Hbc.
Qed.

Lemma cancel_loop_spec n spare root ts :
  session_ok ts → root ≠ 0%nat → (n ≤ length (tasks ts))%nat → cleared ts n spare root →
  returns (cancel_loop n spare root ts)
    (λ ts', session_ok ts' ∧ torn ts ts' ∧ cancels ts ts' spare root ∧ cleared ts' 0 spare root).
Proof.
  intros Hok Hr. revert ts Hok. induction n as [|i IH]; intros ts Hok Hn Hc; cbn [cancel_loop].
  { mret. split_and!; [done|apply torn_refl|apply cancels_refl|done]. }
  destruct (lookup_lt_is_Some_2 (tasks ts) i) as [t Hi]; [lia|].
  eapply (runs_bind _ _ (λ x, x = t)); [by eapply runs_rd|]. intros ? ->.
  eapply runs_bind; [by apply cancel_one_spec|]. intros ts' (Hok' & Ht & Hca & Hc').
  eapply runs_mono; [apply IH; [done|rewrite (torn_length _ _ Ht); lia|done]| |done].
  intros ts'' (Hok'' & Ht' & Hca' & Hc''). split_and!; [done|by eapply torn_trans|by eapply cancels_trans|done].
Qed.

Lemma cleared_all ts spare root : cleared ts (length (tasks ts)) spare root.
Proof. intros j c Hj Hc. apply lookup_lt_Some in Hc. lia. Qed.

(** ** Settling *)

(** The task in this state holds back, or has already failed, its parent. *)
Definition failed_task t : bool := terminal t && negb (is_completed (task_status t)).
Definition doomed t : Prop :=
  terminal t = true ∨ task_outcome t = TASK_TRAPPED ∨ task_outcome t = TASK_EXITED.

(** From index [n] on nothing is left to do: a joining task waits for a child,
    and a task that ended badly has failed its parent. *)
Definition settled ts (n : nat) : Prop :=
  ∀ j c, (n ≤ j)%nat → tasks ts !! j = Some c →
    (task_status c = TASK_JOINING → ¬ childless ts (slot c)) ∧
    (failed_task c = true → ∀ p, parent c ≠ 0%nat → tasks ts !! (parent c - 1)%nat = Some p → doomed p).

Lemma joined_spec ts i t :
  session_ok ts → tasks ts !! i = Some t → joined i t ts = true ↔ childless ts (slot t).
Proof.
  intros Hok Hi. unfold joined. rewrite List.forallb_forall.
  destruct (ok_tree _ Hok _ _ Hi) as (Hs & _). split.
  - intros H j c Hj Hp. destruct (ok_tree _ Hok _ _ Hj) as (_ & Hpc & _).
    specialize (H c). rewrite Hp, Nat.eqb_refl in H. apply H. apply list_elem_of_In.
    apply (list_elem_of_lookup_2 _ (j - S i)). rewrite lookup_drop. by replace (S i + (j - S i))%nat with j by lia.
  - intros H c Hc%list_elem_of_In. apply list_elem_of_lookup in Hc as [k Hk]. rewrite lookup_drop in Hk.
    destruct (Nat.eqb_spec (parent c) (slot t)) as [Hp|]; [|done]. by apply (H _ c Hk).
Qed.

Lemma childless_stable ts ts' s :
  childless ts s → torn ts ts' → childless ts' s.
Proof.
  intros Hc Ht j c' Hj Hp. destruct (torn_lookup_r _ _ _ _ Ht Hj) as (c & Hj0 & _ & Hpc & _ & Hf).
  assert (terminal c = true) as H by (apply (Hc j); congruence). by rewrite (Hf H).
Qed.

(** Joining: the status of a task whose children have ended becomes its outcome. *)
Definition join_task (i : nat) t ts : VMTasks E :=
  if bool_decide (task_status t = TASK_JOINING) && joined i t ts
  then put_task i (set_task_status (task_outcome t) t) ts else ts.

Lemma set_released_same ts : set_released (total_released ts) ts = ts.
Proof. by destruct ts. Qed.

Lemma join_task_ok i t ts :
  session_ok ts → tasks ts !! i = Some t →
  session_ok (join_task i t ts) ∧ torn ts (join_task i t ts) ∧
  (∀ j c c', j ≠ i → tasks ts !! j = Some c → tasks (join_task i t ts) !! j = Some c' → c' = c) ∧
  ∃ t', tasks (join_task i t ts) !! i = Some t' ∧ task_outcome t' = task_outcome t ∧
    parent t' = parent t ∧ slot t' = slot t ∧
    (task_status t' = TASK_JOINING → ¬ childless ts (slot t)).
Proof.
  intros Hok Hi. unfold join_task. case_bool_decide as Hst; simpl; cycle 1.
  { split_and!; [done|apply torn_refl|congruence|]. exists t. by split_and!. }
  destruct (joined i t ts) eqn:Hj; cycle 1.
  { split_and!; [done|apply torn_refl|congruence|]. exists t. split_and!; try done. intros _ Hc.
    apply (joined_spec ts i t Hok Hi) in Hc. congruence. }
  apply (joined_spec ts i t Hok Hi) in Hj.
  destruct (ok_tree _ Hok _ _ Hi) as (Hs & Hp & Hq & Hx & Hok'). rewrite Hst in Hok'. destruct Hok' as (He & Hpe & Ho).
  rewrite <- (set_released_same (put_task _ _ _)). simpl.
  assert (terminal t = false) as Hnt by (unfold terminal; by rewrite Hst).
  split_and!.
  - apply (put_ok ts i t); simpl; try done; try lia; try congruence.
    split_and!; [done..|]. simpl. by destruct (task_outcome t).
  - apply (put_torn ts i t); [done|]. split_and!; try done. congruence.
  - intros j c c' Hne Hc. simpl. rewrite list_lookup_insert_ne by done. congruence.
  - exists (set_task_status (task_outcome t) t). split_and!; try done.
    + simpl. apply list_lookup_insert_eq. by eapply lookup_lt_Some.
    + simpl. intros Hjo. rewrite Hjo in Ho. done.
Qed.

Lemma below_parent ts root j c :
  session_ok ts → tasks ts !! j = Some c → below ts root (slot c) → slot c ≠ root → below ts root (parent c).
Proof.
  intros Hok Hj Hb Hne. destruct (ok_tree _ Hok _ _ Hj) as (Hs & _). rewrite Hs in Hb, Hne.
  inversion Hb as [|k u Hk Hb']; subst; [done|]. by simplify_eq.
Qed.

(** Failing a parent: [ts1] has the parent's body ended, [ts2] its other
    children cancelled. *)
Section propagation.
Context (ts ts1 ts2 : VMTasks E) (q i : nat) (p1 : Task E).
Hypothesis Hok1 : session_ok ts1.
Hypothesis Hok2 : session_ok ts2.
Hypothesis Hqi : (q < i)%nat.
Hypothesis Ht1 : torn ts ts1.
Hypothesis Ht2 : torn ts1 ts2.
Hypothesis Hone : ∀ j c c', j ≠ q → tasks ts !! j = Some c → tasks ts1 !! j = Some c' → c' = c.
Hypothesis Hp1 : tasks ts1 !! q = Some p1.
Hypothesis Hp1o : task_outcome p1 = TASK_TRAPPED.
Hypothesis Hca : cancels ts1 ts2 true (S q).
Hypothesis Hcl : cleared ts2 0 true (S q).

(** A task above [q] is the one it was, or was cancelled below the parent. *)
Lemma propagated_task j c2 :
  (i ≤ j)%nat → tasks ts2 !! j = Some c2 →
  ∃ c, tasks ts !! j = Some c ∧ slot c2 = S j ∧ parent c2 = parent c ∧
    (c2 = c ∨ task_status c2 = TASK_CANCELLED ∧ below ts1 (S q) (S j)).
Proof using Hok2 Hqi Ht1 Ht2 Hone Hca.
  intros Hj H2. destruct (torn_lookup_r _ _ _ _ Ht2 H2) as (c1 & H1 & Hs21 & Hp21 & _).
  destruct (torn_lookup_r _ _ _ _ Ht1 H1) as (c & H0 & Hs10 & Hp10 & _).
  assert (c1 = c) as -> by (apply (Hone j); [lia|done..]).
  destruct (ok_tree _ Hok2 _ _ H2) as (Hs & _). exists c. split_and!; [done..|].
  destruct (Hca _ _ _ H1 H2) as [->|(Hb & Hc & _)]; [by left|right]. split; [done|]. by rewrite <- Hs, Hs21.
Qed.

Lemma propagated_parent r P2 :
  tasks ts2 !! r = Some P2 → (∀ P, tasks ts !! r = Some P → r ≠ q → doomed P) → doomed P2.
Proof using Ht1 Ht2 Hone Hp1 Hp1o Hca.
  intros H2 HP. destruct (torn_lookup_r _ _ _ _ Ht2 H2) as (P1 & H1 & _).
  destruct (Hca _ _ _ H1 H2) as [->|(_ & Hc & _)]; [|left; unfold terminal; by rewrite Hc].
  destruct (decide (r = q)) as [->|Hne]; [simplify_eq; right; by left|].
  destruct (torn_lookup_r _ _ _ _ Ht1 H1) as (P & H0 & _).
  assert (P1 = P) as -> by (by apply (Hone r)). by apply HP.
Qed.

Lemma below2 s : below ts1 (S q) s → below ts2 (S q) s.
Proof using Ht2. by apply below_torn. Qed.

Lemma propagated_joining j c2 :
  (i ≤ j)%nat → tasks ts2 !! j = Some c2 → task_status c2 = TASK_JOINING →
  (∀ c, tasks ts !! j = Some c → task_status c = TASK_JOINING → ¬ childless ts (slot c)) →
  ¬ childless ts2 (slot c2).
Proof using Hok1 Hok2 Hqi Ht1 Ht2 Hone Hca Hcl.
  intros Hj H2 Hst Hold Hc2. destruct (propagated_task j c2 Hj H2) as (c & H0 & Hs & _ & [->|[Hcan _]]);
    [|congruence].
  apply (Hold c H0 Hst). intros k d Hk Hp.
  destruct (torn_lookup _ _ _ _ Ht1 Hk) as (d1 & Hk1 & _ & Hpd1 & _).
  destruct (torn_lookup _ _ _ _ Ht2 Hk1) as (d2 & Hk2 & Hsd2 & Hpd2 & _).
  assert (terminal d2 = true) as Htd by (apply (Hc2 k); congruence).
  destruct (ok_tree _ Hok1 _ _ Hk1) as (Hsd & Hpd & _).
  destruct (ok_tree _ Hok2 _ _ H2) as (Hsc & _).
  assert (d1 = d) as -> by (apply (Hone k); [lia|done..]).
  destruct (Hca _ _ _ Hk1 Hk2) as [->|[Hb _]]; [done|]. exfalso.
  apply (below_parent ts1 (S q) k d Hok1 Hk1) in Hb; [|lia]. rewrite Hp in Hb.
  assert (terminal c = true) as Htc by (apply (Hcl j c); [lia|done|by apply below2|intros _; lia]).
  unfold terminal in Htc. by rewrite Hst in Htc.
Qed.

Lemma propagated_failed j c2 P2 :
  (i ≤ j)%nat → tasks ts2 !! j = Some c2 → parent c2 ≠ 0%nat → tasks ts2 !! (parent c2 - 1)%nat = Some P2 →
  (∀ c P, tasks ts !! j = Some c → c = c2 → tasks ts !! (parent c - 1)%nat = Some P →
    (parent c - 1)%nat ≠ q → doomed P) →
  doomed P2.
Proof using Hok1 Hok2 Hqi Ht1 Ht2 Hone Hp1 Hp1o Hca Hcl.
  intros Hj H2 Hp0 HP Hold. destruct (propagated_task j c2 Hj H2) as (c & H0 & Hs & Hpc & [->|[_ Hb]]).
  { eapply propagated_parent; [done|]. intros P HP0 Hne. by apply (Hold c P). }
  destruct (decide (parent c2 - 1 = q)%nat) as [Hq|Hq].
  { eapply propagated_parent; [done|]. intros; done. }
  left. apply below2 in Hb. rewrite <- Hs in Hb. apply (below_parent ts2 _ _ _ Hok2 H2) in Hb; [|lia].
  destruct (ok_tree _ Hok2 _ _ HP) as (HsP & _).
  apply (Hcl (parent c2 - 1)%nat P2); [lia|done| |intros _; lia]. rewrite HsP. by replace (S (parent c2 - 1)) with (parent c2) by lia.
Qed.
End propagation.

Lemma propagate_spec i t ts :
  session_ok ts → tasks ts !! i = Some t → settled ts (S i) →
  (task_status t = TASK_JOINING → ¬ childless ts (slot t)) →
  returns (propagate t ts) (λ ts', session_ok ts' ∧ torn ts ts' ∧ settled ts' i).
Proof.
  intros Hok Hi Hset Hjoin. destruct (ok_tree _ Hok _ _ Hi) as (Hs & Hp & _).
  assert (∀ (Hfail : failed_task t = true → ∀ p, parent t ≠ 0%nat → tasks ts !! (parent t - 1)%nat = Some p →
            doomed p), settled ts i) as Hhere.
  { intros Hfail j c Hj Hc. destruct (decide (j = i)) as [->|]; [by simplify_eq|apply (Hset j c); [lia|done]]. }
  unfold propagate. fold (failed_task t). destruct (failed_task t) eqn:Hf; cbn [andb]; cycle 1.
  { mret. split_and!; [done|apply torn_refl|]. by apply Hhere. }
  destruct (Nat.eqb_spec (parent t) 0) as [Hp0|Hp0]; cbn [negb].
  { mret. split_and!; [done|apply torn_refl|]. by apply Hhere. }
  destruct (lookup_lt_is_Some_2 (tasks ts) (parent t - 1)) as [p Hpp].
  { apply lookup_lt_Some in Hi. lia. }
  eapply (runs_bind _ _ (λ x, x = p)); [by eapply runs_rd|]. intros ? ->.
  destruct (negb (terminal p) && _ && _) eqn:Hgo; cycle 1.
  { mret. split_and!; [done|apply torn_refl|]. apply Hhere. intros _ p' _ Hp'. simplify_eq. unfold doomed.
    revert Hgo. destruct (terminal p); [by left|]. simpl. repeat case_bool_decide; auto. }
  rewrite !andb_true_iff, !negb_true_iff in Hgo. destruct Hgo as [[Hnt _] _].
  destruct (ok_tree _ Hok _ _ Hpp) as (Hsp & _).
  eapply runs_bind; [eapply (finish_task_spec _ _ _ TASK_JOINING); eauto using marks_error|].
  intros ts1 (Hok1 & Ht1 & Hone & p1 & Hp1 & _ & Hp1o & _). unfold cancel_children.
  eapply runs_mono; [apply cancel_loop_spec; [done|lia|done|apply cleared_all]| |done].
  intros ts2 (Hok2 & Ht2 & Hca & Hcl). split_and!; [done|by eapply torn_trans|]. rewrite Hsp in Hca, Hcl.
  intros j c2 Hj H2. split.
  - intros Hst. eapply (propagated_joining ts ts1 ts2 (parent t - 1) i); try done; [lia|].
    intros c Hc Hcs. destruct (decide (j = i)) as [->|]; [simplify_eq; auto|]. apply (Hset j c); [lia|done..].
  - intros Hfc P2 Hpc HP2. eapply (propagated_failed ts ts1 ts2 (parent t - 1) i); try done; [lia|].
    intros c P Hc -> HP Hne. destruct (decide (j = i)) as [->|]; [simplify_eq; done|].
    by apply (proj2 (Hset j c2 ltac:(lia) Hc) Hfc P Hpc).
Qed.

(** Joining the task at [i] leaves what is settled above it settled, and the task
    itself joining only when a child still runs. *)
Lemma join_task_settled i t t1 ts :
  session_ok ts → tasks ts !! i = Some t → settled ts (S i) → tasks (join_task i t ts) !! i = Some t1 →
  settled (join_task i t ts) (S i) ∧
  (task_status t1 = TASK_JOINING → ¬ childless (join_task i t ts) (slot t1)).
Proof.
  intros Hok Hi Hset Hi1.
  destruct (join_task_ok i t ts Hok Hi) as (Hok1 & Ht1 & Hone & t1' & Hi1' & Ho1 & Hp1 & Hs1 & Hj1).
  set (ts1 := join_task i t ts) in *. simplify_eq.
  assert (∀ k u, (i ≤ k)%nat → tasks ts !! k = Some u → childless ts1 (slot u) → childless ts (slot u)) as Hback.
  { intros k u Hk Hu Hch m d Hm Hpd. destruct (torn_lookup _ _ _ _ Ht1 Hm) as (d1 & Hm1 & _ & Hpd1 & _).
    destruct (ok_tree _ Hok _ _ Hm) as (_ & Hpm & _). destruct (ok_tree _ Hok _ _ Hu) as (Hsu & _).
    assert (d1 = d) as -> by (apply (Hone m); [lia|done..]). apply (Hch m); congruence. }
  split.
  - intros j c1 Hj Hc1. destruct (torn_lookup_r _ _ _ _ Ht1 Hc1) as (c & Hc & _).
    assert (c1 = c) as -> by (apply (Hone j); [lia|done..]). destruct (Hset j c ltac:(lia) Hc) as [HJ HF]. split.
    + intros Hst Hch. apply (HJ Hst). apply (Hback j); [lia|done..].
    + intros Hfc p Hp0 Hp. destruct (torn_lookup_r _ _ _ _ Ht1 Hp) as (p0 & Hp00 & _ & _ & _ & Hfr).
      destruct (decide (parent c - 1 = i)%nat) as [He|Hne].
      * rewrite He in *. simplify_eq. destruct (HF Hfc t Hp0 Hi) as [Ht|Ht].
        -- left. by rewrite (Hfr Ht).
        -- right. by rewrite Ho1.
      * assert (p = p0) as -> by (by apply (Hone (parent c - 1)%nat)). by apply HF.
  - intros Hst Hch. apply (Hj1 Hst). rewrite Hs1 in Hch. by apply (Hback i).
Qed.

Lemma settle_loop_spec n ts :
  session_ok ts → (n ≤ length (tasks ts))%nat → settled ts n →
  returns (settle_loop n ts) (λ ts', session_ok ts' ∧ torn ts ts' ∧ settled ts' 0).
Proof.
  revert ts. induction n as [|i IH]; intros ts Hok Hn Hset; cbn [settle_loop].
  { mret. split_and!; [done|apply torn_refl|done]. }
  destruct (lookup_lt_is_Some_2 (tasks ts) i) as [t Hi]; [lia|].
  eapply (runs_bind _ _ (λ x, x = t)); [by eapply runs_rd|]. intros ? ->.
  fold (join_task i t ts). destruct (join_task_ok i t ts Hok Hi) as (Hok1 & Ht1 & _ & t1 & Hi1 & _).
  destruct (join_task_settled i t t1 ts Hok Hi Hset Hi1) as [Hset1 Hj1].
  set (ts1 := join_task i t ts) in *. cbv zeta.
  eapply (runs_bind _ _ (λ x, x = t1)); [by eapply runs_rd|]. intros ? ->.
  eapply runs_bind; [by apply (propagate_spec i)|].
  intros ts2 (Hok2 & Ht2 & Hset2). eapply runs_mono; [apply IH; [done| |done]| |done].
  { rewrite (torn_length _ _ Ht2), (torn_length _ _ Ht1). lia. }
  intros ts3 (? & ? & ?). split_and!; [done| |done]. eauto using torn_trans.
Qed.

Lemma settle_tasks_spec ts :
  session_ok ts → returns (settle_tasks ts) (λ ts', session_ok ts' ∧ torn ts ts' ∧ settled ts' 0).
Proof.
  intros Hok. apply settle_loop_spec; [done..|]. intros j c Hj Hc. apply lookup_lt_Some in Hc. lia.
Qed.

Lemma lookup_task_spec ts id i :
  session_ok ts → lookup_task ts id = Some i →
  session id = identity ts ∧ ∃ t, tasks ts !! i = Some t ∧ slot t = id_slot id.
Proof.
  intros Hok. unfold lookup_task. destruct (_ || _) eqn:H; [done|]. intros [= <-].
  rewrite !orb_false_iff, negb_false_iff, Z.eqb_eq, Nat.eqb_neq, Nat.ltb_ge in H. destruct H as [[Hs H0] Hl].
  split; [done|]. destruct (lookup_lt_is_Some_2 (tasks ts) (id_slot id - 1)) as [t Ht]; [lia|].
  exists t. split; [done|]. destruct (ok_tree _ Hok _ _ Ht). lia.
Qed.

(** ** The other entry points *)

(** A task that has ended is never changed again. *)
Definition frozen ts ts' : Prop :=
  identity ts' = identity ts ∧ length (events ts') = length (events ts) ∧
  ∀ i t, tasks ts !! i = Some t → terminal t = true → tasks ts' !! i = Some t.

Lemma frozen_refl ts : frozen ts ts.
Proof. by split. Qed.
Lemma frozen_trans ts1 ts2 ts3 : frozen ts1 ts2 → frozen ts2 ts3 → frozen ts1 ts3.
Proof. intros (? & ? & H1) (? & ? & H2). split_and!; [congruence..|]. eauto. Qed.
Lemma torn_frozen ts ts' : torn ts ts' → frozen ts ts'.
Proof.
  intros Ht. split_and!; [by destruct Ht..|by destruct Ht as [_ _ -> _ _ _ _ _]|]. intros i t Hi Hf.
  destruct (torn_lookup _ _ _ _ Ht Hi) as (t' & Hi' & _ & _ & _ & H). by rewrite (H Hf) in Hi'.
Qed.

(** What every entry point keeps. *)
Definition kept ts ts' : Prop := session_ok ts' ∧ frozen ts ts'.

Lemma session_kept_refl ts : session_ok ts → kept ts ts.
Proof. by split; [|apply frozen_refl]. Qed.
Lemma session_kept_trans ts1 ts2 ts3 : kept ts1 ts2 → kept ts2 ts3 → kept ts1 ts3.
Proof. intros [_ H1] [H2 H3]. split; [done|]. by eapply frozen_trans. Qed.

Lemma kept_torn ts ts' : session_ok ts' → torn ts ts' → kept ts ts'.
Proof. intros. split; [done|]. by apply torn_frozen. Qed.

(** Fields the invariant and the frozen tasks do not look at. *)
Lemma kept_cursor n ts : session_ok ts → kept ts (set_cursor n ts).
Proof. intros Hok. split; [by destruct Hok; split|by split]. Qed.
Lemma kept_pumping b ts : session_ok ts → kept ts (set_pumping b ts).
Proof. intros Hok. split; [by destruct Hok; split|by split]. Qed.
Lemma kept_now n ts : session_ok ts → kept ts (set_now n ts).
Proof. intros Hok. split; [by destruct Hok; split|by split]. Qed.
Lemma kept_ring l h n ts :
  session_ok ts → (n ≤ length l ∧ h < length l)%nat → length l = length (events ts) →
  kept ts (set_ring l h n ts).
Proof. intros Hok ? ?. split; [by destruct Hok; split|by split]. Qed.

Lemma kept_put ts i t t' reg released :
  session_ok ts → tasks ts !! i = Some t → terminal t = false →
  slot t' = slot t → parent t' = parent t → deadline t' = deadline t → task_ok t' → terminal t' = false →
  reg - released = total_registered ts - total_released ts - (if request_pending t then 1 else 0) +
    (if request_pending t' then 1 else 0) →
  0 ≤ released →
  kept ts (set_registered reg (set_released released (put_task i t' ts))).
Proof.
  intros Hok Hi Hnt Hs Hp Hd Ht' Hnt' Hr H0. split.
  - apply (put_requests_ok ts i t); try done; congruence.
  - split_and!; [done..|]. intros j c Hj Hc. simpl.
    rewrite list_lookup_insert_ne; [done|]. intros ->. congruence.
Qed.

Lemma create_kept active n m last :
  runs (vm_tasks_create active n m last : M (VMTasks E))
    (λ ts, session_ok ts ∧ tasks ts = [] ∧ identity ts = last + 1 ∧ capacity ts = n ∧ length (events ts) = m)
    (λ k s, s = bad_session).
Proof.
  unfold vm_tasks_create. destruct (_ || _) eqn:Hc; [by apply runs_trap|].
  rewrite !orb_false_iff in Hc. destruct Hc as [[[[[_ _] Hm%Nat.eqb_neq] _] _] _].
  do 3 (mbind runs_alloc as ? _). mret. split_and!; try done; [|by apply length_replicate].
  split; simpl; try done; try lia. rewrite length_replicate. lia.
Qed.

(** A new task at the end of the forest. *)
Lemma snoc_ok ts t :
  session_ok ts → slot t = S (length (tasks ts)) → (parent t ≤ length (tasks ts))%nat → task_ok t →
  request_pending t = false → terminal t = false → (length (tasks ts) < capacity ts)%nat →
  (∀ i a, tasks ts !! i = Some a → parent t = slot a → terminal a = false ∧ deadline t ≤ deadline a) →
  kept ts (set_tasks (tasks ts ++ [t]) ts).
Proof.
  intros Hok Hs Hp Ht Hq Hnt Hcap Hpar. assert (∀ i a, (tasks ts ++ [t]) !! i = Some a →
    tasks ts !! i = Some a ∨ i = length (tasks ts) ∧ a = t) as Hl.
  { intros i a Hi. apply lookup_app_Some in Hi as [?|[? Hi]]; [by left|right].
    apply list_lookup_singleton_Some in Hi as [? <-]. split; [lia|done]. }
  split; cycle 1.
  { split_and!; [done..|]. intros i a Hi _. simpl. rewrite lookup_app_l; [done|by eapply lookup_lt_Some]. }
  pose proof Hok as []. split; simpl; try done.
  - intros i a Hi. destruct (Hl i a Hi) as [Ha|[-> ->]]; [by apply ok_tree0|done].
  - intros i a j b Hi Hj Hab Hta. destruct (Hl i a Hi) as [Ha|[-> ->]]; [|congruence].
    destruct (Hl j b Hj) as [Hb|[-> ->]]; [by eapply (ok_joined0 i a j)|].
    destruct (Hpar i a Ha Hab). congruence.
  - intros i a j b Hi Hj Hab. destruct (Hl j b Hj) as [Hb|[-> ->]], (Hl i a Hi) as [Ha|[-> ->]]; eauto.
    + destruct (ok_tree0 j b Hb) as (_ & Hpb & _). apply lookup_lt_Some in Hb. lia.
    + by apply (Hpar i).
    + lia.
  - unfold pending_count in *. rewrite filter_app, length_app, filter_cons, decide_False by congruence.
    simpl. lia.
  - rewrite length_app. simpl. lia.
Qed.

Lemma spawn_kept ts p g args limit :
  session_ok ts → admissible g →
  yields (vm_tasks_spawn ts p g args limit) (λ r, kept ts r.2 ∧
    r.1 = mkTaskId (identity ts) (S (length (tasks ts)))).
Proof.
  intros Hok Hg. unfold vm_tasks_spawn. destruct (_ || _) eqn:Hc; [apply yields_trap|].
  rewrite !orb_false_iff, Nat.eqb_neq, andb_false_iff in Hc. destruct Hc as [[_ Hcap] Hpar].
  eapply yields_bind; [by apply create_ok|]. intros e Hxe. apply yields_ret. split; [|done]. simpl.
  pose proof (ok_capacity _ Hok). destruct (lookup_task ts p) as [i|] eqn:Hl; simpl in *.
  - destruct (lookup_task_spec ts p i Hok Hl) as (Hses & a & Hi & Hsa). rewrite Hi in *. simpl in *.
    destruct (ok_tree _ Hok _ _ Hi) as (Hsi & _). pose proof (lookup_lt_Some _ _ _ Hi).
    assert (task_status a = TASK_READY ∨ task_status a = TASK_WAITING) as Hst.
    { destruct Hpar as [Hr|Hr]; apply negb_false_iff in Hr; [|by apply orb_true_iff in Hr as [?%bool_decide_eq_true|?%bool_decide_eq_true]; auto].
      apply andb_true_iff in Hr as [_ Hr%Nat.eqb_eq]. lia. }
    apply snoc_ok; simpl; try done; try lia.
    + split_and!; simpl; [done|by intros ? [= <-]|by split; [eexists|]].
    + intros k b Hk Hpk. destruct (ok_tree _ Hok _ _ Hk) as (Hsk & _).
      assert (k = i) as -> by lia. simplify_eq. unfold terminal. split; [by destruct Hst as [->| ->]|].
      destruct (Z.ltb_spec (deadline a) limit); lia.
  - assert (id_slot p = 0%nat) as Hp0.
    { destruct Hpar as [Hr|Hr]; [|done]. apply negb_false_iff, andb_true_iff in Hr as [_ Hr]. by apply Nat.eqb_eq. }
    rewrite Hp0. apply snoc_ok; simpl; try done; try lia.
    + split_and!; simpl; [done|by intros ? [= <-]|by split; [eexists|]].
    + intros k b Hk Hpk. destruct (ok_tree _ Hok _ _ Hk). lia.
Qed.

(** What a completion call needs to be accepted. *)
Definition accepts ts t (op : VMOperationId) (read : bool) : bool :=
  negb (pumping ts) && Bool.eqb (async_read t) read && request_pending t && negb (request_queued t) &&
  (request_generation t =? op_generation op) && Nat.ltb (event_count ts) (length (events ts)).

Lemma complete_spec ts op m v read :
  session_ok ts →
  returns (complete ts op m v read) (λ r, kept ts r.2 ∧
    match find_task ts (op_task op) with
    | Some t =>
        if accepts ts t op read then
          r.1 = true ∧ event_count r.2 = S (event_count ts) ∧
          (t' ← find_task r.2 (op_task op); Some (request_queued t')) = Some true ∧
          events r.2 !! ((event_head ts + event_count ts) mod length (events ts))%nat
            = Some (mkCompletion op m v)
        else r = (false, ts)
    | None => r = (false, ts)
    end).
Proof.
  intros Hok. unfold complete, find_task. destruct (lookup_task ts (op_task op)) as [i|] eqn:Hl; simpl;
    [|by mret; split; [apply session_kept_refl|]].
  destruct (lookup_task_spec _ _ _ Hok Hl) as (_ & t & Hi & Hsl). rewrite Hi.
  eapply (runs_bind _ _ (λ x, x = t)); [by eapply runs_rd|]. intros ? ->. unfold accepts.
  destruct (ok_ring _ Hok) as [Hcnt Hhd].
  rewrite <- (negb_involutive (negb (pumping ts) && _ && _ && _ && _ && _)), !negb_andb, !negb_involutive.
  assert (negb (Nat.ltb (event_count ts) (length (events ts))) = Nat.eqb (event_count ts) (length (events ts))) as ->.
  { destruct (Nat.ltb_spec (event_count ts) (length (events ts))), (Nat.eqb_spec (event_count ts) (length (events ts))); done || lia. }
  destruct (_ || _) eqn:Hc; simpl; [by mret; split; [apply session_kept_refl|]|].
  rewrite !orb_false_iff, !negb_false_iff, Nat.eqb_neq in Hc. destruct Hc as [[[[[_ _] Hpe] Hq] _] Hne].
  set (tail := ((event_head ts + event_count ts) mod length (events ts))%nat).
  assert (tail < length (events ts))%nat as Htail by (apply Nat.mod_upper_bound; lia).
  eapply (runs_bind _ _ (λ x, x = <[tail := mkCompletion op m v]> (events ts))); [by eapply runs_wr|].
  intros ? ->. mret. simpl.
  destruct (ok_tree _ Hok _ _ Hi) as (Hs & _ & Hqp & Hx & Hst).
  assert (terminal t = false) as Hnt by (unfold terminal; destruct (task_status t); naive_solver congruence).
  split_and!; try done.
  - assert (kept ts (set_ring (<[tail:=mkCompletion op m v]> (events ts)) (event_head ts) (S (event_count ts)) ts))
      as Hk by (apply kept_ring; rewrite ?length_insert; done || lia).
    eapply session_kept_trans; [exact Hk|].
    apply (kept_put (set_ring (<[tail:=mkCompletion op m v]> (events ts)) (event_head ts) (S (event_count ts)) ts)
             i t (set_queued true t) (total_registered ts) (total_released ts)); try done; simpl.
    + by destruct Hk.
    + rewrite Hpe. lia.
    + by apply ok_released.
  - unfold lookup_task in *. simpl. rewrite length_insert. rewrite Hl. simpl.
    rewrite list_lookup_insert_eq by (by eapply lookup_lt_Some). done.
  - by apply list_lookup_insert_eq.
Qed.

Lemma put_put i t t' r ts : put_task i t' (set_released r (put_task i t ts)) = set_released r (put_task i t' ts).
Proof. unfold put_task, set_tasks, set_released. simpl. by rewrite list_insert_insert_eq. Qed.

(** The end of a body whose task fails: its other children go, and the session
    settles. *)
Lemma fail_task_kept i o ts t :
  session_ok ts → tasks ts !! i = Some t → terminal t = false → terminal_status o = true →
  returns (ts ← finish_task i o id ts;
           ts ← (if is_completed o then mret ts else cancel_children (slot t) ts);
           settle_tasks ts) (λ ts', kept ts ts' ∧ settled ts' 0).
Proof.
  intros Hok Hi Hnt Ho. destruct (ok_tree _ Hok _ _ Hi) as (Hs & _).
  eapply runs_bind; [eapply (finish_task_spec _ _ _ TASK_JOINING); eauto using marks_id|].
  intros ts1 (Hok1 & Ht1 & _).
  eapply (runs_bind _ _ (λ ts2, session_ok ts2 ∧ torn ts1 ts2)).
  { destruct (is_completed o); [mret; by split; [|apply torn_refl]|]. unfold cancel_children.
    eapply runs_mono; [apply cancel_loop_spec; [done|lia|done|apply cleared_all]| |done].
    by intros ts2 (? & ? & _). }
  intros ts2 [Hok2 Ht2]. eapply runs_mono; [by apply settle_tasks_spec| |done].
  intros ts3 (Hok3 & Ht3 & Hset). split; [|done]. apply kept_torn; [done|]. eauto using torn_trans.
Qed.

(** A task with a pending request is still running. *)
Lemma pending_running t : task_ok t → request_pending t = true → terminal t = false ∧ is_Some (execution t).
Proof. intros (_ & _ & H) Hp. unfold terminal. destruct (task_status t); naive_solver congruence. Qed.

(** The task after its request was answered. *)
Definition answered (e : E) t : Task E := fst (release_request (set_execution e t) 0).

Lemma answered_spec e t r :
  request_pending t = true → release_request (set_execution e t) r = (answered e t, r + 1).
Proof. intros H. unfold answered, release_request. simpl. by rewrite H. Qed.

Lemma deliver_event_kept ev ts :
  session_ok ts → yields (deliver_event ev ts) (kept ts).
Proof.
  intros Hok. unfold deliver_event. destruct (lookup_task _ _) as [i|] eqn:Hl;
    [|by apply yields_ret, session_kept_refl].
  destruct (lookup_task_spec _ _ _ Hok Hl) as (_ & t & Hi & _).
  eapply (yields_bind _ _ (λ x, x = t)); [by eapply yields_runs, (runs_rd _ _ _ _ no_trap)|]. intros ? ->.
  destruct (request_pending t) eqn:Hp; simpl; [|by apply yields_ret, session_kept_refl].
  destruct (_ =? _); simpl; [|by apply yields_ret, session_kept_refl].
  destruct (ok_tree _ Hok _ _ Hi) as (_ & _ & Htok). destruct (pending_running t Htok Hp) as [Hnt [e0 He0]].
  pose proof (proj1 (proj2 Htok) e0 He0) as Hx0. rewrite He0.
  eapply (yields_bind _ _ exec_ok).
  { destruct (async_read t); [by apply complete_read_ok|by apply complete_print_ok]. }
  intros e Hxe. rewrite answered_spec by done.
  assert (task_status t = TASK_READY ∨ task_status t = TASK_WAITING) as Hst.
  { destruct Htok as (_ & _ & Htok). destruct (task_status t); naive_solver congruence. }
  assert (task_outcome t = TASK_INVALID) as Hout.
  { destruct Htok as (_ & _ & Htok). destruct Hst as [Hs|Hs]; rewrite Hs in Htok; apply Htok. }
  assert (∀ s, s = TASK_READY ∨ s = TASK_WAITING → kept ts
    (set_released (total_released ts + 1) (put_task i (set_task_status s (answered e t)) ts))) as Hk.
  { intros s Hs. apply (kept_put ts i t (set_task_status s (answered e t)) (total_registered ts)
             (total_released ts + 1)); unfold answered, release_request; simpl;
      rewrite ?Hp; simpl; try done.
    - split_and!; simpl; [done|by intros ? [= <-]|]. rewrite Hout. by destruct Hs as [->| ->].
    - unfold terminal. simpl. by destruct Hs as [->| ->].
    - lia.
    - pose proof (ok_released _ Hok). lia. }
  destruct (exec_error e).
  - assert (answered e t = set_task_status (task_status t) (answered e t)) as Heq.
    { unfold answered, release_request. simpl. by rewrite Hp. }
    specialize (Hk _ Hst). rewrite <- Heq in Hk. set (ts1 := set_released _ _) in *.
    assert (tasks ts1 !! i = Some (answered e t)) as Hi1.
    { simpl. apply list_lookup_insert_eq. by eapply lookup_lt_Some. }
    assert (terminal (answered e t) = false) as Hnt1.
    { rewrite Heq. unfold terminal. simpl. by destruct Hst as [->| ->]. }
    eapply yields_mono; [eapply yields_runs, (fail_task_kept i TASK_TRAPPED ts1); [by destruct Hk|done..]|].
    intros ts2 [Hk2 _]. by eapply session_kept_trans.
  - apply yields_ret. rewrite put_put. apply Hk. by left.
Qed.

Lemma deliver_loop_kept n ts :
  session_ok ts → (n ≤ length (events ts))%nat → yields (deliver_loop n ts) (kept ts).
Proof.
  revert ts. induction n as [|n IH]; intros ts Hok Hn; cbn [deliver_loop]; [by apply yields_ret, session_kept_refl|].
  eapply yields_bind; [apply yields_any|]. intros ev _.
  set (ts1 := set_ring _ _ _ _). assert (kept ts ts1) as Hk1.
  { apply kept_ring; [done| |done]. split; [lia|]. apply Nat.mod_upper_bound. lia. }
  eapply yields_bind; [apply deliver_event_kept; by destruct Hk1|]. intros ts2 Hk2.
  eapply yields_mono; [apply IH; [by destruct Hk2|]|].
  - destruct Hk2 as [_ (_ & Hl & _)]. rewrite Hl. simpl. lia.
  - intros ts3 Hk3. eauto using session_kept_trans.
Qed.

Lemma expire_loop_kept n i ts :
  session_ok ts → (i + n ≤ length (tasks ts))%nat →
  returns (expire_loop n i ts) (λ ts', session_ok ts' ∧ torn ts ts').
Proof.
  revert i ts. induction n as [|n IH]; intros i ts Hok Hn; cbn [expire_loop].
  { mret. split; [done|apply torn_refl]. }
  destruct (lookup_lt_is_Some_2 (tasks ts) i) as [t Hi]; [lia|].
  eapply (runs_bind _ _ (λ x, x = t)); [by eapply runs_rd|]. intros ? ->.
  destruct (ok_tree _ Hok _ _ Hi) as (Hs & _).
  eapply (runs_bind _ _ (λ ts', session_ok ts' ∧ torn ts ts')).
  { apply runs_if; intros _; [|mret; by split; [|apply torn_refl]]. unfold cancel_tree.
    eapply runs_mono; [apply cancel_loop_spec; [done|lia|done|apply cleared_all]| |done].
    by intros ts' (? & ? & _). }
  intros ts1 [Hok1 Ht1]. eapply runs_mono; [apply IH; [done|rewrite (torn_length _ _ Ht1); lia]| |done].
  intros ts2 [Hok2 Ht2]. split; [done|]. by eapply torn_trans.
Qed.

Lemma next_ready_spec scan ts k i k' :
  next_ready scan ts k = (Some i, k') → ∃ t, tasks ts !! i = Some t ∧ task_status t = TASK_READY.
Proof.
  revert k. induction scan as [|scan IH]; intros k; cbn [next_ready]; [done|].
  destruct (tasks ts !! k) as [t|] eqn:Ht; [|apply IH].
  case_bool_decide; [|apply IH]. intros [= <- _]. eauto.
Qed.

(** The request fields of a task after one instruction. *)
Lemma registers_spec r r' :
  registers r r' → pending r = false ∧ pending r' = true ∧ queued r' = queued r ∧
    registered r' = registered r + 1.
Proof.
  intros H. inversion H as [v ? ? Hr]; subst. revert Hr. unfold register_request.
  destruct (pending r); simpl; [done|]. destruct (_ || _); [done|]. by intros [= <-].
Qed.

(** Whether a session is settled depends on its tasks only ... *)
Lemma settled_tasks ts ts' n : tasks ts' = tasks ts → settled ts n → settled ts' n.
Proof. unfold settled, childless. by intros ->. Qed.

(** ... and not on what a running task is running. *)
Lemma settled_put ts ts' i t t' :
  tasks ts !! i = Some t → tasks ts' = <[i:=t']> (tasks ts) → slot t' = slot t → parent t' = parent t →
  task_outcome t' = task_outcome t → terminal t = false → terminal t' = false → task_status t' ≠ TASK_JOINING →
  settled ts 0 → settled ts' 0.
Proof.
  intros Hi Hts Hs Hp Ho Hnt Hnt' Hnj Hset. pose proof (lookup_lt_Some _ _ _ Hi) as Hlt.
  assert (∀ s, childless ts' s → childless ts s) as Hch.
  { intros s Hch j c Hj Hpc. destruct (decide (j = i)) as [->|Hne].
    - simplify_eq. assert (terminal t' = true); [|congruence]. apply (Hch i t'); [|congruence].
      rewrite Hts. by apply list_lookup_insert_eq.
    - apply (Hch j); [|done]. by rewrite Hts, list_lookup_insert_ne. }
  intros j c' _ Hj. rewrite Hts in Hj |- *. destruct (decide (j = i)) as [->|Hne].
  { rewrite list_lookup_insert_eq in Hj by done. simplify_eq. split; [done|].
    unfold failed_task. by rewrite Hnt'. }
  rewrite list_lookup_insert_ne in Hj by done. destruct (Hset j c' ltac:(lia) Hj) as [HJ HF].
  split; [intros Hst Hc; by apply (HJ Hst), Hch|]. intros Hf p' Hp0 Hp'.
  destruct (decide (parent c' - 1 = i)%nat) as [He|He].
  - rewrite He in Hp', HF. rewrite list_lookup_insert_eq in Hp' by done. injection Hp' as <-.
    destruct (HF Hf t Hp0 Hi) as [Hd|Hd]; [congruence|]. right. by rewrite Ho.
  - rewrite list_lookup_insert_ne in Hp' by done. by apply HF.
Qed.

(** What every entry point keeps when it starts settled. *)
Definition kept_settled ts ts' : Prop := kept ts ts' ∧ (settled ts 0 → settled ts' 0).

Lemma run_task_kept i ts t :
  session_ok ts → tasks ts !! i = Some t → task_status t = TASK_READY → yields (run_task i ts) (kept_settled ts).
Proof.
  intros Hok Hi Hst. unfold run_task.
  eapply (yields_bind _ _ (λ x, x = t)); [by eapply yields_runs, (runs_rd _ _ _ _ no_trap)|]. intros ? ->.
  destruct (execution t) as [e|] eqn:He; [|done].
  destruct (ok_tree _ Hok _ _ Hi) as (Hs & _ & Htok). pose proof Htok as (Hq & Hx & Hrun). rewrite Hst in Hrun.
  assert (terminal t = false) as Hnt by (unfold terminal; by rewrite Hst).
  eapply yields_bind; [apply advance_ok; by apply Hx|]. intros [[s e'] r] [Hxe Hr]. simpl in Hr, Hxe.
  assert (∀ s', s' = TASK_READY ∨ s' = TASK_WAITING →
    kept_settled ts (set_registered (registered r)
      (put_task i (set_task_status s' (set_request r (set_execution e' t))) ts))) as Hk.
  { intros s' Hs'. split; cycle 1.
    { apply (settled_put _ _ i t (set_task_status s' (set_request r (set_execution e' t)))); try done.
      - unfold terminal. simpl. by destruct Hs' as [->| ->].
      - simpl. by destruct Hs' as [->| ->]. }
    apply (kept_put ts i t (set_task_status s' (set_request r (set_execution e' t))) (registered r)
             (total_released ts)); simpl; try done.
    - split_and!; simpl; [|by intros ? [= <-]|].
      + destruct Hr as [->|(Hp & Hp' & Hq' & _)%registers_spec]; [done|]. by rewrite Hp'.
      + by destruct Hs' as [->| ->]; (split; [eexists|apply Hrun]).
    - unfold terminal. simpl. by destruct Hs' as [->| ->].
    - destruct Hr as [->|(Hp & Hp' & _ & Hg)%registers_spec]; simpl in *; [lia|]. rewrite Hp, Hp'. lia.
    - by apply ok_released. }
  set (t1 := set_request r (set_execution e' t)) in *.
  assert (set_task_status TASK_READY t1 = t1) as Heq by (unfold t1, set_request, set_execution, set_task_status; simpl; by rewrite Hst).
  pose proof (Hk TASK_READY (or_introl eq_refl)) as Hk1. rewrite Heq in Hk1.
  set (ts1 := set_registered (registered r) (put_task i t1 ts)) in *.
  assert (tasks ts1 !! i = Some t1) as Hi1.
  { simpl. apply list_lookup_insert_eq. by eapply lookup_lt_Some. }
  assert (∀ o, terminal_status o = true → yields (ts ← finish_task i o id ts1;
            ts ← (if is_completed o then mret ts else cancel_children (slot t1) ts); settle_tasks ts) (kept_settled ts)) as Hend.
  { intros o Ho. eapply yields_mono; [eapply yields_runs, (fail_task_kept i o ts1 t1); try done; by destruct Hk1 as [[] _]|].
    intros ts2 [Hk2 Hset]. split; [|done]. eapply session_kept_trans; [apply Hk1|done]. }
  destruct s; try (by apply Hend).
  - by apply yields_ret.
  - apply yields_ret. specialize (Hk TASK_WAITING (or_intror eq_refl)).
    unfold ts1, put_task, set_registered, set_tasks in *. simpl in *. by rewrite list_insert_insert_eq.
Qed.

Lemma dispatch_loop_kept n ts : session_ok ts → yields (dispatch_loop n ts) (kept_settled ts).
Proof.
  assert (∀ ts, session_ok ts → kept_settled ts ts) as Hrefl by (split; [by apply session_kept_refl|done]).
  revert ts. induction n as [|n IH]; intros ts Hok; cbn [dispatch_loop]; [by apply yields_ret, Hrefl|].
  destruct (Nat.eqb _ _); [by apply yields_ret, Hrefl|].
  destruct (next_ready _ _ _) as [found c] eqn:Hn. pose proof (kept_cursor c ts Hok) as Hk.
  assert (settled ts 0 → settled (set_cursor c ts) 0) as Hsc by by apply settled_tasks.
  destruct found as [i|]; [|by apply yields_ret]. apply next_ready_spec in Hn as (t & Hi & Hst).
  eapply yields_bind; [apply (run_task_kept i (set_cursor c ts) t); try done; by destruct Hk|].
  intros ts1 [Hk1 Hs1]. eapply yields_mono; [apply IH; by destruct Hk1|].
  intros ts2 [Hk2 Hs2]. split; [eauto using session_kept_trans|auto].
Qed.

Lemma pump_kept ts time n : session_ok ts → yields (vm_tasks_pump ts time n) (λ r, kept_settled ts r.2).
Proof.
  intros Hok. unfold vm_tasks_pump. destruct (_ || _); [by apply yields_ret; split; [apply session_kept_refl|]|].
  assert (kept ts (set_now time (set_pumping true ts))) as Hk0.
  { eapply session_kept_trans; [by apply kept_pumping|]. apply kept_now. by destruct (kept_pumping true ts Hok). }
  eapply yields_bind; [apply deliver_loop_kept; [by destruct Hk0|apply (ok_ring _ Hok)]|]. intros ts1 Hk1.
  eapply yields_bind; [eapply yields_runs, expire_loop_kept; [by destruct Hk1|done]|]. intros ts2 [Hok2 Ht2].
  eapply yields_bind; [by eapply yields_runs, settle_tasks_spec|]. intros ts3 (Hok3 & Ht3 & Hset).
  eapply yields_bind; [by apply dispatch_loop_kept|]. intros ts4 [Hk4 Hs4]. apply yields_ret. simpl.
  split; [|intros _; by eapply settled_tasks, Hs4].
  assert (kept ts ts4) as Hk by eauto 6 using session_kept_trans, kept_torn.
  eapply session_kept_trans; [done|]. apply kept_pumping. by destruct Hk.
Qed.

(** ** Reachable sessions *)

(** One call of the interface that returns, on functions the executor admits. *)
Inductive session_step ts : VMTasks E → Prop :=
| step_spawn p g args limit al id ts' al' :
    admissible g → vm_tasks_spawn ts p g args limit al = (Ret (id, ts'), al') → session_step ts ts'
| step_cancel id al b ts' al' : vm_tasks_cancel ts id al = (Ret (b, ts'), al') → session_step ts ts'
| step_complete op m al b ts' al' :
    vm_tasks_complete ts op m al = (Ret (b, ts'), al') → session_step ts ts'
| step_complete_read op v al b ts' al' :
    vm_tasks_complete_read ts op v al = (Ret (b, ts'), al') → session_step ts ts'
| step_pump time n al b ts' al' : vm_tasks_pump ts time n al = (Ret (b, ts'), al') → session_step ts ts'.

Lemma yields_at {A} (m : M A) P al a al' : yields m P → m al = (Ret a, al') → P a.
Proof. intros H Hm. specialize (H al). by rewrite Hm in H. Qed.

Lemma cancel_kept ts id : session_ok ts → yields (vm_tasks_cancel ts id) (λ r, kept ts r.2).
Proof.
  intros Hok. unfold vm_tasks_cancel. destruct (lookup_task ts id) as [i|] eqn:Hl;
    [|by apply yields_ret, session_kept_refl].
  destruct (pumping ts); [by apply yields_ret, session_kept_refl|].
  destruct (lookup_task_spec ts id i Hok Hl) as (_ & t & Hi & _). destruct (ok_tree _ Hok _ _ Hi) as (Hs & _).
  eapply (yields_bind _ _ (λ x, x = t)); [by eapply yields_runs, (runs_rd _ _ _ _ no_trap)|]. intros ? ->.
  eapply yields_bind; [eapply yields_runs, cancel_loop_spec; [done|lia|done|apply cleared_all]|].
  intros ts1 (Hok1 & Ht1 & _). eapply yields_bind; [by eapply yields_runs, settle_tasks_spec|].
  intros ts2 (Hok2 & Ht2 & _). apply yields_ret. simpl. apply kept_torn; [done|]. by eapply torn_trans.
Qed.

Lemma session_step_kept ts ts' : session_ok ts → session_step ts ts' → kept ts ts'.
Proof.
  intros Hok [p g args limit al id ts1 al' Hg H|id al b ts1 al' H|op m al b ts1 al' H|op v al b ts1 al' H
    |time n al b ts1 al' H].
  - by apply (yields_at _ _ _ _ _ (spawn_kept ts p g args limit Hok Hg)) in H as [? _].
  - by apply (yields_at _ _ _ _ _ (cancel_kept ts id Hok)) in H.
  - by apply (yields_at _ _ _ _ _ (yields_runs _ _ _ (complete_spec ts op m None false Hok))) in H as [? _].
  - by apply (yields_at _ _ _ _ _ (yields_runs _ _ _ (complete_spec ts op None v true Hok))) in H as [? _].
  - by apply (yields_at _ _ _ _ _ (pump_kept ts time n Hok)) in H as [? _].
Qed.

Lemma session_steps_kept ts ts' : session_ok ts → rtc session_step ts ts' → kept ts ts'.
Proof.
  intros Hok H. induction H as [|ts ts1 ts2 H _ IH]; [by apply session_kept_refl|].
  pose proof (session_step_kept _ _ Hok H) as Hk. eapply session_kept_trans; [done|]. apply IH. by destruct Hk.
Qed.

Lemma ended_below ts i t s c j :
  session_ok ts → tasks ts !! i = Some t → terminal t = true → below ts (slot t) s →
  tasks ts !! j = Some c → slot c = s → terminal c = true.
Proof.
  intros Hok Hi Ht Hb. revert j c. induction Hb as [|k u Hk Hb IH]; intros j c Hj Hs.
  - destruct (ok_tree _ Hok _ _ Hj), (ok_tree _ Hok _ _ Hi). assert (j = i) as -> by lia. by simplify_eq.
  - destruct (ok_tree _ Hok _ _ Hj) as (Hsj & _). assert (j = k) as -> by lia. simplify_eq.
    destruct (ok_tree _ Hok _ _ Hk) as (_ & Hpk & _). destruct (decide (parent u = 0%nat)) as [H0|H0].
    { rewrite H0 in Hb. destruct (ok_tree _ Hok _ _ Hi) as (Hsi & _). inversion Hb; lia. }
    destruct (lookup_lt_is_Some_2 (tasks ts) (parent u - 1)) as [v Hv]; [apply lookup_lt_Some in Hk; lia|].
    destruct (ok_tree _ Hok _ _ Hv) as (Hsv & _).
    eapply (ok_joined _ Hok _ v k u); [done..|lia|]. eapply IH; [done|lia].
Qed.

(** ** Destruction *)

(** What the loop has not released yet is pending below its index. *)
Lemma destroy_loop_spec n ts :
  (n ≤ length (tasks ts))%nat →
  returns (destroy_loop n ts) (λ ts',
    total_released ts' = total_released ts + Z.of_nat (pending_count (take n (tasks ts))) ∧
    events ts' = events ts ∧ event_head ts' = event_head ts ∧ event_count ts' = event_count ts ∧
    total_registered ts' = total_registered ts).
Proof.
  revert ts. induction n as [|n IH]; intros ts Hn; cbn [destroy_loop].
  { mret. rewrite take_0. unfold pending_count. simpl. split_and!; [lia|done..]. }
  destruct (lookup_lt_is_Some_2 (tasks ts) n) as [t Ht]; [lia|].
  eapply (runs_bind _ _ (λ x, x = t)); [by eapply runs_rd|]. intros ? ->.
  destruct (release_request t (total_released ts)) as [t' r] eqn:Hr.
  eapply runs_mono; [apply IH| |done].
  { simpl. rewrite length_insert. lia. }
  simpl. intros ts' (Hrel & ? & ? & ? & ?). split_and!; [|done..]. rewrite Hrel.
  rewrite take_insert_ge by lia. rewrite (take_S_r _ _ t) by done.
  unfold pending_count. rewrite filter_app, length_app, filter_cons, filter_nil.
  unfold release_request in Hr. destruct (request_pending t); simplify_eq/=; lia.
Qed.

Lemma drain_loop_spec n ts :
  (0 < length (events ts))%nat → (event_head ts < length (events ts))%nat → event_count ts = n →
  returns (drain_loop n ts) (λ ts', event_count ts' = 0%nat ∧ total_released ts' = total_released ts ∧
    total_registered ts' = total_registered ts).
Proof.
  revert ts. induction n as [|n IH]; intros ts Hl Hh Hc; cbn [drain_loop]; [by mret|].
  destruct (lookup_lt_is_Some_2 (events ts) (event_head ts)) as [ev Hev]; [done|].
  eapply (runs_bind _ _ (λ _, True)); [by eapply runs_rd|]. intros _ _.
  eapply runs_mono; [apply IH| |done]; simpl; [done|apply Nat.mod_upper_bound; lia|done|done].
Qed.

(** A session that is destroyed releases every request that is still pending, so
    over its life each was released exactly once. *)
Lemma destroy_releases ts :
  session_ok ts →
  returns (vm_tasks_destroy ts) (λ r,
    if pumping ts then r = (false, ts)
    else r.1 = true ∧ total_released r.2 = total_registered ts ∧ event_count r.2 = 0%nat).
Proof.
  intros Hok. unfold vm_tasks_destroy. destruct (pumping ts); [by mret|].
  eapply runs_bind; [by apply destroy_loop_spec|]. intros ts1 (Hr & He & Hh & Hc & Hg).
  destruct (ok_ring _ Hok) as [_ Hring].
  eapply runs_bind; [apply drain_loop_spec; [rewrite He; lia|by rewrite He, Hh|done]|].
  intros ts2 (Hc2 & Hr2 & _). mret. simpl. split_and!; [done| |done].
  rewrite Hr2, Hr, firstn_all. symmetry. apply (ok_requests _ Hok).
Qed.


(** C5: Invariant of sessions.  Whatever an embedder does with a session
    (spawning admissible functions, cancelling, completing, pumping), and
    whatever its executions do within the laws of [ExecutorLaws], every state reached is well formed: tasks
    keep their slots and form a forest in which parents come first; a running
    task has an execution and one that is over has none and no request; a child
    never outlives the deadline of its parent; no task that has ended has a
    descendant still running; the requests registered are the requests released
    plus the requests pending, and destroying the session releases the rest, so
    each is released exactly once; the ring and the slots never exceed their
    capacities; and a task that has ended is never changed by anything that
    follows. *)
Theorem session_invariant active n m last al ts0 al' ts :
  vm_tasks_create active n m last al = (Ret ts0, al') → rtc session_step ts0 ts →
  session_ok ts ∧
  (∀ i t j c, tasks ts !! i = Some t → terminal t = true → tasks ts !! j = Some c →
     below ts (slot t) (slot c) → terminal c = true) ∧
  total_registered ts = total_released ts + Z.of_nat (pending_count (tasks ts)) ∧
  returns (vm_tasks_destroy ts) (λ r,
    if pumping ts then r = (false, ts)
    else r.1 = true ∧ total_released r.2 = total_registered ts ∧ event_count r.2 = 0%nat) ∧
  (∀ ts', rtc session_step ts ts' → frozen ts ts').
Proof.
  intros Hc Hr. apply (yields_at _ _ _ _ _ (yields_runs _ _ _ (create_kept active n m last))) in Hc as (Hok0 & _).
  destruct (session_steps_kept _ _ Hok0 Hr) as [Hok _]. split_and!; [done| |by apply ok_requests|by apply destroy_releases|].
  - intros i t j c Hi Ht Hj Hb. by eapply (ended_below ts i t).
  - intros ts' Hr'. by destruct (session_steps_kept _ _ Hok Hr').
Qed.

(** Completions.  On a well-formed session a completion is accepted exactly
    when the session is not pumping, the task exists in this session, waits on
    that very operation (the generation agrees and nothing is queued for it), the
    entry point has the type of the wait, and the ring has room; it then takes
    the next place of the ring and marks the request queued, so that a second
    completion of the same operation is refused.  A refused completion changes
    nothing. *)
Theorem completion_exact ts op m v read :
  session_ok ts →
  returns (complete ts op m v read) (λ r, session_ok r.2 ∧
    match find_task ts (op_task op) with
    | Some t =>
        if accepts ts t op read then
          r.1 = true ∧ event_count r.2 = S (event_count ts) ∧
          (t' ← find_task r.2 (op_task op); Some (request_queued t')) = Some true ∧
          events r.2 !! ((event_head ts + event_count ts) mod length (events ts))%nat
            = Some (mkCompletion op m v)
        else r = (false, ts)
    | None => r = (false, ts)
    end).
Proof.
  intros Hok. eapply runs_mono; [by apply complete_spec| |done]. by intros r [[? _] ?].
Qed.
End sessions.

(** ** Closed examples *)

(** Executions that ask for one value and wait. *)
#[local] Instance asking_executor : Executor unit := {|
  exec_create := λ _ _, mret tt;
  exec_advance := λ _ r, mret (VM_WAITING, tt, snd (register_request Void r));
  exec_complete_read := λ _ _, mret tt;
  exec_complete_print := λ _ _, mret tt;
  exec_error := λ _, None;
  exec_result := λ _, None;
  exec_exit_status := λ _, 0;
|}.

#[local] Instance asking_laws : ExecutorLaws unit.
Proof.
  refine {| exec_ok := λ _, True; admissible := λ _, True |}; try done.
  intros e r _. apply yields_ret. split; [done|]. simpl.
  destruct (register_request Void r) as [[ok m] r'] eqn:H. unfold register_request in H.
  destruct (_ || _) eqn:Hc; simplify_eq/=; [by left|right].
  apply (registers_ok Void). unfold register_request. by rewrite Hc.
Defined.

Definition sample_function : Function := mkFunction (str "main") false false false [] [].
Definition root_task : VMTaskId := mkTaskId 0 0.

(** Two slots, one completion; a root task and its child. *)
Definition sample_session : M (VMTasks unit) :=
  ts ← vm_tasks_create false 2 1 0;
  '(r, ts) ← vm_tasks_spawn ts root_task sample_function [] 10;
  '(_, ts) ← vm_tasks_spawn ts r sample_function [] 20;
  '(_, ts) ← vm_tasks_pump ts 1 5;
  mret ts.
Definition sample_tasks : VMTasks unit :=
  match fst (sample_session []) with
  | Ret ts => ts
  | _ => mkTasks [] 0 [] 0 0 0 0 0 0 0 false
  end.

Lemma sample_reached : ∃ ts0, vm_tasks_create false 2 1 0 [] = (Ret ts0, []) ∧ rtc session_step ts0 sample_tasks.
Proof.
  eexists. split; [reflexivity|].
  eapply rtc_l; [by eapply (step_spawn _ root_task sample_function [] 10 []); vm_compute|].
  eapply rtc_l; [by eapply (step_spawn _ (mkTaskId 1 1) sample_function [] 20 []); vm_compute|].
  eapply rtc_l; [by eapply (step_pump _ 1 5 []); vm_compute|]. vm_compute. apply rtc_refl.
Qed.

(** Both tasks wait for their request; the child took its parent's deadline. *)
Lemma session_invariant_witness :
  total_registered sample_tasks = 2 ∧ (deadline <$> tasks sample_tasks !! 1%nat) = Some 10 ∧ session_ok sample_tasks.
Proof.
  destruct sample_reached as (ts0 & Hc & Hr). split_and!; [reflexivity..|].
  apply (session_invariant _ _ _ _ _ _ _ _ Hc Hr).
Defined.

Lemma sample_tasks_ok : session_ok sample_tasks.
Proof.
  destruct sample_reached as (ts0 & Hc & Hr).
  apply (yields_at _ _ _ _ _ (yields_runs _ _ _ (create_kept false 2 1 0))) in Hc as (Hok & _).
  by destruct (session_steps_kept _ _ Hok Hr).
Qed.

Definition sample_operation : VMOperationId := mkOperationId (mkTaskId 1 2) 1.

Lemma completion_exact_witness :
  (find_task sample_tasks (op_task sample_operation) ≫= λ t, Some (accepts sample_tasks t sample_operation false))
    = Some true ∧
  returns (complete sample_tasks sample_operation None None false) (λ r, r.1 = true ∧ event_count r.2 = 1%nat).
Proof.
  assert (∀ o : option (Task unit), (o ≫= λ t, Some (accepts sample_tasks t sample_operation false)) = Some true →
    ∃ t, o = Some t ∧ accepts sample_tasks t sample_operation false = true) as Hsome.
  { intros [t|] [= H]. eauto. }
  split; [by vm_compute|]. destruct (Hsome (find_task sample_tasks (op_task sample_operation))) as (t & Hf & Ha);
    [by vm_compute|].
  eapply runs_mono; [apply (completion_exact sample_tasks sample_operation None None false sample_tasks_ok)| |done].
  cbv beta. rewrite Hf, Ha. intros r (_ & Hr & Hc & _). split; [exact Hr|]. rewrite Hc. reflexivity.
Defined.
