(* ===== verification/Cancellation.v ===== *)
(** * Cancellation: what a cancelled task does to the rest of its session

    The README of the VM says it in two sentences: cancelling a task cancels its
    unfinished descendants, and a child that did not complete fails its parent
    and cancels its siblings, through the ancestors.  The code does this with one
    teardown loop and one reverse traversal; here the outcome of every task is
    derived from the session before the call by climbing from the cancelled task
    to its ancestors, and the traversal is shown to give exactly that. *)

From Stdlib Require Import ZArith Lia.
From stdpp Require Import prelude gmap strings relations.
From S2P Require Import Prelude Bigint Value Program Execute Frames Tasks Sessions.

Section cancellation.
Context {E : Type} `{!Executor E} `{!ExecutorLaws E}.
Implicit Types (ts : VMTasks E) (t c p : Task E).

(** ** The specification *)

(** How a task ends: cancelled, failed by a child, or joined, when it was only
    waiting for its children to report how its body had ended. *)
Inductive ending := Cancelled | Failed | Joined.

(** The end of the task in slot [root] climbs to the task in slot [s]: a parent
    that had not failed is failed by a child that did not complete, and a parent
    that had failed already, and was joining its children, joins when the last of
    them has ended. *)
Inductive climbs ts ts' (root : nat) : nat → ending → Prop :=
| climbs_here : climbs ts ts' root root Cancelled
| climbs_fail j c q p v :
    climbs ts ts' root (S j) v → tasks ts' !! j = Some c → failed_task c = true → parent c = S q →
    tasks ts !! q = Some p → ¬ doomed p → climbs ts ts' root (S q) Failed
| climbs_join j c q p v :
    climbs ts ts' root (S j) v → tasks ts' !! j = Some c → failed_task c = true → parent c = S q →
    tasks ts !! q = Some p → doomed p → task_status p = TASK_JOINING → childless ts' (S q) →
    climbs ts ts' root (S q) Joined.

(** What cancelling [root] does to the task in slot [s]. *)
Inductive effect ts ts' (root s : nat) : ending → Prop :=
| effect_descendant : below ts root s → effect ts ts' root s Cancelled
| effect_failed : climbs ts ts' root s Failed → effect ts ts' root s Failed
| effect_joined : climbs ts ts' root s Joined → effect ts ts' root s Joined
| effect_sibling a :
    climbs ts ts' root a Failed → below ts a s → ¬ below ts s root → effect ts ts' root s Cancelled.

(** The task [t] as the ending leaves it. *)
Definition becomes (v : ending) t t' : Prop :=
  match v with
  | Cancelled => task_status t' = TASK_CANCELLED
  | Failed => task_status t' = TASK_TRAPPED ∧ task_error t' = Some child_failed
  | Joined => t' = set_task_status (task_outcome t) t
  end.

(** ** The forest *)

Lemma below_trans ts a b s : below ts a b → below ts b s → below ts a s.
Proof. intros Hab. induction 1 as [|i t Hi Hb IH]; [done|]. by eapply below_up. Qed.

Lemma below_le ts a s : session_ok ts → below ts a s → (a ≤ s)%nat.
Proof.
  intros Hok. induction 1 as [|i t Hi Hb IH]; [done|]. destruct (ok_tree _ Hok _ _ Hi) as (_ & ? & _). lia.
Qed.

Lemma below_child ts i t a : tasks ts !! i = Some t → below ts a (S i) → a = S i ∨ below ts a (parent t).
Proof. intros Hi Hb. inversion Hb as [|k u Hk Hb']; subst; [by left|]. simplify_eq. by right. Qed.

(** The ancestors of a task are linearly ordered. *)
Lemma below_linear ts a b s : below ts a s → below ts b s → below ts a b ∨ below ts b a.
Proof.
  induction 1 as [|i t Hi Ha IH]; intros Hb; [by right|].
  destruct (below_child _ _ _ _ Hi Hb) as [->|Hb']; [left; by eapply below_up|auto].
Qed.

(** Everything strictly below a task whose children have ended has ended. *)
Lemma childless_below ts a j c :
  session_ok ts → childless ts a → tasks ts !! j = Some c → below ts a (S j) → S j ≠ a → terminal c = true.
Proof.
  intros Hok Hch Hj Hb. remember (S j) as s eqn:Hs. revert j c Hs Hj.
  induction Hb as [|i t Hi Hb IH]; intros j c Hs Hj Hne; [done|]. simplify_eq.
  destruct (decide (parent t = a)) as [Hp|Hp]; [by eapply Hch|].
  destruct (ok_tree _ Hok _ _ Hi) as (_ & Hle & _). apply lookup_lt_Some in Hi as Hlt.
  destruct (parent t) as [|q] eqn:Hq; [inversion Hb; congruence|].
  destruct (lookup_lt_is_Some_2 (tasks ts) q) as [u Hu]; [lia|].
  eapply (ok_joined _ Hok q u _ t Hu Hi); [|by eapply IH].
  by destruct (ok_tree _ Hok _ _ Hu) as (-> & _).
Qed.

Lemma terminal_childless ts i t :
  session_ok ts → tasks ts !! i = Some t → terminal t = true → childless ts (S i).
Proof.
  intros Hok Hi Ht j c Hj Hp. eapply (ok_joined _ Hok i t j c); [done..| |done].
  by destruct (ok_tree _ Hok _ _ Hi) as (-> & _).
Qed.

(** ** Climbing *)

Lemma failed_terminal c : failed_task c = true → terminal c = true.
Proof. unfold failed_task. by intros [? _]%andb_true_iff. Qed.

Lemma climbs_above ts ts' root s v : torn ts ts' → climbs ts ts' root s v → below ts s root.
Proof.
  intros Ht. induction 1 as [|j c q p v _ IH Hj _ Hp _ _|j c q p v _ IH Hj _ Hp _ _ _ _]; [constructor|..].
  all: destruct (torn_lookup_r _ _ _ _ Ht Hj) as (c0 & Hj0 & _ & Hpc & _).
  all: eapply below_trans; [|exact IH]; apply (below_up _ _ _ c0); [done|]; rewrite <- Hpc, Hp; constructor.
Qed.

(** The evidence of a climb is about tasks that have ended. *)
Lemma climbs_mono ts ts1 ts2 root s v :
  torn ts1 ts2 → climbs ts ts1 root s v → climbs ts ts2 root s v.
Proof.
  intros Ht. induction 1 as [|j c q p v _ IH Hj Hf Hp Hq Hd|j c q p v _ IH Hj Hf Hp Hq Hd Hst Hch]; [constructor|..].
  all: destruct (torn_lookup _ _ _ _ Ht Hj) as (c' & Hj' & _ & _ & _ & He).
  all: rewrite (He (failed_terminal _ Hf)) in Hj'.
  - by eapply climbs_fail.
  - eapply climbs_join; try done. by eapply childless_stable.
Qed.

Lemma climbs_strict ts ts' root s v :
  session_ok ts → torn ts ts' → climbs ts ts' root s v → v ≠ Cancelled → (s < root)%nat.
Proof.
  intros Hok Ht Hc Hv.
  destruct Hc as [|j c q p v' Hc Hj _ Hp _ _|j c q p v' Hc Hj _ Hp _ _ _ _]; [done|..].
  all: apply (climbs_above _ _ _ _ _ Ht) in Hc; apply (below_le _ _ _ Hok) in Hc.
  all: destruct (torn_lookup_r _ _ _ _ Ht Hj) as (c0 & Hj0 & _ & Hpc & _).
  all: destruct (ok_tree _ Hok _ _ Hj0) as (_ & Hle & _); lia.
Qed.

(** ** What the traversal has done so far *)

(** Teardown, in which a task that has failed stays failed. *)
Definition onward ts ts' : Prop :=
  torn ts ts' ∧ ∀ j t t', tasks ts !! j = Some t → tasks ts' !! j = Some t' → doomed t → doomed t'.

Lemma onward_refl ts : onward ts ts.
Proof. split; [apply torn_refl|]. intros. by simplify_eq. Qed.
Lemma onward_trans ts1 ts2 ts3 : onward ts1 ts2 → onward ts2 ts3 → onward ts1 ts3.
Proof.
  intros [H1 D1] [H2 D2]. split; [by eapply torn_trans|]. intros j t t'' Ht Ht''.
  destruct (torn_lookup _ _ _ _ H1 Ht) as (t' & Ht' & _). eauto.
Qed.

(** The task [t0] of the session before the call is now [t]. *)
Inductive traced ts cur (root s : nat) t0 t : Prop :=
| traced_same : t = t0 → traced ts cur root s t0 t
| traced_descendant : below ts root s → task_status t = TASK_CANCELLED → traced ts cur root s t0 t
| traced_failed :
    climbs ts cur root s Failed → task_outcome t = TASK_TRAPPED → task_error t = Some child_failed →
    childless cur s → traced ts cur root s t0 t
| traced_joined :
    climbs ts cur root s Joined → t = set_task_status (task_outcome t0) t0 → traced ts cur root s t0 t
| traced_sibling a p :
    climbs ts cur root (S a) Failed → tasks cur !! a = Some p → doomed p → childless cur (S a) →
    below ts (S a) s → ¬ below ts s root → task_status t = TASK_CANCELLED → traced ts cur root s t0 t.

Record tracks ts cur (root : nat) : Prop := {
  tracks_ok : session_ok cur;
  tracks_onward : onward ts cur;
  tracks_cleared : cleared cur 0 false root;
  tracks_tasks j t0 t : tasks ts !! j = Some t0 → tasks cur !! j = Some t → traced ts cur root (S j) t0 t;
}.

Lemma traced_mono ts ts1 ts2 root s t0 t :
  onward ts1 ts2 → traced ts ts1 root s t0 t → traced ts ts2 root s t0 t.
Proof.
  intros [Ht Hd] [|? ?|? ? ? ?|? ?|a p Hc Hp Hdp Hch ? ? ?].
  - by apply traced_same.
  - by apply traced_descendant.
  - apply traced_failed; try done; [by eapply climbs_mono|by eapply childless_stable].
  - apply traced_joined; [by eapply climbs_mono|done].
  - destruct (torn_lookup _ _ _ _ Ht Hp) as (p' & Hp' & _).
    eapply (traced_sibling _ _ _ _ _ _ a p'); eauto using climbs_mono, childless_stable.
Qed.

Lemma cleared_torn ts ts' spare root : torn ts ts' → cleared ts 0 spare root → cleared ts' 0 spare root.
Proof.
  intros Ht Hc j c Hj Hjc Hb Hsp. destruct (torn_lookup_r _ _ _ _ Ht Hjc) as (c0 & Hj0 & Hs0 & _ & _ & Hf).
  assert (terminal c0 = true) as H0; [|by rewrite (Hf H0)].
  apply (Hc j c0); [lia|done| |by rewrite <- Hs0]. rewrite <- Hs0. by eapply below_torn_r.
Qed.

(** A task that the call has ended, under a parent still running that the call
    has not failed, is where the climb has come to. *)
Lemma traced_climbs ts cur root j q c0 c p0 p :
  session_ok ts → tracks ts cur root →
  tasks ts !! j = Some c0 → tasks cur !! j = Some c → c ≠ c0 → terminal c = true → parent c = S q →
  tasks ts !! q = Some p0 → tasks cur !! q = Some p → terminal p = false → (doomed p → p = p0) →
  failed_task c = true ∧ ∃ v, climbs ts cur root (S j) v.
Proof.
  intros Hok [Hokc [Ht _] Hcl Htr] Hj0 Hj Hne Htc Hpar Hq0 Hq Hnt Hsame.
  destruct (torn_lookup _ _ _ _ Ht Hj0) as (c' & Hj' & _ & Hpc & _). simplify_eq. rewrite Hpc in Hpar.
  assert (∀ s, task_status c = s → terminal_status s = true → is_completed s = false → failed_task c = true) as Hfail.
  { intros s Hs H1 H2. unfold failed_task, terminal. by rewrite Hs, H1, H2. }
  destruct (Htr j c0 c Hj0 Hj) as [|Hb Hst|Hcl' Ho He Hch|Hcl' Heq|a pa Hcl' Hpa Hdp Hch Hb Hnb Hst]; [done|..].
  - split; [by eapply Hfail|]. destruct (below_child _ _ _ _ Hj0 Hb) as [->|Hb']; [eexists; constructor|].
    rewrite Hpar in Hb'. exfalso. assert (terminal p = true); [|congruence].
    apply (Hcl q p); [lia|done| |done]. destruct (ok_tree _ Hokc _ _ Hq) as (-> & _). by eapply below_torn.
  - split; [|by eauto]. destruct (ok_tree _ Hokc _ _ Hj) as (_ & _ & _ & _ & Hs). unfold terminal in Htc.
    apply (Hfail TASK_TRAPPED); try done. destruct (task_status c) eqn:E'; naive_solver congruence.
  - split; [|by eauto]. inversion Hcl' as [| |k d q' p' v Hc1 Hk Hfk Hpk Hq' Hd Hst Hchk]; simplify_eq.
    destruct Hd as [Hd|Hd]; [unfold terminal in Hd; by rewrite Hst in Hd|].
    apply (Hfail (task_outcome c0)); [done|..]; by destruct Hd as [-> | ->].
  - exfalso. destruct (below_child _ _ _ _ Hj0 Hb) as [Heq|Hb'].
    { apply Hnb. rewrite <- Heq. by eapply climbs_above. }
    rewrite Hpar in Hb'. destruct (decide (a = q)) as [->|Haq].
    + simplify_eq. inversion Hcl' as [|k d q' p' v Hc1 Hk Hfk Hpk Hq' Hd|]; simplify_eq. by rewrite (Hsame Hdp) in Hdp.
    + assert (terminal p = true); [|congruence]. eapply (childless_below cur (S a) q); try done; [|lia].
      by eapply below_torn.
Qed.

(** ** The two halves of a turn *)

Lemma live_child ts i t :
  session_ok ts → tasks ts !! i = Some t → ¬ childless ts (S i) →
  ∃ j c, tasks ts !! j = Some c ∧ parent c = S i ∧ terminal c = false.
Proof.
  intros Hok Hi Hn.
  destruct (decide (Exists (λ c, parent c = S i ∧ terminal c = false) (tasks ts))) as [He|He].
  - apply Exists_exists in He as (c & [j Hj]%list_elem_of_lookup & ? & ?). eauto.
  - destruct Hn. intros j c Hj Hp. destruct (terminal c) eqn:Hc; [done|]. destruct He. apply Exists_exists.
    exists c. split; [by eapply list_elem_of_lookup_2|done].
Qed.

(** A task of the settled session that joins has lost its last child to the climb. *)
Lemma join_climbs ts cur root i t0 :
  session_ok ts → settled ts 0 → tracks ts cur root → settled cur (S i) →
  tasks ts !! i = Some t0 → tasks cur !! i = Some t0 → task_status t0 = TASK_JOINING →
  childless cur (S i) → climbs ts cur root (S i) Joined.
Proof.
  intros Hok Hset Htr Hsetc Hi0 Hi Hst Hch. pose proof Htr as [Hokc [Ht _] _ _].
  destruct (ok_tree _ Hok _ _ Hi0) as (Hs0 & _).
  destruct (live_child ts i t0 Hok Hi0) as (j & c0 & Hj0 & Hp0 & Hnt0).
  { rewrite <- Hs0. by apply (Hset i t0); [lia|..]. }
  destruct (torn_lookup _ _ _ _ Ht Hj0) as (c & Hj & _ & Hpc & _).
  assert (terminal c = true) as Htc by (apply (Hch j); congruence).
  assert (terminal t0 = false) as Hntt by (unfold terminal; by rewrite Hst).
  destruct (traced_climbs ts cur root j i c0 c t0 t0) as [Hf [v Hc]]; try done; [congruence..|].
  destruct (ok_tree _ Hokc _ _ Hj) as (_ & Hlt & _). rewrite Hpc, Hp0 in Hlt.
  eapply climbs_join; try done; [congruence|].
  destruct (Hsetc j c ltac:(lia) Hj) as [_ HF]. apply (HF Hf); rewrite Hpc, Hp0; [done|].
  simpl. by rewrite Nat.sub_0_r.
Qed.

Lemma join_onward i t ts :
  session_ok ts → tasks ts !! i = Some t → onward ts (join_task i t ts).
Proof.
  intros Hok Hi. destruct (join_task_ok i t ts Hok Hi) as (_ & Ht & Hone & t' & Hi' & Ho & _).
  split; [done|]. intros j u u' Hu Hu' Hd. destruct (decide (j = i)) as [->|Hne].
  - simplify_eq. destruct Hd as [Hd|Hd]; [|right; by rewrite Ho].
    destruct (torn_lookup _ _ _ _ Ht Hi) as (u'' & Hu'' & _ & _ & _ & Hf). simplify_eq. left. by rewrite (Hf Hd).
  - by rewrite (Hone j u u').
Qed.

Lemma join_tracks ts cur root i t :
  session_ok ts → settled ts 0 → tracks ts cur root → settled cur (S i) → tasks cur !! i = Some t →
  tracks ts (join_task i t cur) root.
Proof.
  intros Hok Hset Htr Hsetc Hi. pose proof Htr as [Hokc Hon Hcl Htasks].
  pose proof (join_onward i t cur Hokc Hi) as Honj.
  destruct (join_task_ok i t cur Hokc Hi) as (Hok1 & Ht1 & Hone & _).
  split; [done|by eapply onward_trans|by eapply cleared_torn|]. intros j t0 t1 Hj0 Hj1.
  apply (traced_mono ts cur); [done|].
  destruct (torn_lookup_r _ _ _ _ Ht1 Hj1) as (u & Hu & _). destruct (decide (j = i)) as [->|Hne]; cycle 1.
  { rewrite (Hone j u t1); auto. }
  simplify_eq. revert Hj1. unfold join_task. case_bool_decide as Hst; simpl; [|intros; simplify_eq; auto].
  destruct (joined i t cur) eqn:Hj; [|intros; simplify_eq; auto].
  simpl. rewrite list_lookup_insert_eq by (by eapply lookup_lt_Some). intros [= <-].
  apply (joined_spec cur i t Hokc Hi) in Hj. destruct (ok_tree _ Hokc _ _ Hi) as (Hs & _). rewrite Hs in Hj.
  destruct (Htasks i t0 t Hj0 Hi) as [->| |Hc Ho He Hch|Hc ->|]; try congruence.
  - apply traced_joined; [|done]. by eapply join_climbs.
  - by apply traced_failed.
  - apply traced_joined; [done|]. inversion Hc as [| |? ? ? p ? ? ? ? ? Hp Hd Hstp ?]; simplify_eq.
    by destruct t0.
Qed.

(** Failing the parent at [q] of the task at [i]: [ts1] has its body ended,
    [ts2] its other children cancelled. *)
Section failing.
Context (ts cur ts1 ts2 : VMTasks E) (root i q : nat) (t t0 p p0 p1 : Task E).
Hypothesis Hok : session_ok ts.
Hypothesis Htr : tracks ts cur root.
Hypothesis Ht1 : torn cur ts1.
Hypothesis Ht2 : torn ts1 ts2.
Hypothesis Hok2 : session_ok ts2.
Hypothesis Hone : ∀ j c c', j ≠ q → tasks cur !! j = Some c → tasks ts1 !! j = Some c' → c' = c.
Hypothesis Hca : cancels ts1 ts2 true (S q).
Hypothesis Hcl : cleared ts2 0 true (S q).
Hypothesis Hi0 : tasks ts !! i = Some t0.
Hypothesis Hi : tasks cur !! i = Some t.
Hypothesis Hterm : terminal t = true.
Hypothesis Hpar : parent t0 = S q.
Hypothesis Hq1 : tasks ts1 !! q = Some p1.
Hypothesis Hout : task_outcome p1 = TASK_TRAPPED.
Hypothesis Herr : task_error p1 = Some child_failed.
Hypothesis Hclimb : ∃ v, climbs ts cur root (S i) v.
Hypothesis Hfail : climbs ts cur root (S q) Failed.

Lemma failing_onward : onward cur ts2.
Proof using Ht1 Ht2 Hone Hca Hq1 Hout.
  split; [by eapply torn_trans|]. intros j u u2 Hu Hu2 Hd.
  destruct (torn_lookup _ _ _ _ Ht1 Hu) as (u1 & Hu1 & _).
  destruct (Hca j u1 u2 Hu1 Hu2) as [->|(_ & Hc & _)]; [|left; unfold terminal; by rewrite Hc].
  destruct (decide (j = q)) as [->|Hne]; [simplify_eq; right; by left|]. by rewrite (Hone j u u1).
Qed.

Lemma failing_childless : childless ts2 (S q).
Proof using Hok2 Hcl Hpar.
  intros j c Hj Hp. destruct (ok_tree _ Hok2 _ _ Hj) as (Hs & Hle & _).
  apply (Hcl j c); [lia|done| |intros _; lia]. rewrite Hs. eapply below_up; [done|]. rewrite Hp. constructor.
Qed.

(** The tasks cancelled with a failed parent are not on the path of the climb. *)
Lemma failing_off_path j u :
  tasks cur !! j = Some u → terminal u = false → j ≠ q → below ts (S q) (S j) → ¬ below ts (S j) root.
Proof using Hok Htr Hi0 Hi Hterm Hpar Hclimb.
  intros Hu Hnt Hne Hb Habove. pose proof Htr as [Hokc [Ht _] _ _].
  assert (below ts (S i) root) as Hroot by (destruct Hclimb as [v ?]; by eapply climbs_above).
  destruct (below_linear ts _ _ _ Hroot Habove) as [Hij|Hji].
  - assert (terminal u = true); [|congruence]. destruct (ok_tree _ Hokc _ _ Hi) as (Hsi & _).
    destruct (ok_tree _ Hokc _ _ Hu) as (Hsu & _).
    eapply (ended_below cur i t (S j)); try done. rewrite Hsi. by eapply below_torn.
  - destruct (below_child _ _ _ _ Hi0 Hji) as [Heq|Hji']; [simplify_eq; congruence|].
    rewrite Hpar in Hji'. apply (below_le _ _ _ Hok) in Hb, Hji'. lia.
Qed.

Lemma failing_tracks : tracks ts ts2 root.
Proof using All.
  pose proof Htr as [Hokc [Ht Hd] Hclc Htasks]. pose proof failing_onward as Hon.
  split; [done|by eapply onward_trans, Hon|by eapply cleared_torn; [apply Hon|]|].
  intros j c0 c2 Hj0 Hj2. destruct (torn_lookup _ _ _ _ Ht Hj0) as (c & Hj & _).
  destruct (torn_lookup _ _ _ _ Ht1 Hj) as (c1 & Hj1 & Hs1 & _).
  destruct (decide (j = q)) as [->|Hne].
  { assert (c1 = p1) as -> by congruence. destruct (Hca _ _ _ Hj1 Hj2) as [->|(_ & _ & Hsp)].
    - apply traced_failed; [by eapply climbs_mono; [apply Hon|]|done..|by apply failing_childless].
    - destruct (ok_tree _ Hokc _ _ Hj) as (Hs & _). destruct (Hsp eq_refl). congruence. }
  assert (c1 = c) as -> by (by apply (Hone j)).
  destruct (Hca _ _ _ Hj1 Hj2) as [->|(Hb & Hc & _)]; [by eapply traced_mono, Htasks|].
  destruct (ok_tree _ Hokc _ _ Hj) as (Hs & _). rewrite Hs in Hb.
  assert (below ts (S q) (S j)) as Hb0 by (eapply below_torn_r; [|exact Hb]; by eapply torn_trans).
  destruct (terminal c) eqn:Hct.
  { destruct (torn_lookup _ _ _ _ (proj1 Hon) Hj) as (c' & Hj' & _ & _ & _ & Hf). simplify_eq.
    rewrite (Hf Hct). by eapply traced_mono, Htasks. }
  destruct (torn_lookup _ _ _ _ Ht2 Hq1) as (p2 & Hp2 & _).
  eapply (traced_sibling _ _ _ _ _ _ q p2); try done.
  - eapply climbs_mono; [apply Hon|done].
  - destruct (Hca _ _ _ Hq1 Hp2) as [->|(_ & Hc' & _)]; [right; by left|left; unfold terminal; by rewrite Hc'].
  - apply failing_childless.
  - by eapply failing_off_path.
Qed.
End failing.

Lemma runs_conj {A} (m : M A) (P Q : A → Prop) Err : runs m P Err → runs m Q Err → runs m (λ a, P a ∧ Q a) Err.
Proof.
  intros HP HQ al. destruct (HP al) as (used & Hu & H1), (HQ al) as (used' & _ & H2). exists used.
  split; [done|]. by destruct (fst (m al)).
Qed.

(** The teardown of the cancelled task and its descendants. *)
Lemma cancelled_tracks ts ts1 root :
  session_ok ts1 → torn ts ts1 → cancels ts ts1 false root → cleared ts1 0 false root → session_ok ts →
  tracks ts ts1 root.
Proof.
  intros Hok1 Ht Hca Hcl Hok. split; [done| |done|].
  - split; [done|]. intros j t t' Hj Hj' Hd.
    destruct (Hca j t t' Hj Hj') as [->|(_ & Hc & _)]; [done|left; unfold terminal; by rewrite Hc].
  - intros j t t' Hj Hj'. destruct (ok_tree _ Hok _ _ Hj) as (Hs & _).
    destruct (Hca j t t' Hj Hj') as [->|(Hb & Hc & _)]; [by apply traced_same|].
    apply traced_descendant; [by rewrite <- Hs|done].
Qed.

Lemma propagate_tracks ts cur root i t :
  session_ok ts → settled ts 0 → tracks ts cur root → tasks cur !! i = Some t →
  returns (propagate t cur) (λ ts', tracks ts ts' root).
Proof.
  intros Hok Hset Htr Hi. pose proof Htr as [Hokc [Ht Hdoom] _ _].
  destruct (torn_lookup_r _ _ _ _ Ht Hi) as (t0 & Hi0 & _ & Hpt & _).
  destruct (ok_tree _ Hokc _ _ Hi) as (_ & Hle & _). pose proof (lookup_lt_Some _ _ _ Hi) as Hlt.
  unfold propagate. fold (failed_task t). destruct (failed_task t) eqn:Hf; cbn [andb]; [|by mret].
  destruct (parent t) as [|q] eqn:Hp; cbn [Nat.eqb negb]; [by mret|].
  replace (S q - 1)%nat with q by lia. destruct (lookup_lt_is_Some_2 (tasks cur) q) as [p Hq]; [lia|].
  eapply (runs_bind _ _ (λ x, x = p)); [by eapply runs_rd|]. intros ? ->.
  destruct (negb (terminal p) && _ && _) eqn:Hgo; [|by mret].
  rewrite !andb_true_iff, !negb_true_iff, !bool_decide_eq_false in Hgo. destruct Hgo as [[Hnt Hno1] Hno2].
  assert (¬ doomed p) as Hnd by (intros [?|[?|?]]; congruence).
  destruct (torn_lookup_r _ _ _ _ Ht Hq) as (p0 & Hq0 & _).
  assert (¬ doomed p0) as Hnd0 by (intros Hd; by apply Hnd, (Hdoom q p0)).
  assert (t ≠ t0) as Hne.
  { intros <-. apply Hnd0. apply (proj2 (Hset i t ltac:(lia) Hi0) Hf); rewrite Hp; [done|]. simpl.
    by rewrite Nat.sub_0_r. }
  pose proof (failed_terminal _ Hf) as Hterm.
  destruct (traced_climbs ts cur root i q t0 t p0 p) as [_ [v Hc]]; try done.
  assert (climbs ts cur root (S q) Failed) as HcF by (by eapply climbs_fail).
  destruct (ok_tree _ Hokc _ _ Hq) as (Hsq & _).
  eapply runs_bind; [eapply (finish_task_spec q _ _ TASK_JOINING); eauto using marks_error|].
  intros ts1 (Hok1 & Ht1 & Hone & p1 & Hp1 & _ & Hp1o & u & Hu). unfold cancel_children.
  eapply runs_mono; [apply cancel_loop_spec; [done|lia|done|apply cleared_all]| |done].
  intros ts2 (Hok2 & Ht2 & Hca & Hcl). rewrite Hsq in Hca, Hcl.
  eapply (failing_tracks ts cur ts1 ts2 root i q t t0 p1); try done; [by rewrite Hu|by eexists].
Qed.

Lemma settle_loop_tracks n ts cur root :
  session_ok ts → settled ts 0 → tracks ts cur root → (n ≤ length (tasks cur))%nat → settled cur n →
  returns (settle_loop n cur) (λ ts', tracks ts ts' root ∧ settled ts' 0).
Proof.
  intros Hok Hset. revert cur. induction n as [|i IH]; intros cur Htr Hn Hsetc; cbn [settle_loop]; [by mret|].
  destruct (lookup_lt_is_Some_2 (tasks cur) i) as [t Hi]; [lia|].
  eapply (runs_bind _ _ (λ x, x = t)); [by eapply runs_rd|]. intros ? ->. fold (join_task i t cur).
  pose proof (tracks_ok _ _ _ Htr) as Hokc.
  destruct (join_task_ok i t cur Hokc Hi) as (Hok1 & Ht1 & _ & t1 & Hi1 & _).
  destruct (join_task_settled i t t1 cur Hokc Hi Hsetc Hi1) as [Hset1 Hj1].
  pose proof (join_tracks ts cur root i t Hok Hset Htr Hsetc Hi) as Htr1.
  set (cur1 := join_task i t cur) in *. cbv zeta.
  eapply (runs_bind _ _ (λ x, x = t1)); [by eapply runs_rd|]. intros ? ->.
  eapply runs_bind; [apply runs_conj; [by apply (propagate_spec i)|by apply (propagate_tracks ts cur1 root i)]|].
  intros cur2 [(Hok2 & Ht2 & Hset2) Htr2]. apply IH; [done| |done].
  rewrite (torn_length _ _ Ht2), (torn_length _ _ Ht1). lia.
Qed.

(** ** The tasks after the call *)

Section outcome.
Context (ts ts' : VMTasks E) (root : nat).
Hypothesis Hok : session_ok ts.
Hypothesis Htr : tracks ts ts' root.
Hypothesis Hset : settled ts' 0.

Lemma outcome_effect j t t' :
  tasks ts !! j = Some t → tasks ts' !! j = Some t' → t' = t ∨ ∃ v, effect ts ts' root (S j) v.
Proof using Htr.
  intros Hj Hj'. destruct (tracks_tasks _ _ _ Htr j t t' Hj Hj') as [|Hb _|Hc|Hc _|a p Hc _ _ _ Hb Hn _];
    [by left|right; eexists..].
  - by apply effect_descendant.
  - by apply effect_failed.
  - by apply effect_joined.
  - by eapply effect_sibling.
Qed.

(** A task on the path of the climb is not below the cancelled one. *)
Lemma outcome_path j v : climbs ts ts' root (S j) v → v ≠ Cancelled → ¬ below ts root (S j).
Proof using Hok Htr.
  intros Hc Hv Hb. apply (below_le _ _ _ Hok) in Hb.
  apply (climbs_strict ts ts') in Hc; [lia|done|apply (tracks_onward _ _ _ Htr)|done].
Qed.

Lemma climbs_failed_inv s :
  climbs ts ts' root s Failed → ∃ q j c p, s = S q ∧ tasks ts' !! j = Some c ∧ failed_task c = true ∧
    parent c = S q ∧ tasks ts !! q = Some p ∧ ¬ doomed p.
Proof using. intros H. inversion H; subst. eauto 10. Qed.

Lemma climbs_joined_inv s :
  climbs ts ts' root s Joined → ∃ q p, s = S q ∧ tasks ts !! q = Some p ∧ doomed p ∧
    task_status p = TASK_JOINING ∧ childless ts' (S q).
Proof using. intros H. inversion H; subst. eauto 10. Qed.

Lemma outcome_failed j t t' :
  tasks ts !! j = Some t → tasks ts' !! j = Some t' → climbs ts ts' root (S j) Failed → becomes Failed t t'.
Proof using Hok Htr Hset.
  intros Hj Hj' Hc. pose proof Htr as [Hok' [Ht _] _ _].
  destruct (climbs_failed_inv _ Hc) as (q & k & c & p & [= <-] & Hk & Hf & Hp & Hq & Hnd). simplify_eq.
  assert (doomed t') as Hd.
  { apply (proj2 (Hset k c ltac:(lia) Hk) Hf); rewrite Hp; [done|]. simpl. by rewrite Nat.sub_0_r. }
  destruct (tracks_tasks _ _ _ Htr j t t' Hj Hj') as [->|Hb _|_ Ho He Hch|Hcj _|a pa Hca _ _ _ _ Hn _].
  - done.
  - by destruct (outcome_path j Failed Hc).
  - split; [|done]. destruct (ok_tree _ Hok' _ _ Hj') as (Hs & _ & _ & _ & Hst).
    pose proof (proj1 (Hset j t' ltac:(lia) Hj')) as Hnj. rewrite Hs in Hnj.
    destruct (task_status t'); naive_solver congruence.
  - destruct (climbs_joined_inv _ Hcj) as (q & p' & [= <-] & Hp' & Hd' & _). by simplify_eq.
  - destruct Hn. by eapply climbs_above.
Qed.

Lemma outcome_joined j t t' :
  tasks ts !! j = Some t → tasks ts' !! j = Some t' → climbs ts ts' root (S j) Joined → becomes Joined t t'.
Proof using Hok Htr Hset.
  intros Hj Hj' Hc. pose proof Htr as [Hok' [Ht _] _ _].
  destruct (climbs_joined_inv _ Hc) as (q & p & [= <-] & Hq & Hd & Hst & Hch).
  assert (p = t) as -> by congruence. destruct (tracks_tasks _ _ _ Htr j t t' Hj Hj') as [->|Hb _|Hcf _ _ _|_ ?|a pa Hca _ _ _ _ Hn _].
  - destruct (ok_tree _ Hok' _ _ Hj') as (Hs & _). rewrite <- Hs in Hch.
    by destruct (proj1 (Hset j t ltac:(lia) Hj') Hst).
  - by destruct (outcome_path j Joined Hc).
  - by destruct (climbs_failed_inv _ Hcf) as (? & ? & ? & ? & [= <-] & _ & _ & _ & ? & ?); simplify_eq.
  - done.
  - destruct Hn. by eapply climbs_above.
Qed.

(** A task that has changed and is not on the path was cancelled. *)
Lemma outcome_cancelled j t t' :
  tasks ts !! j = Some t → tasks ts' !! j = Some t' → terminal t = false → terminal t' = true →
  (∀ v, climbs ts ts' root (S j) v → v = Cancelled) → becomes Cancelled t t'.
Proof using Htr.
  intros Hj Hj' Hnt Ht' Hv.
  destruct (tracks_tasks _ _ _ Htr j t t' Hj Hj') as [->|Hb ?|Hc|Hc|]; try done; [congruence|..].
  all: by specialize (Hv _ Hc).
Qed.

Lemma outcome_becomes j t t' v :
  tasks ts !! j = Some t → tasks ts' !! j = Some t' → terminal t = false → effect ts ts' root (S j) v →
  becomes v t t'.
Proof using Hok Htr Hset.
  intros Hj Hj' Hnt. pose proof Htr as [Hok' [Ht _] Hcl _].
  destruct (ok_tree _ Hok' _ _ Hj') as (Hs' & _). intros [Hb|Hc|Hc|a Hc Hb Hn].
  - eapply outcome_cancelled; try done.
    + apply (Hcl j t'); [lia|done| |done]. rewrite Hs'. by eapply below_torn.
    + intros v' Hv. destruct v'; [done|..]; by destruct (outcome_path j _ Hv).
  - by eapply outcome_failed.
  - by eapply outcome_joined.
  - eapply outcome_cancelled; try done.
    + destruct (climbs_failed_inv _ Hc) as (q & _ & _ & p & -> & _ & _ & _ & Hq & Hnd).
      destruct (torn_lookup _ _ _ _ Ht Hq) as (p' & Hq' & _).
      destruct (outcome_failed q p p' Hq Hq' Hc) as [Hst _]. destruct (ok_tree _ Hok' _ _ Hq') as (Hsq & _).
      eapply (ended_below ts' q p' (S j)); try done; [unfold terminal; by rewrite Hst|].
      rewrite Hsq. by eapply below_torn.
    + intros v' Hv. destruct v'; [done|..]; destruct Hn; by eapply climbs_above.
Qed.
End outcome.

(** ** Every session an embedder can reach is settled *)

Lemma settled_snoc ts ts' t :
  session_ok ts → tasks ts' = tasks ts ++ [t] → task_status t = TASK_READY → settled ts 0 → settled ts' 0.
Proof.
  intros Hok Hts Hst Hset j c _ Hj. rewrite Hts in Hj. apply lookup_app_Some in Hj as [Hj|[Hge Hj]]; cycle 1.
  { apply list_lookup_singleton_Some in Hj as [_ <-]. split; [congruence|].
    unfold failed_task, terminal. by rewrite Hst. }
  destruct (Hset j c ltac:(lia) Hj) as [HJ HF]. split.
  - intros Hjo Hch. apply (HJ Hjo). intros k d Hk. apply (Hch k). rewrite Hts. by apply lookup_app_l_Some.
  - intros Hf p Hp0 Hp. apply (HF Hf p Hp0). rewrite Hts, lookup_app_l in Hp; [done|].
    destruct (ok_tree _ Hok _ _ Hj) as (_ & Hle & _). apply lookup_lt_Some in Hj. lia.
Qed.

Lemma spawn_settled ts (id : VMTaskId) g args limit :
  session_ok ts → settled ts 0 → yields (vm_tasks_spawn ts id g args limit) (λ r, settled r.2 0).
Proof.
  intros Hok Hset. unfold vm_tasks_spawn. destruct (_ || _); [apply yields_trap|].
  eapply yields_bind; [apply yields_any|]. intros e _. apply yields_ret. by eapply settled_snoc.
Qed.

Lemma complete_settled ts op m v read :
  session_ok ts → settled ts 0 → yields (complete ts op m v read) (λ r, settled r.2 0).
Proof.
  intros Hok Hset. unfold complete. destruct (lookup_task ts (op_task op)) as [i|] eqn:Hl; [|by apply yields_ret].
  destruct (lookup_task_spec _ _ _ Hok Hl) as (_ & t & Hi & _).
  eapply (yields_bind _ _ (λ x, x = t)); [by eapply yields_runs, (runs_rd _ _ _ _ no_trap)|]. intros ? ->.
  destruct (_ || _) eqn:Hc; [by apply yields_ret|].
  rewrite !orb_false_iff, !negb_false_iff in Hc. destruct Hc as [[[[[_ _] Hpe] _] _] _].
  eapply yields_bind; [apply yields_any|]. intros evs _. apply yields_ret. simpl.
  destruct (ok_tree _ Hok _ _ Hi) as (_ & _ & Htok). destruct (pending_running t Htok Hpe) as [Hnt _].
  apply (settled_put ts _ i t (set_queued true t)); try done. simpl. intros Hst.
  destruct Htok as (_ & _ & Hrun). rewrite Hst in Hrun. destruct Hrun as (_ & ? & _). congruence.
Qed.

Lemma cancel_settled ts id : session_ok ts → settled ts 0 → yields (vm_tasks_cancel ts id) (λ r, settled r.2 0).
Proof.
  intros Hok Hset. unfold vm_tasks_cancel. destruct (lookup_task ts id) as [i|] eqn:Hl; [|by apply yields_ret].
  destruct (pumping ts); [by apply yields_ret|].
  destruct (lookup_task_spec ts id i Hok Hl) as (_ & t & Hi & _). destruct (ok_tree _ Hok _ _ Hi) as (Hs & _).
  eapply (yields_bind _ _ (λ x, x = t)); [by eapply yields_runs, (runs_rd _ _ _ _ no_trap)|]. intros ? ->.
  eapply yields_bind; [eapply yields_runs, cancel_loop_spec; [done|lia|done|apply cleared_all]|].
  intros ts1 (Hok1 & _). eapply yields_bind; [by eapply yields_runs, settle_tasks_spec|].
  intros ts2 (_ & _ & Hset2). by apply yields_ret.
Qed.

Lemma session_step_settled ts ts' : session_ok ts → settled ts 0 → session_step ts ts' → settled ts' 0.
Proof.
  intros Hok Hset [p g args limit al id ts1 al' Hg H|id al b ts1 al' H|op m al b ts1 al' H|op v al b ts1 al' H
    |time n al b ts1 al' H].
  - by apply (yields_at _ _ _ _ _ (spawn_settled ts p g args limit Hok Hset)) in H.
  - by apply (yields_at _ _ _ _ _ (cancel_settled ts id Hok Hset)) in H.
  - by apply (yields_at _ _ _ _ _ (complete_settled ts op m None false Hok Hset)) in H.
  - by apply (yields_at _ _ _ _ _ (complete_settled ts op None v true Hok Hset)) in H.
  - apply (yields_at _ _ _ _ _ (pump_kept ts time n Hok)) in H as [_ H]. auto.
Qed.

Lemma session_reached active n m last al ts0 al' ts :
  vm_tasks_create active n m last al = (Ret ts0, al') → rtc session_step ts0 ts → session_ok ts ∧ settled ts 0.
Proof.
  intros Hc Hr. apply (yields_at _ _ _ _ _ (yields_runs _ _ _ (create_kept active n m last))) in Hc as (Hok & Ht & _).
  assert (settled ts0 0) as Hset by (intros j c _; by rewrite Ht). clear Ht.
  induction Hr as [|ts0 ts1 ts2 H _ IH]; [done|].
  apply IH; [by apply (session_step_kept _ _ Hok H)|by eapply session_step_settled].
Qed.

(** C22: Cancellation.  On every session an embedder can reach, [vm_tasks_cancel]
    always answers, without using memory it could be refused: the ancestor walk
    and the teardown loops terminate.  It refuses an unknown or foreign id and a
    call made while pumping, and changes nothing then.  Otherwise every task keeps
    its place and its deadline, the session is well formed and settled again, and
    each task has exactly the outcome the specification [effect] derives: a
    running descendant of the given task, itself included, is cancelled; the
    failure climbs to its parent, which is trapped with the message of the code
    unless it had failed before, and then joins if no other child runs, and so on
    through the ancestors; the other running descendants of an ancestor failed in
    this way are cancelled; and every other task, and every task that had ended,
    is left exactly as it was. *)
Theorem cancel_settles active n m last al ts0 al' ts id :
  vm_tasks_create active n m last al = (Ret ts0, al') → rtc session_step ts0 ts →
  returns (vm_tasks_cancel ts id) (λ r,
    if bool_decide (is_Some (lookup_task ts id)) && negb (pumping ts) then
      r.1 = true ∧ session_ok r.2 ∧ settled r.2 0 ∧ torn ts r.2 ∧
      ∀ j t t', tasks ts !! j = Some t → tasks r.2 !! j = Some t' →
        (t' = t ∨ ∃ v, effect ts r.2 (id_slot id) (S j) v) ∧
        ∀ v, effect ts r.2 (id_slot id) (S j) v → if terminal t then t' = t else becomes v t t'
    else r = (false, ts)).
Proof.
  intros Hc Hr. destruct (session_reached _ _ _ _ _ _ _ _ Hc Hr) as [Hok Hset].
  unfold vm_tasks_cancel. destruct (lookup_task ts id) as [i|] eqn:Hl; [|by mret].
  rewrite bool_decide_true by done. cbn [andb]. destruct (pumping ts); [by mret|]. cbn [negb].
  destruct (lookup_task_spec ts id i Hok Hl) as (_ & t & Hi & Hs).
  eapply (runs_bind _ _ (λ x, x = t)); [by eapply runs_rd|]. intros ? ->.
  destruct (ok_tree _ Hok _ _ Hi) as (Hsi & _). unfold cancel_tree. rewrite Hs.
  eapply runs_bind; [apply cancel_loop_spec; [done|lia|done|apply cleared_all]|].
  intros ts1 (Hok1 & Ht1 & Hca & Hc1).
  assert (tracks ts ts1 (id_slot id)) as Htr1 by by apply cancelled_tracks.
  eapply runs_bind; [apply (settle_loop_tracks _ ts _ (id_slot id)); [done..|]|].
  { intros j c Hj Hjc. apply lookup_lt_Some in Hjc. lia. }
  intros ts2 [Htr2 Hset2]. mret. simpl. pose proof Htr2 as [Hok2 [Ht2 _] _ _]. split_and!; try done.
  intros j u u' Hj Hj'. split; [by eapply outcome_effect|]. intros v Hv. destruct (terminal u) eqn:Hu.
  - destruct (torn_lookup _ _ _ _ Ht2 Hj) as (u'' & Hj'' & _ & _ & _ & Hf).
    rewrite Hj' in Hj''. injection Hj'' as <-. by apply Hf.
  - by apply (outcome_becomes ts ts2 (id_slot id) Hok Htr2 Hset2 j u u' v).
Qed.
End cancellation.

(** ** A closed example *)

#[local] Existing Instance asking_executor.
#[local] Existing Instance asking_laws.

(** Task 1 has the children 2 and 3, task 2 the child 4, and task 5 is a root of
    its own; all wait. *)
Definition family_start : VMTasks unit :=
  mkTasks [] 5 (replicate 2 empty_completion) 0 0 0 1 0 0 0 false.
Definition family_session : M (VMTasks unit) :=
  '(a, ts) ← vm_tasks_spawn family_start root_task sample_function [] 100;
  '(b, ts) ← vm_tasks_spawn ts a sample_function [] 100;
  '(_, ts) ← vm_tasks_spawn ts a sample_function [] 100;
  '(_, ts) ← vm_tasks_spawn ts b sample_function [] 100;
  '(_, ts) ← vm_tasks_spawn ts root_task sample_function [] 100;
  '(_, ts) ← vm_tasks_pump ts 1 9;
  mret ts.
Definition family : VMTasks unit := match fst (family_session []) with Ret ts => ts | _ => family_start end.

Lemma family_reached : rtc session_step family_start family.
Proof.
  eapply rtc_l; [by eapply (step_spawn _ root_task sample_function [] 100 []); vm_compute|].
  eapply rtc_l; [by eapply (step_spawn _ (mkTaskId 1 1) sample_function [] 100 []); vm_compute|].
  eapply rtc_l; [by eapply (step_spawn _ (mkTaskId 1 1) sample_function [] 100 []); vm_compute|].
  eapply rtc_l; [by eapply (step_spawn _ (mkTaskId 1 2) sample_function [] 100 []); vm_compute|].
  eapply rtc_l; [by eapply (step_spawn _ root_task sample_function [] 100 []); vm_compute|].
  eapply rtc_l; [by eapply (step_pump _ 1 9 []); vm_compute|]. vm_compute. apply rtc_refl.
Qed.

(** Cancelling task 2 cancels task 4 with it, fails task 1, cancels task 3, and
    leaves task 5 alone. *)
Definition statuses (ts : VMTasks unit) : list (VMTaskStatus * option string) :=
  (λ t, (task_status t, task_error t)) <$> tasks ts.

Example family_cancelled :
  match fst (vm_tasks_cancel family (mkTaskId 1 2) []) with
  | Ret (ok, ts) => Some (ok, statuses ts)
  | _ => None
  end = Some (true, [(TASK_TRAPPED, Some child_failed); (TASK_CANCELLED, None); (TASK_CANCELLED, None);
                     (TASK_CANCELLED, None); (TASK_WAITING, None)]).
Proof. reflexivity. Qed.

Lemma cancel_settles_witness :
  statuses family = replicate 5 (TASK_WAITING, None) ∧
  returns (vm_tasks_cancel family (mkTaskId 1 2)) (λ r, r.1 = true ∧
    ∀ t', tasks r.2 !! 3%nat = Some t' → task_status t' = TASK_CANCELLED).
Proof.
  split; [reflexivity|].
  eapply runs_mono; [apply (cancel_settles false 5 2 0 [] family_start [] family (mkTaskId 1 2))| |done].
  - reflexivity.
  - apply family_reached.
  - intros r. destruct (bool_decide _ && _) eqn:Hc; [|by vm_compute in Hc]. intros (Hr & _ & _ & _ & Hout).
    split; [exact Hr|]. intros t' Ht'.
    assert (∃ t, tasks family !! 3%nat = Some t ∧ terminal t = false ∧ below family 2 4) as (t & Ht & Hnt & Hb).
    { eexists. split; [vm_compute; reflexivity|]. split; [reflexivity|].
      eapply (below_up family 2 3); [vm_compute; reflexivity|]. apply below_here. }
    destruct (Hout 3%nat t t' Ht Ht') as [_ Hv]. specialize (Hv Cancelled). rewrite Hnt in Hv.
    apply Hv. by apply effect_descendant.
Defined.
