(* ===== verification/TaskExecutor.v ===== *)
(** * The interpreter as the executor of tasks

    [tasks.c] runs executions made by [vm_execution_create_async] and
    [vm_execution_create_pending] whose wait callback is [register_request].
    This file instantiates the class [Executor] with the interpreter and proves
    its laws, so that the theorems on sessions hold of sessions of bytecode. *)

From Stdlib Require Import ZArith Lia.
From stdpp Require Import prelude gmap strings relations.
From S2P Require Import Prelude Bigint Value Program Builtins Execute Frames Control Execution Lifecycle.
From S2P Require Import Verify Tasks Sessions.

(** ** The world of a task's execution

    The request fields the callback writes, beside the native state of the
    task's own VM, which is not touched by it. *)

Section lifting.
Context {W : Type}.
Definition World : Type := Request * W.

Definition on_native {A} (call : W → A * W) (w : World) : A * World :=
  let '(a, w') := call (snd w) in (a, (fst w, w')).
Definition in_native (g : W → W) (w : World) : World := (fst w, g (snd w)).

(** The native services act on their own part of the world. *)
#[local] Instance lift_native `{!Native W} : Native World := {|
  native_call := λ h n a, on_native (native_call h n a);
  tcp_server_http_continue := λ v, on_native (tcp_server_http_continue v);
  http_runtime_listen := λ v g b1 b2 b3 b4, on_native (http_runtime_listen v g b1 b2 b3 b4);
  http_runtime_active := λ w, http_runtime_active (snd w);
  http_runtime_owns_signals := λ w, http_runtime_owns_signals (snd w);
  install_stop_signals := on_native install_stop_signals;
  http_runtime_request_close := λ v b, on_native (http_runtime_request_close v b);
  http_resource := λ r w, http_resource r (snd w);
  http_connection_handler := λ p a, on_native (http_connection_handler p a);
  tcp_server_start_service := λ h c a p l n, on_native (tcp_server_start_service h c a p l n);
  tcp_server_start_stream := λ h c a p l n, on_native (tcp_server_start_stream h c a p l n);
  tcp_server_start := λ h a p l n, on_native (tcp_server_start h a p l n);
  tcp_server_enable_filesystem := λ s, in_native (tcp_server_enable_filesystem s);
  tcp_server_enable_console := λ s, in_native (tcp_server_enable_console s);
  tcp_server_set_ready_handler := λ s g v b, on_native (tcp_server_set_ready_handler s g v b);
  tcp_server_done := λ s w, tcp_server_done s (snd w);
  tcp_server_destroy := λ s, in_native (tcp_server_destroy s);
  console_write_start := λ v b, on_native (console_write_start v b);
  root_read_start := λ a b, on_native (root_read_start a b);
  tcp_exchange_start := λ a, on_native (tcp_exchange_start a);
  http_transport_start := λ a, on_native (http_transport_start a);
  tcp_exchange_poll := λ r n, on_native (tcp_exchange_poll r n);
  tcp_exchange_result := λ r w, tcp_exchange_result r (snd w);
  tcp_exchange_destroy := λ r, in_native (tcp_exchange_destroy r);
  http_transport_poll := λ r n, on_native (http_transport_poll r n);
  http_transport_result := λ r w, http_transport_result r (snd w);
  http_transport_destroy := λ r, in_native (http_transport_destroy r);
  console_write_poll := λ r, on_native (console_write_poll r);
  console_write_result := λ r w, console_write_result r (snd w);
  console_write_destroy := λ r, in_native (console_write_destroy r);
  root_read_poll := λ r, on_native (root_read_poll r);
  root_read_result := λ r w, root_read_result r (snd w);
  root_read_error := λ r w, root_read_error r (snd w);
  root_read_destroy := λ r, in_native (root_read_destroy r);
  service_stop_requested := λ w, service_stop_requested (snd w);
  tcp_server_stop := λ s, in_native (tcp_server_stop s);
  tcp_server_poll := λ s n, in_native (tcp_server_poll s n);
  tcp_server_advance := λ s n, in_native (tcp_server_advance s n);
  tcp_server_error := λ s w, tcp_server_error s (snd w);
  tcp_server_result := λ s w, tcp_server_result s (snd w);
  restore_stop_signals := in_native restore_stop_signals;
  filesystem_stage_destroy := in_native filesystem_stage_destroy;
  gzip_stream_destroy := in_native gzip_stream_destroy;
  http_stream_destroy := in_native http_stream_destroy;
  digest_destroy := in_native digest_destroy;
|}.
End lifting.
Arguments World : clear implicits.

(** The callback [register_request] as a [VMServiceWait]. *)
Definition task_wait {W} : VMServiceWait (World W) := λ v w,
  let '(ok, message, r) := register_request v (fst w) in (ok, message, (r, snd w)).

(** Asynchronous functions get a read wait, the others a print wait. *)
Definition task_profile {W} (async : bool) : Profile (World W) :=
  if async then embedded_profile None None (Some task_wait)
  else embedded_profile None (Some task_wait) None.

Section executor.
Context {W : Type} `{!Native W}.
#[local] Existing Instance lift_native.
Implicit Types e : VMExecution (World W).

(** The VM a task copies from its session: idle, with no native state yet. *)
Variables (template : VM W).

Definition no_request : Request := mkRequest false false None 0 0.

(** [task->vm] as spawned. *)
Definition task_vm : VM (World W) :=
  mkVM (program template) false None (fault_kind template) (iterators template) (next_ref template)
    (no_request, world template).

Definition with_request (r : Request) e : VMExecution (World W) := set_world (r, snd (world (vm e))) e.

(** An interface call on an execution, its result kept or dropped. *)
Definition on_execution {A} (m : X (World W) A) e : M (A * VMExecution (World W)) := λ al,
  match m e al with
  | (Ret a, e', al') => (Ret (a, e'), al')
  | (Trap k s, _, al') => (Trap k s, al')
  | (NoMem, _, al') => (NoMem, al')
  | (Undef, _, al') => (Undef, al')
  | (Diverge, _, al') => (Diverge, al')
  end.

Definition spawn_execution (g : Function) (arguments : list Value) : M (VMExecution (World W)) := λ al,
  let '(o, _, al') := create task_vm g arguments (task_profile (is_async g)) al in (o, al').

#[local] Instance interpreter_executor : Executor (VMExecution (World W)) := {|
  exec_create := spawn_execution;
  exec_advance := λ e r,
    '(s, e) ← on_execution (vm_execution_advance 1) (with_request r e);
    mret (s, e, fst (world (vm e)));
  exec_complete_read := λ e v, '(_, e) ← on_execution (vm_execution_complete_read v) e; mret e;
  exec_complete_print := λ e m, '(_, e) ← on_execution (vm_execution_complete_print m) e; mret e;
  exec_error := λ e, error (vm e);
  exec_result := result;
  exec_exit_status := exit_status;
|}.

(** ** Confinement: the request changes only by registering *)

Definition may_register (r r' : Request) : Prop := r' = r ∨ registers r r'.

Lemma may_register_trans r1 r2 r3 : may_register r1 r2 → may_register r2 r3 → may_register r1 r3.
Proof.
  intros [->|H1] [->|H2]; [by left|by right|by right|].
  apply registers_spec in H1 as (_ & H1 & _). apply registers_spec in H2 as (H2 & _). congruence.
Qed.

Definition task_execution e : Prop := ∃ async, profile e = task_profile async.

Definition confines e e' : Prop :=
  profile e' = profile e ∧ may_register (fst (world (vm e))) (fst (world (vm e'))).

Definition confined {A} (m : X (World W) A) : Prop :=
  ∀ e, task_execution e → ends m e (λ _ e', confines e e') (confines e).

Lemma confines_refl e : confines e e.
Proof. split; [done|by left]. Qed.
Lemma confines_trans e e' e'' : confines e e' → confines e' e'' → confines e e''.
Proof. intros [? ?] [? ?]. split; [congruence|]. by eapply may_register_trans. Qed.

Lemma confined_same {A} (m : X (World W) A) :
  (∀ e al, let e' := snd (fst (m e al)) in profile e' = profile e ∧ world (vm e') = world (vm e)) → confined m.
Proof.
  intros H e _ al. specialize (H e al). destruct (m e al) as [[[] e'] al']; simpl in *; try done;
    destruct H as [H1 H2]; (split; [done|]); left; by rewrite H2.
Qed.

Lemma confined_bind {A B} (m : X (World W) A) (k : A → X (World W) B) :
  confined m → (∀ a, confined (k a)) → confined (x ← m; k x).
Proof.
  intros Hm Hk e He. eapply ends_bind; [by apply Hm|]. cbn beta. intros a e1 H1.
  eapply ends_mono; [apply Hk| |]; cbn beta; [|eauto using confines_trans..].
  destruct He as [b He]. exists b. destruct H1. congruence.
Qed.

Lemma confined_get {B} (k : VMExecution (World W) → X (World W) B) :
  (∀ e, task_execution e → confined (k e)) → confined (x ← get; k x).
Proof.
  intros Hk e He. eapply ends_bind; [apply ends_get|]. intros ? ? [-> ->]. by apply Hk.
Qed.

Lemma confined_native {A} (call : World W → A * World W) :
  (∀ w, may_register (fst w) (fst (snd (call w)))) → confined (native call).
Proof.
  intros H e He al. specialize (H (world (vm e))). unfold native. destruct (call _) as [a w]. by split.
Qed.

Lemma confined_native_outcome {A} (call : World W → outcome A * World W) :
  (∀ w, fst (snd (call w)) = fst w) → confined (native_outcome call).
Proof.
  intros H e He al. specialize (H (world (vm e))). unfold native_outcome.
  destruct (call _) as [[] w]; try done; (split; [done|]); by left.
Qed.

Lemma confined_ret {A} (a : A) : confined (mret a).
Proof. by apply confined_same. Qed.
Lemma confined_lift {A} (m : M A) : confined (lift m).
Proof. apply confined_same. intros e al. unfold lift. by destruct (m al). Qed.
Lemma confined_attempt {A} (m : M A) : confined (attempt m).
Proof. apply confined_same. intros e al. unfold attempt. by destruct (m al) as [[] ?]. Qed.
Lemma confined_raise {A} s : confined (raise s : X _ A).
Proof. by apply confined_same. Qed.
Lemma confined_read : confined get.
Proof. by apply confined_same. Qed.
Lemma confined_top : confined top.
Proof. apply confined_same. intros e al. unfold top. by destruct (frames e). Qed.
Lemma confined_update (g : VMExecution (World W) → VMExecution (World W)) :
  (∀ e, profile (g e) = profile e ∧ world (vm (g e)) = world (vm e)) → confined (update g).
Proof. intros H. apply confined_same. intros e al. apply H. Qed.
Lemma confined_set_top f : confined (set_top f).
Proof. by apply confined_update. Qed.
Lemma confined_fresh : confined fresh.
Proof. by apply confined_same. Qed.
Lemma confined_pending g : confined (on_pending g).
Proof. by apply confined_update. Qed.
Lemma confined_suspend : confined suspend.
Proof. by apply confined_update. Qed.
Lemma confined_check_reply m : confined (check_reply m).
Proof. destruct m; [apply confined_raise|apply confined_ret]. Qed.

Create HintDb confined discriminated.
Hint Resolve confined_ret confined_lift confined_attempt confined_raise confined_read confined_top
  confined_set_top confined_fresh confined_pending confined_suspend confined_check_reply : confined.

(** A call of a lifted native service. *)
Ltac native_step :=
  intros [? ?]; simpl; unfold on_native, in_native; simpl; repeat case_match; simplify_eq/=;
  solve [done | by left].

(** One rule for each form of program; the form is matched, not unified. *)
Ltac confine_step :=
  match goal with
  | |- confined (mbind _ get) => apply confined_get; intros ? ?
  | |- confined (mbind _ _) => apply confined_bind; [|intros ?]
  | |- confined (update _) => apply confined_update; solve [intros ?; split; reflexivity]
  | |- confined (native_outcome _) => apply confined_native_outcome; native_step
  | |- confined (native _) => solve [auto 1 with confined | apply confined_native; native_step]
  | |- confined (if ?b then _ else _) => destruct b
  | |- confined (match ?x with _ => _ end) => destruct x
  | |- confined _ => solve [auto 2 with confined]
  end.
Ltac confine := repeat confine_step.

Lemma frame_push_confined g args : confined (frame_push g args).
Proof. unfold frame_push. confine. Qed.
Lemma on_top_confined op : confined (on_top op).
Proof. unfold on_top. confine. Qed.
Hint Resolve frame_push_confined on_top_confined : confined.

Lemma grant_server_confined s : confined (grant_server s).
Proof. unfold grant_server. confine. Qed.
Hint Resolve grant_server_confined : confined.

Lemma service_call_confined a : confined (service_call a).
Proof. unfold service_call, configure_service. confine. Qed.
Lemma server_call_mode_confined a b : confined (server_call_mode a b).
Proof. unfold server_call_mode. confine. Qed.
Lemma builtin_call_confined b a : confined (builtin_call b a).
Proof. unfold builtin_call. confine. Qed.
Lemma start_service_confined r g : confined (start_service r g).
Proof. unfold start_service. confine. Qed.
Lemma wait_reply_confined ok m r s : confined r → confined (wait_reply ok m r s).
Proof. intros. unfold wait_reply. confine. Qed.
Hint Resolve service_call_confined server_call_mode_confined builtin_call_confined start_service_confined
  wait_reply_confined : confined.

(** The callback of a task. *)
Lemma task_wait_confined v : confined (native (task_wait v)).
Proof.
  apply confined_native. intros [r w]. unfold task_wait. simpl.
  destruct (register_request v r) as [[ok m] r'] eqn:H. simpl. unfold register_request in H.
  destruct (_ || _) eqn:Hc; simplify_eq; [by left|right]. apply (registers_ok v). unfold register_request.
  by rewrite Hc.
Qed.
Hint Resolve task_wait_confined : confined.

(** The only callbacks of a task's execution are [task_wait]. *)
Lemma task_read_wait e wait : task_execution e → read_wait (profile e) = Some wait → wait = task_wait.
Proof. intros [[] He]; rewrite He; simpl; [by intros [= <-]|done]. Qed.
Lemma task_print_wait e wait : task_execution e → print_wait (profile e) = Some wait → wait = task_wait.
Proof. intros [[] He]; rewrite He; simpl; [done|by intros [= <-]]. Qed.
Lemma task_host_call e : task_execution e → host_call (profile e) = None.
Proof. by intros [[] He]; rewrite He. Qed.

Lemma server_read_chunk_confined a : confined (server_read_chunk_call a).
Proof.
  unfold server_read_chunk_call, arg. apply confined_bind; [confine|]. intros v. apply confined_get.
  intros e He. destruct (value_index v); [|confine]. destruct (read_wait (profile e)) as [wait|] eqn:Hw; [|confine].
  apply task_read_wait in Hw as ->; [|done]. confine.
Qed.

Lemma async_fake_read_confined a : confined (async_fake_read_call a).
Proof.
  unfold async_fake_read_call, arg. apply confined_bind; [confine|]. intros v. apply confined_get.
  intros e He. destruct v; try solve [confine]. destruct (read_wait (profile e)) as [wait|] eqn:Hw; [|confine].
  apply task_read_wait in Hw as ->; [|done]. confine.
Qed.

Lemma embedder_call_confined b a : confined (embedder_call b a).
Proof.
  unfold embedder_call, arg. apply confined_get. intros e He. rewrite (task_host_call e He).
  destruct (_ || _); [confine|]. destruct (print_wait (profile e)) as [wait|] eqn:Hw; [|confine].
  apply task_print_wait in Hw as ->; [|done]. confine.
Qed.
Hint Resolve server_read_chunk_confined async_fake_read_confined embedder_call_confined : confined.

Lemma execution_builtin_confined b a : confined (execution_builtin b a).
Proof.
  unfold execution_builtin. apply confined_get. intros e He.
  repeat match goal with |- confined (if ?c then _ else _) => destruct c end;
    unfold http_connection_continue_call, http_listen_call, http_close_call, http_connection_invoke_call,
      host_exit_call, host_console_call, fs_read_call, exchange_call, process_exit_call, arg; confine.
Qed.

Lemma push_reply_confined b v : confined (push_reply b v).
Proof. unfold push_reply. confine. Qed.
Hint Resolve execution_builtin_confined push_reply_confined : confined.

Lemma dispatch_confined i : confined (dispatch i).
Proof.
  destruct i; simpl; auto with confined;
    unfold op_make_range, op_iter_init, op_iter_next, op_call, op_call_value, op_return; confine.
Qed.
Hint Resolve dispatch_confined : confined.

Lemma step_confined : confined step.
Proof. unfold step. confine. Qed.
Hint Resolve step_confined : confined.

Lemma loop_confined n : confined (loop n).
Proof. induction n as [|n IH]; cbn [loop]; confine. Qed.
Hint Resolve loop_confined : confined.

(** A transfer of the state that keeps the profile and the native world. *)
Lemma confines_into e e' e'' :
  confines e e' → profile e'' = profile e' → world (vm e'') = world (vm e') → confines e e''.
Proof. intros [? ?] ? Hw. split; [congruence|by rewrite Hw]. Qed.

Lemma settle_same e : profile (settle e) = profile e ∧ world (vm (settle e)) = world (vm e).
Proof. unfold settle. repeat case_match; done. Qed.

Lemma run_loop_confined n : confined (run_loop n).
Proof.
  intros e He al. unfold run_loop.
  pose proof (loop_confined n (set_running true e) He al) as H.
  destruct (loop n (set_running true e) al) as [[[] e'] al']; try done;
    (eapply confines_into; [exact H|by rewrite (proj1 (settle_same _))|by rewrite (proj2 (settle_same _))]).
Qed.

Lemma deliver_confined m : confined (deliver m).
Proof.
  intros e He al. unfold deliver.
  assert (confined (f ← top; v ← lift m; f ← lift (stack_push f v); set_top f)) as H by confine.
  specialize (H e He al). match type of H with context [?m e al] => destruct (m e al) as [[[] e'] al'] end; try done; by eapply confines_into.
Qed.
Hint Resolve run_loop_confined deliver_confined : confined.

Lemma advance_confined n : confined (vm_execution_advance n).
Proof. unfold vm_execution_advance, resume_shutdown. confine. Qed.
Lemma complete_read_confined v : confined (vm_execution_complete_read v).
Proof. unfold vm_execution_complete_read. confine. Qed.
Lemma complete_print_confined m : confined (vm_execution_complete_print m).
Proof. unfold vm_execution_complete_print. confine. Qed.

(** ** The laws *)

Lemma on_execution_yields {A} (m : X (World W) A) p e :
  confined m → preserves p m → task_execution e → wf_execution p e →
  yields (on_execution m e) (λ x, (task_execution x.2 ∧ wf_execution p x.2) ∧
    may_register (fst (world (vm e))) (fst (world (vm x.2)))).
Proof.
  intros Hm Hp He Hw al. unfold on_execution. specialize (Hm e He al). specialize (Hp e Hw al).
  destruct (m e al) as [[[] e'] al']; simpl; try done. destruct Hm as [Hq Hr].
  split_and!; [|done|done]. destruct He as [b He]. exists b. congruence.
Qed.

Lemma spawn_execution_yields g args :
  g ∈ functions (program template) →
  yields (spawn_execution g args) (λ e, task_execution e ∧ wf_execution (program template) e).
Proof.
  intros Hg al. unfold spawn_execution.
  destruct (create task_vm g args (task_profile (is_async g)) al) as [[[e| | | |] v] al'] eqn:Hc; try done.
  simpl. split; [|by eapply (create_wf task_vm)].
  revert Hc. unfold create. simpl. destruct (alloc al) as [[] al1]; try done.
  set (e0 := mkExecution _ _ _ _ _ _ _ _ _ _).
  pose proof (frame_push_confined g args e0 (ex_intro _ (is_async g) eq_refl) al1) as H.
  destruct (frame_push g args e0 al1) as [[[] e'] al2]; try done.
  intros [= <- _ _]. destruct H as [Hp _]. by exists (is_async g).
Qed.

Lemma lift_handler_ok : handler_ok (W := W) → handler_ok (W := World W).
Proof.
  intros Hok p a [r w] g args w' H. simpl in H. unfold on_native in H. simpl in H.
  destruct (http_connection_handler p a w) as [o w1] eqn:Hh. simplify_eq. by eapply Hok.
Qed.

Context (Hok : handler_ok (W := W)) (Hwf : well_formed (program template)).

#[local] Instance interpreter_laws : ExecutorLaws (VMExecution (World W)).
Proof.
  refine {| exec_ok := λ e, task_execution e ∧ wf_execution (program template) e;
            admissible := λ g, g ∈ functions (program template) |}.
  - intros. by apply spawn_execution_yields.
  - intros e r [He Hw]. eapply yields_bind.
    + apply (on_execution_yields _ (program template)); [apply advance_confined| |done|by apply wf_native].
      apply advance_preserves; [by apply lift_handler_ok|done].
    + intros [s e'] [? [Hr|Hr]]; apply yields_ret; (split; [done|]); [by left|by right].
  - intros e v [He Hw]. eapply yields_bind.
    + by apply (on_execution_yields _ (program template));
        [apply complete_read_confined|apply complete_read_preserves|..].
    + intros [s e'] [? _]. by apply yields_ret.
  - intros e v [He Hw]. eapply yields_bind.
    + apply (on_execution_yields _ (program template)); [apply complete_print_confined| |done..].
      intros x. apply complete_print_ends.
    + intros [s e'] [? _]. by apply yields_ret.
Defined.

(** C18: Sessions of bytecode.  A session whose tasks run the interpreter on
    functions of a verified program only reaches well-formed states, whatever
    the embedder does and whatever the services of the tasks answer: the
    session invariant holds, and a task owns an execution exactly while it is
    ready or waiting, an execution that is idle, well formed for the program,
    and has no callback but the one that registers requests with the session. *)
Theorem bytecode_sessions active n m last al ts0 al' ts :
  vm_tasks_create active n m last al = (Ret ts0, al') → rtc session_step ts0 ts →
  session_ok ts ∧
  (∀ i t, tasks ts !! i = Some t →
     match task_status t with
     | TASK_READY | TASK_WAITING =>
         ∃ e, execution t = Some e ∧ task_execution e ∧ wf_execution (program template) e
     | _ => execution t = None
     end).
Proof.
  intros Hc Hr. apply (yields_at _ _ _ _ _ (yields_runs _ _ _ (create_kept active n m last))) in Hc as (Hok0 & _).
  destruct (session_steps_kept _ _ Hok0 Hr) as [Hts _]. split; [done|]. intros i t Hi.
  destruct (ok_tree _ Hts _ _ Hi) as (_ & _ & _ & He & Htask).
  destruct (task_status t); try done; try apply Htask;
    destruct Htask as [[e Hx] _]; destruct (He e Hx); eauto.
Qed.
End executor.

(** ** Closed example *)

#[local] Instance sample_services : Native unit := sample_native None.

(** [async fetch] awaits a read of the embedder and returns what it answers. *)
Definition fetch : Function :=
  mkFunction (str "fetch") false true false []
    [OP_CONST (CBool false); OP_AWAIT_CALL (str "async_fake_read") 1; OP_RETURN].
Definition reading_program : Program := mkProgram [fetch; sample_main] true.
Definition reading_vm : VM unit := mkVM reading_program false None VM_FAULT_FATAL ∅ 1%positive tt.

Lemma reading_well_formed : well_formed reading_program.
Proof.
  destruct (verify_spec reading_program) as (q & _ & [[Hwf Hq]|[_ [s Hq]]]); [decide_now| |];
    replace (verify reading_program) with (Ret reading_program) in Hq by (vm_compute; reflexivity);
    [by injection Hq as <-|done].
Qed.

#[local] Instance reading_executor : Executor (VMExecution (World unit)) := interpreter_executor reading_vm.
#[local] Instance reading_laws : ExecutorLaws (VMExecution (World unit)) :=
  interpreter_laws reading_vm (sample_native_handler _) reading_well_formed.

(** The session after its task registered the read, and after the completion. *)
Definition reading_steps : M (VMTasks (VMExecution (World unit))) :=
  ts ← vm_tasks_create false 1 1 0;
  '(_, ts) ← vm_tasks_spawn ts (mkTaskId 0 0) fetch [] 10;
  '(_, ts) ← vm_tasks_pump ts 1 5;
  mret ts.
Definition bytes_reply : Value := Variant (str "Ok") [Bytes (str "abc")].
Definition reading_tasks : VMTasks (VMExecution (World unit)) :=
  match fst (reading_steps []) with Ret ts => ts | _ => mkTasks [] 0 [] 0 0 0 0 0 0 0 false end.
Definition read_tasks : VMTasks (VMExecution (World unit)) :=
  match fst (('(_, ts) ← vm_tasks_complete_read reading_tasks (mkOperationId (mkTaskId 1 1) 1) (Some bytes_reply);
              '(_, ts) ← vm_tasks_pump ts 2 5; mret ts) []) with
  | Ret ts => ts
  | _ => reading_tasks
  end.

Lemma reading_reached : ∃ ts0, vm_tasks_create false 1 1 0 [] = (Ret ts0, []) ∧ rtc session_step ts0 read_tasks.
Proof.
  eexists. split; [reflexivity|].
  eapply rtc_l; [by eapply (step_spawn _ (mkTaskId 0 0) fetch [] 10 []); [apply list_elem_of_here|vm_compute]|].
  eapply rtc_l; [by eapply (step_pump _ 1 5 []); vm_compute|].
  eapply rtc_l; [by eapply (step_complete_read _ (mkOperationId (mkTaskId 1 1) 1) (Some bytes_reply) []); vm_compute|].
  eapply rtc_l; [by eapply (step_pump _ 2 5 []); vm_compute|].
  match goal with |- rtc _ ?x ?y => replace x with y by (vm_compute; reflexivity) end. apply rtc_refl.
Qed.

(** The task waits, is completed by the embedder and ends with the bytes. *)
Lemma bytecode_sessions_witness :
  vm_tasks_status reading_tasks (mkTaskId 1 1) = TASK_WAITING ∧
  vm_tasks_result read_tasks (mkTaskId 1 1) = Some bytes_reply ∧ session_ok read_tasks.
Proof.
  destruct reading_reached as (ts0 & Hc & Hr). split_and!; [vm_compute; reflexivity..|].
  apply (bytecode_sessions reading_vm (sample_native_handler _) reading_well_formed _ _ _ _ _ _ _ _ Hc Hr).
Defined.
