(* ===== verification/Storage.v ===== *)
(** * Reference counts and shared array storage: src/src/vm/value.c

    The heap behind values.  A cell is an object of kind [Value], or the backing
    store that array versions share ([struct ArrayStorage]); both carry the
    number of references to them.  [release] frees what is no longer referenced
    and [value_array_append] extends a store in place when it may.  Reading a
    cell that does not exist is undefined, so a specification with [returns]
    says that memory is never used after it is freed. *)

From Stdlib Require Import ZArith Lia.
From stdpp Require Import prelude gmap relations.
From S2P Require Import Prelude Bigint Value.

(** ** Data *)

(** [Store capacity items]: the slots of the store that are in use.  [Resource]
    is an opaque HTTP object with the values its destructor releases. *)
Inductive Body :=
| Atom (v : Value)
| Sequence (k : ValueKind) (items : list ref)
| View (k : ValueKind) (count : nat) (storage : ref)
| Named (k : ValueKind) (name : list Z) (names : list (list Z)) (values : list ref)
| Iterator_ (iterable : ref)
| Resource (k : ValueKind) (owned : list ref)
| Store (capacity : nat) (items : list ref).

Record Cell := mkCell { refs : nat; body : Body }.
Abbreviation heap := (gmap ref Cell).

(** The references a cell owns. *)
Definition children (b : Body) : list ref :=
  match b with
  | Atom _ => []
  | Sequence _ items | Store _ items => items
  | View _ _ s => [s]
  | Named _ _ _ values => values
  | Iterator_ x => [x]
  | Resource _ owned => owned
  end.

(** ** Operations *)

Definition load (h : heap) (x : ref) : M Cell :=
  match h !! x with Some c => mret c | None => undef end.

(** The store behind a view. *)
Definition load_store (h : heap) (s : ref) : M (nat * nat * list ref) :=
  c ← load h s;
  match body c with Store capacity items => mret (refs c, capacity, items) | _ => undef end.

Definition retain (x : ref) (h : heap) : M heap :=
  c ← load h x; mret (<[x := mkCell (S (refs c)) (body c)]> h).

Fixpoint retain_all (l : list ref) (h : heap) : M heap :=
  match l with [] => mret h | x :: l => h ← retain x h; retain_all l h end.

Fixpoint release_all (rel : ref → heap → M heap) (l : list ref) (h : heap) : M heap :=
  match l with [] => mret h | x :: l => h ← rel x h; release_all rel l h end.

(** [fuel] bounds the depth of the recursion. *)
Fixpoint release (fuel : nat) (x : ref) (h : heap) : M heap :=
  match fuel with
  | O => diverge
  | S f =>
      c ← load h x;
      match refs c with
      | O => undef
      | S (S n) => mret (<[x := mkCell (S n) (body c)]> h)
      | 1%nat =>
          let h := <[x := mkCell 0 (body c)]> h in
          h ← (match body c with
               | View _ count s =>
                   '(q, capacity, items) ← load_store h s;
                   match q with
                   | O => undef
                   | 1%nat =>
                       h ← release_all (release f) items (<[s := mkCell 0 (Store capacity items)]> h);
                       mret (delete s h)
                   | S q =>
                       if Nat.eqb count (length items) then
                         match last items with
                         | None => undef
                         | Some y => release f y (<[s := mkCell q (Store capacity (removelast items))]> h)
                         end
                       else mret (<[s := mkCell q (Store capacity items)]> h)
                   end
               | b => release_all (release f) (children b) h
               end);
          mret (delete x h)
      end
  end.

(** [value_new] and the constructors: the children are retained. *)
Definition make (b : Body) (h : heap) : M (ref * heap) :=
  h ← retain_all (children b) h;
  let x := fresh (dom h) in
  mret (x, <[x := mkCell 1 b]> h).

Definition heap_new (v : Value) (h : heap) : M (ref * heap) := _ ← alloc; make (Atom v) h.
Definition heap_sequence (k : ValueKind) (l : list ref) (h : heap) : M (ref * heap) :=
  _ ← alloc; _ ← calloc_items (length l); make (Sequence k l) h.
Definition heap_named (k : ValueKind) (name : list Z) (names : list (list Z)) (values : list ref) (h : heap)
  : M (ref * heap) :=
  _ ← alloc;
  name ← copy_text name;
  names ← (match k with
           | V_RECORD =>
               _ ← calloc_items (length values); _ ← calloc_items (length values); copy_texts names
           | _ => _ ← calloc_items (length values); mret []
           end);
  make (Named k name names values) h.
Definition heap_iterator (x : ref) (h : heap) : M (ref * heap) := _ ← alloc; make (Iterator_ x) h.

(** *** Appending *)

Fixpoint all_independent (rel : ref → nat → M (bool * nat)) (l : list ref) (budget : nat) : M (bool * nat) :=
  match l with
  | [] => mret (true, budget)
  | x :: l =>
      '(ok, budget) ← rel x budget;
      if (ok : bool) then all_independent rel l budget else mret (false, budget)
  end.

(** The answer and the budget left; [fuel] bounds the depth, which the budget
    bounds too. *)
Fixpoint append_independent (fuel : nat) (h : heap) (target x : ref) (budget : nat) : M (bool * nat) :=
  match budget with
  | O => mret (false, O)
  | S budget =>
      match fuel with
      | O => diverge
      | S f =>
          c ← load h x;
          match body c with
          | Resource _ _ => mret (false, budget)
          | View _ _ s =>
              if decide (s = target) then mret (false, budget)
              else
                '(_, _, items) ← load_store h s;
                all_independent (append_independent f h target) items budget
          | Sequence _ items => all_independent (append_independent f h target) items budget
          | Named _ _ _ values => all_independent (append_independent f h target) values budget
          | Iterator_ y => append_independent f h target y budget
          | Atom _ => mret (true, budget)
          | Store _ _ => undef
          end
      end
  end.

Definition append_budget : nat := 64.
Definition append_limit : Z := SIZE_MAX / 8.

(** The elements of an array and its store, if it has one. *)
Definition array_parts (h : heap) (b : Body) : M (list ref * option (ref * nat * nat)) :=
  match b with
  | Sequence _ items => mret (items, None)
  | View _ count s =>
      '(q, capacity, items) ← load_store h s;
      if Nat.ltb (length items) count then undef
      else mret (take count items, Some (s, q, capacity))
  | _ => undef
  end.

(** [storage && storage->refs == 1 && count < capacity && append_independent] *)
Definition may_share (h : heap) (count : nat) (storage : option (ref * nat * nat)) (item : ref)
  : M (option (ref * nat)) :=
  match storage with
  | Some (s, 1%nat, capacity) =>
      if Nat.ltb count capacity then
        '(ok, _) ← append_independent append_budget h s item append_budget;
        mret (if (ok : bool) then Some (s, capacity) else None)
      else mret None
  | _ => mret None
  end.

Definition grown_capacity (count : nat) : nat :=
  if Nat.ltb count 8 then 8
  else if Z.of_nat count <=? append_limit / 2 then 2 * count else Z.to_nat append_limit.

Definition value_array_append (array item : ref) (h : heap) : M (ref * heap) :=
  c ← load h array;
  '(items, storage) ← array_parts h (body c);
  let count := length items in
  if append_limit <=? Z.of_nat count then nomem
  else
    _ ← alloc;
    share ← may_share h count storage item;
    '(s, h) ← (match share with
               | Some (s, capacity) =>
                   h ← retain item h;
                   mret (s, <[s := mkCell 2 (Store capacity (items ++ [item]))]> h)
               | None =>
                   _ ← alloc; _ ← alloc;
                   make (Store (grown_capacity count) (items ++ [item])) h
               end);
    let x := fresh (dom h) in
    mret (x, <[x := mkCell 1 (View V_ARRAY (S count) s)]> h).
