(* ===== verification/Ownership.v ===== *)
(** * Ownership: the heap of values is safe, and arrays are persistent

    Every cell is counted once for each reference to it, at most two array
    versions share a store, and the ownership graph has no cycle.  [release]
    frees exactly what is no longer referenced and changes no surviving value;
    [value_array_append] returns the extended array and changes no other; and a
    heap without roots is empty. *)

From Stdlib Require Import ZArith Lia.
From stdpp Require Import prelude gmap relations fin_maps.
From S2P Require Import Prelude Bigint Value Storage.

(** ** Counting *)

Fixpoint occ (x : ref) (l : list ref) : nat :=
  match l with
  | [] => 0
  | y :: l => (if decide (y = x) then 1 else 0) + occ x l
  end.

Lemma occ_app x l1 l2 : occ x (l1 ++ l2) = (occ x l1 + occ x l2)%nat.
Proof. induction l1; simpl; lia. Qed.
Lemma occ_elem x l : x ∈ l ↔ (0 < occ x l)%nat.
Proof.
  induction l as [|y l IH]; simpl; [set_solver by lia|]. rewrite elem_of_cons, IH.
  case_decide; subst; [|naive_solver]. intuition lia.
Qed.

(** References to a cell from cells; all references in a heap. *)
Definition indegree (g : heap) (x : ref) : nat := sumf (λ c, occ x (children (body c))) g.
Definition total (g : heap) : nat := sumf refs g.
Definition refs_of (g : heap) (x : ref) : nat := from_option refs 0%nat (g !! x).

(** The count of every cell is the number of references to it, from the roots
    [R] and from cells; so nothing refers to a cell that does not exist. *)
Record counted (g : heap) (R : list ref) : Prop := {
  counted_refs x : refs_of g x = (occ x R + indegree g x)%nat;
  counted_pos x c : g !! x = Some c → (0 < refs c)%nat;
}.

Lemma refs_of_Some g x c : g !! x = Some c → refs_of g x = refs c.
Proof. unfold refs_of. by intros ->. Qed.
Lemma refs_of_None g x : g !! x = None → refs_of g x = 0%nat.
Proof. unfold refs_of. by intros ->. Qed.

Lemma counted_insert g R x b :
  g !! x = None → counted g (children b ++ R) → counted (<[x:=mkCell 1 b]> g) (x :: R).
Proof.
  intros Hx [Hr Hp]. split.
  - intros y. specialize (Hr y). unfold indegree in *. rewrite sumf_insert by done. rewrite occ_app in Hr. simpl.
    destruct (decide (x = y)) as [->|Hne].
    + rewrite (refs_of_None _ _ Hx) in Hr. unfold refs_of. rewrite lookup_insert_eq. simpl. lia.
    + unfold refs_of in *. rewrite lookup_insert_ne by done. lia.
  - intros y c. rewrite lookup_insert_Some. intros [[_ <-]|[_ H]]; simpl; [lia|eauto].
Qed.

Lemma counted_update g R R' x c c' :
  g !! x = Some c → (0 < refs c')%nat → counted g R →
  (∀ y, occ y R' + occ y (children (body c')) + (if decide (x = y) then refs c else 0) =
        occ y R + occ y (children (body c)) + (if decide (x = y) then refs c' else 0))%nat →
  counted (<[x:=c']> g) R'.
Proof.
  intros Hx Hc [Hr Hp] Hy. split.
  - intros y. specialize (Hr y). specialize (Hy y). unfold indegree in *.
    pose proof (sumf_update (λ c, occ y (children (body c))) g x c c' Hx) as H. simpl in H.
    destruct (decide (x = y)) as [->|Hne].
    + rewrite (refs_of_Some _ _ _ Hx) in Hr. unfold refs_of. rewrite lookup_insert_eq. simpl. lia.
    + unfold refs_of in *. rewrite lookup_insert_ne by done. lia.
  - intros y d. rewrite lookup_insert_Some. intros [[_ <-]|[_ H]]; [done|eauto].
Qed.

Lemma counted_delete g R x b :
  g !! x = Some (mkCell 1 b) → counted g (x :: R) → counted (delete x g) (children b ++ R).
Proof.
  intros Hx [Hr Hp]. split.
  - intros y. specialize (Hr y). unfold indegree in *. rewrite occ_app.
    rewrite (sumf_delete _ g x _ Hx) in Hr. simpl in Hr. destruct (decide (x = y)) as [->|Hne].
    + rewrite (refs_of_Some _ _ _ Hx) in Hr. unfold refs_of. rewrite lookup_delete_eq. simpl in *. lia.
    + unfold refs_of in *. rewrite lookup_delete_ne by done. lia.
  - intros y c. rewrite lookup_delete_Some. intros [_ H]. eauto.
Qed.

(** What is referenced exists. *)
Lemma counted_root g R x : counted g R → x ∈ R → ∃ c, g !! x = Some c.
Proof.
  intros [Hr _] Hx%occ_elem. specialize (Hr x). unfold refs_of in Hr. destruct (g !! x); [eauto|simpl in Hr; lia].
Qed.
Lemma counted_child g R x c y : counted g R → g !! x = Some c → y ∈ children (body c) → ∃ d, g !! y = Some d.
Proof.
  intros [Hr _] Hx Hy%occ_elem. specialize (Hr y). unfold indegree in Hr. rewrite (sumf_delete _ g x c Hx) in Hr.
  unfold refs_of in Hr. destruct (g !! y); [eauto|simpl in Hr; lia].
Qed.

(** ** Sorts of cells *)

Definition is_store (b : Body) : bool := match b with Store _ _ => true | _ => false end.
Definition is_view (b : Body) : bool := match b with View _ _ _ => true | _ => false end.
Definition sort (g : heap) (x : ref) : option bool := (λ c, is_store (body c)) <$> g !! x.

(** Views refer to a store, everything else to values. *)
Record typed (g : heap) (R : list ref) : Prop := {
  typed_edges x c y : g !! x = Some c → y ∈ children (body c) → sort g y = Some (is_view (body c));
  typed_roots y : y ∈ R → sort g y = Some false;
}.

(** ** Survival

    [shrinks g g']: the cells of [g'] are cells of [g], unchanged but for their
    counts and for stores cut at the end. *)
Definition body_le (b' b : Body) : Prop :=
  b' = b ∨ ∃ n l' l, b' = Store n l' ∧ b = Store n l ∧ l' `prefix_of` l.
Definition shrinks (g g' : heap) : Prop :=
  ∀ x c', g' !! x = Some c' → ∃ c, g !! x = Some c ∧ body_le (body c') (body c).

#[local] Instance body_le_preorder : PreOrder body_le.
Proof.
  split; [by left|]. intros b1 b2 b3 [->|(n & l & l' & -> & -> & Hl)]; [done|].
  intros [<-|(m & k & k' & ? & -> & Hk)]; simplify_eq; right; [by eexists _, _, _|].
  eexists _, _, _. split_and!; [done..|by etrans].
Qed.
#[local] Instance shrinks_preorder : PreOrder shrinks.
Proof.
  split; [by intros g x c Hx; exists c|]. intros g1 g2 g3 H12 H23 x c3 Hx.
  destruct (H23 x c3 Hx) as (c2 & Hx2 & Hb2). destruct (H12 x c2 Hx2) as (c1 & Hx1 & Hb1).
  exists c1. split; [done|by etrans].
Qed.

Lemma body_le_children b' b y : body_le b' b → y ∈ children b' → y ∈ children b.
Proof. intros [->|(n & l' & l & -> & -> & [k ->])]; set_solver. Qed.
Lemma body_le_store b' b : body_le b' b → is_store b' = is_store b ∧ is_view b' = is_view b.
Proof. by intros [->|(n & l' & l & -> & -> & _)]. Qed.

Lemma shrinks_delete g x : shrinks g (delete x g).
Proof. intros y c. rewrite lookup_delete_Some. intros [_ H]. by exists c. Qed.
Lemma shrinks_update g x c c' : g !! x = Some c → body_le (body c') (body c) → shrinks g (<[x:=c']> g).
Proof.
  intros Hx Hb y d. rewrite lookup_insert_Some. intros [[<- <-]|[_ H]]; [eauto|by exists d].
Qed.

Lemma shrinks_sort g g' y d : shrinks g g' → g' !! y = Some d → sort g' y = sort g y.
Proof.
  intros Hs Hy. destruct (Hs y d Hy) as (c & Hc & Hb). unfold sort. rewrite Hy, Hc. simpl.
  by rewrite (proj1 (body_le_store _ _ Hb)).
Qed.

Lemma shrinks_typed g g' R R' :
  shrinks g g' → typed g R → counted g' R' → (∀ y, y ∈ R' → sort g y = Some false) → typed g' R'.
Proof.
  intros Hs [He _] Hc HR. split.
  - intros x c' y Hx Hy. destruct (counted_child _ _ _ _ _ Hc Hx Hy) as [d Hd].
    rewrite (shrinks_sort _ _ _ _ Hs Hd). destruct (Hs x c' Hx) as (c & Hxc & Hb).
    rewrite (proj2 (body_le_store _ _ Hb)). eapply He; [done|by eapply body_le_children].
  - intros y Hy. destruct (counted_root _ _ _ Hc Hy) as [d Hd]. rewrite (shrinks_sort _ _ _ _ Hs Hd). auto.
Qed.

(** ** Stores and their views *)

Definition view_at (s : ref) (n : nat) (b : Body) : nat :=
  match b with View _ m t => if decide (t = s ∧ m = n) then 1 else 0 | _ => 0 end.
Definition views (g : heap) (s : ref) (n : nat) : nat := sumf (λ c, view_at s n (body c)) g.

(** A store has one view, of all its items, or a second one without the last. *)
Definition shared_ok (g : heap) (s : ref) (q n : nat) : Prop :=
  (q = 1 ∧ views g s n = 1 ∨ q = 2 ∧ 0 < n ∧ views g s n = 1 ∧ views g s (n - 1) = 1)%nat.
Definition stores_ok (g : heap) : Prop := ∀ s q m l,
  g !! s = Some (mkCell q (Store m l)) → (length l ≤ m)%nat ∧ shared_ok g s q (length l).

Record heap_ok (g : heap) (R : list ref) : Prop := {
  heap_counted : counted g R;
  heap_typed : typed g R;
  heap_stores : stores_ok g;
}.

Lemma view_at_occ s n b : (view_at s n b ≤ occ s (children b))%nat.
Proof. destruct b; simpl; try lia. repeat case_decide; naive_solver lia. Qed.

(** Views of different lengths are different references to the store. *)
Lemma views_two g s n1 n2 : n1 ≠ n2 → (views g s n1 + views g s n2 ≤ indegree g s)%nat.
Proof.
  intros Hn. unfold views, indegree. rewrite <- sumf_add. apply sumf_le. intros c.
  destruct (body c); simpl; try lia. repeat case_decide; naive_solver lia.
Qed.
Lemma views_three g s n1 n2 n3 :
  n1 ≠ n2 → n1 ≠ n3 → n2 ≠ n3 → (views g s n1 + views g s n2 + views g s n3 ≤ indegree g s)%nat.
Proof.
  intros H1 H2 H3. unfold views, indegree. rewrite <- !sumf_add. apply sumf_le. intros c.
  destruct (body c); simpl; try lia. repeat case_decide; naive_solver lia.
Qed.

Lemma views_delete g x c s n :
  g !! x = Some c → views g s n = (view_at s n (body c) + views (delete x g) s n)%nat.
Proof. intros H. unfold views. by rewrite (sumf_delete _ _ _ _ H). Qed.
Lemma views_update g x c c' s n :
  g !! x = Some c → view_at s n (body c') = view_at s n (body c) → views (<[x:=c']> g) s n = views g s n.
Proof.
  intros H Hv. unfold views. pose proof (sumf_update (λ c, view_at s n (body c)) g x c c' H) as E.
  simpl in E. lia.
Qed.
Lemma views_insert g x c s n :
  g !! x = None → views (<[x:=c]> g) s n = (view_at s n (body c) + views g s n)%nat.
Proof. intros H. unfold views. by rewrite sumf_insert. Qed.

(** The length a view of a store can have. *)
Lemma view_length g R x q k n s qs m l :
  heap_ok g R → g !! x = Some (mkCell q (View k n s)) → g !! s = Some (mkCell qs (Store m l)) →
  (n = length l ∨ qs = 2 ∧ 0 < length l ∧ n = length l - 1)%nat ∧ (qs = 1 ∨ qs = 2)%nat.
Proof.
  intros [Hc Ht Hst] Hx Hs. destruct (Hst _ _ _ _ Hs) as [_ Hsh]. pose proof (counted_refs _ _ Hc s) as Hr.
  assert (occ s R = 0)%nat as H0.
  { destruct (decide (s ∈ R)) as [Hin|Hin]; [|rewrite occ_elem in Hin; lia].
    apply (typed_roots _ _ Ht) in Hin. unfold sort in Hin. by rewrite Hs in Hin. }
  rewrite (refs_of_Some _ _ _ Hs), H0 in Hr. simpl in Hr.
  assert (1 ≤ views g s n)%nat as Hv.
  { rewrite (views_delete _ _ _ _ _ Hx). simpl. rewrite decide_True by done. lia. }
  destruct (decide (n = length l)) as [->|Hn]; [split; [by left|destruct Hsh; naive_solver]|].
  pose proof (views_two g s n (length l) Hn). destruct Hsh as [[-> Hv1]|(-> & Hl & Hv1 & Hv2)]; [lia|].
  split; [right|by right]. split_and!; [done..|]. destruct (decide (n = length l - 1)%nat); [done|].
  pose proof (views_three g s n (length l) (length l - 1)). lia.
Qed.

(** ** Releasing one reference *)

Lemma total_pos g x c R : counted g R → g !! x = Some c → (0 < total g)%nat.
Proof. intros [_ Hp] Hx. specialize (Hp _ _ Hx). unfold total. rewrite (sumf_delete _ _ _ _ Hx). lia. Qed.

Lemma root_cell g x R : heap_ok g (x :: R) → ∃ q b, g !! x = Some (mkCell q b) ∧ is_store b = false ∧ (0 < q)%nat.
Proof.
  intros [Hc Ht _]. destruct (counted_root _ _ x Hc) as [[q b] Hx]; [set_solver|]. exists q, b. split; [done|].
  pose proof (typed_roots _ _ Ht x) as Hs. unfold sort in Hs. rewrite Hx in Hs. simpl in Hs.
  split; [|by apply (counted_pos _ _ Hc _ _ Hx)]. assert (Some (is_store b) = Some false) as [=] by set_solver. done.
Qed.

(** Stores keep their views when a cell that is not a view changes its count. *)
Lemma heap_ok_recount g x n b R :
  g !! x = Some (mkCell (S (S n)) b) → is_store b = false → heap_ok g (x :: R) →
  heap_ok (<[x:=mkCell (S n) b]> g) R.
Proof.
  intros Hx Hb [Hc Ht Hst].
  assert (counted (<[x:=mkCell (S n) b]> g) R) as Hc'.
  { eapply counted_update; [done|simpl; lia|done|]. intros y. simpl. case_decide; lia. }
  split; [done| |].
  - eapply (shrinks_typed g); [by eapply shrinks_update; [|left]|done..|]. intros y Hy.
    apply (typed_roots _ _ Ht). set_solver.
  - intros s q m l Hs. destruct (decide (s = x)) as [->|Hne]; [rewrite lookup_insert_eq in Hs; by simplify_eq|].
    rewrite lookup_insert_ne in Hs by done. destruct (Hst _ _ _ _ Hs) as [? Hv]. split; [done|].
    unfold shared_ok. by rewrite !(views_update _ _ _ _ _ _ Hx).
Qed.

Lemma drop_roots g R x q b y :
  typed g (x :: R) → g !! x = Some (mkCell q b) → is_view b = false → y ∈ children b ++ R → sort g y = Some false.
Proof.
  intros Ht Hx Hv [Hy|Hy]%elem_of_app; [|apply (typed_roots _ _ Ht); set_solver].
  rewrite <- Hv. by apply (typed_edges _ _ Ht x (mkCell q b) y).
Qed.

Lemma heap_ok_drop g x b R :
  g !! x = Some (mkCell 1 b) → is_store b = false → is_view b = false → heap_ok g (x :: R) →
  heap_ok (delete x g) (children b ++ R).
Proof.
  intros Hx Hb Hv [Hc Ht Hst]. pose proof (counted_delete _ _ _ _ Hx Hc) as Hc'. split; [done| |].
  - eapply (shrinks_typed g); [apply shrinks_delete|done..|]. intros y. by eapply drop_roots.
  - intros s q m l [Hne Hs]%lookup_delete_Some. destruct (Hst _ _ _ _ Hs) as [? Hsh]. split; [done|].
    unfold shared_ok in *. rewrite !(views_delete _ _ _ _ _ Hx) in Hsh. by destruct b.
Qed.

(** The store of a view. *)
Lemma view_store g R x q k n s :
  heap_ok g R → g !! x = Some (mkCell q (View k n s)) → s ≠ x ∧ ∃ qs m l, g !! s = Some (mkCell qs (Store m l)).
Proof.
  intros [_ Ht _] Hx. pose proof (typed_edges _ _ Ht x _ s Hx) as Hs. unfold sort in Hs. simpl in Hs.
  destruct (g !! s) as [[qs []]|] eqn:Hg; simpl in Hs;
    try (by assert (Some false = Some true) by set_solver).
  split; [|eauto]. intros ->. congruence.
Qed.

(** A view that dies: the cell of its store becomes [c]. *)
Section dying_view.
Context (g : heap) (x s : ref) (k : ValueKind) (n qs m : nat) (l R : list ref).
Context (Hx : g !! x = Some (mkCell 1 (View k n s))) (Hs : g !! s = Some (mkCell qs (Store m l))).
Context (Hok : heap_ok g (x :: R)) (Hne : s ≠ x).

Lemma dying_store : delete x g !! s = Some (mkCell qs (Store m l)).
Proof. by rewrite lookup_delete_ne. Qed.
Lemma dying_counted : counted (delete x g) (s :: R).
Proof. apply (counted_delete _ _ _ _ Hx (heap_counted _ _ Hok)). Qed.

Lemma dying_views t i : t ≠ s → views (delete x g) t i = views g t i.
Proof. intros Ht. rewrite (views_delete _ _ _ _ _ Hx). simpl. by rewrite decide_False by naive_solver. Qed.
Lemma dying_own i : i ≠ n → views (delete x g) s i = views g s i.
Proof. intros Ht. rewrite (views_delete _ _ _ _ _ Hx). simpl. by rewrite decide_False by naive_solver. Qed.

Lemma dying_roots y : y ∈ l ++ R → sort g y = Some false.
Proof.
  destruct Hok as [_ Ht _]. intros [Hy|Hy]%elem_of_app; [|apply (typed_roots _ _ Ht); set_solver].
  by apply (typed_edges _ _ Ht s _ y Hs).
Qed.

Lemma heap_ok_drop_store : qs = 1%nat → heap_ok (delete s (delete x g)) (l ++ R).
Proof.
  intros Hq. pose proof dying_store as Hds. rewrite Hq in Hds.
  pose proof (counted_delete _ _ _ _ Hds dying_counted) as Hc'. simpl in Hc'.
  split; [done| |].
  - eapply (shrinks_typed g); [by etrans; apply shrinks_delete|apply Hok|done|]. apply dying_roots.
  - intros t q m' l' [Hts [_ Ht]%lookup_delete_Some]%lookup_delete_Some.
    destruct (heap_stores _ _ Hok _ _ _ _ Ht) as [? Hsh]. split; [done|]. unfold shared_ok.
    pose proof (λ i, views_delete _ _ _ t i Hds) as Hv. simpl in Hv.
    rewrite <- !Hv, !dying_views by done. done.
Qed.

Lemma heap_ok_cut l' R' :
  qs = 2%nat → (l = l' ++ R' ∧ length R' = if decide (n = length l) then 1 else 0)%nat →
  heap_ok (<[s := mkCell 1 (Store m l')]> (delete x g)) (R' ++ R).
Proof.
  intros Hq [Hl Hlen]. set (g' := <[s := _]> (delete x g)).
  assert (counted g' (R' ++ R)) as Hc'.
  { eapply counted_update; [apply dying_store|simpl; lia|apply dying_counted|]. intros y. simpl.
    rewrite Hl, !occ_app. destruct (decide (s = y)); lia. }
  assert (shrinks g g') as Hsh.
  { etrans; [apply (shrinks_delete g x)|]. eapply shrinks_update; [apply dying_store|].
    right. eexists _, _, _. split_and!; [done..|]. rewrite Hl. by eexists. }
  split; [done| |].
  - eapply (shrinks_typed g); [done|apply Hok|done|]. intros y Hy. apply dying_roots. set_solver.
  - destruct (view_length _ _ _ _ _ _ _ _ _ _ Hok Hx Hs) as [Hn _].
    assert (∀ t i, views g' t i = views (delete x g) t i) as Hv.
    { intros t i. by apply (views_update _ _ _ _ _ _ dying_store). }
    intros t q m' k' Ht. destruct (decide (t = s)) as [->|Hts].
    + unfold g' in Ht. rewrite lookup_insert_eq in Ht. simplify_eq.
      destruct (heap_stores _ _ Hok _ _ _ _ Hs) as [Hcap Hshare]. rewrite length_app in *.
      split; [lia|]. left. split; [done|]. rewrite Hv, dying_own.
      * destruct Hshare as [[? _]|(_ & _ & Hv1 & Hv2)]; [lia|]. case_decide.
        { by replace (length k') with (length k' + length R' - 1)%nat by lia. }
        by replace (length k') with (length k' + length R')%nat by lia.
      * case_decide; lia.
    + unfold g' in Ht. rewrite lookup_insert_ne in Ht by done. apply lookup_delete_Some in Ht as [_ Ht].
      destruct (heap_stores _ _ Hok _ _ _ _ Ht) as [? Hshare]. split; [done|].
      unfold shared_ok. by rewrite !Hv, !dying_views.
Qed.
End dying_view.

(** ** Release

    The cells being freed, with a count of zero, are set apart in [zs]: nothing
    refers to them any more. *)

Lemma load_own g zs x c P E : g !! x = Some c → P c → runs (load (g ∪ zs) x) P E.
Proof. intros Hx HP. unfold load. rewrite (lookup_union_Some_l _ _ _ _ Hx). by apply runs_ret. Qed.

Lemma set_apart (g zs : heap) x c c' :
  g !! x = Some c → g ##ₘ zs →
  <[x:=c']> (g ∪ zs) = delete x g ∪ <[x:=c']> zs ∧ delete x g ##ₘ <[x:=c']> zs ∧ zs !! x = None.
Proof.
  intros Hx Hd. assert (zs !! x = None) as Hz by by eapply map_disjoint_Some_r. split_and!; [| |done].
  - rewrite <- insert_union_r by apply lookup_delete_eq. rewrite <- (delete_id zs x Hz) at 2.
    by rewrite <- delete_union, insert_delete_eq.
  - apply map_disjoint_insert_r. split; [apply lookup_delete_eq|by apply map_disjoint_delete_l].
Qed.

Lemma free_apart (g zs : heap) x c :
  g ##ₘ <[x:=c]> zs → zs !! x = None → delete x (g ∪ <[x:=c]> zs) = g ∪ zs ∧ g ##ₘ zs.
Proof.
  intros [Hx Hd]%map_disjoint_insert_r Hz. split; [|done].
  by rewrite delete_union, (delete_id g), delete_insert_id.
Qed.

Definition freed (g zs : heap) (R : list ref) (n : nat) (h : heap) : Prop :=
  ∃ g', h = g' ∪ zs ∧ g' ##ₘ zs ∧ heap_ok g' R ∧ shrinks g g' ∧ (total g' < n)%nat.

Lemma freed_weaken g1 g zs R n1 n h : shrinks g g1 → (n1 ≤ n)%nat → freed g1 zs R n1 h → freed g zs R n h.
Proof.
  intros Hs Hn (g' & -> & ? & ? & ? & ?). exists g'. split_and!; [done..|by etrans|lia].
Qed.

Lemma release_all_spec f l :
  (∀ x g zs R, heap_ok g (x :: R) → g ##ₘ zs → (total g ≤ f)%nat →
     returns (release f x (g ∪ zs)) (freed g zs R (total g))) →
  ∀ g zs R, heap_ok g (l ++ R) → g ##ₘ zs → (total g ≤ f)%nat →
    returns (release_all (release f) l (g ∪ zs)) (freed g zs R (S (total g))).
Proof.
  intros IH. induction l as [|x l IHl]; intros g zs R Hok Hd Hf; simpl in *.
  - mret. exists g. split_and!; [done..|lia].
  - eapply runs_bind; [by apply (IH x g zs (l ++ R))|]. intros h (g1 & -> & Hd1 & Hok1 & Hs1 & Ht1).
    eapply runs_mono; [apply IHl; [done..|lia]| |done]. intros h'. apply freed_weaken; [done|lia].
Qed.

Lemma total_delete g x c : g !! x = Some c → total g = (refs c + total (delete x g))%nat.
Proof. apply sumf_delete. Qed.
Lemma total_update g x c c' : g !! x = Some c → (total (<[x:=c']> g) + refs c = total g + refs c')%nat.
Proof. apply sumf_update. Qed.

Lemma load_store_own g zs s q m l P E :
  g !! s = Some (mkCell q (Store m l)) → P (q, m, l) → runs (load_store (g ∪ zs) s) P E.
Proof.
  intros Hs HP. apply (runs_bind _ _ (λ c, c = mkCell q (Store m l))); [by eapply load_own|].
  intros ? ->. by apply runs_ret.
Qed.

Lemma update_own (g zs : heap) s c c' :
  g !! s = Some c → g ##ₘ zs → <[s:=c']> (g ∪ zs) = <[s:=c']> g ∪ zs ∧ <[s:=c']> g ##ₘ zs.
Proof.
  intros Hs Hd. split; [apply insert_union_l|]. apply map_disjoint_insert_l. split; [|done].
  by eapply map_disjoint_Some_r.
Qed.

(** The last view of a store takes the store along. *)
Lemma release_store f g zs x k n s m l R :
  (∀ x g zs R, heap_ok g (x :: R) → g ##ₘ zs → (total g ≤ f)%nat →
     returns (release f x (g ∪ zs)) (freed g zs R (total g))) →
  heap_ok g (x :: R) → g !! x = Some (mkCell 1 (View k n s)) → g !! s = Some (mkCell 1 (Store m l)) →
  s ≠ x → delete x g ##ₘ zs → (total g ≤ S f)%nat →
  returns (h ← release_all (release f) l (<[s := mkCell 0 (Store m l)]> (delete x g ∪ zs)); mret (delete s h))
    (freed g zs R (total g)).
Proof.
  intros IH Hok Hx Hs Hne Hd Hf. assert (delete x g !! s = Some (mkCell 1 (Store m l))) as Hs1 by by rewrite lookup_delete_ne.
  destruct (set_apart _ zs s _ (mkCell 0 (Store m l)) Hs1 Hd) as (-> & Hd2 & Hz).
  pose proof (total_delete _ _ _ Hx) as Ht1. pose proof (total_delete _ _ _ Hs1) as Ht2. simpl in Ht1, Ht2.
  eapply runs_bind; [apply release_all_spec; [done|by eapply heap_ok_drop_store|done|lia]|].
  intros h (g' & -> & Hd' & Hok' & Hs' & Ht'). mret.
  destruct (free_apart _ _ _ _ Hd' Hz) as [-> Hd3]. exists g'. split_and!; [done..| |lia].
  etrans; [|done]. etrans; apply shrinks_delete.
Qed.

(** The other view of a store survives; a longer one takes the last item along. *)
Lemma release_shared f g zs x k n s m l R :
  (∀ x g zs R, heap_ok g (x :: R) → g ##ₘ zs → (total g ≤ f)%nat →
     returns (release f x (g ∪ zs)) (freed g zs R (total g))) →
  heap_ok g (x :: R) → g !! x = Some (mkCell 1 (View k n s)) → g !! s = Some (mkCell 2 (Store m l)) →
  s ≠ x → delete x g ##ₘ zs → (total g ≤ S f)%nat →
  returns (if Nat.eqb n (length l) then
             match last l with
             | None => undef
             | Some y => release f y (<[s := mkCell 1 (Store m (removelast l))]> (delete x g ∪ zs))
             end
           else mret (<[s := mkCell 1 (Store m l)]> (delete x g ∪ zs)))
    (freed g zs R (total g)).
Proof.
  intros IH Hok Hx Hs Hne Hd Hf. assert (delete x g !! s = Some (mkCell 2 (Store m l))) as Hs1 by by rewrite lookup_delete_ne.
  pose proof (total_delete _ _ _ Hx) as Ht1. simpl in Ht1.
  assert (∀ l', l' `prefix_of` l → shrinks g (<[s := mkCell 1 (Store m l')]> (delete x g))) as Hshr.
  { intros l' Hl. etrans; [apply (shrinks_delete g x)|]. eapply shrinks_update; [done|].
    right. by eexists _, _, _. }
  destruct (view_length _ _ _ _ _ _ _ _ _ _ Hok Hx Hs) as [Hn _].
  destruct (Nat.eqb_spec n (length l)) as [->|Hn'].
  - destruct (heap_stores _ _ Hok _ _ _ _ Hs) as [_ [[? _]|(_ & Hl & _)]]; [done|].
    destruct l as [|y l' _] using rev_ind; [simpl in Hl; lia|]. rewrite last_snoc, removelast_last.
    destruct (update_own _ zs s _ (mkCell 1 (Store m l')) Hs1 Hd) as [-> Hd2].
    pose proof (total_update _ _ _ (mkCell 1 (Store m l')) Hs1) as Ht2. simpl in Ht2.
    eapply runs_mono; [apply (IH y _ zs R); [|done|lia]| |done].
    + apply (heap_ok_cut g x s k _ 2 m _ R Hx Hs Hok Hne l' [y]); [done|]. by rewrite decide_True.
    + intros h. apply freed_weaken; [apply Hshr; by eexists|lia].
  - mret. destruct (update_own _ zs s _ (mkCell 1 (Store m l)) Hs1 Hd) as [-> Hd2].
    pose proof (total_update _ _ _ (mkCell 1 (Store m l)) Hs1) as Ht2. simpl in Ht2.
    eexists. split_and!; [done|done| |by apply Hshr|lia].
    apply (heap_ok_cut g x s k n 2 m l R Hx Hs Hok Hne l []); [done|]. by rewrite app_nil_r, decide_False.
Qed.

Lemma release_spec f x g zs R :
  heap_ok g (x :: R) → g ##ₘ zs → (total g ≤ f)%nat → returns (release f x (g ∪ zs)) (freed g zs R (total g)).
Proof.
  revert x g zs R. induction f as [|f IH]; intros x g zs R Hok Hd Hf;
    destruct (root_cell _ _ _ Hok) as (q & b & Hx & Hb & Hq).
  { pose proof (total_pos _ _ _ _ (heap_counted _ _ Hok) Hx). lia. }
  cbn [release]. apply (runs_bind _ _ (λ c, c = mkCell q b)); [by eapply load_own|]. intros ? ->. cbn [refs body].
  destruct q as [|[|q]]; [lia| |].
  2: { mret. destruct (update_own _ zs x _ (mkCell (S q) b) Hx Hd) as [-> Hd2].
    pose proof (total_update _ _ _ (mkCell (S q) b) Hx) as Ht. simpl in Ht.
    eexists. split_and!; [done|done|by apply heap_ok_recount| |lia]. eapply shrinks_update; [done|by left]. }
  destruct (set_apart _ zs x _ (mkCell 0 b) Hx Hd) as (-> & Hd2 & Hz).
  pose proof (total_delete _ _ _ Hx) as Ht. simpl in Ht.
  apply (runs_bind _ _ (freed g (<[x:=mkCell 0 b]> zs) R (total g))).
  - destruct (is_view b) eqn:Hv.
    + destruct b as [| |k n s| | | |]; try done. destruct (view_store _ _ _ _ _ _ _ Hok Hx) as (Hne & qs & m & l & Hs).
      apply (runs_bind _ _ (λ c, c = (qs, m, l)));
        [by eapply load_store_own; [rewrite lookup_delete_ne|]|].
      intros ? ->. destruct (view_length _ _ _ _ _ _ _ _ _ _ Hok Hx Hs) as [_ [->| ->]];
        [by eapply release_store|by eapply release_shared].
    + destruct b; try done; (eapply runs_mono;
        [apply release_all_spec; [done|by apply heap_ok_drop|done|lia]| |done]);
        intros h; (apply freed_weaken; [apply shrinks_delete|lia]).
  - intros h (g' & -> & Hd' & Hok' & Hs' & Ht'). mret.
    destruct (free_apart _ _ _ _ Hd' Hz) as [-> Hd3]. by exists g'.
Qed.

(** ** What a reference denotes *)

Definition sequence_of (k : ValueKind) (vs : list Value) : Value :=
  match k with V_MAP => Map_ vs | V_SET => Set_ vs | _ => Array vs end.
Definition named_of (k : ValueKind) (name : list Z) (names : list (list Z)) (vs : list Value) : Value :=
  match k with V_RECORD => Record_ name names vs | _ => Variant name vs end.
Definition resource_of (k : ValueKind) (x : ref) : Value :=
  match k with V_HTTP_WRITER => HttpWriter x | V_HTTP_CONNECTION => HttpConnection x | _ => HttpState x end.

Fixpoint denote (n : nat) (g : heap) (x : ref) : option Value :=
  match n with
  | O => None
  | S n =>
      c ← g !! x;
      match body c with
      | Atom v => Some v
      | Sequence k l => vs ← mapM (denote n g) l; Some (sequence_of k vs)
      | View k i s =>
          st ← g !! s;
          match body st with
          | Store _ l => vs ← mapM (denote n g) (take i l); Some (sequence_of k vs)
          | _ => None
          end
      | Named k name names l => vs ← mapM (denote n g) l; Some (named_of k name names vs)
      | Iterator_ _ => Some (Iter x)
      | Resource k _ => Some (resource_of k x)
      | Store _ _ => None
      end
  end.

Lemma mapM_ext_in {A B} (f f' : A → option B) l : (∀ x, x ∈ l → f x = f' x) → mapM f l = mapM f' l.
Proof.
  intros H. induction l as [|x l IH]; [done|]. simpl. rewrite H by set_solver. rewrite IH; [done|set_solver].
Qed.

Lemma sort_Some g x b : sort g x = Some b → ∃ c, g !! x = Some c ∧ is_store (body c) = b.
Proof. unfold sort. rewrite fmap_Some. intros (c & ? & ->). eauto. Qed.

Lemma node_children g R x c y :
  heap_ok g R → g !! x = Some c → is_view (body c) = false → y ∈ children (body c) → sort g y = Some false.
Proof. intros Hok Hx <- Hy. by apply (typed_edges _ _ (heap_typed _ _ Hok) x c). Qed.

(** Cutting stores beyond their views, or extending them, changes no value. *)
Lemma denote_agree n g g' R x :
  shrinks g g' → heap_ok g' R → sort g' x = Some false → denote n g' x = denote n g x.
Proof.
  intros Hs Hok. revert x. induction n as [|n IH]; intros x Hx; [done|].
  apply sort_Some in Hx as (c' & Hx & Hst). destruct (Hs _ _ Hx) as (c & Hxc & Hb).
  assert (body c' = body c) as E.
  { destruct Hb as [|(m & l' & l & H & _)]; [done|]. by rewrite H in Hst. }
  cbn [denote]. rewrite Hx, Hxc. cbn -[denote]. rewrite <- E. destruct (is_view (body c')) eqn:Hv.
  - destruct c' as [q [| |k i s| | | |]]; try done. cbn -[denote].
    destruct (view_store _ _ _ _ _ _ _ Hok Hx) as (_ & qs & m & l & Hl).
    destruct (view_length _ _ _ _ _ _ _ _ _ _ Hok Hx Hl) as [Hi _].
    destruct (Hs _ _ Hl) as ([q' b'] & Hl' & Hb'). rewrite Hl, Hl'. cbn -[denote].
    simpl in Hb'.
    assert (∃ k', b' = Store m (l ++ k')) as [k' ->].
    { destruct Hb' as [<-|(? & ? & ? & ? & -> & [k' ->])]; simplify_eq/=; [exists []; by rewrite app_nil_r|by exists k']. }
    rewrite take_app_le by lia. erewrite mapM_ext_in; [done|]. intros y Hy. apply IH.
    eapply (node_children _ _ s); [done..|]. simpl. eapply elem_of_take in Hy as (j & Hj & _).
    by eapply list_elem_of_lookup_2.
  - assert (∀ l, l ⊆ children (body c') → mapM (denote n g') l = mapM (denote n g) l) as Hm.
    { intros l Hl. apply mapM_ext_in. intros y Hy. apply IH. eapply node_children; [done..|by apply Hl]. }
    destruct (body c'); try done; by rewrite Hm.
Qed.

(** ** No cycles *)

Definition edge (g : heap) (x y : ref) : Prop := ∃ c, g !! x = Some c ∧ y ∈ children (body c).
Definition acyclic (g : heap) : Prop := ∀ x, Acc (flip (edge g)) x.

Lemma acyclic_sub g g' : (∀ x y, edge g' x y → edge g x y) → acyclic g → acyclic g'.
Proof. intros He Ha x. induction (Ha x) as [x _ IH]. constructor. intros y Hy. apply IH. by apply He. Qed.

Lemma shrinks_edge g g' x y : shrinks g g' → edge g' x y → edge g x y.
Proof.
  intros Hs (c' & Hx & Hy). destruct (Hs _ _ Hx) as (c & Hc & Hb). exists c. split; [done|].
  by eapply body_le_children.
Qed.

(** A new edge from [s] to what does not reach [s] makes no cycle. *)
Lemma acyclic_link g g' s y :
  acyclic g → ¬ rtc (edge g) y s → (∀ a b, edge g' a b → edge g a b ∨ a = s ∧ b = y) → acyclic g'.
Proof.
  intros Ha Hy He.
  assert (∀ x, ¬ rtc (edge g) x s → Acc (flip (edge g')) x) as H1.
  { intros x. induction (Ha x) as [x _ IH]. intros Hx. constructor. intros z [Hz|[-> ->]]%He; [|by destruct Hx].
    apply IH; [done|]. intros Hr. apply Hx. by eapply rtc_l. }
  intros x. induction (Ha x) as [x _ IH]. constructor. intros z [Hz|[-> ->]]%He; [by apply IH|by apply H1].
Qed.

(** A new cell that nothing refers to makes no cycle. *)
Lemma acyclic_insert g x c :
  acyclic g → (∀ a, ¬ edge g a x) → x ∉ children (body c) → acyclic (<[x:=c]> g).
Proof.
  intros Ha Hin Hc.
  assert (∀ z, z ≠ x → Acc (flip (edge (<[x:=c]> g))) z) as H1.
  { intros z. induction (Ha z) as [z _ IH]. intros Hz. constructor. intros y (d & Hd & Hy).
    rewrite lookup_insert_ne in Hd by done. assert (edge g z y) as He by by exists d.
    apply IH; [done|]. intros ->. by eapply Hin. }
  intros z. destruct (decide (z = x)) as [->|Hz]; [|by apply H1]. constructor. intros y (d & Hd & Hy).
  rewrite lookup_insert_eq in Hd. simplify_eq. apply H1. by intros ->.
Qed.

(** ** Nothing is lost *)

Lemma acyclic_tc g x : acyclic g → ¬ tc (edge g) x x.
Proof.
  intros Ha. induction (Ha x) as [x _ IH]. intros Hx. assert (∃ y, edge g x y ∧ tc (edge g) y y) as (y & Hy & Hyy).
  { inversion Hx as [? ? H|? y ? H1 H2]; subst; [by exists x|]. exists y. split; [done|by eapply tc_r]. }
  by eapply IH.
Qed.

Lemma indegree_edge g y : (0 < indegree g y)%nat → ∃ x, edge g x y.
Proof.
  unfold indegree, sumf. intros H. assert (∃ p, p ∈ map_to_list g ∧ y ∈ children (body p.2)) as ([x c] & Hp & Hy).
  { induction (map_to_list g) as [|p l IH]; simpl in H; [lia|].
    destruct (decide (y ∈ children (body p.2))) as [Hy|Hy]; [exists p; set_solver|].
    rewrite occ_elem in Hy. destruct IH as (p' & ? & ?); [unfold compose in *; lia|]. exists p'. set_solver. }
  exists x, c. by apply elem_of_map_to_list in Hp.
Qed.

(** A heap without roots and without cycles is empty: otherwise every cell has a
    referent, and following them backwards never repeats a cell. *)
Lemma no_leak g : heap_ok g [] → acyclic g → g = ∅.
Proof.
  intros Hok Ha. apply dec_stable. intros [x [c Hx]]%map_choose.
  assert (∀ n, ∃ y l, NoDup (y :: l) ∧ length l = n ∧ (∀ z, z ∈ y :: l → z ∈ dom g) ∧
             ∀ z, z ∈ l → tc (edge g) y z) as H.
  { induction n as [|n (y & l & Hnd & Hlen & Hdom & Htc)].
    { exists x, []. split_and!; [apply NoDup_singleton|done| |set_solver].
      intros z ->%list_elem_of_singleton. by apply elem_of_dom. }
    destruct (proj1 (elem_of_dom g y)) as [d Hd]; [apply Hdom; set_solver|].
    destruct (indegree_edge g y) as [w Hw].
    { pose proof (counted_pos _ _ (heap_counted _ _ Hok) y d Hd).
      pose proof (counted_refs _ _ (heap_counted _ _ Hok) y) as Hr. rewrite (refs_of_Some _ _ _ Hd) in Hr. simpl in Hr. lia. }
    assert (∀ z, z ∈ y :: l → tc (edge g) w z) as Hwz.
    { intros z [->|Hz]%elem_of_cons; [by apply tc_once|]. eapply tc_l; eauto. }
    exists w, (y :: l). split_and!; [|simpl; lia| |done].
    - constructor; [|done]. intros Hin. apply (acyclic_tc g w Ha), Hwz, Hin.
    - intros z [->|Hz]%elem_of_cons; [|by apply Hdom]. destruct Hw as (e & He & _). by apply elem_of_dom. }
  destruct (H (size (dom g))) as (y & l & Hnd & Hlen & Hdom & _).
  assert (y :: l ⊆+ elements (dom g)) as Hle%submseteq_length.
  { apply NoDup_submseteq; [done|]. intros z Hz. by apply elem_of_elements, Hdom. }
  change (length (elements (dom g))) with (size (dom g)) in Hle. simpl in Hle. lia.
Qed.

(** ** Retaining and making *)

Lemma load_here g x c P E : g !! x = Some c → P c → runs (load g x) P E.
Proof. intros Hx HP. unfold load. rewrite Hx. by apply runs_ret. Qed.

(** What [value_array_append] and the constructors may do to a heap: nothing goes
    away, no value changes, no cycle appears. *)
Definition extends (g g' : heap) : Prop := shrinks g' g ∧ (acyclic g → acyclic g').

#[local] Instance extends_preorder : PreOrder extends.
Proof.
  split; [by split|]. intros g1 g2 g3 [H1 H1'] [H2 H2']. split; [by etrans|auto].
Qed.

Lemma extends_sort g g' x b : extends g g' → sort g x = Some b → sort g' x = Some b.
Proof. intros [Hs _] Hx. rewrite <- Hx. symmetry. apply sort_Some in Hx as (c & Hc & _). by eapply shrinks_sort. Qed.

Lemma retain_spec g R x :
  heap_ok g R → sort g x = Some false →
  returns (retain x g) (λ g', heap_ok g' (x :: R) ∧ extends g g' ∧
    (∀ a b, edge g' a b → edge g a b) ∧
    ∀ s c, is_store (body c) = true → g !! s = Some c → g' !! s = Some c).
Proof.
  intros Hok (c & Hx & Hst)%sort_Some. apply (runs_bind _ _ (λ d, d = c)); [by eapply load_here|]. intros ? ->. mret.
  set (g' := <[x:=_]> g). destruct Hok as [Hc Ht Hs].
  assert (shrinks g g') as Hsh by by eapply shrinks_update; [|left].
  assert (counted g' (x :: R)) as Hc'.
  { eapply counted_update; [done|simpl; lia|done|]. intros y. simpl. destruct (decide (x = y)); lia. }
  split_and!.
  - split; [done| |].
    + eapply (shrinks_typed g); [done..|]. intros y [->|Hy]%elem_of_cons; [unfold sort; rewrite Hx; simpl; by f_equal|].
      by apply (typed_roots _ _ Ht).
    + intros s q m l Hl. unfold g' in Hl. destruct (decide (s = x)) as [->|Hne];
        [rewrite lookup_insert_eq in Hl; injection Hl as _ E; by rewrite E in Hst|].
      rewrite lookup_insert_ne in Hl by done. destruct (Hs _ _ _ _ Hl) as [? Hv]. split; [done|].
      unfold shared_ok, g'. by rewrite !(views_update _ _ _ _ _ _ Hx).
  - split; [|apply acyclic_sub; intros a b; by apply shrinks_edge].
    intros y d Hy. destruct (decide (y = x)) as [->|Hne]; unfold g'.
    + exists (mkCell (S (refs c)) (body c)). rewrite lookup_insert_eq. simplify_eq. split; [done|by left].
    + exists d. by rewrite lookup_insert_ne.
  - intros a b. by apply shrinks_edge.
  - intros s d Hd Hsd. unfold g'. rewrite lookup_insert_ne; [done|]. intros ->. simplify_eq. congruence.
Qed.

Lemma retain_all_spec l g R :
  heap_ok g R → (∀ y, y ∈ l → sort g y = Some false) →
  returns (retain_all l g) (λ g', heap_ok g' (l ++ R) ∧ extends g g').
Proof.
  revert g R. induction l as [|x l IH]; intros g R Hok Hl; simpl; [by mret|].
  eapply runs_bind; [apply retain_spec; [done|apply Hl; set_solver]|]. intros g1 (Hok1 & He1 & _ & _).
  eapply runs_mono; [apply (IH g1 (x :: R)); [done|]| |done].
  - intros y Hy. eapply extends_sort; [done|]. apply Hl. set_solver.
  - intros g2 (Hok2 & He2). split; [|by etrans]. destruct Hok2 as [Hc Ht Hs].
    assert (∀ y, y ∈ l ++ x :: R ↔ y ∈ x :: l ++ R) as Hin by set_solver.
    split; [split|split|]; [intros y|by eapply counted_pos|by eapply typed_edges|intros y|done].
    + rewrite (counted_refs _ _ Hc). simpl. rewrite !occ_app. simpl. lia.
    + intros Hy. by apply (typed_roots _ _ Ht), Hin.
Qed.

Lemma fresh_None (g : heap) : g !! fresh (dom g) = None.
Proof. apply not_elem_of_dom, is_fresh. Qed.

(** Writing a cell keeps the sorts of the others. *)
Lemma sort_put g x c y b :
  g !! x = None ∨ sort g x = Some (is_store (body c)) → sort g y = Some b → sort (<[x:=c]> g) y = Some b.
Proof.
  unfold sort. intros Hx Hy. destruct (decide (x = y)) as [->|Hne]; [|by rewrite lookup_insert_ne].
  rewrite lookup_insert_eq. destruct Hx as [Hx|Hx]; [by rewrite Hx in Hy|]. by rewrite Hx in Hy.
Qed.
Lemma edges_put g R x c :
  typed g R → g !! x = None ∨ sort g x = Some (is_store (body c)) →
  (∀ y, y ∈ children (body c) → sort g y = Some (is_view (body c))) →
  ∀ z d y, <[x:=c]> g !! z = Some d → y ∈ children (body d) → sort (<[x:=c]> g) y = Some (is_view (body d)).
Proof.
  intros Ht Hx Hc z d y. rewrite lookup_insert_Some. intros [[<- <-]|[_ Hz]] Hy; (apply sort_put; [done|]); [auto|].
  by eapply typed_edges.
Qed.

Lemma fresh_unviewed g R s n : counted g R → g !! s = None → views g s n = 0%nat.
Proof.
  intros Hc Hs. pose proof (counted_refs _ _ Hc s) as Hr. rewrite (refs_of_None _ _ Hs) in Hr.
  assert (views g s n ≤ indegree g s)%nat; [|lia]. apply sumf_le. intros c. apply view_at_occ.
Qed.
Lemma fresh_unreferenced g R x a : counted g R → g !! x = None → ¬ edge g a x.
Proof. intros Hc Hx (c & Ha & Hy). destruct (counted_child _ _ _ _ _ Hc Ha Hy). congruence. Qed.
Lemma fresh_not_root g R x l : counted g (l ++ R) → g !! x = None → x ∉ l.
Proof. intros Hc Hx Hin. destruct (counted_root _ _ x Hc); [set_solver|congruence]. Qed.

Lemma extends_insert g R x c :
  counted g (children (body c) ++ R) → g !! x = None → extends g (<[x:=c]> g).
Proof.
  intros Hc Hx. split.
  - intros y d Hy. exists d. rewrite lookup_insert_ne by congruence. by split; [|left].
  - intros Ha. apply acyclic_insert; [done|intros a; by eapply fresh_unreferenced|by eapply fresh_not_root].
Qed.

(** ** Constructors *)

Lemma heap_ok_insert g R x b :
  heap_ok g (children b ++ R) → g !! x = None → is_store b = false → is_view b = false →
  heap_ok (<[x:=mkCell 1 b]> g) (x :: R).
Proof.
  intros [Hc Ht Hs] Hx Hst Hv. pose proof (counted_insert _ _ _ _ Hx Hc) as Hc'. split; [done| |].
  - split.
    + eapply edges_put; [done|by left|]. intros y Hy. simpl. rewrite Hv. apply (typed_roots _ _ Ht). set_solver.
    + intros y [->|Hy]%elem_of_cons; [unfold sort; rewrite lookup_insert_eq; simpl; by f_equal|].
      apply sort_put; [by left|]. apply (typed_roots _ _ Ht). set_solver.
  - intros s q m l. rewrite lookup_insert_Some. intros [[_ ?]|[_ Hl]]; [by simplify_eq|].
    destruct (Hs _ _ _ _ Hl) as [? Hsh]. split; [done|]. unfold shared_ok in *.
    rewrite !(views_insert _ _ _ _ _ Hx). by destruct b.
Qed.

(** The result [x] of an operation, owned by the caller. *)
Definition made (g : heap) (R : list ref) (r : ref * heap) : Prop :=
  heap_ok r.2 (r.1 :: R) ∧ extends g r.2 ∧ g !! r.1 = None.

Lemma make_spec b g R :
  heap_ok g R → (∀ y, y ∈ children b → sort g y = Some false) → is_store b = false → is_view b = false →
  returns (make b g) (λ r, made g R r ∧ (body <$> r.2 !! r.1) = Some b).
Proof.
  intros Hok Hb Hst Hv. eapply runs_bind; [by apply (retain_all_spec (children b) g R)|]. intros g1 (Hok1 & He1). mret.
  pose proof (fresh_None g1) as Hx. unfold made. simpl. split_and!.
  - by apply heap_ok_insert.
  - etrans; [done|]. eapply extends_insert; [apply Hok1|done].
  - destruct (g !! fresh (dom g1)) as [c|] eqn:Hg; [|done]. destruct (proj1 He1 _ _ Hg) as (? & ? & _). congruence.
  - by rewrite lookup_insert_eq.
Qed.

(** ** Appending *)

Lemma rtc_step_inv g x t : rtc (edge g) x t → x ≠ t → ∃ y, edge g x y ∧ rtc (edge g) y t.
Proof. intros H Hne. inversion H; subst; [done|eauto]. Qed.

(** The answer [true] is only given after everything the item owns was visited. *)
Definition kept_apart (g : heap) (t : ref) (l : list ref) (b : nat) (r : bool * nat) : Prop :=
  (r.2 ≤ b)%nat ∧ (r.1 = true → ∀ y, y ∈ l → ¬ rtc (edge g) y t).

Lemma all_independent_spec g t rel l b :
  (∀ y b', y ∈ l → (b' ≤ b)%nat → returns (rel y b') (kept_apart g t [y] b')) →
  returns (all_independent rel l b) (kept_apart g t l b).
Proof.
  revert b. induction l as [|x l IH]; intros b Hrel; simpl; [mret; by split; [|set_solver]|].
  eapply runs_bind; [apply Hrel; [set_solver|done]|]. intros [[] b1] [Hb1 H1]; simpl in *.
  - eapply runs_mono; [apply IH| |done].
    + intros y b' Hy Hb'. apply Hrel; [set_solver|lia].
    + intros [ok b2] [Hb2 H2]. split; simpl in *; [lia|]. intros Hok y [->|Hy]%elem_of_cons; [|by apply H2].
      apply H1; [done|set_solver].
  - mret. by split.
Qed.

Lemma append_independent_spec f g R t x b :
  heap_ok g R → sort g x = Some false → sort g t = Some true → (b ≤ f)%nat →
  returns (append_independent f g t x b) (kept_apart g t [x] b).
Proof.
  intros Hok Hx Ht. revert x b Hx. induction f as [|f IH]; intros x [|b] Hx Hb; try lia; cbn [append_independent];
    [by mret..|].
  destruct (sort_Some _ _ _ Hx) as (c & Hc & Hst).
  assert (x ≠ t) as Hne by (intros ->; congruence).
  assert (∀ l, (∀ y, y ∈ l → sort g y = Some false) →
    (∀ y, edge g x y → y ∈ l ∨ ∃ s, y = s ∧ s ≠ t ∧ ∀ z, edge g s z → z ∈ l) →
    returns (all_independent (append_independent f g t) l b) (kept_apart g t [x] (S b))) as Hall.
  { intros l Hl He. eapply runs_mono; [apply (all_independent_spec g t)| |done].
    - intros y b' Hy Hb'. apply IH; [auto|lia].
    - intros [ok b1] [Hb1 H1]. split; simpl in *; [lia|]. intros Hok1 y ->%list_elem_of_singleton Hr.
      destruct (rtc_step_inv _ _ _ Hr Hne) as (z & Hz & Hzr).
      destruct (He z Hz) as [Hin|(s & -> & Hst' & Hs)]; [by eapply H1|].
      destruct (rtc_step_inv _ _ _ Hzr Hst') as (w & Hw & Hwr). by eapply H1; [|apply Hs|]. }
  apply (runs_bind _ _ (λ d, d = c)); [by eapply load_here|]. intros ? ->.
  destruct c as [q d]. cbn [body] in *. destruct d as [v|k l|k n s|k nm nms l|y|k l|m l]; try done.
  - mret. split; simpl; [lia|]. intros _ y ->%list_elem_of_singleton Hr.
    destruct (rtc_step_inv _ _ _ Hr Hne) as (z & (d & Hd & Hz) & _). simplify_eq. set_solver.
  - apply Hall; [intros y Hy; by eapply (node_children _ _ x)|]. intros y (d & Hd & Hy). simplify_eq. by left.
  - case_decide; [by mret; split; simpl; [lia|]|].
    destruct (view_store _ _ _ _ _ _ _ Hok Hc) as (_ & qs & m & l & Hs).
    apply (runs_bind _ _ (λ d, d = (qs, m, l))).
    { unfold load_store. apply (runs_bind _ _ (λ d, d = mkCell qs (Store m l))); [by eapply load_here|]. intros ? ->. by mret. }
    intros ? ->. apply Hall; [intros y Hy; by eapply (node_children _ _ s)|].
    intros y (d & Hd & Hy). simplify_eq. apply list_elem_of_singleton in Hy as ->. right. exists s. split_and!; [done..|].
    intros z (d & Hd' & Hz). by simplify_eq.
  - apply Hall; [intros y Hy; by eapply (node_children _ _ x)|]. intros y (d & Hd & Hy). simplify_eq. by left.
  - eapply runs_mono; [apply IH; [|lia]| |done].
    + eapply (node_children _ _ x); [done..|set_solver].
    + intros [ok b1] [Hb1 H1]. split; simpl in *; [lia|]. intros Hok1 z ->%list_elem_of_singleton Hr.
      destruct (rtc_step_inv _ _ _ Hr Hne) as (w & (d & Hd & Hw) & Hwr). simplify_eq.
      apply list_elem_of_singleton in Hw as ->. apply (H1 eq_refl y); [set_solver|done].
  - mret. split; simpl; [lia|done].
Qed.

(** A new view [x] of all the items of the store [s]. *)
Lemma heap_ok_view g R s x k q m l :
  counted g (s :: R) →
  (∀ z d y, g !! z = Some d → y ∈ children (body d) → sort g y = Some (is_view (body d))) →
  (∀ y, y ∈ R → sort g y = Some false) →
  g !! s = Some (mkCell q (Store m l)) → (length l ≤ m)%nat → g !! x = None →
  views g s (length l) = 0%nat → (q = 1 ∨ q = 2 ∧ 0 < length l ∧ views g s (length l - 1) = 1)%nat →
  (∀ t q m l, t ≠ s → g !! t = Some (mkCell q (Store m l)) → (length l ≤ m)%nat ∧ shared_ok g t q (length l)) →
  heap_ok (<[x:=mkCell 1 (View k (length l) s)]> g) (x :: R).
Proof.
  intros Hc He HR Hs Hm Hx Hv Hq Hst. split.
  - by apply (counted_insert _ _ _ (View k (length l) s)).
  - split.
    + eapply (edges_put _ []); [split; [done|set_solver]|by left|]. intros y ->%list_elem_of_singleton.
      unfold sort. by rewrite Hs.
    + intros y [->|Hy]%elem_of_cons; [unfold sort; by rewrite lookup_insert_eq|]. apply sort_put; [by left|auto].
  - intros t q' m' l'. rewrite lookup_insert_Some. intros [[_ ?]|[_ Ht]]; [done|].
    unfold shared_ok. rewrite !(views_insert _ _ _ _ _ Hx). simpl. destruct (decide (t = s)) as [->|Hts].
    + simplify_eq. split; [done|]. rewrite (decide_True (P := s = s ∧ length l = length l)) by done.
      destruct Hq as [->|(-> & Hl & Hv')]; [left; split; [done|lia]|right].
      rewrite decide_False by lia. split_and!; [done|done|lia|lia].
    + rewrite !decide_False by naive_solver. by apply Hst.
Qed.

Lemma heap_ok_new_store g R s x k m l :
  heap_ok g (l ++ R) → g !! s = None → <[s:=mkCell 1 (Store m l)]> g !! x = None → (length l ≤ m)%nat →
  heap_ok (<[x:=mkCell 1 (View k (length l) s)]> (<[s:=mkCell 1 (Store m l)]> g)) (x :: R).
Proof.
  intros [Hc Ht Hst] Hs Hx Hl.
  assert (∀ t n, views (<[s:=mkCell 1 (Store m l)]> g) t n = views g t n) as Hv.
  { intros t n. by rewrite (views_insert _ _ _ _ _ Hs). }
  eapply heap_ok_view; [|..|done|done| |by left|].
  - by apply (counted_insert _ _ _ (Store m l)).
  - eapply edges_put; [done|by left|]. intros y Hy. apply (typed_roots _ _ Ht). set_solver.
  - intros y Hy. apply sort_put; [by left|]. apply (typed_roots _ _ Ht). set_solver.
  - apply lookup_insert_eq.
  - rewrite Hv. by eapply fresh_unviewed.
  - intros t q m' l' Hts. rewrite lookup_insert_ne by done. intros H. destruct (Hst _ _ _ _ H) as [? Hsh].
    split; [done|]. unfold shared_ok. by rewrite !Hv.
Qed.

Lemma heap_ok_share g R s x k m l y :
  heap_ok g (y :: R) → g !! s = Some (mkCell 1 (Store m l)) → g !! x = None → (length l < m)%nat →
  heap_ok (<[x:=mkCell 1 (View k (length (l ++ [y])) s)]> (<[s:=mkCell 2 (Store m (l ++ [y]))]> g)) (x :: R).
Proof.
  intros [Hc Ht Hst] Hs Hx Hl. destruct (Hst _ _ _ _ Hs) as [_ [[_ Hv1]|[? _]]]; [|done].
  assert (sort g s = Some true) as Hss by (unfold sort; by rewrite Hs).
  assert (∀ t n, views (<[s:=mkCell 2 (Store m (l ++ [y]))]> g) t n = views g t n) as Hv.
  { intros t n. by apply (views_update _ _ _ _ _ _ Hs). }
  assert (indegree g s = 1)%nat as Hin.
  { pose proof (counted_refs _ _ Hc s) as Hr. rewrite (refs_of_Some _ _ _ Hs) in Hr.
    assert (¬ 0 < occ s (y :: R))%nat; [|simpl in *; lia]. rewrite <- occ_elem. intros H.
    apply (typed_roots _ _ Ht) in H. congruence. }
  eapply heap_ok_view; [|..|apply lookup_insert_eq| | | | |]; rewrite ?length_app; simpl.
  - eapply counted_update; [done|simpl; lia|done|]. intros z. simpl. rewrite occ_app. simpl.
    destruct (decide (s = z)); lia.
  - eapply edges_put; [done|by right|]. intros z [Hz|Hz]%elem_of_app; simpl.
    + by apply (typed_edges _ _ Ht s _ z Hs).
    + apply (typed_roots _ _ Ht). set_solver.
  - intros z Hz. apply sort_put; [by right|]. apply (typed_roots _ _ Ht). set_solver.
  - lia.
  - by rewrite lookup_insert_ne by congruence.
  - rewrite Hv. pose proof (views_two g s (length l) (length l + 1)). lia.
  - right. split_and!; [done|lia|]. rewrite Hv. by replace (length l + 1 - 1)%nat with (length l) by lia.
  - intros t q m' l' Hts. rewrite lookup_insert_ne by done. intros H. destruct (Hst _ _ _ _ H) as [? Hsh].
    split; [done|]. unfold shared_ok. by rewrite !Hv.
Qed.

Definition is_array (b : Body) : bool :=
  match b with Sequence V_ARRAY _ | View V_ARRAY _ _ => true | _ => false end.

Definition array_length (b : Body) : nat :=
  match b with Sequence _ l => length l | View _ n _ => n | _ => 0 end.

(** What the code reads of an array: its items, and its store when it has one,
    which it fills when no other version shares it. *)
Definition parts_ok (g : heap) (a : ref) (b : Body) (r : list ref * option (ref * nat * nat)) : Prop :=
  length r.1 = array_length b ∧ (∀ y, y ∈ r.1 → sort g y = Some false) ∧
  (∀ n, denote (S n) g a = vs ← mapM (denote n g) r.1; Some (Array vs)) ∧
  match r.2 with
  | None => True
  | Some (s, q, m) => ∃ l, g !! s = Some (mkCell q (Store m l)) ∧ (q = 1%nat → r.1 = l)
  end.

Lemma array_parts_spec g R a c :
  heap_ok g R → g !! a = Some c → is_array (body c) = true → returns (array_parts g (body c)) (parts_ok g a (body c)).
Proof.
  intros Hok Ha Hc. destruct c as [q b]. simpl in *. destruct b as [|k l|k n s| | | |]; try done; destruct k; try done.
  - mret. split_and!; [done| |intros n; cbn [denote]; by rewrite Ha|done]. intros y Hy. by eapply (node_children _ _ a).
  - destruct (view_store _ _ _ _ _ _ _ Hok Ha) as (_ & qs & m & l & Hs).
    destruct (view_length _ _ _ _ _ _ _ _ _ _ Hok Ha Hs) as [Hn _]. simpl.
    apply (runs_bind _ _ (λ d, d = (qs, m, l))).
    { unfold load_store. apply (runs_bind _ _ (λ d, d = mkCell qs (Store m l))); [by eapply load_here|]. intros ? ->. by mret. }
    intros ? ->. rewrite (proj2 (Nat.ltb_ge _ _)) by lia. mret. split_and!; simpl.
    + rewrite length_take. lia.
    + intros y Hy. eapply (node_children _ _ s); [done..|]. simpl. eapply elem_of_take in Hy as (j & Hj & _).
      by eapply list_elem_of_lookup_2.
    + intros j. rewrite Ha. simpl. by rewrite Hs.
    + exists l. split; [done|]. intros ->. destruct Hn as [->|[? _]]; [by rewrite firstn_all|done].
Qed.

Lemma may_share_spec g R l st y :
  heap_ok g R → sort g y = Some false →
  match st with Some (s, q, m) => ∃ l', g !! s = Some (mkCell q (Store m l')) ∧ (q = 1%nat → l = l') | None => True end →
  returns (may_share g (length l) st y) (λ r,
    match r with
    | Some (s, m) => g !! s = Some (mkCell 1 (Store m l)) ∧ (length l < m)%nat ∧ ¬ rtc (edge g) y s
    | None => True
    end).
Proof.
  intros Hok Hy Hst. unfold may_share. destruct st as [[[s [|[|q]]] m]|]; try (by mret).
  destruct Hst as (l' & Hs & ->); [|done]. destruct (Nat.ltb_spec (length l') m); [|by mret].
  eapply runs_bind; [eapply (append_independent_spec _ g R s y); [done..| |done]|].
  { unfold sort. by rewrite Hs. }
  intros [[] b] [_ Hb]; mret; [|done]. split_and!; [done..|]. apply Hb; [done|set_solver].
Qed.

Lemma grown_capacity_room n : Z.of_nat n < append_limit → (S n ≤ grown_capacity n)%nat.
Proof.
  intros Hn. unfold grown_capacity. destruct (Nat.ltb_spec n 8); [lia|].
  destruct (Z.leb_spec (Z.of_nat n) (append_limit / 2)); lia.
Qed.

(** The persistent view: the appended item after the items of the array. *)
Definition appends (g : heap) (a y : ref) (r : ref * heap) : Prop :=
  ∀ n vs v, denote (S n) g a = Some (Array vs) → denote n g y = Some v →
    denote (S n) r.2 r.1 = Some (Array (vs ++ [v])).

Lemma extends_denote g g' R x n v :
  heap_ok g R → extends g g' → sort g x = Some false → denote n g x = Some v → denote n g' x = Some v.
Proof. intros Hok [Hs _] Hx <-. symmetry. by eapply denote_agree. Qed.

(** The items of the new version denote what they denoted. *)
Lemma appends_view g R g' a b y x s q m items st :
  heap_ok g R → sort g y = Some false → extends g g' → parts_ok g a b (items, st) →
  g' !! x = Some (mkCell 1 (View V_ARRAY (length (items ++ [y])) s)) →
  g' !! s = Some (mkCell q (Store m (items ++ [y]))) → appends g a y (x, g').
Proof.
  intros Hok Hy He (_ & Hit & Hd & _) Hx Hs n vs v. rewrite Hd. simpl. rewrite bind_Some.
  intros (vs' & Hvs & [= ->]) Hv. rewrite Hx. simpl. rewrite Hs. simpl. rewrite firstn_all.
  rewrite (proj2 (mapM_Some _ _ (vs ++ [v]))); [done|].
  rewrite (mapM_ext_in _ (denote n g')) in Hvs by (intros z Hz; eapply denote_agree; [apply He|done|auto]).
  apply mapM_Some in Hvs. apply Forall2_app; [done|]. constructor; [|done]. by eapply extends_denote.
Qed.

(** A cell with a single reference that is a root is not referenced by cells. *)
Lemma root_unreferenced g R x b u : counted g (x :: R) → g !! x = Some (mkCell 1 b) → ¬ edge g u x.
Proof.
  intros Hc Hx (d & Hd & Hv%occ_elem). pose proof (counted_refs _ _ Hc x) as Hr.
  rewrite (refs_of_Some _ _ _ Hx) in Hr. unfold indegree in Hr. rewrite (sumf_delete _ _ _ _ Hd) in Hr.
  simpl in Hr. rewrite decide_True in Hr by done. lia.
Qed.

(** A store ready for a new view of all its items. *)
Definition store_ready (g : heap) (R l : list ref) (r : ref * heap) : Prop :=
  (∃ q m, r.2 !! r.1 = Some (mkCell q (Store m l))) ∧ shrinks r.2 g ∧
  ∀ x, r.2 !! x = None →
    let g' := <[x:=mkCell 1 (View V_ARRAY (length l) r.1)]> r.2 in heap_ok g' (x :: R) ∧ extends g g'.

Lemma share_ready g R s m l y :
  heap_ok g R → sort g y = Some false → g !! s = Some (mkCell 1 (Store m l)) → (length l < m)%nat →
  ¬ rtc (edge g) y s →
  returns (h ← retain y g; mret (s, <[s := mkCell 2 (Store m (l ++ [y]))]> h)) (store_ready g R (l ++ [y])).
Proof.
  intros Hok Hy Hs Hm Hr. eapply runs_bind; [by apply retain_spec|]. intros g1 (Hok1 & [Hsh1 _] & He1 & Hst1). mret.
  apply Hst1 in Hs as Hs1; [|done]. set (h := <[s:=_]> g1).
  assert (shrinks h g) as Hsh.
  { intros z d Hz. destruct (Hsh1 z d Hz) as (d1 & Hd1 & Hb). destruct (decide (z = s)) as [->|Hne].
    - exists (mkCell 2 (Store m (l ++ [y]))). split; [apply lookup_insert_eq|]. simplify_eq. right.
      eexists _, _, _. split_and!; [done..|by eexists].
    - exists d1. unfold h. by rewrite lookup_insert_ne. }
  split_and!; [eexists _, _; apply lookup_insert_eq|done|]. cbn [fst snd]. intros x Hx.
  assert (heap_ok (<[x:=mkCell 1 (View V_ARRAY (length (l ++ [y])) s)]> h) (x :: R)) as Hok'.
  { apply heap_ok_share; [done..| |done]. unfold h in Hx. by apply lookup_insert_None in Hx as [? _]. }
  split; [done|]. split.
  - etrans; [|exact Hsh]. intros z d Hz. exists d. split; [|by left]. rewrite lookup_insert_ne; [done|].
    intros <-. congruence.
  - intros Ha. apply acyclic_insert.
    + eapply (acyclic_link g _ s y); [done..|]. intros u v (d & Hd & Hv).
      apply lookup_insert_Some in Hd as [[<- <-]|[_ Hd]]; simpl in Hv; [|left; apply He1; by exists d].
      apply elem_of_app in Hv as [Hv|Hv%list_elem_of_singleton]; [left; by exists (mkCell 1 (Store m l))|by right].
    + intros u (d & Hd & Hv). eapply (root_unreferenced _ _ x _ u (heap_counted _ _ Hok')); [apply lookup_insert_eq|].
      exists d. split; [|done]. rewrite lookup_insert_ne; [done|]. intros <-. congruence.
    + intros ->%list_elem_of_singleton. unfold h in Hx. by rewrite lookup_insert_eq in Hx.
Qed.

Lemma copy_ready g R m l :
  heap_ok g R → (∀ y, y ∈ l → sort g y = Some false) → (length l ≤ m)%nat →
  returns (make (Store m l) g) (store_ready g R l).
Proof.
  intros Hok Hl Hm. eapply runs_bind; [by apply (retain_all_spec l g R)|]. intros g1 (Hok1 & He1). mret.
  pose proof (fresh_None g1) as Hs. set (s := fresh (dom g1)) in *.
  assert (extends g (<[s:=mkCell 1 (Store m l)]> g1)) as He.
  { etrans; [done|]. by apply (extends_insert _ R); [apply Hok1|]. }
  split_and!; [eexists _, _; apply lookup_insert_eq|apply He|]. cbn [fst snd]. intros x Hx.
  split; [by apply heap_ok_new_store|]. etrans; [done|]. apply (extends_insert _ R); [|done].
  by apply (counted_insert _ _ _ (Store m l)); [|apply Hok1].
Qed.

Lemma append_spec g R a c y :
  heap_ok g R → g !! a = Some c → is_array (body c) = true → Z.of_nat (array_length (body c)) < append_limit →
  sort g y = Some false → returns (value_array_append a y g) (λ r, made g R r ∧ appends g a y r).
Proof.
  intros Hok Ha Hc Hlim Hy. unfold value_array_append. apply (runs_bind _ _ (λ d, d = c)); [by eapply load_here|].
  intros ? ->. eapply runs_bind; [by eapply array_parts_spec|]. intros [items st] Hp.
  pose proof Hp as (Hlen & Hit & _ & Hst). simpl in Hlen, Hit, Hst.
  rewrite (proj2 (Z.leb_gt _ _)) by (by rewrite Hlen).
  eapply runs_bind; [apply runs_alloc|]. intros _ _. eapply runs_bind; [by apply (may_share_spec g R)|].
  intros share Hshare. apply (runs_bind _ _ (store_ready g R (items ++ [y]))).
  - destruct share as [[s m]|].
    + destruct Hshare as (Hs & Hm & Hr). by apply share_ready.
    + do 2 (eapply runs_bind; [apply runs_alloc|]; intros _ _). apply copy_ready; [done| |].
      * intros z [Hz|Hz%list_elem_of_singleton]%elem_of_app; [auto|by subst].
      * rewrite length_app. simpl. pose proof (grown_capacity_room (length items)). lia.
  - intros [s h] ((q & m & Hs) & Hsh & Hv). mret. cbn [fst snd] in *. pose proof (fresh_None h) as Hx.
    destruct (Hv _ Hx) as [Hok' He']. set (x := fresh (dom h)) in *. clearbody x.
    replace (S (length items)) with (length (items ++ [y])) by (rewrite length_app; simpl; lia).
    split; [split_and!; [done..|]|].
    + destruct (g !! x) as [d|] eqn:Hd; [|done]. destruct (Hsh _ _ Hd) as (? & ? & _). simpl in *. congruence.
    + eapply (appends_view g R _ a (body c) y x s); [done..|apply lookup_insert_eq|].
      rewrite lookup_insert_ne; [done|]. intros ->. congruence.
Qed.

(** ** Every live value has contents *)

Definition live (g : heap) (x : ref) : Prop := sort g x = Some false.

Lemma mapM_mono {A B} (f f' : A → option B) l vs :
  (∀ x v, f x = Some v → f' x = Some v) → mapM f l = Some vs → mapM f' l = Some vs.
Proof. intros Hf. rewrite !mapM_Some. intros H. eapply Forall2_impl; [done|]. auto. Qed.

Lemma denote_mono n m g x v : (n ≤ m)%nat → denote n g x = Some v → denote m g x = Some v.
Proof.
  revert m x v. induction n as [|n IH]; intros m x v Hm; [done|]. destruct m as [|m]; [lia|]. cbn [denote].
  assert (∀ l vs, mapM (denote n g) l = Some vs → mapM (denote m g) l = Some vs) as Hl.
  { intros l vs. apply mapM_mono. intros. apply (IH m); [lia|done]. }
  destruct (g !! x) as [[q b]|]; [|done]. simpl. destruct b as [|k l|k i s|k nm nms l| | |]; try done.
  - rewrite !bind_Some. intros (vs & H & [= <-]). exists vs. split; [by apply Hl|done].
  - destruct (g !! s) as [[qs []]|]; try done. simpl. rewrite !bind_Some. intros (vs & H & [= <-]).
    exists vs. split; [by apply Hl|done].
  - rewrite !bind_Some. intros (vs & H & [= <-]). exists vs. split; [by apply Hl|done].
Qed.

Lemma denote_all g l :
  (∀ y, y ∈ l → ∃ n v, denote n g y = Some v) → ∃ n vs, mapM (denote n g) l = Some vs.
Proof.
  induction l as [|y l IH]; intros H; [by exists 0%nat, []|].
  destruct (H y) as (n1 & v & Hv); [set_solver|]. destruct IH as (n2 & vs & Hvs); [intros; apply H; set_solver|].
  exists (n1 + n2)%nat, (v :: vs). simpl. rewrite (denote_mono n1 (n1 + n2) g y v) by (done || lia). simpl.
  rewrite (mapM_mono (denote n2 g) (denote (n1 + n2) g) l vs); [done| |done].
  intros x w. apply denote_mono. lia.
Qed.

Lemma live_denotes g R x : heap_ok g R → acyclic g → live g x → ∃ n v, denote n g x = Some v.
Proof.
  intros Hok Ha.
  assert (∀ z, match sort g z with
               | Some false => ∃ n v, denote n g z = Some v
               | Some true => ∀ c y, g !! z = Some c → y ∈ children (body c) → ∃ n v, denote n g y = Some v
               | None => True
               end) as H; [|intros Hx; specialize (H x); by rewrite Hx in H].
  intros z. induction (Ha z) as [z _ IH].
  assert (∀ c y, g !! z = Some c → is_view (body c) = false → y ∈ children (body c) → ∃ n v, denote n g y = Some v) as Hch.
  { intros c y Hz Hv Hy. specialize (IH y). rewrite (node_children _ _ z c y) in IH by done. apply IH. by exists c. }
  destruct (sort g z) as [[]|] eqn:Hs; [| |done].
  - intros c y Hz. apply Hch; [done|]. apply sort_Some in Hs as (d & Hd & Hb). simplify_eq. by destruct (body d).
  - apply sort_Some in Hs as ([q b] & Hz & Hb). cbn [body] in *.
    assert (∀ l, (∀ y, y ∈ l → ∃ n v, denote n g y = Some v) →
      ∃ n vs, mapM (denote n g) l = Some vs) as Hl by apply denote_all.
    destruct b as [v|k l|k i s|k nm nms l|y|k l|m l]; try done.
    + exists 1%nat, v. simpl. by rewrite Hz.
    + destruct (Hl l) as (n & vs & Hvs); [intros y; by apply (Hch _ _ Hz)|]. exists (S n). simpl. rewrite Hz. simpl.
      rewrite Hvs. eauto.
    + destruct (view_store _ _ _ _ _ _ _ Hok Hz) as (_ & qs & m & l & Hst). specialize (IH s).
      unfold sort in IH. rewrite Hst in IH. simpl in IH.
      destruct (Hl (take i l)) as (n & vs & Hvs).
      { intros y (j & Hj & _)%elem_of_take. eapply IH; [|done|].
        { exists (mkCell q (View k i s)). split; [done|apply list_elem_of_here]. }
        simpl. by eapply list_elem_of_lookup_2. }
      exists (S n). simpl. rewrite Hz. simpl. rewrite Hst. simpl. rewrite Hvs. eauto.
    + destruct (Hl l) as (n & vs & Hvs); [intros y; by apply (Hch _ _ Hz)|]. exists (S n). simpl. rewrite Hz. simpl.
      rewrite Hvs. eauto.
    + exists 1%nat. simpl. rewrite Hz. eauto.
    + exists 1%nat. simpl. rewrite Hz. eauto.
Qed.

(** ** The interface *)

Definition heap_state : Type := heap * list ref.

(** One call that returns.  Arguments may be any live value; the caller owns one
    more reference, or gives one back. *)
Inductive heap_step : heap_state → heap_state → Prop :=
| step_new v g R al x g' al' : heap_new v g al = (Ret (x, g'), al') → heap_step (g, R) (g', x :: R)
| step_sequence k l g R al x g' al' :
    Forall (live g) l → heap_sequence k l g al = (Ret (x, g'), al') → heap_step (g, R) (g', x :: R)
| step_named k name names l g R al x g' al' :
    Forall (live g) l → heap_named k name names l g al = (Ret (x, g'), al') → heap_step (g, R) (g', x :: R)
| step_iterator y g R al x g' al' :
    live g y → heap_iterator y g al = (Ret (x, g'), al') → heap_step (g, R) (g', x :: R)
| step_append a c y g R al x g' al' :
    g !! a = Some c → is_array (body c) = true → live g y →
    Z.of_nat (array_length (body c)) < append_limit →
    value_array_append a y g al = (Ret (x, g'), al') → heap_step (g, R) (g', x :: R)
| step_retain y g R al g' al' : live g y → retain y g al = (Ret g', al') → heap_step (g, R) (g', y :: R)
| step_release x g R1 R2 al g' al' :
    release (total g) x g al = (Ret g', al') → heap_step (g, R1 ++ x :: R2) (g', R1 ++ R2).

Lemma heap_ok_perm g R R' : R ≡ₚ R' → heap_ok g R → heap_ok g R'.
Proof.
  intros HR [[Hr Hp] [He Ht] Hs]. split; [split|split|done]; [|done|done|].
  - intros y. rewrite Hr. f_equal. clear Hr Ht. induction HR; simpl; lia.
  - intros y Hy. apply Ht. by rewrite HR.
Qed.

Lemma release_safe g R1 R2 x :
  heap_ok g (R1 ++ x :: R2) →
  returns (release (total g) x g) (λ g', heap_ok g' (R1 ++ R2) ∧ shrinks g g').
Proof.
  intros Hok. apply (heap_ok_perm _ _ (x :: R1 ++ R2)) in Hok; [|by rewrite Permutation_middle].
  rewrite <- (map_union_empty g) at 2.
  eapply runs_mono; [apply release_spec; [done|apply map_disjoint_empty_r|done]| |done].
  intros h (g' & -> & _ & Hok' & Hs & _). by rewrite map_union_empty.
Qed.

Lemma made_kept g R r : acyclic g → made g R r → heap_ok r.2 (r.1 :: R) ∧ acyclic r.2.
Proof. intros Ha (Hok & [_ He] & _). auto. Qed.

Lemma live_all g l y : Forall (live g) l → y ∈ l → sort g y = Some false.
Proof. rewrite Forall_forall. intros H Hy. by apply H. Qed.

(** *** The constructors *)

Lemma make_made b g R :
  heap_ok g R → Forall (live g) (children b) → is_store b = false → is_view b = false →
  returns (make b g) (made g R).
Proof.
  intros Hok Hb Hs Hv. eapply runs_mono; [apply (make_spec b g R); [done|intros y; by apply live_all|done..]| |done].
  by intros r [? _].
Qed.

Lemma heap_new_spec v g R : heap_ok g R → returns (heap_new v g) (made g R).
Proof. intros Hok. eapply runs_bind; [apply runs_alloc|]. intros _ _. by apply make_made. Qed.
Lemma heap_sequence_spec k l g R :
  heap_ok g R → Forall (live g) l → returns (heap_sequence k l g) (made g R).
Proof.
  intros Hok Hl. eapply runs_bind; [apply runs_alloc|]. intros _ _. eapply runs_bind; [apply runs_calloc|].
  intros _ _. by apply make_made.
Qed.
Lemma heap_iterator_spec y g R : heap_ok g R → live g y → returns (heap_iterator y g) (made g R).
Proof.
  intros Hok Hy. eapply runs_bind; [apply runs_alloc|]. intros _ _. apply make_made; [done| |done..].
  by apply Forall_singleton.
Qed.

Lemma copy_text_any t : returns (copy_text t) (λ _, True).
Proof. eapply runs_bind; [apply runs_alloc|]. intros. by mret. Qed.
Lemma copy_texts_any ts : returns (copy_texts ts) (λ _, True).
Proof.
  induction ts as [|t ts IH]; simpl; [by mret|]. eapply runs_bind; [apply copy_text_any|]. intros.
  eapply runs_bind; [done|]. intros. by mret.
Qed.

Lemma heap_named_spec k name names l g R :
  heap_ok g R → Forall (live g) l → returns (heap_named k name names l g) (made g R).
Proof.
  intros Hok Hl. eapply runs_bind; [apply runs_alloc|]. intros _ _. eapply runs_bind; [apply copy_text_any|].
  intros nm _. apply (runs_bind _ _ (λ _, True)); [|intros; by apply make_made].
  destruct k; try (by eapply runs_bind; [apply runs_calloc|]; intros; mret).
  do 2 (eapply runs_bind; [apply runs_calloc|]; intros _ _). apply copy_texts_any.
Qed.

Lemma returns_at {A} (m : M A) P al a al' : returns m P → m al = (Ret a, al') → P a.
Proof. intros H E. pose proof (returns_cases _ _ al H) as Hc. by rewrite E in Hc. Qed.

Lemma heap_step_kept p p' :
  heap_step p p' → heap_ok p.1 p.2 → acyclic p.1 → heap_ok p'.1 p'.2 ∧ acyclic p'.1.
Proof.
  intros Hst Hok Ha. destruct Hst as [v g R al x g' al' H|k l g R al x g' al' Hl H|k nm nms l g R al x g' al' Hl H
    |y g R al x g' al' Hy H|a c y g R al x g' al' Hac Hc Hy Hlim H|y g R al g' al' Hy H|x g R1 R2 al g' al' H];
    simpl in *.
  - apply (made_kept g R (x, g') Ha). eapply returns_at; [by apply heap_new_spec|done].
  - apply (made_kept g R (x, g') Ha). eapply returns_at; [by apply heap_sequence_spec|done].
  - apply (made_kept g R (x, g') Ha). eapply returns_at; [by apply heap_named_spec|done].
  - apply (made_kept g R (x, g') Ha). eapply returns_at; [by apply heap_iterator_spec|done].
  - apply (made_kept g R (x, g') Ha). by eapply (returns_at _ _ _ _ _ (append_spec g R a c y Hok Hac Hc Hlim Hy)) in H as [? _].
  - apply (returns_at _ _ _ _ _ (retain_spec g R y Hok Hy)) in H as (? & [_ ?] & _). auto.
  - apply (returns_at _ _ _ _ _ (release_safe g R1 R2 x Hok)) in H as [? Hs]. split; [done|].
    apply (acyclic_sub g); [|done]. intros u v. by apply shrinks_edge.
Qed.

Lemma heap_ok_empty : heap_ok ∅ [] ∧ acyclic ∅.
Proof.
  split; [split; [split|split|]|].
  - intros x. done.
  - intros x c. by rewrite lookup_empty.
  - intros x c y. by rewrite lookup_empty.
  - set_solver.
  - intros s q m l. by rewrite lookup_empty.
  - intros x. constructor. intros y (c & Hc & _). by rewrite lookup_empty in Hc.
Qed.

Lemma heap_steps_kept g R : rtc heap_step (∅, []) (g, R) → heap_ok g R ∧ acyclic g.
Proof.
  intros H. assert (∀ p p', rtc heap_step p p' → heap_ok p.1 p.2 ∧ acyclic p.1 → heap_ok p'.1 p'.2 ∧ acyclic p'.1) as Hk.
  { intros p p' Hr. induction Hr as [|p q r Hs _ IH]; [done|]. intros [? ?]. by apply IH, (heap_step_kept p). }
  apply (Hk _ _ H). apply heap_ok_empty.
Qed.

(** C4: Memory safety of values.  Whatever sequence of constructions, retains,
    appends and releases built a heap, every count is the number of references,
    stores are shared by at most two versions, and ownership has no cycle.  A
    caller that gives back a reference it owns always gets an answer, within
    recursion bounded by the references in the heap and without touching freed
    memory; what survives is well formed, everything still owned survives, and
    every surviving value has the contents it had.  Every live value has
    contents, and once the last reference is given back the heap is empty. *)
Theorem heap_safety g R :
  rtc heap_step (∅, []) (g, R) →
  heap_ok g R ∧ acyclic g ∧ (R = [] → g = ∅) ∧
  (∀ x, live g x → ∃ n v, denote n g x = Some v) ∧
  ∀ x R1 R2, R = R1 ++ x :: R2 →
    returns (release (total g) x g) (λ g', heap_ok g' (R1 ++ R2) ∧ acyclic g' ∧
      (∀ y, y ∈ R1 ++ R2 → live g' y) ∧ ∀ y n, live g' y → denote n g' y = denote n g y).
Proof.
  intros H. destruct (heap_steps_kept _ _ H) as [Hok Ha]. split_and!; [done..| | |].
  - intros ->. by apply no_leak.
  - intros x. by eapply live_denotes.
  - intros x R1 R2 ->. eapply runs_mono; [by apply release_safe| |done]. intros g' [Hok' Hs]. split_and!; [done| | |].
    + apply (acyclic_sub g); [|done]. intros u v. by apply shrinks_edge.
    + apply (typed_roots _ _ (heap_typed _ _ Hok')).
    + intros y n Hy. by eapply denote_agree.
Qed.

(** C15: Arrays are persistent.  On any well-formed heap, appending a live value
    to a live array of admissible length returns a new array that denotes the
    items of the old one followed by the value, whether the store was extended
    in place or copied.  No value of the heap changes, the result is a fresh
    object owned by the caller, and no ownership cycle appears, even when the
    value appended owns the array. *)
Theorem append_persistent g R a c y :
  heap_ok g R → g !! a = Some c → is_array (body c) = true → live g y →
  Z.of_nat (array_length (body c)) < append_limit →
  returns (value_array_append a y g) (λ r,
    heap_ok r.2 (r.1 :: R) ∧ g !! r.1 = None ∧ (acyclic g → acyclic r.2) ∧
    (∀ x n, live g x → live r.2 x ∧ denote n r.2 x = denote n g x) ∧
    (∀ n vs v, denote (S n) g a = Some (Array vs) → denote n g y = Some v →
       denote (S n) r.2 r.1 = Some (Array (vs ++ [v])))).
Proof.
  intros Hok Ha Hc Hy Hlim. eapply runs_mono; [by eapply (append_spec g R a c y)| |done].
  intros r ((Hok' & He & Hx) & Hap). split_and!; [done|done|apply He| |done]. intros x n Hl. split.
  - by eapply extends_sort.
  - symmetry. eapply denote_agree; [apply He|done|done].
Qed.

(** ** Closed examples *)

(** [[true]] and [[true, true]] share a store of eight slots. *)
Definition atom : ref := 1%positive.
Definition empty_array : ref := 2%positive.
Definition short_array : ref := 4%positive.
Definition long_array : ref := 5%positive.
Definition sample_roots : list ref := [long_array; short_array; empty_array; atom].
Definition sample_heap : heap :=
  {[ atom := mkCell 3 (Atom (Bool_ true)); empty_array := mkCell 1 (Sequence V_ARRAY []);
     3%positive := mkCell 2 (Store 8 [atom; atom]); short_array := mkCell 1 (View V_ARRAY 1 3%positive);
     long_array := mkCell 1 (View V_ARRAY 2 3%positive) ]}.

Lemma sample_heap_reached : rtc heap_step (∅, []) (sample_heap, sample_roots).
Proof.
  eapply rtc_l; [eapply (step_new (Bool_ true) _ _ []); vm_compute; reflexivity|].
  eapply rtc_l; [eapply (step_sequence V_ARRAY [] _ _ []); [constructor|vm_compute; reflexivity]|].
  eapply rtc_l.
  { eapply (step_append empty_array (mkCell 1 (Sequence V_ARRAY [])) atom _ _ []); [reflexivity..|].
    vm_compute. reflexivity. }
  eapply rtc_l.
  { eapply (step_append short_array (mkCell 1 (View V_ARRAY 1 3%positive)) atom _ _ []); [reflexivity..|].
    vm_compute. reflexivity. }
  match goal with |- rtc _ ?p ?q => replace p with q by (vm_compute; reflexivity) end. apply rtc_refl.
Qed.

(** Giving back the longer version cuts the store to the shorter one. *)
Lemma heap_safety_witness :
  sample_heap ≠ ∅ ∧ returns (release (total sample_heap) long_array sample_heap) (λ g', live g' short_array) ∧
  match run (release (total sample_heap) long_array sample_heap) with
  | Ret g' => g' !! 3%positive = Some (mkCell 1 (Store 8 [atom]))
  | _ => False
  end.
Proof.
  split_and!; [by vm_compute| |by vm_compute].
  destruct (heap_safety _ _ sample_heap_reached) as (_ & _ & _ & _ & H).
  eapply runs_mono; [apply (H long_array [] [short_array; empty_array; atom] eq_refl)| |done].
  intros g' (_ & _ & Hl & _). apply Hl. apply list_elem_of_here.
Defined.

(** Appending the longer version to itself copies: its store would own itself. *)
Lemma append_persistent_witness :
  returns (value_array_append long_array long_array sample_heap) (λ r, denote 3 r.2 r.1 =
    Some (Array [Bool_ true; Bool_ true; Array [Bool_ true; Bool_ true]])).
Proof.
  destruct (heap_steps_kept _ _ sample_heap_reached) as [Hok _].
  eapply runs_mono; [apply (append_persistent sample_heap sample_roots long_array
    (mkCell 1 (View V_ARRAY 2 3%positive)) long_array Hok); by vm_compute| |done].
  intros r (_ & _ & _ & _ & H). by apply (H 2%nat [Bool_ true; Bool_ true] (Array [Bool_ true; Bool_ true])).
Defined.
