(* ===== verification/HostTypes.v ===== *)
(** * Paths, durations and instants: src/src/vm/host_types.c

    The opaque host types: native paths and their lexical operations, durations
    in nanoseconds, and instants of the monotonic clock.  The clock is an
    argument. *)

From Stdlib Require Import ZArith QArith Lia.
From stdpp Require Import prelude strings.
From S2P Require Import Prelude Bigint Decimals Value Equal Numeric Utf8 Render Collections.

#[local] Open Scope Z_scope.

(** ** Operations *)

Definition slash : Z := 47.

(** Consumes its payload: a NULL is passed on. *)
Definition host_variant (name : string) (payload : M Value) : M Value :=
  v ← payload; named_value V_VARIANT (str name) [] [v].

Definition host_error (name : string) : M Value :=
  host_variant "Error" (named_value V_VARIANT (str name) [] []).

Definition path_from_call (k : ValueKind) (a0 : Value) : M Value :=
  require (is_kind a0 k) "VM trap: invalid path constructor operand" (
    let data := bytes_of a0 in
    if Nat.eqb (length data) 0 then host_error "EmptyPath"
    else if existsb (Z.eqb 0) data then host_error "PathContainsNul"
    else host_variant "Ok" (value_data V_PATH data)).

(** [data[i]], where a NUL follows the bytes. *)
Definition byte_at (data : list Z) (i : nat) : M Z := rd (data ++ [0]) i.

(** The escape of a byte that is not printed as it is. *)
Definition plain (b : Z) : bool := (32 <=? b) && (b <=? 126) && negb (b =? 92).
Definition escaped (b : Z) : list Z := [92; 120] ++ hex b.

Fixpoint display_loop (out : Buffer) (data : list Z) : M Buffer :=
  match data with
  | [] => mret out
  | b :: data =>
      out ← (if plain b then buffer_add out [b] else buffer_text out (escaped b));
      display_loop out data
  end.

Definition path_display_call (data : list Z) : M Value :=
  out ← display_loop empty_buffer data; value_data V_STR (content out).

Definition path_append_call (data : list Z) (a1 : Value) : M Value :=
  require (is_kind a1 V_PATH) "VM trap: operation requires Path" (
    first ← byte_at (bytes_of a1) 0;
    if first =? slash then host_error "AbsolutePathAppend"
    else
      out ← buffer_add empty_buffer data;
      last ← (if Nat.eqb (length data) 0 then undef else byte_at data (length data - 1));
      out ← (if last =? slash then mret out else buffer_lit out "/");
      out ← buffer_add out (bytes_of a1);
      host_variant "Ok" (value_data V_PATH (content out))).

(** [while (root < length && data[root] == '/')] *)
Fixpoint path_root (data : list Z) : nat :=
  match data with b :: data => if b =? slash then S (path_root data) else 0%nat | [] => 0%nat end.
(** [while (end > root && data[end - 1] == '/')] *)
Fixpoint path_end (data : list Z) (root end_ : nat) : nat :=
  match end_ with
  | S e => if Nat.ltb root end_ && bool_decide (data !! e = Some slash) then path_end data root e else end_
  | O => O
  end.
(** [while (start > root && data[start - 1] != '/')] *)
Fixpoint path_start (data : list Z) (root start : nat) : nat :=
  match start with
  | S e => if Nat.ltb root start && negb (bool_decide (data !! e = Some slash)) then path_start data root e else start
  | O => O
  end.

Definition path_filename_call (data : list Z) : M Value :=
  let root := path_root data in
  let end_ := path_end data root (length data) in
  let start := path_start data root end_ in
  if Nat.eqb end_ root then named_value V_VARIANT (str "None") [] []
  else host_variant "Some" (value_data V_PATH (take (end_ - start) (drop start data))).

Definition path_directory_call (data : list Z) : M Value :=
  let root := path_root data in
  let end_ := path_end data root (length data) in
  let start := path_start data root end_ in
  if Nat.leb start root then
    if Nat.eqb root 0 then value_data V_PATH (str ".") else value_data V_PATH (take root data)
  else value_data V_PATH (take (start - 1) data).

(** The names that begin with [path_]. *)
Definition path_call (name : list Z) (a : list Value) : M Value :=
  a0 ← rd a 0;
  require (is_kind a0 V_PATH) "VM trap: operation requires Path" (
    let data := bytes_of a0 in
    if is_name name "path_to_text" then
      if utf8 data then host_variant "Ok" (value_data V_STR data) else host_error "PathNotUtf8"
    else if is_name name "path_native_bytes" then value_data V_BYTES data
    else if is_name name "path_absolute" then first ← byte_at data 0; value_bool (first =? slash)
    else if is_name name "path_display" then path_display_call data
    else if is_name name "path_append" then a1 ← rd a 1; path_append_call data a1
    else if is_name name "path_filename" then path_filename_call data
    else path_directory_call data).

Definition duration_from_seconds_call (a0 : Value) : M Value :=
  match a0 with
  | Rat n d =>
      scaled ← pn_big_copy n;
      scaled ← pn_big_mul_small scaled 1000000000;
      '(q, r) ← pn_big_divmod scaled d;
      if negb (pn_big_is_zero r) then host_error "FractionalNanosecond"
      else host_variant "Ok" (value_big V_DURATION q)
  | _ => trap VM_FAULT_FATAL "VM trap: duration seconds requires Rat"
  end.

(** [now] is what the monotonic clock answers: seconds and nanoseconds. *)
Definition instant_now_call (now : option (Z * Z)) : M Value :=
  match now with
  | None => host_error "ClockUnavailable"
  | Some (sec, nsec) =>
      ticks ← pn_big_from_u64 (u64 sec);
      ticks ← pn_big_mul_small ticks 1000000000;
      ticks ← pn_big_add_small ticks (u32 nsec);
      host_variant "Ok" (value_big V_INSTANT ticks)
  end.

Definition instant_call (name : list Z) (a : list Value) : M Value :=
  a0 ← rd a 0;
  require (is_kind a0 V_INSTANT) "VM trap: operation requires Instant" (
    a1 ← rd a 1;
    let add := is_name name "instant_add" in
    require (is_kind a1 (if add then V_DURATION else V_INSTANT)) "VM trap: invalid instant operand" (
      if is_name name "instant_before"
      then value_bool (pn_big_compare (integer_of a0) (integer_of a1) <? 0)
      else
        ticks ← (if add then pn_big_add (integer_of a0) (integer_of a1)
                 else pn_big_sub (integer_of a0) (integer_of a1));
        value_big (if add then V_INSTANT else V_DURATION) ticks)).

Definition host_type_call (now : option (Z * Z)) (name : list Z) (a : list Value) : M Value :=
  if is_name name "path_current" then value_data V_PATH (str ".")
  else if is_name name "path_from_text" then a0 ← rd a 0; path_from_call V_STR a0
  else if is_name name "path_from_native" then a0 ← rd a 0; path_from_call V_BYTES a0
  else if bool_decide (take 5 name = str "path_") then path_call name a
  else if is_name name "duration_nanoseconds" then
    a0 ← rd a 0;
    require (is_kind a0 V_INT || is_kind a0 V_NAT) "VM trap: duration requires Int"
      (value_big V_DURATION (integer_of a0))
  else if is_name name "duration_ticks" then
    a0 ← rd a 0;
    require (is_kind a0 V_DURATION) "VM trap: operation requires Duration" (value_big V_INT (integer_of a0))
  else if is_name name "duration_from_seconds" then a0 ← rd a 0; duration_from_seconds_call a0
  else if is_name name "instant_now" then instant_now_call now
  else instant_call name a.

(** ** Types *)

(** The types of the host interface, as the language declares them. *)
Inductive host_type :=
| TText | TBytes | TBool | TInt | TRat | TPath | TDuration | TInstant
| TOption (t : host_type)
| TResult (t : host_type) (errors : list string).

Definition native_path (s : list Z) : Prop := s ≠ [] ∧ 0 ∉ s ∧ Forall is_byte s.
Definition number (k : Z) (n : PnBigInt) : Prop := wf n ∧ sized k n.
Definition short (k : Z) (s : list Z) : Prop := Z.of_nat (length s) ≤ k.

(** Values of a type whose byte strings and numbers have at most [k] bytes and
    limbs. *)
Fixpoint has_type (k : Z) (t : host_type) (v : Value) : Prop :=
  match t with
  | TText => ∃ s, v = Str (text_of s) ∧ Forall is_byte s ∧ utf8 s = true ∧ short k s
  | TBytes => ∃ s, v = Bytes s ∧ Forall is_byte s ∧ short k s
  | TBool => ∃ b, v = Bool_ b
  | TInt => ∃ n, v = Int_ n ∧ number k n
  | TRat => ∃ n d, v = Rat n d ∧ number k n ∧ number k d ∧ 0 < to_Z d
  | TPath => ∃ s, v = Path s ∧ native_path s ∧ short k s
  | TDuration => ∃ n, v = Duration n ∧ number k n
  | TInstant => ∃ n, v = Instant n ∧ number k n
  | TOption t => v = Variant (str "None") [] ∨ ∃ x, v = Variant (str "Some") [x] ∧ has_type k t x
  | TResult t errors =>
      (∃ x, v = Variant (str "Ok") [x] ∧ has_type k t x) ∨
      ∃ e, e ∈ errors ∧ v = Variant (str "Error") [Variant (str e) []]
  end.

Definition signature : Type := string * (list host_type * host_type).

(** The declarations of stdlib/path and stdlib/time that these builtins serve. *)
Definition signatures : list signature :=
  [("path_current", ([], TPath));
   ("path_from_text", ([TText], TResult TPath ["EmptyPath"; "PathContainsNul"]));
   ("path_from_native", ([TBytes], TResult TPath ["EmptyPath"; "PathContainsNul"]));
   ("path_to_text", ([TPath], TResult TText ["PathNotUtf8"]));
   ("path_native_bytes", ([TPath], TBytes));
   ("path_absolute", ([TPath], TBool));
   ("path_display", ([TPath], TText));
   ("path_append", ([TPath; TPath], TResult TPath ["AbsolutePathAppend"]));
   ("path_filename", ([TPath], TOption TPath));
   ("path_directory", ([TPath], TPath));
   ("duration_nanoseconds", ([TInt], TDuration));
   ("duration_ticks", ([TDuration], TInt));
   ("duration_from_seconds", ([TRat], TResult TDuration ["FractionalNanosecond"]));
   ("instant_now", ([], TResult TInstant ["ClockUnavailable"]));
   ("instant_add", ([TInstant; TDuration], TInstant));
   ("instant_difference", ([TInstant; TInstant], TDuration));
   ("instant_before", ([TInstant; TInstant], TBool))]%string.

(** What [clock_gettime] promises. *)
Definition clock_ok (now : option (Z * Z)) : Prop := ∀ sec nsec, now = Some (sec, nsec) → 0 ≤ nsec < 1000000000.

(** ** Constructors *)

Lemma value_data_spec k s (P : Value → Prop) E :
  match k with V_STR => P (Str (text_of s)) | V_BYTES => P (Bytes s) | V_PATH => P (Path s) | _ => False end →
  runs (value_data k s) P E.
Proof. intros HP. unfold value_data. do 2 (mbind runs_alloc as ? _). destruct k; try done; by mret. Qed.

Lemma variant_spec name l (P : Value → Prop) E :
  P (Variant (cstr name) l) → runs (named_value V_VARIANT name [] l) P E.
Proof.
  intros HP. unfold named_value, copy_text. mbind runs_alloc as ? _.
  eapply (runs_bind _ _ (λ n, n = cstr name)); [mbind runs_alloc as ? _; by mret|]. intros ? ->.
  mbind runs_calloc as ? _. by mret.
Qed.

Lemma host_variant_spec name m (Q P : Value → Prop) E :
  runs m Q E → (∀ x, Q x → P (Variant (cstr (str name)) [x])) → runs (host_variant name m) P E.
Proof. intros Hm HP. unfold host_variant. eapply runs_bind; [done|]. intros x Hx. by apply variant_spec, HP. Qed.

Lemma host_error_spec name (P : Value → Prop) E :
  cstr (str name) = str name → P (Variant (str "Error") [Variant (str name) []]) → runs (host_error name) P E.
Proof.
  intros Hn HP. unfold host_error. eapply (host_variant_spec _ _ (λ x, x = Variant (str name) [])).
  - apply variant_spec. by rewrite Hn.
  - by intros ? ->.
Qed.

Lemma host_ok_spec m (Q P : Value → Prop) E :
  runs m Q E → (∀ x, Q x → P (Variant (str "Ok") [x])) → runs (host_variant "Ok" m) P E.
Proof. exact (host_variant_spec "Ok" m Q P E). Qed.

(** ** Paths *)

Lemma nul_free s : existsb (Z.eqb 0) s = false ↔ 0 ∉ s.
Proof.
  induction s as [|b s IH]; [split; [intros _; apply not_elem_of_nil|done]|].
  cbn [existsb]. rewrite orb_false_iff, IH, not_elem_of_cons, Z.eqb_neq. done.
Qed.

Lemma path_from_spec k a0 s E :
  is_kind a0 k = true → bytes_of a0 = s → Forall is_byte s →
  runs (path_from_call k a0) (λ v,
    if decide (s = []) then v = Variant (str "Error") [Variant (str "EmptyPath") []]
    else if decide (0 ∈ s) then v = Variant (str "Error") [Variant (str "PathContainsNul") []]
    else v = Variant (str "Ok") [Path s] ∧ native_path s) E.
Proof.
  intros Hk Hs Hb. unfold path_from_call, require. rewrite Hk, Hs. destruct s as [|b s]; [by apply host_error_spec|].
  simpl length. cbn [Nat.eqb]. destruct (decide (b :: s = [])) as [|_]; [done|].
  destruct (existsb (Z.eqb 0) (b :: s)) eqn:Hn; destruct (decide (0 ∈ b :: s)) as [Hin|Hni].
  - by apply host_error_spec.
  - by rewrite (proj2 (nul_free _) Hni) in Hn.
  - by apply nul_free in Hn.
  - eapply (host_ok_spec _ (λ x, x = Path (b :: s))); [by apply value_data_spec|]. intros ? ->. by split.
Qed.

(** The text a path is displayed as. *)
Definition displayed (s : list Z) : list Z := s ≫= λ b, if plain b then [b] else escaped b.

Lemma hex_visible b : is_byte b → Forall (λ c, 0 < c < 128) (hex b).
Proof.
  intros Hb. unfold hex, hex_digit, is_byte in *.
  repeat constructor; case_match; zbool; Z.to_euclidean_division_equations; lia.
Qed.

Lemma cstr_id s : 0 ∉ s → cstr s = s.
Proof.
  induction s as [|b s IH]; [done|]. rewrite not_elem_of_cons. intros [Hb Hs]. simpl.
  destruct (Z.eqb_spec b 0); [congruence|]. by rewrite IH.
Qed.

Lemma escaped_visible b : is_byte b → Forall (λ c, 0 < c < 128) (escaped b).
Proof. intros Hb. unfold escaped. repeat (constructor; [lia|]). by apply hex_visible. Qed.

Lemma plain_visible b : plain b = true → 0 < b < 128.
Proof. unfold plain. intros H. zbool. lia. Qed.

Lemma displayed_visible s : Forall is_byte s → Forall (λ c, 0 < c < 128) (displayed s).
Proof.
  induction 1 as [|b s Hb _ IH]; [constructor|]. unfold displayed. simpl. apply Forall_app. split; [|exact IH].
  destruct (plain b) eqn:Hp; [|by apply escaped_visible]. constructor; [by apply plain_visible|constructor].
Qed.

Lemma displayed_length s : (length (displayed s) ≤ 4 * length s)%nat.
Proof.
  induction s as [|b s IH]; [done|].
  change (displayed (b :: s)) with ((if plain b then [b] else escaped b) ++ displayed s). rewrite length_app.
  destruct (plain b); simpl; lia.
Qed.

Lemma display_appends s : Forall is_byte s → appends (λ out, display_loop out s) (displayed s).
Proof.
  induction 1 as [|b s Hb Hs IH]; [apply appends_nil|].
  apply (appends_seq (λ out, if plain b then buffer_add out [b] else buffer_text out (escaped b))
           (λ out, display_loop out s)); [|exact IH].
  destruct (plain b); [apply appends_add|]. assert (cstr (escaped b) = escaped b) as Hes;
    [|pose proof (appends_text (escaped b)) as Ha; by rewrite Hes in Ha].
  apply cstr_id. intros Hin. pose proof (escaped_visible b Hb) as Hv. rewrite Forall_forall in Hv. specialize (Hv 0 Hin). lia.
Qed.

Lemma utf8_ascii s : Forall (λ c, 0 < c < 128) s → utf8 s = true.
Proof.
  intros Hs. apply utf8_spec; [eapply Forall_impl; [exact Hs|]; unfold is_byte; simpl; intros; lia|]. exists s.
  split; [eapply Forall_impl; [exact Hs|]; unfold scalar; simpl; intros; lia|].
  induction Hs as [|c s Hc _ IH]; [done|]. unfold encode_all. simpl. unfold encode at 1.
  replace (c <? 128) with true by lia. simpl. by rewrite IH at 1.
Qed.

Lemma path_display_spec s E :
  Forall is_byte s → Z.of_nat (length s) < 2 ^ 59 →
  runs (path_display_call s) (λ v, v = Str (text_of (displayed s))) E.
Proof.
  intros Hb Hl. unfold path_display_call. pose proof (displayed_length s).
  eapply runs_bind.
  { eapply runs_mono; [apply (display_appends s Hb empty_buffer)|done|intros ? ? []]; [by right|].
    unfold room. simpl. clia. }
  intros out [_ Hc]. apply value_data_spec. by rewrite Hc.
Qed.

(** What appending gives. *)
Definition joined_path (s t : list Z) : list Z := s ++ (if decide (last s = Some slash) then [] else [slash]) ++ t.

Lemma path_append_spec s t E :
  native_path s → native_path t → Z.of_nat (length s) < 2 ^ 59 → Z.of_nat (length t) < 2 ^ 59 →
  runs (path_append_call s (Path t)) (λ v,
    if decide (head t = Some slash) then v = Variant (str "Error") [Variant (str "AbsolutePathAppend") []]
    else v = Variant (str "Ok") [Path (joined_path s t)]) E.
Proof.
  intros (Hs & _ & _) (Ht & _ & _) Ls Lt. unfold path_append_call, require. simpl is_kind. cbn [bytes_of].
  change (is_kind (Path t) V_PATH) with true. cbv iota.
  destruct t as [|c t]; [done|]. unfold byte_at at 1. simpl rd. eapply (runs_bind _ _ (λ x, x = c)); [by mret|]. intros ? ->.
  simpl head. destruct (Z.eqb_spec c slash) as [->|Hc]; (case_decide as Hd; [|try by destruct Hd]); [by apply host_error_spec|by injection Hd|].
  mbind (buffer_add_spec empty_buffer s) as b1 [Wb1 Cb1]; [by right|unfold room; simpl; clia|].
  destruct (Nat.eqb_spec (length s) 0) as [Hz|Hz]; [by destruct s|].
  destruct (exists_last Hs) as (s' & z & ->). rewrite length_app in *. simpl in Hz, Ls |- *.
  eapply (runs_bind _ _ (λ x, x = z)).
  { unfold byte_at. eapply runs_rd; [|done]. rewrite lookup_app_l by (rewrite length_app; simpl; lia).
    rewrite lookup_app_r by lia. by replace (length s' + 1 - 1 - length s')%nat with 0%nat by lia. }
  intros ? ->. unfold joined_path. rewrite last_snoc.
  eapply (runs_bind _ _ (λ b, wf_buffer b ∧ content b = (s' ++ [z]) ++ if decide (Some z = Some slash) then [] else [slash])).
  { destruct (Z.eqb_spec z slash) as [->|Hz']; [mret; rewrite decide_True by done; by rewrite app_nil_r|].
    rewrite decide_False by congruence. eapply runs_mono; [apply (appends_lit "/")| |intros ? ? []]; [done|done| |].
    - unfold room. rewrite Cb1. simpl. rewrite length_app. simpl. clia.
    - intros b [Wb Cb]. split; [done|]. by rewrite Cb, Cb1. }
  intros b2 [Wb2 Cb2].
  mbind (buffer_add_spec b2 (c :: t)) as b3 [Wb3 Cb3]; [done| |].
  { unfold room. rewrite Cb2, !length_app. case_decide; simpl in *; clia. }
  eapply (host_ok_spec _ (λ x, x = Path (content b3))); [by apply value_data_spec|]. intros ? ->.
  by rewrite Cb3, Cb2, (assoc (++)).
Qed.

(** ** The last component *)

Definition all_slashes (s : list Z) : Prop := Forall (λ b, b = slash) s.

Lemma path_root_spec s :
  (path_root s ≤ length s)%nat ∧ all_slashes (take (path_root s) s) ∧ s !! path_root s ≠ Some slash.
Proof.
  induction s as [|b s (H1 & H2 & H3)]; simpl; [split_and!; [done|constructor|done]|].
  destruct (Z.eqb_spec b slash) as [->|Hb]; simpl.
  - split_and!; [lia|by constructor|done].
  - split_and!; [lia|constructor|congruence].
Qed.

Lemma path_root_app s t : path_root (s ++ t) = if decide (all_slashes s) then (length s + path_root t)%nat else path_root s.
Proof.
  induction s as [|b s IH]; [done|]. cbn [app path_root length].
  destruct (decide (all_slashes (b :: s))) as [[-> Hs]%Forall_cons|Hn].
  - simpl. by rewrite IH, decide_True.
  - destruct (Z.eqb_spec b slash) as [->|]; [|done]. rewrite IH, decide_False; [done|]. intros Hs. destruct Hn. by constructor.
Qed.

Lemma path_end_spec s root end_ :
  (root ≤ end_)%nat →
  (root ≤ path_end s root end_ ≤ end_)%nat ∧
  ((root < path_end s root end_)%nat → s !! (path_end s root end_ - 1)%nat ≠ Some slash).
Proof.
  induction end_ as [|e IH]; intros Hle; cbn [path_end]; [lia|].
  destruct (Nat.ltb_spec root (S e)) as [Hlt|Hge]; simpl; [|lia]. case_bool_decide as Hs.
  - destruct (IH ltac:(lia)) as [? ?]. split; [lia|done].
  - split; [lia|]. intros _. by replace (S e - 1)%nat with e by lia.
Qed.

(** With no separator at the end. *)
Lemma path_end_stop s root end_ : s !! (end_ - 1)%nat ≠ Some slash → path_end s root end_ = end_.
Proof.
  destruct end_ as [|e]; [done|]. cbn [path_end]. replace (S e - 1)%nat with e by lia. intros Hs.
  rewrite bool_decide_false by done. by rewrite andb_false_r.
Qed.

Lemma path_start_spec s root start :
  (root ≤ start)%nat →
  (root ≤ path_start s root start ≤ start)%nat ∧
  (path_start s root start = root ∨ s !! (path_start s root start - 1)%nat = Some slash) ∧
  ((root < start)%nat → s !! (start - 1)%nat ≠ Some slash → (path_start s root start < start)%nat).
Proof.
  induction start as [|e IH]; intros Hle; cbn [path_start]; [split; [lia|split; [left; lia|lia]]|].
  destruct (Nat.ltb_spec root (S e)) as [Hlt|Hge]; cbn [andb]; [|split; [lia|split; [left; lia|lia]]].
  replace (S e - 1)%nat with e by lia. case_bool_decide as Hs; cbn [negb].
  - replace (S e - 1)%nat with e by lia. split; [lia|split; [by right|done]].
  - destruct (IH ltac:(lia)) as (? & ? & _). split; [lia|split; [done|lia]].
Qed.

(** The component that follows [start]. *)
Lemma path_start_component s root start f :
  (root ≤ start)%nat → slash ∉ f → (start = root ∨ s !! (start - 1)%nat = Some slash) →
  (∀ i, (i < length f)%nat → s !! (start + i)%nat = f !! i) →
  path_start s root (start + length f) = start.
Proof.
  intros Hle Hf Hst. induction f as [|c f IH] using rev_ind; intros Hs; simpl.
  - rewrite Nat.add_0_r. destruct Hst as [->|Hst].
    + destruct root as [|r]; [done|]. cbn [path_start]. by rewrite Nat.ltb_irrefl.
    + destruct start as [|e]; [done|]. cbn [path_start]. replace (S e - 1)%nat with e in Hst by lia.
      rewrite bool_decide_true by done. by rewrite andb_false_r.
  - rewrite length_app. simpl. replace (start + (length f + 1))%nat with (S (start + length f)) by lia.
    cbn [path_start]. replace (Nat.ltb root (S (start + length f))) with true by (symmetry; apply Nat.ltb_lt; lia).
    rewrite Hs by (rewrite length_app; simpl; lia). rewrite lookup_app_r, Nat.sub_diag by lia. simpl.
    apply not_elem_of_app in Hf as [Hf Hc]. rewrite bool_decide_false; [|intros [= ->]; apply Hc; by left].
    simpl. apply IH; [done|]. intros i Hi. rewrite Hs by (rewrite length_app; lia). by rewrite lookup_app_l.
Qed.

Definition filename_of (s : list Z) : option (list Z) :=
  let root := path_root s in
  let end_ := path_end s root (length s) in
  let start := path_start s root end_ in
  if Nat.eqb end_ root then None else Some (take (end_ - start) (drop start s)).
Definition directory_of (s : list Z) : list Z :=
  let root := path_root s in
  let start := path_start s root (path_end s root (length s)) in
  if Nat.leb start root then if Nat.eqb root 0 then str "." else take root s else take (start - 1) s.

Lemma path_filename_spec s E :
  runs (path_filename_call s) (λ v, match filename_of s with
    | Some f => v = Variant (str "Some") [Path f] | None => v = Variant (str "None") [] end) E.
Proof.
  unfold path_filename_call, filename_of. cbv zeta. destruct (Nat.eqb _ _); [by apply variant_spec|].
  eapply (host_variant_spec _ _ (λ x, x = Path _)); [by apply value_data_spec|]. by intros ? ->.
Qed.
Lemma path_directory_spec s E : runs (path_directory_call s) (λ v, v = Path (directory_of s)) E.
Proof.
  unfold path_directory_call, directory_of. cbv zeta. repeat case_match; by apply value_data_spec.
Qed.

(** Parts of a path are paths. *)
Lemma part_path s t : native_path s → t ≠ [] → t ⊆ s → native_path t.
Proof.
  intros (_ & H2 & H3) Ht Hsub. split_and!; [done|set_solver|]. apply Forall_forall. intros b Hb.
  rewrite Forall_forall in H3. by apply H3, Hsub.
Qed.
Lemma take_subset (s : list Z) n : take n s ⊆ s.
Proof. intros b Hb. rewrite <- (take_drop n s). apply elem_of_app. by left. Qed.
Lemma drop_subset (s : list Z) n : drop n s ⊆ s.
Proof. intros b Hb. rewrite <- (take_drop n s). apply elem_of_app. by right. Qed.

Lemma take_nonempty (s : list Z) n : (0 < n ≤ length s)%nat → take n s ≠ [].
Proof. intros Hn. destruct s, n; simpl in *; try lia; done. Qed.

Lemma filename_path s f : native_path s → filename_of s = Some f → native_path f ∧ (length f ≤ length s)%nat.
Proof.
  unfold filename_of. cbv zeta. intros Hs. destruct (path_root_spec s) as (Hr & _ & _).
  destruct (path_end_spec s (path_root s) (length s) Hr) as [He1 He2].
  set (e := path_end _ _ _) in *. destruct (Nat.eqb_spec e (path_root s)) as [|Hne]; [done|]. intros [= <-].
  destruct (path_start_spec s (path_root s) e) as (Hs1 & _ & Hs2); [lia|].
  specialize (Hs2 ltac:(lia) (He2 ltac:(lia))). set (st := path_start _ _ _) in *. split.
  - eapply part_path; [done| |].
    + apply take_nonempty. rewrite length_drop. lia.
    + etrans; [apply take_subset|apply drop_subset].
  - rewrite length_take, length_drop. lia.
Qed.

Lemma directory_path s : native_path s → native_path (directory_of s) ∧ (length (directory_of s) ≤ length s)%nat.
Proof.
  intros Hs. unfold directory_of. cbv zeta. destruct (path_root_spec s) as (Hr & Hall & Hnr).
  destruct (path_end_spec s (path_root s) (length s) Hr) as [He1 He2]. set (e := path_end _ _ _) in *.
  destruct (path_start_spec s (path_root s) e) as (Hs1 & Hs2 & _); [lia|]. set (st := path_start _ _ _) in *.
  destruct (Nat.leb_spec st (path_root s)) as [Hle|Hlt].
  - destruct (Nat.eqb_spec (path_root s) 0) as [Hz|Hz].
    + split; [|destruct Hs as [Hs _]; destruct s; simpl; [done|lia]]. change (str ".") with [46].
      split_and!; [done|set_solver|]. constructor; [unfold is_byte; lia|constructor].
    + split; [|rewrite length_take; lia]. eapply part_path; [done|apply take_nonempty; lia|apply take_subset].
  - split; [|rewrite length_take; lia]. eapply part_path; [done|apply take_nonempty|apply take_subset].
    split; [|lia]. destruct (decide (st = 1%nat)) as [E1|]; [|lia]. exfalso. rewrite E1 in Hs2, Hlt.
    replace (path_root s) with 0%nat in * by lia. simpl in Hs2. by destruct Hs2.
Qed.

(** A path with one more component, and where its parts are. *)
Lemma joined_parts s f :
  s ≠ [] → f ≠ [] → slash ∉ f →
  let q := joined_path s f in
  let n := length (s ++ if decide (last s = Some slash) then [] else [slash]) in
  length q = (n + length f)%nat ∧ path_end q (path_root q) (length q) = length q ∧
  path_start q (path_root q) (length q) = n ∧
  path_root q = if decide (all_slashes s) then n else path_root s.
Proof.
  intros Hs Hf Hnf q n.
  assert (q = (s ++ if decide (last s = Some slash) then [] else [slash]) ++ f) as Hq by apply (assoc (++)).
  assert (length q = (n + length f)%nat) as Hlen by (by rewrite Hq, length_app).
  assert (∀ i, (i < length f)%nat → q !! (n + i)%nat = f !! i) as Hat.
  { intros i Hi. rewrite Hq, lookup_app_r by lia. f_equal. unfold n. lia. }
  assert (path_root f = 0%nat) as Hrf.
  { destruct f as [|c f]; [done|]. simpl. destruct (Z.eqb_spec c slash) as [->|]; [|done]. destruct Hnf. by left. }
  assert (path_root q = if decide (all_slashes s) then n else path_root s) as Hroot.
  { rewrite Hq, path_root_app, Hrf. destruct (decide (all_slashes s)) as [Ha|Ha].
    - rewrite decide_True; [unfold n; lia|]. apply Forall_app. split; [done|]. case_decide; [constructor|by repeat constructor].
    - rewrite decide_False; [|by intros [? _]%Forall_app]. by rewrite path_root_app, decide_False. }
  assert (n = path_root q ∨ q !! (n - 1)%nat = Some slash) as Hbefore.
  { right. rewrite Hq, lookup_app_l by (unfold n; rewrite length_app; destruct s; [done|simpl; lia]).
    destruct (exists_last Hs) as (s' & z & ->). unfold n. rewrite last_snoc, !length_app. simpl length.
    destruct (decide (Some z = Some slash)) as [Hz|Hz]; simpl.
    - injection Hz as ->. rewrite app_nil_r, lookup_app_r by lia.
      by replace (length s' + 1 + 0 - 1 - length s')%nat with 0%nat by lia.
    - rewrite lookup_app_r by (rewrite length_app; simpl; lia). rewrite length_app. simpl.
      by replace (length s' + 1 + 1 - 1 - (length s' + 1))%nat with 0%nat by lia. }
  assert (path_root q ≤ n)%nat as Hle.
  { rewrite Hroot. destruct (decide (all_slashes s)); [done|]. destruct (path_root_spec s) as [? _]. unfold n. rewrite length_app. lia. }
  split_and!; [done| | |done].
  - apply path_end_stop. rewrite Hlen. replace (n + length f - 1)%nat with (n + (length f - 1))%nat by (destruct f; simpl in *; [done|lia]).
    rewrite Hat by (destruct f; simpl in *; [done|lia]). intros Hc%list_elem_of_lookup_2. done.
  - rewrite Hlen. apply path_start_component; [done|done|destruct Hbefore; auto|done].
Qed.

Lemma joined_filename s f : s ≠ [] → f ≠ [] → slash ∉ f → filename_of (joined_path s f) = Some f.
Proof.
  intros Hs Hf Hnf. destruct (joined_parts s f Hs Hf Hnf) as (Hlen & Hend & Hst & Hroot). unfold filename_of. cbv zeta.
  rewrite Hend, Hst, Hlen, Hroot. unfold joined_path. rewrite (assoc (++)).
  set (t := s ++ if decide (last s = Some slash) then [] else [slash]).
  assert (path_root s ≤ length t)%nat as Hle.
  { destruct (path_root_spec s) as [? _]. unfold t. rewrite length_app. lia. }
  destruct (Nat.eqb_spec (length t + length f) (if decide (all_slashes s) then length t else path_root s)) as [Heq|_].
  { destruct f; [done|]. simpl in Heq. destruct (decide (all_slashes s)); lia. }
  f_equal. rewrite drop_app_length. apply take_ge. lia.
Qed.

Lemma joined_directory s f :
  s ≠ [] → f ≠ [] → slash ∉ f →
  directory_of (joined_path s f) =
  if decide (last s = Some slash ∧ ¬ all_slashes s) then take (length s - 1) s else s.
Proof.
  intros Hs Hf Hnf. destruct (joined_parts s f Hs Hf Hnf) as (Hlen & Hend & Hst & Hroot). unfold directory_of. cbv zeta.
  rewrite Hend, Hst, Hroot. destruct (path_root_spec s) as (Hr & _ & Hnr). unfold joined_path.
  rewrite length_app. destruct (decide (all_slashes s)) as [Ha|Ha].
  - assert (last s = Some slash) as Hl.
    { destruct (exists_last Hs) as (s' & z & ->). apply Forall_app in Ha as [_ Hz]. apply Forall_cons in Hz as [-> _].
      by rewrite last_snoc. }
    rewrite (decide_True (P:=last s = Some slash)) by done. simpl length. rewrite Nat.add_0_r, Nat.leb_refl.
    rewrite (decide_False (P:=_ ∧ _)) by tauto.
    destruct (Nat.eqb_spec (length s) 0); [by destruct s|]. rewrite app_nil_l. by rewrite take_app_length.
  - assert (path_root s < length s)%nat as Hlt.
    { destruct (decide (path_root s = length s)) as [Heq|]; [|lia]. destruct Ha.
      destruct (path_root_spec s) as (_ & H & _). by rewrite Heq, take_ge in H by lia. }
    destruct (decide (last s = Some slash)) as [Hl|Hl].
    + rewrite (decide_True (P:=_ ∧ _)) by done. simpl length. rewrite Nat.add_0_r.
      destruct (Nat.leb_spec (length s) (path_root s)); [lia|]. rewrite app_nil_l. by rewrite take_app_le by lia.
    + rewrite (decide_False (P:=_ ∧ _)) by tauto. simpl length.
      destruct (Nat.leb_spec (length s + 1) (path_root s)); [lia|].
      replace (length s + 1 - 1)%nat with (length s) by lia. by rewrite take_app_length.
Qed.

(** ** Durations and instants *)

Definition nanoseconds : Z := 1000000000.

Lemma nanoseconds_base : 0 ≤ nanoseconds ≤ BASE.
Proof. unfold nanoseconds, BASE. lia. Qed.

Lemma number_sized k n : number k n → k ≤ 2 ^ 58 → sized limit n ∧ sized (2 ^ 61) n.
Proof. intros [_ Hs] Hk. unfold limit. split; eapply sized_mono; try done; clia. Qed.

Lemma number_sum k a b r :
  0 ≤ k → number k a → number k b → wf r → Z.abs (to_Z r) ≤ Z.abs (to_Z a) + Z.abs (to_Z b) → number (k + 1) r.
Proof.
  intros Hk [Wa Sa] [Wb Sb] Wr Hr. split; [done|]. apply sized_le in Sa; [|done..]. apply sized_le in Sb; [|done..].
  apply sized_le; [done|lia|]. rewrite Z.pow_add_r by lia. unfold BASE in *. lia.
Qed.

Lemma quot_abs_le a d : 0 < d → Z.abs (Z.quot a d) ≤ Z.abs a.
Proof.
  intros Hd. rewrite <- Z.quot_abs by lia. rewrite Z.quot_div_nonneg by lia. apply Z.div_le_upper_bound; [lia|nia].
Qed.

Lemma duration_from_seconds_spec k n d E :
  0 ≤ k ≤ 2 ^ 58 → number k n → number k d → 0 < to_Z d →
  runs (duration_from_seconds_call (Rat n d)) (λ v,
    if decide (to_Z n * nanoseconds mod to_Z d = 0)
    then ∃ q, v = Variant (str "Ok") [Duration q] ∧ number (k + 1) q ∧ to_Z q * to_Z d = to_Z n * nanoseconds
    else v = Variant (str "Error") [Variant (str "FractionalNanosecond") []]) E.
Proof.
  intros Hk Hn Hd Hpos. destruct (number_sized k n Hn) as [Sn Sn']; [lia|]. destruct (number_sized k d Hd) as [Sd _]; [lia|].
  unfold duration_from_seconds_call. fold nanoseconds. mbind (runs_copy n (λ x, x = n)) as ? ->; [done|done|].
  mbind (mul_small_spec n nanoseconds) as s (Ws & Hs & Ss); [apply Hn|done|apply nanoseconds_base|].
  assert (sized (k + 1) s) as Ss' by (eapply sized_mono; [done|]; destruct Hn as [_ Hn]; unfold sized in Hn; lia).
  mbind (divmod_spec s d) as [q r] (Wq & Wr & Hq & Hr);
    [done|apply Hd|eapply sized_mono; [done|unfold limit; clia]|eapply sized_mono; [apply Hd|unfold limit; clia]|lia|].
  rewrite is_zero_spec by done. rewrite Hs in Hq, Hr.
  assert (to_Z n * nanoseconds mod to_Z d = 0 ↔ to_Z r = 0) as Hiff.
  { rewrite Hr, Z.rem_mod_eq_0 by lia. done. }
  assert (number (k + 1) q) as Nq.
  { split; [done|]. apply (sized_abs_le _ s); [lia|done|done|done|]. rewrite Hs, Hq. by apply quot_abs_le. }
  destruct (decide (to_Z n * nanoseconds mod to_Z d = 0)) as [H0|H0].
  - rewrite (proj1 Hiff H0). simpl. eapply (host_ok_spec _ (λ x, x = Duration q)).
    + apply value_big_spec; [|done]. eapply sized_mono; [apply Nq|clia].
    + intros ? ->. exists q. split; [done|]. split; [done|].
      pose proof (Z.quot_rem' (to_Z n * nanoseconds) (to_Z d)) as Hqr. rewrite <- Hq, <- Hr, (proj1 Hiff H0) in Hqr. lia.
  - replace (to_Z r =? 0) with false by (symmetry; apply Z.eqb_neq; tauto). simpl. by apply host_error_spec.
Qed.

Lemma instant_now_spec now E :
  clock_ok now →
  runs (instant_now_call now) (λ v, match now with
    | Some (sec, nsec) => ∃ n, v = Variant (str "Ok") [Instant n] ∧ number 5 n ∧ to_Z n = u64 sec * nanoseconds + nsec
    | None => v = Variant (str "Error") [Variant (str "ClockUnavailable") []]
    end) E.
Proof.
  intros Hnow. unfold instant_now_call. fold nanoseconds. destruct now as [[sec nsec]|]; [|by apply host_error_spec].
  specialize (Hnow sec nsec eq_refl). rewrite u32_small by clia.
  assert (0 ≤ u64 sec < 2 ^ 64) as Hsec by (apply Z.mod_pos_bound; lia).
  mbind (from_u64_spec (u64 sec)) as a (Wa & Ha & Sa); [done|].
  mbind (mul_small_spec a nanoseconds) as b (Wb & Hb & Sb);
    [done|eapply sized_mono; [done|unfold limit; clia]|apply nanoseconds_base|].
  mbind (add_small_spec b nsec) as t (Wt & Ht & St);
    [done|rewrite Hb, Ha; unfold nanoseconds; lia|eapply sized_mono; [done|]; unfold sized, limit in *; clia|unfold BASE; lia|].
  eapply (host_ok_spec _ (λ x, x = Instant t)).
  - apply value_big_spec; [|done]. eapply sized_mono; [done|]. unfold sized in *. clia.
  - intros ? ->. exists t. split; [done|]. split; [|by rewrite Ht, Hb, Ha]. split; [done|]. eapply sized_mono; [done|].
    unfold sized in *. lia.
Qed.

(** ** Calls by name *)

(** Which branch a literal name takes. *)
Ltac names :=
  repeat match goal with
  | |- context [is_name (str ?a) ?b] => let v := eval vm_compute in (is_name (str a) b) in change (is_name (str a) b) with v
  | |- context [bool_decide (take 5 (str ?a) = str "path_")] =>
      let v := eval vm_compute in (bool_decide (take 5 (str a) = str "path_")) in
      change (bool_decide (take 5 (str a) = str "path_")) with v
  end; cbv iota.

(** The next argument. *)
Ltac argument := eapply runs_bind; [eapply (runs_rd _ _ _ (eq _)); reflexivity|intros ? <-; simpl bytes_of; simpl integer_of].
Ltac call := unfold host_type_call; names; cbv zeta.

Section calls.
Context (now : option (Z * Z)) (E : VMFaultKind → string → Prop).

Lemma instant_add_spec k a b :
  0 ≤ k ≤ 2 ^ 58 → number k a → number k b →
  runs (host_type_call now (str "instant_add") [Instant a; Duration b])
    (λ v, ∃ n, v = Instant n ∧ number (k + 1) n ∧ to_Z n = to_Z a + to_Z b) E.
Proof.
  intros Hk Ha Hb. destruct (number_sized k a Ha) as [Sa _]; [lia|]. destruct (number_sized k b Hb) as [Sb _]; [lia|].
  call. unfold instant_call. argument. unfold require at 1. cbv iota. argument. names.
  mbind (add_spec a b) as n [Wn Hn]; [apply Ha|apply Hb|done|done|].
  assert (number (k + 1) n) as Nn by (apply (number_sum k a b); try done; lia).
  apply value_big_spec; [eapply sized_mono; [apply Nn|clia]|]. eauto.
Qed.

Lemma instant_difference_spec k a b :
  0 ≤ k ≤ 2 ^ 58 → number k a → number k b →
  runs (host_type_call now (str "instant_difference") [Instant a; Instant b])
    (λ v, ∃ n, v = Duration n ∧ number (k + 1) n ∧ to_Z n = to_Z a - to_Z b) E.
Proof.
  intros Hk Ha Hb. destruct (number_sized k a Ha) as [Sa _]; [lia|]. destruct (number_sized k b Hb) as [Sb _]; [lia|].
  call. unfold instant_call. argument. unfold require at 1. cbv iota. argument. names.
  mbind (sub_spec a b) as n [Wn Hn]; [apply Ha|apply Hb|done|done|].
  assert (number (k + 1) n) as Nn by (apply (number_sum k a b); try done; lia).
  apply value_big_spec; [eapply sized_mono; [apply Nn|clia]|]. eauto.
Qed.

Lemma instant_before_spec k a b :
  number k a → number k b →
  runs (host_type_call now (str "instant_before") [Instant a; Instant b]) (λ v, v = Bool_ (bool_decide (to_Z a < to_Z b))) E.
Proof.
  intros [Wa _] [Wb _]. call. unfold instant_call. argument. unfold require at 1. cbv iota. argument. names.
  apply value_bool_spec. simpl integer_of. rewrite compare_spec by done. f_equal. case_bool_decide; lia.
Qed.
End calls.

(** ** Soundness *)

Lemma number_mono k k' n : k ≤ k' → number k n → number k' n.
Proof. intros Hk [? ?]. split; [done|]. by eapply sized_mono. Qed.

(** The type of a result, from what it is. *)
Lemma path_type k s : native_path s → Z.of_nat (length s) ≤ k → has_type k TPath (Path s).
Proof. intros Hs Hk. by exists s. Qed.
Lemma ok_type k t es v : has_type k t v → has_type k (TResult t es) (Variant (str "Ok") [v]).
Proof. intros H. left. eauto. Qed.
Lemma error_type k t es e : e ∈ es → has_type k (TResult t es) (Variant (str "Error") [Variant (str e) []]).
Proof. intros H. right. eauto. Qed.

Lemma path_join_native s t : native_path s → native_path t → native_path (joined_path s t).
Proof.
  intros (H1 & H2 & H3) (H4 & H5 & H6). unfold joined_path. split_and!.
  - intros H. by apply app_nil in H as [? _].
  - rewrite !not_elem_of_app. split_and!; [done| |done]. case_decide; [by apply not_elem_of_nil|].
    unfold slash. set_solver.
  - rewrite !Forall_app. split_and!; [done| |done]. case_decide; [constructor|].
    constructor; [unfold is_byte, slash; lia|constructor].
Qed.

Section soundness.
Context (k : Z) (now : option (Z * Z)).
Hypothesis Hk : 0 ≤ k ≤ 2 ^ 56.

Definition typed (a : list Value) : list host_type → Prop := Forall2 (λ v t, has_type k t v) a.

Lemma typed_nil a : typed a [] → a = [].
Proof. apply Forall2_nil_inv_r. Qed.
Lemma typed_one a t : typed a [t] → ∃ v, a = [v] ∧ has_type k t v.
Proof. intros (v & ? & Hv & ->%Forall2_nil_inv_r & ->)%Forall2_cons_inv_r. eauto. Qed.
Lemma typed_two a t u : typed a [t; u] → ∃ v w, a = [v; w] ∧ has_type k t v ∧ has_type k u w.
Proof. intros (v & l & Hv & Hl & ->)%Forall2_cons_inv_r. apply typed_one in Hl as (w & -> & ?). eauto. Qed.

Definition call_typed (s : signature) : Prop :=
  ∀ a, typed a (fst (snd s)) →
  runs (host_type_call now (str (fst s)) a) (has_type (4 * k + 6) (snd (snd s))) no_trap.

Lemma from_typed kind v s :
  is_kind v kind = true → bytes_of v = s → Forall is_byte s → short k s →
  runs (path_from_call kind v) (has_type (4 * k + 6) (TResult TPath ["EmptyPath"; "PathContainsNul"]%string)) no_trap.
Proof.
  intros H1 H2 H3 H4. eapply runs_mono; [by apply (path_from_spec kind v s)| |intros ? ? He; exact He]. intros r Hr. cbv beta in Hr.
  repeat case_decide; [subst; apply error_type; set_solver..|]. destruct Hr as [-> Hp]. apply ok_type, path_type; [done|].
  unfold short in H4. lia.
Qed.

Lemma path_signatures_typed s : s ∈ take 10 signatures → call_typed s.
Proof.
  unfold signatures. simpl take. intros Hin a Ha.
  repeat (apply elem_of_cons in Hin as [->|Hin]); [..|by apply not_elem_of_nil in Hin]; cbn [fst snd] in Ha |- *.
  - apply typed_nil in Ha as ->. call. apply value_data_spec. exists (str "."). split; [done|].
    split; [|unfold short; simpl; lia]. change (str ".") with [46].
    split_and!; [done|set_solver|]. constructor; [unfold is_byte; lia|constructor].
  - apply typed_one in Ha as (? & -> & s & -> & Hb & _ & Hl). call. argument. by apply (from_typed _ _ s).
  - apply typed_one in Ha as (? & -> & s & -> & Hb & Hl). call. argument. by apply (from_typed _ _ s).
  - apply typed_one in Ha as (? & -> & s & -> & Hp & Hl). call. unfold path_call. argument. names. unfold require. cbv iota.
    destruct (utf8 s) eqn:Hu; [|apply host_error_spec; [done|]; apply error_type; set_solver].
    eapply (host_ok_spec _ (λ x, x = Str (text_of s))); [by apply value_data_spec|]. intros ? ->. apply ok_type.
    exists s. split_and!; [done|apply Hp|done|unfold short in *; lia].
  - apply typed_one in Ha as (? & -> & s & -> & Hp & Hl). call. unfold path_call. argument. names.
    apply value_data_spec. exists s. split_and!; [done|apply Hp|unfold short in *; lia].
  - apply typed_one in Ha as (? & -> & s & -> & Hp & Hl). call. unfold path_call. argument. names.
    eapply (runs_bind _ _ (λ _, True)); [|intros ? _; apply value_bool_spec; by eexists].
    destruct s as [|b s]; [by destruct Hp|]. by eapply (runs_rd _ _ b).
  - apply typed_one in Ha as (? & -> & s & -> & (Hn & Hz & Hb) & Hl). call. unfold path_call. argument. names.
    unfold short in Hl. eapply runs_mono; [apply (path_display_spec s); [done|clia]| |intros ? ? He; exact He].
    intros ? ->. exists (displayed s). pose proof (displayed_visible s Hb) as Hv. pose proof (displayed_length s).
    split_and!; [done|eapply Forall_impl; [exact Hv|]; unfold is_byte; simpl; intros; lia|by apply utf8_ascii|unfold short; lia].
  - apply typed_two in Ha as (? & ? & -> & (s & -> & Hp & Hl) & (t & -> & Hq & Hm)). call. unfold path_call. argument. names.
    unfold require at 1. cbv iota. argument. unfold short in Hl, Hm.
    eapply runs_mono; [apply (path_append_spec s t); [done|done|clia|clia]| |intros ? ? He; exact He]. intros r Hr. cbv beta in Hr.
    case_decide; [subst; apply error_type; set_solver|]. subst r. apply ok_type, path_type; [by apply path_join_native|].
    unfold joined_path. rewrite !length_app. case_decide; simpl; lia.
  - apply typed_one in Ha as (? & -> & s & -> & Hp & Hl). call. unfold path_call. argument. names. unfold short in Hl.
    eapply runs_mono; [apply (path_filename_spec s)| |intros ? ? He; exact He]. intros r Hr.
    destruct (filename_of s) as [f|] eqn:Hf; subst r; [right|by left]. eexists. split; [done|].
    destruct (filename_path s f Hp Hf). apply path_type; [done|lia].
  - apply typed_one in Ha as (? & -> & s & -> & Hp & Hl). call. unfold path_call. argument. names. unfold short in Hl.
    eapply runs_mono; [apply (path_directory_spec s)| |intros ? ? He; exact He]. intros r ->.
    destruct (directory_path s Hp). apply path_type; [done|lia].
Qed.

Lemma time_signatures_typed s : clock_ok now → s ∈ drop 10 signatures → call_typed s.
Proof.
  unfold signatures. simpl drop. intros Hnow Hin a Ha. assert (k ≤ 2 ^ 58) as Hk' by clia.
  repeat (apply elem_of_cons in Hin as [->|Hin]); [..|by apply not_elem_of_nil in Hin]; cbn [fst snd] in Ha |- *.
  - apply typed_one in Ha as (? & -> & n & -> & Hn). call. argument. unfold require. cbv iota.
    apply value_big_spec; [by apply (number_sized k)|]. exists n. split; [done|]. eapply number_mono; [|done]. lia.
  - apply typed_one in Ha as (? & -> & n & -> & Hn). call. argument. unfold require. cbv iota.
    apply value_big_spec; [by apply (number_sized k)|]. exists n. split; [done|]. eapply number_mono; [|done]. lia.
  - apply typed_one in Ha as (? & -> & n & d & -> & Hn & Hd & Hpos). call. argument.
    eapply runs_mono; [apply (duration_from_seconds_spec k n d); [lia|done..]| |intros ? ? He; exact He]. intros r Hr. cbv beta in Hr.
    case_decide; [|subst; apply error_type; set_solver]. destruct Hr as (q & -> & Hq & _). apply ok_type. exists q.
    split; [done|]. eapply number_mono; [|done]. lia.
  - apply typed_nil in Ha as ->. call. eapply runs_mono; [by apply (instant_now_spec now)| |intros ? ? He; exact He].
    intros r Hr. destruct now as [[sec nsec]|]; [|subst; apply error_type; set_solver].
    destruct Hr as (n & -> & Hn & _). apply ok_type. exists n. split; [done|]. eapply number_mono; [|done]. lia.
  - apply typed_two in Ha as (? & ? & -> & (n & -> & Hn) & (m & -> & Hm)).
    eapply runs_mono; [apply (instant_add_spec now no_trap k n m); [lia|done..]| |intros ? ? He; exact He].
    intros r (q & -> & Hq & _). exists q. split; [done|]. eapply number_mono; [|done]. lia.
  - apply typed_two in Ha as (? & ? & -> & (n & -> & Hn) & (m & -> & Hm)).
    eapply runs_mono; [apply (instant_difference_spec now no_trap k n m); [lia|done..]| |intros ? ? He; exact He].
    intros r (q & -> & Hq & _). exists q. split; [done|]. eapply number_mono; [|done]. lia.
  - apply typed_two in Ha as (? & ? & -> & (n & -> & Hn) & (m & -> & Hm)).
    eapply runs_mono; [by apply (instant_before_spec now no_trap k n m)| |intros ? ? He; exact He]. intros r ->. by eexists.
Qed.
End soundness.

(** ** Theorems *)

(** C30: Calls of the host-type builtins are type safe.  A call whose arguments
    have the declared types never traps and never reads outside its operands,
    and its result has the declared type, whatever the clock answers: paths are
    never empty and never contain a NUL, texts are valid UTF-8, numbers are
    canonical, and failures are the declared errors. *)
Theorem host_types_sound k now s a :
  0 ≤ k ≤ 2 ^ 56 → clock_ok now → s ∈ signatures → typed k a (fst (snd s)) →
  runs (host_type_call now (str (fst s)) a) (has_type (4 * k + 6) (snd (snd s))) no_trap.
Proof.
  intros Hk Hnow Hin. rewrite <- (take_drop 10 signatures), elem_of_app in Hin.
  destruct Hin; [by apply path_signatures_typed|by apply time_signatures_typed].
Qed.

(** Appending a component to a path and taking the path apart again are
    inverse.  A name without separators appended to any path is the filename of
    the result, and the directory of the result is the path, less the separator
    it ended with if it was not a root. *)
Theorem path_components now p f :
  native_path p → native_path f → slash ∉ f → Z.of_nat (length p) < 2 ^ 59 → Z.of_nat (length f) < 2 ^ 59 →
  ∃ q, returns (host_type_call now (str "path_append") [Path p; Path f]) (λ v, v = Variant (str "Ok") [Path q]) ∧
       returns (host_type_call now (str "path_filename") [Path q]) (λ v, v = Variant (str "Some") [Path f]) ∧
       returns (host_type_call now (str "path_directory") [Path q])
         (λ v, v = Path (if decide (last p = Some slash ∧ ¬ all_slashes p) then take (length p - 1) p else p)).
Proof.
  intros Hp Hf Hn Lp Lf. exists (joined_path p f). assert (p ≠ []) as Hp0 by apply Hp. assert (f ≠ []) as Hf0 by apply Hf.
  split_and!; call; unfold path_call; argument; names; unfold require at 1; cbv iota.
  - argument. eapply runs_mono; [by apply path_append_spec| |intros ? ? He; exact He]. intros v Hv. cbv beta in Hv.
    case_decide as Hh; [|done]. destruct f as [|c f]; [done|]. injection Hh as ->. destruct Hn. by left.
  - eapply runs_mono; [by apply path_filename_spec| |intros ? ? He; exact He]. intros v. by rewrite joined_filename.
  - eapply runs_mono; [by apply path_directory_spec| |intros ? ? He; exact He]. intros v. by rewrite joined_directory.
Qed.

(** Time arithmetic is exact.  Seconds become a duration exactly when they
    are a whole number of nanoseconds; adding a duration to an instant and
    taking the difference again gives the duration; and the order of instants is
    the order of their ticks. *)
Theorem time_exact k now n d a b :
  0 ≤ k ≤ 2 ^ 57 → number k n → number k d → 0 < to_Z d → number k a → number k b →
  returns (host_type_call now (str "duration_from_seconds") [Rat n d]) (λ v,
    if decide (to_Z n * nanoseconds mod to_Z d = 0)
    then ∃ q, v = Variant (str "Ok") [Duration q] ∧ to_Z q * to_Z d = to_Z n * nanoseconds
    else v = Variant (str "Error") [Variant (str "FractionalNanosecond") []]) ∧
  returns (t ← host_type_call now (str "instant_add") [Instant a; Duration b];
           host_type_call now (str "instant_difference") [t; Instant a])
    (λ v, ∃ q, v = Duration q ∧ to_Z q = to_Z b) ∧
  returns (t ← host_type_call now (str "instant_add") [Instant a; Duration b];
           host_type_call now (str "instant_before") [Instant a; t])
    (λ v, v = Bool_ (bool_decide (0 < to_Z b))).
Proof.
  intros Hk Hn Hd Hpos Ha Hb. assert (number (k + 1) a) as Ha' by (eapply number_mono; [|done]; lia). split_and!.
  - call. argument. eapply runs_mono; [apply (duration_from_seconds_spec k n d); [clia|done..]| |intros ? ? He; exact He].
    intros v. case_decide; [|done]. intros (q & ? & _ & ?). eauto.
  - eapply runs_bind; [apply (instant_add_spec now no_trap k a b); [clia|done..]|]. intros ? (t & -> & Ht & Et).
    eapply runs_mono; [apply (instant_difference_spec now no_trap (k + 1) t a); [clia|done..]| |intros ? ? He; exact He].
    intros v (q & -> & _ & Hq). exists q. split; [done|lia].
  - eapply runs_bind; [apply (instant_add_spec now no_trap k a b); [clia|done..]|]. intros ? (t & -> & Ht & Et).
    eapply runs_mono; [apply (instant_before_spec now no_trap (k + 1) a t); done| |intros ? ? He; exact He].
    intros v ->. f_equal. apply bool_decide_ext. lia.
Qed.

(** ** Instances *)

Definition sample_path (s : string) : Value := Path (str s).

Lemma host_types_sound_witness :
  runs (host_type_call None (str "path_append") [sample_path "usr"; sample_path "lib"])
    (has_type 46 (TResult TPath ["AbsolutePathAppend"]%string)) no_trap ∧
  run (host_type_call None (str "path_append") [sample_path "usr"; sample_path "lib"]) =
  Ret (Variant (str "Ok") [sample_path "usr/lib"]).
Proof.
  split; [|vm_compute; reflexivity].
  apply (host_types_sound 10 None ("path_append", ([TPath; TPath], TResult TPath ["AbsolutePathAppend"]))%string);
    [lia|done|unfold signatures; set_solver|].
  repeat constructor; eexists; (split; [reflexivity|]); (split; [|unfold short; simpl; lia]);
    (split; [done|]); (split; [decide_now|]); repeat constructor; done.
Defined.

Lemma path_components_witness :
  ∃ q, returns (host_type_call None (str "path_append") [sample_path "/srv/"; sample_path "data"])
         (λ v, v = Variant (str "Ok") [Path q]) ∧
       returns (host_type_call None (str "path_filename") [Path q]) (λ v, v = Variant (str "Some") [sample_path "data"]).
Proof.
  destruct (path_components None (str "/srv/") (str "data")) as (q & H1 & H2 & _).
  - split; [done|]. split; [decide_now|]. repeat constructor; done.
  - split; [done|]. split; [decide_now|]. repeat constructor; done.
  - decide_now.
  - reflexivity.
  - reflexivity.
  - exists q. split; [exact H1|exact H2].
Defined.

Lemma time_exact_witness :
  returns (host_type_call None (str "duration_from_seconds") [Rat (mkBig 1 [3]) (mkBig 1 [2])]) (λ v,
    ∃ q, v = Variant (str "Ok") [Duration q] ∧ to_Z q * 2 = 3 * nanoseconds).
Proof.
  assert (∀ z, (0 < z < BASE)%Z → number 2 (mkBig 1 [z])) as Hn.
  { intros z Hz. split; [|unfold sized, len; simpl; lia]. split; [split; [constructor; [unfold limb_ok; lia|constructor]|intros [= E1]; lia]|].
    right. split; [by left|done]. }
  destruct (time_exact 2 None (mkBig 1 [3]) (mkBig 1 [2]) (mkBig 1 [5]) (mkBig 1 [7])) as (H & _ & _);
    [lia|apply Hn; unfold BASE; lia|apply Hn; unfold BASE; lia|reflexivity|apply Hn; unfold BASE; lia|apply Hn; unfold BASE; lia|exact H].
Defined.
