(* ===== verification/Host.v ===== *)
(** * Invocation context and string paths: src/src/vm/host.c

    The services of the host ABI that use C strings: lexical path operations,
    standard streams, whole files, arguments and the environment snapshot.  The
    C library is an interface.  Several path functions ignore what
    [buffer_text] answers, so the allocator decides more than success here. *)

From Stdlib Require Import ZArith Lia.
From stdpp Require Import prelude strings.
From S2P Require Import Prelude Bigint Value Equal Utf8 Render Collections HostTypes.

(** ** Path text *)

(** A result that is not checked: the buffer stays as it was. *)
Definition unchecked (b : Buffer) (m : M Buffer) : M Buffer := λ al,
  match m al with (NoMem, al') => (Ret b, al') | r => r end.
Definition add_text (b : Buffer) (s : list Z) : M Buffer := unchecked b (buffer_text b s).

(** [b.data], which may be NULL. *)
Definition buffer_data (b : Buffer) : option (list Z) := if capacity b =? 0 then None else Some (content b).
Definition or_null (o : option (list Z)) : M (list Z) := match o with Some s => mret s | None => nomem end.

(** [while (n > 1 && copy[n - 1] == '/')] *)
Fixpoint strip_slashes (s : list Z) (n : nat) : list Z :=
  match n with
  | S (S m as e) => if bool_decide (s !! e = Some slash) then strip_slashes s e else take n s
  | _ => take n s
  end.

(** The bytes up to the last [c], and those after it. *)
Fixpoint strrchr (c : Z) (s : list Z) : option (list Z * list Z) :=
  match s with
  | [] => None
  | b :: s =>
      match strrchr c s with
      | Some (l, r) => Some (b :: l, r)
      | None => if b =? c then Some ([], s) else None
      end
  end.

Definition path_parent_text (path : list Z) : M (list Z) :=
  copy ← copy_text path;
  let copy := strip_slashes copy (length copy) in
  match strrchr slash copy with
  | None => copy_text (str ".")
  | Some ([], _) => mret [slash]
  | Some (l, _) => mret l
  end.

Definition path_suffix_text (path : list Z) : M (list Z) :=
  let base := match strrchr slash path with Some (_, base) => base | None => path end in
  match strrchr 46 base with
  | Some (_ :: _, suffix) => copy_text (46 :: suffix)
  | _ => copy_text []
  end.

Fixpoint skip_slashes (s : list Z) : list Z :=
  match s with b :: t => if b =? slash then skip_slashes t else s | [] => [] end.
(** The bytes up to a separator, and those after it. *)
Fixpoint component (s : list Z) : list Z * list Z :=
  match s with
  | [] => ([], [])
  | b :: s => if b =? slash then ([], s) else let '(c, r) := component s in (b :: c, r)
  end.

(** [while ( *at )]: the components that count, with the room for them. *)
Fixpoint normalize_loop (fuel : nat) (at_ : list Z) (parts : list (list Z)) (cap : nat) : M (list (list Z)) :=
  match skip_slashes at_ with
  | [] => mret parts
  | at_ =>
      match fuel with
      | O => diverge
      | S fuel =>
          let '(start, at_) := component at_ in
          if is_name start "." then normalize_loop fuel at_ parts cap
          else if is_name start ".." && negb (Nat.eqb (length parts) 0) &&
                  negb (bool_decide (last parts = Some (str "..")))
          then normalize_loop fuel at_ (take (length parts - 1) parts) cap
          else
            cap ← (if Nat.eqb (length parts) cap then _ ← alloc; mret (if Nat.eqb cap 0 then 8 else cap * 2)%nat
                   else mret cap);
            normalize_loop fuel at_ (parts ++ [start]) cap
      end
  end.

Fixpoint join_parts (out : Buffer) (first : bool) (parts : list (list Z)) : M Buffer :=
  match parts with
  | [] => mret out
  | p :: parts =>
      out ← (if first then mret out else add_text out (str "/"));
      out ← add_text out p;
      join_parts out false parts
  end.

Definition path_normalize (path : list Z) : M (list Z) :=
  let absolute := bool_decide (head path = Some slash) in
  copy ← copy_text path;
  parts ← normalize_loop (length copy) copy [] 0;
  out ← (if absolute then add_text empty_buffer (str "/") else mret empty_buffer);
  out ← join_parts out true parts;
  out ← (if Nat.eqb (length (content out)) 0 then add_text out (str (if absolute then "/" else ".")) else mret out);
  or_null (buffer_data out).

Definition path_join_text (left_ right_ : list Z) : M (list Z) :=
  if bool_decide (head right_ = Some slash) then path_normalize right_
  else
    b ← add_text empty_buffer left_;
    b ← (match last (content b) with
         | Some c => if c =? slash then mret b else add_text b (str "/")
         | None => mret b
         end);
    b ← add_text b right_;
    match buffer_data b with Some s => path_normalize s | None => undef end.

(** [size_t base = strlen(path) - strlen(suffix)], then the two pieces; the
    suffix is looked for before the copy is tested. *)
Definition path_with_suffix_text (path suffix : list Z) : M Value := λ al,
  match copy_text path al with
  | (Ret copy, al) =>
      (old ← path_suffix_text copy;
       b ← unchecked empty_buffer (buffer_add empty_buffer (take (length copy - length old) copy));
       b ← unchecked b (buffer_add b suffix);
       match buffer_data b with
       | Some s => value_data V_STR s
       | None => value_data V_STR []
       end) al
  | (_, al) => undef al
  end.

(** ** The C library *)

Class HostIo (W : Type) := {
  file : Type;
  fopen : bool → list Z → W → option file * W;
  (** at most 4096 bytes; none at the end or on an error *)
  fread : file → W → list Z * W;
  ferror : file → W → bool;
  fwrite : file → list Z → W → nat * W;
  fclose : file → W → bool * W;
  fgetc : W → option Z * W;
  (** standard output, or standard error *)
  emit : bool → list Z → W → W;
  getcwd : W → option (list Z) * W;
  stat_regular : list Z → W → bool;
  (** the native handles of the invocation and of its parents are released *)
  release_handles : W → W;
}.

(** The fields of [VM] these services read. *)
Record Invocation := mkInvocation { arguments : list (list Z); environment : list (list Z) }.

Section host.
Context {W : Type} `{!HostIo W}.

Definition IO (A : Type) : Type := W → allocator → outcome A * W * allocator.
#[global] Instance IO_ret : MRet IO := λ A a w al, (Ret a, w, al).
#[global] Instance IO_bind : MBind IO := λ A B k m w al,
  match m w al with
  | (Ret a, w, al) => k a w al
  | (Trap f t, w, al) => (Trap f t, w, al)
  | (NoMem, w, al) => (NoMem, w, al)
  | (Undef, w, al) => (Undef, w, al)
  | (Diverge, w, al) => (Diverge, w, al)
  end.
Definition pure_io {A} (m : M A) : IO A := λ w al, let '(o, al) := m al in (o, w, al).
Definition call_io {A} (f : W → A * W) : IO A := λ w al, let '(a, w) := f w in (Ret a, w, al).
Definition fatal {A} (t : string) : IO A := pure_io (trap VM_FAULT_FATAL t).

(** ** Streams *)

(** The chunks of a stream in one buffer.  [fuel] bounds the number of reads. *)
Fixpoint read_loop (fuel : nat) (f : file) (b : Buffer) : IO Buffer :=
  chunk ← call_io (fread f);
  match chunk, fuel with
  | [], _ => mret b
  | _, O => pure_io diverge
  | _, S fuel => b ← pure_io (buffer_add b chunk); read_loop fuel f b
  end.

(** The value, or whether reading failed. *)
Definition read_stream (fuel : nat) (f : file) (k : ValueKind) : IO (option Value) :=
  b ← read_loop fuel f empty_buffer;
  failed ← call_io (λ w, (ferror f w, w));
  if (failed : bool) then mret None
  else v ← pure_io (value_data k (content b)); mret (Some v).

(** [REQUIRE_PATH] *)
Definition require_path {A} (v : Value) (message : string) (k : list Z → IO A) : IO A :=
  match v with
  | Str t => if existsb (Z.eqb 0) (data t) then fatal "VM trap: path contains NUL byte" else k (data t)
  | _ => fatal message
  end.

Definition could_not_read : string := "I/O error: could not read file".
Definition could_not_write : string := "I/O error: could not write file".

(** The file is closed whatever reading gives. *)
Definition closing_file {A} (f : file) (m : IO A) : IO A := λ w al,
  let '(o, w, al) := m w al in let '(_, w) := fclose f w in (o, w, al).

Definition read_call (fuel : nat) (k : ValueKind) (a0 : Value) : IO Value :=
  require_path a0 "VM trap: file path requires Str" (λ path,
    f ← call_io (fopen false path);
    match f with
    | None => fatal could_not_read
    | Some f =>
        r ← closing_file f (read_stream fuel f k);
        match r with
        | None => fatal could_not_read
        | Some (Str t) =>
            if utf8 (data t) then mret (Str t) else fatal "I/O error: file is not valid UTF-8"
        | Some v => mret v
        end
    end).

Definition write_call (k : ValueKind) (a0 a1 : Value) : IO Value :=
  require_path a0 "VM trap: file path requires Str" (λ path,
    if negb (is_kind a1 k) then fatal "VM trap: invalid file contents"
    else
      f ← call_io (fopen true path);
      match f with
      | None => fatal could_not_write
      | Some f =>
          let bytes := bytes_of a1 in
          n ← call_io (fwrite f bytes);
          closed ← call_io (fclose f);
          if negb (Nat.eqb n (length bytes)) || negb closed then fatal could_not_write else pure_io value_void
      end).

(** [fprintf(out, "%s\n", b.data ? b.data : "")] *)
Definition print_call (err : bool) (a0 : Value) : IO Value :=
  b ← pure_io (render empty_buffer a0 false);
  _ ← call_io (λ w, (tt, emit err (cstr (content b) ++ [10]) w));
  pure_io value_void.

Fixpoint line_loop (fuel : nat) (b : Buffer) : IO Buffer :=
  c ← call_io fgetc;
  match c, fuel with
  | None, _ => mret b
  | Some _, O => pure_io diverge
  | Some c, S fuel =>
      if c =? 10 then mret b
      else b ← (if c =? 13 then mret b else pure_io (buffer_add b [c])); line_loop fuel b
  end.

Definition read_line_call (fuel : nat) : IO Value :=
  b ← line_loop fuel empty_buffer; pure_io (value_data V_STR (content b)).

(** ** Arguments and environment *)

Fixpoint argument_values (l : list (list Z)) : M (list Value) :=
  match l with
  | [] => mret []
  | s :: l => v ← value_data V_STR (cstr s); rest ← argument_values l; mret (v :: rest)
  end.
Definition command_args_call (i : Invocation) : M Value :=
  _ ← calloc_items (length (arguments i));
  l ← argument_values (arguments i);
  value_sequence V_ARRAY l.

(** [!strncmp(entry, name, n) && entry[n] == '='] *)
Definition names_entry (name entry : list Z) : bool :=
  bool_decide (take (length name) (cstr entry) = name) && bool_decide (cstr entry !! length name = Some 61).
Fixpoint environment_value (entries : list (list Z)) (name : list Z) : option (list Z) :=
  match entries with
  | [] => None
  | e :: entries =>
      if names_entry name e then Some (drop (length name + 1) (cstr e)) else environment_value entries name
  end.

Definition environment_call (i : Invocation) (get : bool) (a0 : Value) : M Value :=
  match a0 with
  | Str t =>
      let v := environment_value (environment i) (cstr (data t)) in
      if get then match v with
                  | Some s => value_data V_STR s
                  | None => trap VM_FAULT_FATAL "VM trap: environment variable was not found"
                  end
      else value_bool (bool_decide (is_Some v))
  | _ => trap VM_FAULT_FATAL "VM trap: environment key requires Str"
  end.

(** [environ] at the start, with a copy of every entry. *)
Definition snapshot_environment (entries : list (list Z)) : M (list (list Z)) :=
  _ ← calloc_items (length entries); copy_texts entries.

(** ** Dispatch *)

Definition path_text_call (m : list Z → M (list Z)) (a0 : Value) (message : string) : IO Value :=
  require_path a0 message (λ path, pure_io (s ← m path; value_data V_STR (cstr s))).

Definition no_path : string := "VM trap: path requires Str".

Definition path_resolve_call (a0 : Value) : IO Value :=
  require_path a0 no_path (λ path,
    s ← (if bool_decide (head path = Some slash) then pure_io (path_normalize path)
         else
           cwd ← call_io getcwd;
           match cwd with
           | None => fatal "I/O error: could not resolve path"
           | Some cwd => pure_io (path_join_text cwd path)
           end);
    pure_io (value_data V_STR (cstr s))).

(** [inr] is the status the process exits with. *)
Definition exit_call (a0 : Value) : IO (Value + Z) :=
  if negb (is_kind a0 V_NAT) then fatal "VM trap: process status requires Nat"
  else match value_index a0 with
       | None => fatal "VM trap: invalid process status"
       | Some code => _ ← call_io (λ w, (tt, release_handles w)); mret (inr (u32 code))
       end.

Definition host_call (fuel : nat) (i : Invocation) (name : list Z) (a : list Value) : IO (Value + Z) :=
  let value (m : IO Value) : IO (Value + Z) := v ← m; mret (inl v) in
  let arg n := pure_io (rd a n) in
  if is_name name "print" then value (a0 ← arg 0%nat; print_call false a0)
  else if is_name name "eprint" then value (a0 ← arg 0%nat; print_call true a0)
  else if is_name name "read_line" then value (read_line_call fuel)
  else if is_name name "read_file" then value (a0 ← arg 0%nat; read_call fuel V_STR a0)
  else if is_name name "read_bytes" then value (a0 ← arg 0%nat; read_call fuel V_BYTES a0)
  else if is_name name "write_file" then value (a0 ← arg 0%nat; a1 ← arg 1%nat; write_call V_STR a0 a1)
  else if is_name name "write_bytes" then value (a0 ← arg 0%nat; a1 ← arg 1%nat; write_call V_BYTES a0 a1)
  else if is_name name "command_args" then value (pure_io (command_args_call i))
  else if is_name name "environment_has" then value (a0 ← arg 0%nat; pure_io (environment_call i false a0))
  else if is_name name "environment_get" then value (a0 ← arg 0%nat; pure_io (environment_call i true a0))
  else if is_name name "path_parent" then value (a0 ← arg 0%nat; path_text_call path_parent_text a0 no_path)
  else if is_name name "path_join" then
    value (a0 ← arg 0%nat; a1 ← arg 1%nat;
           require_path a0 "VM trap: path_join requires Str" (λ l,
             path_text_call (path_join_text l) a1 "VM trap: path_join requires Str"))
  else if is_name name "path_suffix" then value (a0 ← arg 0%nat; path_text_call path_suffix_text a0 no_path)
  else if is_name name "path_with_suffix" then
    value (a0 ← arg 0%nat; a1 ← arg 1%nat;
           require_path a0 "VM trap: path_with_suffix requires Str" (λ path,
             require_path a1 "VM trap: path_with_suffix requires Str" (λ suffix,
               pure_io (path_with_suffix_text path suffix))))
  else if is_name name "path_is_absolute" then
    value (a0 ← arg 0%nat;
           require_path a0 no_path (λ path, pure_io (value_bool (bool_decide (head path = Some slash)))))
  else if is_name name "path_resolve" then value (a0 ← arg 0%nat; path_resolve_call a0)
  else if is_name name "file_exists" then
    value (a0 ← arg 0%nat;
           require_path a0 no_path (λ path,
             b ← call_io (λ w, (stat_regular path w, w)); pure_io (value_bool b)))
  else if is_name name "process_exit" then a0 ← arg 0%nat; exit_call a0
  else fatal "VM trap: unknown builtin".
End host.

(** ** Computations with memory granted *)

Definition grants {A} (m : M A) (P : A → Prop) : Prop := ∃ a, m [] = (Ret a, []) ∧ P a.

Lemma grants_ret {A} (a : A) (P : A → Prop) : P a → grants (mret a) P.
Proof. intros H. by exists a. Qed.
Lemma grants_bind {A B} (m : M A) (k : A → M B) P Q :
  grants m P → (∀ a, P a → grants (k a) Q) → grants (x ← m; k x) Q.
Proof. intros (a & Hm & Ha) Hk. destruct (Hk a Ha) as (b & Hb & HQ). exists b. unfold mbind, M_bind. by rewrite Hm. Qed.
Lemma grants_runs {A} (m : M A) P : returns m P → grants m P.
Proof.
  intros H. destruct (H []) as (u & Hu & Ho). symmetry in Hu. apply app_nil in Hu as [-> Hs].
  destruct (m []) as [[] al] eqn:Hm; simpl in *; subst; try done; [by exists a|set_solver].
Qed.
Lemma grants_mono {A} (m : M A) (P Q : A → Prop) : grants m P → (∀ a, P a → Q a) → grants m Q.
Proof. intros (a & Hm & Ha) Hq. exists a. auto. Qed.
Lemma grants_run {A} (m : M A) a : grants m (λ x, x = a) → run m = Ret a.
Proof. intros (x & Hm & ->). unfold run. by rewrite Hm. Qed.
Lemma grants_unchecked b m P : grants m P → grants (unchecked b m) P.
Proof. intros (a & Hm & Ha). exists a. unfold unchecked. by rewrite Hm. Qed.
Lemma grants_alloc : grants alloc (λ _, True).
Proof. by exists tt. Qed.

Lemma add_text_grants b s :
  wf_buffer b → room b s → 0 ∉ s → grants (add_text b s) (appended b s).
Proof.
  intros Hb Hr Hs. unfold add_text, buffer_text. rewrite cstr_id by done. by apply grants_unchecked, grants_runs, buffer_add_spec.
Qed.

(** Something was allocated, even for no bytes. *)
Lemma buffer_add_capacity b s : yields (buffer_add b s) (λ b', 0 < capacity b').
Proof.
  unfold buffer_add. case_match; [done|]. eapply yields_bind; [apply yields_any|]. intros cap _.
  destruct (Z.ltb_spec cap (Z.of_nat (length (content b)) + Z.of_nat (length s) + 1)); [done|]. apply yields_ret. simpl. lia.
Qed.
Lemma add_text_capacity b s :
  wf_buffer b → room b s → 0 ∉ s → grants (add_text b s) (λ b', appended b s b' ∧ 0 < capacity b').
Proof.
  intros Hb Hr Hs. unfold add_text, buffer_text. rewrite cstr_id by done. apply grants_unchecked.
  destruct (grants_runs _ _ (buffer_add_spec b s no_trap Hb Hr)) as (b' & Hm & Hb'). exists b'. split; [done|]. split; [done|].
  pose proof (buffer_add_capacity b s []) as Hc. by rewrite Hm in Hc.
Qed.

(** ** Normal paths *)

Definition dot : list Z := str ".".
Definition up : list Z := str "..".

(** The pieces between separators. *)
Fixpoint pieces (s : list Z) : list (list Z) :=
  match s with
  | [] => [[]]
  | b :: s => if b =? slash then [] :: pieces s
              else match pieces s with c :: l => (b :: c) :: l | [] => [[b]] end
  end.
Definition counts (c : list Z) : Prop := c ≠ [] ∧ c ≠ dot.
Definition components (s : list Z) : list (list Z) := filter counts (pieces s).

(** One component more: [..] takes back the one before it, if there is one. *)
Definition resolve1 (l : list (list Z)) (c : list Z) : list (list Z) :=
  if decide (c = up ∧ l ≠ [] ∧ last l ≠ Some up) then take (length l - 1) l else l ++ [c].
Definition resolve (l : list (list Z)) : list (list Z) := foldl resolve1 [] l.

Fixpoint slashed (l : list (list Z)) : list Z := match l with [] => [] | c :: l => [slash] ++ c ++ slashed l end.
Definition joined_text (l : list (list Z)) : list Z := match l with [] => [] | c :: l => c ++ slashed l end.

Definition absolute (s : list Z) : bool := bool_decide (head s = Some slash).
Definition normalized (s : list Z) : list Z :=
  match (if absolute s then [slash] else []) ++ joined_text (resolve (components s)) with
  | [] => dot
  | t => t
  end.

Lemma components_slash s : components (slash :: s) = components s.
Proof. unfold components. simpl. rewrite filter_cons_False; [done|]. by intros [? _]. Qed.
Lemma components_skip s : components (skip_slashes s) = components s.
Proof.
  induction s as [|b s IH]; [done|]. simpl. destruct (Z.eqb_spec b slash) as [->|]; [|done]. by rewrite components_slash.
Qed.
Lemma skip_head s : head (skip_slashes s) ≠ Some slash.
Proof. induction s as [|b s IH]; [done|]. simpl. destruct (Z.eqb_spec b slash); [done|]. by intros [=]. Qed.
Lemma skip_length s : (length (skip_slashes s) ≤ length s)%nat.
Proof. induction s as [|b s IH]; [done|]. simpl. destruct (b =? slash); simpl; lia. Qed.
Lemma skip_subset s : skip_slashes s ⊆ s.
Proof. induction s as [|b s IH]; [done|]. simpl. destruct (b =? slash); set_solver. Qed.

Lemma pieces_component s : pieces s = fst (component s) :: (if decide (slash ∈ s) then pieces (snd (component s)) else []).
Proof.
  induction s as [|b s IH]; [done|]. cbn [pieces component]. destruct (Z.eqb_spec b slash) as [->|Hb].
  - cbn [fst snd]. destruct (decide (slash ∈ slash :: s)) as [|Hn]; [done|]. destruct Hn. by left.
  - rewrite IH. destruct (component s) as [c r]. simpl. f_equal.
    destruct (decide (slash ∈ s)), (decide (slash ∈ b :: s)); set_solver.
Qed.
Lemma component_last s : slash ∉ s → snd (component s) = [].
Proof.
  induction s as [|b s IH]; [done|]. rewrite not_elem_of_cons. intros [Hb Hs]. cbn [component].
  destruct (Z.eqb_spec b slash); [congruence|]. specialize (IH Hs). by destruct (component s).
Qed.
Lemma components_component s : components s = filter counts [fst (component s)] ++ components (snd (component s)).
Proof.
  unfold components. rewrite pieces_component. change (fst (component s) :: ?l) with ([fst (component s)] ++ l) at 1.
  rewrite filter_app. f_equal. destruct (decide (slash ∈ s)) as [|Hs]; [done|]. rewrite (component_last s Hs). simpl.
  by rewrite filter_cons_False by (by intros [? _]).
Qed.
Lemma component_length s : s ≠ [] → (length (snd (component s)) < length s)%nat.
Proof.
  induction s as [|b s IH]; [done|]. intros _. cbn [component]. destruct (b =? slash); simpl; [lia|].
  destruct s as [|b' s]; [simpl; lia|]. specialize (IH ltac:(done)). destruct (component (b' :: s)). simpl in *. lia.
Qed.
Lemma component_subset s : fst (component s) ⊆ s ∧ snd (component s) ⊆ s.
Proof.
  induction s as [|b s IH]; [done|]. cbn [component]. destruct (b =? slash); [set_solver|].
  destruct (component s). set_solver.
Qed.
Lemma component_nonempty s : s ≠ [] → head s ≠ Some slash → fst (component s) ≠ [].
Proof.
  destruct s as [|b s]; [done|]. intros _ Hb. cbn [component]. destruct (Z.eqb_spec b slash) as [->|]; [done|].
  by destruct (component s).
Qed.

Lemma is_name_exact s t : 0 ∉ s → cstr (str t) = str t → is_name s t = bool_decide (s = str t).
Proof. intros Hs Ht. unfold is_name. by rewrite streq_cstr, Ht, cstr_id. Qed.

Lemma normalize_loop_grants fuel s parts cap :
  (length s ≤ fuel)%nat → 0 ∉ s →
  grants (normalize_loop fuel s parts cap) (λ r, r = foldl resolve1 parts (components s)).
Proof.
  revert s parts cap. induction fuel as [|fuel IH]; intros s parts cap Hl Hz.
  { destruct s; simpl in Hl; [|lia]. by apply grants_ret. }
  rewrite <- components_skip. cbn [normalize_loop].
  pose proof (skip_length s) as Hsl. pose proof (skip_subset s) as Hss. pose proof (skip_head s) as Hsh.
  destruct (skip_slashes s) as [|b t] eqn:Hsk; [by apply grants_ret|].
  pose proof (components_component (b :: t)) as Hc. pose proof (component_length (b :: t) ltac:(done)) as Hlt.
  pose proof (component_subset (b :: t)) as [Hc1 Hc2]. pose proof (component_nonempty (b :: t) ltac:(done) Hsh) as Hne.
  destruct (component (b :: t)) as [c r]. simpl in Hc, Hlt, Hc1, Hc2, Hne.
  assert (0 ∉ c ∧ 0 ∉ r) as [Hzc Hzr] by set_solver. rewrite Hc.
  rewrite !is_name_exact by done. case_bool_decide as Hdot.
  { rewrite filter_cons_False by (by intros [_ ?]). simpl. apply IH; [simpl in *; lia|done]. }
  rewrite filter_cons_True by done. cbn [filter list_filter app foldl].
  assert (bool_decide (c = str "..") && negb (Nat.eqb (length parts) 0) && negb (bool_decide (last parts = Some (str ".."))) =
    bool_decide (c = up ∧ parts ≠ [] ∧ last parts ≠ Some up)) as ->.
  { change (str "..") with up. destruct parts as [|p parts]; simpl; repeat case_bool_decide; simpl; naive_solver. }
  unfold resolve1 at 2. case_bool_decide as Hup.
  - rewrite decide_True by done. apply IH; [simpl in *; lia|done].
  - rewrite decide_False by done. eapply (grants_bind _ _ (λ _, True)).
    + case_match; [|by apply grants_ret]. eapply grants_bind; [apply grants_alloc|]. intros. by apply grants_ret.
    + intros cap' _. apply IH; [simpl in *; lia|done].
Qed.

(** ** Sizes *)

Definition weight (l : list (list Z)) : nat := sum_list_with (λ c, S (length c)) l.

Lemma weight_app l l' : weight (l ++ l') = (weight l + weight l')%nat.
Proof. apply sum_list_with_app. Qed.
Lemma weight_pieces s : weight (pieces s) = S (length s).
Proof.
  induction s as [|b s IH]; [done|]. simpl. destruct (b =? slash); simpl; [lia|].
  destruct (pieces s); simpl in *; lia.
Qed.
Lemma weight_filter l : (weight (filter counts l) ≤ weight l)%nat.
Proof.
  induction l as [|c l IH]; [done|]. destruct (decide (counts c)).
  - rewrite filter_cons_True by done. simpl. lia.
  - rewrite filter_cons_False by done. simpl. lia.
Qed.
Lemma weight_take n l : (weight (take n l) ≤ weight l)%nat.
Proof. rewrite <- (take_drop n l) at 2. rewrite weight_app. lia. Qed.
Lemma weight_resolve1 l c : (weight (resolve1 l c) ≤ weight l + S (length c))%nat.
Proof.
  unfold resolve1. case_decide; [pose proof (weight_take (length l - 1) l); lia|]. rewrite weight_app. simpl. lia.
Qed.
Lemma weight_resolve s : (weight (resolve (components s)) ≤ S (length s))%nat.
Proof.
  assert (∀ l acc, weight (foldl resolve1 acc l) ≤ weight acc + weight l)%nat as Hf.
  { induction l as [|c l IH]; intros acc; simpl; [lia|]. pose proof (IH (resolve1 acc c)). pose proof (weight_resolve1 acc c).
    simpl in *. lia. }
  pose proof (Hf (components s) []) as H1. pose proof (weight_filter (pieces s)) as H2. rewrite weight_pieces in H2.
  unfold resolve, components in *. simpl in H1. lia.
Qed.
Lemma slashed_length l : length (slashed l) = weight l.
Proof. induction l as [|c l IH]; [done|]. simpl. rewrite length_app, IH. simpl. lia. Qed.
Lemma joined_text_length l : (length (joined_text l) ≤ weight l)%nat.
Proof. destruct l as [|c l]; [done|]. simpl. rewrite length_app, slashed_length. simpl. lia. Qed.

(** ** What the pieces are *)

(** A component: not empty, not a dot, and without separators or NUL. *)
Definition clean (c : list Z) : Prop := counts c ∧ slash ∉ c ∧ 0 ∉ c.

Lemma pieces_clean s : 0 ∉ s → Forall (λ c, slash ∉ c ∧ 0 ∉ c) (pieces s).
Proof.
  induction s as [|b s IH]; [constructor; [|constructor]; split; apply not_elem_of_nil|].
  rewrite not_elem_of_cons. intros [Hb Hs]. specialize (IH Hs). simpl. destruct (Z.eqb_spec b slash) as [->|Hn].
  - constructor; [split; apply not_elem_of_nil|done].
  - destruct (pieces s) as [|c l]; [constructor; [set_solver|constructor]|]. apply Forall_cons in IH as [[Hc1 Hc2] Hl].
    constructor; [|done]. rewrite !not_elem_of_cons. split_and!; auto.
Qed.
Lemma components_clean s : 0 ∉ s → Forall clean (components s).
Proof.
  intros Hs. apply Forall_forall. intros c [Hc Hin]%list_elem_of_filter. pose proof (pieces_clean s Hs) as Hp.
  rewrite Forall_forall in Hp. destruct (Hp c Hin). by split_and!.
Qed.

(** Components in which nothing is left to resolve. *)
Definition settled (l : list (list Z)) : Prop :=
  ∃ n rest, l = replicate n up ++ rest ∧ up ∉ rest.

Lemma take_snoc {A} (l : list A) x : take (length (l ++ [x]) - 1) (l ++ [x]) = l.
Proof. rewrite length_app. simpl. rewrite Nat.add_sub. apply take_app_length. Qed.

Lemma settled_resolve1 l c : settled l → settled (resolve1 l c).
Proof.
  intros (n & rest & -> & Hrest). unfold resolve1. case_decide as Hd.
  - destruct Hd as (_ & Hne & Hlast). destruct rest as [|x rest _] using rev_ind.
    + rewrite app_nil_r in *. destruct n as [|n]; [done|]. rewrite replicate_S_end, last_snoc in Hlast. done.
    + exists n, rest. rewrite (assoc (++)), take_snoc. split; [done|]. set_solver.
  - destruct (decide (c = up)) as [->|Hc].
    + destruct rest as [|x rest _] using rev_ind.
      * exists (S n), []. rewrite replicate_S_end, !app_nil_r. split; [done|apply not_elem_of_nil].
      * destruct Hd. split_and!; [done|by destruct n, rest|]. rewrite (assoc (++)), last_snoc. set_solver.
    + exists n, (rest ++ [c]). rewrite (assoc (++)). split; [done|]. set_solver.
Qed.

Lemma resolve_settled l : settled (resolve l).
Proof.
  unfold resolve. assert (settled []) as H0 by (exists 0%nat, []; split; [done|apply not_elem_of_nil]).
  revert H0. generalize (@nil (list Z)). induction l as [|c l IH]; intros acc Hacc; [done|]. simpl. by apply IH, settled_resolve1.
Qed.

Lemma resolve_fixed l : settled l → resolve l = l.
Proof.
  intros (n & rest & -> & Hrest). unfold resolve. rewrite foldl_app.
  assert (foldl resolve1 [] (replicate n up) = replicate n up) as ->.
  { clear. induction n as [|n IH]; [done|]. rewrite replicate_S_end, foldl_app, IH. simpl. unfold resolve1.
    rewrite decide_False; [done|]. intros (_ & Hne & Hl). destruct n as [|n]; [done|].
    by rewrite replicate_S_end, last_snoc in Hl. }
  generalize (replicate n up). induction rest as [|c rest IH]; intros acc; [by rewrite app_nil_r|]. simpl.
  apply not_elem_of_cons in Hrest as [Hc Hrest]. unfold resolve1 at 2. rewrite decide_False; [|naive_solver].
  rewrite IH by done. by rewrite <- (assoc (++)).
Qed.

Lemma resolve_forall (P : list Z → Prop) l : Forall P l → Forall P (resolve l).
Proof.
  unfold resolve. intros Hl. assert (Forall P []) as H0 by constructor. revert H0. generalize (@nil (list Z)).
  induction Hl as [|c l Hc Hl IH]; intros acc Hacc; [done|]. simpl. apply IH. unfold resolve1.
  case_decide; [by apply Forall_take|]. apply Forall_app. split; [done|]. by constructor.
Qed.

(** Joining clean components and taking them apart again. *)
Lemma pieces_app c s : slash ∉ c → pieces (c ++ s) = match pieces s with p :: l => (c ++ p) :: l | [] => [c] end.
Proof.
  induction c as [|b c IH]; intros Hc; simpl; [by rewrite (pieces_component s)|]. apply not_elem_of_cons in Hc as [Hb Hc].
  destruct (Z.eqb_spec b slash); [congruence|]. rewrite IH by done. by destruct (pieces s).
Qed.
Lemma pieces_slashed l : Forall clean l → pieces (slashed l) = [] :: l.
Proof.
  induction 1 as [|c l [_ [Hc _]] _ IH]; [done|]. simpl. f_equal. rewrite pieces_app by done.
  rewrite IH. by rewrite app_nil_r.
Qed.
Lemma pieces_joined c l : Forall clean (c :: l) → pieces (joined_text (c :: l)) = c :: l.
Proof.
  intros [[_ [Hc _]] Hl]%Forall_cons. simpl. rewrite pieces_app, pieces_slashed by done. by rewrite app_nil_r.
Qed.
Lemma filter_clean l : Forall clean l → filter counts l = l.
Proof. induction 1 as [|c l [Hc _] _ IH]; [done|]. by rewrite filter_cons_True, IH. Qed.
Lemma components_joined l : Forall clean l → components (joined_text l) = l.
Proof.
  intros Hl. destruct l as [|c l]; [done|]. unfold components. rewrite pieces_joined by done. by apply filter_clean.
Qed.
Lemma joined_head l : Forall clean l → head (joined_text l) ≠ Some slash.
Proof.
  destruct l as [|[|b c] l]; [done|by intros [[[] _] _]%Forall_cons|]. intros [[_ [Hc _]] _]%Forall_cons. simpl.
  intros [= ->]. set_solver.
Qed.

Lemma normalized_parts s :
  0 ∉ s → absolute (normalized s) = absolute s ∧ components (normalized s) = resolve (components s).
Proof.
  intros Hs. pose proof (resolve_forall clean _ (components_clean s Hs)) as Hc.
  pose proof (components_joined _ Hc) as Hj. pose proof (joined_head _ Hc) as Hh. unfold normalized.
  destruct (absolute s) eqn:Ha; simpl.
  - split; [done|]. by rewrite components_slash.
  - destruct (joined_text (resolve (components s))) as [|b t].
    + split; [done|]. by rewrite <- Hj.
    + split; [|done]. unfold absolute. by apply bool_decide_eq_false.
Qed.

(** ** The operations *)

Lemma join_parts_grants parts out first :
  wf_buffer out → Forall clean parts → Z.of_nat (length (content out)) + Z.of_nat (weight parts) < 2 ^ 61 →
  grants (join_parts out first parts) (λ b, wf_buffer b ∧ content b = content out ++ if first then joined_text parts else slashed parts).
Proof.
  revert out first. induction parts as [|c parts IH]; intros out first Hb Hc Hw; cbn [join_parts].
  { apply grants_ret. split; [done|]. destruct first; by rewrite app_nil_r. }
  apply Forall_cons in Hc as [(_ & _ & Hc0) Hc]. simpl in Hw.
  eapply (grants_bind _ _ (λ b, wf_buffer b ∧ content b = content out ++ if first then [] else [slash])).
  { destruct first; [apply grants_ret; by rewrite app_nil_r|].
    apply (add_text_grants out [slash]); [done|unfold room; simpl; clia|unfold slash; set_solver]. }
  intros b1 [Hb1 E1].
  assert (Z.of_nat (length (content b1)) + Z.of_nat (length c) + Z.of_nat (weight parts) < 2 ^ 61) as Hw1.
  { rewrite E1, length_app. destruct first; simpl; lia. }
  eapply grants_bind; [apply (add_text_grants b1 c); [done|unfold room; clia|done]|]. intros b2 [Hb2 E2].
  eapply grants_mono; [apply (IH b2 false); [done|done|rewrite E2, length_app; lia]|]. intros b3 [Hb3 E3]. split; [done|].
  rewrite E3, E2, E1, <- !(assoc (++)). by destruct first.
Qed.

Lemma path_normalize_grants p :
  0 ∉ p → Z.of_nat (length p) < 2 ^ 60 → grants (path_normalize p) (λ r, r = normalized p).
Proof.
  intros Hz Hl. unfold path_normalize. eapply (grants_bind _ _ (λ c, c = p)).
  { unfold copy_text. eapply grants_bind; [apply grants_alloc|]. intros _ _. apply grants_ret. by apply cstr_id. }
  intros ? ->. eapply grants_bind; [by apply normalize_loop_grants|]. intros ? ->. fold (resolve (components p)).
  pose proof (resolve_forall clean _ (components_clean p Hz)) as Hc. pose proof (weight_resolve p) as Hw.
  fold (absolute p).
  eapply (grants_bind _ _ (λ b, wf_buffer b ∧ content b = if absolute p then [slash] else [])).
  { destruct (absolute p); [|apply grants_ret; split; [by right|done]].
    apply (add_text_grants empty_buffer [slash]); [by right|unfold room; simpl; clia|unfold slash; set_solver]. }
  intros b1 [Hb1 E1]. eapply grants_bind.
  { apply (join_parts_grants (resolve (components p)) b1 true); [done|done|]. rewrite E1. destruct (absolute p); simpl; clia. }
  intros b2 [Hb2 E2]. rewrite E1 in E2. unfold normalized.
  eapply (grants_bind _ _ (λ b, wf_buffer b ∧ content b = normalized p ∧ content b ≠ [])).
  { unfold normalized. rewrite <- E2. destruct (Nat.eqb_spec (length (content b2)) 0) as [E3|E3].
    - apply nil_length_inv in E3. rewrite E3 in *. assert (absolute p = false) as -> by (by destruct (absolute p)).
      eapply grants_mono; [apply (add_text_grants b2 dot); [done|unfold room; rewrite E3; simpl; clia|decide_now]|].
      intros b3 [Hb3 E4]. rewrite E3 in E4. by rewrite E4.
    - apply grants_ret. split; [done|]. by destruct (content b2). }
  intros b3 (Hb3 & E3 & Hne). unfold buffer_data. destruct Hb3 as [Hcap| ->]; [|done].
  replace (capacity b3 =? 0) with false by lia. apply grants_ret. by rewrite E3.
Qed.

(** The text that is normalized when two paths are joined_text. *)
Definition concatenated (l r : list Z) : list Z :=
  match last l with Some c => l ++ (if c =? slash then [] else [slash]) ++ r | None => r end.

Lemma path_join_grants l r :
  0 ∉ l → 0 ∉ r → Z.of_nat (length l) < 2 ^ 58 → Z.of_nat (length r) < 2 ^ 58 →
  grants (path_join_text l r) (λ s, s = normalized (if absolute r then r else concatenated l r)).
Proof.
  intros Hl Hr Ll Lr. unfold path_join_text. fold (absolute r). destruct (absolute r); [apply path_normalize_grants; [done|clia]|].
  eapply grants_bind; [apply (add_text_grants empty_buffer l); [by right|unfold room; simpl; clia|done]|].
  intros b1 [Hb1 E1]. simpl in E1.
  eapply (grants_bind _ _ (λ b, wf_buffer b ∧ content b ++ r = concatenated l r ∧ (length (content b) ≤ length l + 1)%nat)).
  { rewrite E1. unfold concatenated. destruct (last l) as [c|] eqn:Hlast.
    - destruct (c =? slash).
      + apply grants_ret. split; [done|]. rewrite E1. simpl. split; [done|lia].
      + eapply grants_mono; [apply (add_text_grants b1 [slash]); [done|unfold room; rewrite E1; simpl; clia|unfold slash; set_solver]|].
        intros b [Hb E2]. split; [done|]. rewrite E2, E1, length_app, <- (assoc (++)). simpl. split; [done|lia].
    - apply last_None in Hlast as ->. apply grants_ret. split; [done|]. rewrite E1. split; [done|simpl; lia]. }
  intros b2 (Hb2 & E2 & L2). eapply grants_bind; [apply (add_text_capacity b2 r); [done|unfold room; clia|done]|].
  intros b3 [[Hb3 E3] Hcap]. rewrite E2 in E3. unfold buffer_data. replace (capacity b3 =? 0) with false by lia.
  rewrite E3. apply path_normalize_grants; [|rewrite <- E2, length_app; clia].
  unfold concatenated. case_match; [|done]. rewrite !not_elem_of_app. split_and!; [done| |done].
  destruct (_ =? _); [apply not_elem_of_nil|unfold slash; set_solver].
Qed.

(** C38: Normalizing a path gives the normal form of its components: the ones
    that are neither empty nor a dot, each [..] taking back the component before
    it, joined_text with single separators behind the separator of an absolute path;
    a path with no component left is the dot or the root.  Normal paths are
    fixed, and joining is normalizing the two texts with a separator between
    them, or the second alone when it is absolute. *)
Theorem path_normalize_exact p q :
  0 ∉ p → 0 ∉ q → Z.of_nat (length p) < 2 ^ 58 → Z.of_nat (length q) < 2 ^ 58 →
  run (path_normalize p) = Ret (normalized p) ∧
  run (path_join_text p q) = Ret (normalized (if absolute q then q else concatenated p q)) ∧
  absolute (normalized p) = absolute p ∧
  components (normalized p) = resolve (components p) ∧ settled (components (normalized p)) ∧
  normalized (normalized p) = normalized p.
Proof.
  intros Hp Hq Lp Lq. destruct (normalized_parts p Hp) as [Ha Hc].
  split; [apply grants_run, path_normalize_grants; [done|clia]|].
  split; [by apply grants_run, path_join_grants|]. split; [done|]. split; [done|]. rewrite Hc.
  split; [apply resolve_settled|]. unfold normalized at 1. rewrite Ha, Hc, resolve_fixed by apply resolve_settled.
  unfold normalized. done.
Qed.

Lemma path_normalize_exact_witness :
  run (path_join_text (str "src/vm/") (str "../lib//./x.c")) = Ret (str "src/lib/x.c") ∧
  normalized (normalized (str "src/vm/")) = normalized (str "src/vm/").
Proof.
  split; [vm_compute; reflexivity|].
  apply (path_normalize_exact (str "src/vm/") (str "../lib//./x.c")); [decide_now|decide_now|reflexivity|reflexivity].
Defined.

(** ** Refused memory *)

(** Looking for a suffix in the copy that was not made. *)
Lemma with_suffix_null : fst (path_with_suffix_text (str "a.c") (str ".o") [false]) = Undef.
Proof. reflexivity. Qed.

(** A join that could not copy its left operand answers with the right one. *)
Lemma join_drops_left : fst (path_join_text (str "a") (str "b") [false]) = Ret (str "b").
Proof. vm_compute. reflexivity. Qed.

(** A key is cut at a NUL instead of being refused. *)
Lemma environment_key_cut :
  run (environment_call (mkInvocation [] [str "HOME=/root"]) false (Str (text_of (str "HOME" ++ [0] ++ str "X")))) =
  Ret (Bool_ true).
Proof. vm_compute. reflexivity. Qed.
