(* ===== verification/HttpState.v ===== *)
(** * HTTP objects: src/src/vm/http_state.h, http_state.c and builtins_http_state.c

    Servers under construction and running, response writers, and the
    connections handed to request handlers.  A value only holds the identity of
    such an object; its state lives in a heap of its own, which operations
    change in place, so that two values with one identity see each other's
    changes. *)

From Stdlib Require Import ZArith Lia.
From stdpp Require Import prelude gmap strings.
From S2P Require Import Prelude Bigint Value Equal Program Collections.

(** ** Data *)

Inductive VMHttpPhase := HTTP_CREATED | HTTP_LISTENING | HTTP_CLOSING | HTTP_CLOSED | HTTP_DESTROYED.

#[global] Instance VMHttpPhase_eq_dec : EqDecision VMHttpPhase.
Proof. solve_decision. Defined.

Record VMHttpRoute := mkRoute { method : Value; path : Value; handler : Value }.

Record VMHttpState := mkState {
  phase : VMHttpPhase;
  contextual : bool;
  address : Value;
  port : Value;
  context : Value;
  fallback : option Value;
  routes : list VMHttpRoute;
  route_capacity : Z;
  admitted : nat;
  setup_error : option string;
  resource : option ref;
}.

Record VMHttpWriter := mkWriter {
  writer_ended : bool;
  completed : bool;
  response_status : Z;
  headers : Value;
  wire : option Value;
}.

(** [execution] is the identity of the execution a connection was given to;
    [client] the slot of the server that owns the socket. *)
Record VMHttpConnection := mkConnection {
  connection_ended : bool;
  connection_admitted : bool;
  connection_server : option ref;
  client : option nat;
  execution : option ref;
  writer : ref;
  body : list Z;
  body_capacity : Z;
}.

Record HttpHeap := mkHttp {
  states : gmap ref VMHttpState;
  writers : gmap ref VMHttpWriter;
  connections : gmap ref VMHttpConnection;
  next_object : ref;
}.

(** ** The monad of HTTP operations

    A failure keeps the changes made before it. *)
Definition H (A : Type) : Type := HttpHeap → allocator → outcome A * HttpHeap * allocator.

#[global] Instance H_ret : MRet H := λ A a h al, (Ret a, h, al).
#[global] Instance H_bind : MBind H := λ A B k m h al,
  match m h al with
  | (Ret a, h', al') => k a h' al'
  | (Trap f s, h', al') => (Trap f s, h', al')
  | (NoMem, h', al') => (NoMem, h', al')
  | (Undef, h', al') => (Undef, h', al')
  | (Diverge, h', al') => (Diverge, h', al')
  end.

Definition hlift {A} (m : M A) : H A := λ h al, let '(o, al') := m al in (o, h, al').
Definition hget : H HttpHeap := λ h al, (Ret h, h, al).
Definition hput (h : HttpHeap) : H unit := λ _ al, (Ret tt, h, al).
(** [vm->fault_kind = VM_FAULT_REQUEST; vm->error = message] *)
Definition request_fault {A} (message : string) : H A := hlift (trap VM_FAULT_REQUEST message).
(** [REQUIRE] *)
Definition hrequire {A} (test : bool) (message : string) (k : H A) : H A :=
  if test then k else hlift (trap VM_FAULT_FATAL message).
Definition harg (a : list Value) (i : nat) : H Value := hlift (rd a i).

Definition set_states (m : gmap ref VMHttpState) h := mkHttp m (writers h) (connections h) (next_object h).
Definition set_writers (m : gmap ref VMHttpWriter) h := mkHttp (states h) m (connections h) (next_object h).
Definition set_connections (m : gmap ref VMHttpConnection) h := mkHttp (states h) (writers h) m (next_object h).
Definition set_next (x : ref) h := mkHttp (states h) (writers h) (connections h) x.

(** Reading an object that a handle names; handles of objects that do not exist
    are NULL. *)
Definition put_state (x : ref) (s : VMHttpState) : H unit := h ← hget; hput (set_states (<[x:=s]> (states h)) h).
Definition put_writer (x : ref) (w : VMHttpWriter) : H unit := h ← hget; hput (set_writers (<[x:=w]> (writers h)) h).
Definition put_connection (x : ref) (c : VMHttpConnection) : H unit :=
  h ← hget; hput (set_connections (<[x:=c]> (connections h)) h).
Definition fresh_object : H ref := h ← hget; _ ← hput (set_next (Pos.succ (next_object h)) h); mret (next_object h).

(** ** Addresses *)

(** The digits of an octet: its value, how many there were and what follows. *)
Fixpoint octet_loop (text : list Z) (count : nat) (number : Z) : option (Z * nat * list Z) :=
  match text with
  | c :: rest =>
      if (48 <=? c) && (c <=? 57) then
        let number := number * 10 + (c - 48) in
        if (255 <? number) || Nat.ltb 3 (S count) then None else octet_loop rest (S count) number
      else Some (number, count, text)
  | [] => Some (number, count, [])
  end.

(** [n] octets are left to read. *)
Fixpoint octets (n : nat) (text : list Z) : bool :=
  match n with
  | O => bool_decide (text = [])
  | S n =>
      match octet_loop text 0 0 with
      | None => false
      | Some (_, count, rest) =>
          if Nat.eqb count 0 || (Nat.ltb 1 count && bool_decide (head text = Some 48)) then false
          else
            match n with
            | O => octets n rest
            | S _ => match rest with 46 :: rest => octets n rest | _ => false end
            end
      end
  end.

Definition valid_address (v : Value) : bool :=
  match v with Str t => octets 4 (data t) | _ => false end.

(** ** Servers *)

(** The first setup error stays. *)
Definition http_state_set_error (message : string) (s : VMHttpState) : VMHttpState :=
  mkState (phase s) (contextual s) (address s) (port s) (context s) (fallback s) (routes s)
    (route_capacity s) (admitted s) (match setup_error s with None => Some message | e => e end) (resource s).

Definition valid_port (v : Value) : bool :=
  match value_index v with Some n => negb (n =? 0) && (n <=? 65535) | None => false end.

Definition http_state_create (a p c : Value) : H VMHttpState :=
  _ ← hlift alloc;
  let s := mkState HTTP_CREATED false a p c None [] 0 0 None None in
  let s := if valid_address a then s else http_state_set_error "invalid IPv4 bind address" s in
  mret (if valid_port p then s else http_state_set_error "port must be in 1..65535" s).

Definition set_routes (l : list VMHttpRoute) (capacity : Z) (s : VMHttpState) : VMHttpState :=
  mkState (phase s) (contextual s) (address s) (port s) (context s) (fallback s) l capacity (admitted s)
    (setup_error s) (resource s).
Definition set_fallback (v : Value) (s : VMHttpState) : VMHttpState :=
  mkState (phase s) (contextual s) (address s) (port s) (context s) (Some v) (routes s) (route_capacity s)
    (admitted s) (setup_error s) (resource s).
Definition set_admitted (n : nat) (s : VMHttpState) : VMHttpState :=
  mkState (phase s) (contextual s) (address s) (port s) (context s) (fallback s) (routes s) (route_capacity s)
    n (setup_error s) (resource s).

Definition same_route (m p : Value) (r : VMHttpRoute) : bool :=
  value_equal m (method r) && value_equal p (path r).

Definition sizeof_VMHttpRoute : Z := 24.

(** The bytes of a [V_STR]. *)
Definition text_data (v : Value) : list Z := match v with Str t => data t | _ => [] end.

Definition grow_routes (s : VMHttpState) : M VMHttpState :=
  if Z.of_nat (length (routes s)) =? route_capacity s then
    let capacity := if route_capacity s =? 0 then 8 else u64 (route_capacity s * 2) in
    if (capacity <? route_capacity s) || (SIZE_MAX / sizeof_VMHttpRoute <? capacity) then nomem
    else _ ← alloc; mret (set_routes (routes s) capacity s)
  else mret s.

Definition http_state_register (m p g : Value) (s : VMHttpState) : M VMHttpState :=
  match text_data m with
  | [] =>
      match fallback s with
      | Some _ => mret (http_state_set_error "duplicate fallback" s)
      | None => mret (set_fallback g s)
      end
  | _ =>
      if existsb (same_route m p) (routes s)
      then mret (http_state_set_error "duplicate method and path" s)
      else
        s ← grow_routes s;
        mret (set_routes (routes s ++ [mkRoute m p g]) (route_capacity s) s)
  end.

Definition http_writer_create : H VMHttpWriter :=
  _ ← hlift alloc;
  v ← hlift (value_sequence V_ARRAY []);
  mret (mkWriter false false 200 v None).

(** ** Connections *)

Definition end_writer (w : VMHttpWriter) : VMHttpWriter :=
  mkWriter true (completed w) (response_status w) (headers w) (wire w).

(** The server of a connection gets its admission back. *)
Definition http_connection_end (x : ref) (h : HttpHeap) : HttpHeap :=
  match connections h !! x with
  | None => h
  | Some c =>
      let h :=
        match connection_server c with
        | Some y =>
            if connection_admitted c
            then set_states (alter (λ s, set_admitted (admitted s - 1) s) y (states h)) h else h
        | None => h
        end in
      let kept := match connection_server c with Some _ => false | None => connection_admitted c end in
      let h := set_connections (<[x := mkConnection true kept None None None (writer c) (body c)
                                        (body_capacity c)]> (connections h)) h in
      set_writers (alter end_writer (writer c) (writers h)) h
  end.

(** The connection a server makes for a client whose request it starts to
    handle ([start_handler] of tcp_server.c). *)
Definition http_connection_create (server : ref) (slot : nat) : H Value :=
  _ ← hlift alloc;
  _ ← hlift alloc;
  _ ← hlift alloc;
  w ← http_writer_create;
  y ← fresh_object;
  _ ← put_writer y w;
  x ← fresh_object;
  _ ← put_connection x (mkConnection false false (Some server) (Some slot) None y [] 0);
  mret (HttpConnection x).

(** ** Builtins *)

Definition unit_value : H Value := hlift value_unit.

(** [a[0]->kind == V_HTTP_STATE && a[0]->as.http_state] *)
Definition state_of (v : Value) (h : HttpHeap) : option (ref * VMHttpState) :=
  match v with HttpState x => s ← states h !! x; Some (x, s) | _ => None end.
Definition writer_of (v : Value) (h : HttpHeap) : option (ref * VMHttpWriter) :=
  match v with HttpWriter x => w ← writers h !! x; Some (x, w) | _ => None end.
Definition connection_of (v : Value) (h : HttpHeap) : option (ref * VMHttpConnection) :=
  match v with HttpConnection x => c ← connections h !! x; Some (x, c) | _ => None end.

Definition setup_error_value (s : VMHttpState) : M Value :=
  match setup_error s with
  | Some e => m ← value_data V_STR (str e); named_value V_VARIANT (str "Some") [] [m]
  | None => named_value V_VARIANT (str "None") [] []
  end.

Definition http_state_create_call (a : list Value) : H Value :=
  a0 ← harg a 0; a1 ← harg a 1; a2 ← harg a 2;
  hrequire (is_kind a0 V_STR && is_kind a1 V_NAT) "VM trap: invalid HTTP state constructor operands" (
    _ ← hlift alloc;
    s ← http_state_create a0 a1 a2;
    x ← fresh_object;
    _ ← put_state x s;
    mret (HttpState x)).

Definition builtins_http_state_call (name : list Z) (a : list Value) : H Value :=
  if is_name name "http_state_create" then http_state_create_call a
  else
    a0 ← harg a 0;
    h ← hget;
    match state_of a0 h with
    | None => hlift (trap VM_FAULT_FATAL "VM trap: invalid HTTP server handle")
    | Some (x, s) =>
        if is_name name "http_state_context" then mret (context s)
        else if is_name name "http_state_setup_error" then hlift (setup_error_value s)
        else if negb (bool_decide (phase s = HTTP_CREATED))
        then request_fault "VM trap: HTTP registration requires a Created server"
        else if is_name name "http_state_fail_setup" then
          _ ← put_state x (http_state_set_error "invalid route URI reference" s); unit_value
        else if is_name name "http_state_register" then
          a1 ← harg a 1; a2 ← harg a 2; a3 ← harg a 3;
          hrequire (is_kind a1 V_STR && is_kind a2 V_STR && is_kind a3 V_STR)
            "VM trap: invalid HTTP registration operands" (
            s ← hlift (http_state_register a1 a2 a3 s); _ ← put_state x s; unit_value)
        else hlift (trap VM_FAULT_FATAL "VM trap: unknown HTTP state operation")
    end.

(** A pair of strings. *)
Definition header_pair (v : Value) : bool :=
  match v with Array [n; c] => is_kind n V_STR && is_kind c V_STR | _ => false end.

Definition set_response_status (n : Z) (w : VMHttpWriter) :=
  mkWriter (writer_ended w) (completed w) n (headers w) (wire w).
Definition set_headers (v : Value) (w : VMHttpWriter) :=
  mkWriter (writer_ended w) (completed w) (response_status w) v (wire w).
Definition commit (v : Value) (w : VMHttpWriter) :=
  mkWriter (writer_ended w) true (response_status w) (headers w) (Some v).

Definition builtins_http_writer_call (name : list Z) (a : list Value) : H Value :=
  a0 ← harg a 0;
  h ← hget;
  match writer_of a0 h with
  | None => hlift (trap VM_FAULT_FATAL "VM trap: invalid HTTP response writer")
  | Some (x, w) =>
      if writer_ended w then request_fault "VM trap: HTTP response writer has expired"
      else if is_name name "http_writer_get_status" then hlift (value_size (response_status w))
      else if is_name name "http_writer_get_headers" then mret (headers w)
      else if completed w then request_fault "VM trap: HTTP response already completed"
      else if is_name name "http_writer_reject" then request_fault "VM trap: invalid HTTP response"
      else if is_name name "http_writer_status" then
        a1 ← harg a 1;
        hrequire (is_kind a1 V_NAT) "VM trap: invalid HTTP status operand" (
          match value_index a1 with
          | Some n =>
              if (n <? 200) || (599 <? n) then request_fault "VM trap: HTTP status must be in 200..599"
              else _ ← put_writer x (set_response_status n w); unit_value
          | None => request_fault "VM trap: HTTP status must be in 200..599"
          end)
      else if is_name name "http_writer_headers" then
        a1 ← harg a 1;
        match a1 with
        | Array l =>
            hrequire (forallb header_pair l) "VM trap: invalid HTTP header pair" (
              _ ← put_writer x (set_headers a1 w); unit_value)
        | _ => hlift (trap VM_FAULT_FATAL "VM trap: invalid HTTP headers operand")
        end
      else if is_name name "http_writer_commit" then
        a1 ← harg a 1;
        hrequire (is_kind a1 V_BYTES) "VM trap: invalid HTTP wire operand" (
          _ ← put_writer x (commit a1 w); unit_value)
      else hlift (trap VM_FAULT_FATAL "VM trap: unknown HTTP writer operation")
  end.

(** The connection of a handle, for the execution [e] that uses it
    ([vm->execution]), and its server. *)
Definition http_live_connection (e : option ref) (v : Value) : H (ref * VMHttpConnection * ref) :=
  h ← hget;
  match connection_of v h with
  | None => hlift (trap VM_FAULT_FATAL "VM trap: invalid HTTP connection handle")
  | Some (x, c) =>
      match connection_server c with
      | Some y =>
          if connection_ended c || negb (bool_decide (execution c = e))
          then request_fault "VM trap: HTTP connection has expired or belongs to another request"
          else mret (x, c, y)
      | None => request_fault "VM trap: HTTP connection has expired or belongs to another request"
      end
  end.

Definition http_bytes_slice_call (a : list Value) : H Value :=
  a0 ← harg a 0; a1 ← harg a 1; a2 ← harg a 2;
  match a0 with
  | Bytes bytes =>
      hrequire (is_kind a1 V_NAT && is_kind a2 V_NAT) "VM trap: invalid HTTP byte slice operands" (
        match value_index a1, value_index a2 with
        | Some i, Some j =>
            if (j <? i) || (Z.of_nat (length bytes) <? j) then request_fault "VM trap: invalid HTTP byte slice"
            else hlift (value_data V_BYTES (take (Z.to_nat (j - i)) (drop (Z.to_nat i) bytes)))
        | _, _ => request_fault "VM trap: invalid HTTP byte slice"
        end)
  | _ => hlift (trap VM_FAULT_FATAL "VM trap: invalid HTTP byte slice operands")
  end.

Definition BODY_LIMIT : Z := 1048576.

(** [while (capacity < required) capacity *= 2] *)
Fixpoint double_until (fuel : nat) (capacity required : Z) : M Z :=
  if capacity <? required then
    match fuel with O => diverge | S f => double_until f (u64 (capacity * 2)) required end
  else mret capacity.

Definition body_room (c : VMHttpConnection) (required : Z) : M Z :=
  if body_capacity c <? required then
    capacity ← double_until 64 (if body_capacity c =? 0 then 16384 else body_capacity c) required;
    _ ← alloc;
    mret capacity
  else mret (body_capacity c).

Definition set_body (l : list Z) (capacity : Z) (c : VMHttpConnection) : VMHttpConnection :=
  mkConnection (connection_ended c) (connection_admitted c) (connection_server c) (client c) (execution c)
    (writer c) l capacity.
Definition admit_connection (c : VMHttpConnection) : VMHttpConnection :=
  mkConnection (connection_ended c) true (connection_server c) (client c) (execution c) (writer c) (body c)
    (body_capacity c).

Definition http_body_append_call (x : ref) (c : VMHttpConnection) (a : list Value) : H Value :=
  a1 ← harg a 1; a2 ← harg a 2; a3 ← harg a 3;
  match a1 with
  | Bytes bytes =>
      hrequire (connection_admitted c && is_kind a2 V_NAT && is_kind a3 V_NAT)
        "VM trap: invalid HTTP body append operands" (
        match value_index a2, value_index a3 with
        | Some i, Some j =>
            hrequire ((i <=? j) && (j <=? Z.of_nat (length bytes))) "VM trap: invalid HTTP body range" (
              let used := Z.of_nat (length (body c)) in
              if BODY_LIMIT - used <? j - i then hlift (value_bool false)
              else
                capacity ← hlift (body_room c (used + (j - i)));
                _ ← put_connection x
                      (set_body (body c ++ take (Z.to_nat (j - i)) (drop (Z.to_nat i) bytes)) capacity c);
                hlift (value_bool true))
        | _, _ => hlift (trap VM_FAULT_FATAL "VM trap: invalid HTTP body range")
        end)
  | _ => hlift (trap VM_FAULT_FATAL "VM trap: invalid HTTP body append operands")
  end.

Definition ADMISSION_LIMIT : nat := 4.

Definition http_connection_admit_call (x y : ref) (c : VMHttpConnection) (s : VMHttpState) : H Value :=
  if connection_admitted c then hlift (value_bool true)
  else if Nat.eqb (admitted s) ADMISSION_LIMIT then hlift (value_bool false)
  else
    _ ← put_connection x (admit_connection c);
    _ ← put_state y (set_admitted (S (admitted s)) s);
    hlift (value_bool true).

(** The method and path of every route, in order. *)
Fixpoint routes_loop (l : list VMHttpRoute) (items : list Value) : M Value :=
  match l with
  | [] => mret (Array items)
  | r :: l =>
      pair ← value_sequence V_ARRAY [method r; path r];
      next ← array_append items pair;
      routes_loop l (items_of next)
  end.
Definition http_connection_routes_call (s : VMHttpState) : M Value :=
  _ ← value_sequence V_ARRAY [];
  routes_loop (routes s) [].

Definition builtins_http_connection_call (e : option ref) (name : list Z) (a : list Value) : H Value :=
  if is_name name "http_bytes_slice" then http_bytes_slice_call a
  else
    a0 ← harg a 0;
    '(x, c, y) ← http_live_connection e a0;
    h ← hget;
    match states h !! y with
    | None => hlift undef
    | Some s =>
        if is_name name "http_body_size" then hlift (value_size (Z.of_nat (length (body c))))
        else if is_name name "http_body" then hlift (value_data V_BYTES (body c))
        else if is_name name "http_body_append" then http_body_append_call x c a
        else if is_name name "http_connection_writer" then mret (HttpWriter (writer c))
        else if is_name name "http_connection_fallback" then
          hlift (value_bool (bool_decide (is_Some (fallback s))))
        else if is_name name "http_connection_admit" then http_connection_admit_call x y c s
        else if is_name name "http_connection_routes" then hlift (http_connection_routes_call s)
        else hlift (trap VM_FAULT_FATAL "VM trap: unknown HTTP connection operation")
    end.

(** The route a selection names; [None] for no selection of the right shape. *)
Definition selected_handler (s : VMHttpState) (name : list Z) (values : list Value) : M (option Value) :=
  if is_name name "None" && bool_decide (values = []) then mret (fallback s)
  else if is_name name "Some" then
    match values with
    | [i] =>
        match value_index i with
        | Some n =>
            match routes s !! Z.to_nat n with
            | Some r => mret (Some (handler r))
            | None => trap VM_FAULT_FATAL "VM trap: invalid HTTP route index"
            end
        | None => trap VM_FAULT_FATAL "VM trap: invalid HTTP route index"
        end
    | _ => mret None
    end
  else mret None.

(** The first function whose name has the bytes of the handler. *)
Definition handler_function (p : Program) (bytes : list Z) : option Function :=
  find (λ g, Nat.eqb (strlen (fname g)) (length bytes) && bool_decide (cstr (fname g) = bytes)) (functions p).

Definition http_connection_handler (p : Program) (e : option ref) (a : list Value) : H (Function * list Value) :=
  a0 ← harg a 0;
  '(x, c, y) ← http_live_connection e a0;
  hrequire (connection_admitted c) "VM trap: HTTP handler invoked without admission" (
    a1 ← harg a 1;
    match a1 with
    | Variant name values =>
        h ← hget;
        match states h !! y with
        | None => hlift undef
        | Some s =>
            selected ← hlift (selected_handler s name values);
            match selected with
            | Some (Str t) =>
                match handler_function p (data t) with
                | Some g =>
                    hrequire (is_async g && negb (pure g) &&
                              Nat.eqb (length (params g)) (if contextual s then 3 else 2))
                      "VM trap: invalid HTTP handler effect or arity" (
                      a2 ← harg a 2; a3 ← harg a 3;
                      mret (g, (if contextual s then [context s] else []) ++ [a2; a3]))
                | None => hlift (trap VM_FAULT_FATAL "VM trap: invalid HTTP handler effect or arity")
                end
            | _ => hlift (trap VM_FAULT_FATAL "VM trap: missing HTTP handler")
            end
        end
    | _ => hlift (trap VM_FAULT_FATAL "VM trap: invalid HTTP route selection")
    end).
