(* ===== verification/HttpObjects.v ===== *)
(** * HTTP objects: addresses, routes, admission and expiry

    The invariant of the heap of HTTP objects, kept by every operation whatever
    its arguments and however it ends; what a bind address is; which function
    handles a request; and that expired handles change nothing. *)

From Stdlib Require Import ZArith Lia.
From stdpp Require Import prelude gmap strings relations.
From S2P Require Import Prelude Bigint Digits Value Equal Numeric Program Collections HttpState.

(** ** Computations that always answer *)

Definition answers {A} (m : M A) : Prop := ∀ al, match fst (m al) with Undef | Diverge => False | _ => True end.

Lemma answers_runs {A} (m : M A) P E : runs m P E → answers m.
Proof. intros H al. destruct (H al) as (u & _ & Ho). by destruct (fst (m al)). Qed.
Lemma answers_ret {A} (a : A) : answers (mret a).
Proof. done. Qed.
Lemma answers_trap {A} k s : answers (trap k s : M A).
Proof. done. Qed.
Lemma answers_nomem {A} : answers (nomem : M A).
Proof. done. Qed.
Lemma answers_alloc : answers alloc.
Proof. by eapply (answers_runs _ _ no_trap), runs_alloc. Qed.
Lemma answers_calloc n : answers (calloc_items n).
Proof. by eapply (answers_runs _ _ no_trap), runs_calloc. Qed.
Lemma answers_bind {A B} (m : M A) (k : A → M B) : answers m → (∀ a, answers (k a)) → answers (x ← m; k x).
Proof.
  intros Hm Hk al. unfold mbind, M_bind. specialize (Hm al). destruct (m al) as [[] al']; try done. apply Hk.
Qed.
Create HintDb answers discriminated.
Hint Resolve answers_ret answers_trap answers_nomem answers_alloc answers_calloc : answers.
Ltac answers :=
  repeat match goal with
  | |- answers (mbind _ _) => apply answers_bind; [|intros ?]
  | |- answers (if ?b then _ else _) => destruct b
  | |- answers (match ?x with _ => _ end) => destruct x
  | |- answers _ => solve [auto with answers]
  end.

Lemma value_bool_answers b : answers (value_bool b).
Proof. unfold value_bool. answers. Qed.
Lemma value_unit_answers : answers value_unit.
Proof. unfold value_unit. answers. Qed.
Lemma value_data_answers k s : k = V_STR ∨ k = V_BYTES → answers (value_data k s).
Proof. intros [-> | ->]; unfold value_data; answers. Qed.
Lemma value_sequence_answers l : answers (value_sequence V_ARRAY l).
Proof. unfold value_sequence. answers. Qed.
Lemma variant_answers n l : answers (named_value V_VARIANT n [] l).
Proof. unfold named_value, copy_text. answers. Qed.
Lemma array_append_answers l v : answers (array_append l v).
Proof. unfold array_append. answers. Qed.
Lemma value_size_answers n : 0 ≤ n < 2 ^ 64 → answers (value_size n).
Proof.
  intros Hn. eapply (answers_runs _ (λ _, True) no_trap). unfold value_size.
  eapply runs_bind; [by apply from_u64_spec|]. intros b (Wb & _ & Sb).
  apply value_big_spec; [eapply sized_mono; [done|clia]|done].
Qed.
Hint Resolve value_bool_answers value_unit_answers value_sequence_answers variant_answers array_append_answers
  : answers.

(** ** The invariant *)

Definition is_text (v : Value) : Prop := kind v = V_STR.
Definition route_key (r : VMHttpRoute) : list Z * list Z := (text_data (method r), text_data (path r)).

(** A server: room for its routes, one route for each method and path, names as
    handlers, and an address and a port it can bind unless setup failed. *)
Record state_ok (s : VMHttpState) : Prop := {
  ok_room : Z.of_nat (length (routes s)) ≤ route_capacity s ≤ 2 ^ 60;
  ok_routes : Forall (λ r, is_text (method r) ∧ text_data (method r) ≠ [] ∧ is_text (path r) ∧ is_text (handler r))
                (routes s);
  ok_keys : NoDup (route_key <$> routes s);
  ok_fallback v : fallback s = Some v → is_text v;
  ok_setup : setup_error s = None → valid_address (address s) = true ∧ valid_port (port s) = true;
  ok_admitted : (admitted s ≤ ADMISSION_LIMIT)%nat;
}.

(** A response: a status of a final response, headers that are pairs of strings,
    and bytes exactly once it is completed. *)
Record writer_ok (w : VMHttpWriter) : Prop := {
  ok_status : 200 ≤ response_status w ≤ 599;
  ok_headers : ∃ l, headers w = Array l ∧ forallb header_pair l = true;
  ok_wire : if completed w then ∃ b, wire w = Some (Bytes b) else wire w = None;
}.

(** A connection: it has a server exactly until it ends, and a body within its
    buffer and the limit. *)
Record connection_ok (h : HttpHeap) (c : VMHttpConnection) : Prop := {
  ok_server y : connection_server c = Some y → is_Some (states h !! y);
  ok_ended : connection_ended c = bool_decide (connection_server c = None);
  ok_writer : is_Some (writers h !! writer c);
  ok_body : Z.of_nat (length (body c)) ≤ BODY_LIMIT;
  ok_capacity : Z.of_nat (length (body c)) ≤ body_capacity c;
  ok_buffer : body_capacity c = 0 ∨ 16384 ≤ body_capacity c < 2 * BODY_LIMIT;
}.

(** The admissions a server has out: its connections that were admitted. *)
Definition holds_admission (y : ref) (c : VMHttpConnection) : nat :=
  if connection_admitted c && bool_decide (connection_server c = Some y) then 1 else 0.
Definition admissions (h : HttpHeap) (y : ref) : nat := sumf (holds_admission y) (connections h).

Record http_ok (h : HttpHeap) : Prop := {
  http_states y s : states h !! y = Some s → state_ok s ∧ admitted s = admissions h y;
  http_writers y w : writers h !! y = Some w → writer_ok w;
  http_connections x c : connections h !! x = Some c → connection_ok h c;
  http_fresh (x : ref) : (next_object h ≤ x)%positive →
    states h !! x = None ∧ writers h !! x = None ∧ connections h !! x = None;
}.

(** ** Specifications of HTTP operations *)

(** Started in [h], the operation ends in a state that satisfies [Q], or in
    failure with the invariant; it never reaches undefined behaviour. *)
Definition hends {A} (m : H A) (h : HttpHeap) (Q : A → HttpHeap → Prop) : Prop :=
  ∀ al, match m h al with
        | (Ret a, h', _) => Q a h'
        | (Trap _ _, h', _) | (NoMem, h', _) => http_ok h'
        | _ => False
        end.

Lemma hends_ret {A} (a : A) h (Q : A → HttpHeap → Prop) : Q a h → hends (mret a) h Q.
Proof. intros HQ al. done. Qed.
Lemma hends_bind {A B} (m : H A) (k : A → H B) h P Q :
  hends m h P → (∀ a h', P a h' → hends (k a) h' Q) → hends (x ← m; k x) h Q.
Proof.
  intros Hm Hk al. unfold mbind, H_bind. specialize (Hm al). destruct (m h al) as [[[] h'] al']; try done.
  by apply Hk.
Qed.
Lemma hends_mono {A} (m : H A) h (P Q : A → HttpHeap → Prop) :
  hends m h P → (∀ a h', P a h' → Q a h') → hends m h Q.
Proof. intros Hm HPQ al. specialize (Hm al). destruct (m h al) as [[[] h'] al']; try done. by apply HPQ. Qed.
Lemma hends_lift {A} (m : M A) h (P : A → Prop) (Q : A → HttpHeap → Prop) :
  http_ok h → answers m → yields m P → (∀ a, P a → Q a h) → hends (hlift m) h Q.
Proof.
  intros Hok Ha Hy HQ al. unfold hlift. specialize (Ha al). specialize (Hy al).
  destruct (m al) as [[] al']; try done. by apply HQ.
Qed.
Lemma hends_any {A} (m : M A) h (Q : A → HttpHeap → Prop) :
  http_ok h → answers m → (∀ a, Q a h) → hends (hlift m) h Q.
Proof. intros. eapply hends_lift; [done..|apply yields_any|]. auto. Qed.
Lemma hends_trap {A} k s h (Q : A → HttpHeap → Prop) : http_ok h → hends (hlift (trap k s)) h Q.
Proof. intros Hok al. done. Qed.
Lemma hends_require {A} (b : bool) s (k : H A) h Q :
  http_ok h → (b = true → hends k h Q) → hends (hrequire b s k) h Q.
Proof. intros Hok Hk. unfold hrequire. destruct b; [auto|by apply hends_trap]. Qed.
Lemma hends_arg a i v h (Q : Value → HttpHeap → Prop) : a !! i = Some v → Q v h → hends (harg a i) h Q.
Proof. intros Hi HQ al. unfold harg, rd, hlift. by rewrite Hi. Qed.

(** What follows a step that changes the heap in a known way. *)
Lemma hends_then {A B} (m : H A) (k : A → H B) h a h' Q :
  (∀ al, m h al = (Ret a, h', al)) → hends (k a) h' Q → hends (x ← m; k x) h Q.
Proof. intros Hm Hk. eapply (hends_bind m k h (λ b g, b = a ∧ g = h')); [intros al; by rewrite Hm|]. by intros ? ? [-> ->]. Qed.
Lemma hends_get {B} (k : HttpHeap → H B) h Q : hends (k h) h Q → hends (h' ← hget; k h') h Q.
Proof. by apply hends_then. Qed.
Lemma hends_put_state {B} x s (k : () → H B) h Q :
  hends (k tt) (set_states (<[x:=s]> (states h)) h) Q → hends (y ← put_state x s; k y) h Q.
Proof. by apply hends_then. Qed.
Lemma hends_put_writer {B} x w (k : () → H B) h Q :
  hends (k tt) (set_writers (<[x:=w]> (writers h)) h) Q → hends (y ← put_writer x w; k y) h Q.
Proof. by apply hends_then. Qed.
Lemma hends_put_connection {B} x c (k : () → H B) h Q :
  hends (k tt) (set_connections (<[x:=c]> (connections h)) h) Q → hends (y ← put_connection x c; k y) h Q.
Proof. by apply hends_then. Qed.
Lemma hends_fresh {B} (k : ref → H B) h Q :
  hends (k (next_object h)) (set_next (Pos.succ (next_object h)) h) Q → hends (x ← fresh_object; k x) h Q.
Proof. by apply hends_then. Qed.
Lemma hends_then_any {A B} (m : M A) (k : A → H B) h Q :
  http_ok h → answers m → (∀ a, hends (k a) h Q) → hends (x ← hlift m; k x) h Q.
Proof.
  intros Hok Ha Hk. eapply hends_bind; [apply (hends_any m h (λ _ h', h' = h)); done|]. by intros a ? ->.
Qed.

(** ** Changes of one object *)

Lemma put_state_ok h x s s' :
  http_ok h → states h !! x = Some s → state_ok s' → admitted s' = admitted s →
  http_ok (set_states (<[x:=s']> (states h)) h).
Proof.
  intros [Hs Hw Hc Hf] Hx Hs' Ha. split; simpl; [|done| |].
  - intros y t. rewrite lookup_insert_Some. intros [[<- <-]|[_ Ht]]; [|by apply Hs].
    split; [done|]. rewrite Ha. by apply Hs.
  - intros y c Hy. destruct (Hc y c Hy) as [H1 H2 H3 H4 H5 H6]. split; try done. intros z Hz. simpl.
    destruct (decide (x = z)) as [->|]; [rewrite lookup_insert_eq; eauto|]. rewrite lookup_insert_ne by done. eauto.
  - intros y Hy. destruct (Hf y Hy) as (? & ? & ?). split_and!; [|done..]. rewrite lookup_insert_ne; congruence.
Qed.

Lemma put_writer_ok h x w w' :
  http_ok h → writers h !! x = Some w → writer_ok w' → http_ok (set_writers (<[x:=w']> (writers h)) h).
Proof.
  intros [Hs Hw Hc Hf] Hx Hw'. split; simpl; [done| | |].
  - intros y t. rewrite lookup_insert_Some. intros [[<- <-]|[_ Ht]]; [done|by eapply Hw].
  - intros y c Hy. destruct (Hc y c Hy) as [H1 H2 H3 H4 H5 H6]. split; try done. simpl.
    destruct (decide (x = writer c)) as [->|]; [rewrite lookup_insert_eq; eauto|]. by rewrite lookup_insert_ne.
  - intros y Hy. destruct (Hf y Hy) as (? & ? & ?). split_and!; [done| |done]. rewrite lookup_insert_ne; congruence.
Qed.

Lemma put_connection_ok h x c c' :
  http_ok h → connections h !! x = Some c → connection_ok h c' →
  (∀ y, holds_admission y c' = holds_admission y c) →
  http_ok (set_connections (<[x:=c']> (connections h)) h).
Proof.
  intros [Hs Hw Hc Hf] Hx Hc' Ha. split; simpl; [|done| |].
  - intros y s Hy. destruct (Hs y s Hy) as [? Had]. split; [done|]. rewrite Had. unfold admissions. simpl.
    pose proof (sumf_update (holds_admission y) _ _ _ c' Hx) as E. rewrite Ha in E. lia.
  - intros y d. rewrite lookup_insert_Some. intros [[<- <-]|[_ Hy]]; [by destruct Hc'|].
    by destruct (Hc y d Hy).
  - intros y Hy. destruct (Hf y Hy) as (? & ? & ?). split_and!; [done..|]. rewrite lookup_insert_ne; congruence.
Qed.

(** ** Servers *)

Lemma set_error_ok m s : state_ok s → state_ok (http_state_set_error m s).
Proof. intros [H1 H2 H3 H4 H5 H6]. split; simpl; try done. by destruct (setup_error s). Qed.

Lemma state_create_ok a p c h :
  http_ok h → hends (http_state_create a p c) h (λ s h', h' = h ∧ state_ok s ∧ admitted s = 0%nat).
Proof.
  intros Hok. unfold http_state_create. eapply hends_bind; [apply (hends_any alloc h (λ _ h', h' = h)); [done|apply answers_alloc|done]|].
  intros _ ? ->. apply hends_ret. split; [done|].
  destruct (valid_address a) eqn:Ha, (valid_port p) eqn:Hp; simpl;
    (split; [split; simpl; try done; try lia; apply NoDup_nil_2|done]).
Qed.

Lemma is_text_inv v : is_text v → ∃ t, v = Str t.
Proof. destruct v; try done. eauto. Qed.

Lemma same_route_key m p r :
  is_text m → is_text p → is_text (method r) → is_text (path r) →
  same_route m p r = bool_decide (route_key r = (text_data m, text_data p)).
Proof.
  unfold same_route, route_key. intros [? ->]%is_text_inv [? ->]%is_text_inv [? ->]%is_text_inv [? ->]%is_text_inv.
  simpl. rewrite !same_bytes_spec, <- bool_decide_and. apply bool_decide_ext. split.
  - by intros [-> ->].
  - by intros [= -> ->].
Qed.

Lemma grow_routes_ok s :
  state_ok s → answers (grow_routes s) ∧ yields (grow_routes s) (λ s', ∃ n,
    s' = set_routes (routes s) n s ∧ Z.of_nat (length (routes s)) < n ≤ 2 ^ 60).
Proof.
  intros [Hr _ _ _ _ _]. unfold grow_routes. split.
  { destruct (_ =? _); answers. }
  destruct (Z.eqb_spec (Z.of_nat (length (routes s))) (route_capacity s)) as [E|E].
  - destruct (_ || _) eqn:Hc; [done|]. apply orb_false_iff in Hc as [Hc1%Z.ltb_ge Hc2%Z.ltb_ge].
    eapply yields_bind; [apply yields_any|]. intros _ _. apply yields_ret. eexists. split; [done|].
    unfold SIZE_MAX, sizeof_VMHttpRoute in Hc2.
    assert ((2 ^ 64 - 1) / 24 ≤ 2 ^ 60) by (by vm_compute).
    destruct (Z.eqb_spec (route_capacity s) 0) as [E0|E0]; [lia|].
    rewrite u64_small in * by clia. lia.
  - apply yields_ret. exists (route_capacity s). split; [by destruct s|]. lia.
Qed.

Lemma register_ok m p g s :
  state_ok s → is_text m → is_text p → is_text g →
  answers (http_state_register m p g s) ∧
  yields (http_state_register m p g s) (λ s', state_ok s' ∧ admitted s' = admitted s).
Proof.
  intros Hs Hm Hp Hg. destruct (grow_routes_ok s Hs) as [Ha Hy]. unfold http_state_register.
  destruct (text_data m) as [|c cs] eqn:Hd.
  { destruct (fallback s) eqn:Hf; (split; [answers|]); apply yields_ret; (split; [|done]); [by apply set_error_ok|].
    destruct Hs as [H1 H2 H3 H4 H5 H6]. split; simpl; try done. by intros v [= <-]. }
  destruct (existsb _ _) eqn:He; [split; [answers|]; apply yields_ret; split; [by apply set_error_ok|done]|].
  split; [apply answers_bind; [done|intros; apply answers_ret]|].
  eapply (yields_bind (grow_routes s)); [apply Hy|]. intros s' (n & -> & Hn). apply yields_ret. simpl. split; [|done].
  destruct Hs as [H1 H2 H3 H4 H5 H6]. split; simpl; try done.
  - rewrite length_app. simpl. lia.
  - apply Forall_app. split; [done|]. apply Forall_singleton. simpl. rewrite Hd. done.
  - rewrite fmap_app. simpl. apply NoDup_app. split_and!; [done| |apply NoDup_singleton].
    intros k Hk ->%list_elem_of_singleton. apply list_elem_of_fmap in Hk as (r & Hr & Hin).
    rewrite Forall_forall in H2. destruct (H2 r Hin) as (? & _ & ? & _).
    assert (existsb (same_route m p) (routes s) = true); [|congruence].
    apply existsb_exists. exists r. split; [by apply list_elem_of_In|].
    rewrite same_route_key, bool_decide_true by done. done.
Qed.

(** ** Arguments *)

Lemma is_name_eq name s s' : is_name name s = true → is_name name s' = is_name (str s) s'.
Proof. unfold is_name. rewrite !streq_cstr. intros H%bool_decide_eq_true. by rewrite H. Qed.

(** The arities of the registry. *)
Definition http_arity (name : list Z) : nat :=
  if is_name name "http_state_create" || is_name name "http_bytes_slice" then 3
  else if is_name name "http_state_register" || is_name name "http_body_append" then 4
  else if is_name name "http_writer_status" || is_name name "http_writer_headers" ||
          is_name name "http_writer_commit" then 2
  else 1.

Lemma arity_of name s : is_name name s = true → http_arity name = http_arity (str s).
Proof. intros Hn. unfold http_arity. by rewrite !(is_name_eq name s _ Hn). Qed.

Lemma arity_pos name : (1 ≤ http_arity name)%nat.
Proof. unfold http_arity. repeat case_match; lia. Qed.

Lemma arg_exists {A} (a : list A) n i : (n ≤ length a)%nat → (i < n)%nat → ∃ v, a !! i = Some v.
Proof. intros. apply lookup_lt_is_Some_2. lia. Qed.

Lemma is_kind_text v : is_kind v V_STR = true → is_text v.
Proof. unfold is_kind, is_text. by intros ?%bool_decide_eq_true. Qed.

(** Steps of a call: an argument by its position, a read of the heap, a guard, a
    diagnostic, and the computations that leave the heap as it is. *)
Ltac hstep :=
  match goal with
  | Hn : (?n ≤ length ?a)%nat |- hends (mbind _ (harg ?a ?i)) ?h _ =>
      let v := fresh "v" in let Hv := fresh "Hv" in
      destruct (arg_exists a n i Hn ltac:(lia)) as [v Hv];
      eapply hends_bind; [apply (hends_arg _ _ v _ (λ w h', w = v ∧ h' = h) Hv); by split|];
      intros ? ? [-> ->]
  | |- hends (mbind _ hget) _ _ => apply hends_get
  | |- hends (mbind _ (put_state _ _)) _ _ => apply hends_put_state
  | |- hends (mbind _ (put_writer _ _)) _ _ => apply hends_put_writer
  | |- hends (mbind _ (put_connection _ _)) _ _ => apply hends_put_connection
  | |- hends (mbind _ (hlift alloc)) _ _ => apply hends_then_any; [done|apply answers_alloc|]; intros _
  | |- hends (hrequire _ _ _) _ _ => apply hends_require; [done|]; intros ?
  | |- hends (request_fault _) _ _ => apply hends_trap; done
  | |- hends (hlift (trap _ _)) _ _ => apply hends_trap; done
  | |- hends (mret _) _ _ => apply hends_ret; done
  | |- hends unit_value _ _ => apply hends_any; [done|apply value_unit_answers|done]
  | |- hends (hlift _) _ (λ _ h', http_ok h') => apply hends_any; [done|solve [answers]|done]
  end.
Ltac hsteps := repeat hstep.

(** ** Calls on servers *)

Lemma fresh_state_ok h s :
  http_ok h → state_ok s → admitted s = 0%nat →
  http_ok (set_states (<[next_object h:=s]> (states h)) (set_next (Pos.succ (next_object h)) h)).
Proof.
  intros [Hs Hw Hc Hf] Hok Ha. destruct (Hf (next_object h)) as (Hn & _ & _); [lia|].
  split; simpl; [|done| |].
  - intros y t. rewrite lookup_insert_Some. intros [[<- <-]|[_ Ht]]; [|by apply Hs]. split; [done|].
    rewrite Ha. symmetry. apply sumf_zero. intros x c Hx. unfold holds_admission.
    destruct (decide (connection_server c = Some (next_object h))) as [E|E].
    + destruct (ok_server _ _ (Hc x c Hx) _ E). congruence.
    + by rewrite bool_decide_false, andb_false_r.
  - intros x c Hx. destruct (Hc x c Hx) as [H1 H2 H3 H4 H5 H6]. split; try done. intros y Hy. simpl.
    destruct (H1 y Hy) as [t Ht]. rewrite lookup_insert_ne by congruence. eauto.
  - intros x Hx. destruct (Hf x) as (? & ? & ?); [lia|]. split_and!; [|done..]. rewrite lookup_insert_ne; [done|lia].
Qed.

Lemma state_create_call_ok a h :
  http_ok h → (3 ≤ length a)%nat → hends (http_state_create_call a) h (λ _ h', http_ok h').
Proof.
  intros Hok Hn. unfold http_state_create_call. hsteps.
  eapply hends_bind; [by apply state_create_ok|]. intros s ? (-> & Hs & Ha).
  apply hends_fresh. hsteps. apply hends_ret. exact (fresh_state_ok h s Hok Hs Ha).
Qed.

Lemma setup_error_answers s : answers (setup_error_value s).
Proof. unfold setup_error_value. destruct (setup_error s); answers. apply value_data_answers. by left. Qed.
#[local] Hint Resolve setup_error_answers : answers.

Lemma state_of_inv v h x s : state_of v h = Some (x, s) → v = HttpState x ∧ states h !! x = Some s.
Proof. destruct v; simpl; try done. destruct (states h !! _) eqn:E; simpl; [|done]. by intros [= -> ->]. Qed.
Lemma writer_of_inv v h x w : writer_of v h = Some (x, w) → v = HttpWriter x ∧ writers h !! x = Some w.
Proof. destruct v; simpl; try done. destruct (writers h !! _) eqn:E; simpl; [|done]. by intros [= -> ->]. Qed.
Lemma connection_of_inv v h x c :
  connection_of v h = Some (x, c) → v = HttpConnection x ∧ connections h !! x = Some c.
Proof. destruct v; simpl; try done. destruct (connections h !! _) eqn:E; simpl; [|done]. by intros [= -> ->]. Qed.

Lemma state_call_ok name a h :
  http_ok h → (http_arity name ≤ length a)%nat →
  hends (builtins_http_state_call name a) h (λ _ h', http_ok h').
Proof.
  intros Hok Hn. unfold builtins_http_state_call.
  destruct (is_name name "http_state_create") eqn:N1.
  { apply state_create_call_ok; [done|]. by rewrite (arity_of _ _ N1) in Hn. }
  assert (1 ≤ length a)%nat as H1. { etrans; [apply arity_pos|done]. }
  clear N1. hsteps. destruct (state_of v h) as [[x s]|] eqn:Hs; [|hsteps].
  apply state_of_inv in Hs as [-> Hx]. destruct (http_states h Hok x s Hx) as [Hs _].
  destruct (is_name name "http_state_context"); [hsteps|].
  destruct (is_name name "http_state_setup_error"); [hsteps|].
  destruct (negb (bool_decide (phase s = HTTP_CREATED))); [hsteps|].
  destruct (is_name name "http_state_fail_setup").
  { hstep. assert (http_ok (set_states (<[x:=http_state_set_error "invalid route URI reference" s]> (states h)) h));
      [|hsteps]. eapply put_state_ok; try done. by apply set_error_ok. }
  destruct (is_name name "http_state_register") eqn:N5; [|hsteps].
  rewrite (arity_of _ _ N5) in Hn. change (4 ≤ length a)%nat in Hn. clear H1. hsteps.
  repeat match goal with H : _ && _ = true |- _ => apply andb_true_iff in H as [? ?] end.
  match goal with |- context [http_state_register ?m ?p ?g s] =>
    destruct (register_ok m p g s Hs) as [Ha Hy]; [by apply is_kind_text..|] end.
  eapply hends_bind; [eapply (hends_lift _ h _ (λ s' h', (state_ok s' ∧ admitted s' = admitted s) ∧ h' = h)); done|].
  intros s' ? [[Hs' Had] ->]. hstep. assert (http_ok (set_states (<[x:=s']> (states h)) h)); [|hsteps].
  by eapply put_state_ok.
Qed.

(** ** Calls on response writers *)

Lemma writer_call_ok name a h :
  http_ok h → (http_arity name ≤ length a)%nat →
  hends (builtins_http_writer_call name a) h (λ _ h', http_ok h').
Proof.
  intros Hok Hn. unfold builtins_http_writer_call.
  assert (1 ≤ length a)%nat as H1. { etrans; [apply arity_pos|done]. }
  hsteps. destruct (writer_of v h) as [[x w]|] eqn:Hw; [|hsteps].
  apply writer_of_inv in Hw as [-> Hx]. pose proof (http_writers h Hok x w Hx) as [W1 W2 W3].
  assert (∀ w', writer_ok w' → http_ok (set_writers (<[x:=w']> (writers h)) h)) as Hput
    by (intros; by eapply put_writer_ok).
  destruct (writer_ended w); [hsteps|].
  destruct (is_name name "http_writer_get_status").
  { apply hends_any; [done|apply value_size_answers; lia|done]. }
  destruct (is_name name "http_writer_get_headers"); [hsteps|].
  destruct (completed w) eqn:Hc; [hsteps|].
  destruct (is_name name "http_writer_reject"); [hsteps|].
  destruct (is_name name "http_writer_status") eqn:N4.
  { rewrite (arity_of _ _ N4) in Hn. change (2 ≤ length a)%nat in Hn. clear H1. hsteps.
    destruct (value_index v) as [n|]; [|hsteps]. destruct (_ || _) eqn:Hr; [hsteps|].
    apply orb_false_iff in Hr as [?%Z.ltb_ge ?%Z.ltb_ge]. hstep.
    assert (writer_ok (set_response_status n w)) as ?%Hput; [|hsteps].
    split; simpl; [lia|done|by rewrite Hc]. }
  destruct (is_name name "http_writer_headers") eqn:N5.
  { rewrite (arity_of _ _ N5) in Hn. change (2 ≤ length a)%nat in Hn. clear H1. hsteps.
    destruct v; hsteps. match goal with Hp : forallb header_pair ?l = true |- _ =>
      assert (writer_ok (set_headers (Array l) w)) as ?%Hput; [|hsteps];
      split; simpl; [done|by exists l|by rewrite Hc] end. }
  destruct (is_name name "http_writer_commit") eqn:N6; [|hsteps].
  rewrite (arity_of _ _ N6) in Hn. change (2 ≤ length a)%nat in Hn. clear H1. hsteps.
  assert (writer_ok (commit v w)) as ?%Hput; [|hsteps].
  split; simpl; [done..|]. destruct v; try done. by eexists.
Qed.

(** ** Calls on connections *)

(** The server of a connection changes its count with the connection. *)
Lemma put_admission_ok h x c c' y s n :
  http_ok h → connections h !! x = Some c → states h !! y = Some s → connection_ok h c' →
  (n ≤ ADMISSION_LIMIT)%nat → (holds_admission y c' + admitted s = holds_admission y c + n)%nat →
  (∀ z, z ≠ y → holds_admission z c' = holds_admission z c) →
  http_ok (set_states (<[y:=set_admitted n s]> (states h)) (set_connections (<[x:=c']> (connections h)) h)).
Proof.
  intros [Hs Hw Hc Hf] Hx Hy Hc' Hn Hyn Hz.
  assert (∀ d, connection_ok h d → connection_ok (set_states (<[y:=set_admitted n s]> (states h))
    (set_connections (<[x:=c']> (connections h)) h)) d) as Hmono.
  { intros d [H1 H2 H3 H4 H5 H6]. split; try done. intros z Hd. simpl.
    destruct (decide (y = z)) as [->|]; [rewrite lookup_insert_eq; eauto|]. rewrite lookup_insert_ne by done. auto. }
  split; simpl; [|done| |].
  - intros z t. rewrite lookup_insert_Some. unfold admissions. simpl.
    pose proof (sumf_update (holds_admission z) _ _ _ c' Hx) as E.
    intros [[<- <-]|[Hne Ht]].
    + destruct (Hs y s Hy) as [[H1 H2 H3 H4 H5 H6] Had]. unfold admissions in Had. split; [by split|]. simpl. lia.
    + destruct (Hs z t Ht) as [? Had]. split; [done|]. unfold admissions in Had. rewrite Hz in E by done. lia.
  - intros z d. rewrite lookup_insert_Some. intros [[<- <-]|[_ Hd]]; [by apply Hmono|]. eapply Hmono, Hc, Hd.
  - intros z Hp. destruct (Hf z Hp) as (? & ? & ?).
    split_and!; [rewrite lookup_insert_ne; congruence|done|rewrite lookup_insert_ne; congruence].
Qed.

Lemma double_until_spec f c r :
  16384 ≤ c < 2 * BODY_LIMIT → r ≤ BODY_LIMIT → r ≤ c * 2 ^ Z.of_nat f →
  runs (double_until f c r) (λ n, r ≤ n ∧ 16384 ≤ n < 2 * BODY_LIMIT) no_trap.
Proof.
  revert c. induction f as [|f IH]; intros c Hc Hr Hf; simpl; destruct (Z.ltb_spec c r) as [Hl|Hl].
  - change (2 ^ Z.of_nat 0) with 1 in Hf. lia.
  - by mret.
  - unfold BODY_LIMIT in *. rewrite u64_small by lia. apply IH; [lia..|].
    rewrite Nat2Z.inj_succ, Z.pow_succ_r in Hf by lia. lia.
  - by mret.
Qed.

Lemma body_room_spec h c r :
  connection_ok h c → r ≤ BODY_LIMIT →
  runs (body_room c r) (λ n, r ≤ n ∧ (n = 0 ∨ 16384 ≤ n < 2 * BODY_LIMIT)) no_trap.
Proof.
  intros [_ _ _ _ _ Hb] Hr. unfold body_room. destruct (Z.ltb_spec (body_capacity c) r) as [Hl|Hl]; [|by mret].
  eapply runs_bind.
  { apply double_until_spec; [..|done|].
    - unfold BODY_LIMIT in *. destruct (_ =? 0) eqn:?; lia.
    - transitivity (16384 * 2 ^ 64); [unfold BODY_LIMIT in *; lia|].
      apply Z.mul_le_mono_nonneg_r; [lia|]. destruct (_ =? 0) eqn:?; lia. }
  intros n [? ?]. mbind runs_alloc as ? _. mret. auto.
Qed.

(** The live connection of a handle. *)
Lemma live_connection_ok e v h :
  http_ok h → hends (http_live_connection e v) h (λ '(x, c, y) h',
    h' = h ∧ v = HttpConnection x ∧ connections h !! x = Some c ∧ connection_server c = Some y ∧
    is_Some (states h !! y) ∧ execution c = e).
Proof.
  intros Hok. unfold http_live_connection. hstep. destruct (connection_of v h) as [[x c]|] eqn:Hc; [|hsteps].
  apply connection_of_inv in Hc as [-> Hx]. destruct (connection_server c) as [y|] eqn:Hy; [|hsteps].
  destruct (_ || _) eqn:Hg; [hsteps|]. apply orb_false_iff in Hg as [_ Hg%negb_false_iff%bool_decide_eq_true].
  apply hends_ret. split_and!; try done. by eapply ok_server; [eapply http_connections|].
Qed.

Lemma bytes_slice_call_ok a h :
  http_ok h → (3 ≤ length a)%nat → hends (http_bytes_slice_call a) h (λ _ h', http_ok h').
Proof.
  intros Hok Hn. unfold http_bytes_slice_call. hsteps. destruct v; hsteps.
  destruct (value_index v0) as [i|], (value_index v1) as [j|]; [|hsteps..].
  destruct (_ || _); hsteps. apply hends_any; [done|apply value_data_answers; by right|done].
Qed.

Lemma body_append_call_ok x c a h :
  http_ok h → connections h !! x = Some c → (4 ≤ length a)%nat →
  hends (http_body_append_call x c a) h (λ _ h', http_ok h').
Proof.
  intros Hok Hx Hn. pose proof (http_connections h Hok x c Hx) as Hc. unfold http_body_append_call. hsteps.
  destruct v; hsteps. destruct (value_index v0) as [i|], (value_index v1) as [j|]; [|hsteps..]. hsteps.
  match goal with Hr : (i <=? j) && _ = true |- _ => apply andb_true_iff in Hr as [Hij%Z.leb_le _] end.
  set (used := Z.of_nat (length (body c))) in *.
  destruct (Z.ltb_spec (BODY_LIMIT - used) (j - i)) as [|Hroom]; [hsteps|].
  pose proof (body_room_spec h c (used + (j - i)) Hc ltac:(lia)) as Hb.
  eapply hends_bind.
  { eapply (hends_lift _ h _ (λ n h', (used + (j - i) ≤ n ∧ (n = 0 ∨ 16384 ≤ n < 2 * BODY_LIMIT)) ∧ h' = h));
      [done|by eapply answers_runs|by eapply yields_runs|done]. }
  intros n ? [[Hfit Hcap] ->]. hstep.
  match goal with |- context [set_body ?l n c] => assert (Z.of_nat (length l) ≤ used + (j - i)) as Hl end.
  { rewrite length_app, length_take. unfold used. lia. }
  match goal with |- hends _ ?g _ => assert (http_ok g) end; [|hsteps].
  apply (put_connection_ok h x c); [done..| |done]. destruct Hc as [H1 H2 H3 H4 H5 H6]. split; simpl; try done; lia.
Qed.

Lemma admit_call_ok x y c s h :
  http_ok h → connections h !! x = Some c → connection_server c = Some y → states h !! y = Some s →
  hends (http_connection_admit_call x y c s) h (λ _ h', http_ok h').
Proof.
  intros Hok Hx Hc Hy. unfold http_connection_admit_call. destruct (connection_admitted c) eqn:Ha; [hsteps|].
  destruct (Nat.eqb_spec (admitted s) ADMISSION_LIMIT) as [|Hlt]; [hsteps|]. do 2 hstep.
  destruct (http_states h Hok y s Hy) as [Hs _]. pose proof (ok_admitted _ Hs).
  match goal with |- hends _ ?g _ => assert (http_ok g) end; [|hsteps].
  apply (put_admission_ok h x c (admit_connection c) y s); try done; [|lia|..].
  - destruct (http_connections h Hok x c Hx). by split.
  - unfold holds_admission. simpl. rewrite Ha, Hc, bool_decide_true by done. simpl. lia.
  - intros z Hz. unfold holds_admission. simpl. rewrite Ha, Hc, bool_decide_false by congruence. done.
Qed.

Lemma routes_loop_answers l items : answers (routes_loop l items).
Proof.
  revert items. induction l as [|r l IH]; intros items; simpl; [apply answers_ret|].
  apply answers_bind; [auto with answers|intros ?]. apply answers_bind; [auto with answers|auto].
Qed.
Lemma routes_call_answers s : answers (http_connection_routes_call s).
Proof. apply answers_bind; [auto with answers|intros; apply routes_loop_answers]. Qed.
#[local] Hint Resolve routes_call_answers : answers.

Lemma connection_call_ok e name a h :
  http_ok h → (http_arity name ≤ length a)%nat →
  hends (builtins_http_connection_call e name a) h (λ _ h', http_ok h').
Proof.
  intros Hok Hn. unfold builtins_http_connection_call.
  destruct (is_name name "http_bytes_slice") eqn:N1.
  { apply bytes_slice_call_ok; [done|]. by rewrite (arity_of _ _ N1) in Hn. }
  assert (1 ≤ length a)%nat as H1. { etrans; [apply arity_pos|done]. }
  hsteps. eapply hends_bind; [by apply live_connection_ok|].
  intros [[x c] y] ? (-> & -> & Hx & Hc & [s Hy] & _). hsteps. rewrite Hy.
  pose proof (ok_body _ _ (http_connections h Hok x c Hx)) as Hb. unfold BODY_LIMIT in Hb.
  destruct (is_name name "http_body_size"); [apply hends_any; [done|apply value_size_answers; lia|done]|].
  destruct (is_name name "http_body"); [apply hends_any; [done|apply value_data_answers; by right|done]|].
  destruct (is_name name "http_body_append") eqn:N4.
  { apply body_append_call_ok; [done..|]. by rewrite (arity_of _ _ N4) in Hn. }
  destruct (is_name name "http_connection_writer"); [hsteps|].
  destruct (is_name name "http_connection_fallback"); [hsteps|].
  destruct (is_name name "http_connection_admit"); [by apply admit_call_ok|].
  destruct (is_name name "http_connection_routes"); hsteps.
Qed.

(** ** Connections of a server: creation and end *)

Lemma writer_create_ok h :
  http_ok h → hends http_writer_create h (λ w h', h' = h ∧ writer_ok w).
Proof.
  intros Hok. unfold http_writer_create. hstep.
  eapply hends_bind.
  { eapply (hends_lift _ h (λ v, v = Array []) (λ v h', v = Array [] ∧ h' = h)); [done|auto with answers| |done].
    unfold value_sequence. repeat (eapply yields_bind; [apply yields_any|intros ? _]). by apply yields_ret. }
  intros ? ? [-> ->]. apply hends_ret. split; [done|]. split; simpl; [lia|by exists []|done].
Qed.

Lemma fresh_connection_ok h w y c :
  http_ok h → writer_ok w → y = next_object h → writer c = y → connection_admitted c = false →
  (∀ z, connection_server c = Some z → is_Some (states h !! z)) →
  connection_ended c = bool_decide (connection_server c = None) → body c = [] → body_capacity c = 0 →
  http_ok (mkHttp (states h) (<[y:=w]> (writers h)) (<[Pos.succ y:=c]> (connections h)) (Pos.succ (Pos.succ y))).
Proof.
  intros [Hs Hw Hc Hf] Hok -> Hwr Had Hsv Hend Hb Hcap.
  destruct (Hf (next_object h)) as (_ & Hn & _); [lia|]. destruct (Hf (Pos.succ (next_object h))) as (_ & _ & Hn'); [lia|].
  split; simpl.
  - intros z t Hz. destruct (Hs z t Hz) as [? E]. split; [done|]. rewrite E. unfold admissions. simpl.
    rewrite sumf_insert by done. unfold holds_admission at 2. by rewrite Had.
  - intros z t. rewrite lookup_insert_Some. intros [[_ <-]|[_ Ht]]; [done|by eapply Hw].
  - intros z d. rewrite lookup_insert_Some. intros [[_ <-]|[_ Hd]].
    + split; simpl; [done|done|rewrite Hwr, lookup_insert_eq; eauto|rewrite Hb; done|rewrite Hb, Hcap; done|by left].
    + destruct (Hc z d Hd) as [H1 H2 H3 H4 H5 H6]. split; try done. simpl. destruct H3 as [t Ht].
      rewrite lookup_insert_ne by congruence. eauto.
  - intros z Hz. destruct (Hf z) as (? & ? & ?); [lia|]. split_and!; [done|rewrite lookup_insert_ne; [done|lia]..].
Qed.

Lemma connection_create_ok server slot h :
  http_ok h → is_Some (states h !! server) →
  hends (http_connection_create server slot) h (λ r h',
    http_ok h' ∧ ∃ x, r = HttpConnection x ∧ is_Some (connections h' !! x)).
Proof.
  intros Hok Hs. unfold http_connection_create. hsteps.
  eapply hends_bind; [by apply writer_create_ok|]. intros w ? [-> Hw].
  apply hends_fresh. hstep. apply hends_fresh. hstep. apply hends_ret.
  split; [|eexists; split; [done|]; simpl; rewrite lookup_insert_eq; eauto].
  refine (fresh_connection_ok h w _ (mkConnection false false (Some server) (Some slot) None (next_object h) [] 0)
            Hok Hw eq_refl eq_refl eq_refl _ eq_refl eq_refl eq_refl). by intros z [= <-].
Qed.

Lemma holds_admission_le h x c y s :
  http_ok h → connections h !! x = Some c → states h !! y = Some s → (holds_admission y c ≤ admitted s)%nat.
Proof.
  intros Hok Hx Hy. destruct (http_states h Hok y s Hy) as [_ ->]. unfold admissions.
  rewrite (sumf_delete _ _ _ _ Hx). lia.
Qed.

Lemma alter_put {A} (f : A → A) x a (m : gmap ref A) : m !! x = Some a → alter f x m = <[x:=f a]> m.
Proof.
  intros Hx. apply map_eq. intros y. destruct (decide (x = y)) as [<-|].
  - by rewrite lookup_alter_eq, lookup_insert_eq, Hx.
  - by rewrite lookup_alter_ne, lookup_insert_ne.
Qed.

(** The end of a connection gives its admission back and expires its writer. *)
Lemma connection_end_ok x h : http_ok h → http_ok (http_connection_end x h).
Proof.
  intros Hok. unfold http_connection_end. destruct (connections h !! x) as [c|] eqn:Hx; [|done].
  pose proof (http_connections h Hok x c Hx) as Hc. pose proof Hc as [H1 H2 [w Hw] H4 H5 H6].
  set (kept := match connection_server c with Some _ => false | None => connection_admitted c end).
  set (c' := mkConnection true kept None None None (writer c) (body c) (body_capacity c)).
  assert (connection_ok h c') as Hc' by (split; simpl; try done; eauto).
  assert (∀ z, holds_admission z c' = 0%nat) as H0 by (intros z; unfold holds_admission; simpl; by rewrite andb_false_r).
  assert (∀ g, http_ok g → writers g !! writer c = Some w →
    http_ok (set_writers (alter end_writer (writer c) (writers g)) g)) as Hwr.
  { intros g Hg Hgw. rewrite (alter_put _ _ _ _ Hgw). eapply put_writer_ok; [done..|].
    by destruct (http_writers g Hg _ _ Hgw). }
  destruct (connection_server c) as [y|] eqn:Hy; [destruct (connection_admitted c) eqn:Ha|].
  - destruct (H1 y eq_refl) as [s Hs]. rewrite (alter_put _ _ _ _ Hs). apply (Hwr _); [|done].
    assert (holds_admission y c = 1%nat) as Hone.
    { unfold holds_admission. by rewrite Ha, Hy, bool_decide_true. }
    pose proof (holds_admission_le h x c y s Hok Hx Hs) as Hle.
    destruct (http_states h Hok y s Hs) as [Hst _]. pose proof (ok_admitted s Hst) as Hlim.
    refine (put_admission_ok h x c c' y s _ Hok Hx Hs Hc' _ _ _); [lia|rewrite H0; lia|].
    intros z Hz. rewrite H0. unfold holds_admission. rewrite Hy, bool_decide_false by congruence. by rewrite andb_false_r.
  - apply (Hwr _); [|done]. refine (put_connection_ok h x c c' Hok Hx Hc' _). intros z. rewrite H0.
    unfold holds_admission. by rewrite Ha.
  - apply (Hwr _); [|done]. refine (put_connection_ok h x c c' Hok Hx Hc' _). intros z. rewrite H0.
    unfold holds_admission. by rewrite Hy, andb_false_r.
Qed.

(** ** Addresses *)

(** The numeral of an octet, and octets joined by dots. *)
Definition octet_text (n : Z) : list Z := (λ d, 48 + d) <$> coefficient_digits_of n.
Fixpoint dotted (l : list Z) : list Z :=
  match l with
  | [] => []
  | [n] => octet_text n
  | n :: l => octet_text n ++ 46 :: dotted l
  end.

Definition is_digit_byte (c : Z) : bool := (48 <=? c) && (c <=? 57).
Definition no_digit (rest : list Z) : Prop := ∀ c, head rest = Some c → is_digit_byte c = false.

(** What the loop reads: the longest run of digits. *)
Lemma octet_loop_reads text k n r :
  octet_loop text k n = Some r →
  ∃ ds, Forall ten ds ∧ text = ((λ d, 48 + d) <$> ds) ++ snd r ∧ no_digit (snd r) ∧
    fst r = (radix_value 10 n ds, (k + length ds)%nat) ∧ (n ≤ 255 → radix_value 10 n ds ≤ 255).
Proof.
  revert k n. induction text as [|c text IH]; intros k n; simpl.
  { intros [= <-]. exists []. by split_and!; [constructor|..|rewrite Nat.add_0_r|]. }
  destruct (_ && _) eqn:Hd.
  - destruct (_ || _) eqn:Hb; [done|]. apply orb_false_iff in Hb as [Hb%Z.ltb_ge _].
    intros (ds & Hds & -> & Hr & Hv & Hle)%IH. exists ((c - 48) :: ds).
    apply andb_true_iff in Hd as [?%Z.leb_le ?%Z.leb_le].
    split_and!; [constructor; [unfold ten; lia|done]| |done| |].
    + cbn. f_equal. lia.
    + rewrite Hv. cbn [length]. by rewrite <- Nat.add_succ_comm.
    + intros _. by apply Hle.
  - intros [= <-]. exists []. split_and!; [constructor|done| |by rewrite Nat.add_0_r|done].
    intros ? [= <-]. done.
Qed.

Lemma octet_loop_runs ds rest k n :
  Forall ten ds → no_digit rest → 0 ≤ n → radix_value 10 n ds ≤ 255 → (k + length ds ≤ 3)%nat →
  octet_loop (((λ d, 48 + d) <$> ds) ++ rest) k n = Some (radix_value 10 n ds, (k + length ds)%nat, rest).
Proof.
  intros Hds Hr. revert k n. induction Hds as [|d ds Hd Hds IH]; intros k n Hn Hv Hk.
  - rewrite Nat.add_0_r. cbn. destruct rest as [|c rest]; [done|]. simpl. specialize (Hr c eq_refl).
    unfold is_digit_byte in Hr. by rewrite Hr.
  - unfold ten in Hd. cbn [fmap list_fmap app octet_loop].
    replace ((48 <=? 48 + d) && (48 + d <=? 57)) with true by lia.
    replace (n * 10 + (48 + d - 48)) with (n * 10 + d) by lia.
    change (radix_value 10 n (d :: ds)) with (radix_value 10 (n * 10 + d) ds) in *.
    assert (n * 10 + d ≤ 255).
    { rewrite radix_value_acc in Hv. pose proof (radix_value_bound 10 ds ltac:(lia) Hds).
      pose proof (Z.pow_pos_nonneg 10 (Z.of_nat (length ds)) ltac:(lia) ltac:(lia)). nia. }
    replace (255 <? n * 10 + d) with false by lia.
    cbn [length] in *. replace (Nat.ltb 3 (S k)) with false by (symmetry; apply Nat.ltb_ge; lia). cbn [orb].
    rewrite IH by lia. by rewrite <- Nat.add_succ_comm.
Qed.

Lemma octet_loop_canonical text v k rest :
  octet_loop text 0 0 = Some (v, k, rest) →
  Nat.eqb k 0 || (Nat.ltb 1 k && bool_decide (head text = Some 48)) = false →
  0 ≤ v ≤ 255 ∧ text = octet_text v ++ rest.
Proof.
  intros (ds & Hds & -> & _ & [= -> ->] & Hle)%octet_loop_reads Hg. simpl in Hg, Hle |- *.
  apply orb_false_iff in Hg as [Hk%Nat.eqb_neq Hh].
  split; [split; [apply (radix_value_bound 10); [lia|done]|by apply Hle]|].
  unfold octet_text. rewrite coefficient_digits_unique; [done|done|by destruct ds|].
  intros Hl H0. destruct ds as [|d ds]; [done|]. injection H0 as ->.
  apply andb_false_iff in Hh as [Hh|Hh]; [apply Nat.ltb_ge in Hh; lia|]. by apply bool_decide_eq_false in Hh.
Qed.

Lemma octet_read n rest :
  0 ≤ n ≤ 255 → no_digit rest → ∃ k,
    octet_loop (octet_text n ++ rest) 0 0 = Some (n, k, rest) ∧
    Nat.eqb k 0 || (Nat.ltb 1 k && bool_decide (head (octet_text n ++ rest) = Some 48)) = false.
Proof.
  intros Hn Hr. destruct (coefficient_digits_ok n 3 ltac:(lia) ltac:(lia)) as (Hds & Hv & Hl & Hh).
  exists (length (coefficient_digits_of n)). unfold octet_text.
  rewrite octet_loop_runs; [rewrite Hv; split; [done|]|done|done|lia|lia|lia].
  destruct (coefficient_digits_of n) as [|d ds]; [simpl in Hl; lia|]. cbn [length Nat.eqb orb].
  apply andb_false_iff. destruct ds as [|d' ds]; [by left|right]. apply bool_decide_eq_false. intros [= E].
  apply Hh; [simpl; lia|]. simpl. f_equal. lia.
Qed.

Lemma octets_exact n text :
  octets n text = true ↔ ∃ l, length l = n ∧ Forall (λ z, 0 ≤ z ≤ 255) l ∧ text = dotted l.
Proof.
  revert text. induction n as [|n IH]; intros text.
  { simpl. rewrite bool_decide_eq_true. split; [intros ->; by exists []|]. by intros ([] & ? & _ & ->). }
  simpl. split.
  - destruct (octet_loop text 0 0) as [[[v k] rest]|] eqn:E; [|done].
    destruct (_ || _) eqn:Hg; [done|]. destruct (octet_loop_canonical _ _ _ _ E Hg) as [Hv ->].
    destruct n as [|n].
    + simpl. intros ->%bool_decide_eq_true. exists [v]. rewrite app_nil_r. split_and!; [done|by constructor|done].
    + intros H. assert (∃ r, rest = 46 :: r ∧ octets (S n) r = true) as (r & -> & Hr).
      { destruct rest as [|c r]; [done|]. destruct (decide (c = 46)) as [->|Hc]; [eauto|].
        exfalso. revert H. repeat (case_match; try done). }
      apply IH in Hr as (l & Hl & Hf & ->). exists (v :: l). split_and!; [simpl; congruence|by constructor|].
      by destruct l.
  - intros (l & Hl & Hf & ->). destruct Hf as [|z l Hz Hf]; [done|]. simpl in Hl. injection Hl as Hl.
    destruct l as [|z' l].
    + simpl in Hl. subst n. cbn [dotted].
      destruct (octet_read z [] Hz) as (k & E & Hg); [done|]. rewrite app_nil_r in E, Hg. rewrite E, Hg. done.
    + destruct n as [|n]; [done|].
      change (dotted (z :: z' :: l)) with (octet_text z ++ 46 :: dotted (z' :: l)).
      destruct (octet_read z (46 :: dotted (z' :: l)) Hz) as (k & E & Hg); [by intros ? [= <-]|].
      rewrite E, Hg. apply IH. by exists (z' :: l).
Qed.

(** ** Operations on the heap *)

(** What bytecode and the server can do: the builtins, a connection for a
    client, and its end. *)
Inductive http_op :=
| StateCall (name : list Z) (a : list Value)
| WriterCall (name : list Z) (a : list Value)
| ConnectionCall (e : option ref) (name : list Z) (a : list Value)
| Connect (server : ref) (slot : nat)
| Disconnect (x : ref).

Definition run_op (o : http_op) : H Value :=
  match o with
  | StateCall name a => builtins_http_state_call name a
  | WriterCall name a => builtins_http_writer_call name a
  | ConnectionCall e name a => builtins_http_connection_call e name a
  | Connect server slot => http_connection_create server slot
  | Disconnect x => h ← hget; _ ← hput (http_connection_end x h); mret VUnit
  end.

(** Calls pass the arguments the registry asks for; servers exist. *)
Definition op_ok (o : http_op) (h : HttpHeap) : Prop :=
  match o with
  | StateCall name a | WriterCall name a | ConnectionCall _ name a => (http_arity name ≤ length a)%nat
  | Connect server _ => is_Some (states h !! server)
  | Disconnect _ => True
  end.

Definition http_step (h h' : HttpHeap) : Prop := ∃ o al, op_ok o h ∧ h' = snd (fst (run_op o h al)).

Lemma op_ends o h : http_ok h → op_ok o h → hends (run_op o) h (λ _ h', http_ok h').
Proof.
  intros Hok Ho. destruct o; simpl in *; [by apply state_call_ok|by apply writer_call_ok|by apply connection_call_ok
    | |]; [|intros al; by apply connection_end_ok]. eapply hends_mono; [by apply connection_create_ok|]. by intros ? ? [].
Qed.

Lemma http_step_ok h h' : http_ok h → http_step h h' → http_ok h'.
Proof.
  intros Hok (o & al & Ho & ->). pose proof (op_ends o h Hok Ho al) as H.
  by destruct (run_op o h al) as [[[] h'] al'].
Qed.

(** ** What no operation undoes *)

Definition state_le (s s' : VMHttpState) : Prop :=
  (address s', port s', context s') = (address s, port s, context s) ∧ routes s `prefix_of` routes s' ∧
  (is_Some (fallback s) → fallback s' = fallback s) ∧ (is_Some (setup_error s) → setup_error s' = setup_error s).
Definition writer_le (w w' : VMHttpWriter) : Prop :=
  (writer_ended w = true → writer_ended w' = true) ∧
  (completed w = true → (completed w', response_status w', headers w', wire w') =
                        (true, response_status w, headers w, wire w)).
Definition connection_le (c c' : VMHttpConnection) : Prop :=
  writer c' = writer c ∧ body c `prefix_of` body c' ∧
  (connection_server c = None → connection_server c' = None ∧ body c' = body c).

Definition heap_le (h h' : HttpHeap) : Prop :=
  map_included (λ _, state_le) (states h) (states h') ∧
  map_included (λ _, writer_le) (writers h) (writers h') ∧
  map_included (λ _, connection_le) (connections h) (connections h').

#[global] Instance state_le_preorder : PreOrder state_le.
Proof.
  split; [by intros s; split_and!|]. intros s t u (E1 & P1 & F1 & S1) (E2 & P2 & F2 & S2).
  split_and!; [congruence|by etrans| |].
  - intros H. rewrite <- (F1 H) in H |- *. auto.
  - intros H. rewrite <- (S1 H) in H |- *. auto.
Qed.
#[global] Instance writer_le_preorder : PreOrder writer_le.
Proof.
  split; [by intros w; split; [done|intros ->]|]. intros w t u [E1 C1] [E2 C2]. split.
  - auto.
  - intros H. specialize (C1 H). injection C1 as H1 H2 H3 H4. specialize (C2 H1). congruence.
Qed.
#[global] Instance connection_le_preorder : PreOrder connection_le.
Proof.
  split; [by intros c; split_and!|]. intros c d u (W1 & B1 & S1) (W2 & B2 & S2).
  split_and!; [congruence|by etrans|]. intros H. destruct (S1 H) as [H1 <-]. by apply S2.
Qed.
#[global] Instance heap_le_preorder : PreOrder heap_le.
Proof.
  split; [by intros h; split_and!; apply reflexivity|].
  intros h1 h2 h3 (A & B & C) (D & E & F). by split_and!; etrans.
Qed.

Lemma put_state_le h x s s' :
  states h !! x = Some s → state_le s s' → heap_le h (set_states (<[x:=s']> (states h)) h).
Proof. intros Hx Hs. split_and!; simpl; [|done..]. apply insert_included; [by intros ?; apply _|]. intros t Ht. by simplify_eq. Qed.
Lemma put_writer_le h x w w' :
  writers h !! x = Some w → writer_le w w' → heap_le h (set_writers (<[x:=w']> (writers h)) h).
Proof. intros Hx Hs. split_and!; simpl; [done| |done]. apply insert_included; [by intros ?; apply _|]. intros t Ht. by simplify_eq. Qed.
Lemma put_connection_le h x c c' :
  connections h !! x = Some c → connection_le c c' → heap_le h (set_connections (<[x:=c']> (connections h)) h).
Proof. intros Hx Hs. split_and!; simpl; [done..|]. apply insert_included; [by intros ?; apply _|]. intros t Ht. by simplify_eq. Qed.

(** The operation only goes forward, however it ends. *)
Definition forward {A} (m : H A) (h : HttpHeap) : Prop := ∀ al, heap_le h (snd (fst (m h al))).

Lemma forward_lift {A} (m : M A) h : forward (hlift m) h.
Proof. intros al. unfold hlift. by destruct (m al). Qed.
Lemma forward_ret {A} (a : A) h : forward (mret a) h.
Proof. done. Qed.
Lemma forward_bind {A B} (m : M A) (k : A → H B) h : (∀ a, forward (k a) h) → forward (x ← hlift m; k x) h.
Proof. intros Hk al. unfold mbind, H_bind, hlift. destruct (m al) as [[a| | | |] al']; try done. apply Hk. Qed.
Lemma forward_yields {A B} (m : M A) (P : A → Prop) (k : A → H B) h :
  yields m P → (∀ a, P a → forward (k a) h) → forward (x ← hlift m; k x) h.
Proof.
  intros Hy Hk al. unfold mbind, H_bind, hlift. specialize (Hy al). destruct (m al) as [[a| | | |] al']; try done.
  by apply Hk.
Qed.
Lemma forward_then {A B} (m : H A) (k : A → H B) h a h' :
  (∀ al, m h al = (Ret a, h', al)) → heap_le h h' → forward (k a) h' → forward (x ← m; k x) h.
Proof. intros Hm Hle Hk al. unfold mbind, H_bind. rewrite Hm. etrans; [done|apply Hk]. Qed.
Lemma forward_get {B} (k : HttpHeap → H B) h : forward (k h) h → forward (h' ← hget; k h') h.
Proof. intros Hk. by eapply (forward_then hget). Qed.
Lemma forward_put_state {B} x s' (k : () → H B) h :
  heap_le h (set_states (<[x:=s']> (states h)) h) → (∀ g, forward (k tt) g) → forward (y ← put_state x s'; k y) h.
Proof. intros Hle Hk. by eapply (forward_then (put_state x s')). Qed.
Lemma forward_put_writer {B} x w' (k : () → H B) h :
  heap_le h (set_writers (<[x:=w']> (writers h)) h) → (∀ g, forward (k tt) g) → forward (y ← put_writer x w'; k y) h.
Proof. intros Hle Hk. by eapply (forward_then (put_writer x w')). Qed.

Lemma set_error_le m s : state_le s (http_state_set_error m s).
Proof. split_and!; simpl; [done..|]. by intros [e ->]. Qed.

Lemma set_admitted_le n s : state_le s (set_admitted n s).
Proof. by split_and!. Qed.

Lemma register_le m p g s : yields (http_state_register m p g s) (state_le s).
Proof.
  unfold http_state_register. destruct (text_data m).
  { destruct (fallback s) eqn:E; apply yields_ret; [apply set_error_le|].
    split_and!; simpl; try done. rewrite E. by intros [? ?]. }
  destruct (existsb _ _); [apply yields_ret, set_error_le|].
  eapply (yields_bind (grow_routes s) _ (λ s', ∃ n, s' = set_routes (routes s) n s)).
  - unfold grow_routes. destruct (_ =? _); [|apply yields_ret; exists (route_capacity s); by destruct s].
    destruct (_ || _); [done|]. eapply yields_bind; [apply yields_any|]. intros _ _. apply yields_ret. eauto.
  - intros s' [n ->]. apply yields_ret. split_and!; simpl; try done. by apply prefix_app_r.
Qed.

(** Steps of a call that changes at most one object. *)
Ltac fwd :=
  match goal with
  | |- forward (mbind _ (harg _ _)) _ => apply forward_bind; intros ?
  | |- forward (mbind _ (hlift (http_state_register _ _ _ _))) _ =>
      eapply forward_yields; [apply register_le|intros ? ?]
  | |- forward (mbind _ (hlift _)) _ => apply forward_bind; intros ?
  | |- forward (mbind _ hget) _ => apply forward_get
  | |- forward (mbind _ (put_state _ _)) _ => apply forward_put_state; [|intros ?]
  | |- forward (mbind _ (put_writer _ _)) _ => apply forward_put_writer; [|intros ?]
  | |- forward (mret _) _ => apply forward_ret
  | |- forward (hlift _) _ => apply forward_lift
  | |- forward (request_fault _) _ => apply forward_lift
  | |- forward unit_value _ => apply forward_lift
  | |- forward (hrequire ?b _ _) _ => unfold hrequire; destruct b
  | |- forward (if ?b then _ else _) _ => destruct b eqn:?
  | |- forward (match ?x with _ => _ end) _ => destruct x eqn:?
  end.

Lemma create_forward s h :
  http_ok h → forward (x ← fresh_object; _ ← put_state x s; mret (HttpState x)) h.
Proof.
  intros Hok al. destruct (http_fresh h Hok (next_object h)) as (Hn & _); [lia|].
  split_and!; simpl; [|done..]. apply insert_included; [by intros ?; apply _|]. congruence.
Qed.

Lemma forward_assoc {A B C} (m : H A) (k : A → H B) (l : B → H C) h :
  forward (x ← m; y ← k x; l y) h → forward (y ← (x ← m; k x); l y) h.
Proof. intros Hf al. specialize (Hf al). unfold mbind, H_bind in *. by destruct (m h al) as [[[] h'] al']. Qed.

Lemma state_call_forward name a h : http_ok h → forward (builtins_http_state_call name a) h.
Proof.
  intros Hok. unfold builtins_http_state_call, http_state_create_call, http_state_create. repeat fwd.
  - apply forward_assoc. fwd. by apply create_forward.
  - apply state_of_inv in Heqo as [_ Hx]. by eapply put_state_le, set_error_le.
  - apply state_of_inv in Heqo as [_ Hx]. by eapply put_state_le.
Qed.

Lemma writer_call_forward name a h : forward (builtins_http_writer_call name a) h.
Proof.
  unfold builtins_http_writer_call. repeat fwd;
    match goal with H : writer_of _ _ = Some _ |- _ => apply writer_of_inv in H as [_ ?] end;
    (eapply put_writer_le; [done|split; congruence]).
Qed.

Lemma forward_put_connection {B} x c' (k : () → H B) h :
  heap_le h (set_connections (<[x:=c']> (connections h)) h) → (∀ g, forward (k tt) g) →
  forward (y ← put_connection x c'; k y) h.
Proof. intros Hle Hk. by eapply (forward_then (put_connection x c')). Qed.

Lemma body_append_forward x c a h :
  connections h !! x = Some c → is_Some (connection_server c) → forward (http_body_append_call x c a) h.
Proof.
  intros Hx Hs. unfold http_body_append_call. repeat fwd.
  apply forward_put_connection; [|intros; apply forward_lift]. eapply put_connection_le; [done|].
  split_and!; simpl; [done|by apply prefix_app_r|]. by destruct Hs as [? ->].
Qed.

Lemma admit_forward x y c s h :
  connections h !! x = Some c → is_Some (connection_server c) → states h !! y = Some s →
  forward (http_connection_admit_call x y c s) h.
Proof.
  intros Hx Hs Hy. unfold http_connection_admit_call. repeat fwd.
  intros al. unfold mbind, H_bind, put_connection, put_state, hget, hput, mbind, H_bind, hlift.
  destruct (value_bool true al) as [o al']. etrans; [by apply (put_connection_le h x c (admit_connection c))|].
  exact (put_state_le (set_connections (<[x:=admit_connection c]> (connections h)) h) y s _ Hy (set_admitted_le _ s)).
Qed.

Lemma forward_live {B} e v (k : ref * VMHttpConnection * ref → H B) h :
  (∀ x c y, connections h !! x = Some c → connection_server c = Some y → forward (k (x, c, y)) h) →
  forward (r ← http_live_connection e v; k r) h.
Proof.
  intros Hk al. unfold http_live_connection, mbind, H_bind, hget, request_fault, hlift, trap.
  destruct (connection_of v h) as [[x c]|] eqn:Hc; [|done]. apply connection_of_inv in Hc as [-> Hx].
  destruct (connection_server c) as [y|] eqn:Hy; [|done]. destruct (_ || _); [done|]. by apply Hk.
Qed.

Lemma connection_call_forward e name a h : forward (builtins_http_connection_call e name a) h.
Proof.
  unfold builtins_http_connection_call, http_bytes_slice_call. destruct (is_name _ _); [repeat fwd|].
  fwd. apply forward_live. intros x c y Hx Hy. fwd. destruct (states h !! y) as [s|] eqn:Hs; [|apply forward_lift].
  repeat match goal with
  | |- forward (http_body_append_call _ _ _) _ => apply body_append_forward; eauto
  | |- forward (http_connection_admit_call _ _ _ _) _ => apply admit_forward; eauto
  | _ => fwd
  end.
Qed.

Lemma connection_create_forward server slot h : http_ok h → forward (http_connection_create server slot) h.
Proof.
  intros Hok. unfold http_connection_create, http_writer_create. repeat fwd. apply forward_assoc. fwd.
  apply forward_assoc. fwd. intros al.
  destruct (http_fresh h Hok (next_object h)) as (_ & Hw & _); [lia|].
  destruct (http_fresh h Hok (Pos.succ (next_object h))) as (_ & _ & Hc); [lia|].
  split_and!; simpl; [done|apply insert_included; [by intros ?; apply _|congruence]..].
Qed.

Lemma alter_le {A} (R : A → A → Prop) `{!PreOrder R} (f : A → A) x (m : gmap ref A) :
  (∀ a, R a (f a)) → map_included (λ _, R) m (alter f x m).
Proof.
  intros Hf. destruct (m !! x) as [a|] eqn:Hx.
  - rewrite (alter_put f x a m Hx). apply insert_included; [by intros ?; apply _|]. intros b Hb. by simplify_eq.
  - replace (alter f x m) with m; [done|]. apply map_eq. intros y.
    destruct (decide (x = y)) as [<-|]; [by rewrite lookup_alter_eq, Hx|by rewrite lookup_alter_ne].
Qed.

Lemma end_writer_le w : writer_le w (end_writer w).
Proof. unfold end_writer. split; [done|by intros ->]. Qed.

Lemma connection_end_le x h : heap_le h (http_connection_end x h).
Proof.
  unfold http_connection_end. destruct (connections h !! x) as [c|] eqn:Hx; [|done].
  set (g := match connection_server c with Some _ => _ | None => h end).
  assert (heap_le h g) as Hg.
  { unfold g. destruct (connection_server c) as [y|]; [destruct (connection_admitted c)|]; [|done..].
    split_and!; simpl; [|done..]. apply alter_le; [apply _|]. intros. apply set_admitted_le. }
  assert (connections g = connections h) as Hcg.
  { unfold g. by destruct (connection_server c); [destruct (connection_admitted c)|]. }
  etrans; [exact Hg|]. split_and!; simpl; [done|apply alter_le; [apply _|apply end_writer_le]|].
  apply insert_included; [by intros ?; apply _|]. rewrite Hcg. intros t Ht. simplify_eq. by split_and!.
Qed.

Lemma http_step_le h h' : http_ok h → http_step h h' → heap_le h h'.
Proof.
  intros Hok (o & al & _ & ->). destruct o; simpl; [by apply state_call_forward|by apply writer_call_forward
    |by apply connection_call_forward|by apply connection_create_forward|by apply connection_end_le].
Qed.

Lemma http_steps h h' : http_ok h → rtc http_step h h' → http_ok h' ∧ heap_le h h'.
Proof.
  intros Hok Hr. induction Hr as [|h1 h2 h3 H12 _ IH]; [done|].
  pose proof (http_step_ok _ _ Hok H12). destruct IH as [? ?]; [done|]. split; [done|].
  etrans; [by apply http_step_le|done].
Qed.

(** ** Results *)

(** Bind addresses.  A value is accepted as an address exactly when it is a
    string of four numbers from 0 to 255, written in decimal without leading
    zeros and joined by dots. *)
Theorem valid_address_exact v :
  valid_address v = true ↔
  ∃ t n1 n2 n3 n4, v = Str t ∧ Forall (λ n, 0 ≤ n ≤ 255) [n1; n2; n3; n4] ∧
    data t = octet_text n1 ++ 46 :: octet_text n2 ++ 46 :: octet_text n3 ++ 46 :: octet_text n4.
Proof.
  split.
  - destruct v; try done. cbn [valid_address]. intros (l & Hl & Hf & Hd)%octets_exact.
    destruct l as [|n1 [|n2 [|n3 [|n4 []]]]]; try done. by exists t, n1, n2, n3, n4.
  - intros (t & n1 & n2 & n3 & n4 & -> & Hf & Hd). cbn [valid_address]. apply octets_exact. by exists [n1; n2; n3; n4].
Qed.

Definition no_objects : HttpHeap := mkHttp ∅ ∅ ∅ 1%positive.

Lemma no_objects_ok : http_ok no_objects.
Proof. split; try done. Qed.

(** C8: Invariant of HTTP objects.  Whatever the builtins are called with (any
    handles, any values, and any allocation failing), and whenever connections
    begin and end, every heap reached satisfies [http_ok]: a server has one
    route for each method and path, room for its routes, and an admission count
    that is the number of its admitted connections and at most four; a response
    has a status from 200 to 599, headers that are pairs of strings, and bytes
    exactly when completed; a body fits its buffer and one mebibyte; a
    connection has a server exactly until it ends.  No operation reaches
    undefined behaviour or an endless loop. *)
Theorem http_invariant h :
  rtc http_step no_objects h → http_ok h ∧ ∀ o, op_ok o h → hends (run_op o) h (λ _ h', http_ok h').
Proof.
  intros [Hok _]%http_steps; [|apply no_objects_ok]. split; [done|]. intros o. by apply op_ends.
Qed.

(** C24: Expiry.  Once the connection of a request has ended, then after any
    further operations of any executions, each call on its handle and each call
    on its response writer fails with a fault of the request, and changes
    nothing. *)
Theorem expired_forever h x c h' al :
  http_ok h → connections h !! x = Some c → rtc http_step (http_connection_end x h) h' →
  (∀ e name a, a !! 0%nat = Some (HttpConnection x) → is_name name "http_bytes_slice" = false →
     builtins_http_connection_call e name a h' al =
       (Trap VM_FAULT_REQUEST "VM trap: HTTP connection has expired or belongs to another request", h', al)) ∧
  (∀ name a, a !! 0%nat = Some (HttpWriter (writer c)) →
     builtins_http_writer_call name a h' al =
       (Trap VM_FAULT_REQUEST "VM trap: HTTP response writer has expired", h', al)).
Proof.
  intros Hok Hx Hr. apply http_steps in Hr as [_ (_ & Hw & Hc)]; [|by apply connection_end_ok].
  destruct (ok_writer _ _ (http_connections h Hok x c Hx)) as [w Hwx].
  specialize (Hw (writer c)). specialize (Hc x). unfold http_connection_end in Hw, Hc. rewrite Hx in Hw, Hc.
  simpl in Hw, Hc. rewrite lookup_insert_eq in Hc. rewrite lookup_alter_eq in Hw.
  replace (writers (match connection_server c with Some y => _ | None => h end)) with (writers h) in Hw
    by (by destruct (connection_server c); [destruct (connection_admitted c)|]).
  rewrite Hwx in Hw. simpl in Hw, Hc. split.
  - intros e name a Ha Hn. unfold builtins_http_connection_call, http_live_connection. rewrite Hn.
    unfold mbind, H_bind, harg, hlift, rd, hget, request_fault, hlift, trap. rewrite Ha. simpl.
    destruct (connections h' !! x) as [c'|]; [|done]. destruct Hc as (_ & _ & Hs). destruct (Hs eq_refl) as [E _]. simpl. by rewrite E.
  - intros name a Ha. unfold builtins_http_writer_call.
    unfold mbind, H_bind, harg, hlift, rd, hget, request_fault, hlift, trap. rewrite Ha. simpl.
    destruct (writers h' !! writer c) as [w'|]; [|done]. destruct Hw as [He _]. simpl. by rewrite (He eq_refl).
Qed.

(** The handler a selection names. *)
Inductive selects (s : VMHttpState) : list Z → list Value → Value → Prop :=
| select_fallback name v : is_name name "None" = true → fallback s = Some v → selects s name [] v
| select_route name i n r : is_name name "Some" = true → value_index i = Some n →
    routes s !! Z.to_nat n = Some r → selects s name [i] (handler r).

Lemma selected_yields s name values :
  yields (selected_handler s name values) (λ o, ∀ v, o = Some v → selects s name values v).
Proof.
  unfold selected_handler. destruct (_ && _) eqn:E1.
  { apply andb_true_iff in E1 as [E1 ->%bool_decide_eq_true]. apply yields_ret. intros v Hv. by constructor. }
  destruct (is_name name "Some") eqn:E2; [|by apply yields_ret].
  destruct values as [|i [|]]; [by apply yields_ret| |by apply yields_ret].
  destruct (value_index i) as [n|] eqn:Hi; [|by apply yields_trap].
  destruct (routes s !! Z.to_nat n) as [r|] eqn:Hr; [|by apply yields_trap].
  apply yields_ret. intros v [= <-]. by econstructor.
Qed.

Lemma find_some {A} (f : A → bool) l a : find f l = Some a → a ∈ l ∧ f a = true.
Proof. intros [H1 H2]%List.find_some. split; [by apply list_elem_of_In|done]. Qed.

Lemma hresult_bind {A B} (m : H A) (k : A → H B) h al b h' al' :
  (x ← m; k x) h al = (Ret b, h', al') →
  ∃ a h1 al1, m h al = (Ret a, h1, al1) ∧ k a h1 al1 = (Ret b, h', al').
Proof.
  unfold mbind at 1, H_bind. destruct (m h al) as [[[a| | | |] h1] al1]; try done. by exists a, h1, al1.
Qed.
Lemma hresult_arg a i h al v h' al' :
  harg a i h al = (Ret v, h', al') → a !! i = Some v ∧ h' = h ∧ al' = al.
Proof. unfold harg, hlift, rd. destruct (a !! i); [|done]. by intros [= -> -> ->]. Qed.

Lemma hresult_live e v h al x c y h' al' :
  http_live_connection e v h al = (Ret (x, c, y), h', al') →
  v = HttpConnection x ∧ connections h !! x = Some c ∧ connection_server c = Some y ∧ execution c = e ∧ h' = h.
Proof.
  unfold http_live_connection, mbind, H_bind, hget, request_fault, hlift, trap.
  destruct (connection_of v h) as [[x' c']|] eqn:Hc; [|done]. apply connection_of_inv in Hc as [-> Hx].
  destruct (connection_server c') as [y'|] eqn:Hy; [|done]. destruct (_ || _) eqn:Hg; [done|].
  apply orb_false_iff in Hg as [_ Hg%negb_false_iff%bool_decide_eq_true]. by intros [= -> -> -> -> ->].
Qed.

(** C25: Handlers of requests.  When a connection is given to a handler, the
    handle is that of a live and admitted connection of the calling execution,
    the selection is a route of its server or its fallback, the function is the
    one of the program with the registered name, an asynchronous impure
    function that takes exactly the arguments passed, and nothing changes. *)
Theorem http_handler_selected p e a h al g args h' al' :
  http_connection_handler p e a h al = (Ret (g, args), h', al') →
  h' = h ∧ (g ∈ functions p ∧ is_async g = true ∧ pure g = false ∧ length args = length (params g)) ∧
  ∃ x c y s name values t,
    a !! 0%nat = Some (HttpConnection x) ∧ connections h !! x = Some c ∧
    connection_admitted c = true ∧ execution c = e ∧ connection_server c = Some y ∧ states h !! y = Some s ∧
    a !! 1%nat = Some (Variant name values) ∧ selects s name values (Str t) ∧ cstr (fname g) = data t.
Proof.
  unfold http_connection_handler.
  intros (a0 & h1 & al1 & (H0 & -> & ->)%hresult_arg & H)%hresult_bind.
  apply hresult_bind in H as ([[x c] y] & h1 & al1 & (-> & Hx & Hy & He & ->)%hresult_live & H).
  unfold hrequire in H. destruct (connection_admitted c) eqn:Ha; [|done].
  apply hresult_bind in H as (a1 & h1 & al2 & (H1 & -> & ->)%hresult_arg & H).
  destruct a1 as []; try done. unfold mbind at 1, H_bind at 1, hget in H.
  destruct (states h !! y) as [s|] eqn:Hs; [|done].
  apply hresult_bind in H as (sel & h1 & al2 & Hsel & H).
  unfold hlift in Hsel. match type of Hsel with context [selected_handler s ?n ?l] =>
    pose proof (selected_yields s n l al1) as Hy' end.
  destruct (selected_handler _ _ _ _) as [[o| | | |] al3]; try done. injection Hsel as -> <- <-.
  destruct sel as [[]|]; try done. destruct (handler_function p _) as [g'|] eqn:Hf; [|done].
  destruct (_ && _) eqn:Hg; [|done]. apply andb_true_iff in Hg as [[Hg1 Hg2%negb_true_iff]%andb_true_iff Hg3%Nat.eqb_eq].
  apply hresult_bind in H as (a2 & h1 & al2 & (_ & -> & ->)%hresult_arg & H).
  apply hresult_bind in H as (a3 & h1 & al2 & (_ & -> & ->)%hresult_arg & H). injection H as -> <- <- <-.
  unfold handler_function in Hf. apply find_some in Hf as [Hin [_ Hn%bool_decide_eq_true]%andb_true_iff].
  split_and!; try done; [rewrite Hg3; by destruct (contextual s)|]. repeat eexists; try done. by apply Hy'.
Qed.

(** ** Concrete instances *)

Definition str_value (s : string) : Value := Str (text_of (str s)).

(** A server with one route, and a connection that it has admitted. *)
Definition serving : list http_op :=
  [StateCall (str "http_state_create") [str_value "127.0.0.1"; Nat_ (mkBig 1 [8080]); VUnit];
   StateCall (str "http_state_register") [HttpState 1%positive; str_value "GET"; str_value "/"; str_value "home"];
   Connect 1%positive 0;
   ConnectionCall None (str "http_connection_admit") [HttpConnection 3%positive]].

Fixpoint run_ops (l : list http_op) (h : HttpHeap) : HttpHeap :=
  match l with [] => h | o :: l => run_ops l (snd (fst (run_op o h []))) end.
Definition served : HttpHeap := run_ops serving no_objects.

Fixpoint ops_ok (l : list http_op) (h : HttpHeap) : Prop :=
  match l with [] => True | o :: l => op_ok o h ∧ ops_ok l (snd (fst (run_op o h []))) end.

Lemma run_ops_reached l h : ops_ok l h → rtc http_step h (run_ops l h).
Proof.
  revert h. induction l as [|o l IH]; intros h; [constructor|]. intros [Ho Hl]. simpl.
  eapply rtc_l; [by exists o, []|]. by apply IH.
Qed.

Lemma served_reached : rtc http_step no_objects served.
Proof.
  apply run_ops_reached. unfold serving. cbn [ops_ok op_ok].
  split_and!; [apply Nat.leb_le; vm_compute; reflexivity..|eexists; vm_compute; reflexivity
    |apply Nat.leb_le; vm_compute; reflexivity|done].
Qed.

Lemma http_invariant_witness :
  (admitted <$> states served !! 1%positive) = Some 1%nat ∧ http_ok served.
Proof. split; [vm_compute; reflexivity|]. apply (http_invariant served served_reached). Defined.

Lemma expired_forever_witness :
  builtins_http_writer_call (str "http_writer_get_status") [HttpWriter 2%positive] (http_connection_end 3%positive served) [] =
    (Trap VM_FAULT_REQUEST "VM trap: HTTP response writer has expired", http_connection_end 3%positive served, []).
Proof.
  assert (is_Some (connections served !! 3%positive)) as [c Hc] by (eexists; vm_compute; reflexivity).
  assert (writer c = 2%positive) as Hw by (revert Hc; vm_compute; by intros [= <-]).
  destruct (expired_forever served 3%positive c (http_connection_end 3%positive served) []) as [_ H].
  - destruct (http_steps no_objects served no_objects_ok served_reached). done.
  - exact Hc.
  - apply rtc_refl.
  - apply H. by rewrite Hw.
Defined.

Definition home : Function := mkFunction (str "home") false true false [str "request"; str "body"] [OP_RETURN].
Definition site : Program := mkProgram [home] true.

Lemma http_handler_selected_witness :
  ∃ h' al', http_connection_handler site None
    [HttpConnection 3%positive; Variant (str "Some") [Nat_ (mkBig 0 [])]; VUnit; VUnit] served [] =
    (Ret (home, [VUnit; VUnit]), h', al') ∧ h' = served ∧ home ∈ functions site.
Proof.
  assert (http_connection_handler site None
    [HttpConnection 3%positive; Variant (str "Some") [Nat_ (mkBig 0 [])]; VUnit; VUnit] served [] =
    (Ret (home, [VUnit; VUnit]), served, [])) as E by (vm_compute; reflexivity).
  exists served, []. destruct (http_handler_selected _ _ _ _ _ _ _ _ _ E) as (_ & (Hin & _) & _).
  split; [exact E|split; [reflexivity|exact Hin]].
Defined.
