(* ===== verification/TcpServer.v ===== *)
(** * TCP server: src/src/vm/tcp_server.c, tcp_server.h

    The server that runs one execution for each client: its client slots, its
    deadlines, admission, reading, running and writing, readiness, draining and
    the report.  The operating system is an interface; so are the executions of
    handlers, which see the slot of their client through two callbacks, and the
    heap of HTTP objects through the builtins. *)

From Stdlib Require Import ZArith Lia.
From stdpp Require Import prelude gmap strings.
From S2P Require Import Prelude Bigint Value Equal Program Collections Execute HttpState.

Definition SERVER_CLIENTS : nat := 256.
Definition SERVER_CONCURRENCY : nat := 32.
Definition SERVER_BYTES : Z := 1024 * 1024.
Definition SERVER_READ_CHUNK : Z := 16384.
Definition SERVER_TIMEOUT : Z := 60000.

(** ** The operating system *)

(** [recv]: bytes (none at the end of the stream), a call to repeat later
    ([EAGAIN], [EWOULDBLOCK], [EINTR]), or failure. *)
Inductive recv_result := Received (bytes : list Z) | RecvAgain | RecvFailed.
Inductive send_result := Sent (count : Z) | SendAgain | SendFailed.
Inductive accept_result := Accepted (fd : Z) | AcceptAgain | AcceptFailed.
(** [poll]: the number of ready descriptors and the events of each. *)
Inductive poll_result := Ready (count : Z) (revents : list Z) | PollInterrupted | PollFailed.

Record pollfd := mkPollfd { poll_fd : Z; poll_events : Z }.

Definition POLLIN : Z := 1.
Definition POLLOUT : Z := 4.
Definition POLLERR : Z := 8.
Definition POLLHUP : Z := 16.
Definition POLLNVAL : Z := 32.
Definition has (events mask : Z) : bool := negb (Z.land events mask =? 0).

Class Sockets (W : Type) := {
  (** seconds and nanoseconds of the monotonic clock *)
  clock_gettime : W → option (Z * Z) * W;
  inet_pton : list Z → bool;
  sys_socket : W → Z * W;
  fcntl_nonblock : Z → W → bool * W;
  fcntl_cloexec : Z → W → bool * W;
  setsockopt_reuse : Z → W → bool * W;
  sys_bind : Z → list Z → Z → W → bool * W;
  sys_listen : Z → Z → W → bool * W;
  sys_accept : Z → W → accept_result * W;
  sys_recv : Z → Z → W → recv_result * W;
  sys_send : Z → list Z → W → send_result * W;
  sys_poll : list pollfd → Z → W → poll_result * W;
  sys_close : Z → W → W;
  (** a detached write of a diagnostic to standard error *)
  write_log : list Z → W → W;
}.

(** What POSIX promises: no more bytes than asked for, and at least one byte of
    those offered when the call succeeds on some. *)
Class SocketsLaws (W : Type) `{!Sockets W} := {
  recv_bound fd n w bytes w' : sys_recv fd n w = (Received bytes, w') → Z.of_nat (length bytes) ≤ n;
  send_bound fd l w n w' : sys_send fd l w = (Sent n, w') → 0 ≤ n ≤ Z.of_nat (length l);
}.

(** ** Servers *)

#[global] Instance Constant_eq_dec : EqDecision Constant.
Proof. solve_decision. Defined.
#[global] Instance Instruction_eq_dec : EqDecision Instruction.
Proof. solve_decision. Defined.
#[global] Instance Function_eq_dec : EqDecision Function.
Proof. solve_decision. Defined.

Inductive ClientState :=
| CLIENT_FREE | CLIENT_READ | CLIENT_START | CLIENT_RUN | CLIENT_STREAM_READ | CLIENT_INTERIM_WRITE | CLIENT_WRITE.

#[global] Instance ClientState_eq_dec : EqDecision ClientState.
Proof. solve_decision. Defined.

Record VMTcpServerLimits := mkLimits {
  clients_limit : Z;
  concurrency : nat;
  request_limit : Z;
  response_limit : Z;
  client_timeout_ms : Z;
  admission_timeout_ms : Z;
  drain_ms : Z;
}.
Record VMTcpServiceLimits := mkServiceLimits {
  service_concurrency : nat;
  service_request_limit : Z;
  service_response_limit : Z;
  service_client_timeout_ms : Z;
  service_drain_ms : Z;
}.

(** [request] holds the bytes received so far ([received] is their number) when
    there is a buffer.  [http_connection] is the identity of the connection. *)
Record ServerClient (E : Type) := mkClient {
  state : ClientState;
  fd : Z;
  outcome_index : Z;
  received : Z;
  sent : nat;
  client_deadline : Z;
  request : option (list Z);
  response : option Value;
  http_connection : option ref;
  interim_sent : nat;
  client_execution : option E;
  fake_pending : bool;
  fake_fail : bool;
  read_limit : Z;
  stream_eof : bool;
}.
Arguments mkClient {_}. Arguments state {_}. Arguments fd {_}. Arguments outcome_index {_}. Arguments received {_}.
Arguments sent {_}. Arguments client_deadline {_}. Arguments request {_}. Arguments response {_}.
Arguments http_connection {_}. Arguments interim_sent {_}. Arguments client_execution {_}.
Arguments fake_pending {_}. Arguments fake_fail {_}. Arguments read_limit {_}. Arguments stream_eof {_}.

(** The fields fixed before the server is pumped. *)
Record Setup := mkSetup {
  filesystem : bool;
  console : bool;
  continuous : bool;
  routed : bool;
  outbound : bool;
  streaming : bool;
  server_handler : option Function;
  server_context : option Value;
  limits : VMTcpServerLimits;
}.

Record VMTcpServer (E : Type) := mkServer {
  setup : Setup;
  ready_pending : bool;
  ready_console : bool;
  ready_handler : option Function;
  ready_context : option Value;
  ready_execution : option E;
  succeeded : Z;
  failures : Z;
  clients : list (ServerClient E);
  outcomes : list (option Value);
  server_result : option Value;
  clients_admitted : Z;
  active : Z;
  next_io : nat;
  next_handler : nat;
  admission_deadline : Z;
  drain_deadline : Z;
  listener : Z;
  stopping : bool;
  done_ : bool;
  server_error : option string;
}.
Arguments mkServer {_}. Arguments setup {_}. Arguments ready_pending {_}. Arguments ready_console {_}.
Arguments ready_handler {_}. Arguments ready_context {_}. Arguments ready_execution {_}. Arguments succeeded {_}.
Arguments failures {_}. Arguments clients {_}. Arguments outcomes {_}. Arguments server_result {_}.
Arguments clients_admitted {_}. Arguments active {_}. Arguments next_io {_}. Arguments next_handler {_}.
Arguments admission_deadline {_}. Arguments drain_deadline {_}. Arguments listener {_}. Arguments stopping {_}.
Arguments done_ {_}. Arguments server_error {_}.

(** ** The resource runtime (http_runtime.h, http_runtime.c) *)

(** A listening server of the runtime: the identity of its handle and of its
    server. *)
Record VMHttpResource := mkResource {
  handle : ref;
  resource_server : ref;
  close_requested : bool;
  destroy_requested : bool;
}.

Record VMHttpRuntime := mkRuntime {
  active_resources : list VMHttpResource;
  pending_resources : list VMHttpResource;
  runtime_error : option string;
  exit_requested : bool;
  runtime_exit_status : Z;
}.

(** What servers and executions share: the heap of HTTP objects, the runtime,
    and the rest of the world. *)
Record Env (W : Type) := mkEnv {
  http : HttpHeap;
  runtime : option VMHttpRuntime;
  os : W;
}.
Arguments mkEnv {_}. Arguments http {_}. Arguments runtime {_}. Arguments os {_}.

Definition set_phase (ph : VMHttpPhase) (s : VMHttpState) : VMHttpState :=
  mkState ph (contextual s) (address s) (port s) (context s) (fallback s) (routes s) (route_capacity s)
    (admitted s) (setup_error s) (resource s).
Definition set_resource (r : option ref) (s : VMHttpState) : VMHttpState :=
  mkState (phase s) (contextual s) (address s) (port s) (context s) (fallback s) (routes s) (route_capacity s)
    (admitted s) (setup_error s) r.

Definition closing (s : VMHttpState) : VMHttpState :=
  if decide (phase s = HTTP_DESTROYED) then s else set_phase HTTP_CLOSING s.
Definition request_close (r : VMHttpResource) : VMHttpResource :=
  mkResource (handle r) (resource_server r) true (destroy_requested r).

(** Every resource is asked to close, in the order of the two lists. *)
Definition http_runtime_stop (r : VMHttpRuntime) (h : HttpHeap) : VMHttpRuntime * HttpHeap :=
  (mkRuntime (request_close <$> active_resources r) (request_close <$> pending_resources r)
     (runtime_error r) (exit_requested r) (runtime_exit_status r),
   set_states (foldl (λ m x, alter closing (handle x) m) (states h)
                 (active_resources r ++ pending_resources r)) h).

(** ** Executions of handlers *)

(** The interface of vm.h as the server uses it.  An execution has an identity
    ([vm->execution]); advancing it passes the slot of its client, which the
    callbacks below may change, and the shared state.  A diagnostic of a
    creation is the [error] it reports. *)
Class ServerExecutor (E W : Type) := {
  exec_id : E → ref;
  (** [vm_execution_create_async] on a copy of the template VM *)
  exec_create : ref → Function → Value → Env W → M (E * Env W);
  exec_enable_server_reads : E → bool * E;
  exec_enable_filesystem : E → E;
  exec_enable_console : E → E;
  exec_enable_tcp : E → E;
  exec_advance : nat → E → option (ServerClient E) → Env W →
    M (VMExecutionStatus * E * option (ServerClient E) * Env W);
  exec_poll_network : E → option (ServerClient E) → Env W → M (E * option (ServerClient E) * Env W);
  exec_complete_read : E → option Value → Env W → M (bool * E * Env W);
  exec_destroy : E → Env W → Env W;
  exec_result : E → option Value;
  exec_exit_status : E → Z;
  exec_error : E → option string;
  exec_fault : E → VMFaultKind;
}.

(** ** Computations of the server *)

Section server.
Context {E W : Type} `{!Sockets W, !ServerExecutor E W}.
Implicit Types (s : VMTcpServer E) (c : ServerClient E) (v : Env W).

Definition T (A : Type) : Type :=
  VMTcpServer E * Env W → allocator → outcome A * (VMTcpServer E * Env W) * allocator.

#[global] Instance T_ret : MRet T := λ A a x al, (Ret a, x, al).
#[global] Instance T_bind : MBind T := λ A B k m x al,
  match m x al with
  | (Ret a, x', al') => k a x' al'
  | (Trap f t, x', al') => (Trap f t, x', al')
  | (NoMem, x', al') => (NoMem, x', al')
  | (Undef, x', al') => (Undef, x', al')
  | (Diverge, x', al') => (Diverge, x', al')
  end.

Definition tlift {A} (m : M A) : T A := λ x al, let '(o, al') := m al in (o, x, al').
(** A constructor that may return NULL. *)
Definition nullable {A} (m : M A) : T (option A) := λ x al,
  match m al with
  | (Ret a, al') => (Ret (Some a), x, al')
  | (Trap _ _, al') | (NoMem, al') => (Ret None, x, al')
  | (Undef, al') => (Undef, x, al')
  | (Diverge, al') => (Diverge, x, al')
  end.
Definition get_server : T (VMTcpServer E) := λ x al, (Ret (fst x), x, al).
Definition get_env : T (Env W) := λ x al, (Ret (snd x), x, al).
Definition on_server (f : VMTcpServer E → VMTcpServer E) : T unit := λ x al, (Ret tt, (f (fst x), snd x), al).
Definition put_env (v : Env W) : T unit := λ x al, (Ret tt, (fst x, v), al).
Definition on_http (f : HttpHeap → HttpHeap) : T unit :=
  v ← get_env; put_env (mkEnv (f (http v)) (runtime v) (os v)).
Definition sys {A} (call : W → A * W) : T A :=
  v ← get_env;
  let '(a, w) := call (os v) in
  _ ← put_env (mkEnv (http v) (runtime v) w);
  mret a.
(** An operation on HTTP objects, whose failure is a NULL. *)
Definition on_objects {A} (m : H A) : T (option A) := λ x al,
  let '(o, h, al') := m (http (snd x)) al in
  let x' := (fst x, mkEnv h (runtime (snd x)) (os (snd x))) in
  match o with
  | Ret a => (Ret (Some a), x', al')
  | Trap _ _ | NoMem => (Ret None, x', al')
  | Undef => (Undef, x', al')
  | Diverge => (Diverge, x', al')
  end.

(** ** Updates *)

Definition free_client : ServerClient E :=
  mkClient CLIENT_FREE (-1) 0 0 0 0 None None None 0 None false false 0 false.

Definition set_state (st : ClientState) c := mkClient st (fd c) (outcome_index c) (received c) (sent c)
  (client_deadline c) (request c) (response c) (http_connection c) (interim_sent c) (client_execution c)
  (fake_pending c) (fake_fail c) (read_limit c) (stream_eof c).
Definition set_fd (n : Z) c := mkClient (state c) n (outcome_index c) (received c) (sent c)
  (client_deadline c) (request c) (response c) (http_connection c) (interim_sent c) (client_execution c)
  (fake_pending c) (fake_fail c) (read_limit c) (stream_eof c).
Definition set_received (n : Z) c := mkClient (state c) (fd c) (outcome_index c) n (sent c)
  (client_deadline c) (request c) (response c) (http_connection c) (interim_sent c) (client_execution c)
  (fake_pending c) (fake_fail c) (read_limit c) (stream_eof c).
Definition set_sent (n : nat) c := mkClient (state c) (fd c) (outcome_index c) (received c) n
  (client_deadline c) (request c) (response c) (http_connection c) (interim_sent c) (client_execution c)
  (fake_pending c) (fake_fail c) (read_limit c) (stream_eof c).
Definition set_buffer (r : option (list Z)) c := mkClient (state c) (fd c) (outcome_index c) (received c) (sent c)
  (client_deadline c) r (response c) (http_connection c) (interim_sent c) (client_execution c)
  (fake_pending c) (fake_fail c) (read_limit c) (stream_eof c).
Definition set_response (r : option Value) c := mkClient (state c) (fd c) (outcome_index c) (received c) (sent c)
  (client_deadline c) (request c) r (http_connection c) (interim_sent c) (client_execution c)
  (fake_pending c) (fake_fail c) (read_limit c) (stream_eof c).
Definition set_http_connection (x : option ref) c := mkClient (state c) (fd c) (outcome_index c) (received c)
  (sent c) (client_deadline c) (request c) (response c) x (interim_sent c) (client_execution c)
  (fake_pending c) (fake_fail c) (read_limit c) (stream_eof c).
Definition set_interim_sent (n : nat) c := mkClient (state c) (fd c) (outcome_index c) (received c) (sent c)
  (client_deadline c) (request c) (response c) (http_connection c) n (client_execution c)
  (fake_pending c) (fake_fail c) (read_limit c) (stream_eof c).
Definition set_client_execution (e : option E) c := mkClient (state c) (fd c) (outcome_index c) (received c) (sent c)
  (client_deadline c) (request c) (response c) (http_connection c) (interim_sent c) e
  (fake_pending c) (fake_fail c) (read_limit c) (stream_eof c).
Definition set_fake (pend fail : bool) c := mkClient (state c) (fd c) (outcome_index c) (received c) (sent c)
  (client_deadline c) (request c) (response c) (http_connection c) (interim_sent c) (client_execution c)
  pend fail (read_limit c) (stream_eof c).
Definition set_read_limit (n : Z) c := mkClient (state c) (fd c) (outcome_index c) (received c) (sent c)
  (client_deadline c) (request c) (response c) (http_connection c) (interim_sent c) (client_execution c)
  (fake_pending c) (fake_fail c) n (stream_eof c).
Definition set_stream_eof (b : bool) c := mkClient (state c) (fd c) (outcome_index c) (received c) (sent c)
  (client_deadline c) (request c) (response c) (http_connection c) (interim_sent c) (client_execution c)
  (fake_pending c) (fake_fail c) (read_limit c) b.

Definition set_setup (p : Setup) s := mkServer p (ready_pending s) (ready_console s)
  (ready_handler s) (ready_context s) (ready_execution s) (succeeded s) (failures s) (clients s) (outcomes s)
  (server_result s) (clients_admitted s) (active s) (next_io s) (next_handler s) (admission_deadline s)
  (drain_deadline s) (listener s) (stopping s) (done_ s) (server_error s).
(** [ready_pending], [ready_console], [ready_handler], [ready_context] *)
Definition set_readiness (p b : bool) (g : option Function) (x : option Value) s := mkServer (setup s) p b
  g x (ready_execution s) (succeeded s) (failures s) (clients s) (outcomes s)
  (server_result s) (clients_admitted s) (active s) (next_io s) (next_handler s) (admission_deadline s)
  (drain_deadline s) (listener s) (stopping s) (done_ s) (server_error s).
Definition set_ready_execution (e : option E) s := mkServer (setup s) (ready_pending s) (ready_console s)
  (ready_handler s) (ready_context s) e (succeeded s) (failures s) (clients s) (outcomes s)
  (server_result s) (clients_admitted s) (active s) (next_io s) (next_handler s) (admission_deadline s)
  (drain_deadline s) (listener s) (stopping s) (done_ s) (server_error s).
Definition set_counters (ok bad : Z) s := mkServer (setup s) (ready_pending s) (ready_console s)
  (ready_handler s) (ready_context s) (ready_execution s) ok bad (clients s) (outcomes s)
  (server_result s) (clients_admitted s) (active s) (next_io s) (next_handler s) (admission_deadline s)
  (drain_deadline s) (listener s) (stopping s) (done_ s) (server_error s).
Definition set_clients (l : list (ServerClient E)) s := mkServer (setup s) (ready_pending s) (ready_console s)
  (ready_handler s) (ready_context s) (ready_execution s) (succeeded s) (failures s) l (outcomes s)
  (server_result s) (clients_admitted s) (active s) (next_io s) (next_handler s) (admission_deadline s)
  (drain_deadline s) (listener s) (stopping s) (done_ s) (server_error s).
Definition set_outcomes (l : list (option Value)) s := mkServer (setup s) (ready_pending s) (ready_console s)
  (ready_handler s) (ready_context s) (ready_execution s) (succeeded s) (failures s) (clients s) l
  (server_result s) (clients_admitted s) (active s) (next_io s) (next_handler s) (admission_deadline s)
  (drain_deadline s) (listener s) (stopping s) (done_ s) (server_error s).
Definition set_server_result (r : option Value) s := mkServer (setup s) (ready_pending s) (ready_console s)
  (ready_handler s) (ready_context s) (ready_execution s) (succeeded s) (failures s) (clients s) (outcomes s)
  r (clients_admitted s) (active s) (next_io s) (next_handler s) (admission_deadline s)
  (drain_deadline s) (listener s) (stopping s) (done_ s) (server_error s).
(** [admitted] and [active] *)
Definition set_counts (n k : Z) s := mkServer (setup s) (ready_pending s) (ready_console s)
  (ready_handler s) (ready_context s) (ready_execution s) (succeeded s) (failures s) (clients s) (outcomes s)
  (server_result s) n k (next_io s) (next_handler s) (admission_deadline s)
  (drain_deadline s) (listener s) (stopping s) (done_ s) (server_error s).
(** [next_io] and [next_handler] *)
Definition set_cursors (i j : nat) s := mkServer (setup s) (ready_pending s) (ready_console s)
  (ready_handler s) (ready_context s) (ready_execution s) (succeeded s) (failures s) (clients s) (outcomes s)
  (server_result s) (clients_admitted s) (active s) i j (admission_deadline s)
  (drain_deadline s) (listener s) (stopping s) (done_ s) (server_error s).
Definition set_admission_deadline (n : Z) s := mkServer (setup s) (ready_pending s) (ready_console s)
  (ready_handler s) (ready_context s) (ready_execution s) (succeeded s) (failures s) (clients s) (outcomes s)
  (server_result s) (clients_admitted s) (active s) (next_io s) (next_handler s) n
  (drain_deadline s) (listener s) (stopping s) (done_ s) (server_error s).
(** [stopping] and [drain_deadline] *)
Definition set_drain (b : bool) (n : Z) s := mkServer (setup s) (ready_pending s) (ready_console s)
  (ready_handler s) (ready_context s) (ready_execution s) (succeeded s) (failures s) (clients s) (outcomes s)
  (server_result s) (clients_admitted s) (active s) (next_io s) (next_handler s) (admission_deadline s)
  n (listener s) b (done_ s) (server_error s).
Definition set_listener (n : Z) s := mkServer (setup s) (ready_pending s) (ready_console s)
  (ready_handler s) (ready_context s) (ready_execution s) (succeeded s) (failures s) (clients s) (outcomes s)
  (server_result s) (clients_admitted s) (active s) (next_io s) (next_handler s) (admission_deadline s)
  (drain_deadline s) n (stopping s) (done_ s) (server_error s).
(** [done] and [error] *)
Definition set_done (t : option string) s := mkServer (setup s) (ready_pending s) (ready_console s)
  (ready_handler s) (ready_context s) (ready_execution s) (succeeded s) (failures s) (clients s) (outcomes s)
  (server_result s) (clients_admitted s) (active s) (next_io s) (next_handler s) (admission_deadline s)
  (drain_deadline s) (listener s) (stopping s) true t.

(** [&server->clients[i]] *)
Definition get_client (i : nat) : T (ServerClient E) := s ← get_server; tlift (rd (clients s) i).
Definition put_client (i : nat) c : T unit := on_server (λ s, set_clients (<[i:=c]> (clients s)) s).
Definition not_null {A} (o : option A) : T A := match o with Some a => mret a | None => tlift undef end.

(** [server->active--] *)
Definition drop_active s := set_counts (clients_admitted s) (u64 (active s - 1)) s.

Definition each_slot (n : nat) (f : nat → T unit) : T unit := foldr (λ i k, _ ← f i; k) (mret tt) (seq 0 n).

(** ** Releasing *)

Definition close_fd (n : Z) : T unit := if 0 <=? n then sys (λ w, (tt, sys_close n w)) else mret tt.

Definition destroy_execution (o : option E) : T unit :=
  match o with Some e => v ← get_env; put_env (exec_destroy e v) | None => mret tt end.

Definition client_clear (i : nat) : T unit :=
  c ← get_client i;
  _ ← close_fd (fd c);
  _ ← (match http_connection c with Some x => on_http (http_connection_end x) | None => mret tt end);
  _ ← destroy_execution (client_execution c);
  put_client i free_client.

Definition clear_ready : T unit :=
  s ← get_server;
  _ ← destroy_execution (ready_execution s);
  _ ← on_server (set_ready_execution None);
  on_server (λ s, set_readiness false (ready_console s) (ready_handler s) (ready_context s) s).

Definition close_listener : T unit :=
  s ← get_server; _ ← close_fd (listener s); on_server (set_listener (-1)).

Definition close_all : T unit :=
  _ ← clear_ready;
  _ ← close_listener;
  _ ← each_slot SERVER_CONCURRENCY client_clear;
  on_server (λ s, set_counts (clients_admitted s) 0 s).

(** [trap] of the file *)
Definition server_trap (t : string) : T unit :=
  _ ← on_server (set_done (Some t));
  close_all.

Definition result_value (ok : bool) (payload : Value) : M Value :=
  named_value V_VARIANT (str (if ok then "Ok" else "Error")) [] [payload].
Definition error_value (t : string) : M Value :=
  payload ← value_data V_STR (str t); result_value false payload.

Definition server_fail (t : string) : T unit :=
  r ← nullable (error_value t);
  _ ← on_server (set_server_result r);
  _ ← on_server (λ s, set_done (server_error s) s);
  _ ← close_all;
  match r with None => server_trap out_of_memory | Some _ => mret tt end.

(** A counter stays at its greatest value. *)
Definition saturate (n : Z) : Z := if n <? SIZE_MAX then n + 1 else n.

Definition report (i : nat) (r : Value) : T unit :=
  c ← get_client i;
  s ← get_server;
  l ← tlift (wr (outcomes s) (Z.to_nat (outcome_index c)) (Some r));
  _ ← on_server (set_outcomes l);
  _ ← client_clear i;
  on_server drop_active.

Definition finish_client (i : nat) (t : option string) : T unit :=
  s ← get_server;
  if continuous (setup s) then
    _ ← on_server (λ s, match t with
                        | Some _ => set_counters (succeeded s) (saturate (failures s)) s
                        | None => set_counters (saturate (succeeded s)) (failures s) s
                        end);
    _ ← client_clear i;
    on_server drop_active
  else
    r ← nullable (match t with
                  | Some t => error_value t
                  | None => payload ← value_unit; result_value true payload
                  end);
    match r with
    | None => server_trap out_of_memory
    | Some r => report i r
    end.

(** ** Responses of routed servers *)

Definition crlf : list Z := [13; 10].
Definition lines (l : list string) (body : string) : list Z :=
  concat ((λ t, str t ++ crlf) <$> l) ++ crlf ++ str body ++ [10].
Definition http_internal_error : list Z :=
  lines ["HTTP/1.1 500 Internal Server Error"; "Content-Length: 22"; "Connection: close"] "Internal Server Error".
Definition http_timeout_error : list Z :=
  lines ["HTTP/1.1 504 Gateway Timeout"; "Content-Length: 16"; "Connection: close"] "Gateway Timeout".

(** The value of the text is built first; the write is given up without it. *)
Definition http_log (message : list Z) : T unit :=
  let message := take 512 message in
  r ← nullable (value_data V_STR message);
  match r with Some _ => sys (λ w, (tt, write_log message w)) | None => mret tt end.

(** [client->http_connection->as.http_connection->writer->as.http_writer] *)
Definition client_writer c : T (ref * VMHttpConnection * VMHttpWriter) :=
  x ← not_null (http_connection c);
  v ← get_env;
  k ← not_null (connections (http v) !! x);
  w ← not_null (writers (http v) !! writer k);
  mret (x, k, w).

Definition http_attach_response (i : nat) : T unit :=
  c ← get_client i;
  match response c, http_connection c with
  | None, Some _ =>
      '(_, _, w) ← client_writer c;
      if completed w then put_client i (set_response (wire w) c) else mret tt
  | _, _ => mret tt
  end.

Definition payload_bytes (v : Value) : T (list Z) := match v with Bytes l => mret l | _ => tlift undef end.

Definition http_deadline_response (i : nat) : T unit :=
  c ← get_client i;
  if fd c <? 0 then mret tt
  else
    _ ← http_attach_response i;
    c ← get_client i;
    message ← (match response c with
               | Some r => l ← payload_bytes r; mret (drop (sent c) l)
               | None => mret http_timeout_error
               end);
    _ ← sys (sys_send (fd c) message);
    mret tt.

Definition set_connection_execution (e : option ref) (k : VMHttpConnection) : VMHttpConnection :=
  mkConnection (connection_ended k) (connection_admitted k) (connection_server k) (client k) e (writer k)
    (body k) (body_capacity k).

(** [writer->ended = true] and [http_connection->execution = NULL] *)
Definition expire (x : ref) (k : VMHttpConnection) (h : HttpHeap) : HttpHeap :=
  set_connections (alter (set_connection_execution None) x (connections h))
    (set_writers (alter end_writer (writer k) (writers h)) h).

Definition http_finish_execution (i : nat) : T unit :=
  c ← get_client i;
  '(x, k, _) ← client_writer c;
  _ ← http_attach_response i;
  _ ← on_http (expire x k);
  _ ← destroy_execution (client_execution c);
  c ← get_client i;
  _ ← put_client i (set_client_execution None c);
  r ← not_null (response c);
  l ← payload_bytes r;
  if Nat.eqb (sent c) (length l) then finish_client i None
  else c ← get_client i; put_client i (set_state CLIENT_WRITE c).

Definition bad_worker : string := "VM trap: invalid HTTP worker result".
Definition no_response : string := "HTTP handler returned without sending a response".

(** The diagnostics of a handler; [false] when the server has trapped. *)
Definition log_outcome (trapped : bool) (e : E) (w : VMHttpWriter) : T bool :=
  if trapped then
    _ ← http_log (str (default "HTTP request failed" (exec_error e)));
    mret true
  else
    match exec_result e with
    | Some (Variant name [payload]) =>
        match is_name name "Error", payload with
        | true, Str t => _ ← http_log (data t); mret true
        | _, _ =>
            if negb (is_name name "Ok") || negb (is_kind payload V_UNIT)
            then _ ← server_trap bad_worker; mret false
            else if completed w then mret true
            else _ ← http_log (str no_response); mret true
        end
    | _ => _ ← server_trap bad_worker; mret false
    end.

Definition http_handler_finished (i : nat) (trapped : bool) : T unit :=
  c ← get_client i;
  '(_, k, w) ← client_writer c;
  e ← not_null (client_execution c);
  going ← log_outcome trapped e w;
  if negb going then mret tt
  else if completed w then http_finish_execution i
  else
    r ← nullable (value_data V_BYTES http_internal_error);
    match r with
    | None => server_trap out_of_memory
    | Some r =>
        _ ← on_http (λ h, set_writers (alter (commit r) (writer k) (writers h)) h);
        http_finish_execution i
    end.

(** ** Time *)

(** The milliseconds of a reading of the clock. *)
Definition reading (r : option (Z * Z)) : option Z :=
  match r with
  | Some (sec, nsec) =>
      let now := u64 (u64 (sec * 1000) + nsec / 1000000) in
      if (sec <? 0) || (UINT64_MAX - SERVER_TIMEOUT <? now) then None else Some now
  | None => None
  end.

Definition clock_ms : T (option Z) := r ← sys clock_gettime; mret (reading r).

Definition configure (n : Z) : T bool :=
  nonblock ← sys (fcntl_nonblock n);
  if (nonblock : bool) then sys (fcntl_cloexec n) else mret false.

Definition stop_at (now : Z) : T unit :=
  s ← get_server;
  if stopping s then mret tt
  else
    _ ← on_server (set_drain true (u64 (now + drain_ms (limits (setup s)))));
    close_listener.

(** A client whose time has come, or that drains for too long. *)
Definition expire_client (now : Z) (i : nat) c : T unit :=
  s ← get_server;
  if client_deadline c <=? now then
    _ ← (if routed (setup s) then http_deadline_response i else mret tt);
    finish_client i (Some "TCP client timed out")
  else if stopping s && (drain_deadline s <=? now)
  then finish_client i (Some "TCP server drain cancelled client")
  else mret tt.

(** The clients whose time has come; [false] when the server is done. *)
Fixpoint deadline_loop (now : Z) (l : list nat) : T bool :=
  match l with
  | [] => mret true
  | i :: l =>
      c ← get_client i;
      if decide (state c = CLIENT_FREE) then deadline_loop now l
      else
        _ ← expire_client now i c;
        s ← get_server;
        if done_ s then mret false else deadline_loop now l
  end.

Definition summary_names : list (list Z) := str <$> ["accepted"; "succeeded"; "failed"].

(** All three numbers are made, then the record when none is NULL. *)
Definition summary : T (option Value) :=
  s ← get_server;
  a ← nullable (value_size (clients_admitted s));
  b ← nullable (value_size (succeeded s));
  d ← nullable (value_size (failures s));
  match a, b, d with
  | Some a, Some b, Some d =>
      nullable (r ← named_value V_RECORD (str "TcpServiceSummary") summary_names [a; b; d]; result_value true r)
  | _, _, _ => mret None
  end.

(** The outcomes of the clients, which must all be there. *)
Fixpoint reports (l : list (option Value)) : T (list Value) :=
  match l with
  | [] => mret []
  | o :: l => r ← not_null o; rest ← reports l; mret (r :: rest)
  end.

Definition report_list : T (option Value) :=
  s ← get_server;
  if Z.of_nat (length (outcomes s)) <? clients_admitted s then tlift undef
  else
    l ← reports (take (Z.to_nat (clients_admitted s)) (outcomes s));
    nullable (r ← value_sequence V_ARRAY l; result_value true r).

Definition conclude : T unit :=
  _ ← clear_ready;
  s ← get_server;
  r ← (if continuous (setup s) then summary else report_list);
  _ ← on_server (set_server_result r);
  _ ← on_server (λ s, set_done (server_error s) s);
  match r with None => server_trap out_of_memory | Some _ => mret tt end.

(** The time, unless the server is done. *)
Definition deadlines : T (option Z) :=
  s ← get_server;
  if done_ s then mret None
  else
    now ← clock_ms;
    match now with
    | None => _ ← server_fail "TCP server clock failed"; mret None
    | Some now =>
        _ ← (if negb (continuous (setup s)) && negb (stopping s) && (admission_deadline s <=? now)
             then stop_at (admission_deadline s) else mret tt);
        going ← deadline_loop now (seq 0 (concurrency (limits (setup s))));
        if negb going then mret None
        else
          s ← get_server;
          if stopping s && (active s =? 0) then _ ← conclude; mret None
          else mret (Some now)
    end.

(** ** Admission *)

Fixpoint free_slot (n : nat) (l : list (ServerClient E)) : nat :=
  match n, l with
  | S n, c :: l => if decide (state c = CLIENT_FREE) then 0 else S (free_slot n l)
  | _, _ => 0
  end.

Definition busy : list Z :=
  lines ["HTTP/1.1 503 Service Unavailable"; "Content-Length: 20"; "Connection: close"] "Service Unavailable".

Definition turn_away (n : Z) : T unit :=
  ok ← configure n;
  _ ← (if (ok : bool) then _ ← sys (sys_send n busy); mret tt else mret tt);
  sys (λ w, (tt, sys_close n w)).

Definition admit_client (slot : nat) (n now : Z) : T unit :=
  s ← get_server;
  let p := setup s in
  _ ← put_client slot
        (mkClient (if streaming p then CLIENT_START else CLIENT_READ) n (clients_admitted s) 0 0
           (u64 (now + client_timeout_ms (limits p))) None None None 0 None false false 0 false);
  _ ← on_server (λ s, set_counts (clients_admitted s + 1) (u64 (active s + 1)) s);
  ok ← configure n;
  _ ← (if (ok : bool) then
         if streaming p then mret tt
         else
           r ← nullable alloc;
           match r with
           | Some _ => c ← get_client slot; put_client slot (set_buffer (Some []) c)
           | None => server_trap out_of_memory
           end
       else finish_client slot (Some "TCP client socket failed"));
  s ← get_server;
  if negb (continuous p) && negb (done_ s) && (clients_admitted s =? clients_limit (limits p))
  then stop_at now else mret tt.

Definition accept_client (now : Z) : T unit :=
  s ← get_server;
  let p := setup s in
  if stopping s || (negb (routed p) && (active s =? Z.of_nat (concurrency (limits p)))) then mret tt
  else if clients_admitted s =? SIZE_MAX then server_fail "TCP service connection sequence exhausted"
  else
    let slot := free_slot (concurrency (limits p)) (clients s) in
    r ← sys (sys_accept (listener s));
    match r with
    | Accepted n => if Nat.eqb slot (concurrency (limits p)) then turn_away n else admit_client slot n now
    | AcceptAgain => mret tt
    | AcceptFailed => server_fail "TCP server accept failed"
    end.

(** ** Reading and writing *)

Definition read_client (i : nat) : T unit :=
  c ← get_client i;
  s ← get_server;
  r ← sys (sys_recv (fd c) 16384);
  match r with
  | Received [] => put_client i (set_state CLIENT_START c)
  | Received bytes =>
      let count := Z.of_nat (length bytes) in
      if u64 (request_limit (limits (setup s)) - received c) <? count
      then finish_client i (Some "TCP request limit exceeded")
      else
        l ← not_null (request c);
        put_client i (set_received (received c + count) (set_buffer (Some (l ++ bytes)) c))
  | RecvAgain => mret tt
  | RecvFailed => finish_client i (Some "TCP client read failed")
  end.

Definition bad_completion : string := "VM trap: invalid TCP server read completion".

Definition complete_stream_read (i : nat) (r : option Value) : T unit :=
  c ← get_client i;
  _ ← put_client i (set_read_limit 0 (set_state CLIENT_RUN c));
  match r with
  | None => server_trap bad_completion
  | Some _ =>
      e ← not_null (client_execution c);
      v ← get_env;
      '(ok, e, v) ← tlift (exec_complete_read e r v);
      _ ← put_env v;
      c ← get_client i;
      _ ← put_client i (set_client_execution (Some e) c);
      if (ok : bool) then mret tt else server_trap bad_completion
  end.

Definition deliver_chunk (i : nat) (bytes : list Z) : T unit :=
  r ← nullable (payload ← value_data V_BYTES bytes; result_value true payload);
  match r with
  | None => server_trap out_of_memory
  | Some _ => complete_stream_read i r
  end.

Definition read_stream_chunk (i : nat) : T unit :=
  c ← get_client i;
  s ← get_server;
  let p := setup s in
  if stream_eof c then deliver_chunk i []
  else
    r ← sys (sys_recv (fd c) (read_limit c));
    match r with
    | Received [] => _ ← put_client i (set_stream_eof true c); deliver_chunk i []
    | Received bytes =>
        let count := Z.of_nat (length bytes) in
        if negb (routed p) && (u64 (request_limit (limits p) - received c) <? count) then
          _ ← put_client i (set_stream_eof true c);
          r ← nullable (error_value "TCP request limit exceeded");
          complete_stream_read i r
        else
          _ ← (if routed p then mret tt else put_client i (set_received (received c + count) c));
          deliver_chunk i bytes
    | RecvAgain => mret tt
    | RecvFailed => r ← nullable (error_value "TCP client read failed"); complete_stream_read i r
    end.

Definition http_continue : list Z := str "HTTP/1.1 100 Continue" ++ crlf ++ crlf.

Definition write_interim (i : nat) : T unit :=
  c ← get_client i;
  r ← sys (sys_send (fd c) (drop (interim_sent c) http_continue));
  let finish := finish_client i (Some "HTTP interim write failed") in
  let check := c ← get_client i;
    if Nat.eqb (interim_sent c) (length http_continue) then
      r ← nullable (payload ← value_data V_BYTES []; result_value true payload);
      complete_stream_read i r
    else mret tt in
  match r with
  | Sent n =>
      if 0 <? n then _ ← put_client i (set_interim_sent (interim_sent c + Z.to_nat n) c); check
      else finish
  | SendAgain => check
  | SendFailed => finish
  end.

Definition write_client (i : nat) : T unit :=
  c ← get_client i;
  s ← get_server;
  r ← not_null (response c);
  l ← payload_bytes r;
  let check := c ← get_client i;
    if Nat.eqb (sent c) (length l) then
      match routed (setup s), client_execution c with
      | true, Some _ => _ ← close_fd (fd c); put_client i (set_fd (-1) c)
      | _, _ => finish_client i None
      end
    else mret tt in
  match drop (sent c) l with
  | [] => check
  | rest =>
      r ← sys (sys_send (fd c) (take (Z.to_nat 16384) rest));
      let finish := finish_client i (Some "TCP client write failed") in
      match r with
      | Sent n => if 0 <? n then _ ← put_client i (set_sent (sent c + Z.to_nat n) c); check else finish
      | SendAgain => check
      | SendFailed => finish
      end
  end.

(** ** The execution of a client *)

(** A call on the execution of a client; the callbacks it makes change the slot. *)
Definition with_execution {A} (i : nat)
  (call : E → option (ServerClient E) → Env W → M (A * E * option (ServerClient E) * Env W)) : T A :=
  c ← get_client i;
  e ← not_null (client_execution c);
  v ← get_env;
  '(a, e, o, v) ← tlift (call e (Some c) v);
  _ ← put_env v;
  _ ← (match o with Some c => put_client i (set_client_execution (Some e) c) | None => mret tt end);
  mret a.

Definition advance_client (i n : nat) : T VMExecutionStatus := with_execution i (exec_advance n).
Definition poll_client_network (i : nat) : T unit :=
  with_execution i (λ e o v, '(e, o, v) ← exec_poll_network e o v; mret (tt, e, o, v)).

(** The callback of [vm_execution_create_async] for a client. *)
Definition bad_limit : string := "VM trap: invalid TCP server read limit".

Definition server_read_wait (x : Value) c : bool * option string * ServerClient E :=
  match x with
  | Bool_ b => (true, None, set_fake true b c)
  | _ =>
      match value_index x with
      | Some n =>
          if (n =? 0) || (SERVER_READ_CHUNK <? n) || negb (bool_decide (state c = CLIENT_RUN)) ||
             negb (bool_decide (is_Some (client_execution c)))
          then (false, Some bad_limit, c)
          else (true, None, set_state CLIENT_STREAM_READ (set_read_limit n c))
      | None => (false, Some bad_limit, c)
      end
  end.

(** [tcp_server_http_continue] by the execution [e] of the client in slot [i];
    the slot of the connection is the caller's exactly when both have this
    execution. *)
Definition http_continue_call (i : nat) (e : ref) (token : Value) c : H (ServerClient E) :=
  '(_, k, _) ← http_live_connection (Some e) token;
  if negb (connection_admitted k) || negb (bool_decide (client k = Some i)) ||
     negb (bool_decide (state c = CLIENT_RUN)) || negb (Nat.eqb (interim_sent c) 0)
  then hlift (trap VM_FAULT_FATAL "VM trap: invalid HTTP interim response state")
  else mret (set_state CLIENT_INTERIM_WRITE c).

(** ** Polling *)

(** A descriptor watched, with the slot of its client and the client's sequence
    number; the listener has slot [SERVER_CONCURRENCY]. *)
Record Watch := mkWatch { watched : pollfd; watch_slot : nat; identity : Z }.

Definition watch c (i : nat) (events : Z) : Watch := mkWatch (mkPollfd (fd c) events) i (outcome_index c).

(** The clients from slot [next_io] on, with the time to wait until and how long. *)
Fixpoint collect (l : list nat) (ws : list Watch) (limit wait : Z) : T (list Watch * Z * Z) :=
  match l with
  | [] => mret (ws, limit, wait)
  | i :: l =>
      c ← get_client i;
      if decide (state c = CLIENT_FREE) then collect l ws limit wait
      else
        s ← get_server;
        let limit := if client_deadline c <? limit then client_deadline c else limit in
        _ ← (if routed (setup s) then http_attach_response i else mret tt);
        c ← get_client i;
        match state c with
        | CLIENT_START => collect l ws limit 0
        | CLIENT_RUN =>
            _ ← poll_client_network i;
            status ← advance_client i 0;
            c ← get_client i;
            let waiting := bool_decide (status = VM_WAITING) in
            let wait := if negb waiting || fake_pending c then 0 else wait in
            let ws := if routed (setup s) && (0 <=? fd c)
                      then ws ++ [watch c i (if response c then POLLOUT else 0)] else ws in
            collect l ws limit (if waiting && (1 <? wait) then 1 else wait)
        | st =>
            let events := match st with CLIENT_READ | CLIENT_STREAM_READ => POLLIN | _ => POLLOUT end in
            let events := match routed (setup s), response c with
                          | true, Some _ => Z.lor events POLLOUT | _, _ => events end in
            collect l (ws ++ [watch c i events]) limit wait
        end
  end.

Definition serve_client (i : nat) (events : Z) : T unit :=
  s ← get_server;
  let p := setup s in
  c ← get_client i;
  gone ← (match routed p && has events POLLOUT, response c with
          | true, Some _ =>
              _ ← write_client i;
              c ← get_client i;
              mret (bool_decide (state c = CLIENT_FREE) || (fd c <? 0))
          | _, _ => mret false
          end);
  if (gone : bool) then mret tt
  else
    c ← get_client i;
    if has events POLLNVAL || (routed p && has events POLLERR) ||
       (routed p && bool_decide (state c = CLIENT_RUN) && has events POLLHUP)
    then finish_client i (Some "TCP client socket failed")
    else
      match state c with
      | CLIENT_READ => read_client i
      | CLIENT_STREAM_READ => read_stream_chunk i
      | CLIENT_INTERIM_WRITE => write_interim i
      | CLIENT_WRITE => if routed p then mret tt else write_client i
      | _ => mret tt
      end.

Definition serve (w : Watch) (events now : Z) : T unit :=
  if Nat.eqb (watch_slot w) SERVER_CONCURRENCY then
    s ← get_server;
    if stopping s then mret tt
    else if has events (Z.lor POLLERR (Z.lor POLLHUP POLLNVAL)) then server_fail "TCP server listener failed"
    else accept_client now
  else
    c ← get_client (watch_slot w);
    if negb (fd c =? poll_fd (watched w)) || negb (outcome_index c =? identity w) ||
       bool_decide (state c = CLIENT_FREE)
    then mret tt
    else serve_client (watch_slot w) events.

(** The events of the descriptors watched; [false] when the server is done. *)
Fixpoint serve_all (ws : list Watch) (revents : list Z) : T bool :=
  match ws with
  | [] => mret true
  | w :: ws =>
      s ← get_server;
      if done_ s then mret true
      else
        now ← deadlines;
        match now with
        | None => mret false
        | Some now =>
            let events := default 0 (head revents) in
            _ ← (if events =? 0 then mret tt else serve w events now);
            serve_all ws (tail revents)
        end
  end.

Definition poll_ready (max_wait_ms : Z) : T unit :=
  s ← get_server;
  _ ← (match ready_execution s with
       | Some e =>
           v ← get_env;
           '(e, _, v) ← tlift (exec_poll_network e None v);
           _ ← put_env v;
           on_server (set_ready_execution (Some e))
       | None => mret tt
       end);
  _ ← (if max_wait_ms =? 0 then mret tt else _ ← sys (sys_poll [] 1); mret tt);
  _ ← deadlines;
  mret tt.

Definition io_order s : list nat :=
  let n := concurrency (limits (setup s)) in (λ j, ((next_io s + j) mod n)%nat) <$> seq 0 n.

Definition poll_clients (max_wait_ms now : Z) : T unit :=
  s ← get_server;
  let p := setup s in
  let limit := if stopping s then drain_deadline s
               else if continuous p then UINT64_MAX else admission_deadline s in
  let wait := Z.min max_wait_ms INT_MAX in
  let ws := if negb (stopping s) && (routed p || (active s <? Z.of_nat (concurrency (limits p))))
            then [mkWatch (mkPollfd (listener s) POLLIN) SERVER_CONCURRENCY 0] else [] in
  '(ws, limit, wait) ← collect (io_order s) ws limit wait;
  let left := u64 (limit - now) in
  r ← sys (sys_poll (watched <$> ws) (if left <? wait then left else wait));
  match r with
  | PollFailed => server_fail "TCP server poll failed"
  | PollInterrupted => mret tt
  | Ready count revents =>
      now ← deadlines;
      match now with
      | None => mret tt
      | Some _ =>
          if count =? 0 then mret tt
          else
            going ← serve_all ws revents;
            if negb going then mret tt
            else
              _ ← on_server (λ s, set_cursors ((next_io s + 1) mod concurrency (limits (setup s)))%nat
                                    (next_handler s) s);
              _ ← deadlines;
              mret tt
      end
  end.

Definition tcp_server_poll (max_wait_ms : Z) : T unit :=
  now ← deadlines;
  match now with
  | None => mret tt
  | Some now =>
      s ← get_server;
      if ready_pending s then poll_ready max_wait_ms else poll_clients max_wait_ms now
  end.

(** ** Running handlers *)

(** The execution or the diagnostic of its creation. *)
Definition create_execution (g : Function) (argument : Value) : T (E + string) := λ x al,
  let v := snd x in
  match exec_create (next_object (http v)) g argument
          (mkEnv (set_next (Pos.succ (next_object (http v))) (http v)) (runtime v) (os v)) al with
  | (Ret (e, v), al') => (Ret (inl e), (fst x, v), al')
  | (Trap _ t, al') => (Ret (inr t), x, al')
  | (NoMem, al') => (Ret (inr out_of_memory), x, al')
  | (Undef, al') => (Undef, x, al')
  | (Diverge, al') => (Diverge, x, al')
  end.

Definition connection_ref (v : Value) : option ref := match v with HttpConnection x => Some x | _ => None end.

(** The argument of the handler: the context, the request, or a connection. *)
Definition handler_request (i : nat) : T (option Value) :=
  s ← get_server;
  c ← get_client i;
  r ← (if streaming (setup s) then mret (server_context (setup s))
       else l ← not_null (request c); nullable (value_data V_BYTES l));
  match routed (setup s), r with
  | true, Some _ =>
      match server_context (setup s) with
      | Some (HttpState y) =>
          k ← on_objects (http_connection_create y i);
          _ ← put_client i (set_http_connection (k ≫= connection_ref) c);
          mret k
      | _ => tlift undef
      end
  | _, _ => mret r
  end.

Definition no_capability : string := "VM trap: TCP server read capability setup failed".

Definition grant (p : Setup) (e : E) : E :=
  let e := if filesystem p then exec_enable_filesystem e else e in
  let e := if console p then exec_enable_console e else e in
  if outbound p then exec_enable_tcp e else e.

Definition start_handler (i : nat) : T unit :=
  s ← get_server;
  r ← handler_request i;
  match r with
  | None => server_trap out_of_memory
  | Some r =>
      g ← not_null (server_handler (setup s));
      x ← create_execution g r;
      c ← get_client i;
      _ ← (match http_connection c with
           | Some y => on_http (λ h, set_connections (alter (set_connection_execution
                         (match x with inl e => Some (exec_id e) | inr _ => None end)) y (connections h)) h)
           | None => mret tt
           end);
      let c := set_buffer None c in
      match x with
      | inr t => _ ← put_client i c; server_trap t
      | inl e =>
          let '(ok, e) := if streaming (setup s) then exec_enable_server_reads e else (true, e) in
          if negb ok then _ ← put_client i (set_client_execution (Some e) c); server_trap no_capability
          else put_client i (set_state CLIENT_RUN (set_client_execution (Some (grant (setup s) e)) c))
      end
  end.

Definition bad_result : string := "VM trap: invalid TCP server handler result".

Definition handler_result (i : nat) : T unit :=
  s ← get_server;
  let p := setup s in
  if routed p then http_handler_finished i false
  else
    c ← get_client i;
    e ← not_null (client_execution c);
    match exec_result e with
    | Some (Variant name [payload]) =>
        if negb (vm_fake_read_result_valid (exec_result e)) then server_trap bad_result
        else if is_name name "Error" then
          if continuous p then finish_client i (Some "TCP handler returned an error")
          else report i (Variant name [payload])
        else
          l ← payload_bytes payload;
          if response_limit (limits p) <? Z.of_nat (length l)
          then finish_client i (Some "TCP response limit exceeded")
          else
            _ ← put_client i (set_response (Some payload) c);
            _ ← destroy_execution (Some e);
            c ← get_client i;
            put_client i (set_state CLIENT_WRITE (set_client_execution None c))
    | _ => server_trap bad_result
    end.

Definition default_failure : string := "VM trap: TCP handler failed".

(** [runtime->exit_requested] and the status, then [http_runtime_stop]. *)
Definition request_exit (status : Z) (r : VMHttpRuntime) : VMHttpRuntime :=
  mkRuntime (active_resources r) (pending_resources r) (runtime_error r) true status.

Definition handler_exited (i : nat) (e : E) (r : VMHttpRuntime) : T unit :=
  v ← get_env;
  _ ← put_env (mkEnv (http v) (Some (request_exit (exec_exit_status e) r)) (os v));
  c ← get_client i;
  '(_, _, w) ← client_writer c;
  _ ← (if completed w then http_finish_execution i else finish_client i (Some "process exit"));
  v ← get_env;
  match runtime v with
  | Some r => let '(r, h) := http_runtime_stop r (http v) in put_env (mkEnv h (Some r) (os v))
  | None => tlift undef
  end.

(** What the status of an instruction asks for, the yielded one excepted. *)
Definition after_instruction (i : nat) (status : VMExecutionStatus) : T unit :=
  s ← get_server;
  c ← get_client i;
  e ← not_null (client_execution c);
  v ← get_env;
  let failed := server_trap (default default_failure (exec_error e)) in
  match status with
  | VM_COMPLETED => handler_result i
  | VM_EXITED =>
      match routed (setup s), runtime v with
      | true, Some r => handler_exited i e r
      | _, _ => failed
      end
  | VM_TRAPPED =>
      if routed (setup s) && bool_decide (exec_fault e = VM_FAULT_REQUEST)
      then http_handler_finished i true else failed
  | VM_WAITING | VM_YIELDED => mret tt
  | VM_BUSY => failed
  end.

(** A pending read is answered, then one instruction runs. *)
Definition run_client (i : nat) : T VMExecutionStatus :=
  c ← get_client i;
  _ ← (if fake_pending c then
         r ← nullable (vm_fake_read_result (fake_fail c));
         let c := set_fake false (fake_fail c) c in
         _ ← put_client i c;
         e ← not_null (client_execution c);
         v ← get_env;
         '(_, e, v) ← tlift (exec_complete_read e r v);
         _ ← put_env v;
         put_client i (set_client_execution (Some e) c)
       else mret tt);
  advance_client i 1.

(** At most [budget] instructions, one for each running client in turn, until
    every slot has been idle since the last one that yielded. *)
Fixpoint advance_loop (budget : nat) : nat → T unit :=
  match budget with
  | O => λ _, mret tt
  | S budget =>
      fix scan (idle : nat) : T unit :=
        now ← deadlines;
        match now, idle with
        | None, _ | _, O => mret tt
        | Some _, S idle =>
            s ← get_server;
            let n := concurrency (limits (setup s)) in
            let i := next_handler s in
            _ ← on_server (set_cursors (next_io s) ((i + 1) mod n)%nat);
            c ← get_client i;
            _ ← (if decide (state c = CLIENT_START) then start_handler i else mret tt);
            s ← get_server;
            c ← get_client i;
            if done_ s then mret tt
            else if negb (bool_decide (state c = CLIENT_RUN)) then scan idle
            else
              status ← run_client i;
              now ← deadlines;
              match now with
              | None => mret tt
              | Some _ =>
                  c ← get_client i;
                  if negb (bool_decide (state c = CLIENT_RUN)) then advance_loop budget idle
                  else if decide (status = VM_YIELDED) then advance_loop budget n
                  else _ ← after_instruction i status; advance_loop budget idle
              end
        end
  end.

Definition bad_readiness : string := "VM trap: invalid service readiness result".

(** What a finished readiness callback decides: to fail with its error, or to
    begin admission. *)
Definition ready_finished (e : E) : T unit :=
  match exec_result e with
  | Some (Variant name [payload]) =>
      if is_name name "Error" && is_kind payload V_STR then
        _ ← on_server (set_server_result (exec_result e));
        _ ← on_server (λ s, set_done (server_error s) s);
        close_all
      else if is_name name "Ok" && is_kind payload V_UNIT then clear_ready
      else server_trap bad_readiness
  | _ => server_trap bad_readiness
  end.

Definition create_ready : T (option E) :=
  s ← get_server;
  match ready_execution s with
  | Some e => mret (Some e)
  | None =>
      g ← not_null (ready_handler s);
      x ← not_null (ready_context s);
      r ← create_execution g x;
      match r with
      | inr t => _ ← server_trap t; mret None
      | inl e =>
          let e := if ready_console s then exec_enable_console e else e in
          _ ← on_server (set_ready_execution (Some e));
          mret (Some e)
      end
  end.

Definition advance_ready (budget : nat) : T unit :=
  o ← create_ready;
  match o with
  | None => mret tt
  | Some e =>
      v ← get_env;
      '(e, _, v) ← tlift (exec_poll_network e None v);
      '(status, e, _, v) ← tlift (exec_advance budget e None v);
      _ ← put_env v;
      _ ← on_server (set_ready_execution (Some e));
      match status with
      | VM_COMPLETED => ready_finished e
      | VM_WAITING | VM_YIELDED => mret tt
      | _ => server_trap (default "VM trap: readiness failed" (exec_error e))
      end
  end.

Definition tcp_server_advance (budget : nat) : T unit :=
  now ← deadlines;
  match now with
  | None => mret tt
  | Some _ =>
      s ← get_server;
      if ready_pending s then
        if Nat.eqb budget 0 then mret tt else advance_ready budget
      else advance_loop budget (concurrency (limits (setup s)))
  end.

(** ** Control *)

Definition tcp_server_stop : T unit :=
  now ← deadlines;
  match now with
  | None => mret tt
  | Some now => _ ← stop_at now; _ ← deadlines; mret tt
  end.

Definition enabled (f c : bool) (p : Setup) : Setup :=
  mkSetup f c (continuous p) (routed p) (outbound p) (streaming p) (server_handler p) (server_context p) (limits p).
Definition tcp_server_enable_filesystem : T unit :=
  on_server (λ s, set_setup (enabled true (console (setup s)) (setup s)) s).
Definition tcp_server_enable_console : T unit :=
  on_server (λ s, set_setup (enabled (filesystem (setup s)) true (setup s)) s).

(** A function of the program, asynchronous and impure, of one parameter. *)
Definition callable (p : Program) (g : Function) : bool :=
  bool_decide (g ∈ functions p) && is_async g && negb (pure g) && Nat.eqb (length (params g)) 1.

Definition tcp_server_set_ready_handler (p : Program) (g : Function) (x : option Value) (b : bool) : T bool :=
  s ← get_server;
  if done_ s || negb (continuous (setup s)) || negb (clients_admitted s =? 0) ||
     bool_decide (is_Some (ready_handler s)) || bool_decide (x = None) || negb (callable p g)
  then mret false
  else _ ← on_server (set_readiness true b (Some g) x); mret true.

Definition close_state (s : VMHttpState) : VMHttpState :=
  let s := set_resource None s in
  if decide (phase s = HTTP_DESTROYED) then s else set_phase HTTP_CLOSED s.

Definition tcp_server_destroy : T unit :=
  _ ← close_all;
  s ← get_server;
  match routed (setup s), server_context (setup s) with
  | true, Some (HttpState y) => on_http (λ h, set_states (alter close_state y (states h)) h)
  | _, _ => mret tt
  end.

(** ** Creation *)

Definition bad_handler : string := "VM trap: invalid TCP server handler".

Definition limits_ok (continuous : bool) (port : Z) (l : VMTcpServerLimits) : bool :=
  negb ((port =? 0) || (65535 <? port) ||
        (negb continuous && ((clients_limit l =? 0) || (Z.of_nat SERVER_CLIENTS <? clients_limit l) ||
                             (clients_limit l <? Z.of_nat (concurrency l)))) ||
        Nat.eqb (concurrency l) 0 || Nat.ltb SERVER_CONCURRENCY (concurrency l) ||
        (SERVER_BYTES <? request_limit l) || (SERVER_BYTES <? response_limit l) ||
        (client_timeout_ms l =? 0) || (SERVER_TIMEOUT <? client_timeout_ms l) ||
        (negb continuous && ((admission_timeout_ms l =? 0) || (SERVER_TIMEOUT <? admission_timeout_ms l))) ||
        (SERVER_TIMEOUT <? drain_ms l)).

(** The address as a C string of at most 15 bytes. *)
Definition address_text (v : Value) : option (list Z) :=
  match v with
  | Str t =>
      if Nat.eqb (length (data t)) 0 || Nat.leb 16 (length (data t)) || existsb (Z.eqb 0) (data t)
      then None else Some (data t)
  | _ => None
  end.

Definition open_listener (text : list Z) (port : Z) : T unit :=
  s ← get_server;
  let l := limits (setup s) in
  n ← sys sys_socket;
  _ ← on_server (set_listener n);
  ready ← (if n <? 0 then mret false
           else ok ← configure n; if (ok : bool) then sys (setsockopt_reuse n) else mret false);
  if negb ready then server_fail "TCP server socket failed"
  else
    bound ← sys (sys_bind n text port);
    if negb bound then server_fail "TCP server bind failed"
    else
      listening ← sys (sys_listen n (Z.of_nat (concurrency l)));
      if negb listening then server_fail "TCP server listen failed"
      else
        now ← clock_ms;
        match now with
        | None => server_fail "TCP server clock failed"
        | Some now => on_server (set_admission_deadline (u64 (now + admission_timeout_ms l)))
        end.

Definition configure_server (p : Program) (g : option Function) (x : option Value) (a : Value) (port : Z)
    (out stream : bool) : T unit :=
  s ← get_server;
  let q := setup s in
  let l := limits q in
  match g with
  | Some g =>
      if negb (callable p g) || (stream && bool_decide (x = None)) then server_trap bad_handler
      else if negb (is_kind a V_STR) || negb (limits_ok (continuous q) port l)
      then server_fail "invalid TCP server arguments"
      else
        _ ← on_server (set_setup (mkSetup (filesystem q) (console q) (continuous q) false out stream (Some g) x l));
        match address_text a with
        | None => server_fail "invalid IPv4 address"
        | Some text =>
            if negb (inet_pton text) then server_fail "invalid IPv4 address"
            else
              now ← clock_ms;
              match now with
              | None => server_fail "TCP server clock failed"
              | Some now =>
                  _ ← on_server (set_admission_deadline (u64 (now + admission_timeout_ms l)));
                  open_listener text port
              end
        end
  | None => server_trap bad_handler
  end.

Definition blank (continuous : bool) (l : VMTcpServerLimits) : VMTcpServer E :=
  mkServer (mkSetup false false continuous false false false None None l) false false None None None 0 0
    (replicate SERVER_CONCURRENCY free_client) (replicate SERVER_CLIENTS None) None 0 0 0 0 0 0 (-1) false false None.

(** The server, or NULL when it cannot be allocated. *)
Definition tcp_server_start_mode (p : Program) (g : option Function) (x : option Value) (a : Value) (port : Z)
    (l : VMTcpServerLimits) (out stream continuous : bool) (v : Env W) (al : allocator)
    : outcome (option (VMTcpServer E)) * Env W * allocator :=
  match alloc al with
  | (Ret _, al) =>
      let '(o, (s, v), al) := configure_server p g x a port out stream (blank continuous l, v) al in
      (match o with Ret _ => Ret (Some s) | Trap k t => Trap k t | NoMem => NoMem | Undef => Undef | Diverge => Diverge end,
       v, al)
  | (_, al) => (Ret None, v, al)
  end.

Definition tcp_server_start p g a port l out := tcp_server_start_mode p g None a port l out false false.
Definition tcp_server_start_stream p g x a port l out := tcp_server_start_mode p g (Some x) a port l out true false.
Definition tcp_server_start_service p g x a port (l : VMTcpServiceLimits) out :=
  tcp_server_start_mode p g (Some x) a port
    (mkLimits 0 (service_concurrency l) (service_request_limit l) (service_response_limit l)
       (service_client_timeout_ms l) 0 (service_drain_ms l)) out true true.

Definition http_limits : VMTcpServerLimits := mkLimits 16 16 SERVER_BYTES SERVER_BYTES 10000 10000 1000.

(** [self] is the identity of the new server. *)
Definition tcp_server_start_http (self : ref) (p : Program) (g : option Function) (x : ref) (out : bool)
    (v : Env W) (al : allocator) : outcome (option (VMTcpServer E)) * Env W * allocator :=
  match states (http v) !! x with
  | None => (Ret None, v, al)
  | Some st =>
      match value_index (port st) with
      | Some port =>
          if negb (bool_decide (phase st = HTTP_CREATED)) || bool_decide (is_Some (setup_error st))
          then (Ret None, v, al)
          else
            let '(o, v, al) := tcp_server_start_mode p g (Some (HttpState x)) (address st) port http_limits
                                 out true true v al in
            match o with
            | Ret (Some s) =>
                if done_ s then (Ret (Some s), v, al)
                else
                  let q := setup s in
                  (Ret (Some (set_setup (mkSetup (filesystem q) (console q) (continuous q) true (outbound q)
                                           (streaming q) (server_handler q) (server_context q) (limits q)) s)),
                   mkEnv (set_states (alter (λ t, set_resource (Some self) (set_phase HTTP_LISTENING t)) x
                                        (states (http v))) (http v)) (runtime v) (os v), al)
            | o => (o, v, al)
            end
      | None => (Ret None, v, al)
      end
  end.
End server.
