(* ===== verification/TcpClients.v ===== *)
(** * TCP server: slots, books and buffers

    The invariant of a server and that every operation keeps it, whatever the
    operating system answers and whatever the handlers do. *)

From Stdlib Require Import ZArith Lia.
From stdpp Require Import prelude gmap strings relations.
From S2P Require Import Prelude Bigint Value Equal Numeric Program Collections Execute.
From S2P Require Import HttpState HttpObjects TcpServer.

(** ** What the server relies on *)

(** Later states of what is shared: HTTP objects stay well formed and only go
    forward, and the runtime does not go away.  An execution acts on them
    through the builtins. *)
Definition after {W} (v v' : Env W) : Prop :=
  http_ok (http v') ∧ heap_le (http v) (http v') ∧ (is_Some (runtime v) → is_Some (runtime v')).
Definition env_run {W} (v v' : Env W) : Prop := http_ok (http v) → after v v'.

(** The two callbacks of an execution on the slot of its client. *)
Inductive callback {E} (c c' : ServerClient E) : Prop :=
| callback_read x : server_read_wait x c = (true, None, c') → callback c c'
| callback_continue i e x h al h' al' : http_continue_call i e x c h al = (Ret c', h', al') → callback c c'.

(** The slot of the client is there afterwards when it was passed. *)
Definition called {E} (o o' : option (ServerClient E)) : Prop :=
  match o with Some c => ∃ c', o' = Some c' ∧ rtc callback c c' | None => True end.

(** The call returns, in a way that satisfies [P]. *)
Definition certain {A} (m : M A) (P : A → Prop) : Prop := ∀ al, ∃ a al', m al = (Ret a, al') ∧ P a.

Class ServerExecutorLaws (E W : Type) `{!ServerExecutor E W} := {
  create_law id g x v al :
    match exec_create id g x v al with
    | (Ret (e, v'), _) => exec_id e = id ∧ env_run v v'
    | (Trap _ _, _) | (NoMem, _) => True
    | _ => False
    end;
  advance_law n e o v : certain (exec_advance n e o v) (λ '(_, _, o', v'), called o o' ∧ env_run v v');
  poll_law e o v : certain (exec_poll_network e o v) (λ '(_, o', v'), called o o' ∧ env_run v v');
  complete_law e r v : certain (exec_complete_read e r v) (λ '(_, _, v'), env_run v v');
  destroy_law e v : env_run v (exec_destroy e v);
}.

(** A change of fields the invariant does not mention. *)
Ltac live_ext Hl :=
  let B := fresh "B" in
  destruct Hl as [? ? ? ? ? ? B ? ? ?]; split; simpl; try done; destruct B; by split.

Section clients.
Context {E W : Type} `{!Sockets W, !SocketsLaws W, !ServerExecutor E W, !ServerExecutorLaws E W}.
Implicit Types (s : VMTcpServer E) (c : ServerClient E) (v : Env W) (h : HttpHeap) (p : Setup).

(** ** Occupied slots *)

Definition occupied c : nat := if decide (state c = CLIENT_FREE) then 0 else 1.
Definition occupancy (l : list (ServerClient E)) : nat := foldr (λ c n, occupied c + n)%nat 0%nat l.

Lemma occupancy_insert l i c c' :
  l !! i = Some c → (occupancy (<[i:=c']> l) + occupied c = occupancy l + occupied c')%nat.
Proof.
  revert i. induction l as [|d l IH]; intros [|i]; simpl; try done.
  - intros [= ->]. lia.
  - intros Hi. specialize (IH i Hi). lia.
Qed.

Lemma occupancy_zero l : occupancy l = 0%nat ↔ Forall (λ c, state c = CLIENT_FREE) l.
Proof.
  induction l as [|c l IH]; simpl; [done|]. rewrite Forall_cons, <- IH. unfold occupied.
  case_decide as Hc; simpl; [naive_solver|]. split; [lia|]. by intros [? _].
Qed.

Lemma occupied_free : occupied free_client = 0%nat.
Proof. done. Qed.
Lemma occupied_busy c : state c ≠ CLIENT_FREE → occupied c = 1%nat.
Proof. unfold occupied. by case_decide. Qed.
Lemma occupancy_le l : (occupancy l ≤ length l)%nat.
Proof. induction l as [|c l IH]; simpl; [done|]. unfold occupied. case_decide; lia. Qed.

Lemma free_slot_spec n l :
  (n ≤ length l)%nat →
  (free_slot n l ≤ n)%nat ∧ ((free_slot n l < n)%nat → ∃ c, l !! free_slot n l = Some c ∧ state c = CLIENT_FREE).
Proof.
  revert n. induction l as [|c l IH]; intros [|n]; simpl; try lia.
  intros Hn. case_decide as Hc; [split; [lia|]; eauto|]. destruct (IH n ltac:(lia)) as [H1 H2].
  split; [lia|]. intros. simpl. apply H2. lia.
Qed.

(** ** The invariant *)

Definition running_state (st : ClientState) : bool :=
  match st with CLIENT_RUN | CLIENT_STREAM_READ | CLIENT_INTERIM_WRITE => true | _ => false end.

(** A client in a slot: its buffers and positions are within bounds, and it has
    the objects its state uses. *)
Record client_ok p h c : Prop := {
  ck_response : match response c with
                | Some r => ∃ l, r = Bytes l ∧ (sent c ≤ length l)%nat
                | None => sent c = 0%nat
                end;
  ck_execution : is_Some (client_execution c) ↔ running_state (state c) = true;
  ck_buffered : state c = CLIENT_READ → streaming p = false;
  ck_request : streaming p = false → state c = CLIENT_READ ∨ state c = CLIENT_START →
               ∃ l, request c = Some l ∧ received c = Z.of_nat (length l);
  ck_received : 0 ≤ received c ≤ request_limit (limits p);
  ck_limit : state c = CLIENT_STREAM_READ → 1 ≤ read_limit c ≤ SERVER_READ_CHUNK;
  ck_interim : (interim_sent c ≤ length http_continue)%nat;
  ck_writing : state c = CLIENT_WRITE → is_Some (response c);
  ck_connection : match http_connection c with
                  | Some x => routed p = true ∧ is_Some (connections h !! x)
                  | None => routed p = true → state c = CLIENT_START
                  end;
  ck_quiet : routed p = false → state c ≠ CLIENT_WRITE → response c = None;
}.

Record setup_ok p h : Prop := {
  sp_concurrency : (1 ≤ concurrency (limits p) ≤ SERVER_CONCURRENCY)%nat;
  sp_clients : continuous p = false → Z.of_nat (concurrency (limits p)) ≤ clients_limit (limits p) ≤ Z.of_nat SERVER_CLIENTS;
  sp_request : 0 ≤ request_limit (limits p) ≤ SERVER_BYTES;
  sp_handler : is_Some (server_handler p);
  sp_context : streaming p = true → is_Some (server_context p);
  sp_routed : routed p = true → continuous p = true ∧ streaming p = true ∧
              ∃ y, server_context p = Some (HttpState y) ∧ is_Some (states h !! y);
}.

(** The books: the clients in slots have sequence numbers of their own, and
    every other client admitted has been counted or reported, once. *)
Record books s : Prop := {
  bk_index i c : clients s !! i = Some c → state c ≠ CLIENT_FREE → 0 ≤ outcome_index c < clients_admitted s;
  bk_distinct i j c d : clients s !! i = Some c → clients s !! j = Some d → state c ≠ CLIENT_FREE →
    state d ≠ CLIENT_FREE → outcome_index c = outcome_index d → i = j;
  bk_reports : continuous (setup s) = false → ∀ n, (Z.of_nat n < clients_admitted s) →
    (∃ r, outcomes s !! n = Some (Some r)) ↔
    ¬ ∃ i c, clients s !! i = Some c ∧ state c ≠ CLIENT_FREE ∧ outcome_index c = Z.of_nat n;
  bk_blank : continuous (setup s) = false → ∀ n r, clients_admitted s ≤ Z.of_nat n → outcomes s !! n ≠ Some (Some r);
  bk_counts : continuous (setup s) = true → succeeded s + failures s + active s = clients_admitted s ∧
    0 ≤ succeeded s ∧ 0 ≤ failures s;
}.

(** A server that goes on.  The client in slot [X] may be between two steps. *)
Record live (X : option nat) s h : Prop := {
  lv_done : done_ s = false;
  lv_clients : length (clients s) = SERVER_CONCURRENCY;
  lv_outcomes : length (outcomes s) = SERVER_CLIENTS;
  lv_setup : setup_ok (setup s) h;
  lv_slots i c : clients s !! i = Some c → state c ≠ CLIENT_FREE →
    (i < concurrency (limits (setup s)))%nat ∧ (X ≠ Some i → client_ok (setup s) h c);
  lv_active : active s = Z.of_nat (occupancy (clients s));
  lv_books : books s;
  lv_admitted : 0 ≤ clients_admitted s ≤ SIZE_MAX ∧
    (continuous (setup s) = false → clients_admitted s ≤ clients_limit (limits (setup s)));
  lv_cursor : (next_handler s < concurrency (limits (setup s)))%nat;
  lv_ready : ready_pending s = true → is_Some (ready_handler s) ∧ is_Some (ready_context s);
}.

(** ** Reports *)

Definition number_value (r : Value) (n : Z) : Prop := ∃ b, r = Nat_ b ∧ to_Z b = n.

(** What a server that has drained returns: how many clients there were, and how
    many of them succeeded and failed; or the outcome of each client, in order. *)
Definition final_report s (r : Value) : Prop :=
  if continuous (setup s) then
    ∃ a b d, r = Variant (str "Ok") [Record_ (str "TcpServiceSummary") summary_names [a; b; d]] ∧
      number_value a (clients_admitted s) ∧ number_value b (succeeded s) ∧ number_value d (failures s) ∧
      succeeded s + failures s = clients_admitted s
  else
    ∃ l, r = Variant (str "Ok") [Array l] ∧ Z.of_nat (length l) = clients_admitted s ∧
      ∀ i o, l !! i = Some o → outcomes s !! i = Some (Some o).

(** The diagnostic of a server that failed. *)
Definition failed_report (r : Value) : Prop := ∃ name t, r = Variant name [Str t] ∧ is_name name "Error" = true.

(** How a server says it ended: by a trap, by an error, or by its report. *)
Definition ending s : Prop :=
  is_Some (server_error s) ∨ ∃ r, server_result s = Some r ∧ (failed_report r ∨ final_report s r).

(** A server that is done has no client. *)
Record closed s : Prop := {
  cl_done : done_ s = true;
  cl_clients : Forall (λ c, state c = CLIENT_FREE) (clients s);
  cl_length : length (clients s) = SERVER_CONCURRENCY;
  cl_active : active s = 0;
  cl_ending : ending s;
}.

(** While clients are still admitted, there is one more that may be. *)
Definition open s : Prop :=
  continuous (setup s) = false → stopping s = false → clients_admitted s < clients_limit (limits (setup s)).

Definition server_ok s h : Prop := closed s ∨ (live None s h ∧ open s).

(** ** Specifications of server operations *)

(** The operation returns, in a state that satisfies [Q]. *)
Definition tends {A} (m : T A) (x : VMTcpServer E * Env W) (Q : A → VMTcpServer E * Env W → Prop) : Prop :=
  ∀ al, match m x al with (Ret a, x', _) => Q a x' | _ => False end.

Lemma tends_ret {A} (a : A) x (Q : A → _ → Prop) : Q a x → tends (mret a) x Q.
Proof. intros HQ al. done. Qed.
Lemma tends_bind {A B} (m : T A) (k : A → T B) x P Q :
  tends m x P → (∀ a x', P a x' → tends (k a) x' Q) → tends (y ← m; k y) x Q.
Proof.
  intros Hm Hk al. unfold mbind, T_bind. specialize (Hm al). destruct (m x al) as [[[] x'] al']; try done. by apply Hk.
Qed.
Lemma tends_mono {A} (m : T A) x (P Q : A → _ → Prop) : tends m x P → (∀ a x', P a x' → Q a x') → tends m x Q.
Proof. intros Hm HPQ al. specialize (Hm al). destruct (m x al) as [[[] x'] al']; try done. by apply HPQ. Qed.
Lemma tends_then {A B} (m : T A) (k : A → T B) x a x' Q :
  (∀ al, m x al = (Ret a, x', al)) → tends (k a) x' Q → tends (y ← m; k y) x Q.
Proof.
  intros Hm Hk. eapply (tends_bind m k x (λ b g, b = a ∧ g = x')); [intros al; by rewrite Hm|]. by intros ? ? [-> ->].
Qed.
Lemma tends_get_server {B} (k : _ → T B) s v Q : tends (k s) (s, v) Q → tends (y ← get_server; k y) (s, v) Q.
Proof. by apply tends_then. Qed.
Lemma tends_get_env {B} (k : _ → T B) s v Q : tends (k v) (s, v) Q → tends (y ← get_env; k y) (s, v) Q.
Proof. by apply tends_then. Qed.
Lemma tends_on_server {B} f (k : _ → T B) s v Q : tends (k tt) (f s, v) Q → tends (y ← on_server f; k y) (s, v) Q.
Proof. by apply tends_then. Qed.
Lemma tends_put_env {B} v' (k : _ → T B) s v Q : tends (k tt) (s, v') Q → tends (y ← put_env v'; k y) (s, v) Q.
Proof. by apply tends_then. Qed.
Lemma tends_put_client {B} i c (k : _ → T B) s v Q :
  tends (k tt) (set_clients (<[i:=c]> (clients s)) s, v) Q → tends (y ← put_client i c; k y) (s, v) Q.
Proof. by apply tends_then. Qed.
Lemma tends_get_client {B} i c (k : _ → T B) s v Q :
  clients s !! i = Some c → tends (k c) (s, v) Q → tends (y ← get_client i; k y) (s, v) Q.
Proof. intros Hi. apply tends_then. intros al. unfold get_client, mbind, T_bind, get_server, tlift, rd. simpl. by rewrite Hi. Qed.
Lemma tends_not_null {A B} (a : A) (k : _ → T B) x Q : tends (k a) x Q → tends (y ← not_null (Some a); k y) x Q.
Proof. by apply tends_then. Qed.
Lemma tends_on_http {B} f (k : _ → T B) s v Q :
  tends (k tt) (s, mkEnv (f (http v)) (runtime v) (os v)) Q → tends (y ← on_http f; k y) (s, v) Q.
Proof. by apply tends_then. Qed.
(** Whatever the call answers. *)
Lemma tends_sys {A B} (call : W → A * W) (k : _ → T B) s v Q :
  (∀ a w, call (os v) = (a, w) → tends (k a) (s, mkEnv (http v) (runtime v) w) Q) →
  tends (y ← sys call; k y) (s, v) Q.
Proof.
  intros Hk. destruct (call (os v)) as [a w] eqn:Hc. apply (tends_then _ _ _ a (s, mkEnv (http v) (runtime v) w)); [|auto].
  intros al. unfold sys, mbind, T_bind, get_env. simpl. by rewrite Hc.
Qed.
Lemma tends_nullable {A B} (m : M A) P (k : _ → T B) x Q :
  answers m → yields m P → (∀ o, (∀ a, o = Some a → P a) → tends (k o) x Q) → tends (y ← nullable m; k y) x Q.
Proof.
  intros Ha Hy Hk. eapply (tends_bind _ _ _ (λ o x', (∀ a, o = Some a → P a) ∧ x' = x)).
  - intros al. unfold nullable. specialize (Ha al). specialize (Hy al).
    destruct (m al) as [[] al']; try done. split; [|done]. by intros ? [= <-].
  - intros o ? [Ho ->]. auto.
Qed.
Lemma tends_null {A B} (m : M A) (k : _ → T B) x Q :
  answers m → (∀ o, tends (k o) x Q) → tends (y ← nullable m; k y) x Q.
Proof. intros Ha Hk. eapply tends_nullable; [done|apply yields_any|auto]. Qed.
Lemma tends_wr {A B} (l : list A) i a (k : _ → T B) x Q :
  (i < length l)%nat → tends (k (<[i:=a]> l)) x Q → tends (y ← tlift (wr l i a); k y) x Q.
Proof. intros Hi. apply tends_then. intros al. unfold tlift, wr. by rewrite decide_True. Qed.
Lemma tends_certain {A B} (m : M A) P (k : _ → T B) x Q :
  certain m P → (∀ a, P a → tends (k a) x Q) → tends (y ← tlift m; k y) x Q.
Proof.
  intros Hm Hk al. destruct (Hm al) as (a & al' & E1 & Ha). unfold mbind, T_bind, tlift. rewrite E1. by apply Hk.
Qed.
Lemma tends_last {A} (m : T A) x Q : tends (y ← m; mret y) x Q → tends m x Q.
Proof. intros H al. specialize (H al). unfold mbind, T_bind in H. by destruct (m x al) as [[[] x'] al']. Qed.

Lemma after_refl v : http_ok (http v) → after v v.
Proof. intros H. split; [done|]. by split. Qed.
Lemma after_trans v1 v2 v3 : after v1 v2 → after v2 v3 → after v1 v3.
Proof. intros (? & ? & ?) (? & ? & ?). split; [done|]. split; [by etrans|auto]. Qed.
Lemma after_same v w : http_ok (http v) → after v (mkEnv (http v) (runtime v) w).
Proof. intros H. split; [done|]. by split. Qed.
Lemma after_os v v' w : after v v' → after v (mkEnv (http v') (runtime v') w).
Proof. done. Qed.

(** ** The invariant along changes *)

Lemma client_ok_mono p h h' c : heap_le h h' → client_ok p h c → client_ok p h' c.
Proof.
  intros (_ & _ & Hc) [H1 H2 H3 H4 H5 H6 H7 H8 H9 H10]. split; try done.
  destruct (http_connection c) as [x|]; [|done]. destruct H9 as [? [k Hk]]. specialize (Hc x). rewrite Hk in Hc. simpl in Hc.
  split; [done|]. destruct (connections h' !! x); [eauto|done].
Qed.
Lemma setup_ok_mono p h h' : heap_le h h' → setup_ok p h → setup_ok p h'.
Proof.
  intros (Hs & _ & _) [H1 H2 H3 H4 H5 H6]. split; try done. intros Hr. destruct (H6 Hr) as (? & ? & y & ? & [t Ht]).
  split_and!; [done..|]. exists y. split; [done|]. specialize (Hs y). rewrite Ht in Hs. simpl in Hs.
  destruct (states h' !! y); [eauto|done].
Qed.
Lemma live_mono X s h h' : heap_le h h' → live X s h → live X s h'.
Proof.
  intros Hle [H1 H2 H3 H4 H5 H6 H7 H8 H9 H10]. split; try done; [by eapply setup_ok_mono|].
  intros i c Hi Hc. destruct (H5 i c Hi Hc) as [? Hok]. split; [done|]. intros Hx. by eapply client_ok_mono, Hok.
Qed.
Lemma server_ok_mono s h h' : heap_le h h' → server_ok s h → server_ok s h'.
Proof. intros Hle [Hc|[Hl Ho]]; [by left|right; split; [by eapply live_mono|done]]. Qed.
Lemma live_except i s h : live None s h → live (Some i) s h.
Proof.
  intros [H1 H2 H3 H4 H5 H6 H7 H8 H9 H10]. split; try done. intros j c Hj Hc. destruct (H5 j c Hj Hc). split; auto.
Qed.

(** The fields that a change of one client leaves alone. *)
Record kept s s' : Prop := {
  kp_setup : setup s' = setup s;
  kp_admitted : clients_admitted s' = clients_admitted s;
  kp_cursors : next_io s' = next_io s ∧ next_handler s' = next_handler s;
  kp_deadlines : admission_deadline s' = admission_deadline s ∧ drain_deadline s' = drain_deadline s;
  kp_stopping : stopping s' = stopping s;
  kp_done : done_ s' = done_ s;
  kp_ready : ready_pending s' = ready_pending s ∧ ready_handler s' = ready_handler s ∧
             ready_context s' = ready_context s;
}.
Lemma kept_open s s' : kept s s' → open s → open s'.
Proof. unfold open. intros [-> -> _ _ -> _ _]. done. Qed.

#[local] Instance kept_preorder : PreOrder kept.
Proof.
  split; [intros s; by split|]. intros s1 s2 s3 [] []. split; intuition congruence.
Qed.

(** A client replaced by another of the same sequence number. *)
Lemma live_set X i s h c c' :
  live X s h → clients s !! i = Some c → X = None ∨ X = Some i → state c ≠ CLIENT_FREE → state c' ≠ CLIENT_FREE →
  outcome_index c' = outcome_index c → live (Some i) (set_clients (<[i:=c']> (clients s)) s) h.
Proof.
  intros [H1 H2 H3 H4 H5 H6 H7 H8 H9 H10] Hi HX Hc Hc' Hx.
  assert (∀ j d, <[i:=c']> (clients s) !! j = Some d → state d ≠ CLIENT_FREE →
    ∃ d0, clients s !! j = Some d0 ∧ state d0 ≠ CLIENT_FREE ∧ outcome_index d0 = outcome_index d ∧
          (j ≠ i → d0 = d) ∧ (j = i → d = c')) as Hold.
  { intros j d. rewrite list_lookup_insert_Some. intros [(-> & -> & _)|[Hne Hj]] Hd; [by exists c|].
    exists d. split_and!; try done. }
  assert (∀ j d0, clients s !! j = Some d0 → state d0 ≠ CLIENT_FREE → ∃ d, <[i:=c']> (clients s) !! j = Some d ∧
    state d ≠ CLIENT_FREE ∧ outcome_index d = outcome_index d0) as Hnew.
  { intros j d0 Hj Hd. destruct (decide (j = i)) as [->|Hne].
    - simplify_eq. exists c'. rewrite list_lookup_insert_eq by (by eapply lookup_lt_Some). done.
    - exists d0. by rewrite list_lookup_insert_ne. }
  split; simpl; try done.
  - by rewrite length_insert.
  - intros j d Hj Hd. destruct (Hold j d Hj Hd) as (d0 & Hj0 & Hd0 & _ & Hne & Heq).
    destruct (H5 j d0 Hj0 Hd0) as [Hlt Hk]. split; [done|]. intros Hji. assert (j ≠ i) as Hji' by congruence.
    rewrite <- (Hne Hji'). apply Hk. destruct HX as [->| ->]; congruence.
  - rewrite H6. f_equal. pose proof (occupancy_insert _ _ _ c' Hi). rewrite !occupied_busy in * by done. lia.
  - destruct H7 as [B1 B2 B3 B5 B4]. split; simpl; [| | |done|done].
    + intros j d Hj Hd. destruct (Hold j d Hj Hd) as (d0 & ? & ? & <- & _). by eapply B1.
    + intros j k d e Hj Hk Hd He E1. destruct (Hold j d Hj Hd) as (d0 & ? & ? & Ed & _).
      destruct (Hold k e Hk He) as (e0 & ? & ? & Ee & _). apply (B2 j k d0 e0); try done. congruence.
    + intros Hct n Hn. rewrite (B3 Hct n Hn). f_equiv. split.
      * intros (j & d0 & Hj & Hd & E1). destruct (Hnew j d0 Hj Hd) as (d & ? & ? & ?). exists j, d. split_and!; congruence.
      * intros (j & d & Hj & Hd & E1). destruct (Hold j d Hj Hd) as (d0 & ? & ? & ? & _). exists j, d0. split_and!; congruence.
Qed.

Lemma live_fill i s h c : live (Some i) s h → clients s !! i = Some c → client_ok (setup s) h c → live None s h.
Proof.
  intros [H1 H2 H3 H4 H5 H6 H7 H8 H9 H10] Hi Hok. split; try done. intros j d Hj Hd. destruct (H5 j d Hj Hd) as [? Hk].
  split; [done|]. intros _. destruct (decide (j = i)) as [->|]; [by simplify_eq|]. apply Hk. congruence.
Qed.

Lemma live_put X i s h c c' :
  live X s h → clients s !! i = Some c → X = None ∨ X = Some i → state c ≠ CLIENT_FREE → state c' ≠ CLIENT_FREE →
  outcome_index c' = outcome_index c → client_ok (setup s) h c' →
  live None (set_clients (<[i:=c']> (clients s)) s) h.
Proof.
  intros Hl Hi HX Hc Hc' Hx Hok. eapply live_fill; [by eapply live_set|by eapply list_lookup_insert_eq, lookup_lt_Some|done].
Qed.

(** A client takes a free slot. *)
Lemma live_admit i s h c d :
  live None s h → clients s !! i = Some d → state d = CLIENT_FREE → (i < concurrency (limits (setup s)))%nat →
  state c ≠ CLIENT_FREE → outcome_index c = clients_admitted s → clients_admitted s < SIZE_MAX →
  (continuous (setup s) = false → clients_admitted s < clients_limit (limits (setup s))) →
  live (Some i) (set_counts (clients_admitted s + 1) (active s + 1) (set_clients (<[i:=c]> (clients s)) s)) h.
Proof.
  intros [H1 H2 H3 H4 H5 H6 H7 H8 H9 H10] Hi Hd Hlt Hc Hx Hmax Hlim.
  assert (∀ j e, <[i:=c]> (clients s) !! j = Some e → state e ≠ CLIENT_FREE →
    j = i ∧ e = c ∨ j ≠ i ∧ clients s !! j = Some e) as Hold.
  { intros j e. rewrite list_lookup_insert_Some. intros [(-> & <- & _)|[? ?]] _; [by left|by right]. }
  split; simpl; try done.
  - by rewrite length_insert.
  - intros j e Hj He. destruct (Hold j e Hj He) as [[-> ->]|[Hne Hj']]; [split; [done|congruence]|].
    destruct (H5 j e Hj' He). split; auto.
  - pose proof (occupancy_insert _ _ _ c Hi) as Ho. rewrite (occupied_busy c Hc) in Ho.
    assert (occupied d = 0%nat) by (unfold occupied; by rewrite decide_True). lia.
  - destruct H7 as [B1 B2 B3 B5 B4]. split; simpl.
    + intros j e Hj He. destruct (Hold j e Hj He) as [[-> ->]|[Hne Hj']]; [lia|]. pose proof (B1 j e Hj' He). lia.
    + intros j k e f Hj Hk He Hf Hef. destruct (Hold j e Hj He) as [[-> ->]|[Hne Hj']], (Hold k f Hk Hf) as [[-> ->]|[Hne' Hk']].
      * done.
      * pose proof (B1 k f Hk' Hf). lia.
      * pose proof (B1 j e Hj' He). lia.
      * by apply (B2 j k e f).
    + intros Hf n Hn. destruct (decide (Z.of_nat n = clients_admitted s)) as [Hn'|Hn'].
      * split; [intros [r Hr]; exfalso; apply (B5 Hf n r); [lia|done]|]. intros Hno. exfalso. apply Hno.
        exists i, c. split_and!; [by eapply list_lookup_insert_eq, lookup_lt_Some|done|lia].
      * rewrite (B3 Hf n ltac:(lia)). f_equiv. split.
        -- intros (j & e & Hj & He & Ee). exists j, e. split_and!; [|done..].
           rewrite list_lookup_insert_ne; [done|]. intros <-. congruence.
        -- intros (j & e & Hj & He & Ee). destruct (Hold j e Hj He) as [[-> ->]|[Hne Hj']]; [lia|]. by exists j, e.
    + intros Hf n r Hn. apply B5; [done|lia].
    + intros Ht. destruct (B4 Ht) as (? & ? & ?). lia.
  - split; [lia|]. intros Hf. specialize (Hlim Hf). lia.
Qed.

(** A client leaves its slot, counted or reported. *)
Lemma live_free i s s' h c r :
  live (Some i) s h → clients s !! i = Some c → state c ≠ CLIENT_FREE → kept s s' →
  clients s' = <[i:=free_client]> (clients s) → active s' = active s - 1 →
  (continuous (setup s) = true → succeeded s' + failures s' = succeeded s + failures s + 1 ∧
     0 ≤ succeeded s' ∧ 0 ≤ failures s' ∧ outcomes s' = outcomes s) →
  (continuous (setup s) = false → outcomes s' = <[Z.to_nat (outcome_index c) := Some r]> (outcomes s)) →
  live None s' h.
Proof.
  intros [H1 H2 H3 H4 H5 H6 H7 H8 H9 H10] Hi Hc [K1 K2 [K3 K3'] [K4 K4'] K5 K6 (K7 & K8 & K9)] Hcl Hac Hct Hnc.
  assert (∀ j d, clients s' !! j = Some d → state d ≠ CLIENT_FREE → clients s !! j = Some d ∧ j ≠ i) as Hold.
  { intros j d. rewrite Hcl, list_lookup_insert_Some. intros [(-> & <- & _)|[Hne Hj]] Hd; [done|]. by split. }
  pose proof (lookup_lt_Some _ _ _ Hi) as Hlt. pose proof (bk_index _ H7 i c Hi Hc) as Hidx.
  assert (length (outcomes s') = SERVER_CLIENTS) as Hlen.
  { destruct (continuous (setup s)) eqn:E1; [destruct (Hct eq_refl) as (_ & _ & _ & ->); done|].
    by rewrite (Hnc eq_refl), length_insert. }
  split; rewrite ?K1, ?K2, ?K3', ?K7, ?K8, ?K9; try done; try congruence.
  - by rewrite Hcl, length_insert.
  - intros j d Hj Hd. destruct (Hold j d Hj Hd) as [Hj' Hne]. destruct (H5 j d Hj' Hd) as [? Hk].
    split; [done|]. intros _. apply Hk. congruence.
  - rewrite Hac, H6, Hcl. pose proof (occupancy_insert _ _ _ free_client Hi) as Ho.
    rewrite (occupied_busy c Hc), occupied_free in Ho. lia.
  - destruct H7 as [B1 B2 B3 B5 B4]. split; rewrite ?K1, ?K2.
    + intros j d Hj Hd. destruct (Hold j d Hj Hd). by eapply B1.
    + intros j k d e Hj Hk Hd He. destruct (Hold j d Hj Hd), (Hold k e Hk He). by apply B2.
    + intros Hf n Hn. rewrite (Hnc Hf). specialize (B3 Hf n Hn). pose proof (sp_clients _ _ H4 Hf).
      destruct H8 as [_ H8]. specialize (H8 Hf).
      destruct (decide (n = Z.to_nat (outcome_index c))) as [->|Hne].
      * split; [|intros _; exists r; apply list_lookup_insert_eq; lia].
        intros _ (j & d & Hj & Hd & E1). destruct (Hold j d Hj Hd) as [Hj' Hji].
        apply Hji, (B2 j i d c); try done. lia.
      * rewrite list_lookup_insert_ne by congruence. rewrite B3. f_equiv. split.
        -- intros (j & d & Hj & Hd & E1). exists j, d. split_and!; [|done..]. rewrite Hcl, list_lookup_insert_ne; [done|].
           intros <-. simplify_eq. lia.
        -- intros (j & d & Hj & Hd & E1). destruct (Hold j d Hj Hd). by exists j, d.
    + intros Hf n t Hn. rewrite (Hnc Hf), list_lookup_insert_ne by lia. by apply B5.
    + intros Ht. destruct (B4 Ht) as (? & ? & ?), (Hct Ht) as (? & ? & ? & _). lia.
Qed.

(** ** Releasing *)

Lemma destroy_execution_ends o s v :
  http_ok (http v) → tends (destroy_execution o) (s, v) (λ _ x, ∃ v', x = (s, v') ∧ after v v').
Proof.
  intros Hok. unfold destroy_execution. destruct o as [e|].
  - apply tends_get_env, tends_last, tends_put_env, tends_ret. eexists. split; [done|]. by apply destroy_law.
  - apply tends_ret. eexists. split; [done|]. by apply after_refl.
Qed.

Lemma close_fd_ends n s v :
  http_ok (http v) → tends (close_fd n) (s, v) (λ _ x, ∃ v', x = (s, v') ∧ after v v').
Proof.
  intros Hok. unfold close_fd. destruct (0 <=? n).
  - apply tends_last, tends_sys. intros ? w _. apply tends_ret. eexists. split; [done|]. by apply after_os, after_refl.
  - apply tends_ret. eexists. split; [done|]. by apply after_refl.
Qed.

Lemma end_after x v v' :
  after v v' → after v (mkEnv (http_connection_end x (http v')) (runtime v') (os v')).
Proof.
  intros (Hok & Hle & Hr). split; [by apply connection_end_ok|]. split; [|done]. etrans; [done|]. apply connection_end_le.
Qed.

Lemma client_clear_ends i c s v :
  http_ok (http v) → clients s !! i = Some c →
  tends (client_clear i) (s, v)
    (λ _ x, ∃ v', x = (set_clients (<[i:=free_client]> (clients s)) s, v') ∧ after v v').
Proof.
  intros Hok Hi. unfold client_clear. eapply tends_get_client; [done|].
  eapply tends_bind; [by apply close_fd_ends|]. intros _ ? (v1 & -> & Ha1).
  eapply (tends_bind _ _ _ (λ _ x, ∃ v', x = (s, v') ∧ after v v')).
  { destruct (http_connection c) as [y|]; [|by apply tends_ret; eauto].
    apply tends_last, tends_on_http, tends_ret. eexists. split; [done|]. by apply end_after. }
  intros _ ? (v2 & -> & Ha2). eapply tends_bind; [apply destroy_execution_ends, Ha2|].
  intros _ ? (v3 & -> & Ha3). apply tends_last, tends_put_client, tends_ret. eexists. split; [done|].
  by eapply after_trans.
Qed.

Lemma clear_all_ends js s v :
  http_ok (http v) → (∀ i, i ∈ js → (i < length (clients s))%nat) →
  tends (foldr (λ i k, _ ← client_clear i; k) (mret tt) js) (s, v) (λ _ x, ∃ l v', x = (set_clients l s, v') ∧
    after v v' ∧ length l = length (clients s) ∧
    ∀ i, l !! i = if decide (i ∈ js) then Some free_client else clients s !! i).
Proof.
  revert s v. induction js as [|j js IH]; intros s v Hok Hjs; simpl.
  { apply tends_ret. exists (clients s), v. split_and!; [by destruct s|by apply after_refl|done|done]. }
  destruct (lookup_lt_is_Some_2 (clients s) j) as [c Hc]; [apply Hjs; by left|].
  eapply tends_bind; [by eapply client_clear_ends|]. intros _ ? (v1 & -> & Ha1).
  eapply tends_mono; [apply IH; [apply Ha1|]|].
  - intros i Hi. simpl. rewrite length_insert. apply Hjs. by right.
  - intros _ ? (l & v2 & -> & Ha2 & Hl & Hlook). exists l, v2. simpl in *.
    split_and!; [done|by eapply after_trans|by rewrite Hl, length_insert|].
    intros i. rewrite Hlook. destruct (decide (i ∈ js)), (decide (i ∈ j :: js)) as [Hi|Hi]; try done.
    + exfalso. apply Hi. by right.
    + apply elem_of_cons in Hi as [->|]; [|done]. rewrite list_lookup_insert_eq; [done|by eapply lookup_lt_Some].
    + rewrite list_lookup_insert_ne; [done|]. intros ->. apply Hi. by left.
Qed.

Lemma clear_ready_ends s v :
  http_ok (http v) →
  tends clear_ready (s, v) (λ _ x, ∃ v', after v v' ∧
    x = (set_readiness false (ready_console s) (ready_handler s) (ready_context s) (set_ready_execution None s), v')).
Proof.
  intros Hok. unfold clear_ready. apply tends_get_server. eapply tends_bind; [by apply destroy_execution_ends|].
  intros _ ? (v1 & -> & Ha). apply tends_on_server, tends_last, tends_on_server, tends_ret. eauto.
Qed.

Lemma close_listener_ends s v :
  http_ok (http v) → tends close_listener (s, v) (λ _ x, ∃ v', after v v' ∧ x = (set_listener (-1) s, v')).
Proof.
  intros Hok. unfold close_listener. apply tends_get_server. eapply tends_bind; [by apply close_fd_ends|].
  intros _ ? (v1 & -> & Ha). apply tends_last, tends_on_server, tends_ret. eauto.
Qed.

(** The report depends on these fields. *)
Definition told s s' : Prop :=
  (setup s', clients_admitted s', succeeded s', failures s', outcomes s', server_result s', server_error s') =
  (setup s, clients_admitted s, succeeded s, failures s, outcomes s, server_result s, server_error s).

Lemma told_ending s s' : told s s' → ending s → ending s'.
Proof. unfold ending, final_report. by intros [= -> -> -> -> -> -> ->]. Qed.

(** Everything is released; what the server says stays. *)
Lemma close_all_ends s v :
  http_ok (http v) → length (clients s) = SERVER_CONCURRENCY →
  tends close_all (s, v) (λ _ x, after v (snd x) ∧ (done_ s = true → ending s → closed (fst x)) ∧ told s (fst x) ∧
    length (clients (fst x)) = SERVER_CONCURRENCY).
Proof.
  intros Hok Hlen. unfold close_all. eapply tends_bind; [by apply clear_ready_ends|]. intros _ ? (v1 & Ha1 & ->).
  eapply tends_bind; [apply close_listener_ends, Ha1|]. intros _ ? (v2 & Ha2 & ->).
  eapply tends_bind; [apply clear_all_ends; [apply Ha2|]|].
  { intros i Hi. apply elem_of_seq in Hi. simpl. lia. }
  intros _ ? (l & v3 & -> & Ha3 & Hl & Hlook). apply tends_last, tends_on_server, tends_ret. cbn in Hl. simpl.
  split_and!; [by eapply after_trans; [eapply after_trans|]| |done|congruence].
  intros Hd He. split; simpl; try done; [|congruence]. apply Forall_lookup. intros i c Hi. rewrite Hlook in Hi.
  case_decide as Hin; [by simplify_eq|]. apply lookup_lt_Some in Hi. exfalso. apply Hin, elem_of_seq.
  simpl in Hi. rewrite Hlen in Hi. lia.
Qed.

Lemma server_trap_ends t s v :
  http_ok (http v) → length (clients s) = SERVER_CONCURRENCY →
  tends (server_trap t) (s, v) (λ _ x, closed (fst x) ∧ after v (snd x)).
Proof.
  intros Hok Hlen. unfold server_trap. apply tends_on_server. eapply tends_mono; [by apply close_all_ends|].
  intros _ x (Ha & Hc & _). split; [|done]. apply Hc; [done|]. left. by exists t.
Qed.

Lemma text_value_answers t : answers (value_data V_STR t).
Proof. apply value_data_answers. by left. Qed.
Lemma bytes_value_answers t : answers (value_data V_BYTES t).
Proof. apply value_data_answers. by right. Qed.
Lemma result_answers ok r : answers (result_value ok r).
Proof. apply variant_answers. Qed.
Lemma error_answers t : answers (error_value t).
Proof. apply answers_bind; [apply text_value_answers|intros; apply result_answers]. Qed.
Lemma unit_result_answers : answers (payload ← value_unit; result_value true payload).
Proof. apply answers_bind; [apply value_unit_answers|intros; apply result_answers]. Qed.
Lemma bytes_result_answers l : answers (payload ← value_data V_BYTES l; result_value true payload).
Proof. apply answers_bind; [apply bytes_value_answers|intros; apply result_answers]. Qed.
#[local] Hint Resolve text_value_answers bytes_value_answers result_answers error_answers unit_result_answers
  bytes_result_answers : answers.

Lemma result_yields ok r : yields (result_value ok r) (λ x, x = Variant (str (if ok then "Ok" else "Error")) [r]).
Proof.
  unfold result_value, named_value. eapply yields_bind; [apply yields_any|intros ? _].
  eapply (yields_bind _ _ (λ n, n = str (if ok then "Ok" else "Error"))).
  - unfold copy_text. eapply yields_bind; [apply yields_any|intros ? _]. apply yields_ret. by destruct ok.
  - intros n ->. eapply yields_bind; [apply yields_any|intros ? _]. by apply yields_ret.
Qed.
Lemma error_yields t : yields (error_value t) failed_report.
Proof.
  unfold error_value. eapply (yields_bind _ _ (λ r, ∃ x, r = Str x)).
  - unfold value_data. do 2 (eapply yields_bind; [apply yields_any|intros ? _]). apply yields_ret. eauto.
  - intros ? [x ->]. eapply yields_mono; [apply result_yields|]. intros ? ->. by exists (str "Error"), x.
Qed.

Lemma fail_ends t s v :
  http_ok (http v) → length (clients s) = SERVER_CONCURRENCY →
  tends (server_fail t) (s, v) (λ _ x, closed (fst x) ∧ after v (snd x)).
Proof.
  intros Hok Hlen. unfold server_fail. eapply tends_nullable; [auto with answers|apply error_yields|]. intros r Hr.
  do 2 apply tends_on_server. eapply tends_bind; [by apply close_all_ends|].
  intros _ [s' v'] (Ha & Hc & _ & Hl). simpl in *. destruct r as [r|].
  - apply tends_ret. split; [|done]. apply Hc; [done|]. right. exists r. split; [done|]. left. by apply Hr.
  - eapply tends_mono; [apply server_trap_ends; [apply Ha|done]|]. intros _ x (? & ?). split; [done|]. by eapply after_trans.
Qed.

(** ** A client leaves *)

(** The server goes on without the client, or is done. *)
Definition left_slot i s v (x : VMTcpServer E * Env W) : Prop :=
  after v (snd x) ∧
  (closed (fst x) ∨
   (live None (fst x) (http (snd x)) ∧ kept s (fst x) ∧ clients (fst x) = <[i:=free_client]> (clients s))).

Lemma left_slot_ok i s v x : open s → left_slot i s v x → server_ok (fst x) (http (snd x)) ∧ after v (snd x).
Proof. intros Ho [Ha [Hc|(Hl & Hk & _)]]; (split; [|done]); [by left|right; split; [done|by eapply kept_open]]. Qed.

Lemma live_active_pos X s h i c : live X s h → clients s !! i = Some c → state c ≠ CLIENT_FREE → 1 ≤ active s ≤ 32.
Proof.
  intros Hl Hi Hc. rewrite (lv_active _ _ _ Hl). pose proof (occupancy_insert _ _ _ free_client Hi) as Ho.
  rewrite (occupied_busy c Hc), occupied_free in Ho. pose proof (occupancy_le (clients s)) as Hle. rewrite (lv_clients _ _ _ Hl) in Hle.
  change SERVER_CONCURRENCY with 32%nat in Hle. lia.
Qed.

Lemma report_ends i c r s v :
  http_ok (http v) → live (Some i) s (http v) → clients s !! i = Some c → state c ≠ CLIENT_FREE →
  continuous (setup s) = false → tends (report i r) (s, v) (λ _ x, left_slot i s v x).
Proof.
  intros Hok Hl Hi Hc Hct. pose proof (live_active_pos _ _ _ _ _ Hl Hi Hc) as Hpos.
  pose proof (bk_index _ (lv_books _ _ _ Hl) i c Hi Hc) as Hidx.
  assert (Z.to_nat (outcome_index c) < length (outcomes s))%nat as Hlt.
  { rewrite (lv_outcomes _ _ _ Hl). destruct (lv_admitted _ _ _ Hl) as [_ H]. specialize (H Hct).
    pose proof (sp_clients _ _ (lv_setup _ _ _ Hl) Hct). lia. }
  unfold report. eapply tends_get_client; [done|]. apply tends_get_server. apply tends_wr; [done|].
  apply tends_on_server. eapply tends_bind; [by eapply client_clear_ends|]. intros _ ? (v1 & -> & Ha).
  apply tends_last, tends_on_server, tends_ret. split; [done|]. right. split_and!; [|by split|done].
  eapply (live_free i s _ _ c r); [eapply live_mono, Hl; apply Ha|done|done|by split|done| |by rewrite Hct|done].
  simpl. rewrite u64_small by lia. done.
Qed.

Lemma finish_client_ends i c t s v :
  http_ok (http v) → live (Some i) s (http v) → clients s !! i = Some c → state c ≠ CLIENT_FREE →
  tends (finish_client i t) (s, v) (λ _ x, left_slot i s v x).
Proof.
  intros Hok Hl Hi Hc. pose proof (live_active_pos _ _ _ _ _ Hl Hi Hc) as Hpos.
  unfold finish_client. apply tends_get_server. destruct (continuous (setup s)) eqn:Hct.
  - apply tends_on_server. set (s1 := match t with Some _ => _ | None => _ end).
    assert (clients s1 = clients s) as Hcl by (by unfold s1; destruct t).
    eapply tends_bind; [eapply (client_clear_ends i c s1); [done|by rewrite Hcl]|]. intros _ ? (v1 & -> & Ha).
    apply tends_last, tends_on_server, tends_ret. split; [done|]. right. rewrite Hcl.
    split_and!; [|by unfold s1; destruct t; split|done].
    destruct (bk_counts _ (lv_books _ _ _ Hl) Hct) as (B1 & B2 & B3). pose proof (lv_admitted _ _ _ Hl) as [Hadm _].
    eapply (live_free i s _ _ c VUnit); [eapply live_mono, Hl; apply Ha|done|done|by unfold s1; destruct t; split
      |done| |intros _|by rewrite Hct].
    + unfold s1. simpl. destruct t; simpl; rewrite u64_small by lia; done.
    + unfold s1, saturate. destruct t; simpl;
        (destruct (Z.ltb_spec (failures s) SIZE_MAX), (Z.ltb_spec (succeeded s) SIZE_MAX); try lia; split_and!; try lia; done).
  - eapply tends_null; [destruct t; auto with answers|]. intros [r|].
    + by eapply report_ends.
    + eapply tends_mono; [apply server_trap_ends; [done|apply Hl]|]. intros _ x (? & ?). split; [done|]. by left.
Qed.

(** ** Responses of routed servers *)

(** The state is well formed afterwards. *)
Definition fine v (x : VMTcpServer E * Env W) : Prop := server_ok (fst x) (http (snd x)) ∧ after v (snd x).

Lemma fine_left i s v v1 x : after v v1 → open s → left_slot i s v1 x → fine v x.
Proof. intros Ha Ho [? ?]%left_slot_ok; [|done]. split; [done|]. by eapply after_trans. Qed.
Lemma fine_closed v v1 x : after v v1 → closed (fst x) → after v1 (snd x) → fine v x.
Proof. intros Ha Hc ?. split; [by left|]. by eapply after_trans. Qed.

Lemma finish_fine i c t s v v1 :
  after v v1 → open s → live (Some i) s (http v1) → clients s !! i = Some c → state c ≠ CLIENT_FREE →
  tends (finish_client i t) (s, v1) (λ _ x, fine v x).
Proof.
  intros Ha Ho Hl Hi Hc. eapply tends_mono; [eapply finish_client_ends; [apply Ha|done..]|]. intros ? x Hx. exact (fine_left _ _ _ _ _ Ha Ho Hx).
Qed.
Lemma trap_fine t s v v1 :
  after v v1 → length (clients s) = SERVER_CONCURRENCY → tends (server_trap t) (s, v1) (λ _ x, fine v x).
Proof.
  intros Ha Hl. eapply tends_mono; [apply server_trap_ends; [apply Ha|done]|]. intros ? x (? & ?). by eapply fine_closed.
Qed.
Lemma fail_fine t s v v1 :
  after v v1 → length (clients s) = SERVER_CONCURRENCY → tends (server_fail t) (s, v1) (λ _ x, fine v x).
Proof.
  intros Ha Hl. eapply tends_mono; [apply fail_ends; [apply Ha|done]|]. intros ? x (? & ?). by eapply fine_closed.
Qed.
Lemma put_fine X i c c' s v v1 :
  after v v1 → open s → live X s (http v1) → clients s !! i = Some c → X = None ∨ X = Some i → state c ≠ CLIENT_FREE →
  state c' ≠ CLIENT_FREE → outcome_index c' = outcome_index c → client_ok (setup s) (http v1) c' →
  tends (put_client i c') (s, v1) (λ _ x, fine v x).
Proof.
  intros Ha Ho Hl Hi HX Hc Hc' Hx Hok. apply tends_last, tends_put_client, tends_ret. split; [right|done].
  split; [by eapply live_put|done].
Qed.

Lemma live_client s h i c : live None s h → clients s !! i = Some c → state c ≠ CLIENT_FREE → client_ok (setup s) h c.
Proof. intros Hl Hi Hc. by apply (lv_slots _ _ _ Hl i c Hi Hc). Qed.

Lemma client_lookup_insert i c c' (l : list (ServerClient E)) : l !! i = Some c → <[i:=c']> l !! i = Some c'.
Proof. intros Hi. by eapply list_lookup_insert_eq, lookup_lt_Some. Qed.

Lemma set_clients_same i c s : clients s !! i = Some c → set_clients (<[i:=c]> (clients s)) s = s.
Proof. intros Hi. rewrite list_insert_id by done. by destruct s. Qed.

Lemma client_writer_ends {B} c x y (k : _ → T B) s v Q :
  http_ok (http v) → http_connection c = Some y → is_Some (connections (http v) !! y) → x = (s, v) →
  (∀ d w, connections (http v) !! y = Some d → writers (http v) !! writer d = Some w → tends (k (y, d, w)) x Q) →
  tends (r ← client_writer c; k r) x Q.
Proof.
  intros Hok Hy [d Hd] -> Hk. destruct (ok_writer _ _ (http_connections _ Hok y d Hd)) as [w Hw].
  apply (tends_then _ _ _ (y, d, w) (s, v)); [|auto]. intros al. unfold client_writer. rewrite Hy.
  unfold mbind, T_bind, not_null, get_env. simpl. rewrite Hd. simpl. by rewrite Hw.
Qed.

(** The response of the writer, once completed, becomes that of the client. *)
Definition attached c c' : Prop :=
  c' = c ∨ (response c = None ∧ is_Some (http_connection c) ∧ ∃ l, c' = set_response (Some (Bytes l)) c).

Lemma attached_ok p h c c' : attached c c' → client_ok p h c → client_ok p h c'.
Proof.
  intros [-> |(Hr & [y Hy] & l & ->)] [H1 H2 H3 H4 H5 H6 H7 H8 H9 H10]; [done|]. rewrite Hy in H9. split; simpl; try done.
  - exists l. rewrite Hr in H1. rewrite H1. split; [done|lia].
  - by rewrite Hy.
  - intros Hq. destruct H9. congruence.
Qed.

Lemma attach_ends {B} i c (k : _ → T B) s v Q :
  http_ok (http v) → live None s (http v) → clients s !! i = Some c → state c ≠ CLIENT_FREE →
  (∀ c', attached c c' →
     (∀ y d w, http_connection c = Some y → connections (http v) !! y = Some d →
        writers (http v) !! writer d = Some w → completed w = true → is_Some (response c')) →
     tends (k tt) (set_clients (<[i:=c']> (clients s)) s, v) Q) →
  tends (r ← http_attach_response i; k r) (s, v) Q.
Proof.
  intros Hok Hl Hi Hc Hk. pose proof (live_client _ _ _ _ Hl Hi Hc) as Hco.
  assert (∀ r, response c = Some r ∨ http_connection c = None →
    tends (k tt) (s, v) Q) as Hsame.
  { intros r Hr. rewrite <- (set_clients_same i c s Hi). apply Hk; [by left|]. intros y d w Hy. destruct Hr; [eauto|congruence]. }
  unfold http_attach_response. apply (tends_bind _ _ _ (λ _ x, tends (k tt) x Q)); [|by intros [] x].
  eapply tends_get_client; [done|].
  destruct (response c) as [r|] eqn:Hr; [by apply tends_ret, (Hsame r); left|].
  destruct (http_connection c) as [y|] eqn:Hy; [|by apply tends_ret, (Hsame VUnit); right].
  pose proof (ck_connection _ _ _ Hco) as Hcon. rewrite Hy in Hcon. destruct Hcon as [_ Hcon].
  eapply client_writer_ends; [done|done|done|done|]. intros d w Hd Hw. destruct (completed w) eqn:Hcm.
  - destruct (http_writers _ Hok _ _ Hw) as [_ _ Hwire]. rewrite Hcm in Hwire. destruct Hwire as [l ->].
    apply tends_last, tends_put_client, tends_ret. apply Hk; [right; by eauto|]. intros. simpl. eauto.
  - apply tends_ret. rewrite <- (set_clients_same i c s Hi). apply Hk; [by left|].
    intros y' d' w' [= <-] Hd' Hw' Hcm'. congruence.
Qed.

Lemma after_step v v' h :
  after v v' → http_ok h → heap_le (http v') h → after v (mkEnv h (runtime v') (os v')).
Proof. intros (_ & Hle & Hr) Hok Hle'. split; [done|]. split; [by etrans|done]. Qed.

Lemma connection_execution_ok e y h : http_ok h → http_ok (set_connections (alter (set_connection_execution e) y (connections h)) h).
Proof.
  intros Hok. destruct (connections h !! y) as [k|] eqn:Hy.
  - rewrite (alter_put _ _ _ _ Hy). apply (put_connection_ok h y k); [done..| |done].
    by destruct (http_connections h Hok y k Hy).
  - replace (alter _ y (connections h)) with (connections h); [by destruct h|]. apply map_eq. intros z.
    destruct (decide (y = z)) as [<-|]; [by rewrite lookup_alter_eq, Hy|by rewrite lookup_alter_ne].
Qed.
Lemma connection_execution_le e y h : heap_le h (set_connections (alter (set_connection_execution e) y (connections h)) h).
Proof. split_and!; simpl; [done..|]. apply alter_le; [apply _|]. intros k. unfold connection_le. by split_and!. Qed.

(** A change of the phase or the resource of a server object. *)
Definition mild (f : VMHttpState → VMHttpState) : Prop :=
  ∀ t, (state_ok t → state_ok (f t)) ∧ admitted (f t) = admitted t ∧ state_le t (f t).

Lemma alter_state_ok f y h : mild f → http_ok h → http_ok (set_states (alter f y (states h)) h).
Proof.
  intros Hf Hok. destruct (states h !! y) as [t|] eqn:Hy.
  - rewrite (alter_put _ _ _ _ Hy). destruct (Hf t) as (H1 & H2 & _). eapply put_state_ok; [done..| |done].
    apply H1, (http_states h Hok y t Hy).
  - replace (alter f y (states h)) with (states h); [by destruct h|]. apply map_eq. intros z.
    destruct (decide (y = z)) as [<-|]; [by rewrite lookup_alter_eq, Hy|by rewrite lookup_alter_ne].
Qed.
Lemma alter_state_le f y h : mild f → heap_le h (set_states (alter f y (states h)) h).
Proof. intros Hf. split_and!; simpl; [|done..]. apply alter_le; [apply _|]. intros t. apply Hf. Qed.

Lemma phase_mild ph : mild (set_phase ph).
Proof. intros t. split; [by intros []; split|]. by split; [|split_and!]. Qed.
Lemma resource_mild r : mild (set_resource r).
Proof. intros t. split; [by intros []; split|]. by split; [|split_and!]. Qed.
Lemma closing_mild : mild closing.
Proof. intros t. unfold closing. case_decide; [by split_and!|apply phase_mild]. Qed.

Lemma runtime_stop_after r r' v v1 h :
  after v v1 → http_runtime_stop r (http v1) = (r', h) → after v (mkEnv h (Some r') (os v1)).
Proof.
  intros (Hok & Hle & _) [= <- <-]. split; [|split; [|by eauto]]; simpl.
  - generalize dependent (http v1). generalize (active_resources r ++ pending_resources r). intros l.
    induction l as [|x l IH]; intros h Hok Hle; simpl; [by destruct h|].
    refine (IH (set_states (alter closing (handle x) (states h)) h) _ _).
    + apply alter_state_ok; [apply closing_mild|done].
    + etrans; [done|]. apply alter_state_le, closing_mild.
  - etrans; [exact Hle|]. clear. generalize (http v1). generalize (active_resources r ++ pending_resources r). intros l.
    induction l as [|x l IH]; intros h; simpl; [by destruct h|].
    etrans; [apply (alter_state_le closing (handle x)), closing_mild|].
    exact (IH (set_states (alter closing (handle x) (states h)) h)).
Qed.

Lemma alter_writer_ok f y w h :
  http_ok h → writers h !! y = Some w → writer_ok (f w) → http_ok (set_writers (alter f y (writers h)) h).
Proof. intros Hok Hy Hw. rewrite (alter_put _ _ _ _ Hy). by eapply put_writer_ok. Qed.
Lemma alter_writer_le f y w h :
  writers h !! y = Some w → writer_le w (f w) → heap_le h (set_writers (alter f y (writers h)) h).
Proof. intros Hy Hw. rewrite (alter_put _ _ _ _ Hy). by eapply put_writer_le. Qed.

Lemma expire_after x k w v v' :
  after v v' → writers (http v') !! writer k = Some w →
  after v (mkEnv (expire x k (http v')) (runtime v') (os v')).
Proof.
  intros Ha Hw. pose proof Ha as (Hok & _). apply after_step; [done| |].
  - apply (connection_execution_ok None x (set_writers _ _)). eapply alter_writer_ok; [done..|]. by destruct (http_writers _ Hok _ _ Hw).
  - etrans; [eapply (alter_writer_le end_writer); [done|apply end_writer_le]|].
    apply (connection_execution_le None x (set_writers _ _)).
Qed.

Lemma http_log_ends m s v :
  http_ok (http v) → tends (http_log m) (s, v) (λ _ x, ∃ w, x = (s, mkEnv (http v) (runtime v) w)).
Proof.
  intros Hok. unfold http_log. apply tends_null; [auto with answers|]. intros [r|].
  - apply tends_last, tends_sys. intros ? w _. apply tends_ret. eauto.
  - apply tends_ret. exists (os v). by destruct v.
Qed.

(** A response to a client whose time has come; the client stays. *)
Lemma http_deadline_response_ends i c s v :
  http_ok (http v) → live None s (http v) → clients s !! i = Some c → state c ≠ CLIENT_FREE →
  tends (http_deadline_response i) (s, v) (λ _ x, after v (snd x) ∧ live None (fst x) (http (snd x)) ∧
    kept s (fst x) ∧ ∃ c', clients (fst x) = <[i:=c']> (clients s) ∧ state c' ≠ CLIENT_FREE).
Proof.
  intros Hok Hl Hi Hc. unfold http_deadline_response. eapply tends_get_client; [done|].
  destruct (fd c <? 0).
  { apply tends_ret. split_and!; [by apply after_refl|done|done|]. exists c. by rewrite list_insert_id. }
  eapply attach_ends; [done..|]. intros c' Hat _.
  pose proof (attached_ok _ _ _ _ Hat (live_client _ _ _ _ Hl Hi Hc)) as Hc'.
  assert (state c' = state c ∧ outcome_index c' = outcome_index c) as [Hst Hix] by (by destruct Hat as [->|(_ & _ & l & ->)]).
  assert (live None (set_clients (<[i:=c']> (clients s)) s) (http v)) as Hl'.
  { eapply live_put; try done; [by left|congruence]. }
  eapply tends_get_client; [by eapply client_lookup_insert|].
  eapply (tends_bind _ _ _ (λ _ x, x = (set_clients (<[i:=c']> (clients s)) s, v))).
  { pose proof (ck_response _ _ _ Hc') as Hr. destruct (response c') as [r|]; [|by apply tends_ret].
    destruct Hr as (l & -> & _). by apply (tends_then _ _ _ l _ _ (λ al, eq_refl)), tends_ret. }
  intros m ? ->. apply tends_sys. intros ? w _. apply tends_ret. simpl. split_and!; [by apply after_os, after_refl|done|by split|].
  exists c'. split; [done|congruence].
Qed.

Lemma set_clients_twice l l' s : set_clients l (set_clients l' s) = set_clients l s.
Proof. done. Qed.

Lemma destroy_then {B} o (k : _ → T B) s v v1 Q :
  after v v1 → (∀ v2, after v v2 → tends (k tt) (s, v2) Q) → tends (r ← destroy_execution o; k r) (s, v1) Q.
Proof.
  intros Ha Hk. eapply tends_bind; [apply destroy_execution_ends, Ha|]. intros [] ? (v2 & -> & Ha2).
  apply Hk. by eapply after_trans.
Qed.

Lemma http_finish_execution_ends i c y d w s v :
  http_ok (http v) → live None s (http v) → open s → clients s !! i = Some c → state c ≠ CLIENT_FREE →
  http_connection c = Some y → connections (http v) !! y = Some d → writers (http v) !! writer d = Some w →
  completed w = true → tends (http_finish_execution i) (s, v) (λ _ x, fine v x).
Proof.
  intros Hok Hl Ho Hi Hc Hy Hd Hw Hcm. unfold http_finish_execution. eapply tends_get_client; [done|].
  eapply client_writer_ends; [done|done|by eauto|done|]. intros d' w' Hd' Hw'. simplify_eq.
  eapply attach_ends; [done..|]. intros c' Hat Hres. specialize (Hres y d w Hy Hd Hw Hcm).
  pose proof (attached_ok _ _ _ _ Hat (live_client _ _ _ _ Hl Hi Hc)) as Hc'.
  assert (state c' = state c ∧ outcome_index c' = outcome_index c ∧ http_connection c' = http_connection c)
    as (Hst & Hix & Hhc) by (by destruct Hat as [->|(_ & _ & l & ->)]).
  apply tends_on_http. eapply (destroy_then _ _ _ v); [exact (expire_after y d w v v (after_refl v Hok) Hw)|]. intros v2 Ha.
  eapply tends_get_client; [by eapply client_lookup_insert|]. apply tends_put_client.
  pose proof (ck_response _ _ _ Hc') as Hr. destruct (response c') as [r|] eqn:Hr'; [|by destruct Hres].
  destruct Hr as (l & -> & Hlen). apply tends_not_null, (tends_then _ _ _ l _ _ (λ al, eq_refl)). simpl.
  rewrite list_insert_insert_eq.
  assert (live (Some i) (set_clients (<[i:=set_client_execution None c']> (clients s)) s) (http v2)) as Hl2.
  { eapply live_mono; [apply Ha|]. eapply live_set; try done; [by left|simpl; congruence]. }
  destruct (Nat.eqb_spec (sent c') (length l)) as [Hs|Hs].
  - eapply finish_fine; [done|exact Ho|exact Hl2|by eapply client_lookup_insert|simpl; congruence].
  - eapply tends_get_client; [by eapply client_lookup_insert|].
    eapply (put_fine (Some i)); [done|exact Ho|exact Hl2|by eapply client_lookup_insert|by right|simpl; congruence|done|done|].
    apply (client_ok_mono _ (http v)); [apply Ha|]. destruct Hc' as [K1 K2 K3 K4 K5 K6 K7 K8 K9 K10].
    split; simpl; try done; [naive_solver|]. by rewrite Hhc, Hy in *.
Qed.

(** The diagnostics leave the server alone, or it has trapped. *)
Lemma log_outcome_ends b e w s v :
  http_ok (http v) → length (clients s) = SERVER_CONCURRENCY →
  tends (log_outcome b e w) (s, v) (λ going x,
    if going then ∃ o, x = (s, mkEnv (http v) (runtime v) o) else closed (fst x) ∧ after v (snd x)).
Proof.
  intros Hok Hlen.
  assert (∀ m, tends (_ ← http_log m; mret true) (s, v) (λ going x, if going then ∃ o,
    x = (s, mkEnv (http v) (runtime v) o) else closed (fst x) ∧ after v (snd x))) as Hlog.
  { intros m. eapply tends_bind; [by apply http_log_ends|]. intros _ ? [o ->]. apply tends_ret. eauto. }
  assert (tends (_ ← server_trap bad_worker; mret false) (s, v) (λ going x, if going then ∃ o,
    x = (s, mkEnv (http v) (runtime v) o) else closed (fst x) ∧ after v (snd x))) as Htrap.
  { eapply tends_bind; [by apply server_trap_ends|]. intros ? x (? & ?). by apply tends_ret. }
  assert (tends (mret true : T bool) (s, v) (λ going x, if going then ∃ o,
    x = (s, mkEnv (http v) (runtime v) o) else closed (fst x) ∧ after v (snd x))) as Hret.
  { apply tends_ret. exists (os v). by destruct v. }
  unfold log_outcome. repeat first [exact Htrap | exact Hret | apply Hlog | case_match].
Qed.

Lemma http_handler_finished_ends i c b s v :
  http_ok (http v) → live None s (http v) → open s → clients s !! i = Some c → running_state (state c) = true →
  routed (setup s) = true → tends (http_handler_finished i b) (s, v) (λ _ x, fine v x).
Proof.
  intros Hok Hl Ho Hi Hst Hrt. assert (state c ≠ CLIENT_FREE) as Hc by (by intros E1; rewrite E1 in Hst).
  pose proof (live_client _ _ _ _ Hl Hi Hc) as [_ K2 _ _ _ _ _ _ K9 _].
  destruct (http_connection c) as [y|] eqn:Hy; [|by rewrite (K9 Hrt) in Hst].
  destruct (proj2 K2 Hst) as [e He]. unfold http_handler_finished. eapply tends_get_client; [done|].
  eapply client_writer_ends; [done|done|apply K9|done|]. intros d w Hd Hw. rewrite He. apply tends_not_null.
  eapply tends_bind; [apply log_outcome_ends; [done|apply Hl]|]. intros [] x Hx; simpl.
  2: { apply tends_ret. destruct Hx as [? ?]. by eapply fine_closed; [apply after_refl|..]. }
  destruct Hx as [o ->]. destruct (completed w) eqn:Hcm.
  { eapply tends_mono; [by eapply http_finish_execution_ends|]. intros ? x Hx. exact Hx. }
  eapply (tends_nullable _ (λ r, r = Bytes http_internal_error)); [auto with answers| |].
  { unfold value_data. do 2 (eapply yields_bind; [apply yields_any|intros ? _]). by apply yields_ret. }
  intros [r|] Hr; [|apply trap_fine; [by apply after_os, after_refl|apply Hl]].
  rewrite (Hr r eq_refl). apply tends_on_http. simpl.
  set (h1 := set_writers (alter (commit (Bytes http_internal_error)) (writer d) (writers (http v))) (http v)).
  assert (http_ok h1) as Hok1.
  { eapply alter_writer_ok; [done..|]. destruct (http_writers _ Hok _ _ Hw). split; simpl; eauto. }
  assert (heap_le (http v) h1) as Hle1.
  { eapply alter_writer_le; [done|]. split; [done|congruence]. }
  eapply tends_mono; [eapply (http_finish_execution_ends i c y d (commit (Bytes http_internal_error) w))|]; try done.
  - by eapply live_mono.
  - simpl. unfold h1. simpl. by rewrite lookup_alter_eq, Hw.
  - intros ? x [Hx Ha]. split; [done|]. eapply after_trans; [|exact Ha].
    by apply (after_step v (mkEnv (http v) (runtime v) o)).
Qed.

(** ** The report *)

Lemma value_size_yields n : 0 ≤ n ≤ SIZE_MAX → answers (value_size n) ∧ yields (value_size n) (λ r, number_value r n).
Proof.
  intros Hn. assert (runs (value_size n) (λ r, number_value r n) no_trap) as Hr.
  { unfold value_size. eapply runs_bind; [apply from_u64_spec; unfold SIZE_MAX in Hn; lia|]. intros b (_ & Hb & Sb).
    apply value_big_spec; [eapply sized_mono; [done|clia]|]. by exists b. }
  split; [by eapply answers_runs|by eapply yields_runs].
Qed.

Lemma copy_texts_yields l : yields (copy_texts l) (λ l', l' = cstr <$> l).
Proof.
  induction l as [|n l IH]; simpl; [by apply yields_ret|].
  eapply (yields_bind _ _ (λ x, x = cstr n)).
  - unfold copy_text. eapply yields_bind; [apply yields_any|intros ? _]. by apply yields_ret.
  - intros ? ->. eapply yields_bind; [exact IH|]. intros ? ->. by apply yields_ret.
Qed.
Lemma copy_texts_answers l : answers (copy_texts l).
Proof. induction l; simpl; unfold copy_text; answers; auto. Qed.
#[local] Hint Resolve copy_texts_answers : answers.

Lemma summary_yields a b d :
  let m := r ← named_value V_RECORD (str "TcpServiceSummary") summary_names [a; b; d]; result_value true r in
  answers m ∧ yields m (λ x, x = Variant (str "Ok") [Record_ (str "TcpServiceSummary") summary_names [a; b; d]]).
Proof.
  split.
  - unfold named_value, copy_text. answers.
  - eapply (yields_bind _ _ (λ x, x = Record_ (str "TcpServiceSummary") summary_names [a; b; d])).
    + unfold named_value. eapply yields_bind; [apply yields_any|intros ? _].
      eapply (yields_bind _ _ (λ n, n = str "TcpServiceSummary")).
      { unfold copy_text. eapply yields_bind; [apply yields_any|intros ? _]. by apply yields_ret. }
      intros ? ->. do 2 (eapply yields_bind; [apply yields_any|intros ? _]).
      eapply yields_bind; [apply copy_texts_yields|]. intros ? ->. by apply yields_ret.
    + intros ? ->. apply result_yields.
Qed.

(** With no client left, every client has its outcome. *)
Lemma reported X s h n :
  live X s h → active s = 0 → continuous (setup s) = false → Z.of_nat n < clients_admitted s →
  ∃ r, outcomes s !! n = Some (Some r).
Proof.
  intros Hl Ha Hct Hn. apply (bk_reports _ (lv_books _ _ _ Hl) Hct n Hn). intros (i & c & Hi & Hc & _).
  pose proof (live_active_pos _ _ _ _ _ Hl Hi Hc). lia.
Qed.

Lemma reports_ends l x :
  (∀ n, (n < length l)%nat → ∃ r, l !! n = Some (Some r)) →
  tends (reports l) x (λ rs x', x' = x ∧ l = Some <$> rs).
Proof.
  induction l as [|o l IH]; intros Hl; simpl; [by apply tends_ret|].
  destruct (Hl 0%nat ltac:(simpl; lia)) as [r [= ->]]. apply tends_not_null.
  eapply tends_bind; [apply IH; intros n Hn; apply (Hl (S n)); simpl; lia|].
  intros rs ? [-> ->]. by apply tends_ret.
Qed.

Lemma summary_ends X s v :
  live X s (http v) → active s = 0 → continuous (setup s) = true →
  tends summary (s, v) (λ o x, x = (s, v) ∧ ∀ r, o = Some r → final_report s r).
Proof.
  intros Hl Ha Hct. destruct (bk_counts _ (lv_books _ _ _ Hl) Hct) as (B1 & B2 & B3).
  pose proof (lv_admitted _ _ _ Hl) as [Hadm _]. unfold summary. apply tends_get_server.
  destruct (value_size_yields (clients_admitted s)) as [A1 Y1]; [lia|].
  destruct (value_size_yields (succeeded s)) as [A2 Y2]; [lia|].
  destruct (value_size_yields (failures s)) as [A3 Y3]; [lia|].
  eapply tends_nullable; [done..|]. intros oa Ea. eapply tends_nullable; [done..|]. intros ob Eb.
  eapply tends_nullable; [done..|]. intros od Ed.
  destruct oa as [a|]; [|by apply tends_ret]. destruct ob as [b|]; [|by apply tends_ret].
  destruct od as [d|]; [|by apply tends_ret]. apply tends_last.
  destruct (summary_yields a b d) as [A4 Y4]. eapply tends_nullable; [done..|]. intros o Eo. apply tends_ret.
  split; [done|]. intros r ->. rewrite (Eo r eq_refl). unfold final_report. rewrite Hct. exists a, b, d.
  split_and!; [done|by apply Ea|by apply Eb|by apply Ed|lia].
Qed.

Lemma report_list_ends X s v :
  live X s (http v) → active s = 0 → continuous (setup s) = false →
  tends report_list (s, v) (λ o x, x = (s, v) ∧ ∀ r, o = Some r → final_report s r).
Proof.
  intros Hl Ha Hct. pose proof (lv_admitted _ _ _ Hl) as [Hadm Hlim]. specialize (Hlim Hct).
  pose proof (sp_clients _ _ (lv_setup _ _ _ Hl) Hct) as Hsp. pose proof (lv_outcomes _ _ _ Hl) as Hlen.
  unfold report_list. apply tends_get_server.
  destruct (Z.ltb_spec (Z.of_nat (length (outcomes s))) (clients_admitted s)) as [|Hge]; [lia|].
  eapply tends_bind; [apply reports_ends|].
  { intros n. rewrite length_take. intros Hn. rewrite lookup_take_lt by lia. eapply reported; [done..|]. lia. }
  intros l ? [-> Hl']. apply tends_last.
  eapply (tends_nullable _ (λ r, r = Variant (str "Ok") [Array l])).
  { apply answers_bind; [apply value_sequence_answers|intros; apply result_answers]. }
  { eapply (yields_bind _ _ (λ r, r = Array l)); [|intros ? ->; apply result_yields].
    unfold value_sequence. do 2 (eapply yields_bind; [apply yields_any|intros ? _]). by apply yields_ret. }
  intros o Ho. apply tends_ret. split; [done|]. intros r ->. rewrite (Ho r eq_refl). unfold final_report. rewrite Hct.
  exists l. split_and!; [done| |].
  - assert (length l = Z.to_nat (clients_admitted s)) as ->; [|lia].
    rewrite <- (length_fmap (Some : Value → option Value) l), <- Hl', length_take. lia.
  - intros i o Hi. assert ((Some <$> l) !! i = Some (Some o)) as E1 by (by rewrite list_lookup_fmap, Hi).
    rewrite <- Hl' in E1. by apply lookup_take_Some in E1 as [? _].
Qed.

Lemma live_clear_ready X s h :
  live X s h → live X (set_readiness false (ready_console s) (ready_handler s) (ready_context s)
                         (set_ready_execution None s)) h.
Proof. intros Hl. live_ext Hl. Qed.

(** A drained server is done, with its report unless memory ran out. *)
Lemma conclude_ends s v :
  http_ok (http v) → live None s (http v) → active s = 0 →
  tends conclude (s, v) (λ _ x, closed (fst x) ∧ after v (snd x)).
Proof.
  intros Hok Hl Ha. unfold conclude. eapply tends_bind; [by apply clear_ready_ends|]. intros _ ? (v1 & Ha1 & ->).
  set (s1 := set_readiness _ _ _ _ _). assert (live None s1 (http v1)) as Hl1.
  { eapply live_mono; [apply Ha1|]. by apply live_clear_ready. }
  apply tends_get_server.
  eapply (tends_bind _ _ _ (λ o x, x = (s1, v1) ∧ ∀ r, o = Some r → final_report s1 r)).
  { destruct (continuous (setup s1)) eqn:Hct; [by eapply summary_ends|by eapply report_list_ends]. }
  intros o ? [-> Ho]. do 2 apply tends_on_server. destruct o as [r|].
  - apply tends_ret. split; [|done]. simpl.
    assert (occupancy (clients s) = 0%nat) as Hz by (pose proof (lv_active _ _ _ Hl); lia).
    split; simpl; [done|by apply occupancy_zero|apply Hl|done|].
    right. exists r. split; [done|]. right. by apply Ho.
  - eapply tends_mono; [apply server_trap_ends; [apply Ha1|apply Hl]|]. intros ? x (? & ?). split; [done|].
    by eapply after_trans.
Qed.
End clients.

#[export] Existing Instance kept_preorder.
#[export] Hint Resolve text_value_answers bytes_value_answers result_answers error_answers unit_result_answers
  bytes_result_answers copy_texts_answers : answers.
