(* ===== verification/TcpService.v ===== *)
(** * TCP server: time, admission, input and output, and running handlers

    Every operation of the interface of tcp_server.h keeps the invariant of
    [TcpClients], and the deadlines that have passed are enforced before anything
    else is done. *)

From Stdlib Require Import ZArith Lia.
From stdpp Require Import prelude gmap strings relations.
From S2P Require Import Prelude Bigint Value Equal Numeric Program Collections Execute.
From S2P Require Import HttpState HttpObjects TcpServer TcpClients.

Section service.
Context {E W : Type} `{!Sockets W, !SocketsLaws W, !ServerExecutor E W, !ServerExecutorLaws E W}.
Implicit Types (s : VMTcpServer E) (c : ServerClient E) (v : Env W) (h : HttpHeap) (p : Setup).

(** ** Time *)

(** The time the clock of the environment shows. *)
Definition clock v : option Z := reading (fst (clock_gettime (os v))).

Lemma reading_bound r now : reading r = Some now → 0 ≤ now ≤ UINT64_MAX - SERVER_TIMEOUT.
Proof.
  unfold reading. destruct r as [[sec nsec]|]; [|done]. destruct (_ || _) eqn:Hg; [done|]. intros [= <-].
  apply orb_false_iff in Hg as [_ Hg%Z.ltb_ge]. split; [|done]. apply Z.mod_pos_bound. lia.
Qed.

Lemma clock_ends {B} (k : _ → T B) s v Q :
  (∀ w, tends (k (clock v)) (s, mkEnv (http v) (runtime v) w) Q) → tends (o ← clock_ms; k o) (s, v) Q.
Proof.
  intros Hk. apply (tends_bind _ _ _ (λ o x, o = clock v ∧ ∃ w, x = (s, mkEnv (http v) (runtime v) w))).
  - unfold clock_ms. apply tends_sys. intros r w Hr. apply tends_ret. unfold clock. rewrite Hr. eauto.
  - intros o ? [-> [w ->]]. apply Hk.
Qed.

Lemma configure_ends {B} n (k : _ → T B) s v Q :
  (∀ b w, tends (k b) (s, mkEnv (http v) (runtime v) w) Q) → tends (b ← configure n; k b) (s, v) Q.
Proof.
  intros Hk. apply (tends_bind _ _ _ (λ _ x, ∃ w, x = (s, mkEnv (http v) (runtime v) w))).
  - unfold configure. apply tends_sys. intros [] w _; [|apply tends_ret; eauto].
    apply tends_last, tends_sys. intros b w' _. apply tends_ret. eauto.
  - intros b ? [w ->]. apply Hk.
Qed.

(** The server begins to drain, if it has not. *)
Definition stopped now s : VMTcpServer E :=
  if stopping s then s
  else set_listener (-1) (set_drain true (u64 (now + drain_ms (limits (setup s)))) s).

Lemma stopped_live X now s h : live X s h → live X (stopped now s) h.
Proof. intros Hl. unfold stopped. destruct (stopping s); [done|]. live_ext Hl. Qed.

Lemma stop_at_ends now s v :
  http_ok (http v) → tends (stop_at now) (s, v) (λ _ x, fst x = stopped now s ∧ after v (snd x)).
Proof.
  intros Hok. unfold stop_at, stopped. apply tends_get_server. destruct (stopping s).
  - apply tends_ret. split; [done|by apply after_refl].
  - apply tends_on_server. eapply tends_mono; [by apply close_listener_ends|]. by intros ? ? (v' & Ha & ->).
Qed.

(** The clients that stay have time left. *)
Definition in_time now s c : Prop :=
  now < client_deadline c ∧ (stopping s = true → now < drain_deadline s).

Definition survivors (js : list nat) now s s' : Prop :=
  kept s s' ∧ ∀ j c, clients s' !! j = Some c → state c ≠ CLIENT_FREE →
    clients s !! j = Some c ∧ (j ∈ js → in_time now s c).

(** Nobody else left. *)
Definition patient now s s' : Prop :=
  ∀ j c, clients s !! j = Some c → in_time now s c → clients s' !! j = Some c.

(** The client left, or it has time. *)
Definition expired_or_in_time now i c s v (x : VMTcpServer E * Env W) : Prop :=
  after v (snd x) ∧
  (closed (fst x) ∨
   live None (fst x) (http (snd x)) ∧ kept s (fst x) ∧
   (clients (fst x) = <[i:=free_client]> (clients s) ∧ ¬ in_time now s c ∨ fst x = s ∧ in_time now s c)).

Lemma finish_expired now i c c1 t s s1 v v1 :
  after v v1 → live None s1 (http v1) → kept s s1 → clients s !! i = Some c → clients s1 = <[i:=c1]> (clients s) →
  state c1 ≠ CLIENT_FREE → ¬ in_time now s c →
  tends (finish_client i t) (s1, v1) (λ _ x, expired_or_in_time now i c s v x).
Proof.
  intros Ha1 Hl1 Hk1 Hi Hcl1 Hc1 Hnt. eapply tends_mono; [eapply (finish_client_ends i c1); [apply Ha1|by apply live_except| |done]|].
  - rewrite Hcl1. by eapply client_lookup_insert.
  - intros ? x [Ha2 Hx]. split; [by eapply after_trans|]. destruct Hx as [Hx|(Hl2 & Hk2 & Hcl2)]; [by left|right].
    split_and!; [done|by etrans|]. left. split; [|done]. by rewrite Hcl2, Hcl1, list_insert_insert_eq.
Qed.

Lemma expire_client_ends now i c s v :
  http_ok (http v) → live None s (http v) → clients s !! i = Some c → state c ≠ CLIENT_FREE →
  tends (expire_client now i c) (s, v) (λ _ x, expired_or_in_time now i c s v x).
Proof.
  intros Hok Hl Hi Hc. unfold expire_client. apply tends_get_server.
  destruct (Z.leb_spec (client_deadline c) now) as [Hdl|Hdl].
  - assert (¬ in_time now s c) as Hnt by (intros [? _]; lia). destruct (routed (setup s)).
    + eapply tends_bind; [by eapply http_deadline_response_ends|]. intros ? [s1 v1] (Ha1 & Hl1 & Hk1 & c1 & Hcl1 & Hc1).
      by eapply finish_expired.
    + apply (tends_then _ _ _ tt (s, v)); [done|].
      apply (finish_expired now i c c _ s s v v); [by apply after_refl|done|done|done|by rewrite list_insert_id|done|done].
  - destruct (stopping s && (drain_deadline s <=? now)) eqn:Hd.
    + apply andb_true_iff in Hd as [Hs Hd%Z.leb_le].
      apply (finish_expired now i c c _ s s v v); [by apply after_refl|done|done|done|by rewrite list_insert_id|done|].
      intros [_ Ht]. specialize (Ht Hs). lia.
    + apply tends_ret. split; [by apply after_refl|]. right. split_and!; [done..|]. right. split; [done|].
      split; [done|]. intros Hs. rewrite Hs in Hd. by apply Z.leb_gt in Hd.
Qed.

Lemma deadline_loop_ends now js s v :
  http_ok (http v) → live None s (http v) → (∀ j, j ∈ js → (j < SERVER_CONCURRENCY)%nat) →
  tends (deadline_loop now js) (s, v) (λ going x, after v (snd x) ∧
    if going then live None (fst x) (http (snd x)) ∧ survivors js now s (fst x) ∧ patient now s (fst x) else closed (fst x)).
Proof.
  revert s v. induction js as [|j js IH]; intros s v Hok Hl Hjs; simpl.
  { apply tends_ret. split; [by apply after_refl|]. split; [done|]. split; [|by intros j c Hj _]. split; [done|]. intros j c Hj Hc. split; [done|].
    by intros ?%not_elem_of_nil. }
  assert (∀ i, i ∈ js → (i < SERVER_CONCURRENCY)%nat) as Hjs' by (intros; apply Hjs; by right).
  destruct (lookup_lt_is_Some_2 (clients s) j) as [c Hj].
  { rewrite (lv_clients _ _ _ Hl). apply Hjs. by left. }
  eapply tends_get_client; [done|]. case_decide as Hc.
  { eapply tends_mono; [by apply IH|]. intros [] x [Ha Hx]; (split; [done|]); [|done]. destruct Hx as [Hx [[Hk Hsv] Hpt]].
    split; [done|]. split; [|done]. split; [done|]. intros i d Hi Hd. destruct (Hsv i d Hi Hd) as [Hi' Ht]. split; [done|].
    intros [->|?]%elem_of_cons; [|auto]. congruence. }
  eapply tends_bind; [by eapply expire_client_ends|]. intros ? [s1 v1] [Ha1 Hx]. simpl in *. apply tends_get_server.
  destruct Hx as [Hx|(Hl1 & Hk1 & Hcl)]; [rewrite (cl_done _ Hx); by apply tends_ret|]. rewrite (lv_done _ _ _ Hl1).
  eapply tends_mono; [apply IH; [apply Ha1|done|done]|]. intros [] x [Ha Hx]; (split; [by eapply after_trans|]); [|done].
  destruct Hx as [Hx [[Hk Hsv] Hpt]]. split; [done|]. split.
  2: { intros i d Hi Hd. apply Hpt.
       - destruct Hcl as [[-> Hnt]|[-> _]]; [|done]. destruct (decide (j = i)) as [->|]; [congruence|].
         by rewrite list_lookup_insert_ne.
       - unfold in_time in *. destruct Hk1 as [_ _ _ [_ Hdr] Hst _ _]. by rewrite Hdr, Hst. }
  split; [by etrans|]. intros i d Hi Hd. destruct (Hsv i d Hi Hd) as [Hi' Ht].
  assert (clients s !! i = Some d ∧ (i = j → in_time now s d)) as [Hi2 Hij].
  { destruct Hcl as [[Hcl _]|[-> Hin]]; [|split; [done|]; intros ->; by simplify_eq].
    rewrite Hcl, list_lookup_insert_Some in Hi'. destruct Hi' as [(_ & <- & _)|[Hne Hi']]; [done|]. by split. }
  split; [done|]. intros [->|Hin]%elem_of_cons; [auto|]. specialize (Ht Hin). unfold in_time in *.
  destruct Hk1 as [_ _ _ [_ Hdr] Hst _ _]. by rewrite Hdr, Hst in Ht.
Qed.

(** No deadline has passed: none of a client, not that of draining, and not that
    of admission. *)
Record on_time now s : Prop := {
  ot_clients j c : clients s !! j = Some c → state c ≠ CLIENT_FREE → now < client_deadline c;
  ot_drain : stopping s = true → now < drain_deadline s;
  ot_admission : stopping s = false → continuous (setup s) = false → now < admission_deadline s;
  ot_now : 0 ≤ now ≤ UINT64_MAX - SERVER_TIMEOUT;
}.

(** What [deadlines] does to a server that goes on: clients may leave, and it
    may begin to drain. *)
Record evolves now s s' : Prop := {
  ev_setup : setup s' = setup s;
  ev_admitted : clients_admitted s' = clients_admitted s;
  ev_cursors : next_io s' = next_io s ∧ next_handler s' = next_handler s;
  ev_clients j c : clients s' !! j = Some c → state c ≠ CLIENT_FREE → clients s !! j = Some c;
  ev_patient j c : clients s !! j = Some c → now < client_deadline c →
    (stopping s' = true → now < drain_deadline s') → clients s' !! j = Some c;
  ev_drain : stopping s = true → stopping s' = true ∧ drain_deadline s' = drain_deadline s;
  ev_late : stopping s = false → stopping s' = true → admission_deadline s ≤ now ∧
    drain_deadline s' = u64 (admission_deadline s + drain_ms (limits (setup s)));
}.

Lemma occupied_slot l : occupancy (E:=E) l ≠ 0%nat → ∃ j c, l !! j = Some c ∧ state c ≠ CLIENT_FREE.
Proof.
  rewrite occupancy_zero. intros Hn. apply not_Forall_Exists in Hn; [|intros c; apply _].
  apply Exists_exists in Hn as (c & Hc & Hs). apply list_elem_of_lookup in Hc as [j Hj]. eauto.
Qed.

(** The time, with no deadline passed, or a server that is done. *)
Definition timed s v (o : option Z) (x : VMTcpServer E * Env W) : Prop :=
  after v (snd x) ∧
  match o with
  | None => closed (fst x)
  | Some now => live None (fst x) (http (snd x)) ∧ open (fst x) ∧ on_time now (fst x) ∧ evolves now s (fst x) ∧
                clock v = Some now
  end.

Lemma deadlines_ends s v :
  http_ok (http v) → server_ok s (http v) → tends deadlines (s, v) (timed s v).
Proof.
  intros Hok Hs. unfold deadlines. apply tends_get_server.
  destruct Hs as [Hs|[Hl Ho]].
  { rewrite (cl_done _ Hs). apply tends_ret. split; [by apply after_refl|done]. }
  rewrite (lv_done _ _ _ Hl). apply clock_ends. intros w. destruct (clock v) as [now|] eqn:Hclock.
  2: { eapply tends_bind; [apply fail_ends; [done|apply Hl]|]. intros ? x (? & ?). apply tends_ret. by split. }
  pose proof (reading_bound _ _ Hclock) as Hnow. set (v0 := mkEnv (http v) (runtime v) w). assert (after v v0) as Ha0 by (by apply after_same).
  set (late := negb (continuous (setup s)) && negb (stopping s) && (admission_deadline s <=? now)).
  eapply (tends_bind _ _ _ (λ _ x, fst x = (if late then stopped (admission_deadline s) s else s) ∧ after v (snd x))).
  { destruct late; [|by apply tends_ret]. eapply tends_mono; [by apply stop_at_ends|]. intros ? x [-> ?]. by split. }
  intros _ [s1 v1] [Hs1 Ha1]. simpl in Hs1, Ha1.
  assert (live None s1 (http v1)) as Hl1.
  { eapply live_mono; [apply Ha1|]. rewrite Hs1. destruct late; [by apply stopped_live|done]. }
  assert (clients s1 = clients s ∧ setup s1 = setup s ∧ clients_admitted s1 = clients_admitted s ∧
    next_io s1 = next_io s ∧ next_handler s1 = next_handler s ∧ admission_deadline s1 = admission_deadline s ∧
    (stopping s = true → stopping s1 = true ∧ drain_deadline s1 = drain_deadline s) ∧
    (stopping s1 = false → continuous (setup s) = false → now < admission_deadline s) ∧
    (stopping s = false → stopping s1 = true → admission_deadline s ≤ now ∧
       drain_deadline s1 = u64 (admission_deadline s + drain_ms (limits (setup s)))))
    as (E1 & E2 & E3 & E4 & E5 & E6 & E7 & E8 & E9).
  { rewrite Hs1. unfold late, stopped. destruct (stopping s) eqn:Hst, (continuous (setup s)) eqn:Hct; simpl;
      destruct (Z.leb_spec (admission_deadline s) now); simpl; split_and!; try done; congruence. }
  eapply tends_bind; [apply deadline_loop_ends; [apply Ha1|done|]|].
  { intros j [_ Hj]%elem_of_seq. pose proof (sp_concurrency _ _ (lv_setup _ _ _ Hl)). lia. }
  intros going [s2 v2] [Ha2 Hx]. simpl in Ha2, Hx. assert (after v v2) as Ha by (by eapply after_trans).
  destruct going; simpl; [|by apply tends_ret]. destruct Hx as [Hl2 [[Hk Hsv] Hpt]]. apply tends_get_server.
  assert (∀ j c, clients s2 !! j = Some c → state c ≠ CLIENT_FREE → clients s !! j = Some c ∧ in_time now s1 c) as Hin.
  { intros j c Hj Hc. destruct (Hsv j c Hj Hc) as [Hj' Ht]. rewrite E1 in Hj'. split; [done|]. apply Ht, elem_of_seq.
    destruct (lv_slots _ _ _ Hl j c Hj' Hc) as [Hlt _]. lia. }
  destruct Hk as [K1 K2 [K3 K3'] [K4 K4'] K5 K6 K7].
  destruct (stopping s2 && (active s2 =? 0)) eqn:Hend.
  { apply andb_true_iff in Hend as [_ Hz%Z.eqb_eq]. eapply tends_bind; [apply conclude_ends; [apply Ha2|done|done]|].
    intros ? x (? & ?). apply tends_ret. split; [by eapply after_trans|done]. }
  apply tends_ret. split; [done|]. split; [done|]. split; [|split; [split; simpl|split; [split; simpl|done]]].
  - unfold open. simpl. rewrite K1, K2, K5, E2, E3. intros Hct Hst. apply Ho; [done|].
    destruct (stopping s) eqn:Hs0; [|done]. destruct (E7 eq_refl). congruence.
  - intros j c Hj Hc. apply (Hin j c Hj Hc).
  - intros Hst. rewrite Hst in Hend. simpl in Hend. apply Z.eqb_neq in Hend.
    destruct (occupied_slot (clients s2)) as (j & c & Hj & Hc); [rewrite (lv_active _ _ _ Hl2) in Hend; lia|].
    destruct (Hin j c Hj Hc) as [_ [_ Hd]]. rewrite K4'. apply Hd. congruence.
  - rewrite K5, K1, E2, K4, E6. done.
  - done.
  - congruence.
  - congruence.
  - split; congruence.
  - intros j c Hj Hc. by apply (Hin j c Hj Hc).
  - intros j c Hj Hc Hd. apply Hpt; [by rewrite E1|]. split; [done|]. by rewrite <- K4', <- K5.
  - intros Hst. destruct (E7 Hst) as [? ?]. split; congruence.
  - intros Hst Hst2. destruct (E9 Hst) as [? ?]; [congruence|]. split; congruence.
Qed.

(** ** Admission *)

Lemma turn_away_ends n s v :
  http_ok (http v) → tends (turn_away n) (s, v) (λ _ x, fst x = s ∧ after v (snd x)).
Proof.
  intros Hok. unfold turn_away. apply configure_ends. intros b w.
  eapply (tends_bind _ _ _ (λ _ x, ∃ w, x = (s, mkEnv (http v) (runtime v) w))).
  { destruct b; [|apply tends_ret; eauto]. apply tends_sys. intros ? w' _. apply tends_ret. eauto. }
  intros ? ? [w' ->]. apply tends_last, tends_sys. intros ? w'' _. apply tends_ret. split; [done|]. exact (after_same v w'' Hok).
Qed.

Lemma admit_ends i d n now s v :
  http_ok (http v) → live None s (http v) → open s → clients s !! i = Some d → state d = CLIENT_FREE →
  (i < concurrency (limits (setup s)))%nat → stopping s = false → clients_admitted s < SIZE_MAX →
  tends (admit_client i n now) (s, v) (λ _ x, fine v x).
Proof.
  intros Hok Hl Ho Hi Hd Hlt Hst Hmax. unfold admit_client. apply tends_get_server, tends_put_client, tends_on_server.
  set (c0 := mkClient _ _ _ _ _ _ _ _ _ _ _ _ _ _ _). simpl.
  assert (u64 (active s + 1) = active s + 1) as Hact.
  { apply u64_small. rewrite (lv_active _ _ _ Hl). pose proof (occupancy_le (clients s)) as Hle.
    rewrite (lv_clients _ _ _ Hl) in Hle. change SERVER_CONCURRENCY with 32%nat in Hle. lia. }
  rewrite Hact. set (s1 := set_counts _ _ _).
  assert (state c0 ≠ CLIENT_FREE) as Hc0 by (simpl; by destruct (streaming (setup s))).
  assert (live (Some i) s1 (http v)) as Hl1 by (eapply live_admit; try done; intros Hct; by apply Ho).
  assert (clients s1 !! i = Some c0) as Hi1 by (by eapply client_lookup_insert).
  pose proof (lv_setup _ _ _ Hl) as Hsp.
  assert (∀ l, (streaming (setup s) = false → is_Some l) → match l with Some t => t = [] | None => True end →
    client_ok (setup s) (http v) (set_buffer l c0)) as Hok0.
  { intros l Hb Hnil. split; simpl; try done; try (by destruct (streaming (setup s))).
    - intros Hs _. destruct (Hb Hs) as [t ->]. by exists t; subst t.
    - pose proof (sp_request _ _ Hsp). lia.
    - lia.
    - intros Hr. destruct (sp_routed _ _ Hsp Hr) as (_ & -> & _). done. }
  apply configure_ends. intros b w. set (v1 := mkEnv (http v) (runtime v) w).
  assert (after v v1) as Ha1 by (by apply after_same).
  eapply (tends_bind _ _ _ (λ _ x, after v (snd x) ∧ (closed (fst x) ∨ (live None (fst x) (http (snd x)) ∧
    setup (fst x) = setup s ∧ clients_admitted (fst x) = clients_admitted s + 1 ∧ stopping (fst x) = false)))).
  { destruct b.
    - destruct (streaming (setup s)) eqn:Hstr.
      + apply tends_ret. split; [done|]. right. split_and!; [|done..]. eapply live_fill; [exact Hl1|exact Hi1|].
        change c0 with (set_buffer None c0). by apply Hok0.
      + apply tends_null; [apply answers_alloc|]. intros [[]|].
        * eapply tends_get_client; [exact Hi1|]. apply tends_last, tends_put_client, tends_ret. split; [done|]. right.
          split_and!; [|done..]. eapply (live_put (Some i)); [exact Hl1|exact Hi1|by right|done|done|done|]. by apply Hok0.
        * eapply tends_mono; [apply server_trap_ends; [done|apply Hl1]|]. intros ? x (? & ?). split; [done|by left].
    - eapply tends_mono; [eapply finish_client_ends; [done|exact Hl1|exact Hi1|done]|].
      intros ? x [Ha [Hx|(Hx & [K1 K2 _ _ K5 _ _] & _)]]; (split; [done|]); [by left|right].
      split_and!; [done|by rewrite K1|by rewrite K2|by rewrite K5]. }
  intros ? [s2 v2] [Ha2 Hx]. simpl in Ha2, Hx. apply tends_get_server.
  destruct Hx as [Hx|(Hl2 & E1 & E2 & E3)].
  { rewrite (cl_done _ Hx), andb_false_r. simpl. apply tends_ret. split; [by left|done]. }
  rewrite (lv_done _ _ _ Hl2), E2. simpl. rewrite andb_true_r. destruct (negb _ && _) eqn:Hend.
  - eapply tends_mono; [apply stop_at_ends, Ha2|]. intros ? x [Hx Ha3]. split; [right|by eapply after_trans]. rewrite Hx.
    split; [eapply live_mono; [apply Ha3|by apply stopped_live]|]. unfold open, stopped. rewrite E3. done.
  - apply tends_ret. split; [right|done]. split; [done|]. unfold open. simpl. rewrite E1, E2. intros Hct _.
    rewrite Hct in Hend. simpl in Hend. apply Z.eqb_neq in Hend. specialize (Ho Hct Hst). lia.
Qed.

Lemma accept_client_ends now s v :
  http_ok (http v) → live None s (http v) → open s → tends (accept_client now) (s, v) (λ _ x, fine v x).
Proof.
  intros Hok Hl Ho. assert (∀ w, fine v (s, mkEnv (http v) (runtime v) w)) as Hsame.
  { intros w. split; [by right|]. by apply after_same. }
  assert (tends (mret tt : T unit) (s, v) (λ _ x, fine v x)) as Hret.
  { apply tends_ret. specialize (Hsame (os v)). by destruct v. }
  unfold accept_client. apply tends_get_server. destruct (_ || _) eqn:Hg; [done|].
  apply orb_false_iff in Hg as [Hst Hg].
  destruct (Z.eqb_spec (clients_admitted s) SIZE_MAX) as [|Hmax]; [apply fail_fine; [by apply after_refl|apply Hl]|].
  pose proof (lv_admitted _ _ _ Hl) as [Hadm _]. apply tends_sys. intros [n| |] w _.
  - pose proof (sp_concurrency _ _ (lv_setup _ _ _ Hl)) as Hcc.
    destruct (free_slot_spec (concurrency (limits (setup s))) (clients s)) as [Hle Hfree]; [rewrite (lv_clients _ _ _ Hl); lia|].
    destruct (Nat.eqb_spec (free_slot (concurrency (limits (setup s))) (clients s)) (concurrency (limits (setup s)))) as [|Hne].
    + eapply tends_mono; [by apply turn_away_ends|]. intros ? x [Hx Ha]. split; [right|eapply after_trans; [|exact Ha]; by apply after_same].
      rewrite Hx. split; [|done]. eapply live_mono; [apply Ha|done].
    + destruct Hfree as (d & Hd & Hdf); [lia|].
      eapply tends_mono; [eapply (admit_ends _ d); try done; lia|]. intros ? x [Hx Ha]. split; [done|].
      eapply after_trans; [|exact Ha]. by apply after_same.
  - by apply tends_ret.
  - apply fail_fine; [by apply after_same|apply Hl].
Qed.

(** ** Reading and writing *)

(** A well-formed state with a client in slot [i]. *)
Definition at_client i c s h : Prop :=
  live None s h ∧ open s ∧ clients s !! i = Some c ∧ state c ≠ CLIENT_FREE.

Lemma at_client_ok i c s h : at_client i c s h → client_ok (setup s) h c.
Proof. intros (Hl & _ & Hi & Hc). by eapply live_client. Qed.
Lemma at_client_length i c s h : at_client i c s h → length (clients s) = SERVER_CONCURRENCY.
Proof. intros (Hl & _). apply Hl. Qed.
Lemma at_client_mono i c s h h' : heap_le h h' → at_client i c s h → at_client i c s h'.
Proof. intros Hle (Hl & ? & ? & ?). split; [by eapply live_mono|done]. Qed.
Lemma at_client_fine i c s v v1 : after v v1 → at_client i c s (http v1) → fine v (s, v1).
Proof. intros Ha (Hl & Ho & _). split; [right; done|done]. Qed.

(** The client changes. *)
Lemma at_client_put i c c' s h :
  at_client i c s h → state c' ≠ CLIENT_FREE → outcome_index c' = outcome_index c → client_ok (setup s) h c' →
  at_client i c' (set_clients (<[i:=c']> (clients s)) s) h.
Proof.
  intros (Hl & Ho & Hi & Hc) Hc' Hx Hok. split; [|split; [done|split; [by eapply client_lookup_insert|done]]].
  by eapply live_put; [..|by left| | | |].
Qed.
Lemma tends_update {B} i c c' (k : _ → T B) s v Q :
  at_client i c s (http v) → state c' ≠ CLIENT_FREE → outcome_index c' = outcome_index c →
  client_ok (setup s) (http v) c' →
  (∀ s', at_client i c' s' (http v) → setup s' = setup s → tends (k tt) (s', v) Q) →
  tends (y ← put_client i c'; k y) (s, v) Q.
Proof. intros Hat Hc' Hx Hok Hk. apply tends_put_client. apply Hk; [by eapply at_client_put|done]. Qed.
Lemma update_fine i c c' s v v1 :
  after v v1 → at_client i c s (http v1) → state c' ≠ CLIENT_FREE → outcome_index c' = outcome_index c →
  client_ok (setup s) (http v1) c' → tends (put_client i c') (s, v1) (λ _ x, fine v x).
Proof.
  intros Ha Hat Hc' Hx Hok. apply tends_last. eapply tends_update; [done..|]. intros s' Hat' _. apply tends_ret.
  by eapply at_client_fine.
Qed.
Lemma finish_at i c t s v v1 :
  after v v1 → at_client i c s (http v1) → tends (finish_client i t) (s, v1) (λ _ x, fine v x).
Proof. intros Ha (Hl & Ho & Hi & Hc). eapply finish_fine; [done|done|by apply live_except|done|done]. Qed.
Lemma trap_at i c t s v v1 :
  after v v1 → at_client i c s (http v1) → tends (server_trap t) (s, v1) (λ _ x, fine v x).
Proof. intros Ha Hat. eapply trap_fine; [done|by eapply at_client_length]. Qed.
Lemma get_at {B} i c (k : _ → T B) s v Q :
  at_client i c s (http v) → tends (k c) (s, v) Q → tends (y ← get_client i; k y) (s, v) Q.
Proof. intros (_ & _ & Hi & _). by apply tends_get_client. Qed.

Lemma read_client_ends i c s v :
  http_ok (http v) → at_client i c s (http v) → state c = CLIENT_READ → tends (read_client i) (s, v) (λ _ x, fine v x).
Proof.
  intros Hok Hat Hst. pose proof (at_client_ok _ _ _ _ Hat) as [K1 K2 K3 K4 K5 K6 K7 K8 K9 K10].
  unfold read_client. eapply get_at; [done|]. apply tends_get_server, tends_sys. intros r w Hr.
  pose proof (after_same v w Hok) as Ha. pose proof (K3 Hst) as Hns.
  destruct r as [[|b bytes]| |].
  - eapply update_fine; [exact Ha|exact Hat|done|done|]. split; simpl; try done.
    + rewrite K2, Hst. done.
    + intros _ _. apply K4; [done|by left].
    + destruct (http_connection c); done.
    + intros Hq _. apply K10; [done|congruence].
  - pose proof (sp_request _ _ (lv_setup _ _ _ (proj1 Hat))) as Hlim. unfold SERVER_BYTES in Hlim.
    rewrite u64_small by lia. destruct (Z.ltb_spec (request_limit (limits (setup s)) - received c) (Z.of_nat (length (b :: bytes)))) as [|Hle].
    + by eapply finish_at; [exact Ha|].
    + destruct (K4 Hns (or_introl Hst)) as (l & Hl & Hrec). rewrite Hl. apply tends_not_null.
      eapply update_fine; [exact Ha|exact Hat|simpl; congruence|done|].
      split; simpl; rewrite ?Hst; try done.
      * by rewrite K2, Hst.
      * intros _ _. eexists. split; [done|]. rewrite length_app, Hrec. simpl. lia.
      * simpl in Hle. lia.
      * destruct (http_connection c); [done|]. by rewrite <- Hst.
      * intros Hq _. apply K10; [done|congruence].
  - apply tends_ret. by eapply at_client_fine.
  - by eapply finish_at; [exact Ha|].
Qed.

(** A client that runs may run on. *)
Lemma running_ok p h c :
  client_ok p h c → running_state (state c) = true → client_ok p h (set_read_limit 0 (set_state CLIENT_RUN c)).
Proof.
  intros [K1 K2 K3 K4 K5 K6 K7 K8 K9 K10] Hst. split; simpl; try done.
  - by rewrite K2, Hst.
  - naive_solver.
  - destruct (http_connection c); [done|]. intros Hr. by rewrite (K9 Hr) in Hst.
  - intros Hq _. apply K10; [done|]. intros Hx. by rewrite Hx in Hst.
Qed.
Lemma execution_ok p h c e :
  client_ok p h c → is_Some (client_execution c) → client_ok p h (set_client_execution (Some e) c).
Proof. intros [K1 K2 K3 K4 K5 K6 K7 K8 K9 K10] He. split; simpl; try done. rewrite <- K2. split; [done|]. eauto. Qed.

Lemma complete_stream_read_ends i c r s v v1 :
  after v v1 → at_client i c s (http v1) → running_state (state c) = true →
  tends (complete_stream_read i r) (s, v1) (λ _ x, fine v x).
Proof.
  intros Ha Hat Hst. pose proof (at_client_ok _ _ _ _ Hat) as Hco.
  destruct (proj2 (ck_execution _ _ _ Hco) Hst) as [e He].
  unfold complete_stream_read. eapply get_at; [done|].
  eapply tends_update; [done|done|done|by apply running_ok|]. intros s1 Hat1 Hset.
  destruct r as [r|]; [|by eapply trap_at]. rewrite He. apply tends_not_null, tends_get_env.
  eapply tends_certain; [apply complete_law|]. intros [[ok e'] v2] Hrun. apply tends_put_env.
  pose proof (Hrun (proj1 Ha)) as Ha2. assert (after v v2) as Ha' by (by eapply after_trans).
  assert (at_client i (set_read_limit 0 (set_state CLIENT_RUN c)) s1 (http v2)) as Hat2.
  { eapply at_client_mono; [apply Ha2|done]. }
  eapply get_at; [exact Hat2|]. eapply tends_update; [exact Hat2|done|done| |].
  { apply execution_ok; [by eapply at_client_ok|]. simpl. eauto. }
  intros s2 Hat3 _. destruct ok; [|by eapply trap_at]. apply tends_ret. by eapply at_client_fine.
Qed.

Lemma deliver_chunk_ends i c l s v v1 :
  after v v1 → at_client i c s (http v1) → running_state (state c) = true →
  tends (deliver_chunk i l) (s, v1) (λ _ x, fine v x).
Proof.
  intros Ha Hat Hst. unfold deliver_chunk. apply tends_null; [auto with answers|].
  intros [r|]; [by eapply complete_stream_read_ends|by eapply trap_at].
Qed.

Lemma read_stream_chunk_ends i c s v :
  http_ok (http v) → at_client i c s (http v) → state c = CLIENT_STREAM_READ →
  tends (read_stream_chunk i) (s, v) (λ _ x, fine v x).
Proof.
  intros Hok Hat Hst. pose proof (at_client_ok _ _ _ _ Hat) as Hco.
  assert (running_state (state c) = true) as Hrun by (by rewrite Hst).
  unfold read_stream_chunk. eapply get_at; [done|]. apply tends_get_server.
  destruct (stream_eof c); [by eapply deliver_chunk_ends; [apply after_refl|..]|].
  apply tends_sys. intros r w _. pose proof (after_same v w Hok) as Ha.
  assert (client_ok (setup s) (http v) (set_stream_eof true c)) as Heof by (by destruct Hco; split).
  destruct r as [[|b bytes]| |].
  - eapply tends_update; [exact Hat|simpl; congruence|done|exact Heof|]. intros s1 Hat1 _. by eapply deliver_chunk_ends.
  - destruct (_ && _) eqn:Hg.
    + eapply tends_update; [exact Hat|simpl; congruence|done|exact Heof|]. intros s1 Hat1 _.
      apply tends_null; [auto with answers|]. intros o. by eapply complete_stream_read_ends.
    + destruct (routed (setup s)) eqn:Hrt.
      { apply (tends_then _ _ _ tt (s, mkEnv (http v) (runtime v) w)); [done|]. by eapply deliver_chunk_ends. }
      simpl in Hg. apply Z.ltb_ge in Hg. pose proof (sp_request _ _ (lv_setup _ _ _ (proj1 Hat))) as Hlim.
      unfold SERVER_BYTES in Hlim. pose proof (ck_received _ _ _ Hco) as Hrec. rewrite u64_small in Hg by lia.
      eapply tends_update; [exact Hat|simpl; congruence|done| |].
      { destruct Hco as [K1 K2 K3 K4 K5 K6 K7 K8 K9 K10]. split; simpl; try done.
        - intros Hs [Hx|Hx]; congruence.
        - simpl in Hg. lia. }
      intros s1 Hat1 _. by eapply deliver_chunk_ends.
  - apply tends_ret. by eapply at_client_fine.
  - apply tends_null; [auto with answers|]. intros o. by eapply complete_stream_read_ends.
Qed.

Lemma write_interim_ends i c s v :
  http_ok (http v) → at_client i c s (http v) → state c = CLIENT_INTERIM_WRITE →
  tends (write_interim i) (s, v) (λ _ x, fine v x).
Proof.
  intros Hok Hat Hst. pose proof (at_client_ok _ _ _ _ Hat) as Hco.
  unfold write_interim. eapply get_at; [done|]. apply tends_sys. intros r w Hr. pose proof (after_same v w Hok) as Ha.
  assert (∀ c' s', at_client i c' s' (http v) → state c' = CLIENT_INTERIM_WRITE →
    tends (c ← get_client i; if Nat.eqb (interim_sent c) (length http_continue) then
       r ← nullable (payload ← value_data V_BYTES []; result_value true payload); complete_stream_read i r
     else mret tt) (s', mkEnv (http v) (runtime v) w) (λ _ x, fine v x)) as Hcheck.
  { intros c' s' Hat' Hst'. eapply get_at; [exact Hat'|]. destruct (Nat.eqb _ _); [|apply tends_ret; by eapply at_client_fine].
    apply tends_null; [auto with answers|]. intros o. eapply complete_stream_read_ends; [exact Ha|exact Hat'|by rewrite Hst']. }
  destruct r as [n| |].
  - destruct (0 <? n); [|by eapply finish_at; [exact Ha|]].
    pose proof (send_bound _ _ _ _ _ Hr) as Hn. rewrite length_drop in Hn.
    eapply tends_update; [exact Hat|simpl; congruence|done| |].
    { destruct Hco as [K1 K2 K3 K4 K5 K6 K7 K8 K9 K10].
      assert (interim_sent c + Z.to_nat n ≤ length http_continue)%nat by lia. by split. }
    intros s1 Hat1 _. by eapply Hcheck.
  - by eapply Hcheck.
  - by eapply finish_at; [exact Ha|].
Qed.

Lemma write_client_ends i c r s v :
  http_ok (http v) → at_client i c s (http v) → response c = Some r → tends (write_client i) (s, v) (λ _ x, fine v x).
Proof.
  intros Hok Hat Hres. pose proof (at_client_ok _ _ _ _ Hat) as Hco. pose proof (ck_response _ _ _ Hco) as Hr.
  rewrite Hres in Hr. destruct Hr as (l & -> & Hsent).
  unfold write_client. eapply get_at; [done|]. apply tends_get_server. rewrite Hres. apply tends_not_null.
  apply (tends_then _ _ _ l (s, v)); [done|].
  assert (∀ c' s' w, at_client i c' s' (http v) →
    tends (c ← get_client i; if Nat.eqb (sent c) (length l) then
       match routed (setup s), client_execution c with
       | true, Some _ => _ ← close_fd (fd c); put_client i (set_fd (-1) c)
       | _, _ => finish_client i None
       end
     else mret tt) (s', mkEnv (http v) (runtime v) w) (λ _ x, fine v x)) as Hcheck.
  { intros c' s' w Hat'. pose proof (after_same v w Hok) as Ha. eapply get_at; [exact Hat'|].
    destruct (Nat.eqb _ _); [|apply tends_ret; by eapply at_client_fine].
    assert (tends (finish_client i None) (s', mkEnv (http v) (runtime v) w) (λ _ x, fine v x)) as Hfin
      by (by eapply finish_at).
    destruct (routed (setup s)); [|done]. destruct (client_execution c'); [|done].
    eapply tends_bind; [by apply close_fd_ends|]. intros _ ? (v2 & -> & Ha2).
    assert (at_client i c' s' (http v2)) as Hat2 by (eapply at_client_mono; [apply Ha2|done]).
    eapply update_fine; [eapply after_trans; [exact Ha|exact Ha2]|exact Hat2|apply Hat2|done|].
    pose proof (at_client_ok _ _ _ _ Hat2) as Hc2. by destruct Hc2; split. }
  assert (mkEnv (http v) (runtime v) (os v) = v) as Hv by (by destruct v).
  destruct (drop (sent c) l) as [|b rest] eqn:Hd.
  { specialize (Hcheck c s (os v) Hat). rewrite Hv in Hcheck. exact Hcheck. }
  apply tends_sys. intros r w Hr. pose proof (after_same v w Hok) as Ha. destruct r as [n| |].
  - destruct (0 <? n); [|by eapply finish_at; [exact Ha|]].
    pose proof (send_bound _ _ _ _ _ Hr) as Hn. rewrite length_take, <- Hd, length_drop in Hn.
    eapply tends_update; [exact Hat|apply Hat|done| |].
    { destruct Hco as [K1 K2 K3 K4 K5 K6 K7 K8 K9 K10]. split; simpl; try done. rewrite Hres. exists l. split; [done|lia]. }
    intros s1 Hat1 _. by eapply Hcheck.
  - by eapply Hcheck.
  - by eapply finish_at; [exact Ha|].
Qed.

(** ** Serving *)

(** A slot of a well-formed server is free or holds a client. *)
Lemma server_slot s h i :
  server_ok s h → (i < SERVER_CONCURRENCY)%nat →
  ∃ c, clients s !! i = Some c ∧ (state c = CLIENT_FREE ∨ at_client i c s h).
Proof.
  intros Hs Hi. destruct (lookup_lt_is_Some_2 (clients s) i) as [c Hc].
  { destruct Hs as [Hs|[Hs _]]; [by rewrite (cl_length _ Hs)|by rewrite (lv_clients _ _ _ Hs)]. }
  exists c. split; [done|]. destruct (decide (state c = CLIENT_FREE)) as [|Hne]; [by left|right].
  destruct Hs as [Hs|[Hs Ho]]; [|done]. destruct Hne. exact (Forall_lookup_1 _ _ _ _ (cl_clients _ Hs) Hc).
Qed.

Lemma serve_client_ends i c events s v :
  http_ok (http v) → at_client i c s (http v) → tends (serve_client i events) (s, v) (λ _ x, fine v x).
Proof.
  intros Hok Hat. assert (i < SERVER_CONCURRENCY)%nat as Hi.
  { rewrite <- (at_client_length _ _ _ _ Hat). by eapply lookup_lt_Some, Hat. }
  unfold serve_client. apply tends_get_server. eapply get_at; [done|].
  eapply (tends_bind _ _ _ (λ (gone : bool) x, fine v x ∧ if gone then True else ∃ c', at_client i c' (fst x) (http (snd x)))).
  { destruct (routed (setup s) && has events POLLOUT); [|apply tends_ret; split; [by eapply at_client_fine; [apply after_refl|]|eauto]].
    destruct (response c) as [r|] eqn:Hr; [|apply tends_ret; split; [by eapply at_client_fine; [apply after_refl|]|eauto]].
    eapply tends_bind; [by eapply write_client_ends|]. intros _ [s1 v1] [Hs1 Ha1]. simpl in Hs1, Ha1.
    destruct (server_slot s1 (http v1) i Hs1 Hi) as (c1 & Hc1 & Hslot). eapply tends_get_client; [exact Hc1|].
    apply tends_ret. split; [done|]. simpl. destruct Hslot as [Hfree|Hat1]; [by rewrite bool_decide_true|].
    destruct (_ || _); [done|eauto]. }
  intros [] [s1 v1] [[Hs1 Ha1] Hx]; [by apply tends_ret|]. simpl in Hs1, Ha1, Hx. destruct Hx as [c1 Hat1].
  eapply get_at; [exact Hat1|].
  assert (∀ m : T unit, tends m (s1, v1) (λ _ x, fine v1 x) → tends m (s1, v1) (λ _ x, fine v x)) as Hfrom.
  { intros m Hm. eapply tends_mono; [exact Hm|]. intros ? x [? ?]. split; [done|]. by eapply after_trans. }
  destruct (_ || _); [by eapply finish_at|].
  destruct (state c1) eqn:Hst.
  - apply tends_ret. by eapply at_client_fine.
  - by eapply Hfrom, read_client_ends; [apply Ha1|..].
  - apply tends_ret. by eapply at_client_fine.
  - apply tends_ret. by eapply at_client_fine.
  - by eapply Hfrom, read_stream_chunk_ends; [apply Ha1|..].
  - by eapply Hfrom, write_interim_ends; [apply Ha1|..].
  - destruct (routed (setup s)); [apply tends_ret; by eapply at_client_fine|].
    destruct (ck_writing _ _ _ (at_client_ok _ _ _ _ Hat1) Hst) as [r Hr]. by eapply Hfrom, write_client_ends; [apply Ha1|..].
Qed.

Lemma serve_ends w events now s v :
  http_ok (http v) → live None s (http v) → open s → (watch_slot w ≤ SERVER_CONCURRENCY)%nat →
  tends (serve w events now) (s, v) (λ _ x, fine v x).
Proof.
  intros Hok Hl Ho Hw. assert (fine v (s, v)) as Hsame by (split; [right; done|by apply after_refl]).
  unfold serve. destruct (Nat.eqb_spec (watch_slot w) SERVER_CONCURRENCY) as [|Hne].
  - apply tends_get_server. destruct (stopping s); [by apply tends_ret|].
    destruct (has _ _); [apply fail_fine; [by apply after_refl|apply Hl]|]. by apply accept_client_ends.
  - destruct (server_slot s (http v) (watch_slot w)) as (c & Hc & Hslot); [by right|lia|].
    eapply tends_get_client; [done|]. destruct (_ || _) eqn:Hg; [by apply tends_ret|].
    apply orb_false_iff in Hg as [_ Hg%bool_decide_eq_false].
    destruct Hslot as [?|Hat]; [done|]. by eapply serve_client_ends.
Qed.

Lemma serve_all_ends ws revents s v :
  http_ok (http v) → server_ok s (http v) → Forall (λ w, watch_slot w ≤ SERVER_CONCURRENCY)%nat ws →
  tends (serve_all ws revents) (s, v) (λ going x, fine v x ∧ (going = false → closed (fst x))).
Proof.
  intros Hok Hs Hws. revert revents s v Hok Hs. induction Hws as [|w ws Hw Hws IH]; intros revents s v Hok Hs; simpl.
  { apply tends_ret. split; [|done]. split; [done|by apply after_refl]. }
  apply tends_get_server. destruct (done_ s); [apply tends_ret; split; [|done]; split; [done|by apply after_refl]|].
  eapply tends_bind; [by apply deadlines_ends|]. intros o [s1 v1] [Ha1 Hx]. simpl in Ha1, Hx. destruct o as [now|].
  - destruct Hx as (Hl & Ho & _).
    eapply (tends_bind _ _ _ (λ _ x, fine v x)).
    { destruct (_ =? 0); [apply tends_ret; split; [right; done|done]|].
      eapply tends_mono; [apply serve_ends; [apply Ha1|done..]|]. intros ? x [? ?]. split; [done|]. by eapply after_trans. }
    intros _ [s2 v2] [Hs2 Ha2]. simpl in Hs2, Ha2. eapply tends_mono; [apply IH; [apply Ha2|done]|].
    intros going x [[Hx Ha] Hg]. split; [split; [done|by eapply after_trans]|done].
  - apply tends_ret. split; [split; [by left|done]|done].
Qed.

(** ** Executions of clients *)

Lemma fits_size_nonneg l n : fits_size_loop l = Some n → 0 ≤ n.
Proof.
  destruct l as [|x l]; simpl; [by intros [= <-]|]. destruct (fits_size_loop l) as [r|]; [|done].
  destruct (_ <? _); [done|]. intros [= <-]. by apply Z.mod_pos_bound.
Qed.
Lemma value_index_nonneg x n : value_index x = Some n → 0 ≤ n.
Proof.
  destruct x as []; simpl; try done. unfold pn_big_fits_size. destruct (_ <? _); [done|]. apply fits_size_nonneg.
Qed.

(** A callback on a running client leaves a running client. *)
Lemma callback_ok p h c c' :
  callback c c' → client_ok p h c → running_state (state c) = true →
  client_ok p h c' ∧ running_state (state c') = true ∧ outcome_index c' = outcome_index c.
Proof.
  intros Hcb [K1 K2 K3 K4 K5 K6 K7 K8 K9 K10] Hst.
  assert (∀ b b', client_ok p h (set_fake b b' c)) as Hfake by (intros; by split).
  assert (∀ n st, state c = CLIENT_RUN → running_state st = true → (st = CLIENT_STREAM_READ → 1 ≤ n ≤ SERVER_READ_CHUNK) →
    client_ok p h (set_state st (set_read_limit n c))) as Hmove.
  { intros n st Hrun Hst' Hn. split; simpl; try done.
    - by rewrite K2, Hst', Hst.
    - by intros ->.
    - intros _ [-> | ->]; done.
    - by intros ->.
    - destruct (http_connection c); [done|]. intros Hr. by rewrite (K9 Hr) in Hst.
    - intros Hq _. apply K10; [done|congruence]. }
  destruct Hcb as [x Hx|i e x h0 al h0' al' Hx].
  - unfold server_read_wait in Hx. assert (∀ b, (true, @None string, set_fake true b c) = (true, None, c') →
      client_ok p h c' ∧ running_state (state c') = true ∧ outcome_index c' = outcome_index c) as Hb.
    { by intros b [= <-]. }
    assert (match value_index x with
      | Some n => if (n =? 0) || (SERVER_READ_CHUNK <? n) || negb (bool_decide (state c = CLIENT_RUN)) ||
             negb (bool_decide (is_Some (client_execution c))) then (false, Some bad_limit, c)
             else (true, None, set_state CLIENT_STREAM_READ (set_read_limit n c))
      | None => (false, Some bad_limit, c) end = (true, None, c') →
      client_ok p h c' ∧ running_state (state c') = true ∧ outcome_index c' = outcome_index c) as Hn.
    { destruct (value_index x) as [n|] eqn:Hi; [|done]. destruct (_ || _) eqn:Hg; [done|]. intros [= <-].
      apply orb_false_iff in Hg as [[[H1%Z.eqb_neq H2%Z.ltb_ge]%orb_false_iff H3%negb_false_iff%bool_decide_eq_true]%orb_false_iff _].
      apply value_index_nonneg in Hi. split; [|done]. apply Hmove; [done|done|lia]. }
    destruct x as []; try (by apply Hn). by apply (Hb b).
  - unfold http_continue_call in Hx. apply hresult_bind in Hx as ([[? k] ?] & h1 & al1 & _ & Hx).
    destruct (_ || _) eqn:Hg; [done|]. injection Hx as <- _ _.
    apply orb_false_iff in Hg as [[_ H3%negb_false_iff%bool_decide_eq_true]%orb_false_iff _].
    split; [|done]. change (set_state CLIENT_INTERIM_WRITE c) with
      (set_state CLIENT_INTERIM_WRITE (set_read_limit (read_limit c) c)). by apply Hmove.
Qed.

Lemma callbacks_ok p h c c' :
  rtc callback c c' → client_ok p h c → running_state (state c) = true →
  client_ok p h c' ∧ running_state (state c') = true ∧ outcome_index c' = outcome_index c.
Proof.
  induction 1 as [|c1 c2 c3 Hcb _ IH]; [done|]. intros Hc Hst.
  destruct (callback_ok p h c1 c2 Hcb Hc Hst) as (Hc2 & Hst2 & Hx). destruct (IH Hc2 Hst2) as (? & ? & ?).
  split_and!; [done..|congruence].
Qed.

Lemma running_busy c : running_state (state c) = true → state c ≠ CLIENT_FREE.
Proof. intros H E1. by rewrite E1 in H. Qed.

(** After a call on its execution the client is still running. *)
Lemma on_execution_ends {A} i c (call : E → option (ServerClient E) → Env W → M (A * E * option (ServerClient E) * Env W)) s v v1 :
  after v v1 → at_client i c s (http v1) → running_state (state c) = true →
  (∀ e o v, certain (call e o v) (λ '(_, _, o', v'), called o o' ∧ env_run v v')) →
  tends (with_execution i call) (s, v1) (λ _ x, after v (snd x) ∧ setup (fst x) = setup s ∧
    ∃ c', at_client i c' (fst x) (http (snd x)) ∧ running_state (state c') = true).
Proof.
  intros Ha Hat Hst Hlaw. pose proof (at_client_ok _ _ _ _ Hat) as Hco.
  destruct (proj2 (ck_execution _ _ _ Hco) Hst) as [e He].
  unfold with_execution. eapply get_at; [done|]. rewrite He. apply tends_not_null, tends_get_env.
  eapply tends_certain; [apply Hlaw|]. intros [[[a e'] o] v2] [(c' & -> & Hcb) Hrun].
  pose proof (Hrun (proj1 Ha)) as Ha2. apply tends_put_env.
  destruct (callbacks_ok _ _ _ _ Hcb Hco Hst) as (Hc' & Hst' & Hx).
  assert (at_client i c s (http v2)) as Hat2 by (eapply at_client_mono; [apply Ha2|done]).
  eapply tends_update; [exact Hat2|by apply running_busy|done| |].
  { apply execution_ok; [eapply client_ok_mono; [apply Ha2|done]|]. by apply (ck_execution _ _ _ Hc'). }
  intros s' Hat' Hset. apply tends_ret. split; [by eapply after_trans|]. split; [done|]. eauto.
Qed.

Lemma advance_client_ends i n c s v v1 :
  after v v1 → at_client i c s (http v1) → running_state (state c) = true →
  tends (advance_client i n) (s, v1) (λ _ x, after v (snd x) ∧ setup (fst x) = setup s ∧
    ∃ c', at_client i c' (fst x) (http (snd x)) ∧ running_state (state c') = true).
Proof. intros. eapply on_execution_ends; [done..|]. intros e o v0. apply advance_law. Qed.

Lemma poll_client_network_ends i c s v v1 :
  after v v1 → at_client i c s (http v1) → running_state (state c) = true →
  tends (poll_client_network i) (s, v1) (λ _ x, after v (snd x) ∧ setup (fst x) = setup s ∧
    ∃ c', at_client i c' (fst x) (http (snd x)) ∧ running_state (state c') = true).
Proof.
  intros. eapply on_execution_ends; [done..|]. intros e o v0 al.
  destruct (poll_law e o v0 al) as ([[e' o'] v'] & al' & Hp & Hlaw). unfold mbind, M_bind. rewrite Hp. by eexists _, _.
Qed.

(** ** Polling *)

Definition watches (ws : list Watch) : Prop := Forall (λ w, watch_slot w ≤ SERVER_CONCURRENCY)%nat ws.

Lemma watches_app ws c i n : watches ws → (i < SERVER_CONCURRENCY)%nat → watches (ws ++ [watch (E:=E) c i n]).
Proof. intros Hw Hi. apply Forall_app. split; [done|]. apply Forall_singleton. simpl. lia. Qed.

Lemma collect_ends js ws limit wait s v v1 :
  after v v1 → live None s (http v1) → open s → (∀ j, j ∈ js → (j < SERVER_CONCURRENCY)%nat) → watches ws →
  tends (collect js ws limit wait) (s, v1) (λ r x, after v (snd x) ∧ live None (fst x) (http (snd x)) ∧ open (fst x) ∧
    watches (fst (fst r))).
Proof.
  revert ws limit wait s v1. induction js as [|j js IH]; intros ws limit wait s v1 Ha Hl Ho Hjs Hws; simpl.
  { by apply tends_ret. }
  assert (∀ i, i ∈ js → (i < SERVER_CONCURRENCY)%nat) as Hjs' by (intros; apply Hjs; by right).
  assert (j < SERVER_CONCURRENCY)%nat as Hj by (apply Hjs; by left).
  destruct (server_slot s (http v1) j) as (c & Hc & Hslot); [by right|done|].
  eapply tends_get_client; [done|]. case_decide as Hst; [by apply IH|]. destruct Hslot as [?|Hat]; [done|].
  apply tends_get_server. clear Hc Hst.
  eapply (tends_bind _ _ _ (λ _ x, snd x = v1 ∧ ∃ c', at_client j c' (fst x) (http v1))).
  { destruct (routed (setup s)); [|apply tends_ret; eauto]. apply tends_last.
    eapply attach_ends; [apply Ha|done|apply Hat|apply Hat|]. intros c' Hat' _. apply tends_ret. split; [done|]. exists c'. simpl.
    assert (state c' = state c ∧ outcome_index c' = outcome_index c) as [E1 E2] by (by destruct Hat' as [->|(_ & _ & l & ->)]).
    eapply at_client_put; [done|rewrite E1; apply Hat|done|]. eapply attached_ok; [done|]. by eapply at_client_ok. }
  intros _ [s1 v2] [E1 [c1 Hat1]]. simpl in E1, Hat1. subst v2. eapply get_at; [exact Hat1|].
  pose proof Hat1 as (Hl1 & Ho1 & _).
  destruct (state c1) eqn:Hst; try (apply IH; [done..|by apply watches_app]); [by apply IH|].
  eapply tends_bind; [eapply poll_client_network_ends; [exact Ha|exact Hat1|by rewrite Hst]|].
  intros _ [s2 v2] (Ha2 & _ & c2 & Hat2 & Hst2). simpl in Ha2, Hat2.
  eapply tends_bind; [eapply advance_client_ends; [exact Ha2|exact Hat2|done]|].
  intros st [s3 v3] (Ha3 & _ & c3 & Hat3 & Hst3). simpl in Ha3, Hat3. eapply get_at; [exact Hat3|].
  destruct Hat3 as (Hl3 & Ho3 & _). apply IH; try done. destruct (_ && _); [by apply watches_app|done].
Qed.

Lemma deadlines_fine s v v1 :
  after v v1 → server_ok s (http v1) →
  tends deadlines (s, v1) (λ o x, fine v x ∧ match o with
    | None => closed (fst x) | Some now => live None (fst x) (http (snd x)) ∧ open (fst x) ∧ on_time now (fst x) ∧
                                          evolves now s (fst x) ∧ clock v1 = Some now end).
Proof.
  intros Ha Hs. eapply tends_mono; [apply deadlines_ends; [apply Ha|done]|]. intros [now|] x [Ha2 Hx].
  - destruct Hx as (Hl & Ho & Ht & He & Hck). split; [split; [right; done|by eapply after_trans]|done].
  - split; [split; [by left|by eapply after_trans]|done].
Qed.

Lemma deadlines_last s v v1 :
  after v v1 → server_ok s (http v1) → tends (_ ← deadlines; mret tt) (s, v1) (λ _ x, fine v x).
Proof. intros Ha Hs. eapply tends_bind; [by apply deadlines_fine|]. intros o x [Hx _]. by apply tends_ret. Qed.

Lemma live_ready_execution X e s h : live X s h → live X (set_ready_execution e s) h.
Proof. intros Hl. live_ext Hl. Qed.

Lemma poll_ready_ends ms s v v1 :
  after v v1 → live None s (http v1) → open s → tends (poll_ready ms) (s, v1) (λ _ x, fine v x).
Proof.
  intros Ha Hl Ho. unfold poll_ready. apply tends_get_server.
  eapply (tends_bind _ _ _ (λ _ x, after v (snd x) ∧ live None (fst x) (http (snd x)) ∧ open (fst x))).
  { destruct (ready_execution s) as [e|]; [|by apply tends_ret]. apply tends_get_env.
    eapply tends_certain; [apply poll_law|]. intros [[e' o] v2] [_ Hrun]. pose proof (Hrun (proj1 Ha)) as Ha2.
    apply tends_put_env, tends_last, tends_on_server, tends_ret. simpl. split_and!; [by eapply after_trans| |done].
    apply live_ready_execution. eapply live_mono; [apply Ha2|done]. }
  intros _ [s1 v2] (Ha2 & Hl2 & Ho2). simpl in Ha2, Hl2, Ho2.
  eapply (tends_bind _ _ _ (λ _ x, fst x = s1 ∧ ∃ w, snd x = mkEnv (http v2) (runtime v2) w)).
  { destruct (ms =? 0); [apply tends_ret; split; [done|]; exists (os v2); by destruct v2|].
    apply tends_sys. intros ? w _. apply tends_ret. eauto. }
  intros _ [s3 v3] [E1 [w E2]]. simpl in E1, E2. subst s3 v3. apply deadlines_last; [by apply after_os|right; done].
Qed.

Lemma io_order_bound s h j : live None s h → j ∈ io_order s → (j < SERVER_CONCURRENCY)%nat.
Proof.
  intros Hl (k & -> & _)%list_elem_of_fmap. pose proof (sp_concurrency _ _ (lv_setup _ _ _ Hl)).
  eapply Nat.lt_le_trans; [apply Nat.mod_upper_bound; lia|lia].
Qed.

Lemma poll_clients_ends ms now s v v1 :
  after v v1 → live None s (http v1) → open s → tends (poll_clients ms now) (s, v1) (λ _ x, fine v x).
Proof.
  intros Ha Hl Ho. unfold poll_clients. apply tends_get_server.
  eapply tends_bind; [eapply collect_ends; [exact Ha|done|done| |]|].
  { intros j. by eapply io_order_bound. }
  { destruct (_ && _); [|constructor]. constructor; [|constructor]. simpl. lia. }
  intros [[ws limit] wait] [s1 v2] (Ha2 & Hl2 & Ho2 & Hws). simpl in Ha2, Hl2, Ho2, Hws.
  apply tends_sys. intros r w _. set (v3 := mkEnv (http v2) (runtime v2) w).
  assert (after v v3) as Ha3 by (by apply after_os). assert (server_ok s1 (http v3)) as Hs3 by (right; done).
  destruct r as [count revents| |].
  - eapply tends_bind; [by apply deadlines_fine|]. intros o [s4 v4] [[Hs4 Ha4] _]. simpl in Hs4, Ha4.
    destruct o; [|by apply tends_ret]. destruct (count =? 0); [by apply tends_ret|].
    eapply tends_bind; [apply serve_all_ends; [apply Ha4|done|done]|].
    intros going [s5 v5] [[Hs5 Ha5] Hg]. simpl in Hs5, Ha5, Hg. assert (after v v5) by (by eapply after_trans).
    destruct going; simpl; [|by apply tends_ret]. apply tends_on_server. apply deadlines_last; [done|].
    destruct Hs5 as [Hc|[Hl5 Ho5]]; [left|right].
    + destruct Hc. by split.
    + split; [|done]. live_ext Hl5.
  - apply tends_ret. split; [right; done|done].
  - apply fail_fine; [done|apply Hl2].
Qed.

Lemma tcp_server_poll_ends ms s v :
  http_ok (http v) → server_ok s (http v) → tends (tcp_server_poll ms) (s, v) (λ _ x, fine v x).
Proof.
  intros Hok Hs. unfold tcp_server_poll. eapply tends_bind; [apply deadlines_fine; [by apply after_refl|done]|].
  intros o [s1 v1] [[Hs1 Ha1] Hx]. simpl in Hs1, Ha1, Hx. destruct o as [now|]; [|by apply tends_ret].
  destruct Hx as (Hl & Ho & _). apply tends_get_server.
  destruct (ready_pending s1); [by apply poll_ready_ends|by apply poll_clients_ends].
Qed.

(** ** Running handlers *)

Lemma create_execution_ends {B} g x (k : _ → T B) s v v1 Q :
  after v v1 →
  (∀ e v2, after v v2 → after v1 v2 → tends (k (inl e)) (s, v2) Q) → (∀ t, tends (k (inr t)) (s, v1) Q) →
  tends (r ← create_execution g x; k r) (s, v1) Q.
Proof.
  intros Ha Hk1 Hk2 al. unfold mbind, T_bind, create_execution. simpl.
  set (h1 := set_next (Pos.succ (next_object (http v1))) (http v1)).
  assert (http_ok h1) as Hok1.
  { destruct Ha as ([Hs Hw Hc Hf] & _). split; [done|done| |].
    - intros y c Hy. by destruct (Hc y c Hy).
    - intros y Hy. simpl in Hy. apply Hf. lia. }
  pose proof (create_law (next_object (http v1)) g x (mkEnv h1 (runtime v1) (os v1)) al) as Hlaw.
  destruct (exec_create _ _ _ _ al) as [[[e v2]| | | |] al']; try done; [|apply Hk2..].
  destruct Hlaw as [_ Hrun]. pose proof (Hrun Hok1) as (H1 & H2 & H3). apply Hk1; [eapply after_trans; [exact Ha|]|]; by split_and!.
Qed.

Lemma on_objects_ends {A B} (m : H A) P (k : _ → T B) s v v1 Q :
  after v v1 → hends m (http v1) P → forward m (http v1) → (∀ a h', P a h' → http_ok h') →
  (∀ a v2, after v v2 → P a (http v2) → heap_le (http v1) (http v2) → tends (k (Some a)) (s, v2) Q) →
  (∀ v2, after v v2 → heap_le (http v1) (http v2) → tends (k None) (s, v2) Q) →
  tends (r ← on_objects m; k r) (s, v1) Q.
Proof.
  intros Ha Hm Hf HP Hk1 Hk2 al. unfold mbind, T_bind, on_objects. simpl.
  specialize (Hm al). specialize (Hf al). destruct (m (http v1) al) as [[o h'] al']. simpl in Hf.
  destruct o as [a| | | |]; try done.
  - apply Hk1; [|done|done]. apply after_step; [done|by eapply HP|done].
  - apply Hk2; [|done]. by apply after_step.
  - apply Hk2; [|done]. by apply after_step.
Qed.

Lemma connection_set_ok p h c x :
  client_ok p h c → state c = CLIENT_START →
  match x with Some y => routed p = true ∧ is_Some (connections h !! y) | None => True end →
  client_ok p h (set_http_connection x c).
Proof. intros [K1 K2 K3 K4 K5 K6 K7 K8 K9 K10] Hst Hx. split; simpl; try done. by destruct x. Qed.

Lemma handler_request_ends i c s v v1 :
  after v v1 → at_client i c s (http v1) → state c = CLIENT_START →
  tends (handler_request i) (s, v1) (λ r x, after v (snd x) ∧ setup (fst x) = setup s ∧
    ∃ c', at_client i c' (fst x) (http (snd x)) ∧ state c' = CLIENT_START ∧
          (is_Some r → routed (setup s) = true → is_Some (http_connection c'))).
Proof.
  intros Ha Hat Hst. pose proof (at_client_ok _ _ _ _ Hat) as Hco.
  pose proof (lv_setup _ _ _ (proj1 Hat)) as Hsp.
  unfold handler_request. apply tends_get_server. eapply get_at; [done|].
  eapply (tends_bind _ _ _ (λ r x, x = (s, v1))).
  { destruct (streaming (setup s)) eqn:Hs; [by apply tends_ret|].
    destruct (ck_request _ _ _ Hco Hs (or_intror Hst)) as (l & Hl & _). rewrite Hl. apply tends_not_null, tends_last.
    apply tends_null; [auto with answers|]. intros o. by apply tends_ret. }
  intros r ? ->. destruct (routed (setup s)) eqn:Hrt.
  2: { apply tends_ret. split_and!; [done|done|]. exists c. by split_and!. }
  destruct r as [r|]; [|apply tends_ret; split_and!; [done|done|]; exists c; split_and!; [done|done|by intros []]].
  destruct (sp_routed _ _ Hsp Hrt) as (_ & _ & y & -> & Hy).
  eapply on_objects_ends; [done|apply connection_create_ok; [apply Ha|done]|apply connection_create_forward, Ha|by intros ? ? []| |].
  - intros k v2 Ha2 [_ (x & -> & Hx)] Hle. simpl.
    assert (at_client i c s (http v2)) as Hat2 by (by eapply at_client_mono).
    eapply tends_update; [exact Hat2|simpl; congruence|done| |].
    { apply connection_set_ok; [by eapply at_client_ok|done|done]. }
    intros s' Hat' Hset. apply tends_ret. split_and!; [done|done|]. eexists. split_and!; [done|done|by eauto].
  - intros v2 Ha2 Hle. simpl. assert (at_client i c s (http v2)) as Hat2 by (by eapply at_client_mono).
    eapply tends_update; [exact Hat2|simpl; congruence|done| |].
    { apply connection_set_ok; [by eapply at_client_ok|done|done]. }
    intros s' Hat' Hset. apply tends_ret. split_and!; [done|done|]. eexists. split_and!; [done|done|by intros []].
Qed.

(** A client whose execution has begun. *)
Lemma started_ok p h c e :
  client_ok p h c → state c = CLIENT_START → (routed p = true → is_Some (http_connection c)) →
  client_ok p h (set_state CLIENT_RUN (set_client_execution (Some e) (set_buffer None c))).
Proof.
  intros [K1 K2 K3 K4 K5 K6 K7 K8 K9 K10] Hst Hc. split; simpl; try done.
  - naive_solver.
  - destruct (http_connection c); [done|]. intros Hr. by destruct (Hc Hr).
  - intros Hq _. apply K10; [done|congruence].
Qed.

Lemma trap_put i c t s v v1 :
  after v v1 → length (clients s) = SERVER_CONCURRENCY →
  tends (_ ← put_client i c; server_trap t) (s, v1) (λ _ x, fine v x).
Proof. intros Ha Hl. apply tends_put_client, trap_fine; [done|]. simpl. by rewrite length_insert. Qed.

Lemma start_handler_ends i c s v v1 :
  after v v1 → at_client i c s (http v1) → state c = CLIENT_START →
  tends (start_handler i) (s, v1) (λ _ x, fine v x).
Proof.
  intros Ha Hat Hst. pose proof (lv_setup _ _ _ (proj1 Hat)) as Hsp. unfold start_handler. apply tends_get_server.
  eapply tends_bind; [by eapply handler_request_ends|].
  intros r [s2 v2] (Ha2 & Hset & c2 & Hat2 & Hst2 & Hconn). simpl in Ha2, Hset, Hat2.
  destruct r as [r|]; [|by eapply trap_at]. specialize (Hconn ltac:(eauto)).
  destruct (sp_handler _ _ Hsp) as [g ->]. apply tends_not_null.
  eapply create_execution_ends; [done| |].
  - intros e v3 Ha3 Hle. assert (at_client i c2 s2 (http v3)) as Hat3 by (eapply at_client_mono; [apply Hle|done]).
    eapply get_at; [exact Hat3|].
    eapply (tends_bind _ _ _ (λ _ x, fst x = s2 ∧ after v (snd x) ∧ heap_le (http v3) (http (snd x)))).
    { destruct (http_connection c2) as [y|]; [|by apply tends_ret]. apply tends_last, tends_on_http, tends_ret. simpl.
      split_and!; [done| |apply connection_execution_le].
      apply after_step; [done|apply connection_execution_ok, Ha3|apply connection_execution_le]. }
    intros _ [s4 v4] (E1 & Ha4 & Hle4). simpl in E1, Ha4, Hle4. subst s4.
    assert (at_client i c2 s2 (http v4)) as Hat4 by (eapply at_client_mono; [apply Hle4|done]).
    destruct (if streaming (setup s) then exec_enable_server_reads e else (true, e)) as [ok e'].
    destruct ok; simpl; [|apply trap_put; [done|by eapply at_client_length]].
    eapply update_fine; [exact Ha4|exact Hat4|done|done|].
    apply started_ok; [by eapply at_client_ok|done|]. rewrite Hset. done.
  - intros t. eapply get_at; [exact Hat2|].
    eapply (tends_bind _ _ _ (λ _ x, fst x = s2 ∧ after v (snd x))).
    { destruct (http_connection c2) as [y|]; [|by apply tends_ret]. apply tends_last, tends_on_http, tends_ret. simpl.
      split; [done|]. apply after_step; [done|apply connection_execution_ok, Ha2|apply connection_execution_le]. }
    intros _ [s4 v4] (E1 & Ha4). simpl in E1, Ha4. subst s4. apply trap_put; [done|by eapply at_client_length].
Qed.

Lemma fine_trans v v1 (x : VMTcpServer E * Env W) : after v v1 → fine v1 x → fine v x.
Proof. intros Ha [? ?]. split; [done|by eapply after_trans]. Qed.

Lemma handler_result_ends i c s v v1 :
  after v v1 → at_client i c s (http v1) → state c = CLIENT_RUN → tends (handler_result i) (s, v1) (λ _ x, fine v x).
Proof.
  intros Ha Hat Hst. pose proof (at_client_ok _ _ _ _ Hat) as Hco. pose proof Hat as (Hl & Ho & Hi & Hc).
  assert (running_state (state c) = true) as Hrun by (by rewrite Hst).
  unfold handler_result. apply tends_get_server. destruct (routed (setup s)) eqn:Hrt.
  { eapply tends_mono; [eapply http_handler_finished_ends; [apply Ha|done..]|]. intros ? x. by apply fine_trans. }
  eapply get_at; [done|]. destruct (proj2 (ck_execution _ _ _ Hco) Hrun) as [e He]. rewrite He. apply tends_not_null.
  assert (tends (server_trap bad_result) (s, v1) (λ _ x, fine v x)) as Htrap by (by eapply trap_at).
  destruct (exec_result e) as [r|] eqn:Hr; [|done]. destruct r as [| | | | | | | | | | | | | |name l| | | | | | |]; try done.
  destruct l as [|payload []]; try done.
  destruct (vm_fake_read_result_valid _) eqn:Hv; simpl; [|done]. simpl in Hv.
  destruct (is_name name "Error") eqn:Hn.
  - destruct (continuous (setup s)) eqn:Hct; [by eapply finish_at|].
    eapply tends_mono; [eapply report_ends; [apply Ha|by apply live_except|done..]|]. intros ? x Hx. exact (fine_left i s v v1 x Ha Ho Hx).
  - rewrite andb_false_l, orb_false_r in Hv. apply andb_true_iff in Hv as [_ Hk]. destruct payload as [| | | | | | | | | | | | | | | | |l| | | |]; try done.
    apply (tends_then _ _ _ l (s, v1)); [done|]. destruct (_ <? _); [by eapply finish_at|].
    assert (response c = None) as Hnone by (apply (ck_quiet _ _ _ Hco); [done|congruence]).
    pose proof (ck_response _ _ _ Hco) as Hsent. rewrite Hnone in Hsent.
    set (c1 := set_response (Some (Bytes l)) c). apply tends_put_client.
    eapply (destroy_then (Some e) _ _ v1); [apply after_refl, Ha|]. intros v2 Ha2.
    assert (live (Some i) (set_clients (<[i:=c1]> (clients s)) s) (http v2)) as Hl2.
    { eapply live_mono; [apply Ha2|]. by eapply live_set; [exact Hl|..|by left| | |]. }
    eapply tends_get_client; [by eapply client_lookup_insert|].
    eapply (put_fine (Some i) i c1); [by eapply after_trans|exact Ho|exact Hl2|by eapply client_lookup_insert|by right|done|done|done|].
    apply (client_ok_mono _ (http v1)); [apply Ha2|]. destruct Hco as [K1 K2 K3 K4 K5 K6 K7 K8 K9 K10]. split; simpl; try done.
    + exists l. split; [done|]. rewrite Hsent. lia.
    + naive_solver.
    + destruct (http_connection c); [done|]. congruence.
Qed.

Lemma handler_exited_ends i c e r s v v1 :
  after v v1 → at_client i c s (http v1) → state c = CLIENT_RUN → routed (setup s) = true →
  tends (handler_exited i e r) (s, v1) (λ _ x, fine v x).
Proof.
  intros Ha Hat Hst Hrt. pose proof (at_client_ok _ _ _ _ Hat) as Hco.
  unfold handler_exited. apply tends_get_env, tends_put_env.
  set (v2 := mkEnv (http v1) (Some (request_exit (exec_exit_status e) r)) (os v1)).
  assert (after v v2) as Ha2 by (destruct Ha as (? & ? & ?); split; [done|]; split; [done|]; eauto).
  assert (at_client i c s (http v2)) as Hat2 by done. eapply get_at; [exact Hat2|].
  pose proof (ck_connection _ _ _ Hco) as Hcon. destruct (http_connection c) as [y|] eqn:Hy; [|by rewrite (Hcon Hrt) in Hst].
  eapply client_writer_ends; [apply Ha2|done|apply Hcon|done|]. intros d w Hd Hw.
  eapply (tends_bind _ _ _ (λ _ x, fine v2 x)).
  { destruct (completed w) eqn:Hcm.
    - destruct Hat2 as (? & ? & ? & ?). by eapply http_finish_execution_ends; [apply Ha2|..].
    - by eapply finish_at; [apply after_refl, Ha2|]. }
  intros _ [s3 v3] [Hs3 Ha3]. simpl in Hs3, Ha3. apply tends_get_env.
  assert (after v v3) as Ha3' by (by eapply after_trans). pose proof Ha3 as (_ & _ & Hr3).
  destruct (Hr3 ltac:(simpl; eauto)) as [r' Hr']. rewrite Hr'.
  destruct (http_runtime_stop r' (http v3)) as [r'' h] eqn:Hstop. apply tends_last, tends_put_env, tends_ret.
  pose proof (runtime_stop_after r' r'' v3 v3 h (after_refl _ (proj1 Ha3)) Hstop) as Ha4.
  split; [|by eapply after_trans]. eapply server_ok_mono; [apply Ha4|done].
Qed.

Lemma after_instruction_ends i c status s v v1 :
  after v v1 → at_client i c s (http v1) → state c = CLIENT_RUN →
  tends (after_instruction i status) (s, v1) (λ _ x, fine v x).
Proof.
  intros Ha Hat Hst. pose proof (at_client_ok _ _ _ _ Hat) as Hco.
  assert (running_state (state c) = true) as Hrun by (by rewrite Hst).
  destruct (proj2 (ck_execution _ _ _ Hco) Hrun) as [e He].
  unfold after_instruction. apply tends_get_server. eapply get_at; [done|]. rewrite He. apply tends_not_null, tends_get_env.
  assert (∀ t, tends (server_trap t) (s, v1) (λ _ x, fine v x)) as Htrap by (intros; by eapply trap_at).
  assert (tends (mret tt : T unit) (s, v1) (λ _ x, fine v x)) as Hret by (apply tends_ret; by eapply at_client_fine).
  destruct status; try done; try apply Htrap.
  - by eapply handler_result_ends.
  - destruct (routed (setup s)) eqn:Hrt; simpl; [|apply Htrap]. destruct (bool_decide _); [|apply Htrap].
    destruct Hat as (? & ? & ? & ?). eapply tends_mono; [by eapply http_handler_finished_ends; [apply Ha|..]|].
    intros ? x. by apply fine_trans.
  - destruct (routed (setup s)) eqn:Hrt; [|apply Htrap]. destruct (runtime v1); [|apply Htrap]. by eapply handler_exited_ends.
Qed.

Lemma run_client_ends i c s v v1 :
  after v v1 → at_client i c s (http v1) → state c = CLIENT_RUN →
  tends (run_client i) (s, v1) (λ _ x, after v (snd x) ∧ setup (fst x) = setup s ∧
    ∃ c', at_client i c' (fst x) (http (snd x)) ∧ running_state (state c') = true).
Proof.
  intros Ha Hat Hst. pose proof (at_client_ok _ _ _ _ Hat) as Hco.
  assert (running_state (state c) = true) as Hrun by (by rewrite Hst).
  destruct (proj2 (ck_execution _ _ _ Hco) Hrun) as [e He].
  unfold run_client. eapply get_at; [done|].
  eapply (tends_bind _ _ _ (λ _ x, after v (snd x) ∧ setup (fst x) = setup s ∧
    ∃ c', at_client i c' (fst x) (http (snd x)) ∧ running_state (state c') = true)).
  - destruct (fake_pending c); [|apply tends_ret; split_and!; eauto].
    apply tends_null.
    { unfold vm_fake_read_result. apply answers_bind; [destruct (fake_fail c); auto with answers|].
      intros. apply variant_answers. }
    intros o. assert (client_ok (setup s) (http v1) (set_fake false (fake_fail c) c)) as Hfk by (by destruct Hco; split).
    eapply tends_update; [exact Hat|apply Hat|done|exact Hfk|]. intros s1 Hat1 Hset. simpl. rewrite He.
    apply tends_not_null, tends_get_env. eapply tends_certain; [apply complete_law|]. intros [[ok e'] v2] Hrun2.
    pose proof (Hrun2 (proj1 Ha)) as Ha2. apply tends_put_env.
    assert (at_client i (set_fake false (fake_fail c) c) s1 (http v2)) as Hat2 by (eapply at_client_mono; [apply Ha2|done]).
    apply tends_last. eapply tends_update; [exact Hat2|apply Hat|done|apply execution_ok; [by eapply at_client_ok|simpl; eauto]|].
    intros s2 Hat3 Hset2. apply tends_ret. split_and!; [by eapply after_trans|simpl; congruence|]. eauto.
  - intros _ [s1 v2] (Ha2 & Hset & c1 & Hat1 & Hrun1). simpl in Ha2, Hset, Hat1. rewrite <- Hset.
    by eapply advance_client_ends.
Qed.

Lemma server_length s h : server_ok s h → length (clients s) = SERVER_CONCURRENCY.
Proof. intros [Hs|[Hs _]]; [by apply Hs|by apply Hs]. Qed.

Lemma running_slot s h i c :
  server_ok s h → clients s !! i = Some c → state c ≠ CLIENT_FREE → at_client i c s h.
Proof.
  intros Hs Hi Hc. destruct (server_slot s h i Hs) as (c' & Hi' & Hslot).
  { rewrite <- (server_length _ _ Hs). by eapply lookup_lt_Some. }
  simplify_eq. by destruct Hslot.
Qed.

(** The turn of a slot: its handler starts if it has not, and runs. *)
Lemma advance_loop_ends budget idle s v v1 :
  after v v1 → server_ok s (http v1) → tends (advance_loop budget idle) (s, v1) (λ _ x, fine v x).
Proof.
  revert idle s v1. induction budget as [|budget IHb]; intros idle s v1 Ha Hs; [by apply tends_ret|].
  revert s v1 Ha Hs. induction idle as [|idle IHi]; intros s v1 Ha Hs; cbn [advance_loop].
  { eapply tends_bind; [by apply deadlines_fine|]. intros [now|] x [Hx _]; by apply tends_ret. }
  eapply tends_bind; [by apply deadlines_fine|]. intros [now|] [s1 v2] [[Hs1 Ha1] Hx]; [|by apply tends_ret].
  simpl in Hs1, Ha1, Hx. destruct Hx as (Hl & Ho & _). apply tends_get_server, tends_on_server.
  set (n := concurrency (limits (setup s1))). set (i := next_handler s1).
  set (s2 := set_cursors (next_io s1) ((i + 1) mod n)%nat s1).
  pose proof (sp_concurrency _ _ (lv_setup _ _ _ Hl)) as Hcc. pose proof (lv_cursor _ _ _ Hl) as Hcur.
  assert (i < SERVER_CONCURRENCY)%nat as Hi by (unfold i; lia).
  assert (server_ok s2 (http v2)) as Hs2.
  { right. split; [|done]. assert ((i + 1) mod n < n)%nat by (apply Nat.mod_upper_bound; unfold n; lia).
    live_ext Hl. }
  destruct (server_slot s2 (http v2) i Hs2 Hi) as (c & Hc & Hslot). eapply tends_get_client; [exact Hc|].
  eapply (tends_bind _ _ _ (λ _ x, fine v x)).
  { case_decide as Hst; [|apply tends_ret; by split]. destruct Hslot as [?|Hat]; [congruence|]. by eapply start_handler_ends. }
  intros _ [s3 v3] [Hs3 Ha3]. simpl in Hs3, Ha3. apply tends_get_server.
  destruct (server_slot s3 (http v3) i Hs3 Hi) as (c3 & Hc3 & Hslot3). eapply tends_get_client; [exact Hc3|].
  destruct (done_ s3); [by apply tends_ret|]. destruct (negb (bool_decide (state c3 = CLIENT_RUN))) eqn:Hst3; [by apply IHi|].
  apply negb_false_iff, bool_decide_eq_true in Hst3. destruct Hslot3 as [?|Hat3]; [congruence|].
  eapply tends_bind; [by eapply run_client_ends|]. intros status [s4 v4] (Ha4 & _ & c4 & Hat4 & _). simpl in Ha4, Hat4.
  assert (server_ok s4 (http v4)) as Hs4 by (right; split; apply Hat4).
  eapply tends_bind; [by apply deadlines_fine|]. intros [now'|] [s5 v5] [[Hs5 Ha5] _]; [|by apply tends_ret].
  simpl in Hs5, Ha5. destruct (server_slot s5 (http v5) i Hs5 Hi) as (c5 & Hc5 & Hslot5).
  eapply tends_get_client; [exact Hc5|].
  destruct (negb (bool_decide (state c5 = CLIENT_RUN))) eqn:Hst5; [by apply IHb|].
  apply negb_false_iff, bool_decide_eq_true in Hst5. destruct Hslot5 as [?|Hat5]; [congruence|].
  case_decide; [by apply IHb|]. eapply tends_bind; [by eapply after_instruction_ends|].
  intros _ [s6 v6] [Hs6 Ha6]. by apply IHb.
Qed.

(** ** Readiness *)

Lemma ready_finished_ends e s v v1 :
  after v v1 → live None s (http v1) → open s → tends (ready_finished e) (s, v1) (λ _ x, fine v x).
Proof.
  intros Ha Hl Ho. pose proof (lv_clients _ _ _ Hl) as Hlen.
  assert (tends (server_trap bad_readiness) (s, v1) (λ _ x, fine v x)) as Htrap by (by apply trap_fine).
  unfold ready_finished. destruct (exec_result e) as [r|]; [|done].
  destruct r as [| | | | | | | | | | | | | |name l| | | | | | |]; try done. destruct l as [|payload []]; try done.
  destruct (_ && _) eqn:He.
  - do 2 apply tends_on_server. eapply tends_mono; [apply close_all_ends; [apply Ha|done]|].
    intros ? x (Ha2 & Hc & _ & _). split; [|by eapply after_trans]. left. apply Hc; [done|]. right.
    apply andb_true_iff in He as [Hn Hk]. eexists. split; [done|]. left.
    destruct payload as [| | | | | | | |t| | | | | | | | | | | | |]; try done. by exists name, t.
  - clear He. destruct (is_name name "Ok" && is_kind payload V_UNIT); [|exact Htrap]. eapply tends_mono; [apply clear_ready_ends, Ha|]. intros ? x (v2 & Ha2 & ->).
    split; [right|by eapply after_trans]. simpl. split; [|done]. eapply live_mono; [apply Ha2|]. by apply live_clear_ready.
Qed.

Lemma create_ready_ends s v v1 :
  after v v1 → live None s (http v1) → open s → ready_pending s = true →
  tends create_ready (s, v1) (λ o x, fine v x ∧
    (is_Some o → live None (fst x) (http (snd x)) ∧ open (fst x))).
Proof.
  intros Ha Hl Ho Hp. unfold create_ready. apply tends_get_server.
  destruct (ready_execution s) as [e|]; [apply tends_ret; split; [split; [right; done|done]|done]|].
  destruct (lv_ready _ _ _ Hl Hp) as [[g Hg] [x Hx]]. rewrite Hg, Hx. do 2 apply tends_not_null.
  eapply create_execution_ends; [exact Ha| |].
  - intros e v2 Ha2 Hle. apply tends_on_server, tends_ret. simpl.
    assert (live None (set_ready_execution (Some (if ready_console s then exec_enable_console e else e)) s) (http v2)).
    { apply live_ready_execution. eapply live_mono; [apply Hle|done]. }
    split; [split; [right; done|done]|done].
  - intros t. eapply tends_bind; [apply trap_fine; [exact Ha|apply Hl]|]. intros ? y Hy. apply tends_ret. split; [done|by intros []].
Qed.

Lemma advance_ready_ends budget s v v1 :
  after v v1 → live None s (http v1) → open s → ready_pending s = true →
  tends (advance_ready budget) (s, v1) (λ _ x, fine v x).
Proof.
  intros Ha Hl Ho Hp. unfold advance_ready. eapply tends_bind; [by apply create_ready_ends|].
  intros [e|] [s1 v2] [Hx Hlive]; [|by apply tends_ret]. destruct Hx as [_ Ha2]. simpl in Ha2, Hlive.
  destruct (Hlive ltac:(eauto)) as [Hl1 Ho1]. apply tends_get_env.
  eapply tends_certain; [apply poll_law|]. intros [[e1 o1] v3] [_ Hrun3]. pose proof (Hrun3 (proj1 Ha2)) as Ha3.
  eapply tends_certain; [apply advance_law|]. intros [[[status e2] o2] v4] [_ Hrun4].
  pose proof (Hrun4 (proj1 Ha3)) as Ha4. apply tends_put_env, tends_on_server.
  assert (after v v4) as Hav by (eapply after_trans; [exact Ha2|by eapply after_trans]).
  assert (live None (set_ready_execution (Some e2) s1) (http v4)) as Hl4.
  { apply live_ready_execution. eapply live_mono; [apply Ha4|]. eapply live_mono; [apply Ha3|done]. }
  assert (∀ t, tends (server_trap t) (set_ready_execution (Some e2) s1, v4) (λ _ x, fine v x)) as Htrap.
  { intros t. apply trap_fine; [done|apply Hl1]. }
  destruct status; try apply Htrap; try (apply tends_ret; split; [right; done|done]).
  by apply ready_finished_ends.
Qed.

Lemma tcp_server_advance_ends budget s v :
  http_ok (http v) → server_ok s (http v) → tends (tcp_server_advance budget) (s, v) (λ _ x, fine v x).
Proof.
  intros Hok Hs. unfold tcp_server_advance. eapply tends_bind; [apply deadlines_fine; [by apply after_refl|done]|].
  intros [now|] [s1 v1] [[Hs1 Ha1] Hx]; [|by apply tends_ret]. simpl in Hs1, Ha1, Hx. destruct Hx as (Hl & Ho & _).
  apply tends_get_server. destruct (ready_pending s1) eqn:Hp; [|by apply advance_loop_ends].
  destruct (Nat.eqb budget 0); [by apply tends_ret|]. by apply advance_ready_ends.
Qed.

(** When draining is to end: counted from now, or from the end of admission if
    that has passed. *)
Definition drains_by t s d : Prop :=
  ∃ t', (t' = t ∨ t' = admission_deadline s ∧ t' ≤ t) ∧ d = u64 (t' + drain_ms (limits (setup s))).

Lemma stopped_drain now s s1 :
  evolves now s s1 → stopping s = false → drains_by now s (drain_deadline (stopped now s1)).
Proof.
  intros He Hs. unfold stopped. destruct (stopping s1) eqn:Hs1.
  - destruct (ev_late _ _ _ He Hs Hs1) as [? ->]. exists (admission_deadline s). auto.
  - exists now. simpl. rewrite (ev_setup _ _ _ He). auto.
Qed.

Lemma tcp_server_stop_ends s v :
  http_ok (http v) → server_ok s (http v) → tends tcp_server_stop (s, v) (λ _ x, fine v x ∧
    (closed (fst x) ∨ stopping (fst x) = true ∧
       (stopping s = false → ∃ t, clock v = Some t ∧ drains_by t s (drain_deadline (fst x))))).
Proof.
  intros Hok Hs. unfold tcp_server_stop. eapply tends_bind; [apply deadlines_fine; [by apply after_refl|done]|].
  intros [now|] [s1 v1] [[Hs1 Ha1] Hx]; simpl in Hs1, Ha1, Hx; [|apply tends_ret; split; [done|by left]].
  destruct Hx as (Hl & Ho & _ & He1 & Hck). eapply tends_bind; [apply stop_at_ends, Ha1|]. intros _ [s2 v2] [Hx Ha2].
  simpl in Hx, Ha2. assert (after v v2) as Hav by (by eapply after_trans).
  assert (server_ok s2 (http v2)) as Hs2.
  { right. rewrite Hx. split; [eapply live_mono; [apply Ha2|by apply stopped_live]|].
    unfold open, stopped. destruct (stopping s1) eqn:E1; [by rewrite E1|done]. }
  assert (stopping s2 = true) as Hst2 by (rewrite Hx; unfold stopped; by destruct (stopping s1) eqn:?).
  eapply tends_bind; [by apply deadlines_fine|]. intros o x [Hf Ho2]. apply tends_ret. split; [done|].
  destruct o as [now'|]; [right|by left]. destruct Ho2 as (_ & _ & _ & He & _).
  destruct (ev_drain _ _ _ He Hst2) as [Hst3 Hd3]. split; [done|]. intros Hs0. exists now. split; [done|].
  rewrite Hd3, Hx. by apply stopped_drain.
Qed.
End service.
