(* ===== verification/TcpContract.v ===== *)
(** * The contract of tcp_server.h

    Servers as they are started, the calls their owner makes, and what holds of
    every state that these calls reach. *)

From Stdlib Require Import ZArith Lia.
From stdpp Require Import prelude gmap strings relations.
From S2P Require Import Prelude Bigint Value Equal Numeric Program Collections Execute.
From S2P Require Import HttpState HttpObjects TcpServer TcpClients TcpService.

Section contract.
Context {E W : Type} `{!Sockets W, !SocketsLaws W, !ServerExecutor E W, !ServerExecutorLaws E W}.
Implicit Types (s : VMTcpServer E) (c : ServerClient E) (v : Env W) (h : HttpHeap) (p : Setup).

(** ** Creation *)

(** A server nothing has happened to yet. *)
Record untouched s : Prop := {
  un_clients : clients s = replicate SERVER_CONCURRENCY free_client;
  un_outcomes : outcomes s = replicate SERVER_CLIENTS None;
  un_counts : clients_admitted s = 0 ∧ active s = 0 ∧ succeeded s = 0 ∧ failures s = 0;
  un_cursor : next_handler s = 0%nat;
  un_ready : ready_pending s = false;
  un_done : done_ s = false ∧ stopping s = false;
  un_admission : 0 ≤ admission_deadline s;
}.

Lemma occupancy_blank n : occupancy (replicate n (free_client (E:=E))) = 0%nat.
Proof. apply occupancy_zero, Forall_replicate. done. Qed.

Lemma untouched_live s h : untouched s → setup_ok (setup s) h → live None s h ∧ open s.
Proof.
  intros [H1 H2 (H3 & H4 & H5 & H6) H7 H8 [H9 H10] _] Hp.
  assert (∀ i c, clients s !! i = Some c → state c = CLIENT_FREE) as Hfree.
  { intros i c. rewrite H1. by intros [-> _]%lookup_replicate. }
  pose proof (sp_concurrency _ _ Hp) as Hcc. split.
  - split; try done.
    + by rewrite H1, length_replicate.
    + by rewrite H2, length_replicate.
    + intros i c Hi Hc. by apply Hfree in Hi.
    + by rewrite H4, H1, occupancy_blank.
    + split.
      * intros i c Hi Hc. by apply Hfree in Hi.
      * intros i j c d Hi Hj Hc. by apply Hfree in Hi.
      * intros _ n Hn. lia.
      * intros _ n r _. rewrite H2. by intros [[=] _]%lookup_replicate.
      * intros _. lia.
    + rewrite H3. split; [unfold SIZE_MAX; lia|]. intros Hct. pose proof (sp_clients _ _ Hp Hct). lia.
    + rewrite H7. lia.
    + by rewrite H8.
  - intros Hct _. pose proof (sp_clients _ _ Hp Hct). rewrite H3. lia.
Qed.

(** What starting gives: a server that failed, or one that listens. *)
Definition started (q : Setup) v (x : VMTcpServer E * Env W) : Prop :=
  after v (snd x) ∧ (closed (fst x) ∨ (untouched (fst x) ∧ setup (fst x) = q)).

Lemma fail_started t q s v v1 :
  after v v1 → length (clients s) = SERVER_CONCURRENCY → tends (server_fail t) (s, v1) (λ _ x, started q v x).
Proof.
  intros Ha Hl. eapply tends_mono; [apply fail_ends; [apply Ha|done]|]. intros ? x [? ?].
  split; [by eapply after_trans|by left].
Qed.

Lemma open_listener_ends text port s v v1 :
  after v v1 → untouched s → tends (open_listener text port) (s, v1) (λ _ x, started (setup s) v x).
Proof.
  intros Ha Hs. assert (∀ n, length (clients (set_listener n s)) = SERVER_CONCURRENCY) as Hlen.
  { intros n. simpl. by rewrite (un_clients _ Hs), length_replicate. }
  assert (∀ n w t, tends (server_fail t) (set_listener n s, mkEnv (http v1) (runtime v1) w) (λ _ x, started (setup s) v x)) as Hfail.
  { intros n w t. apply fail_started; [by apply after_os|apply Hlen]. }
  unfold open_listener. apply tends_get_server, tends_sys. intros n w _. apply tends_on_server.
  eapply (tends_bind _ _ _ (λ _ x, ∃ w, x = (set_listener n s, mkEnv (http v1) (runtime v1) w))).
  { destruct (n <? 0); [apply tends_ret; eauto|]. apply configure_ends. intros [] w'; [|apply tends_ret; eauto].
    apply tends_last, tends_sys. intros b w'' _. apply tends_ret. eauto. }
  intros ready ? [w1 ->]. destruct (negb ready); [apply Hfail|]. apply tends_sys. intros bound w2 _.
  destruct (negb bound); [apply Hfail|]. apply tends_sys. intros listening w3 _.
  destruct (negb listening); [apply Hfail|]. apply clock_ends. intros w4. destruct (clock _); [|apply Hfail].
  apply tends_last, tends_on_server, tends_ret. split; [by apply after_os|]. right. split; [|done].
  destruct Hs as [H1 H2 H3 H4 H5 H6 H7]. split; try done. apply Z.mod_pos_bound. lia.
Qed.

(** The arguments of a server that starts, as the setup they give. *)
Definition started_setup (g : option Function) (x : option Value) (l : VMTcpServerLimits)
    (out stream continuous : bool) : Setup := mkSetup false false continuous false out stream g x l.

Definition setup_wf (q : Setup) : Prop :=
  (1 ≤ concurrency (limits q) ≤ SERVER_CONCURRENCY)%nat ∧
  (continuous q = false → Z.of_nat (concurrency (limits q)) ≤ clients_limit (limits q) ≤ Z.of_nat SERVER_CLIENTS) ∧
  request_limit (limits q) ≤ SERVER_BYTES ∧ is_Some (server_handler q) ∧
  (streaming q = true → is_Some (server_context q)).

Lemma limits_ok_wf b port l :
  limits_ok b port l = true →
  (1 ≤ concurrency l ≤ SERVER_CONCURRENCY)%nat ∧
  (b = false → Z.of_nat (concurrency l) ≤ clients_limit l ≤ Z.of_nat SERVER_CLIENTS) ∧ request_limit l ≤ SERVER_BYTES.
Proof.
  unfold limits_ok. intros H%negb_true_iff. rewrite !orb_false_iff in H.
  destruct H as [[[[[[[[[[_ _] H1] H2%Nat.eqb_neq] H3%Nat.ltb_ge] H4%Z.ltb_ge] _] _] _] _] _].
  split; [lia|]. split; [|done]. intros ->. simpl in H1. rewrite !orb_false_iff in H1.
  destruct H1 as [[_ H5%Z.ltb_ge] H6%Z.ltb_ge]. lia.
Qed.

Lemma blank_untouched b l q n : untouched (set_admission_deadline (u64 n) (set_setup q (blank b l))).
Proof. split; try reflexivity; try (by repeat split). apply Z.mod_pos_bound. lia. Qed.

Lemma configure_server_ends (pr : Program) g x a port out stream b l v :
  http_ok (http v) →
  tends (configure_server pr g x a port out stream) (blank b l, v) (λ _ y, after v (snd y) ∧
    (closed (fst y) ∨ (untouched (fst y) ∧ setup (fst y) = started_setup g x l out stream b ∧ setup_wf (setup (fst y))))).
Proof.
  intros Hok. pose proof (after_refl v Hok) as Ha. unfold configure_server. apply tends_get_server.
  assert (tends (server_trap bad_handler) (blank b l, v) (λ _ y, after v (snd y) ∧
    (closed (fst y) ∨ (untouched (fst y) ∧ setup (fst y) = started_setup g x l out stream b ∧ setup_wf (setup (fst y)))))) as Htrap.
  { eapply tends_mono; [by apply server_trap_ends|]. intros ? y [? ?]. split; [done|by left]. }
  assert (∀ s w t, length (clients s) = SERVER_CONCURRENCY → tends (server_fail t) (s, mkEnv (http v) (runtime v) w) (λ _ y, after v (snd y) ∧
    (closed (fst y) ∨ (untouched (fst y) ∧ setup (fst y) = started_setup g x l out stream b ∧ setup_wf (setup (fst y)))))) as Hfail.
  { intros s w t Hlen. eapply tends_mono; [by apply fail_ends|]. intros ? y [? ?]. split; [|by left]. done. }
  assert (mkEnv (http v) (runtime v) (os v) = v) as Hv by (by destruct v).
  destruct g as [g|]; [|exact Htrap]. destruct (negb (callable pr g) || (stream && bool_decide (x = None))) eqn:Hg; [exact Htrap|].
  apply orb_false_iff in Hg as [_ Hctx].
  assert (∀ s t, length (clients s) = SERVER_CONCURRENCY → tends (server_fail t) (s, v) (λ _ y, after v (snd y) ∧
    (closed (fst y) ∨ (untouched (fst y) ∧ setup (fst y) = started_setup (Some g) x l out stream b ∧
                       setup_wf (setup (fst y)))))) as Hfail'.
  { intros s t Hlen. specialize (Hfail s (os v) t Hlen). by rewrite Hv in Hfail. }
  destruct (is_kind a V_STR); cbn [negb orb]; [|by apply Hfail'].
  change (continuous (setup (blank b l))) with b. change (limits (setup (blank b l))) with l.
  destruct (limits_ok b port l) eqn:Hl; cbn [negb]; [|by apply Hfail'].
  apply limits_ok_wf in Hl. apply tends_on_server.
  set (s1 := set_setup _ _).
  assert (setup_wf (setup s1)) as Hwf.
  { destruct Hl as (L1 & L2 & L3). split; [exact L1|]. split; [exact L2|]. split; [exact L3|]. split; [by eexists|].
    simpl. intros ->. simpl in Hctx.
    apply bool_decide_eq_false in Hctx.
    destruct x as [x|]; [exists x; reflexivity|destruct (Hctx eq_refl)]. }
  destruct (address_text a) as [text|]; [|by apply Hfail'].
  destruct (negb (inet_pton text)); [by apply Hfail'|].
  apply clock_ends. intros w. destruct (clock v); [|by apply Hfail]. apply tends_on_server.
  eapply tends_mono; [eapply (open_listener_ends _ _ _ v); [by apply after_same|]|].
  - apply blank_untouched.
  - intros ? y [Ha2 [Hc|[Hu Hs]]]; (split; [exact Ha2|]); [left; exact Hc|]. right. rewrite Hs.
    split; [exact Hu|]. split; [reflexivity|exact Hwf].
Qed.

(** ** What no operation undoes *)

(** A server that drains keeps its deadline, one that is done stays so, and the
    end of admission and the limits are fixed. *)
Definition onward s s' : Prop :=
  (stopping s = true → stopping s' = true ∧ drain_deadline s' = drain_deadline s) ∧ (done_ s = true → done_ s' = true) ∧
  admission_deadline s' = admission_deadline s ∧ limits (setup s') = limits (setup s).

#[local] Instance onward_preorder : PreOrder onward.
Proof.
  split; [by intros s; split_and!|]. intros s1 s2 s3 (A1 & B1 & C1 & D1) (A2 & B2 & C2 & D2).
  split; [|split_and!; [auto|congruence..]]. intros H. destruct (A1 H) as [H2 <-]. auto.
Qed.

(** However the operation ends. *)
Definition goes_on {A} (m : T (E:=E) (W:=W) A) : Prop := ∀ x al, onward (fst x) (fst (snd (fst (m x al)))).

Lemma goes_ret {A} (a : A) : goes_on (mret a).
Proof. done. Qed.
Lemma goes_lift {A} (m : M A) : goes_on (tlift m).
Proof. intros x al. unfold tlift. by destruct (m al). Qed.
Lemma goes_nullable {A} (m : M A) : goes_on (nullable m).
Proof. intros x al. unfold nullable. by destruct (m al) as [[] ?]. Qed.
Lemma goes_objects {A} (m : H A) : goes_on (on_objects m).
Proof. intros x al. unfold on_objects. by destruct (m (http (snd x)) al) as [[[] ?] ?]. Qed.
Lemma goes_bind {A B} (m : T A) (k : A → T B) : goes_on m → (∀ a, goes_on (k a)) → goes_on (y ← m; k y).
Proof.
  intros Hm Hk x al. unfold mbind, T_bind. specialize (Hm x al). destruct (m x al) as [[[a| | | |] x'] al']; try done.
  simpl in Hm. etrans; [exact Hm|]. apply Hk.
Qed.
Lemma goes_get_server : goes_on get_server.
Proof. done. Qed.
Lemma goes_get_env : goes_on get_env.
Proof. done. Qed.
Lemma goes_put_env v : goes_on (put_env v).
Proof. done. Qed.
Lemma goes_on_server f : (∀ s, onward s (f s)) → goes_on (on_server f).
Proof. intros Hf x al. apply Hf. Qed.
Lemma goes_not_null {A} (o : option A) : goes_on (not_null o).
Proof. destruct o; [apply goes_ret|apply goes_lift]. Qed.
Lemma goes_bytes r : goes_on (payload_bytes (E:=E) (W:=W) r).
Proof. destruct r; first [apply goes_ret|apply goes_lift]. Qed.
Create HintDb goes discriminated.
#[local] Hint Resolve goes_ret goes_lift goes_nullable goes_objects goes_get_server goes_get_env goes_put_env
  goes_not_null goes_bytes : goes.

(** Every step of an operation. *)
Ltac goes :=
  repeat match goal with
  | |- goes_on (mbind _ _) => apply goes_bind; [|intros ?]
  | |- goes_on (on_server _) => apply goes_on_server; intros ?; first [done | by case_match]
  | |- goes_on (let '(_, _) := ?x in _) => destruct x
  | |- goes_on (if ?b then _ else _) => destruct b
  | |- goes_on (match ?x with _ => _ end) => destruct x
  | |- goes_on _ => solve [auto with goes]
  end.

Lemma goes_sys {A} (call : W → A * W) : goes_on (sys call).
Proof. unfold sys. goes. Qed.
Lemma goes_on_http f : goes_on (on_http f).
Proof. unfold on_http. goes. Qed.
Lemma goes_get_client i : goes_on (get_client i).
Proof. unfold get_client. goes. Qed.
Lemma goes_put_client i c : goes_on (put_client i c).
Proof. unfold put_client. goes. Qed.
#[local] Hint Resolve goes_sys goes_on_http goes_get_client goes_put_client : goes.
Lemma goes_close_fd n : goes_on (close_fd n).
Proof. unfold close_fd. goes. Qed.
Lemma goes_destroy o : goes_on (destroy_execution o).
Proof. unfold destroy_execution. goes. Qed.
#[local] Hint Resolve goes_close_fd goes_destroy : goes.
Lemma goes_clear i : goes_on (client_clear i).
Proof. unfold client_clear. goes. Qed.
Lemma goes_clear_ready : goes_on clear_ready.
Proof. unfold clear_ready. goes. Qed.
Lemma goes_close_listener : goes_on close_listener.
Proof. unfold close_listener. goes. Qed.
#[local] Hint Resolve goes_clear goes_clear_ready goes_close_listener : goes.
Lemma goes_slots n f : (∀ i, goes_on (f i)) → goes_on (each_slot n f).
Proof. intros Hf. unfold each_slot. induction (seq 0 n); simpl; [apply goes_ret|]. apply goes_bind; [apply Hf|done]. Qed.
Lemma goes_close_all : goes_on close_all.
Proof. unfold close_all. goes. apply goes_slots, goes_clear. Qed.
#[local] Hint Resolve goes_close_all : goes.
Lemma goes_trap t : goes_on (server_trap t).
Proof. unfold server_trap. goes. Qed.
#[local] Hint Resolve goes_trap : goes.
Lemma goes_fail t : goes_on (server_fail t).
Proof. unfold server_fail. goes. Qed.
Lemma goes_report i r : goes_on (report i r).
Proof. unfold report. goes. Qed.
#[local] Hint Resolve goes_fail goes_report : goes.
Lemma goes_finish i t : goes_on (finish_client i t).
Proof. unfold finish_client. goes. Qed.
Lemma goes_log m : goes_on (http_log m).
Proof. unfold http_log. goes. Qed.
Lemma goes_writer c : goes_on (client_writer c).
Proof. unfold client_writer. goes. Qed.
#[local] Hint Resolve goes_finish goes_log goes_writer : goes.
Lemma goes_attach i : goes_on (http_attach_response i).
Proof. unfold http_attach_response. goes. Qed.
#[local] Hint Resolve goes_attach : goes.
Lemma goes_deadline_response i : goes_on (http_deadline_response i).
Proof. unfold http_deadline_response. goes. Qed.
Lemma goes_finish_execution i : goes_on (http_finish_execution i).
Proof. unfold http_finish_execution. goes. Qed.
Lemma goes_log_outcome b e w : goes_on (log_outcome b e w).
Proof. unfold log_outcome. goes. Qed.
#[local] Hint Resolve goes_deadline_response goes_finish_execution goes_log_outcome : goes.
Lemma goes_handler_finished i b : goes_on (http_handler_finished i b).
Proof. unfold http_handler_finished. goes. Qed.
Lemma goes_clock : goes_on clock_ms.
Proof. unfold clock_ms. goes. Qed.
Lemma goes_configure n : goes_on (configure n).
Proof. unfold configure. goes. Qed.
#[local] Hint Resolve goes_handler_finished goes_clock goes_configure : goes.
Lemma goes_stop_at now : goes_on (stop_at now).
Proof.
  intros [s v] al. unfold stop_at. unfold mbind at 1, T_bind, get_server. simpl. destruct (stopping s) eqn:Hs; [done|].
  unfold mbind, T_bind, on_server. simpl. etrans; [|apply goes_close_listener]. simpl. split; [congruence|done].
Qed.
Lemma goes_expire now i c : goes_on (expire_client now i c).
Proof. unfold expire_client. goes. Qed.
#[local] Hint Resolve goes_stop_at goes_expire : goes.
Lemma goes_deadline_loop now l : goes_on (deadline_loop now l).
Proof. induction l; simpl; goes. Qed.
Lemma goes_reports l : goes_on (reports l).
Proof. induction l; simpl; goes. Qed.
#[local] Hint Resolve goes_deadline_loop goes_reports : goes.
Lemma goes_summary : goes_on summary.
Proof. unfold summary. goes. Qed.
Lemma goes_report_list : goes_on report_list.
Proof. unfold report_list. goes. Qed.
#[local] Hint Resolve goes_summary goes_report_list : goes.
Lemma goes_conclude : goes_on conclude.
Proof. unfold conclude. goes. Qed.
#[local] Hint Resolve goes_conclude : goes.
Lemma goes_deadlines : goes_on deadlines.
Proof. unfold deadlines. goes. Qed.
#[local] Hint Resolve goes_deadlines : goes.
Lemma goes_turn_away n : goes_on (turn_away n).
Proof. unfold turn_away. goes. Qed.
Lemma goes_admit i n now : goes_on (admit_client i n now).
Proof. unfold admit_client. goes. Qed.
#[local] Hint Resolve goes_turn_away goes_admit : goes.
Lemma goes_accept now : goes_on (accept_client now).
Proof. unfold accept_client. goes. Qed.
Lemma goes_read i : goes_on (read_client i).
Proof. unfold read_client. goes. Qed.
Lemma goes_complete i r : goes_on (complete_stream_read i r).
Proof. unfold complete_stream_read. goes. Qed.
#[local] Hint Resolve goes_accept goes_read goes_complete : goes.
Lemma goes_deliver i l : goes_on (deliver_chunk i l).
Proof. unfold deliver_chunk. goes. Qed.
#[local] Hint Resolve goes_deliver : goes.
Lemma goes_read_stream i : goes_on (read_stream_chunk i).
Proof. unfold read_stream_chunk. goes. Qed.
Lemma goes_interim i : goes_on (write_interim i).
Proof. unfold write_interim. cbv zeta. goes. Qed.
Lemma goes_write i : goes_on (write_client i).
Proof. unfold write_client. cbv zeta. goes. Qed.
Lemma goes_execution {A} i call : goes_on (with_execution (A:=A) i call).
Proof. unfold with_execution. goes. Qed.
#[local] Hint Resolve goes_read_stream goes_interim goes_write goes_execution : goes.
Lemma goes_collect l : ∀ ws limit wait, goes_on (collect l ws limit wait).
Proof. induction l; intros; simpl; unfold poll_client_network, advance_client; cbv zeta; goes. Qed.
Lemma goes_serve_client i events : goes_on (serve_client i events).
Proof. unfold serve_client. cbv zeta. goes. Qed.
#[local] Hint Resolve goes_collect goes_serve_client : goes.
Lemma goes_serve w events now : goes_on (serve w events now).
Proof. unfold serve. goes. Qed.
#[local] Hint Resolve goes_serve : goes.
Lemma goes_serve_all ws : ∀ revents, goes_on (serve_all ws revents).
Proof. induction ws; intros; simpl; cbv zeta; goes. Qed.
#[local] Hint Resolve goes_serve_all : goes.
Lemma goes_poll n : goes_on (tcp_server_poll n).
Proof. unfold tcp_server_poll, poll_ready, poll_clients. cbv zeta. goes. Qed.
Lemma goes_create g x : goes_on (create_execution g x).
Proof. intros y al. unfold create_execution. by destruct (exec_create _ _ _ _ _) as [[[]| | | |] ?]. Qed.
#[local] Hint Resolve goes_poll goes_create : goes.
Lemma goes_handler_request i : goes_on (handler_request i).
Proof. unfold handler_request. goes. Qed.
#[local] Hint Resolve goes_handler_request : goes.
Lemma goes_start_handler i : goes_on (start_handler i).
Proof. unfold start_handler. cbv zeta. goes. Qed.
Lemma goes_handler_result i : goes_on (handler_result i).
Proof. unfold handler_result. cbv zeta. goes. Qed.
Lemma goes_handler_exited i e r : goes_on (handler_exited i e r).
Proof. unfold handler_exited. cbv zeta. goes. Qed.
#[local] Hint Resolve goes_start_handler goes_handler_result goes_handler_exited : goes.
Lemma goes_after_instruction i st : goes_on (after_instruction i st).
Proof. unfold after_instruction. cbv zeta. goes. Qed.
Lemma goes_run_client i : goes_on (run_client i).
Proof. unfold run_client, advance_client. cbv zeta. goes. Qed.
#[local] Hint Resolve goes_after_instruction goes_run_client : goes.
Lemma goes_advance_loop budget : ∀ idle, goes_on (advance_loop budget idle).
Proof. induction budget as [|budget IHb]; intros idle; [goes|]. induction idle as [|idle IHi]; simpl; cbv zeta; goes. Qed.
Lemma goes_ready_finished e : goes_on (ready_finished e).
Proof. unfold ready_finished. goes. Qed.
Lemma goes_create_ready : goes_on create_ready.
Proof. unfold create_ready. cbv zeta. goes. Qed.
#[local] Hint Resolve goes_advance_loop goes_ready_finished goes_create_ready : goes.
Lemma goes_advance n : goes_on (tcp_server_advance n).
Proof. unfold tcp_server_advance, advance_ready. goes. Qed.
Lemma goes_stop : goes_on tcp_server_stop.
Proof. unfold tcp_server_stop. goes. Qed.
Lemma goes_set_ready pr g x b : goes_on (tcp_server_set_ready_handler pr g x b).
Proof. unfold tcp_server_set_ready_handler. goes. Qed.

(** ** Starting *)

(** The fields are unsigned. *)
Definition unsigned (l : VMTcpServerLimits) : Prop := 0 ≤ request_limit l ∧ 0 ≤ drain_ms l.

Definition timely s : Prop := 0 ≤ admission_deadline s ∧ 0 ≤ drain_ms (limits (setup s)).

(** The invariant with what bounds draining. *)
Definition sound s h : Prop := server_ok s h ∧ (done_ s = true ∨ timely s).

Lemma closed_sound s h : closed s → sound s h.
Proof. intros Hc. split; [by left|]. left. apply Hc. Qed.

Lemma untouched_sound s h : untouched s → setup_ok (setup s) h → 0 ≤ drain_ms (limits (setup s)) → sound s h.
Proof. intros Hu Hp Hd. split; [right; by apply untouched_live|]. right. by split; [apply Hu|]. Qed.

Lemma setup_wf_ok q h :
  setup_wf q → 0 ≤ request_limit (limits q) →
  (routed q = true → continuous q = true ∧ streaming q = true ∧
     ∃ y, server_context q = Some (HttpState y) ∧ is_Some (states h !! y)) → setup_ok q h.
Proof. intros (H1 & H2 & H3 & H4 & H5) H6 H7. by split. Qed.

Lemma start_mode_ends (pr : Program) g x a port l out stream b v al :
  http_ok (http v) →
  match tcp_server_start_mode pr g x a port l out stream b v al with
  | (Ret (Some s), v', _) => after v v' ∧
      (closed s ∨ untouched s ∧ setup s = started_setup g x l out stream b ∧ setup_wf (setup s))
  | (Ret None, v', _) => v' = v
  | _ => False
  end.
Proof.
  intros Hok. unfold tcp_server_start_mode. destruct (alloc al) as [[]  al1]; try done.
  pose proof (configure_server_ends pr g x a port out stream b l v Hok al1) as Hc.
  by destruct (configure_server _ _ _ _ _ _ _ _ _) as [[[] [s v']] al2].
Qed.

Lemma start_mode_sound (pr : Program) g x a port l out stream b v al s v' al' :
  http_ok (http v) → unsigned l → tcp_server_start_mode pr g x a port l out stream b v al = (Ret (Some s), v', al') →
  after v v' ∧ sound s (http v').
Proof.
  intros Hok [Hl Hd] Hr. pose proof (start_mode_ends pr g x a port l out stream b v al Hok) as H. rewrite Hr in H.
  destruct H as [Ha [Hc|(Hu & Hs & Hwf)]]; (split; [done|]); [by apply closed_sound|].
  apply untouched_sound; [done| |by rewrite Hs]. apply setup_wf_ok; [done|by rewrite Hs|by rewrite Hs].
Qed.

Lemma start_http_sound self (pr : Program) g x out v al s v' al' :
  http_ok (http v) → tcp_server_start_http self pr g x out v al = (Ret (Some s), v', al') →
  after v v' ∧ sound s (http v').
Proof.
  intros Hok. unfold tcp_server_start_http. destruct (states (http v) !! x) as [st|] eqn:Hx; [|done].
  destruct (value_index (port st)) as [n|]; [|done]. case_match; [done|].
  pose proof (start_mode_ends pr g (Some (HttpState x)) (address st) n http_limits out true true v al Hok) as H1.
  destruct (tcp_server_start_mode _ _ _ _ _ _ _ _ _ _ _) as [[[[s1|]| | | |] v1] al1]; try done.
  destruct H1 as [Ha [Hc|(Hu & Hs & Hwf)]].
  { rewrite (cl_done _ Hc). intros [= <- <- <-]. split; [done|by apply closed_sound]. }
  rewrite (proj1 (un_done _ Hu)). intros [= <- <- <-].
  assert (mild (λ t, set_resource (Some self) (set_phase HTTP_LISTENING t))) as Hm.
  { intros t. destruct (phase_mild HTTP_LISTENING t) as (A1 & A2 & A3).
    destruct (resource_mild (Some self) (set_phase HTTP_LISTENING t)) as (B1 & B2 & B3).
    split; [auto|]. split; [congruence|by etrans]. }
  assert (after v (mkEnv (set_states (alter (λ t, set_resource (Some self) (set_phase HTTP_LISTENING t)) x
    (states (http v1))) (http v1)) (runtime v1) (os v1))) as Ha2.
  { destruct Ha as (A1 & A2 & A3). split; [by apply alter_state_ok|]. split; [|done]. etrans; [done|]. by apply alter_state_le. }
  split; [exact Ha2|]. apply untouched_sound.
  - destruct Hu. by split.
  - simpl. rewrite Hs in *. apply setup_wf_ok; simpl; [exact Hwf|unfold SERVER_BYTES; lia|]. intros _. split_and!; [done..|].
    exists x. split; [done|]. rewrite lookup_alter_eq. destruct Ha as (_ & (Hst & _ & _) & _). specialize (Hst x).
    rewrite Hx in Hst. simpl in Hst. destruct (states (http v1) !! x); [by eexists|done].
  - simpl. rewrite Hs. simpl. lia.
Qed.

(** ** Calls *)

Inductive server_call :=
| Poll (max_wait_ms : Z)
| Advance (budget : nat)
| Stop
| EnableFilesystem
| EnableConsole
| SetReadyHandler (pr : Program) (g : Function) (x : option Value) (console : bool).

Definition run_call (call : server_call) : T unit :=
  match call with
  | Poll n => tcp_server_poll n
  | Advance n => tcp_server_advance n
  | Stop => tcp_server_stop
  | EnableFilesystem => tcp_server_enable_filesystem
  | EnableConsole => tcp_server_enable_console
  | SetReadyHandler pr g x b => _ ← tcp_server_set_ready_handler pr g x b; mret tt
  end.

(** The calls that make a server go on. *)
Definition pumps (call : server_call) : bool :=
  match call with Poll _ | Advance _ | Stop => true | _ => false end.

Inductive begins : VMTcpServer E * Env W → Prop :=
| begins_mode (pr : Program) g x a port l out stream b v al s v' al' :
    http_ok (http v) → unsigned l →
    tcp_server_start_mode pr g x a port l out stream b v al = (Ret (Some s), v', al') → begins (s, v')
| begins_http self (pr : Program) g x out v al s v' al' :
    http_ok (http v) → tcp_server_start_http self pr g x out v al = (Ret (Some s), v', al') → begins (s, v').

(** A call of the owner, or what others do in the meantime. *)
Inductive server_step : VMTcpServer E * Env W → VMTcpServer E * Env W → Prop :=
| step_call call x al x' al' : run_call call x al = (Ret tt, x', al') → server_step x x'
| step_others s v v' : after v v' → server_step (s, v) (s, v').

Definition reaches (x : VMTcpServer E * Env W) : Prop := ∃ x0, begins x0 ∧ rtc server_step x0 x.

Lemma enabled_live f b s h : live None s h → live None (set_setup (enabled f b (setup s)) s) h.
Proof.
  intros [H1 H2 H3 H4 H5 H6 H7 H8 H9 H10]. split; simpl; try done; [by destruct H4; split| |by destruct H7; split].
  intros i c Hi Hc. destruct (H5 i c Hi Hc) as [? Hok]. split; [done|]. intros Hx. by destruct (Hok Hx); split.
Qed.

Lemma enabled_ok f b s h : server_ok s h → server_ok (set_setup (enabled f b (setup s)) s) h.
Proof.
  intros [Hc|[Hl Ho]]; [left|right; split; [by apply enabled_live|exact Ho]].
  destruct Hc as [C1 C2 C3 C4 C5]. by split.
Qed.

Lemma set_ready_ok (pr : Program) g x b s v :
  http_ok (http v) → server_ok s (http v) → tends (_ ← tcp_server_set_ready_handler pr g x b; mret tt) (s, v) (λ _ y, fine v y).
Proof.
  intros Hok Hs. pose proof (after_refl v Hok) as Ha.
  apply (tends_bind _ _ _ (λ _ y, fine v y)); [|intros ? y Hy; by apply tends_ret].
  unfold tcp_server_set_ready_handler. apply tends_get_server. case_match eqn:Hg; [by apply tends_ret|].
  rewrite !orb_false_iff in Hg. destruct Hg as [[[[[Hd _] _] _] Hx%bool_decide_eq_false] _].
  apply tends_on_server, tends_ret. split; [|exact Ha]. destruct Hs as [Hc|[Hl Ho]]; [by rewrite (cl_done _ Hc) in Hd|].
  right. split; [|exact Ho].
  assert (is_Some x) as Hsx by (destruct x; [by eexists|by destruct Hx]).
  destruct Hl as [H1 H2 H3 H4 H5 H6 H7 H8 H9 H10]. split; simpl; try done. by destruct H7; split.
Qed.

Lemma run_call_ends call s v :
  http_ok (http v) → server_ok s (http v) → tends (run_call call) (s, v) (λ _ x, fine v x).
Proof.
  intros Hok Hs. destruct call; simpl.
  - by apply tcp_server_poll_ends.
  - by apply tcp_server_advance_ends.
  - eapply tends_mono; [by apply tcp_server_stop_ends|]. by intros ? x [? _].
  - apply tends_last, tends_on_server, tends_ret. split; [by apply enabled_ok|by apply after_refl].
  - apply tends_last, tends_on_server, tends_ret. split; [by apply enabled_ok|by apply after_refl].
  - by apply set_ready_ok.
Qed.

Lemma goes_run_call call : goes_on (run_call call).
Proof.
  destruct call; simpl; [apply goes_poll|apply goes_advance|apply goes_stop|..].
  1, 2: apply goes_on_server; intros s; by split_and!.
  apply goes_bind; [apply goes_set_ready|intros; apply goes_ret].
Qed.

Lemma onward_timely s s' : onward s s' → done_ s = true ∨ timely s → done_ s' = true ∨ timely s'.
Proof. intros (_ & Hd & Ha & Hl) [?|[? ?]]; [auto|]. right. split; congruence. Qed.

Lemma step_onward x x' : server_step x x' → onward (fst x) (fst x').
Proof.
  intros [call y al y' al' Hr|]; [|done]. pose proof (goes_run_call call y al) as H. by rewrite Hr in H.
Qed.
Lemma steps_onward x x' : rtc server_step x x' → onward (fst x) (fst x').
Proof. induction 1; [done|]. etrans; [by apply step_onward|done]. Qed.

Definition upright (x : VMTcpServer E * Env W) : Prop := http_ok (http (snd x)) ∧ sound (fst x) (http (snd x)).

Lemma step_upright x x' : server_step x x' → upright x → upright x'.
Proof.
  intros Hst [Hok [Hs Ht]]. pose proof (step_onward _ _ Hst) as Ho. pose proof (onward_timely _ _ Ho Ht) as Ht'.
  destruct Hst as [call [s v] al y' al' Hr|s v v' Ha].
  - pose proof (run_call_ends call s v Hok Hs al) as H. rewrite Hr in H. destruct H as [H Ha]. split; [apply Ha|]. by split.
  - split; [apply Ha|]. split; [|done]. eapply server_ok_mono; [apply Ha|done].
Qed.

Lemma begins_upright x : begins x → upright x.
Proof.
  intros [pr g y a port l out stream b v al s v' al' Hok Hl Hr|self pr g y out v al s v' al' Hok Hr].
  - destruct (start_mode_sound _ _ _ _ _ _ _ _ _ _ _ _ _ _ Hok Hl Hr) as [Ha Hs]. split; [apply Ha|done].
  - destruct (start_http_sound _ _ _ _ _ _ _ _ _ _ Hok Hr) as [Ha Hs]. split; [apply Ha|done].
Qed.

Lemma steps_upright x x' : rtc server_step x x' → upright x → upright x'.
Proof. induction 1 as [|x1 x2 x3 Hs _ IH]; [done|]. intros Hu. by eapply IH, step_upright. Qed.

Lemma reaches_upright x : reaches x → upright x.
Proof. intros (x0 & Hb & Hr). by eapply steps_upright, begins_upright. Qed.

(** ** Draining *)

(** With no time left, nothing but the end happens. *)
Lemma deadlines_over s v :
  http_ok (http v) → server_ok s (http v) → stopping s = true →
  (∀ now, clock v = Some now → drain_deadline s ≤ now) →
  tends deadlines (s, v) (λ o x, o = None ∧ closed (fst x)).
Proof.
  intros Hok Hs Hst Hd. eapply tends_mono; [by apply deadlines_ends|]. intros [now|] x [_ Hx]; [|done].
  destruct Hx as (_ & _ & Hot & He & Hck). destruct (ev_drain _ _ _ He Hst) as [Hst' Hd'].
  pose proof (ot_drain _ _ Hot Hst'). specialize (Hd now Hck). lia.
Qed.

Lemma pump_over call s v :
  http_ok (http v) → server_ok s (http v) → pumps call = true →
  done_ s = true ∨ stopping s = true ∧ (∀ now, clock v = Some now → drain_deadline s ≤ now) →
  tends (run_call call) (s, v) (λ _ x, done_ (fst x) = true).
Proof.
  intros Hok Hs Hp [Hd|[Hst Hd]].
  { intros al. pose proof (run_call_ends call s v Hok Hs al) as H1. pose proof (goes_run_call call (s, v) al) as H2.
    destruct (run_call call (s, v) al) as [[[] x'] al']; try done. by apply H2. }
  assert (∀ (k : Z → T unit), tends (o ← deadlines; match o with None => mret tt | Some now => k now end) (s, v)
    (λ _ x, done_ (fst x) = true)) as Hk.
  { intros k. eapply tends_bind; [by apply deadlines_over|]. intros ? x [-> Hc]. apply tends_ret. apply Hc. }
  by destruct call; try done; apply Hk.
Qed.

Lemma drains_by_le t s d : timely s → 0 ≤ t → drains_by t s d → d ≤ t + drain_ms (limits (setup s)).
Proof.
  intros [H1 H2] Ht (t' & Ht' & ->). etrans; [apply Z.mod_le; [|lia]|]; destruct Ht' as [->|[-> ?]]; lia.
Qed.

(** ** The contract *)

(** C1: Whatever the operating system answers, whatever the handlers do, and in
    whatever order the owner makes its calls, a server that was started satisfies
    its invariant: at most [concurrency] slots are occupied and [active] counts
    them, no buffer or position of a client leaves its bounds, each client has
    the objects its state uses, and every client admitted is in one slot, counted
    or reported.  Every call returns: none dereferences a missing object, leaves
    an array, or runs forever. *)
Theorem server_invariant (x : VMTcpServer E * Env W) :
  reaches x → server_ok (fst x) (http (snd x)) ∧ ∀ call al, ∃ x' al', run_call call x al = (Ret tt, x', al').
Proof.
  intros [Hok [Hs _]]%reaches_upright. split; [done|]. intros call al. destruct x as [s v].
  pose proof (run_call_ends call s v Hok Hs al) as H. destruct (run_call call (s, v) al) as [[[[]| | | |] x'] al']; try done. eauto.
Qed.

(** C7: A server that is done without a trap has no client left and says how it
    ended: by the error that made it fail, or by the report of a drained server,
    in which every client admitted is accounted for - the outcome of each, in the
    order of admission, or for a continuous service their number, which is the
    number of those that succeeded and of those that failed together. *)
Theorem report_accounts (x : VMTcpServer E * Env W) :
  reaches x → done_ (fst x) = true → server_error (fst x) = None →
  Forall (λ c, state c = CLIENT_FREE) (clients (fst x)) ∧ active (fst x) = 0 ∧
  ∃ r, server_result (fst x) = Some r ∧ (failed_report r ∨ final_report (fst x) r).
Proof.
  intros [_ [[Hc|[Hl _]] _]]%reaches_upright Hd He; [|by rewrite (lv_done _ _ _ Hl) in Hd].
  destruct Hc as [_ C2 _ C4 [[? He']|C5]]; [congruence|]. done.
Qed.

(** C23: Deadlines are enforced exactly.  Unless the server is done afterwards,
    [deadlines] gives the time of the clock; no client whose deadline, no
    draining server whose deadline and no admission whose deadline has passed by
    then is left; the clients left are unchanged; and no client that had time
    left was removed. *)
Theorem deadlines_met (x x' : VMTcpServer E * Env W) o al al' :
  reaches x → deadlines x al = (Ret o, x', al') →
  match o with
  | None => done_ (fst x') = true
  | Some now =>
      clock (snd x) = Some now ∧ on_time now (fst x') ∧
      (∀ j c, clients (fst x') !! j = Some c → state c ≠ CLIENT_FREE → clients (fst x) !! j = Some c) ∧
      (∀ j c, clients (fst x) !! j = Some c → now < client_deadline c → clients (fst x') !! j = Some c)
  end.
Proof.
  intros [Hok [Hs _]]%reaches_upright Hr. destruct x as [s v]. pose proof (deadlines_ends s v Hok Hs al) as H.
  rewrite Hr in H. destruct H as [_ H]. destruct o as [now|]; [|apply H].
  destruct H as (_ & _ & Hot & He & Hck). split_and!; [done|done|exact (ev_clients _ _ _ He)|].
  intros j c Hj Hc. apply (ev_patient _ _ _ He); [done..|]. apply Hot.
Qed.

(** C6: A server that is told to stop ends.  Once [drain_ms] milliseconds have
    passed since the call, the next call that pumps the server leaves it done,
    whatever its clients, its handlers and the operating system have done since;
    also when the clock fails. *)
Theorem stop_drains (x x1 x2 x3 : VMTcpServer E * Env W) t al al1 call al2 al3 :
  reaches x → stopping (fst x) = false → clock (snd x) = Some t →
  run_call Stop x al = (Ret tt, x1, al1) →
  rtc server_step x1 x2 →
  (∀ now, clock (snd x2) = Some now → t + drain_ms (limits (setup (fst x))) ≤ now) →
  pumps call = true → run_call call x2 al2 = (Ret tt, x3, al3) →
  done_ (fst x3) = true.
Proof.
  intros Hx Hst Hck Hr1 Hsteps Hlate Hp Hr2. pose proof (reaches_upright _ Hx) as [Hok [Hs Ht]].
  assert (upright x2) as [Hok2 [Hs2 _]].
  { eapply steps_upright; [done|]. eapply step_upright; [by eapply step_call|]. by split. }
  destruct x as [s v], x2 as [s2 v2]. pose proof (tcp_server_stop_ends s v Hok Hs al) as H1. simpl in Hr1. rewrite Hr1 in H1.
  destruct H1 as [_ H1]. pose proof (steps_onward _ _ Hsteps) as (O1 & O2 & _).
  assert (done_ s2 = true ∨ stopping s2 = true ∧ ∀ now, clock v2 = Some now → drain_deadline s2 ≤ now) as Hover.
  { destruct Ht as [Hd|Ht].
    { left. apply O2. pose proof (goes_stop (s, v) al) as H. rewrite Hr1 in H. by apply H. }
    destruct H1 as [Hc|[H1 H2]]; [left; apply O2, Hc|right]. destruct (O1 H1) as [H3 H4]. split; [done|].
    intros now Hnow. destruct (H2 Hst) as (t' & Ht' & Hd). simpl in Hck, H4. rewrite Hck in Ht'. injection Ht' as <-.
    rewrite H4. etrans; [eapply drains_by_le; [done| |exact Hd]|by apply Hlate]. apply (reading_bound _ _ Hck). }
  pose proof (pump_over call s2 v2 Hok2 Hs2 Hp Hover al2) as H. by rewrite Hr2 in H.
Qed.
End contract.

(** ** A small world *)

(** The clock, in milliseconds, and the peers that wait to connect; their sockets
    take everything that is sent and have nothing to say. *)
Record village := mkVillage { village_ms : Z; peers : nat }.

#[local] Instance village_sockets : Sockets village := {
  clock_gettime w := (Some (village_ms w / 1000, village_ms w mod 1000 * 1000000), w);
  inet_pton _ := true;
  sys_socket w := (3, w);
  fcntl_nonblock _ w := (true, w);
  fcntl_cloexec _ w := (true, w);
  setsockopt_reuse _ w := (true, w);
  sys_bind _ _ _ w := (true, w);
  sys_listen _ _ w := (true, w);
  sys_accept _ w := match peers w with
                    | O => (AcceptAgain, w)
                    | S n => (Accepted (10 + Z.of_nat n), mkVillage (village_ms w) n)
                    end;
  sys_recv _ _ w := (RecvAgain, w);
  sys_send _ l w := (Sent (Z.of_nat (length l)), w);
  sys_poll l _ w := (Ready (Z.of_nat (length l)) (poll_events <$> l), w);
  sys_close _ w := w;
  write_log _ w := w;
}.
#[local] Instance village_sockets_laws : SocketsLaws village.
Proof. split; simpl; [done|]. intros fd l w n w' [= <- <-]. lia. Qed.

(** Executions that wait. *)
#[local] Instance village_executor : ServerExecutor ref village := {
  exec_id e := e;
  exec_create id _ _ v := mret (id, v);
  exec_enable_server_reads e := (true, e);
  exec_enable_filesystem e := e;
  exec_enable_console e := e;
  exec_enable_tcp e := e;
  exec_advance _ e o v := mret (VM_WAITING, e, o, v);
  exec_poll_network e o v := mret (e, o, v);
  exec_complete_read e _ v := mret (true, e, v);
  exec_destroy _ v := v;
  exec_result _ := None;
  exec_exit_status _ := 0;
  exec_error _ := None;
  exec_fault _ := VM_FAULT_FATAL;
}.
#[local] Instance village_executor_laws : ServerExecutorLaws ref village.
Proof.
  assert (∀ v : Env village, env_run v v) as Hv by (intros v ?; by apply after_refl).
  assert (∀ o : option (ServerClient ref), called o o) as Ho by (intros [c|]; [exists c; by split|done]).
  split; try done; intros; intros al; eexists _, _; split; try done; by split.
Qed.

Definition greeter : Function := mkFunction (str "greet") false true false [str "request"] [].
Definition village_program : Program := mkProgram [greeter] false.
Definition village_limits : VMTcpServerLimits := mkLimits 3 2 1024 1024 5000 8000 1000.
Definition at_ms (n : Z) (v : Env village) : Env village := mkEnv (http v) (runtime v) (mkVillage n (peers (os v))).

(** Two seconds after the epoch, with three peers. *)
Definition morning : Env village := mkEnv no_objects None (mkVillage 2000 3).
Definition opening : VMTcpServer ref * Env village :=
  match tcp_server_start village_program (Some greeter) (str_value "127.0.0.1") 8080 village_limits false morning [] with
  | (Ret (Some s), v, _) => (s, v)
  | (_, v, _) => (blank false village_limits, v)
  end.

Definition call_on (call : server_call) (x : VMTcpServer ref * Env village) := snd (fst (run_call call x [])).
Definition later (n : Z) (x : VMTcpServer ref * Env village) := (fst x, at_ms n (snd x)).

Lemma opening_begins : begins opening.
Proof.
  eapply (begins_mode village_program (Some greeter) None (str_value "127.0.0.1") 8080 village_limits false false false
    morning [] (fst opening) (snd opening) []); [apply no_objects_ok|by split|]. vm_compute. reflexivity.
Qed.

Lemma call_on_step call x : fst (fst (run_call call x [])) = Ret tt → server_step x (call_on call x).
Proof.
  intros H. apply (step_call call x [] _ (snd (run_call call x []))). unfold call_on.
  destruct (run_call call x []) as [[o y] al]. simpl in *. by subst.
Qed.
Lemma later_step n x : http_ok (http (snd x)) → server_step x (later n x).
Proof. intros H. destruct x as [s v]. apply step_others. split; [done|]. by split. Qed.

(** Two of them are admitted, one at a time; the first is turned out when its
    time is over. *)
Definition noon : VMTcpServer ref * Env village := call_on (Poll 100) (later 3000 (call_on (Poll 100) opening)).
Definition stopped_noon : VMTcpServer ref * Env village := call_on Stop noon.
Definition evening : VMTcpServer ref * Env village := later 4000 stopped_noon.

Lemma noon_reached : reaches noon.
Proof.
  exists opening. split; [apply opening_begins|]. unfold noon.
  eapply rtc_l; [apply (call_on_step (Poll 100)); vm_compute; reflexivity|].
  eapply rtc_l; [apply (later_step 3000)|].
  - vm_compute http. apply no_objects_ok.
  - eapply rtc_l; [apply (call_on_step (Poll 100)); vm_compute; reflexivity|]. apply rtc_refl.
Qed.

Lemma server_invariant_witness :
  active (fst noon) = 2 ∧ server_ok (fst noon) (http (snd noon)) ∧
  ∀ call al, ∃ x' al', run_call call noon al = (Ret tt, x', al').
Proof. split; [vm_compute; reflexivity|]. apply (server_invariant noon noon_reached). Defined.

Lemma evening_reached : reaches (call_on (Poll 0) evening).
Proof.
  destruct noon_reached as (x0 & Hb & Hr). exists x0. split; [exact Hb|]. etrans; [exact Hr|]. unfold evening, stopped_noon.
  eapply rtc_l; [apply (call_on_step Stop); vm_compute; reflexivity|].
  eapply rtc_l; [apply (later_step 4000)|].
  - vm_compute http. apply no_objects_ok.
  - eapply rtc_l; [apply (call_on_step (Poll 0)); vm_compute; reflexivity|]. apply rtc_refl.
Qed.

Lemma report_accounts_witness :
  clients_admitted (fst (call_on (Poll 0) evening)) = 2 ∧
  ∃ r, server_result (fst (call_on (Poll 0) evening)) = Some r ∧
       (failed_report r ∨ final_report (fst (call_on (Poll 0) evening)) r).
Proof.
  split; [vm_compute; reflexivity|].
  apply (report_accounts _ evening_reached); vm_compute; reflexivity.
Defined.

Lemma deadlines_met_witness :
  let x := later 7500 noon in
  active (fst (snd (fst (deadlines x [])))) = 1 ∧ on_time 7500 (fst (snd (fst (deadlines x [])))).
Proof.
  intros x. assert (reaches x) as Hx.
  { destruct noon_reached as (x0 & Hb & Hr). exists x0. split; [exact Hb|]. eapply rtc_r; [exact Hr|].
    apply later_step. vm_compute http. apply no_objects_ok. }
  split; [vm_compute; reflexivity|].
  assert (deadlines x [] = (Ret (Some 7500), snd (fst (deadlines x [])), [])) as Hr by (vm_compute; reflexivity).
  destruct (deadlines_met x (snd (fst (deadlines x []))) (Some 7500) [] [] Hx Hr) as (_ & Ht & _). exact Ht.
Defined.

Lemma stop_drains_witness :
  done_ (fst evening) = false ∧ done_ (fst (call_on (Poll 0) evening)) = true.
Proof.
  split; [vm_compute; reflexivity|].
  apply (stop_drains noon stopped_noon evening (call_on (Poll 0) evening) 3000 [] [] (Poll 0) [] []).
  - apply noon_reached.
  - vm_compute. reflexivity.
  - vm_compute. reflexivity.
  - vm_compute. reflexivity.
  - apply rtc_once, later_step. vm_compute http. apply no_objects_ok.
  - intros now [= <-]. vm_compute. discriminate.
  - reflexivity.
  - vm_compute. reflexivity.
Defined.
