(* ===== verification/Posix.v ===== *)
(** * The operating system: descriptors and files

    The calls of the operating system that host_capabilities.c makes, as an
    interface: the state of the world is abstract and every answer is
    possible.  Beside the world a call keeps the descriptors it owns, so that
    using or closing a descriptor that is not open is undefined, and a
    descriptor that stays open can be seen.  The rules at the end are those of
    a program logic for such calls. *)

From Stdlib Require Import ZArith Lia.
From stdpp Require Import prelude strings.
From S2P Require Import Prelude.

#[local] Open Scope Z_scope.

(** ** Errors, as Linux numbers them *)

Definition EPERM : Z := 1.
Definition ENOENT : Z := 2.
Definition EINTR : Z := 4.
Definition EIO : Z := 5.
Definition EAGAIN : Z := 11.
Definition EACCES : Z := 13.
Definition EEXIST : Z := 17.
Definition ENOTDIR : Z := 20.
Definition EISDIR : Z := 21.
Definition EPIPE : Z := 32.
Definition ENOTEMPTY : Z := 39.
Definition ELOOP : Z := 40.
Definition EOVERFLOW : Z := 75.

(** ** The interface *)

Inductive file_kind := RegularKind | DirectoryKind | LinkKind | OtherKind.
#[global] Instance file_kind_eq_dec : EqDecision file_kind.
Proof. solve_decision. Defined.

Record stat := mkStat { st_kind : file_kind; st_dev : Z; st_ino : Z; st_size : Z }.

(** The flags of the calls that open a file. *)
Inductive open_mode :=
| DirectoryMode
| ReadMode
| WriteMode
(** a component: never through a symbolic link; a directory when more follows *)
| ComponentMode (directory : bool).

(** An answer, or errno. *)
Notation answer A := (A + Z)%type.

Class Posix (W : Type) := {
  sys_open : open_mode → list Z → W → answer Z * W;
  sys_openat : Z → list Z → open_mode → W → answer Z * W;
  sys_dup : Z → W → answer Z * W;
  sys_fstat : Z → W → answer stat * W;
  sys_fstatat : Z → list Z → W → answer stat * W;
  sys_lstat : list Z → W → answer stat * W;
  sys_readlinkat : Z → list Z → Z → W → answer (list Z) * W;
  sys_read : Z → Z → W → answer (list Z) * W;
  sys_write : Z → list Z → W → answer Z * W;
  sys_ftruncate : Z → W → option Z * W;
  sys_close : Z → W → option Z * W;
}.

(** Device and inode numbers are unsigned. *)
Definition stat_ok (i : stat) : Prop := 0 ≤ st_dev i ∧ 0 ≤ st_ino i.

(** What the manual pages say of the calls: [read] and [readlinkat] give at most
    the bytes asked for, [write] takes at most those given to it, [fstatat] and
    the like give a size and numbers of their types.  A call is interrupted only
    by a signal, and a finite number of signals arrive. *)
Class PosixLaws (W : Type) `{!Posix W} := {
  signals : W → nat;
  openat_signals d n m w : (signals (snd (sys_openat d n m w)) ≤ signals w)%nat;
  open_signals m p w : (signals (snd (sys_open m p w)) ≤ signals w)%nat;
  dup_signals d w : (signals (snd (sys_dup d w)) ≤ signals w)%nat;
  fstat_signals d w : (signals (snd (sys_fstat d w)) ≤ signals w)%nat;
  fstatat_signals d n w : (signals (snd (sys_fstatat d n w)) ≤ signals w)%nat;
  lstat_signals p w : (signals (snd (sys_lstat p w)) ≤ signals w)%nat;
  readlinkat_signals d n k w : (signals (snd (sys_readlinkat d n k w)) ≤ signals w)%nat;
  ftruncate_signals d w : (signals (snd (sys_ftruncate d w)) ≤ signals w)%nat;
  close_signals d w : (signals (snd (sys_close d w)) ≤ signals w)%nat;
  read_signals d k w : (signals (snd (sys_read d k w)) ≤ signals w)%nat;
  write_signals d b w : (signals (snd (sys_write d b w)) ≤ signals w)%nat;
  read_interrupted d k w : fst (sys_read d k w) = inr EINTR → (signals (snd (sys_read d k w)) < signals w)%nat;
  write_interrupted d b w : fst (sys_write d b w) = inr EINTR → (signals (snd (sys_write d b w)) < signals w)%nat;
  fstat_numbers d w i : fst (sys_fstat d w) = inl i → stat_ok i;
  read_bytes d k w b : 0 ≤ k → fst (sys_read d k w) = inl b → Zlength' b ≤ k ∧ Forall is_byte b;
  write_count d b w n : fst (sys_write d b w) = inl n → 0 ≤ n ≤ Zlength' b;
  readlinkat_bytes d n k w b : 0 ≤ k → fst (sys_readlinkat d n k w) = inl b → Zlength' b ≤ k ∧ 0 ∉ b;
}.

(** ** Calls *)

(** How a descriptor was come by. *)
Inductive origin :=
| Named (m : open_mode) (path : list Z)
| Child (parent : origin) (name : list Z) (m : open_mode)
| Copy (o : origin)
| Pipe
| Socket
(** a child process, held under the negative of its number *)
| Process.

(** The world, the descriptors and children that are held, and what was read from. *)
Record Sys (W : Type) := mkSys { world : W; held : list (Z * origin); reads : list origin }.
Arguments mkSys {_}. Arguments world {_}. Arguments held {_}. Arguments reads {_}.

Definition IO (W A : Type) : Type := Sys W → allocator → outcome A * Sys W * allocator.

#[global] Instance IO_ret W : MRet (IO W) := λ A a s al, (Ret a, s, al).
#[global] Instance IO_bind W : MBind (IO W) := λ A B f m s al,
  match m s al with
  | (Ret a, s, al) => f a s al
  | (Trap k msg, s, al) => (Trap k msg, s, al)
  | (NoMem, s, al) => (NoMem, s, al)
  | (Undef, s, al) => (Undef, s, al)
  | (Diverge, s, al) => (Diverge, s, al)
  end.

(** The newest descriptor with a number. *)
Fixpoint origin_of (fd : Z) (l : list (Z * origin)) : option origin :=
  match l with [] => None | (x, o) :: l => if decide (x = fd) then Some o else origin_of fd l end.
Fixpoint remove_one (fd : Z) (l : list (Z * origin)) : list (Z * origin) :=
  match l with [] => [] | (x, o) :: l => if decide (x = fd) then l else (x, o) :: remove_one fd l end.

Section calls.
Context {W : Type} `{!Posix W}.

Definition lift {A} (m : M A) : IO W A := λ s al, let '(o, al) := m al in (o, s, al).
Definition endless {A} : IO W A := λ s al, (Diverge, s, al).
Definition stop {A} (msg : string) : IO W A := λ s al, (Trap VM_FAULT_FATAL msg, s, al).
(** A pointer that may be NULL. *)
Definition or_none {A} (m : M A) : IO W (option A) := λ s al,
  match m al with
  | (Ret a, al) => (Ret (Some a), s, al)
  | (NoMem, al) => (Ret None, s, al)
  | (Trap k msg, al) => (Trap k msg, s, al)
  | (Undef, al) => (Undef, s, al)
  | (Diverge, al) => (Diverge, s, al)
  end.
Definition give {A} (o : option A) : IO W A := λ s al, match o with Some a => (Ret a, s, al) | None => (NoMem, s, al) end.

Definition ask {A} (f : W → A * W) : IO W A := λ s al,
  let '(a, w) := f (world s) in (Ret a, mkSys w (held s) (reads s), al).
(** A call that opens a descriptor. *)
Definition obtain (o : origin) (f : W → answer Z * W) : IO W (answer Z) := λ s al,
  let '(a, w) := f (world s) in
  (Ret a, mkSys w (match a with inl fd => (fd, o) :: held s | inr _ => held s end) (reads s), al).
(** A call on a descriptor, which must be open. *)
Definition on {A} (fd : Z) (m : origin → IO W A) : IO W A := λ s al,
  match origin_of fd (held s) with Some o => m o s al | None => (Undef, s, al) end.

Definition open (m : open_mode) (path : list Z) : IO W (answer Z) := obtain (Named m path) (sys_open m path).
Definition openat (d : Z) (name : list Z) (m : open_mode) : IO W (answer Z) :=
  on d (λ o, obtain (Child o name m) (sys_openat d name m)).
Definition dup (d : Z) : IO W (answer Z) := on d (λ o, obtain (Copy o) (sys_dup d)).
Definition fstat (d : Z) : IO W (answer stat) := on d (λ _, ask (sys_fstat d)).
Definition fstatat (d : Z) (name : list Z) : IO W (answer stat) := on d (λ _, ask (sys_fstatat d name)).
Definition readlinkat (d : Z) (name : list Z) (size : Z) : IO W (answer (list Z)) :=
  on d (λ _, ask (sys_readlinkat d name size)).
Definition read (d : Z) (size : Z) : IO W (answer (list Z)) :=
  on d (λ o s al, ask (sys_read d size) (mkSys (world s) (held s) (o :: reads s)) al).
Definition write (d : Z) (bytes : list Z) : IO W (answer Z) := on d (λ _, ask (sys_write d bytes)).
Definition ftruncate (d : Z) : IO W (option Z) := on d (λ _, ask (sys_ftruncate d)).
Definition close (d : Z) : IO W (option Z) :=
  on d (λ _ s al, let '(e, w) := sys_close d (world s) in (Ret e, mkSys w (remove_one d (held s)) (reads s), al)).
End calls.

(** ** Rules *)

Section rules.
Context {W : Type} `{!Posix W, !PosixLaws W}.
Implicit Types s : Sys W.

(** From [s], [m] returns a value with [Q], or fails with [X]. *)
Definition wp {A} (m : IO W A) s (Q : A → Sys W → Prop) (X : Sys W → Prop) : Prop :=
  ∀ al, match m s al with
  | (Ret a, s', _) => Q a s'
  | (Trap _ _, s', _) | (NoMem, s', _) => X s'
  | _ => False
  end.

(** A call changes the world only, and no signal is added. *)
Definition later s s' : Prop := held s' = held s ∧ reads s' = reads s ∧ (signals (world s') ≤ signals (world s))%nat.

Lemma wp_ret {A} (a : A) s (Q : A → Sys W → Prop) X : Q a s → wp (mret a) s Q X.
Proof. by intros H al. Qed.
Lemma wp_bind {A B} (m : IO W A) (k : A → IO W B) s Q X :
  wp m s (λ a s', wp (k a) s' Q X) X → wp (x ← m; k x) s Q X.
Proof.
  intros H al. unfold mbind, IO_bind. specialize (H al). destruct (m s al) as [[[] s'] al']; try done. apply H.
Qed.
Lemma wp_mono {A} (m : IO W A) s (Q Q' : A → Sys W → Prop) (X X' : Sys W → Prop) :
  wp m s Q X → (∀ a s', Q a s' → Q' a s') → (∀ s', X s' → X' s') → wp m s Q' X'.
Proof. intros H HQ HX al. specialize (H al). destruct (m s al) as [[[] s'] al']; auto. Qed.
Lemma wp_stop {A} msg s (Q : A → Sys W → Prop) X : X s → wp (stop msg) s Q X.
Proof. by intros H al. Qed.
Lemma wp_lift {A} (m : M A) P s Q (X : Sys W → Prop) :
  runs m P (λ _ _, True) → (∀ a, P a → Q a s) → X s → wp (lift m) s Q X.
Proof.
  intros Hm HQ HX al. unfold lift. destruct (Hm al) as (u & _ & Ho). destruct (m al) as [[] al']; simpl in *; auto; done.
Qed.
(** Reading and writing an array within its bounds. *)
Lemma wp_rd {A} (l : list A) i x s Q (X : Sys W → Prop) : l !! i = Some x → Q x s → wp (lift (rd l i)) s Q X.
Proof. intros Hl HQ al. unfold lift, rd. by rewrite Hl. Qed.
Lemma wp_wr {A} (l : list A) i x s Q (X : Sys W → Prop) :
  (i < length l)%nat → Q (<[i:=x]> l) s → wp (lift (wr l i x)) s Q X.
Proof. intros Hl HQ al. unfold lift, wr. by rewrite decide_True. Qed.
Lemma wp_or_none {A} (m : M A) P s Q (X : Sys W → Prop) :
  runs m P no_trap → (∀ a, P a → Q (Some a) s) → Q None s → wp (or_none m) s Q X.
Proof.
  intros Hm HQ HX al. unfold or_none. destruct (Hm al) as (u & _ & Ho). destruct (m al) as [[] al']; simpl in *; auto; done.
Qed.
Lemma wp_give {A} (o : option A) s Q (X : Sys W → Prop) :
  match o with Some a => Q a s | None => X s end → wp (give o) s Q X.
Proof. intros H al. by destruct o. Qed.
Lemma wp_ask {A} (f : W → A * W) s (Q : A → Sys W → Prop) X :
  Q (fst (f (world s))) (mkSys (snd (f (world s))) (held s) (reads s)) → wp (ask f) s Q X.
Proof. intros H al. unfold ask. by destruct (f (world s)). Qed.
Lemma wp_on {A} fd o (m : origin → IO W A) s Q X :
  origin_of fd (held s) = Some o → wp (m o) s Q X → wp (on fd m) s Q X.
Proof. intros H Hm al. unfold on. rewrite H. apply Hm. Qed.
Lemma wp_obtain_answer o f s (Q : answer Z → Sys W → Prop) X :
  Q (fst (f (world s))) (mkSys (snd (f (world s))) (match fst (f (world s)) with inl fd => (fd, o) :: held s | inr _ => held s end) (reads s)) →
  wp (obtain o f) s Q X.
Proof. intros H al. unfold obtain. by destruct (f (world s)). Qed.
Lemma wp_obtain o f s (Q : answer Z → Sys W → Prop) X :
  (signals (snd (f (world s))) ≤ signals (world s))%nat →
  (∀ fd w, (signals w ≤ signals (world s))%nat → Q (inl fd) (mkSys w ((fd, o) :: held s) (reads s))) →
  (∀ e s', later s s' → Q (inr e) s') → wp (obtain o f) s Q X.
Proof.
  intros Hs Hi He al. unfold obtain. destruct (f (world s)) as [[fd|e] w]; simpl in *; [by apply Hi|by apply He].
Qed.

(** The calls. *)
Lemma wp_open m p s (Q : answer Z → Sys W → Prop) X :
  (∀ fd w, (signals w ≤ signals (world s))%nat → Q (inl fd) (mkSys w ((fd, Named m p) :: held s) (reads s))) →
  (∀ e s', later s s' → Q (inr e) s') → wp (open m p) s Q X.
Proof. apply wp_obtain, open_signals. Qed.
Lemma wp_openat d o name m s (Q : answer Z → Sys W → Prop) X : origin_of d (held s) = Some o →
  (∀ fd w, (signals w ≤ signals (world s))%nat → Q (inl fd) (mkSys w ((fd, Child o name m) :: held s) (reads s))) →
  (∀ e s', later s s' → Q (inr e) s') → wp (openat d name m) s Q X.
Proof. intros Ho H1 H2. eapply wp_on; [done|]. apply wp_obtain; [apply openat_signals|done..]. Qed.
Lemma wp_dup d o s (Q : answer Z → Sys W → Prop) X : origin_of d (held s) = Some o →
  (∀ fd w, (signals w ≤ signals (world s))%nat → Q (inl fd) (mkSys w ((fd, Copy o) :: held s) (reads s))) →
  (∀ e s', later s s' → Q (inr e) s') → wp (dup d) s Q X.
Proof. intros Ho H1 H2. eapply wp_on; [done|]. apply wp_obtain; [apply dup_signals|done..]. Qed.
Lemma wp_fstat d s (Q : answer stat → Sys W → Prop) X : is_Some (origin_of d (held s)) →
  (∀ a s', later s s' → (∀ i, a = inl i → stat_ok i) → Q a s') → wp (fstat d) s Q X.
Proof.
  intros [o Ho] H. eapply wp_on; [done|]. apply wp_ask, H; [split_and!; [done..|apply fstat_signals]|apply fstat_numbers].
Qed.
Lemma wp_fstatat d n s (Q : answer stat → Sys W → Prop) X : is_Some (origin_of d (held s)) →
  (∀ a s', later s s' → Q a s') → wp (fstatat d n) s Q X.
Proof. intros [o Ho] H. eapply wp_on; [done|]. apply wp_ask, H. split_and!; [done..|apply fstatat_signals]. Qed.
Lemma wp_readlinkat d n k s (Q : answer (list Z) → Sys W → Prop) X : is_Some (origin_of d (held s)) → 0 ≤ k →
  (∀ a s', later s s' → (∀ b, a = inl b → Zlength' b ≤ k ∧ 0 ∉ b) → Q a s') → wp (readlinkat d n k) s Q X.
Proof.
  intros [o Ho] Hk H. eapply wp_on; [done|]. apply wp_ask, H; [split_and!; [done..|apply readlinkat_signals]|].
  intros b. by apply readlinkat_bytes.
Qed.
Lemma wp_ftruncate d s (Q : option Z → Sys W → Prop) X : is_Some (origin_of d (held s)) →
  (∀ a s', later s s' → Q a s') → wp (ftruncate d) s Q X.
Proof. intros [o Ho] H. eapply wp_on; [done|]. apply wp_ask, H. split_and!; [done..|apply ftruncate_signals]. Qed.
Lemma wp_read d o k s (Q : answer (list Z) → Sys W → Prop) X : origin_of d (held s) = Some o → 0 ≤ k →
  (∀ a w, (signals w ≤ signals (world s))%nat → (a = inr EINTR → (signals w < signals (world s))%nat) →
    (∀ b, a = inl b → Zlength' b ≤ k ∧ Forall is_byte b) → Q a (mkSys w (held s) (o :: reads s))) → wp (read d k) s Q X.
Proof.
  intros Ho Hk H. eapply wp_on; [done|]. apply (wp_ask (sys_read d k) (mkSys (world s) (held s) (o :: reads s))), H.
  - apply read_signals.
  - apply read_interrupted.
  - intros b. by apply read_bytes.
Qed.
Lemma wp_write d b s (Q : answer Z → Sys W → Prop) X : is_Some (origin_of d (held s)) →
  (∀ a s', later s s' → (a = inr EINTR → (signals (world s') < signals (world s))%nat) →
    (∀ n, a = inl n → 0 ≤ n ≤ Zlength' b) → Q a s') → wp (write d b) s Q X.
Proof.
  intros [o Ho] H. eapply wp_on; [done|]. apply wp_ask, H; [split_and!; [done..|apply write_signals]|apply write_interrupted|apply write_count].
Qed.
Lemma wp_close d s (Q : option Z → Sys W → Prop) X : is_Some (origin_of d (held s)) →
  (∀ e w, (signals w ≤ signals (world s))%nat → Q e (mkSys w (remove_one d (held s)) (reads s))) → wp (close d) s Q X.
Proof.
  intros [o Ho] H. eapply wp_on; [done|]. intros al. pose proof (close_signals d (world s)).
  destruct (sys_close d (world s)); by apply H.
Qed.
End rules.

(** The newest descriptor is found, and removed, first. *)
Lemma origin_of_head fd o h : origin_of fd ((fd, o) :: h) = Some o.
Proof. simpl. by rewrite decide_True. Qed.
Lemma remove_head fd o h : remove_one fd ((fd, o) :: h) = h.
Proof. simpl. by rewrite decide_True. Qed.
