(* ===== verification/Rooted.v ===== *)
(** * Reading beneath a directory: the first part of src/src/vm/host_capabilities.c

    The errors and identities of host capabilities, and the calls that work on
    directory descriptors: the identity of a root, the read of a file beneath a
    root that no path and no symbolic link may leave, and the test whether two
    directories overlap.  The operating system is the interface of [Posix]. *)

From Stdlib Require Import ZArith Lia.
From stdpp Require Import prelude strings.
From S2P Require Import Prelude Bigint Value Numeric Render Collections HostTypes Host Posix.

#[local] Open Scope Z_scope.

Definition HC_MAX_BYTES : Z := 16 * 1024 * 1024.
Definition HC_ROOTED_PATH_MAX : Z := 4096.
Definition HC_ROOTED_DEPTH_MAX : nat := 256.
Definition HC_ROOTED_SYMLINK_MAX : nat := 40.

(** ** Values *)

Definition hc_text (s : string) : M Value := value_data V_STR (str s).

Definition hc_errno (e : Z) : string :=
  if e =? ENOENT then "not_found"
  else if (e =? EACCES) || (e =? EPERM) then "permission_denied"
  else if e =? EEXIST then "already_exists"
  else if e =? ENOTDIR then "not_directory"
  else if e =? EISDIR then "is_directory"
  else if e =? ENOTEMPTY then "not_empty"
  else if e =? ELOOP then "symlink_loop"
  else "io_error".

Definition hc_error (op : string) (code : option string) (e : Z) : M Value :=
  operation ← hc_text op;
  code ← hc_text (default (hc_errno e) code);
  native ← value_size (u64 e);
  host_variant "Error"
    (named_value V_RECORD (str "HostError") [str "operation"; str "code"; str "native_code"] [operation; code; native]).

Definition hc_string (v : Value) (k : ValueKind) : bool := is_kind v k && negb (existsb (Z.eqb 0) (bytes_of v)).

(** The numbers of a file that a [size_t] does not hold. *)
Definition large_identity (info : stat) : bool := (st_dev info >? SIZE_MAX) || (st_ino info >? SIZE_MAX).

Definition hc_identity_value (info : stat) : M Value :=
  if large_identity info then nomem
  else
    device ← value_size (st_dev info);
    inode ← value_size (st_ino info);
    named_value V_RECORD (str "FilesystemRootIdentity") [str "device"; str "inode"] [device; inode].

Section rooted.
Context {W : Type} `{!Posix W}.

Definition hc_root_identity (a0 : Value) : IO W Value :=
  if negb (hc_string a0 V_PATH) then stop "VM trap: root identity requires Path"
  else
    root ← open DirectoryMode (bytes_of a0);
    match root with
    | inr errno => lift (hc_error "fs_root_identity" None errno)
    | inl root =>
        info ← fstat root;
        _ ← close root;
        match info with
        | inr error => lift (hc_error "fs_root_identity" None error)
        | inl info =>
            if large_identity info then lift (hc_error "fs_root_identity" (Some "out_of_range") 0)
            else lift (host_variant "Ok" (hc_identity_value info))
        end
    end.

(** ** The walk *)

Notation beneath_error code e := (or_none (hc_error "fs_read_beneath" code e)).

(** [while (cursor < pending_length && pending[cursor] != '/')] *)
Fixpoint next_component (s : list Z) : list Z * list Z :=
  match s with
  | [] => ([], [])
  | b :: t => if b =? slash then ([], s) else let '(c, r) := next_component t in (b :: c, r)
  end.

(** The loop that reads a file: an error and its number, and what was read. *)
Fixpoint read_all (fuel : nat) (fd limit : Z) (data : Buffer) : IO W (option string * Z * Buffer) :=
  match fuel with
  | O => endless
  | S fuel =>
      n ← read fd 8192;
      match n with
      | inl [] => mret (None, 0, data)
      | inr errno => if errno =? EINTR then read_all fuel fd limit data else mret (None, errno, data)
      | inl chunk =>
          if Zlength' chunk >? u64 (limit - Zlength' (content data)) then mret (Some "output_limit", 0, data)
          else
            grown ← or_none (buffer_add data chunk);
            match grown with
            | None => mret (Some "out_of_memory", 0, data)
            | Some data => read_all fuel fd limit data
            end
      end
  end.

(** The variables of the walk: what is left of [pending], the path resolved so
    far with the length of each of its beginnings, the open directories (the
    innermost first), and the symbolic links expanded. *)
Record Walk := mkWalk {
  rest : list Z;
  resolved : list Z;
  prefix_lengths : list nat;
  directories : list Z;
  symlinks : nat;
}.
Definition depth (k : Walk) : nat := length (directories k).

(** The path to go on with after a symbolic link: what was resolved, the target,
    and what was left. *)
Definition expanded (resolved target rest : list Z) : list Z :=
  (if decide (resolved = []) then [] else resolved ++ [slash]) ++ target ++
  (if decide (rest = []) then [] else slash :: rest).

Fixpoint close_directories (l : list Z) : IO W unit :=
  match l with [] => mret tt | d :: l => _ ← close d; close_directories l end.
(** [while (depth > 1) close(directories[--depth])] *)
Fixpoint close_inner (l : list Z) : IO W (list Z) :=
  match l with
  | [] => mret []
  | d :: l' => match l' with [] => mret [d] | _ => _ ← close d; close_inner l' end
  end.

(** The final component is open: its contents. *)
Definition read_final (fuel : nat) (limit : Z) (root_info : stat) (opened : Z) (info : stat) : IO W (option Value) :=
  if negb (bool_decide (st_kind info = RegularKind))
  then _ ← close opened; beneath_error (Some "not_regular_file") 0
  else
    '(problem, e, data) ← read_all fuel opened limit empty_buffer;
    failed ← close opened;
    let e := match failed with Some errno => if e =? 0 then errno else e | None => e end in
    if negb (e =? 0) || bool_decide (problem ≠ None) then beneath_error problem e
    else
      or_none (host_variant "Ok"
        (identity ← hc_identity_value root_info;
         contents ← value_data V_BYTES (content data);
         named_value V_RECORD (str "FilesystemRootRead") [str "identity"; str "contents"] [identity; contents])).

(** A symbolic link: the walk starts again, or ends. *)
Definition follow_link (k : Walk) (component rest' : list Z) (d : Z) : IO W (option Value + Walk) :=
  if Nat.ltb HC_ROOTED_SYMLINK_MAX (S (symlinks k)) then r ← beneath_error None ELOOP; mret (inl r)
  else
    target ← readlinkat d component HC_ROOTED_PATH_MAX;
    match target with
    | inr e => r ← beneath_error None e; mret (inl r)
    | inl target =>
        if Zlength' target =? HC_ROOTED_PATH_MAX then r ← beneath_error (Some "out_of_range") 0; mret (inl r)
        else if bool_decide (target = []) || bool_decide (head target = Some slash)
        then r ← beneath_error (Some "invalid_argument") 0; mret (inl r)
        else
          let pending := expanded (resolved k) target rest' in
          if Zlength' pending >? HC_ROOTED_PATH_MAX then r ← beneath_error (Some "out_of_range") 0; mret (inl r)
          else
            made ← or_none alloc;
            match made with
            | None => r ← beneath_error (Some "out_of_memory") 0; mret (inl r)
            | Some _ =>
                directories ← close_inner (directories k);
                mret (inr (mkWalk pending [] (prefix_lengths k) directories (S (symlinks k))))
            end
    end.

(** A directory is open: the walk goes on in it, or ends. *)
Definition enter (k : Walk) (component rest' : list Z) (opened : Z) (info : stat) : IO W (option Value + Walk) :=
  if negb (bool_decide (st_kind info = DirectoryKind)) || Nat.eqb (depth k) HC_ROOTED_DEPTH_MAX then
    _ ← close opened;
    r ← beneath_error (Some (if Nat.eqb (depth k) HC_ROOTED_DEPTH_MAX then "out_of_range" else "not_directory")) 0;
    mret (inl r)
  else
    let next := (if decide (resolved k = []) then [] else resolved k ++ [slash]) ++ component in
    if Zlength' next >? HC_ROOTED_PATH_MAX
    then _ ← close opened; r ← beneath_error (Some "out_of_range") 0; mret (inl r)
    else
      lengths ← lift (wr (prefix_lengths k) (depth k) (length next));
      mret (inr (mkWalk rest' next lengths (opened :: directories k) (symlinks k))).

(** One component that is neither [.] nor [..]. *)
Definition visit (fuel : nat) (limit : Z) (root_info : stat) (k : Walk) (d : Z) (component rest' : list Z) :
    IO W (option Value + Walk) :=
  made ← or_none alloc;
  match made with
  | None => r ← beneath_error (Some "out_of_memory") 0; mret (inl r)
  | Some _ =>
      entry ← fstatat d component;
      match entry with
      | inr e => r ← beneath_error None e; mret (inl r)
      | inl entry =>
          if bool_decide (st_kind entry = LinkKind) then follow_link k component rest' d
          else
            let final := bool_decide (rest' = []) in
            opened ← openat d component (ComponentMode (negb final));
            match opened with
            | inr e => r ← beneath_error None e; mret (inl r)
            | inl opened =>
                info ← fstat opened;
                match info with
                | inr e => _ ← close opened; r ← beneath_error None e; mret (inl r)
                | inl info =>
                    if final then r ← read_final fuel limit root_info opened info; mret (inl r)
                    else enter k component rest' opened info
                end
            end
      end
  end.

(** [directories[depth - 1]] *)
Definition innermost (k : Walk) : IO W Z := lift (rd (directories k) 0).

(** [..]: the enclosing directory, unless it is the root. *)
Definition ascend (k : Walk) (rest' : list Z) : IO W (option Value + Walk) :=
  if Nat.eqb (depth k) 1 then r ← beneath_error (Some "invalid_argument") 0; mret (inl r)
  else
    d ← innermost k;
    _ ← close d;
    let directories := tail (directories k) in
    n ← lift (rd (prefix_lengths k) (length directories - 1));
    mret (inr (mkWalk rest' (take n (resolved k)) (prefix_lengths k) directories (symlinks k))).

(** One turn of the loops: the result, or the walk to go on with. *)
Definition walk_step (fuel : nat) (limit : Z) (root_info : stat) (k : Walk) : IO W (option Value + Walk) :=
  match skip_slashes (rest k) with
  | [] => r ← beneath_error (Some "not_regular_file") 0; mret (inl r)
  | pending =>
      let '(component, rest') := next_component pending in
      if decide (component = str ".")
      then mret (inr (mkWalk rest' (resolved k) (prefix_lengths k) (directories k) (symlinks k)))
      else if decide (component = str "..") then ascend k rest'
      else d ← innermost k; visit fuel limit root_info k d component rest'
  end.

(** The loops, with the directories that are left open. *)
Fixpoint walk (turns fuel : nat) (limit : Z) (root_info : stat) (k : Walk) : IO W (option Value * list Z) :=
  match turns with
  | O => endless
  | S turns =>
      next ← walk_step fuel limit root_info k;
      match next with
      | inl result => mret (result, directories k)
      | inr k => walk turns fuel limit root_info k
      end
  end.

(** Every turn but those of the 40 links that may be followed takes a byte of a path of at most 4096. *)
Definition walk_turns : nat := Z.to_nat (41 * 4097 + 1).

Definition hc_read_beneath (fuel : nat) (a0 a1 a2 : Value) : IO W Value :=
  if negb (hc_string a0 V_PATH && hc_string a1 V_PATH && is_kind a2 V_NAT)
  then stop "VM trap: rooted read requires Path, Path, Nat"
  else
    let path := bytes_of a1 in
    if bool_decide (path = []) || bool_decide (head path = Some slash)
    then lift (hc_error "fs_read_beneath" (Some "invalid_argument") 0)
    else
      match (if Zlength' path >? HC_ROOTED_PATH_MAX then None else value_index a2) with
      | None => lift (hc_error "fs_read_beneath" (Some "out_of_range") 0)
      | Some limit =>
          if limit >? HC_MAX_BYTES then lift (hc_error "fs_read_beneath" (Some "out_of_range") 0)
          else
            root ← open DirectoryMode (bytes_of a0);
            match root with
            | inr e => lift (hc_error "fs_read_beneath" None e)
            | inl root =>
                info ← fstat root;
                match info with
                | inr e => _ ← close root; lift (hc_error "fs_read_beneath" None e)
                | inl info =>
                    if negb (bool_decide (st_kind info = DirectoryKind))
                    then _ ← close root; lift (hc_error "fs_read_beneath" (Some "not_directory") 0)
                    else if large_identity info
                    then _ ← close root; lift (hc_error "fs_read_beneath" (Some "out_of_range") 0)
                    else
                      pending ← or_none alloc;
                      match pending with
                      | None => _ ← close root; lift (hc_error "fs_read_beneath" (Some "out_of_memory") 0)
                      | Some _ =>
                          first ← dup root;
                          match first with
                          | inr e => _ ← close root; lift (hc_error "fs_read_beneath" None e)
                          | inl first =>
                              '(result, directories) ←
                                walk walk_turns fuel limit info
                                  (mkWalk path [] (replicate HC_ROOTED_DEPTH_MAX 0%nat) [first] 0);
                              _ ← close_directories directories;
                              _ ← close root;
                              give result
                          end
                      end
                end
            end
      end.

(** ** Overlap *)

Definition same_file (i j : stat) : bool := (st_dev i =? st_dev j) && (st_ino i =? st_ino j).

(** [for (depth = 0; depth <= HC_ROOTED_DEPTH_MAX; depth++)]: whether the ancestor is found, or an error. *)
Fixpoint contains_loop (turns : nat) (ancestor_info : stat) (current : Z) : IO W (bool + Z) :=
  match turns with
  | O => _ ← close current; mret (inr EOVERFLOW)
  | S turns =>
      current_info ← fstat current;
      match current_info with
      | inr e => _ ← close current; mret (inr e)
      | inl current_info =>
          if same_file current_info ancestor_info then _ ← close current; mret (inl true)
          else
            parent ← openat current (str "..") DirectoryMode;
            match parent with
            | inr e => _ ← close current; mret (inr e)
            | inl parent =>
                parent_info ← fstat parent;
                match parent_info with
                | inr e => _ ← close parent; _ ← close current; mret (inr e)
                | inl parent_info =>
                    if same_file current_info parent_info then _ ← close parent; _ ← close current; mret (inl false)
                    else _ ← close current; contains_loop turns ancestor_info parent
                end
            end
      end
  end.

Definition hc_directory_contains (ancestor descendant : Z) : IO W (bool + Z) :=
  ancestor_info ← fstat ancestor;
  match ancestor_info with
  | inr e => mret (inr e)
  | inl ancestor_info =>
      current ← dup descendant;
      match current with
      | inr e => mret (inr e)
      | inl current => contains_loop (S HC_ROOTED_DEPTH_MAX) ancestor_info current
      end
  end.

Definition hc_directories_overlap (a0 a1 : Value) : IO W Value :=
  if negb (hc_string a0 V_PATH && hc_string a1 V_PATH) then stop "VM trap: directory overlap requires Path, Path"
  else
    left_ ← open DirectoryMode (bytes_of a0);
    match left_ with
    | inr e => lift (hc_error "fs_directories_overlap" None e)
    | inl left_ =>
        right_ ← open DirectoryMode (bytes_of a1);
        match right_ with
        | inr e => _ ← close left_; lift (hc_error "fs_directories_overlap" None e)
        | inl right_ =>
            contains ← hc_directory_contains left_ right_;
            contains ← match contains with inl false => hc_directory_contains right_ left_ | _ => mret contains end;
            _ ← close right_;
            _ ← close left_;
            match contains with
            | inr e =>
                if e =? EOVERFLOW then lift (hc_error "fs_directories_overlap" (Some "out_of_range") 0)
                else lift (hc_error "fs_directories_overlap" None e)
            | inl overlaps => lift (host_variant "Ok" (value_bool overlaps))
            end
        end
    end.
End rooted.

(** ** Values, specified *)

(** An error of a host capability: the operation and the code. *)
Definition failure_code (op code : string) (v : Value) : Prop :=
  ∃ e, v = Variant (str "Error")
    [Record_ (str "HostError") [str "operation"; str "code"; str "native_code"] [Str (text_of (str op)); Str (text_of (str code)); Nat_ e]].
Definition host_failure (op : string) (v : Value) : Prop := ∃ code, failure_code op code v.

Lemma size_spec n (P : Value → Prop) E : 0 ≤ n < 2 ^ 64 → (∀ b, wf b → to_Z b = n → P (Nat_ b)) → runs (value_size n) P E.
Proof.
  intros Hn HP. unfold value_size. eapply runs_bind; [by apply from_u64_spec|]. intros b (Wb & Hb & Sb).
  apply value_big_spec; [eapply sized_mono; [done|lia]|auto].
Qed.

Lemma copy_texts_spec l (P : list (list Z) → Prop) E : P (cstr <$> l) → runs (copy_texts l) P E.
Proof.
  revert P. induction l as [|n l IH]; intros P HP; simpl; [by mret|].
  eapply (runs_bind _ _ (λ x, x = cstr n)); [unfold copy_text; mbind runs_alloc as ? _; by mret|]. intros ? ->.
  eapply (runs_bind _ _ (λ x, x = cstr <$> l)); [by apply IH|]. intros ? ->. by mret.
Qed.

Lemma record_spec name names values (P : Value → Prop) E :
  P (Record_ (cstr name) (cstr <$> names) values) → runs (named_value V_RECORD name names values) P E.
Proof.
  intros HP. unfold named_value. mbind runs_alloc as ? _.
  eapply (runs_bind _ _ (λ n, n = cstr name)); [unfold copy_text; mbind runs_alloc as ? _; by mret|]. intros ? ->.
  mbind runs_calloc as ? _. mbind runs_calloc as ? _.
  eapply (runs_bind _ _ (λ l, l = cstr <$> names)); [by apply copy_texts_spec|]. intros ? ->. by mret.
Qed.

Lemma u64_range z : 0 ≤ u64 z < 2 ^ 64.
Proof. unfold u64. apply Z.mod_pos_bound. lia. Qed.

Lemma hc_error_code op code e (P : Value → Prop) E :
  (∀ v, failure_code op (default (hc_errno e) code) v → P v) → runs (hc_error op code e) P E.
Proof.
  intros HP. unfold hc_error, hc_text.
  eapply (runs_bind _ _ (λ v, v = Str (text_of (str op)))); [by apply value_data_spec|]. intros ? ->.
  eapply (runs_bind _ _ (λ v, v = Str (text_of (str (default (hc_errno e) code))))); [by apply value_data_spec|]. intros ? ->.
  eapply (runs_bind _ _ (λ v, ∃ b, v = Nat_ b)); [apply size_spec; [apply u64_range|eauto]|]. intros ? [b ->].
  eapply (host_variant_spec _ _ (λ x, x = Record_ _ _ _)); [by apply record_spec|]. intros ? ->. apply HP. by eexists.
Qed.
Lemma hc_error_spec op code e (P : Value → Prop) E : (∀ v, host_failure op v → P v) → runs (hc_error op code e) P E.
Proof. intros HP. apply hc_error_code. intros v Hv. apply HP. by eexists. Qed.

(** ** What is beneath a root *)

(** A name that [openat] looks up in the directory itself. *)
Definition plain_name (n : list Z) : Prop := n ≠ [] ∧ slash ∉ n ∧ 0 ∉ n ∧ n ≠ str "." ∧ n ≠ str "..".

(** Descriptors reached from a copy of the root by opening plain names, never
    through a symbolic link. *)
Inductive inside (root : origin) : origin → Prop :=
| inside_root : inside root (Copy root)
| inside_child o name b : inside root o → plain_name name → inside root (Child o name (ComponentMode b)).

Lemma next_component_spec s c r : next_component s = (c, r) →
  s = c ++ r ∧ slash ∉ c ∧ (r = [] ∨ head r = Some slash).
Proof.
  revert c r. induction s as [|b s IH]; simpl; intros c r H; [simplify_eq; split_and!; [done|apply not_elem_of_nil|by left]|].
  destruct (Z.eqb_spec b slash) as [->|Hb]; [simplify_eq; split_and!; [done|apply not_elem_of_nil|by right]|].
  destruct (next_component s) as [c' r'] eqn:Hs. simplify_eq. destruct (IH c' r eq_refl) as (-> & Hc & Hr).
  split_and!; [done| |done]. apply not_elem_of_cons. split; [congruence|done].
Qed.
Lemma skip_slashes_spec s : skip_slashes s `suffix_of` s ∧ head (skip_slashes s) ≠ Some slash.
Proof.
  induction s as [|b s [Hs Hh]]; simpl; [done|]. destruct (Z.eqb_spec b slash).
  - split; [by apply suffix_cons_r|done].
  - split; [done|simpl; congruence].
Qed.

(** ** The walk stays beneath its root *)

Section beneath.
Context {W : Type} `{!Posix W, !PosixLaws W}.
Implicit Types (s : Sys W) (k : Walk).

(** The outcome of a read. *)
Definition read_outcome (limit : Z) (v : Value) : Prop :=
  host_failure "fs_read_beneath" v ∨
  ∃ device inode bytes, v = Variant (str "Ok") [Record_ (str "FilesystemRootRead") [str "identity"; str "contents"]
    [Record_ (str "FilesystemRootIdentity") [str "device"; str "inode"] [Nat_ device; Nat_ inode]; Bytes bytes]] ∧
    Zlength' bytes ≤ limit ∧ Forall is_byte bytes.
Definition outcome_or_null (limit : Z) (r : option Value) : Prop := ∀ v, r = Some v → read_outcome limit v.

Lemma wp_beneath_error code e limit s (Q : option Value → Sys W → Prop) X :
  (∀ r, outcome_or_null limit r → Q r s) → wp (or_none (hc_error "fs_read_beneath" code e)) s Q X.
Proof.
  intros HQ. eapply wp_or_none; [apply (hc_error_spec "fs_read_beneath" code e (host_failure "fs_read_beneath")); auto| |]; [intros v Hv|]; apply HQ; [|done].
  intros ? [= <-]. by left.
Qed.

(** The same, as the result of a turn. *)
Lemma wp_turn_error code e limit s (Q : option Value + Walk → Sys W → Prop) X :
  (∀ r, outcome_or_null limit r → Q (inl r) s) →
  wp (r ← or_none (hc_error "fs_read_beneath" code e); mret (inl r)) s Q X.
Proof. intros HQ. apply wp_bind, (wp_beneath_error _ _ limit). intros r Hr. by apply wp_ret, HQ. Qed.

Lemma wp_close_head fd o h s (Q : option Z → Sys W → Prop) X : held s = (fd, o) :: h →
  (∀ e w, (signals w ≤ signals (world s))%nat → Q e (mkSys w h (reads s))) → wp (close fd) s Q X.
Proof.
  intros Hh HQ. apply wp_close; rewrite Hh, ?origin_of_head; [by eexists|]. intros e w Hw. rewrite remove_head. by apply HQ.
Qed.

Lemma wp_close_directories ds h s (Q : unit → Sys W → Prop) X : held s = ds ++ h →
  (∀ w, (signals w ≤ signals (world s))%nat → Q tt (mkSys w h (reads s))) → wp (close_directories ds.*1) s Q X.
Proof.
  revert s. induction ds as [|[d o] ds IH]; simpl; intros s Hh HQ.
  - apply wp_ret. destruct s. simpl in *. subst. by apply HQ.
  - apply wp_bind. eapply wp_close_head; [done|]. intros _ w Hw. apply IH; [done|]. intros w' Hw'. simpl in *. apply HQ. lia.
Qed.

Lemma close_inner_cons d l : l ≠ [] → close_inner (W := W) (d :: l) = (_ ← close d; close_inner l).
Proof. by destruct l. Qed.

(** All but the outermost. *)
Lemma wp_close_inner ds d o h s (Q : list Z → Sys W → Prop) X : held s = ds ++ (d, o) :: h →
  (∀ w, (signals w ≤ signals (world s))%nat → Q [d] (mkSys w ((d, o) :: h) (reads s))) →
  wp (close_inner (ds.*1 ++ [d])) s Q X.
Proof.
  revert s. induction ds as [|[d' o'] ds IH]; intros s Hh HQ.
  - apply wp_ret. destruct s. simpl in *. subst. by apply HQ.
  - rewrite fmap_cons, <-app_comm_cons, close_inner_cons by by destruct ds. apply wp_bind. eapply wp_close_head; [done|].
    intros _ w Hw. apply IH; [done|]. intros w' Hw'. simpl in *. apply HQ. lia.
Qed.

Lemma wp_read_all fuel fd o limit data h s (Q : option string * Z * Buffer → Sys W → Prop) X :
  held s = (fd, o) :: h → wf_buffer data → Forall is_byte (content data) → Zlength' (content data) ≤ limit → limit < 2 ^ 60 →
  Z.of_nat (signals (world s)) + (limit - Zlength' (content data)) + 2 ≤ Z.of_nat fuel →
  (∀ problem e data' rs w, (signals w ≤ signals (world s))%nat → Forall (eq o) rs → wf_buffer data' →
     Forall is_byte (content data') → Zlength' (content data') ≤ limit →
     Q (problem, e, data') (mkSys w ((fd, o) :: h) (rs ++ reads s))) →
  wp (read_all fuel fd limit data) s Q X.
Proof.
  revert s data. induction fuel as [|fuel IH]; intros s data Hh Hw Hb Hl Hlim Hf HQ; [unfold Zlength' in *; lia|]. simpl.
  apply wp_bind. eapply wp_read; [rewrite Hh; apply origin_of_head|lia|]. intros a w Hs Hi Hc. rewrite Hh.
  destruct a as [[|b chunk]|e].
  - apply wp_ret. by apply (HQ None 0 data [o]); auto.
  - destruct (Hc _ eq_refl) as [Hn Hbs]. unfold Zlength' in *. rewrite u64_small by lia.
    destruct (Z.gtb_spec (Z.of_nat (length (b :: chunk))) (limit - Z.of_nat (length (content data)))).
    { apply wp_ret. by apply (HQ _ 0 data [o]); auto. }
    apply wp_bind. eapply wp_or_none; [apply buffer_add_spec; [done|unfold room; lia]| |].
    + intros data' [Hw' Hc']. apply IH; simpl; try done.
      * rewrite Hc'. by apply Forall_app.
      * rewrite Hc', length_app. lia.
      * rewrite Hc', length_app. simpl length in *. lia.
      * intros problem e d rs w' Hs' Hrs Hd. simpl in *. rewrite cons_middle, app_assoc. apply HQ; [lia| |done].
        apply Forall_app. auto.
    + apply wp_ret. by apply (HQ _ 0 data [o]); auto.
  - destruct (Z.eqb_spec e EINTR) as [->|].
    + specialize (Hi eq_refl). apply IH; simpl; try done; [lia|].
      intros problem e d rs w' Hs' Hrs Hd. simpl in *. rewrite cons_middle, app_assoc. apply HQ; [lia| |done].
      apply Forall_app. auto.
    + apply wp_ret. by apply (HQ None e data [o]); auto.
Qed.

Lemma hc_identity_spec info (P : Value → Prop) E : stat_ok info → large_identity info = false →
  (∀ device inode, P (Record_ (str "FilesystemRootIdentity") [str "device"; str "inode"] [Nat_ device; Nat_ inode])) →
  runs (hc_identity_value info) P E.
Proof.
  intros [Hd Hi] Hl HP. unfold hc_identity_value. rewrite Hl. unfold large_identity, SIZE_MAX in Hl.
  apply orb_false_iff in Hl as [Hl1 Hl2].
  eapply (runs_bind _ _ (λ v, ∃ b, v = Nat_ b)); [apply size_spec; [lia|eauto]|]. intros ? [b ->].
  eapply (runs_bind _ _ (λ v, ∃ b, v = Nat_ b)); [apply size_spec; [lia|eauto]|]. intros ? [b' ->].
  apply record_spec, HP.
Qed.

Lemma wp_read_final fuel limit root_info opened info o h s (Q : option Value → Sys W → Prop) X :
  held s = (opened, o) :: h → stat_ok root_info → large_identity root_info = false → 0 ≤ limit < 2 ^ 60 →
  Z.of_nat (signals (world s)) + limit + 2 ≤ Z.of_nat fuel →
  (∀ r rs w, (signals w ≤ signals (world s))%nat → Forall (eq o) rs → outcome_or_null limit r →
     Q r (mkSys w h (rs ++ reads s))) →
  wp (read_final fuel limit root_info opened info) s Q X.
Proof.
  intros Hh Hi Hl Hlim Hf HQ. unfold read_final. destruct (bool_decide (st_kind info = RegularKind)); simpl.
  - apply wp_bind. eapply wp_read_all; [done|by right|done|unfold Zlength'; simpl; lia|lia|unfold Zlength'; simpl; lia|].
    intros problem e data rs w Hw Hrs Hwf Hb Hlen. apply wp_bind. eapply wp_close_head; [done|]. simpl. intros failed w' Hw'.
    destruct (negb _ || _); [apply (wp_beneath_error _ _ limit); intros r Hr; apply HQ; [lia|done..]|].
    eapply (wp_or_none _ (read_outcome limit)).
    + eapply (host_ok_spec _ (λ x, ∃ d i, x = Record_ (str "FilesystemRootRead") [str "identity"; str "contents"]
        [Record_ (str "FilesystemRootIdentity") [str "device"; str "inode"] [Nat_ d; Nat_ i]; Bytes (content data)])).
      * eapply (runs_bind _ _ (λ v, ∃ d i, v = Record_ (str "FilesystemRootIdentity") [str "device"; str "inode"] [Nat_ d; Nat_ i]));
          [apply hc_identity_spec; eauto|]. intros ? (d & i & ->).
        eapply (runs_bind _ _ (λ v, v = Bytes (content data))); [by apply value_data_spec|]. intros ? ->.
        apply record_spec. eauto.
      * intros ? (d & i & ->). right. eauto 10.
    + intros v Hv. apply HQ; [lia|done|]. by intros ? [= <-].
    + apply HQ; [lia|done|]. by intros ? [=].
  - apply wp_bind. eapply wp_close_head; [done|]. intros _ w Hw. apply (wp_beneath_error _ _ limit). intros r Hr.
    by apply (HQ r []).
Qed.

(** *** The turns of a walk *)

Section turns.
Context (fuel : nat) (limit : Z) (root_info : stat) (root : Z) (ro : origin) (h : list (Z * origin)) (before : list origin).
Context (n : nat).
Hypothesis (info_ok : stat_ok root_info) (info_small : large_identity root_info = false).
Hypothesis (limit_range : 0 ≤ limit < 2 ^ 60) (fuel_enough : Z.of_nat n + limit + 2 ≤ Z.of_nat fuel).

(** The descriptors that are open are the directories of the walk and the root;
    everything open or read is beneath the root. *)
Definition beneath_root (dirs : list Z) s : Prop :=
  ∃ ds rs, held s = ds ++ (root, ro) :: h ∧ ds.*1 = dirs ∧ Forall (inside ro) ds.*2 ∧
    reads s = rs ++ before ∧ Forall (inside ro) rs ∧ (signals (world s) ≤ n)%nat.

(** The arrays are used within their bounds. *)
Record walk_ok k : Prop := {
  ok_depth : (1 ≤ depth k ≤ HC_ROOTED_DEPTH_MAX)%nat;
  ok_lengths : length (prefix_lengths k) = HC_ROOTED_DEPTH_MAX;
  ok_resolved : Zlength' (resolved k) ≤ HC_ROOTED_PATH_MAX ∧ 0 ∉ resolved k;
  ok_rest : Zlength' (rest k) ≤ HC_ROOTED_PATH_MAX ∧ 0 ∉ rest k;
  ok_symlinks : (symlinks k ≤ HC_ROOTED_SYMLINK_MAX)%nat;
}.

(** The turns that are left. *)
Definition turns_left k : Z := (40 - Z.of_nat (symlinks k)) * 4097 + Zlength' (rest k) + 1.

(** What a turn leaves behind. *)
Definition turned k (next : option Value + Walk) s : Prop :=
  match next with
  | inl r => outcome_or_null limit r ∧ beneath_root (directories k) s
  | inr k' => walk_ok k' ∧ beneath_root (directories k') s ∧ turns_left k' < turns_left k
  end.

Lemma beneath_later dirs s s' : beneath_root dirs s → later s s' → beneath_root dirs s'.
Proof.
  intros (ds & rs & Hh & Hd & Hi & Hr & Hrs & Hn) (Eh & Er & En). exists ds, rs. rewrite Eh, Er. split_and!; try done. lia.
Qed.
(** A descriptor beneath the root is opened, and closed again. *)
Lemma beneath_push dirs fd o rs s w h' : beneath_root dirs s → held s = h' → Forall (inside ro) rs →
  (signals w ≤ signals (world s))%nat → inside ro o →
  beneath_root (fd :: dirs) (mkSys w ((fd, o) :: h') (rs ++ reads s)).
Proof.
  intros (ds & rs' & Hh & Hd & Hi & Hr & Hrs & Hn) <- Hrs' Hw Ho. exists ((fd, o) :: ds), (rs ++ rs'). simpl.
  rewrite Hh, Hr, app_assoc. split_and!; try done; [by f_equal|by constructor|by apply Forall_app|lia].
Qed.
Lemma beneath_read dirs rs s w : beneath_root dirs s → Forall (inside ro) rs → (signals w ≤ signals (world s))%nat →
  beneath_root dirs (mkSys w (held s) (rs ++ reads s)).
Proof.
  intros (ds & rs' & Hh & Hd & Hi & Hr & Hrs & Hn) Hrs' Hw. exists ds, (rs ++ rs'). simpl.
  rewrite Hr, app_assoc. split_and!; try done; [by apply Forall_app|lia].
Qed.
Lemma beneath_innermost d dirs s : beneath_root (d :: dirs) s → ∃ o, origin_of d (held s) = Some o ∧ inside ro o.
Proof.
  intros ([|[d' o] ds] & rs & Hh & Hd & Hi & _); [done|]. simplify_eq/=. exists o. rewrite Hh. simpl. rewrite decide_True by done.
  inversion Hi; subst. done.
Qed.
Lemma wp_close_innermost d dirs s (Q : option Z → Sys W → Prop) X : beneath_root (d :: dirs) s →
  (∀ e s', beneath_root dirs s' → Q e s') → wp (close d) s Q X.
Proof.
  intros ([|[d' o] ds] & rs & Hh & Hd & Hi & Hr & Hrs & Hn) HQ; simplify_eq/=. eapply wp_close_head; [done|]. intros e w Hw.
  apply HQ. inversion_clear Hi. exists ds, rs. simpl. split_and!; try done. lia.
Qed.

Lemma wp_follow_link k component rest' d s X : walk_ok k → beneath_root (directories k) s →
  is_Some (origin_of d (held s)) → 0 ∉ rest' →
  wp (follow_link k component rest' d) s (turned k) X.
Proof.
  intros Hk Hs Hd Hz. unfold follow_link. destruct (Nat.ltb_spec HC_ROOTED_SYMLINK_MAX (S (symlinks k))) as [|Hl];
    [by apply (wp_turn_error _ _ limit)|].
  apply wp_bind, wp_readlinkat; [done..|]. intros a s1 Hs1 Ha. pose proof (beneath_later _ _ _ Hs Hs1) as B1.
  destruct a as [target|e]; [|by apply (wp_turn_error _ _ limit)]. destruct (Ha _ eq_refl) as [Ht Hnt].
  destruct (Zlength' target =? HC_ROOTED_PATH_MAX); [by apply (wp_turn_error _ _ limit)|].
  destruct (bool_decide (target = []) || bool_decide (head target = Some slash)); [by apply (wp_turn_error _ _ limit)|].
  destruct (Z.gtb_spec (Zlength' (expanded (resolved k) target rest')) HC_ROOTED_PATH_MAX) as [|Hx]; [by apply (wp_turn_error _ _ limit)|].
  apply wp_bind. eapply (wp_or_none _ (λ _, True)); [apply runs_alloc|intros _ _|by apply (wp_turn_error _ _ limit)].
  destruct Hk as [Hdep Hlen Hres Hrest Hsym]. destruct B1 as (ds & rs & Hh & Hds & Hi & Hr & Hrs & Hn).
  destruct (exists_last (l := ds)) as (ds' & [d0 o0] & ->); [intros ->; unfold depth in Hdep; rewrite <-Hds in Hdep; simpl in Hdep; lia|].
  rewrite <-app_assoc in Hh. simpl in Hh. rewrite fmap_app in Hds. rewrite fmap_app in Hi. simpl in Hds, Hi. apply Forall_app in Hi as [_ Hi].
  apply wp_bind. rewrite <-Hds. eapply wp_close_inner; [done|]. intros w Hw. apply wp_ret. split_and!; simpl.
  - split; simpl; try done; [unfold depth; simpl; lia|split; [done|apply not_elem_of_nil]|split; [done|]].
    unfold expanded. rewrite !elem_of_app. intros [H|[H|H]]; [|done|].
    + destruct (decide (resolved k = [])); [by apply not_elem_of_nil in H|]. apply elem_of_app in H as [H|H]; [by apply Hres|].
      apply list_elem_of_singleton in H. done.
    + destruct (decide (rest' = [])); [by apply not_elem_of_nil in H|]. apply elem_of_cons in H as [H|H]; done.
  - exists [(d0, o0)], rs. simpl. split_and!; try done. lia.
  - unfold turns_left. simpl. unfold HC_ROOTED_PATH_MAX, HC_ROOTED_SYMLINK_MAX, Zlength' in *. lia.
Qed.

Lemma turned_error k r s : outcome_or_null limit r → beneath_root (directories k) s → turned k (inl r) s.
Proof. done. Qed.

Lemma wp_enter k component rest' opened info s X : walk_ok k → beneath_root (opened :: directories k) s →
  plain_name component → 0 ∉ rest' → Zlength' rest' < Zlength' (rest k) →
  wp (enter k component rest' opened info) s (turned k) X.
Proof.
  intros Hk Hs (_ & _ & Hc & _) Hz Hlt. unfold enter.
  assert (∀ code e, wp (_ ← close opened; r ← or_none (hc_error "fs_read_beneath" code e); mret (inl r)) s (turned k) X) as Herr.
  { intros code e. apply wp_bind. eapply wp_close_innermost; [done|]. intros _ s' Hs'. by apply (wp_turn_error _ _ limit). }
  destruct (negb _ || _) eqn:Hg; [apply Herr|]. apply orb_false_iff in Hg as [_ Hg%Nat.eqb_neq].
  destruct (Z.gtb_spec (Zlength' ((if decide (resolved k = []) then [] else resolved k ++ [slash]) ++ component)) HC_ROOTED_PATH_MAX) as [|Hx];
    [apply Herr|].
  destruct Hk as [Hdep Hlen Hres Hrest Hsym].
  apply wp_bind, wp_wr; [unfold depth in *; lia|]. apply wp_ret.
  split_and!; [|done|unfold turns_left; simpl; lia]. split; simpl; try done.
  - unfold depth in *. simpl. lia.
  - by rewrite length_insert.
  - split; [done|]. rewrite elem_of_app. intros [H|H]; [|done]. destruct (decide (resolved k = [])); [by apply not_elem_of_nil in H|].
    apply elem_of_app in H as [H|H]; [by apply Hres|by apply list_elem_of_singleton in H].
  - split; [lia|done].
Qed.

Lemma wp_visit k d dirs component rest' s X : walk_ok k → beneath_root (directories k) s → directories k = d :: dirs →
  plain_name component → 0 ∉ rest' → Zlength' rest' < Zlength' (rest k) →
  wp (visit fuel limit root_info k d component rest') s (turned k) X.
Proof.
  intros Hk Hs Hd Hc Hz Hlt. unfold visit. rewrite Hd in Hs.
  apply wp_bind. eapply (wp_or_none _ (λ _, True)); [apply runs_alloc|intros _ _|apply (wp_turn_error _ _ limit); intros r Hr; by rewrite <-Hd in Hs].
  destruct (beneath_innermost _ _ _ Hs) as (o & Ho & Hin).
  apply wp_bind, wp_fstatat; [by eexists|]. intros entry s1 L1. pose proof (beneath_later _ _ _ Hs L1) as B1.
  destruct entry as [entry|e]; [|apply (wp_turn_error _ _ limit); intros r Hr; by rewrite <-Hd in B1].
  destruct (beneath_innermost _ _ _ B1) as (o1 & Ho1 & Hin1).
  destruct (bool_decide (st_kind entry = LinkKind)); [apply wp_follow_link; rewrite ?Hd; try done; by eexists|].
  apply wp_bind. eapply wp_openat; [done| |intros e s2 L2; pose proof (beneath_later _ _ _ B1 L2) as B2;
    apply (wp_turn_error _ _ limit); intros r Hr; by rewrite <-Hd in B2].
  intros fd w Hw.
  assert (beneath_root (fd :: d :: dirs) (mkSys w ((fd, Child o1 component (ComponentMode (negb (bool_decide (rest' = []))))) :: held s1) (reads s1))) as B2.
  { apply (beneath_push _ _ _ []); try done. by constructor. }
  apply wp_bind, wp_fstat; [simpl; rewrite decide_True by done; by eexists|]. intros info s2 L2 Hinfo.
  pose proof (beneath_later _ _ _ B2 L2) as B3. destruct info as [info|e].
  - destruct (bool_decide (rest' = [])); [|apply wp_enter; try done; by rewrite Hd].
    destruct L2 as (E1 & E2 & E3). simpl in *. apply wp_bind. eapply wp_read_final; try done.
    { destruct Hs as (?&?&?&?&?&?&?&?), L1 as (?&?&?). lia. }
    intros r rs w' Hw' Hrs Hr. apply wp_ret. split; [done|]. rewrite Hd, E2. apply beneath_read; [done| |lia].
    eapply Forall_impl; [done|]. intros ? <-. by constructor.
  - apply wp_bind. eapply wp_close_innermost; [done|]. intros _ s' Hs'. apply (wp_turn_error _ _ limit). intros r Hr. by rewrite <-Hd in Hs'.
Qed.

Lemma wp_ascend k rest' s X : walk_ok k → beneath_root (directories k) s → 0 ∉ rest' →
  Zlength' rest' < Zlength' (rest k) → wp (ascend k rest') s (turned k) X.
Proof.
  intros Hk Hs Hz Hlt. unfold ascend. destruct (Nat.eqb_spec (depth k) 1); [by apply (wp_turn_error _ _ limit)|].
  destruct Hk as [Hdep Hlen Hres Hrest Hsym]. unfold depth, innermost in *.
  destruct (directories k) as [|d dirs] eqn:Hd; [simpl in *; lia|].
  apply wp_bind. eapply wp_rd; [done|]. apply wp_bind. eapply wp_close_innermost; [done|]. intros _ s' Hs'. simpl.
  destruct (lookup_lt_is_Some_2 (prefix_lengths k) (length dirs - 1)) as [m Hm]; [simpl in *; lia|].
  apply wp_bind. eapply wp_rd; [done|]. apply wp_ret. split_and!; [|done|unfold turns_left; simpl; lia].
  split; simpl; try done.
  - unfold depth. simpl in *. lia.
  - split; [unfold Zlength' in *; rewrite length_take; lia|]. intros Hin. apply Hres. by apply (subseteq_take m (resolved k)).
  - split; [lia|done].
Qed.

Lemma wp_walk_step k s X : walk_ok k → beneath_root (directories k) s →
  wp (walk_step fuel limit root_info k) s (turned k) X.
Proof.
  intros Hk Hs. unfold walk_step. destruct (skip_slashes_spec (rest k)) as [[pre Hpre] Hhead].
  destruct (skip_slashes (rest k)) as [|b pending] eqn:Hp; [by apply (wp_turn_error _ _ limit)|].
  destruct (next_component (b :: pending)) as [component rest'] eqn:Hn.
  destruct (next_component_spec _ _ _ Hn) as (Heq & Hslash & Hr).
  assert (component ≠ []) as Hne.
  { intros ->. simpl in Heq. subst rest'. destruct Hr as [|Hr]; [done|]. by apply Hhead. }
  assert (Zlength' rest' < Zlength' (rest k)) as Hlt.
  { unfold Zlength'. rewrite Hpre, Heq, !length_app. destruct component; [done|]. simpl. lia. }
  assert (0 ∉ component ∧ 0 ∉ rest') as [Hz1 Hz2].
  { destruct (ok_rest _ Hk) as [_ Hz]. rewrite Hpre, Heq, !not_elem_of_app in Hz. tauto. }
  destruct (decide (component = str ".")) as [|H1].
  { apply wp_ret. destruct Hk as [Hdep Hlen Hres Hrest Hsym]. split_and!; [|done|unfold turns_left; simpl; lia].
    split; simpl; try done. split; [lia|done]. }
  destruct (decide (component = str "..")) as [|H2]; [by apply wp_ascend|].
  unfold innermost. destruct (directories k) as [|d dirs] eqn:Hd; [pose proof (ok_depth _ Hk); unfold depth in *; rewrite Hd in *; simpl in *; lia|].
  apply wp_bind. eapply wp_rd; [done|]. rewrite <-Hd in Hs. by eapply wp_visit.
Qed.

Lemma wp_walk turns k s X (Q : option Value * list Z → Sys W → Prop) : walk_ok k → beneath_root (directories k) s →
  turns_left k ≤ Z.of_nat turns →
  (∀ r dirs s', outcome_or_null limit r → beneath_root dirs s' → Q (r, dirs) s') →
  wp (walk turns fuel limit root_info k) s Q X.
Proof.
  revert k s. induction turns as [|turns IH]; intros k s Hk Hs Ht HQ.
  { pose proof (ok_symlinks _ Hk). unfold turns_left, HC_ROOTED_SYMLINK_MAX, Zlength' in *. lia. }
  simpl. apply wp_bind. eapply wp_mono; [by apply (wp_walk_step k s X)| |done].
  intros [r|k'] s' Hturn; simpl in Hturn.
  - apply wp_ret. destruct Hturn. by apply HQ.
  - destruct Hturn as (Hk' & Hs' & Hlt). apply IH; try done. lia.
Qed.
End turns.

(** ** The calls *)

(** An error of a capability, or a payload. *)
Definition result_of (op : string) (P : Value → Prop) (v : Value) : Prop :=
  host_failure op v ∨ ∃ x, v = Variant (str "Ok") [x] ∧ P x.

(** What a call leaves: its descriptors closed, no signal added. *)
Definition left_clean s s' : Prop := held s' = held s ∧ (signals (world s') ≤ signals (world s))%nat.

Lemma walk_turns_value : Z.of_nat walk_turns = 41 * 4097 + 1.
Proof. unfold walk_turns. by rewrite Z2Nat.id. Qed.
#[local] Opaque walk_turns.

Lemma wp_fail op code e s (Q : Value → Sys W → Prop) (X : Sys W → Prop) :
  (∀ v, host_failure op v → Q v s) → X s → wp (lift (hc_error op code e)) s Q X.
Proof. intros HQ HX. eapply (wp_lift _ (host_failure op)); [apply hc_error_spec; auto|done|done]. Qed.

(** The limit of a read: at most 16 MiB. *)
Definition read_limit (a2 : Value) : Z := match value_index a2 with Some l => Z.min l HC_MAX_BYTES | None => 0 end.

Lemma index_nonneg v l : value_index v = Some l → 0 ≤ l.
Proof.
  assert (∀ m z, fits_size_loop m = Some z → 0 ≤ z) as Hn.
  { intros [|x m] z; simpl; intros H; [by simplify_eq|]. repeat case_match; simplify_eq. apply u64_range. }
  unfold value_index, pn_big_fits_size. intros H. repeat case_match; simplify_eq. eauto.
Qed.

(** Everything a read reads is beneath its root, its descriptors are closed, and
    its result is an error or at most as many bytes as were asked for. *)
Definition read_contained (a0 a2 : Value) s (v : Value) s' : Prop :=
  left_clean s s' ∧
  (∃ rs, reads s' = rs ++ reads s ∧ Forall (inside (Named DirectoryMode (bytes_of a0))) rs) ∧
  read_outcome (read_limit a2) v.

Lemma failed_contained a0 a2 s v s' : left_clean s s' → reads s' = reads s → host_failure "fs_read_beneath" v →
  read_contained a0 a2 s v s'.
Proof. intros Hc Hr Hv. split_and!; [done|exists []; by rewrite Hr|by left]. Qed.

Lemma wp_read_beneath fuel a0 a1 a2 s :
  Z.of_nat (signals (world s)) + HC_MAX_BYTES + 2 ≤ Z.of_nat fuel →
  wp (hc_read_beneath fuel a0 a1 a2) s (read_contained a0 a2 s) (left_clean s).
Proof.
  intros Hf. unfold hc_read_beneath.
  assert (∀ code e s', left_clean s s' → reads s' = reads s →
    wp (lift (hc_error "fs_read_beneath" code e)) s' (read_contained a0 a2 s) (left_clean s)) as Herr.
  { intros code e s' Hs' Hr. apply wp_fail; [|done]. intros v Hv. by apply failed_contained. }
  assert (∀ code e root o s1, held s1 = (root, o) :: held s → reads s1 = reads s → (signals (world s1) ≤ signals (world s))%nat →
    wp (_ ← close root; lift (hc_error "fs_read_beneath" code e)) s1 (read_contained a0 a2 s) (left_clean s)) as Hcl.
  { intros code e root o s1 Hh Hr Hs1. apply wp_bind. eapply wp_close_head; [done|]. intros _ w Hw.
    apply Herr; [split; simpl; [done|lia]|done]. }
  destruct (negb _) eqn:Hargs; [by apply wp_stop|]. apply negb_false_iff, andb_true_iff in Hargs as [Hargs _].
  apply andb_true_iff in Hargs as [_ Hpath]. apply andb_true_iff in Hpath as [_ Hpath%negb_true_iff].
  destruct (bool_decide _ || _) eqn:Hbad; [by apply Herr|]. apply orb_false_iff in Hbad as [Hne _].
  destruct (Z.gtb_spec (Zlength' (bytes_of a1)) HC_ROOTED_PATH_MAX) as [|Hlen]; [by apply Herr|].
  destruct (value_index a2) as [limit|] eqn:Hl; [|by apply Herr].
  destruct (Z.gtb_spec limit HC_MAX_BYTES) as [|Hlim]; [by apply Herr|].
  pose proof (index_nonneg _ _ Hl) as Hnn.
  assert (read_limit a2 = limit) as Hrl by (unfold read_limit; rewrite Hl; lia).
  apply wp_bind, wp_open; [|intros e s' (? & ? & ?); by apply Herr]. intros root w Hw.
  apply wp_bind, wp_fstat; [simpl; rewrite decide_True by done; by eexists|]. intros info s1 (H1 & R1 & S1) Hinfo. simpl in *.
  destruct info as [info|e]; [|eapply Hcl; [done|done|lia]]. specialize (Hinfo _ eq_refl).
  destruct (negb _); [eapply Hcl; [done|done|lia]|].
  destruct (large_identity info) eqn:Hsmall; [eapply Hcl; [done|done|lia]|].
  apply wp_bind. eapply (wp_or_none _ (λ _, True)); [apply runs_alloc|intros _ _|eapply Hcl; [done|done|lia]].
  apply wp_bind. eapply wp_dup; [rewrite H1; simpl; by rewrite decide_True| |].
  2: { intros e s2 (H2 & R2 & S2). eapply Hcl; [by rewrite H2|congruence|lia]. }
  intros first w' Hw'. rewrite H1, R1.
  apply wp_bind. eapply (wp_walk fuel limit info root (Named DirectoryMode (bytes_of a0)) (held s) (reads s) (signals (world s))); [exact Hinfo|exact Hsmall|..].
  - unfold HC_MAX_BYTES in *. lia.
  - lia.
  - split; simpl; try done; [unfold depth, HC_ROOTED_DEPTH_MAX; simpl; lia|split; [done|apply not_elem_of_nil]|split; [done|by apply nul_free]|unfold HC_ROOTED_SYMLINK_MAX; lia].
  - exists [(first, Copy (Named DirectoryMode (bytes_of a0)))], []. simpl. split_and!; try done; [|lia].
    repeat constructor.
  - rewrite walk_turns_value. unfold turns_left. cbn [symlinks rest]. unfold HC_ROOTED_PATH_MAX in *. lia.
  - intros r dirs s3 Hr (ds & rs & H3 & Hd & Hi & R3 & Hrs & S3). rewrite <-Hd.
    apply wp_bind. eapply wp_close_directories; [done|]. intros w4 Hw4. apply wp_bind. eapply wp_close_head; [done|]. intros _ w5 Hw5.
    simpl in *. apply wp_give. destruct r as [v|].
    + split_and!; [split; simpl; [done|lia]|by exists rs|]. rewrite Hrl. by apply Hr.
    + split; simpl; [done|lia].
Qed.

Definition root_identity (x : Value) : Prop :=
  ∃ device inode, x = Record_ (str "FilesystemRootIdentity") [str "device"; str "inode"] [Nat_ device; Nat_ inode].

Lemma wp_root_identity a0 s :
  wp (hc_root_identity a0) s (λ v s', left_clean s s' ∧ result_of "fs_root_identity" root_identity v) (left_clean s).
Proof.
  unfold hc_root_identity. destruct (negb _); [by apply wp_stop|].
  assert (∀ code e s', left_clean s s' →
    wp (lift (hc_error "fs_root_identity" code e)) s' (λ v s', left_clean s s' ∧ result_of "fs_root_identity" root_identity v) (left_clean s)) as Herr
    by (intros; apply wp_fail; [intros; split; [done|by left]|done]).
  apply wp_bind, wp_open; [|intros e s' (? & ? & ?); by apply Herr]. intros root w Hw.
  apply wp_bind, wp_fstat; [simpl; rewrite decide_True by done; by eexists|]. intros info s1 (H1 & R1 & S1) Hinfo. simpl in *.
  apply wp_bind. eapply wp_close_head; [done|]. intros _ w2 Hw2.
  assert (left_clean s (mkSys w2 (held s) (reads s1))) as Hclean by (split; simpl; [done|lia]).
  destruct info as [info|e]; [|by apply Herr]. destruct (large_identity info) eqn:Hl; [by apply Herr|].
  eapply (wp_lift _ (result_of "fs_root_identity" root_identity)); [|by intros v Hv|done].
  eapply (host_ok_spec _ root_identity); [|intros x Hx; right; eauto]. apply hc_identity_spec; [auto|done|]. intros d i. by exists d, i.
Qed.

(** The descriptors are those of [h] again. *)
Definition back_to (h : list (Z * origin)) (n : nat) s : Prop := held s = h ∧ (signals (world s) ≤ n)%nat.

Lemma remove_second fd o fd' o' h : ∃ o'', remove_one fd' ((fd, o) :: (fd', o') :: h) = (fd, o'') :: h.
Proof. simpl. destruct (decide (fd = fd')) as [->|]; [by exists o'|]. rewrite decide_True by done. by exists o. Qed.
Lemma held_second fd o fd' o' h : is_Some (origin_of fd' ((fd, o) :: (fd', o') :: h)).
Proof. simpl. destruct (decide _); [by eexists|]. rewrite decide_True by done. by eexists. Qed.

Lemma wp_contains_loop turns info current o h n s (X : Sys W → Prop) : held s = (current, o) :: h →
  (signals (world s) ≤ n)%nat → wp (contains_loop turns info current) s (λ _, back_to h n) X.
Proof.
  revert current o s. induction turns as [|turns IH]; intros current o s Hh Hn; simpl.
  { apply wp_bind. eapply wp_close_head; [done|]. intros _ w Hw. apply wp_ret. split; simpl; [done|lia]. }
  assert (∀ x (s1 : Sys W) o1, held s1 = (current, o1) :: h → (signals (world s1) ≤ n)%nat →
    wp (_ ← close current; mret x) s1 (λ _ : bool + Z, back_to h n) X) as Hend.
  { intros x s1 o1 H1 N1. apply wp_bind. eapply wp_close_head; [done|]. intros _ w Hw. apply wp_ret. split; simpl; [done|lia]. }
  assert (∀ x parent o1 (s1 : Sys W), held s1 = (parent, o1) :: (current, o) :: h → (signals (world s1) ≤ n)%nat →
    wp (_ ← close parent; _ ← close current; mret x) s1 (λ _ : bool + Z, back_to h n) X) as Hend2.
  { intros x parent o1 s1 H1 N1. apply wp_bind. eapply wp_close_head; [done|]. intros _ w Hw.
    eapply Hend; [done|simpl; lia]. }
  apply wp_bind, wp_fstat; [rewrite Hh, origin_of_head; by eexists|]. intros ci s1 (H1 & _ & N1) _. rewrite Hh in H1.
  destruct ci as [ci|e]; [|eapply Hend; [done|lia]]. destruct (same_file ci info); [eapply Hend; [done|lia]|].
  apply wp_bind. eapply wp_openat; [rewrite H1; apply origin_of_head| |intros e s2 (H2 & _ & N2); eapply Hend; [by rewrite H2|lia]].
  intros parent w Hw. rewrite H1. apply wp_bind, wp_fstat; [simpl; rewrite decide_True by done; by eexists|].
  intros pi s2 (H2 & _ & N2) _. simpl in H2, N2. destruct pi as [pi|e]; [|eapply Hend2; [done|lia]].
  destruct (same_file ci pi); [eapply Hend2; [done|lia]|].
  apply wp_bind, wp_close; [rewrite H2; apply held_second|]. intros _ w3 Hw3. rewrite H2.
  edestruct remove_second as [o'' ->]. eapply IH; [done|simpl; lia].
Qed.

Lemma wp_contains ancestor descendant h n s (X : Sys W → Prop) : held s = h → (signals (world s) ≤ n)%nat →
  is_Some (origin_of ancestor h) → is_Some (origin_of descendant h) →
  wp (hc_directory_contains ancestor descendant) s (λ _, back_to h n) X.
Proof.
  intros Hh Hn Ha [o Hd]. unfold hc_directory_contains. apply wp_bind, wp_fstat; [by rewrite Hh|].
  intros i s1 (H1 & _ & N1) _. destruct i as [i|e]; [|apply wp_ret; split; [congruence|lia]].
  apply wp_bind. eapply wp_dup; [rewrite H1, Hh; done| |intros e s2 (H2 & _ & N2); apply wp_ret; split; [congruence|lia]].
  intros current w Hw. rewrite H1, Hh. eapply wp_contains_loop; [done|simpl; lia].
Qed.

Lemma wp_directories_overlap a0 a1 s : 
  wp (hc_directories_overlap a0 a1) s
    (λ v s', left_clean s s' ∧ result_of "fs_directories_overlap" (λ x, ∃ b, x = Bool_ b) v) (left_clean s).
Proof.
  unfold hc_directories_overlap. destruct (negb _); [by apply wp_stop|].
  assert (∀ code e s', left_clean s s' → wp (lift (hc_error "fs_directories_overlap" code e)) s'
    (λ v s', left_clean s s' ∧ result_of "fs_directories_overlap" (λ x, ∃ b, x = Bool_ b) v) (left_clean s)) as Herr
    by (intros; apply wp_fail; [intros; split; [done|by left]|done]).
  apply wp_bind, wp_open; [|intros e s' (? & ? & ?); by apply Herr]. intros l w Hw.
  apply wp_bind, wp_open; [|intros e s' (H' & ? & N'); apply wp_bind; eapply wp_close_head; [done|]; intros _ w' Hw'; apply Herr; split; simpl in *; [done|lia]].
  intros r w' Hw'. simpl in *. apply wp_bind.
  eapply wp_mono; [eapply (wp_contains l r _ (signals (world s)))|intros c s2 [H2 N2]|done].
  1: done. 1: simpl; lia. 1: apply held_second. 1: simpl; rewrite decide_True by done; by eexists.
  apply wp_bind. eapply (wp_mono _ _ (λ _, back_to ((r, Named DirectoryMode (bytes_of a1)) :: (l, Named DirectoryMode (bytes_of a0)) :: held s) (signals (world s)))); [|intros c' s3 [H3 N3]|done].
  { destruct c as [[]|]; try (by apply wp_ret). eapply (wp_contains r l); [done..| |apply held_second]. rewrite origin_of_head. by eexists. }
  apply wp_bind. eapply wp_close_head; [done|]. intros _ w4 Hw4. apply wp_bind. eapply wp_close_head; [done|]. intros _ w5 Hw5. simpl in *.
  assert (left_clean s (mkSys w5 (held s) (reads s3))) as Hclean by (split; simpl; [done|lia]).
  destruct c' as [b|e]; [|destruct (e =? EOVERFLOW); by apply Herr].
  eapply (wp_lift _ (result_of "fs_directories_overlap" (λ x, ∃ b, x = Bool_ b))); [|by intros v Hv|done].
  eapply (host_ok_spec _ (λ x, ∃ b, x = Bool_ b)); [|intros x Hx; right; eauto]. unfold value_bool. mbind runs_alloc as ? _. mret. eauto.
Qed.
End beneath.

(** ** The theorem *)

(** C13: for every operating system and every request, a read beneath a directory
    returns; it never goes outside its arrays nor uses a descriptor that is not
    open, and leaves none open; everything it reads was reached from a copy of the
    root by opening plain names without following links; and its result is an
    error or at most as many bytes as the request allows. *)
Theorem read_beneath_contained {W : Type} `{!Posix W, !PosixLaws W} fuel a0 a1 a2 (s : Sys W) al :
  Z.of_nat (signals (world s)) + HC_MAX_BYTES + 2 ≤ Z.of_nat fuel →
  match hc_read_beneath fuel a0 a1 a2 s al with
  | (Ret v, s', _) =>
      held s' = held s ∧ read_outcome (read_limit a2) v ∧
      ∃ rs, reads s' = rs ++ reads s ∧ Forall (inside (Named DirectoryMode (bytes_of a0))) rs
  | (Trap _ _, s', _) | (NoMem, s', _) => held s' = held s
  | (Undef, _, _) | (Diverge, _, _) => False
  end.
Proof.
  intros Hf. pose proof (wp_read_beneath fuel a0 a1 a2 s Hf al) as Hw.
  destruct (hc_read_beneath fuel a0 a1 a2 s al) as [[[v|k m| | |] s'] al']; try done; [|by destruct Hw..].
  destruct Hw as ([Hh _] & Hr & Ho). done.
Qed.

(** A system with one file, beneath every directory: the next descriptor, and
    whether the file was read. *)
#[local] Instance one_file : Posix (Z * bool) := {
  sys_open _ _ w := (inl (fst w), (fst w + 1, snd w));
  sys_openat _ _ _ w := (inl (fst w), (fst w + 1, snd w));
  sys_dup _ w := (inl (fst w), (fst w + 1, snd w));
  sys_fstat d w := (inl (mkStat (if d <? 5 then DirectoryKind else RegularKind) 1 2 0), w);
  sys_fstatat _ _ w := (inl (mkStat RegularKind 1 3 2), w);
  sys_lstat _ w := (inr ENOENT, w);
  sys_readlinkat _ _ _ w := (inr ENOENT, w);
  sys_read _ k w := (inl (if snd w then [] else take (Z.to_nat k) [104; 105]), (fst w, true));
  sys_write _ _ w := (inr EIO, w);
  sys_ftruncate _ w := (None, w);
  sys_close _ w := (None, w);
}.
#[local] Instance one_file_laws : PosixLaws (Z * bool).
Proof.
  refine {| signals := λ _, 0%nat |}; try (intros; apply le_n); try done.
  - by intros d w i [= <-].
  - intros d k [fd b] l Hk [= <-]. destruct b; [by split|]. split; [unfold Zlength'; rewrite length_take; lia|].
    apply Forall_take. by repeat constructor.
Defined.

Example one_file_read :
  let '(o, s, _) := hc_read_beneath 8 (Path (str "/srv")) (Path (str "a")) (Nat_ {| sign := 1; limbs := [9] |}) (mkSys (3, false) [] []) [] in
  (match o with Ret (Variant n _) => bool_decide (n = str "Ok") | _ => false end, bool_decide (held s = []), length (reads s)) = (true, true, 2%nat).
Proof. vm_compute. reflexivity. Qed.

Lemma read_beneath_contained_witness :
  let fuel := Z.to_nat 20000000 in
  Z.of_nat (signals (3, false)) + HC_MAX_BYTES + 2 ≤ Z.of_nat fuel ∧
  match hc_read_beneath fuel (Path (str "/srv")) (Path (str "a")) (Nat_ {| sign := 1; limbs := [9] |}) (mkSys (3, false) [] []) [] with
  | (Ret _, s', _) | (Trap _ _, s', _) | (NoMem, s', _) => held s' = []
  | _ => False
  end.
Proof.
  intros fuel. assert (Z.of_nat (signals (3, false)) + HC_MAX_BYTES + 2 ≤ Z.of_nat fuel) as Hf.
  { unfold fuel. rewrite Z2Nat.id by lia. vm_compute. discriminate. }
  split; [exact Hf|]. clearbody fuel.
  pose proof (read_beneath_contained fuel (Path (str "/srv")) (Path (str "a")) (Nat_ {| sign := 1; limbs := [9] |}) (mkSys (3, false) [] []) [] Hf) as H.
  destruct (hc_read_beneath _ _ _ _ _ _) as [[[v|k m| | |] s'] al']; try exact H. exact (proj1 H).
Defined.
