(* ===== verification/FileTree.v ===== *)
(** * A tree of files

    An operating system whose files do not change: an instance of [Posix] with a
    tree of directories, files and symbolic links.  On it, reading beneath a
    directory is compared with the resolution of the path in the tree, which goes
    on from where a symbolic link was found and has no other way up than [..]. *)

From Stdlib Require Import ZArith Lia.
From stdpp Require Import prelude strings.
From S2P Require Import Prelude Bigint Value Numeric Render Collections HostTypes Host Posix Rooted.

#[local] Open Scope Z_scope.

(** ** The tree *)

Inductive node :=
| File (bytes : list Z)
| Directory (ino : Z) (entries : list (list Z * node))
| SymLink (target : list Z)
| Device.

(** A directory with those that enclose it, each under its name; the innermost first. *)
Notation place := (list (list Z * node)).

Fixpoint find_entry (name : list Z) (l : list (list Z * node)) : option node :=
  match l with [] => None | (n, x) :: l => if decide (n = name) then Some x else find_entry name l end.
Definition entry_of (p : place) (name : list Z) : option node :=
  match p with (_, Directory _ entries) :: _ => find_entry name entries | _ => None end.

Definition node_stat (x : node) : stat :=
  match x with
  | File b => mkStat RegularKind 1 0 (Zlength' b)
  | Directory ino _ => mkStat DirectoryKind 1 (Z.abs ino) 0
  | SymLink t => mkStat LinkKind 1 0 (Zlength' t)
  | Device => mkStat OtherKind 1 0 0
  end.

(** What a descriptor stands for. *)
Inductive handle := HDirectory (p : place) | HFile (left_ : list Z) | HOther.

Record Disk := mkDisk { mounts : list (list Z * place); table : list (Z * handle); next_fd : Z }.

Fixpoint handle_of (d : Z) (l : list (Z * handle)) : option handle :=
  match l with [] => None | (x, h) :: l => if decide (x = d) then Some h else handle_of d l end.
Fixpoint mount_of (path : list Z) (l : list (list Z * place)) : option place :=
  match l with [] => None | (x, p) :: l => if decide (x = path) then Some p else mount_of path l end.
Definition EBADF : Z := 9.

Definition allocate (h : handle) (w : Disk) : answer Z * Disk :=
  (inl (next_fd w), mkDisk (mounts w) ((next_fd w, h) :: table w) (next_fd w + 1)).

Definition disk_open (m : open_mode) (path : list Z) (w : Disk) : answer Z * Disk :=
  match m, mount_of path (mounts w) with
  | DirectoryMode, Some p => allocate (HDirectory p) w
  | _, _ => (inr ENOENT, w)
  end.

Definition disk_openat (d : Z) (name : list Z) (m : open_mode) (w : Disk) : answer Z * Disk :=
  match handle_of d (table w) with
  | Some (HDirectory p) =>
      match m with
      | ComponentMode directory =>
          match entry_of p name with
          | None => (inr ENOENT, w)
          | Some (SymLink _) => (inr ELOOP, w)
          | Some (Directory _ _ as x) => allocate (HDirectory ((name, x) :: p)) w
          | Some (File b) => if directory then (inr ENOTDIR, w) else allocate (HFile b) w
          | Some Device => if directory then (inr ENOTDIR, w) else allocate HOther w
          end
      | _ =>
          if decide (name = str "..") then allocate (HDirectory match p with [_] => p | _ => tail p end) w
          else (inr ENOENT, w)
      end
  | _ => (inr EBADF, w)
  end.

Definition handle_stat (h : handle) : answer stat :=
  match h with
  | HDirectory ((_, x) :: _) => inl (node_stat x)
  | HDirectory [] => inr EBADF
  | HFile b => inl (node_stat (File b))
  | HOther => inl (node_stat Device)
  end.

(** A descriptor that was closed is not used again for another file. *)
#[global] Instance disk_posix : Posix Disk := {
  sys_open := disk_open;
  sys_openat := disk_openat;
  sys_dup d w := match handle_of d (table w) with Some h => allocate h w | None => (inr EBADF, w) end;
  sys_fstat d w := (match handle_of d (table w) with Some h => handle_stat h | None => inr EBADF end, w);
  sys_fstatat d name w :=
    (match handle_of d (table w) with
     | Some (HDirectory p) => match entry_of p name with Some x => inl (node_stat x) | None => inr ENOENT end
     | _ => inr EBADF
     end, w);
  sys_lstat path w :=
    (match mount_of path (mounts w) with Some ((_, x) :: _) => inl (node_stat x) | _ => inr ENOENT end, w);
  sys_readlinkat d name size w :=
    (match handle_of d (table w) with
     | Some (HDirectory p) =>
         match entry_of p name with Some (SymLink t) => inl (take (Z.to_nat size) (cstr t)) | _ => inr ENOENT end
     | _ => inr EBADF
     end, w);
  sys_read d size w :=
    match handle_of d (table w) with
    | Some (HFile b) =>
        (inl (u8 <$> take (Z.to_nat size) b),
         mkDisk (mounts w) ((d, HFile (drop (Z.to_nat size) b)) :: table w) (next_fd w))
    | _ => (inr EISDIR, w)
    end;
  sys_write d bytes w := (inr EBADF, w);
  sys_ftruncate d w := (Some EBADF, w);
  sys_close d w := (None, w);
}.

Lemma disk_read_interrupted d k w : fst (sys_read d k w) ≠ inr EINTR.
Proof. simpl. by repeat case_match. Qed.
Lemma disk_read_bytes d k (w : Disk) b : 0 ≤ k → fst (sys_read d k w) = inl b → Zlength' b ≤ k ∧ Forall is_byte b.
Proof.
  simpl. intros Hk H. repeat case_match; simplify_eq/=. unfold Zlength'. rewrite length_fmap, length_take. split; [lia|].
  apply Forall_fmap, Forall_true. intros x. unfold compose, is_byte, u8. apply Z.mod_pos_bound. lia.
Qed.
Lemma cstr_no_nul s : 0 ∉ cstr s.
Proof.
  induction s as [|c s IH]; simpl; [apply not_elem_of_nil|]. destruct (Z.eqb_spec c 0); [apply not_elem_of_nil|].
  apply not_elem_of_cons. split; [congruence|done].
Qed.
Lemma disk_link_bytes d n k (w : Disk) b : 0 ≤ k → fst (sys_readlinkat d n k w) = inl b → Zlength' b ≤ k ∧ 0 ∉ b.
Proof.
  simpl. intros Hk H. repeat case_match; simplify_eq. unfold Zlength'. rewrite length_take. split; [lia|].
  intros Hin. eapply cstr_no_nul, subseteq_take, Hin.
Qed.
Lemma disk_stat_ok d (w : Disk) i : fst (sys_fstat d w) = inl i → stat_ok i.
Proof.
  simpl. intros H. unfold handle_stat, node_stat in H. repeat case_match; simplify_eq; split; simpl; lia.
Qed.

#[global] Instance disk_laws : PosixLaws Disk.
Proof.
  refine {| signals := λ _, 0%nat |}; try (intros; apply le_n).
  - intros d k w H. by apply disk_read_interrupted in H.
  - done.
  - apply disk_stat_ok.
  - apply disk_read_bytes.
  - done.
  - apply disk_link_bytes.
Defined.

(** ** Resolution *)

Inductive resolution := Contents (bytes : list Z) | Problem (code : string).

Definition is_directory (x : node) : bool := match x with Directory _ _ => true | _ => false end.

(** The names from the root to a place. *)
Fixpoint join_names (p : place) : list Z :=
  match p with
  | [] => []
  | (name, _) :: p => match p with [] => [] | _ => let up := join_names p in (if decide (up = []) then [] else up ++ [slash]) ++ name end
  end.

(** [resolves p rest links r]: going on from the place [p] along [rest], after
    [links] symbolic links, gives [r].  The limits of the code are part of it:
    40 links, 256 directories, and 4096 bytes for every path. *)
Inductive resolves : place → list Z → nat → resolution → Prop :=
| res_end p rest links : skip_slashes rest = [] → resolves p rest links (Problem "not_regular_file")
| res_here p rest rest' links r : next_component (skip_slashes rest) = (str ".", rest') →
    resolves p rest' links r → resolves p rest links r
| res_above x rest rest' links : next_component (skip_slashes rest) = (str "..", rest') →
    resolves [x] rest links (Problem "invalid_argument")
| res_up x y p rest rest' links r : next_component (skip_slashes rest) = (str "..", rest') →
    resolves (y :: p) rest' links r → resolves (x :: y :: p) rest links r
| res_missing p rest name rest' links : next_component (skip_slashes rest) = (name, rest') → plain_name name →
    entry_of p name = None → resolves p rest links (Problem "not_found")
| res_file p rest name links b : next_component (skip_slashes rest) = (name, []) → plain_name name →
    entry_of p name = Some (File b) → resolves p rest links (Contents b)
| res_not_file p rest name links x : next_component (skip_slashes rest) = (name, []) → plain_name name →
    entry_of p name = Some x → (is_directory x = true ∨ x = Device) → resolves p rest links (Problem "not_regular_file")
| res_not_directory p rest name rest' links x : next_component (skip_slashes rest) = (name, rest') → plain_name name →
    rest' ≠ [] → entry_of p name = Some x → ((∃ b, x = File b) ∨ x = Device) → resolves p rest links (Problem "not_directory")
| res_directory p rest name rest' links x r : next_component (skip_slashes rest) = (name, rest') → plain_name name →
    rest' ≠ [] → entry_of p name = Some x → is_directory x = true → (length p < HC_ROOTED_DEPTH_MAX)%nat →
    Zlength' (join_names ((name, x) :: p)) ≤ HC_ROOTED_PATH_MAX →
    resolves ((name, x) :: p) rest' links r → resolves p rest links r
| res_too_deep p rest name rest' links x : next_component (skip_slashes rest) = (name, rest') → plain_name name →
    rest' ≠ [] → entry_of p name = Some x → is_directory x = true →
    (length p = HC_ROOTED_DEPTH_MAX ∨ HC_ROOTED_PATH_MAX < Zlength' (join_names ((name, x) :: p))) →
    resolves p rest links (Problem "out_of_range")
| res_link p rest name rest' links t r : next_component (skip_slashes rest) = (name, rest') → plain_name name →
    entry_of p name = Some (SymLink t) → (links < HC_ROOTED_SYMLINK_MAX)%nat →
    cstr t ≠ [] → head (cstr t) ≠ Some slash → Zlength' (cstr t) < HC_ROOTED_PATH_MAX →
    Zlength' (expanded (join_names p) (cstr t) rest') ≤ HC_ROOTED_PATH_MAX →
    resolves p (cstr t ++ (if decide (rest' = []) then [] else slash :: rest')) (S links) r → resolves p rest links r
| res_link_loop p rest name rest' links t : next_component (skip_slashes rest) = (name, rest') → plain_name name →
    entry_of p name = Some (SymLink t) → links = HC_ROOTED_SYMLINK_MAX → resolves p rest links (Problem "symlink_loop")
| res_link_long p rest name rest' links t : next_component (skip_slashes rest) = (name, rest') → plain_name name →
    entry_of p name = Some (SymLink t) → (links < HC_ROOTED_SYMLINK_MAX)%nat →
    (HC_ROOTED_PATH_MAX ≤ Zlength' (cstr t) ∨
       cstr t ≠ [] ∧ head (cstr t) ≠ Some slash ∧ HC_ROOTED_PATH_MAX < Zlength' (expanded (join_names p) (cstr t) rest')) →
    resolves p rest links (Problem "out_of_range")
| res_link_absolute p rest name rest' links t : next_component (skip_slashes rest) = (name, rest') → plain_name name →
    entry_of p name = Some (SymLink t) → (links < HC_ROOTED_SYMLINK_MAX)%nat → Zlength' (cstr t) < HC_ROOTED_PATH_MAX →
    (cstr t = [] ∨ head (cstr t) = Some slash) → resolves p rest links (Problem "invalid_argument").

(** ** What a read returns *)

(** [v] reports a resolution: its contents, cut at no limit, or its problem. *)
Definition reports_result (limit : Z) (r : resolution) (v : Value) : Prop :=
  match r with
  | Problem code => failure_code "fs_read_beneath" code v
  | Contents b =>
      if decide (Zlength' b ≤ limit) then
        ∃ device inode, v = Variant (str "Ok") [Record_ (str "FilesystemRootRead") [str "identity"; str "contents"]
          [Record_ (str "FilesystemRootIdentity") [str "device"; str "inode"] [Nat_ device; Nat_ inode]; Bytes (u8 <$> b)]]
      else failure_code "fs_read_beneath" "output_limit" v
  end.
Definition reports_or_memory (limit : Z) (res : resolution → Prop) (r : option Value) : Prop :=
  ∀ v, r = Some v → failure_code "fs_read_beneath" "out_of_memory" v ∨ ∃ x, res x ∧ reports_result limit x v.

(** What a call returns on a disk, and the disk it leaves. *)
Definition gives {A} (m : IO Disk A) (w : Disk) (Q : A → Disk → Prop) : Prop :=
  ∀ s al, world s = w → match m s al with (Ret a, s', _) => Q a (world s') | (Trap _ _, _, _) => False | _ => True end.

Lemma gives_ret {A} (a : A) w (Q : A → Disk → Prop) : Q a w → gives (mret a) w Q.
Proof. by intros HQ s al <-. Qed.
Lemma gives_bind {A B} (m : IO Disk A) (k : A → IO Disk B) w Q :
  gives m w (λ a w', gives (k a) w' Q) → gives (x ← m; k x) w Q.
Proof.
  intros Hm s al Hw. unfold mbind, IO_bind. specialize (Hm s al Hw). destruct (m s al) as [[[] s'] al']; try done.
  by apply Hm.
Qed.
Lemma gives_mono {A} (m : IO Disk A) w (Q Q' : A → Disk → Prop) : gives m w Q → (∀ a w', Q a w' → Q' a w') → gives m w Q'.
Proof. intros Hm HQ s al Hw. specialize (Hm s al Hw). destruct (m s al) as [[[] s'] al']; auto. Qed.
Lemma gives_or_none {A} (m : M A) P w (Q : option A → Disk → Prop) :
  runs m P no_trap → (∀ a, P a → Q (Some a) w) → Q None w → gives (or_none m) w Q.
Proof.
  intros Hm HS HN s al <-. unfold or_none. destruct (Hm al) as (u & _ & Ho). destruct (m al) as [[] al']; simpl in *; auto.
Qed.
Lemma gives_lift {A} (m : M A) P w (Q : A → Disk → Prop) : runs m P no_trap → (∀ a, P a → Q a w) → gives (lift m) w Q.
Proof.
  intros Hm HQ s al <-. unfold lift. destruct (Hm al) as (u & _ & Ho). destruct (m al) as [[] al']; simpl in *; auto.
Qed.
Lemma gives_on {A} d (m : origin → IO Disk A) w Q : (∀ o, gives (m o) w Q) → gives (on d m) w Q.
Proof. intros Hm s al Hw. unfold on. destruct (origin_of d (held s)); [by apply Hm|done]. Qed.
Lemma gives_ask {A} (f : Disk → A * Disk) w (Q : A → Disk → Prop) : Q (fst (f w)) (snd (f w)) → gives (ask f) w Q.
Proof. intros HQ s al <-. unfold ask. by destruct (f (world s)). Qed.
Lemma gives_obtain o f w (Q : answer Z → Disk → Prop) : Q (fst (f w)) (snd (f w)) → gives (obtain o f) w Q.
Proof. intros HQ s al <-. unfold obtain. by destruct (f (world s)). Qed.
Lemma gives_read d size w (Q : answer (list Z) → Disk → Prop) :
  Q (fst (sys_read d size w)) (snd (sys_read d size w)) → gives (read d size) w Q.
Proof. intros HQ. apply gives_on. intros o s al <-. unfold ask. simpl world. by destruct (sys_read d size (world s)). Qed.
Lemma gives_close d w (Q : option Z → Disk → Prop) : Q None w → gives (close d) w Q.
Proof. intros HQ. apply gives_on. by intros o s al <-. Qed.

Lemma gives_error code e w (Q : option Value → Disk → Prop) :
  (∀ r, (∀ v, r = Some v → failure_code "fs_read_beneath" (default (hc_errno e) code) v) → Q r w) →
  gives (or_none (hc_error "fs_read_beneath" code e)) w Q.
Proof.
  intros HQ. eapply gives_or_none; [eapply (hc_error_code _ _ _ (failure_code "fs_read_beneath" (default (hc_errno e) code)) no_trap); auto| |].
  - intros v Hv. apply HQ. by intros ? [= <-].
  - by apply HQ.
Qed.

Lemma gives_read_all fuel fd limit data b w : handle_of fd (table w) = Some (HFile b) → wf_buffer data →
  Zlength' (content data) ≤ limit < 2 ^ 60 →
  gives (read_all fuel fd limit data) w (λ x _,
    let '(problem, e, data') := x in e = 0 ∧
    (problem = None ∧ content data' = content data ++ (u8 <$> b) ∧ Zlength' (content data ++ b) ≤ limit ∨
     problem = Some "output_limit"%string ∧ limit < Zlength' (content data ++ b) ∨ problem = Some "out_of_memory"%string)).
Proof.
  revert data b w. induction fuel as [|fuel IH]; intros data b w Hb Hwf Hl; [by intros s al Hw|]. cbn [read_all].
  apply gives_bind, gives_read. cbn [sys_read disk_posix]. rewrite Hb. cbn [fst snd].
  assert (0 < Z.to_nat 8192)%nat as Hk by lia. revert Hk. generalize (Z.to_nat 8192). intros size Hk.
  destruct (u8 <$> take size b) as [|c chunk] eqn:Hc.
  { assert (b = []) as -> by (destruct b, size; try done; lia). apply gives_ret. split; [done|]. left.
    rewrite !app_nil_r. split_and!; [done..|lia]. }
  assert (Zlength' (c :: chunk) = Z.of_nat (Nat.min size (length b))) as Hn.
  { unfold Zlength'. by rewrite <-Hc, length_fmap, length_take. }
  unfold Zlength' in *. rewrite u64_small by lia.
  destruct (Z.gtb_spec (Z.of_nat (length (c :: chunk))) (limit - Z.of_nat (length (content data)))).
  { apply gives_ret. split; [done|]. right. left. split; [done|]. rewrite length_app. lia. }
  apply gives_bind. eapply gives_or_none; [eapply (buffer_add_spec _ _ no_trap); [done|unfold room; lia]| |].
  - intros data' [Hwf' Hd']. eapply gives_mono.
    + apply (IH data' (drop size b)); [simpl; by rewrite decide_True|done|]. unfold Zlength'. rewrite Hd', length_app. lia.
    + intros [[problem e] data''] w' [He Hcases]. split; [done|]. rewrite Hd' in Hcases.
      assert (length ((content data ++ c :: chunk) ++ drop size b) = length (content data ++ b)) as Hlen.
      { rewrite !length_app, length_drop. lia. }
      unfold Zlength' in Hcases. rewrite Hlen in Hcases.
      destruct Hcases as [(Hp & Hcd & Hle)|[[Hp Hle]|Hp]]; [left|right; left|right; right]; split_and?; try done.
      rewrite Hcd, <-app_assoc. f_equal. rewrite <-Hc, <-fmap_app. by rewrite take_drop.
  - apply gives_ret. split; [done|]. auto.
Qed.

(** *** Places and walks *)

(** Every place is found under its name in the one that encloses it, within the limits. *)
Fixpoint chain (p : place) : Prop :=
  match p with
  | [] => False
  | (name, x) :: p' =>
      is_directory x = true ∧ (length p ≤ HC_ROOTED_DEPTH_MAX)%nat ∧ Zlength' (join_names p) ≤ HC_ROOTED_PATH_MAX ∧
      match p' with [] => True | _ => plain_name name ∧ entry_of p' name = Some x ∧ chain p' end
  end.

(** The descriptors of the walk stand for the places. *)
Fixpoint opened_at (w : Disk) (dirs : list Z) (p : place) : Prop :=
  match dirs, p with
  | [], [] => True
  | d :: dirs, x :: p' => handle_of d (table w) = Some (HDirectory (x :: p')) ∧ opened_at w dirs p'
  | _, _ => False
  end.

(** The lengths of the beginnings of the path resolved so far. *)
Fixpoint lengths_at (l : list nat) (p : place) : Prop :=
  match p with [] => True | _ :: p' => l !! length p' = Some (length (join_names p)) ∧ lengths_at l p' end.

Record walks (p : place) (k : Walk) (w : Disk) : Prop := {
  walks_chain : chain p;
  walks_opened : opened_at w (directories k) p;
  walks_lengths : lengths_at (prefix_lengths k) p;
  walks_size : length (prefix_lengths k) = HC_ROOTED_DEPTH_MAX;
  walks_resolved : resolved k = join_names p;
  walks_fresh : Forall (λ e, fst e < next_fd w) (table w);
  walks_links : (symlinks k ≤ HC_ROOTED_SYMLINK_MAX)%nat;
  walks_rest : 0 ∉ rest k;
}.

Lemma chain_tail x y p : chain (x :: y :: p) → chain (y :: p).
Proof. destruct x. intros (_ & _ & _ & _ & _ & H). exact H. Qed.
Lemma chain_length p : chain p → (1 ≤ length p ≤ HC_ROOTED_DEPTH_MAX)%nat.
Proof. destruct p as [|[n x] p]; [done|]. intros (_ & H & _). simpl in *. lia. Qed.

Lemma handle_lt d h l n : Forall (λ e : Z * handle, fst e < n) l → handle_of d l = Some h → d < n.
Proof.
  induction 1 as [|[x h'] l Hx Hl IH]; simpl; [done|]. destruct (decide (x = d)) as [->|]; [intros _; simpl in Hx; lia|auto].
Qed.
Lemma handle_cons d h e l n : Forall (λ e : Z * handle, fst e < n) l → handle_of d l = Some h → handle_of d ((n, e) :: l) = Some h.
Proof. intros Hl Hd. simpl. rewrite decide_False; [done|]. intros ->. eapply handle_lt in Hd; [|done]. lia. Qed.
Lemma opened_allocate h w dirs p : Forall (λ e, fst e < next_fd w) (table w) → opened_at w dirs p →
  opened_at (snd (allocate h w)) dirs p.
Proof.
  intros Hf. revert dirs. induction p as [|x p IH]; intros [|d dirs]; try done. cbn [opened_at]. intros [Hd Ho].
  split; [by apply (handle_cons d _ h (table w) (next_fd w))|by apply IH].
Qed.
Lemma fresh_allocate h w : Forall (λ e, fst e < next_fd w) (table w) →
  Forall (λ e, fst e < next_fd (snd (allocate h w))) (table (snd (allocate h w))).
Proof. intros Hf. simpl. constructor; [simpl; lia|]. eapply Forall_impl; [done|]. intros ?. simpl. lia. Qed.

Lemma join_cons name x y p : join_names ((name, x) :: y :: p) =
  (if decide (join_names (y :: p) = []) then [] else join_names (y :: p) ++ [slash]) ++ name.
Proof. done. Qed.
Lemma join_prefix name x y p : take (length (join_names (y :: p))) (join_names ((name, x) :: y :: p)) = join_names (y :: p).
Proof.
  rewrite join_cons. destruct (decide (join_names (y :: p) = [])) as [->|]; [done|]. rewrite <-app_assoc. apply take_app_length.
Qed.
Lemma lengths_insert l p n x : lengths_at l p → (length p ≤ n)%nat → lengths_at (<[n:=x]> l) p.
Proof.
  induction p as [|y p IH]; [done|]. intros [Hl Hp] Hn. simpl in Hn.
  split; [rewrite list_lookup_insert_ne by lia; done|apply IH; [done|lia]].
Qed.

Section walking.
Context (fuel : nat) (limit : Z) (root_info : stat).
Hypothesis (info_ok : stat_ok root_info) (info_small : large_identity root_info = false) (limit_range : 0 ≤ limit < 2 ^ 60).

Definition no_memory (r : option Value) : Prop := ∀ v, r = Some v → failure_code "fs_read_beneath" "out_of_memory" v.

(** A turn at a plain name, after the directory is found. *)
Lemma step_visit p k w name rest' d dirs (Q : option Value + Walk → Disk → Prop) : directories k = d :: dirs →
  next_component (skip_slashes (rest k)) = (name, rest') → plain_name name →
  gives (visit fuel limit root_info k d name rest') w Q → walks p k w →
  gives (walk_step fuel limit root_info k) w Q.
Proof.
  intros Hd Hn (Hne & Hsl & Hz & H1 & H2) HQ _. unfold walk_step. destruct (skip_slashes (rest k)) as [|b pending]; [simpl in Hn; congruence|].
  rewrite Hn, !decide_False by done. unfold innermost. rewrite Hd. apply gives_bind.
  by apply (gives_lift _ (λ a, a = d)); [by eapply runs_rd|intros ? ->].
Qed.

(** The entry that a name has in the innermost directory. *)
Lemma visit_entry p k w d dirs name rest' x (Q : option Value + Walk → Disk → Prop) : walks p k w → directories k = d :: dirs →
  entry_of p name = Some x →
  (∀ r, no_memory r → Q (inl r) w) →
  gives (if bool_decide (st_kind (node_stat x) = LinkKind) then follow_link k name rest' d
         else
           let final := bool_decide (rest' = []) in
           opened ← openat d name (ComponentMode (negb final));
           match opened with
           | inr e => r ← or_none (hc_error "fs_read_beneath" None e); mret (inl r)
           | inl opened =>
               info ← fstat opened;
               match info with
               | inr e => _ ← close opened; r ← or_none (hc_error "fs_read_beneath" None e); mret (inl r)
               | inl info =>
                   if final then r ← read_final fuel limit root_info opened info; mret (inl r)
                   else enter k name rest' opened info
               end
           end) w Q →
  gives (visit fuel limit root_info k d name rest') w Q.
Proof.
  intros Hw Hd Hx Hm HQ. unfold visit. apply gives_bind. eapply (gives_or_none _ (λ _, True)); [apply runs_alloc|intros _ _|].
  2: { apply gives_bind, gives_error. intros r Hr. by apply gives_ret, Hm. }
  apply gives_bind, gives_on. intros o. apply gives_ask. cbn [sys_fstatat disk_posix fst snd].
  pose proof (walks_opened _ _ _ Hw) as Ho. rewrite Hd in Ho. destruct p as [|y p]; [done|]. destruct Ho as [-> _].
  rewrite Hx. exact HQ.
Qed.

Lemma opened_length w dirs p : opened_at w dirs p → length dirs = length p.
Proof. revert dirs. induction p as [|x p IH]; intros [|d dirs]; try done. intros [_ Ho]. simpl. f_equal. by apply IH. Qed.

Lemma visit_enter p k w d dirs name rest' x (Q : option Value + Walk → Disk → Prop) : walks p k w → directories k = d :: dirs →
  plain_name name → rest' ≠ [] →
  entry_of p name = Some x → is_directory x = true → (length p < HC_ROOTED_DEPTH_MAX)%nat →
  Zlength' (join_names ((name, x) :: p)) ≤ HC_ROOTED_PATH_MAX → 0 ∉ rest' →
  (∀ k' w', walks ((name, x) :: p) k' w' → rest k' = rest' → symlinks k' = symlinks k → Q (inr k') w') →
  (∀ r, no_memory r → Q (inl r) w) →
  gives (visit fuel limit root_info k d name rest') w Q.
Proof.
  intros Hw Hd Hp Hr Hx Hdir Hdep Hlen Hz HQ Hm.
  pose proof (walks_opened _ _ _ Hw) as Ho. destruct p as [|y p]; [pose proof (walks_chain _ _ _ Hw); done|].
  rewrite Hd in Ho. pose proof Ho as [Hh Ho'].
  eapply visit_entry; try done. destruct x as [|ino entries| |]; try done.
  rewrite bool_decide_false by done. rewrite bool_decide_false by done. cbn [negb].
  apply gives_bind, gives_on. intros o. apply gives_obtain. cbn [sys_openat disk_posix]. unfold disk_openat. rewrite Hh, Hx.
  cbn [allocate fst snd]. apply gives_bind, gives_on. intros o'. apply gives_ask. cbn [sys_fstat disk_posix fst snd table handle_of].
  rewrite decide_True by done. cbn [handle_stat].
  unfold enter. cbn [node_stat st_kind]. rewrite bool_decide_true by done. unfold depth. rewrite Hd.
  pose proof (opened_length _ _ _ Ho) as Hl.
  rewrite Hl. destruct (Nat.eqb_spec (length (y :: p)) HC_ROOTED_DEPTH_MAX); [lia|]. cbn [negb orb].
  rewrite (walks_resolved _ _ _ Hw), <-(join_cons name (Directory ino entries)).
  destruct (Z.gtb_spec (Zlength' (join_names ((name, Directory ino entries) :: y :: p))) HC_ROOTED_PATH_MAX); [lia|].
  apply gives_bind. eapply (gives_lift _ (λ l, l = <[length (y :: p):=length (join_names ((name, Directory ino entries) :: y :: p))]> (prefix_lengths k))).
  { apply runs_wr; [rewrite (walks_size _ _ _ Hw); done|done]. }
  intros ? ->. apply gives_ret, HQ; [|done..].
  destruct Hw as [Hc _ Hlens Hsize Hres Hfresh Hlinks Hrest]. split; cbn [directories prefix_lengths resolved symlinks rest table next_fd]; try done.
  - split; [cbn [table handle_of]; by rewrite decide_True|]. by apply (opened_allocate (HDirectory ((name, Directory ino entries) :: y :: p)) w (d :: dirs)).
  - split; [apply list_lookup_insert_eq; rewrite Hsize; done|]. by apply lengths_insert.
  - by rewrite length_insert.
  - by apply (fresh_allocate (HDirectory ((name, Directory ino entries) :: y :: p))).
Qed.

Lemma step_enter p k w name rest' x (Q : option Value + Walk → Disk → Prop) : walks p k w →
  next_component (skip_slashes (rest k)) = (name, rest') → plain_name name → rest' ≠ [] →
  entry_of p name = Some x → is_directory x = true → (length p < HC_ROOTED_DEPTH_MAX)%nat →
  Zlength' (join_names ((name, x) :: p)) ≤ HC_ROOTED_PATH_MAX → 0 ∉ rest' →
  (∀ k' w', walks ((name, x) :: p) k' w' → rest k' = rest' → symlinks k' = symlinks k → Q (inr k') w') →
  (∀ r, no_memory r → Q (inl r) w) →
  gives (walk_step fuel limit root_info k) w Q.
Proof.
  intros Hw Hn Hp Hr Hx Hdir Hdep Hlen Hz HQ Hm. pose proof (walks_opened _ _ _ Hw) as Ho.
  destruct (directories k) as [|d dirs] eqn:Hd; [destruct p; [pose proof (walks_chain _ _ _ Hw)|]; done|].
  eapply step_visit; try done. by eapply visit_enter.
Qed.

Lemma join_nil y p : chain (y :: p) → join_names (y :: p) = [] → p = [].
Proof.
  destruct y as [n x], p as [|z p]; [done|]. intros (_ & _ & _ & (Hne & _) & _) Hj. rewrite join_cons in Hj.
  by apply app_nil in Hj as [_ ->].
Qed.
Lemma skip_plain name tail : plain_name name → skip_slashes (name ++ tail) = name ++ tail.
Proof.
  intros (Hne & Hs & _). destruct name as [|b name]; [done|]. simpl. apply not_elem_of_cons in Hs as [Hb _].
  destruct (Z.eqb_spec b slash); [congruence|done].
Qed.
Lemma next_plain name t : slash ∉ name → next_component (name ++ slash :: t) = (name, slash :: t).
Proof.
  induction name as [|b name IH]; [done|]. intros [Hb Hn]%not_elem_of_cons. simpl.
  destruct (Z.eqb_spec b slash); [congruence|]. by rewrite IH.
Qed.
Lemma turns_left_pos k : (symlinks k ≤ HC_ROOTED_SYMLINK_MAX)%nat → 1 ≤ turns_left k.
Proof. unfold turns_left, HC_ROOTED_SYMLINK_MAX, Zlength'. lia. Qed.

(** From the root the walk comes back to a place along the names that lead to it. *)
Lemma rewalk p tail turns k w root (Q : option Value * list Z → Disk → Prop) : chain p → last p = Some root →
  walks [root] k w → rest k = join_names p ++ tail → p = [root] ∨ head tail = Some slash → 0 ∉ tail →
  turns_left k ≤ Z.of_nat turns →
  (∀ r dirs w', no_memory r → Q (r, dirs) w') →
  (∀ turns' k' w', walks p k' w' → rest k' = tail → symlinks k' = symlinks k → turns_left k' ≤ Z.of_nat turns' →
     (turns' ≤ turns)%nat → gives (walk turns' fuel limit root_info k') w' Q) →
  gives (walk turns fuel limit root_info k) w Q.
Proof.
  revert tail turns Q. induction p as [|[name x] p IH]; intros tail turns Q Hc Hl Hw Hr Ht Hz Hturns Hm HQ; [done|].
  destruct p as [|y p]; [simpl in Hl; simplify_eq; by apply HQ|].
  destruct Ht as [|Ht]; [done|]. destruct tail as [|c t]; [done|]. simpl in Ht. injection Ht as ->.
  pose proof Hc as (Hdir & Hdep & Hlen & Hp & He & Hc').
  apply (IH ((if decide (join_names (y :: p) = []) then [] else [slash]) ++ name ++ slash :: t)); try done.
  - rewrite Hr, join_cons. destruct (decide (join_names (y :: p) = [])) as [->|]; by rewrite <-!app_assoc.
  - destruct (decide (join_names (y :: p) = [])) as [Hj|]; [|by right]. left. apply join_nil in Hj as ->; [|done].
    simpl in Hl. by simplify_eq.
  - rewrite !not_elem_of_app. destruct Hp as (_ & _ & Hz' & _). split_and!; try done.
    destruct (decide _); [apply not_elem_of_nil|]. by intros ?%list_elem_of_singleton.
  - intros turns' k' w' Hw' Hr' Hs' Hturns' Hle.
    pose proof (turns_left_pos k' (walks_links _ _ _ Hw')). destruct turns' as [|turns']; [lia|]. cbn [walk]. apply gives_bind.
    assert (next_component (skip_slashes (rest k')) = (name, slash :: t)) as Hn.
    { rewrite Hr'. assert (skip_slashes (name ++ slash :: t) = name ++ slash :: t) as Hsk by by apply skip_plain.
      destruct (decide _); simpl; rewrite Hsk; apply next_plain, Hp. }
    eapply step_enter; try done.
    + intros k2 w2 Hw2 Hr2 Hs2. apply HQ; try done; [congruence| |lia].
      unfold turns_left in *. rewrite Hs2, Hr2. rewrite Hr' in Hturns'. unfold Zlength' in *. rewrite !length_app in Hturns'.
      destruct Hp as (Hne & _). destruct name; [done|]. simpl length in *. lia.
    + intros r Hrm. apply gives_ret. by apply Hm.
Qed.

(** What a walk from a place reports. *)
Definition reported (p : place) (path : list Z) (links : nat) (r : option Value) : Prop :=
  reports_or_memory limit (resolves p path links) r.
Definition walk_reports (turns : nat) p k w : Prop :=
  gives (walk turns fuel limit root_info k) w (λ x _, reported p (rest k) (symlinks k) (fst x)).
(** It holds of all shorter walks. *)
Definition shorter_report (turns : nat) : Prop := ∀ turns' p k w, (turns' ≤ turns)%nat → walks p k w →
  turns_left k ≤ Z.of_nat turns' → Zlength' (rest k) ≤ HC_ROOTED_PATH_MAX → walk_reports turns' p k w.
(** What is left to show of a turn. *)
Definition turn_reports (turns : nat) p k (next : option Value + Walk) w : Prop :=
  match next with
  | inl r => reported p (rest k) (symlinks k) r
  | inr k' => gives (walk turns fuel limit root_info k') w (λ x _, reported p (rest k) (symlinks k) (fst x))
  end.

Lemma problem_reported p path links code r : (∀ v, r = Some v → failure_code "fs_read_beneath" code v) →
  resolves p path links (Problem code) → reported p path links r.
Proof. intros Hr Hres v Hv. right. exists (Problem code). split; [done|]. by apply Hr. Qed.
Lemma memory_reported p path links r : no_memory r → reported p path links r.
Proof. intros Hr v Hv. left. by apply Hr. Qed.

Lemma turn_problem turns p k code e w : resolves p (rest k) (symlinks k) (Problem (default (hc_errno e) code)) →
  gives (r ← or_none (hc_error "fs_read_beneath" code e); mret (inl r)) w (turn_reports turns p k).
Proof.
  intros Hres. apply gives_bind, gives_error. intros r Hr. apply gives_ret. by eapply problem_reported.
Qed.
Lemma turn_memory turns p k e w :
  gives (r ← or_none (hc_error "fs_read_beneath" (Some "out_of_memory"%string) e); mret (inl r)) w (turn_reports turns p k).
Proof. apply gives_bind, gives_error. intros r Hr. apply gives_ret. by apply memory_reported. Qed.

(** Going on elsewhere. *)
Lemma turn_goes_on turns p k p' k' w : shorter_report turns → walks p' k' w → turns_left k' ≤ Z.of_nat turns →
  Zlength' (rest k') ≤ HC_ROOTED_PATH_MAX →
  (∀ r, resolves p' (rest k') (symlinks k') r → resolves p (rest k) (symlinks k) r) → turn_reports turns p k (inr k') w.
Proof.
  intros Hs Hw Ht Hl Hr. eapply gives_mono; [by apply (Hs turns p' k' w)|]. intros [r dirs] _ Hx v Hv.
  destruct (Hx v Hv) as [|(x & Hx1 & Hx2)]; [by left|right; eauto].
Qed.

Lemma resolves_slash p path links r : resolves p (slash :: path) links r → resolves p path links r.
Proof.
  assert (skip_slashes (slash :: path) = skip_slashes path) as Hs by done.
  intros H. inversion H; subst; rewrite Hs in *; [by apply res_end|by eapply res_here|by eapply res_above|by eapply res_up|by eapply res_missing|
    by eapply res_file|by eapply res_not_file|by eapply res_not_directory|by eapply res_directory|by eapply res_too_deep|by eapply res_link|
    by eapply res_link_loop|by eapply res_link_long|by eapply res_link_absolute].
Qed.

Lemma gives_close_inner (l : list Z) w (Q : list Z → Disk → Prop) : (∀ d, last l = Some d → Q [d] w) → l ≠ [] →
  gives (close_inner l) w Q.
Proof.
  induction l as [|d l IH]; intros HQ Hl; [done|]. destruct l as [|d' l]; [apply gives_ret; by apply HQ|].
  rewrite close_inner_cons by done. apply gives_bind, gives_close. by apply IH.
Qed.

(** The outermost place of a walk. *)
Lemma outermost p k w : walks p k w → ∃ root d0, last p = Some root ∧ last (directories k) = Some d0 ∧
  chain [root] ∧ opened_at w [d0] [root] ∧ prefix_lengths k !! 0%nat = Some 0%nat.
Proof.
  intros [Hc Ho Hl _ _ _ _ _]. revert Ho Hc Hl. generalize (directories k) (prefix_lengths k). intros dirs l.
  revert dirs. induction p as [|[n x] p IH]; intros dirs Ho Hc Hl; [done|].
  destruct dirs as [|d dirs]; [done|]. destruct Ho as [Hd Ho]. destruct p as [|y p].
  - destruct dirs; [|done]. destruct Hc as (Hx & _). destruct Hl as [Hl _]. exists (n, x), d.
    split_and!; try done. cbn [chain]. unfold HC_ROOTED_DEPTH_MAX, HC_ROOTED_PATH_MAX, Zlength'. split_and!; simpl; try done; lia.
  - destruct dirs as [|d' dirs]; [done|]. destruct (IH (d' :: dirs) Ho) as (root & d0 & H1 & H2 & H3); [by apply chain_tail in Hc|by destruct Hl|].
    exists root, d0. done.
Qed.

Lemma expanded_split p t rest' : ∃ tail, expanded (join_names p) t rest' = join_names p ++ tail ∧
  (join_names p = [] ∨ head tail = Some slash) ∧
  let path := t ++ (if decide (rest' = []) then [] else slash :: rest') in tail = path ∨ tail = slash :: path.
Proof.
  unfold expanded. destruct (decide (join_names p = [])) as [->|Hj].
  - eexists. split; [done|]. split; [by left|by left].
  - eexists (slash :: t ++ _). split; [by rewrite <-app_assoc|]. split; [by right|by right].
Qed.

Lemma join_no_nul p : chain p → 0 ∉ join_names p.
Proof.
  induction p as [|[n x] p IH]; [done|]. destruct p as [|y p]; [intros _; apply not_elem_of_nil|].
  intros (_ & _ & _ & (_ & _ & Hz & _) & _ & Hc). rewrite join_cons, not_elem_of_app. split; [|done].
  destruct (decide _); [apply not_elem_of_nil|]. rewrite not_elem_of_app. split; [by apply IH|]. by intros ?%list_elem_of_singleton.
Qed.

Lemma follow_reports turns p k w d dirs name rest' t : shorter_report turns → walks p k w → directories k = d :: dirs →
  turns_left k ≤ Z.of_nat turns + 1 → next_component (skip_slashes (rest k)) = (name, rest') → plain_name name →
  entry_of p name = Some (SymLink t) → 0 ∉ rest' →
  gives (follow_link k name rest' d) w (turn_reports turns p k).
Proof.
  intros IH Hw Hd Hturns Hn Hp He Hz. unfold follow_link.
  destruct (Nat.ltb_spec HC_ROOTED_SYMLINK_MAX (S (symlinks k))) as [|Hlinks].
  { apply turn_problem. eapply res_link_loop; try done. pose proof (walks_links _ _ _ Hw). lia. }
  apply gives_bind, gives_on. intros o. apply gives_ask. cbn [sys_readlinkat disk_posix fst snd].
  pose proof (walks_opened _ _ _ Hw) as Ho. rewrite Hd in Ho. destruct p as [|y p]; [done|]. destruct Ho as [-> _]. rewrite He.
  assert (Z.to_nat HC_ROOTED_PATH_MAX = 4096%nat) as HM by done.
  assert (Zlength' (take (Z.to_nat HC_ROOTED_PATH_MAX) (cstr t)) = Z.min HC_ROOTED_PATH_MAX (Zlength' (cstr t))) as Hlen.
  { unfold Zlength'. rewrite length_take. unfold HC_ROOTED_PATH_MAX. lia. }
  destruct (Z.eqb_spec (Zlength' (take (Z.to_nat HC_ROOTED_PATH_MAX) (cstr t))) HC_ROOTED_PATH_MAX) as [Heq|Hne].
  { apply turn_problem. eapply res_link_long; try done. left. lia. }
  assert (Zlength' (cstr t) < HC_ROOTED_PATH_MAX) as Hshort by lia. clear Hlen Hne.
  rewrite take_ge by (unfold Zlength', HC_ROOTED_PATH_MAX in *; lia).
  destruct (bool_decide (cstr t = []) || bool_decide (head (cstr t) = Some slash)) eqn:Habs.
  { apply turn_problem. eapply res_link_absolute; try done.
    apply orb_true_iff in Habs as [Ha|Ha]; [left|right]; by apply bool_decide_eq_true in Ha. }
  apply orb_false_iff in Habs as [Ha1%bool_decide_eq_false Ha2%bool_decide_eq_false].
  rewrite (walks_resolved _ _ _ Hw).
  destruct (Z.gtb_spec (Zlength' (expanded (join_names (y :: p)) (cstr t) rest')) HC_ROOTED_PATH_MAX) as [|Hx].
  { apply turn_problem. eapply res_link_long; try done. right. split_and!; [done..|lia]. }
  apply gives_bind. eapply (gives_or_none _ (λ _, True)); [apply runs_alloc|intros _ _|apply turn_memory].
  destruct (outermost _ _ _ Hw) as (root & d0 & Hl1 & Hl2 & Hc0 & Ho0 & Hp0).
  apply gives_bind, gives_close_inner; [|by rewrite Hd]. intros d1 Hd1. rewrite Hl2 in Hd1. injection Hd1 as <-. apply gives_ret.
  destruct (expanded_split (y :: p) (cstr t) rest') as (tail & Ht & Hhead & Htail). cbv zeta in Htail.
  assert (0 ∉ tail) as Hztail.
  { intros Hin. assert (0 ∈ cstr t ++ (if decide (rest' = []) then [] else slash :: rest')) as Hin'.
    { destruct Htail as [-> | ->]; [done|]. by apply elem_of_cons in Hin as [|]. }
    apply elem_of_app in Hin' as [Hin'|Hin']; [by apply cstr_no_nul in Hin'|].
    destruct (decide (rest' = [])); [by apply not_elem_of_nil in Hin'|]. by apply elem_of_cons in Hin' as [|]. }
  pose proof (join_no_nul _ (walks_chain _ _ _ Hw)) as Hzj.
  assert (Zlength' tail ≤ HC_ROOTED_PATH_MAX) as Htl by (rewrite Ht in Hx; unfold Zlength' in *; rewrite length_app in Hx; lia).
  assert (turns_left (mkWalk (expanded (join_names (y :: p)) (cstr t) rest') [] (prefix_lengths k) [d0] (S (symlinks k))) ≤ Z.of_nat turns) as Hleft.
  { unfold turns_left, HC_ROOTED_SYMLINK_MAX, HC_ROOTED_PATH_MAX, Zlength' in *. cbn [symlinks rest]. lia. }
  eapply (rewalk (y :: p) tail); [apply Hw|done| |done| |done|done|..].
  - destruct Hw as [_ _ _ Hsize _ Hfresh _ _]. split; cbn [directories prefix_lengths resolved symlinks rest]; try done.
    + destruct root. done.
    + by destruct root.
    + rewrite Ht, not_elem_of_app. done.
  - destruct Hhead as [Hj|]; [|by right]. left. apply join_nil in Hj as ->; [|apply Hw]. simpl in Hl1. by simplify_eq.
  - intros r dirs' w' Hr. by apply memory_reported.
  - intros turns' k' w' Hw' Hr' Hs' Ht' Hle. cbn [symlinks] in Hs'. eapply gives_mono; [apply (IH turns' (y :: p) k' w'); [done..|by rewrite Hr']|].
    intros [r dirs'] _ Hrep v Hv. destruct (Hrep v Hv) as [|(x & Hx1 & Hx2)]; [by left|right]. exists x. split; [|done].
    eapply res_link; try done. rewrite Hr', Hs' in Hx1. destruct Htail as [-> | ->]; [done|by apply resolves_slash].
Qed.

(** The contents of a file that was opened. *)
Lemma final_reports p path links b opened w (Q : option Value → Disk → Prop) : handle_of opened (table w) = Some (HFile b) →
  resolves p path links (Contents b) → (∀ r w', reported p path links r → Q r w') →
  gives (read_final fuel limit root_info opened (node_stat (File b))) w Q.
Proof.
  intros Hh Hres HQ. unfold read_final. cbn [node_stat st_kind]. rewrite bool_decide_true by done. cbn [negb].
  apply gives_bind. eapply gives_mono; [apply (gives_read_all fuel opened limit empty_buffer b); [done|by right|unfold Zlength'; simpl; lia]|].
  intros [[problem e] data] w1 [-> Hcases]. apply gives_bind, gives_close. simpl in Hcases. cbn [Z.eqb negb orb].
  destruct Hcases as [(-> & Hc & Hl)|[[-> Hl]| ->]]; cbn [bool_decide].
  - rewrite bool_decide_false by (intros H; by apply H). eapply gives_or_none.
    + eapply (host_ok_spec _ (λ x, ∃ d i, x = Record_ (str "FilesystemRootRead") [str "identity"; str "contents"]
        [Record_ (str "FilesystemRootIdentity") [str "device"; str "inode"] [Nat_ d; Nat_ i]; Bytes (u8 <$> b)])
        (λ v, reports_result limit (Contents b) v) no_trap).
      * eapply (runs_bind _ _ (λ v, ∃ d i, v = Record_ (str "FilesystemRootIdentity") [str "device"; str "inode"] [Nat_ d; Nat_ i]));
          [apply hc_identity_spec; eauto|]. intros ? (d & i & ->).
        eapply (runs_bind _ _ (λ v, v = Bytes (u8 <$> b))); [apply value_data_spec; by rewrite Hc|]. intros ? ->.
        apply record_spec. eauto.
      * intros ? (d & i & ->). unfold reports_result. rewrite decide_True by done. eauto.
    + intros v Hv. apply HQ. intros ? [= <-]. right. eauto.
    + apply HQ. by intros ? [=].
  - rewrite bool_decide_true by done. apply gives_error. intros r Hr. apply HQ. intros v Hv. right. exists (Contents b). split; [done|].
    unfold reports_result. rewrite decide_False by lia. by apply Hr.
  - rewrite bool_decide_true by done. apply gives_error. intros r Hr. apply HQ. intros v Hv. left. by apply Hr.
Qed.

Lemma visit_reports turns p k w d dirs name rest' : shorter_report turns → walks p k w → directories k = d :: dirs →
  turns_left k ≤ Z.of_nat turns + 1 → Zlength' (rest k) ≤ HC_ROOTED_PATH_MAX →
  next_component (skip_slashes (rest k)) = (name, rest') → plain_name name → 0 ∉ rest' →
  Zlength' rest' < Zlength' (rest k) →
  gives (visit fuel limit root_info k d name rest') w (turn_reports turns p k).
Proof.
  intros IH Hw Hd Hturns Hmax Hn Hp Hz Hlt.
  destruct (entry_of p name) as [x|] eqn:He.
  2: { unfold visit. apply gives_bind. eapply (gives_or_none _ (λ _, True)); [apply runs_alloc|intros _ _|apply turn_memory].
    apply gives_bind, gives_on. intros o. apply gives_ask. cbn [sys_fstatat disk_posix fst snd].
    pose proof (walks_opened _ _ _ Hw) as Ho. rewrite Hd in Ho. destruct p as [|y p]; [done|]. destruct Ho as [-> _]. rewrite He.
    apply turn_problem. by eapply res_missing. }
  pose proof (walks_opened _ _ _ Hw) as Ho. rewrite Hd in Ho. destruct p as [|y p]; [done|]. pose proof Ho as [Hh Ho'].
  destruct (decide (is_directory x = true ∧ rest' ≠ [] ∧ (length (y :: p) < HC_ROOTED_DEPTH_MAX)%nat ∧
    Zlength' (join_names ((name, x) :: y :: p)) ≤ HC_ROOTED_PATH_MAX)) as [(Hdir & Hrest & Hdep & Hlen)|Hno].
  { eapply visit_enter; try done; [|intros r Hr; by apply memory_reported]. intros k' w' Hw' Hr' Hs'.
    eapply turn_goes_on; [done|done|unfold turns_left in *; rewrite Hr', Hs'; lia|rewrite Hr'; lia|].
    intros r Hres. eapply res_directory; try done. by rewrite <-Hr', <-Hs'. }
  eapply visit_entry; try done; [intros r Hr; by apply memory_reported|].
  destruct (bool_decide (st_kind (node_stat x) = LinkKind)) eqn:Hlink.
  { apply bool_decide_eq_true in Hlink. destruct x; try done. by eapply follow_reports. }
  cbv zeta. apply gives_bind, gives_on. intros o. apply gives_obtain. cbn [sys_openat disk_posix]. unfold disk_openat. rewrite Hh, He.
  destruct (bool_decide (rest' = [])) eqn:Hfinal; cbn [negb].
  - apply bool_decide_eq_true in Hfinal as ->.
    assert (∀ opened w' h, handle_of opened (table w') = Some h → (is_directory x = true ∨ x = Device) →
      handle_stat h = inl (node_stat x) →
      gives (info ← fstat opened;
        match info with
        | inr e => _ ← close opened; r ← or_none (hc_error "fs_read_beneath" None e); mret (inl r)
        | inl info => r ← read_final fuel limit root_info opened info; mret (inl r)
        end) w' (turn_reports turns (y :: p) k)) as Hnot.
    { intros opened w' h Hop Hx Hs. apply gives_bind, gives_on. intros o'. apply gives_ask. cbn [sys_fstat disk_posix fst snd].
      rewrite Hop, Hs. apply gives_bind. unfold read_final. rewrite bool_decide_false by (by destruct x; destruct Hx as [Hx|Hx]).
      cbn [negb]. apply gives_bind, gives_close, gives_error. intros r Hr. apply gives_ret.
      eapply problem_reported; [done|]. by eapply res_not_file. }
    destruct x as [b|ino entries|t|]; [| |done|]; cbn [allocate fst snd].
    + apply gives_bind, gives_on. intros o'. apply gives_ask. cbn [sys_fstat disk_posix fst snd table handle_of].
      rewrite decide_True by done. cbn [handle_stat]. apply gives_bind. eapply (final_reports (y :: p) (rest k) (symlinks k) b).
      * cbn [table handle_of]. by rewrite decide_True.
      * by eapply res_file.
      * intros r w' Hr. by apply gives_ret.
    + eapply Hnot; [cbn [table handle_of]; by rewrite decide_True|by left|done].
    + eapply Hnot; [cbn [table handle_of]; by rewrite decide_True|by right|done].
  - apply bool_decide_eq_false in Hfinal.
    destruct x as [b|ino entries|t|]; [| |done|]; cbn [fst snd].
    + apply turn_problem. eapply res_not_directory; eauto.
    + cbn [allocate fst snd]. apply gives_bind, gives_on. intros o'. apply gives_ask. cbn [sys_fstat disk_posix fst snd table handle_of].
      rewrite decide_True by done. cbn [handle_stat]. unfold enter. cbn [node_stat st_kind]. rewrite bool_decide_true by done.
      unfold depth. rewrite Hd, (opened_length _ _ _ Ho), (walks_resolved _ _ _ Hw), <-(join_cons name (Directory ino entries)).
      pose proof (chain_length _ (walks_chain _ _ _ Hw)) as Hcl.
      destruct (Nat.eqb_spec (length (y :: p)) HC_ROOTED_DEPTH_MAX) as [Heq|Hneq]; cbn [negb orb].
      * apply gives_bind, gives_close, turn_problem. eapply res_too_deep; eauto.
      * destruct (Z.gtb_spec (Zlength' (join_names ((name, Directory ino entries) :: y :: p))) HC_ROOTED_PATH_MAX).
        -- apply gives_bind, gives_close, turn_problem. eapply res_too_deep; eauto.
        -- destruct Hno. split_and!; [done..|lia|done].
    + apply turn_problem. eapply res_not_directory; eauto.
Qed.

Lemma ascend_reports turns p k w rest' : shorter_report turns → walks p k w → turns_left k ≤ Z.of_nat turns + 1 →
  Zlength' (rest k) ≤ HC_ROOTED_PATH_MAX → next_component (skip_slashes (rest k)) = (str "..", rest') → 0 ∉ rest' →
  Zlength' rest' < Zlength' (rest k) → gives (ascend k rest') w (turn_reports turns p k).
Proof.
  intros IH Hw Hturns Hmax Hn Hz Hlt. unfold ascend, depth, innermost. pose proof (walks_opened _ _ _ Hw) as Ho.
  rewrite (opened_length _ _ _ Ho). destruct p as [|[n x] p]; [pose proof (walks_chain _ _ _ Hw); done|].
  destruct p as [|y p]; cbn [length Nat.eqb]; [apply turn_problem; by eapply res_above|].
  destruct (directories k) as [|d dirs] eqn:Hd; [done|]. destruct Ho as [Hh Ho].
  apply gives_bind. eapply (gives_lift _ (λ _, True)); [by eapply runs_rd|]. intros d' _. apply gives_bind, gives_close. cbn [tail].
  destruct Hw as [Hc _ [_ Hl] Hsize Hres Hfresh Hlinks _]. pose proof Hl as [Hl0 _].
  apply gives_bind. eapply (gives_lift _ (λ m, m = length (join_names (y :: p)))).
  { eapply runs_rd; [|done]. rewrite (opened_length _ _ _ Ho). simpl. by rewrite Nat.sub_0_r. }
  intros ? ->. apply gives_ret. eapply (turn_goes_on _ _ _ (y :: p)); [done| |unfold turns_left in *; simpl; lia|simpl; lia|].
  - split; cbn [directories prefix_lengths resolved symlinks rest]; try done; [by apply chain_tail in Hc|].
    rewrite Hres. apply join_prefix.
  - intros r Hr. eapply res_up; [done|]. exact Hr.
Qed.

Lemma walk_exact turns p k w : walks p k w → turns_left k ≤ Z.of_nat turns → Zlength' (rest k) ≤ HC_ROOTED_PATH_MAX →
  walk_reports turns p k w.
Proof.
  revert p k w. induction (lt_wf turns) as [turns _ IH]. intros p k w Hw Hturns Hmax.
  pose proof (turns_left_pos k (walks_links _ _ _ Hw)). destruct turns as [|turns]; [lia|].
  assert (shorter_report turns) as IHs by (intros turns' p' k' w' Hle; apply IH; lia). clear IH.
  unfold walk_reports. cbn [walk]. apply gives_bind. eapply (gives_mono _ _ (turn_reports turns p k)).
  2: { intros [r|k'] w' Hr; [apply gives_ret; exact Hr|exact Hr]. }
  assert (turns_left k ≤ Z.of_nat turns + 1) as Ht by lia.
  unfold walk_step. destruct (skip_slashes_spec (rest k)) as [[pre Hpre] Hhead].
  destruct (skip_slashes (rest k)) as [|b pending] eqn:Hs; [apply turn_problem; by apply res_end|].
  destruct (next_component (b :: pending)) as [name rest'] eqn:Hn. destruct (next_component_spec _ _ _ Hn) as (Heq & Hslash & Hr).
  assert (name ≠ []) as Hne.
  { intros ->. simpl in Heq. subst rest'. destruct Hr as [|Hr]; [done|]. by apply Hhead. }
  assert (Zlength' rest' < Zlength' (rest k)) as Hlt.
  { unfold Zlength'. rewrite Hpre, Heq, !length_app. destruct name; [done|]. simpl. lia. }
  assert (0 ∉ name ∧ 0 ∉ rest') as [Hz1 Hz2].
  { pose proof (walks_rest _ _ _ Hw) as Hz. rewrite Hpre, Heq, !not_elem_of_app in Hz. tauto. }
  rewrite <-Hs in Hn. destruct (decide (name = str ".")) as [->|H1].
  { apply gives_ret. destruct Hw as [? ? ? ? ? ? ? ?]. eapply (turn_goes_on _ _ _ p); [done| |unfold turns_left in *; simpl; lia|simpl; lia|].
    - split; done.
    - intros r Hres. by eapply res_here. }
  destruct (decide (name = str "..")) as [->|H2]; [by apply ascend_reports|].
  unfold innermost. pose proof (walks_opened _ _ _ Hw) as Ho.
  destruct (directories k) as [|d dirs] eqn:Hd; [destruct p; [pose proof (walks_chain _ _ _ Hw)|]; done|].
  apply gives_bind. eapply (gives_lift _ (λ a, a = d)); [by eapply runs_rd|]. intros ? ->.
  by eapply visit_reports.
Qed.
End walking.

(** ** The theorems *)

(** The root is a directory with a number that a [size_t] holds. *)
Definition mounted (w : Disk) (path : list Z) (root : list Z * node) : Prop :=
  mount_of path (mounts w) = Some [root] ∧ (∃ ino entries, root.2 = Directory ino entries ∧ Z.abs ino ≤ SIZE_MAX) ∧
  Forall (λ e, fst e < next_fd w) (table w).

(** Resolution has at most one result. *)
Lemma resolves_functional p path links r r' : resolves p path links r → resolves p path links r' → r = r'.
Proof.
  intros H. revert r'. induction H; intros r' H'; inversion H'; subst.
  all: repeat match goal with
    | H1 : next_component ?s = _, H2 : next_component ?s = _ |- _ => rewrite H1 in H2; injection H2; intros; clear H2; subst
    | H1 : skip_slashes ?s = [], H2 : next_component (skip_slashes ?s) = _ |- _ => rewrite H1 in H2; simpl in H2; injection H2; intros; clear H2; subst
    | H : plain_name _ |- _ => let A := fresh in let B := fresh in let C := fresh in destruct H as (A & _ & _ & B & C)
    end; try done; simplify_eq; auto.
  all: try (destruct_or?; destruct_and?; simplify_eq; try done; lia).
  all: match goal with H : (∃ _, _) ∨ _ |- _ => by destruct H as [[? ?]|?]; simplify_eq end.
Qed.

Lemma gives_close_directories (l : list Z) w (Q : unit → Disk → Prop) : Q tt w → gives (close_directories l) w Q.
Proof. intros HQ. induction l as [|d l IH]; [by apply gives_ret|]. apply gives_bind, gives_close, IH. Qed.

Lemma beneath_gives fuel a0 a1 a2 w root limit : mounted w (bytes_of a0) root →
  head (bytes_of a1) ≠ Some slash → bytes_of a1 ≠ [] → Zlength' (bytes_of a1) ≤ HC_ROOTED_PATH_MAX →
  0 ∉ bytes_of a1 → value_index a2 = Some limit → limit ≤ HC_MAX_BYTES →
  hc_string a0 V_PATH && hc_string a1 V_PATH && is_kind a2 V_NAT = true →
  gives (hc_read_beneath fuel a0 a1 a2) w (λ v _, reported limit [root] (bytes_of a1) 0 (Some v)).
Proof.
  intros (Hm & (ino & entries & Hr & Hino) & Hf) Ha1 Hne Hlen Hz Hi Hlim Hk. unfold hc_read_beneath.
  pose proof (index_nonneg _ _ Hi) as Hnn. destruct root as [n x]. simpl in Hr. subst x.
  rewrite Hk. cbn [negb]. rewrite !bool_decide_false by done. cbn [orb].
  destruct (Z.gtb_spec (Zlength' (bytes_of a1)) HC_ROOTED_PATH_MAX); [lia|]. rewrite Hi.
  destruct (Z.gtb_spec limit HC_MAX_BYTES); [lia|].
  apply gives_bind, gives_obtain. cbn [sys_open disk_posix]. unfold disk_open. rewrite Hm. cbn [allocate fst snd].
  apply gives_bind, gives_on. intros o. apply gives_ask. cbn [sys_fstat disk_posix fst snd table handle_of].
  rewrite decide_True by done. cbn [handle_stat node_stat st_kind]. rewrite bool_decide_true by done. cbn [negb].
  assert (large_identity (mkStat DirectoryKind 1 (Z.abs ino) 0) = false) as Hsmall.
  { unfold large_identity. cbn [st_dev st_ino]. unfold SIZE_MAX in *. destruct (Z.gtb_spec 1 (2 ^ 64 - 1)), (Z.gtb_spec (Z.abs ino) (2 ^ 64 - 1)); lia. }
  rewrite Hsmall. apply gives_bind. eapply (gives_or_none _ (λ _, True)); [apply runs_alloc|intros _ _|].
  2: { apply gives_bind, gives_close. eapply (gives_lift _ (failure_code "fs_read_beneath" "out_of_memory")).
    - eapply (hc_error_code _ _ _ _ no_trap). auto.
    - intros v Hv v' [= <-]. by left. }
  apply gives_bind, gives_on. intros o'. apply gives_obtain. cbn [sys_dup disk_posix table handle_of].
  rewrite decide_True by done. cbn [allocate fst snd mounts table next_fd].
  set (w1 := mkDisk _ _ _). apply gives_bind. eapply gives_mono.
  - apply (walk_exact fuel limit (mkStat DirectoryKind 1 (Z.abs ino) 0)) with (p := [(n, Directory ino entries)]).
    + split; simpl; lia.
    + done.
    + unfold HC_MAX_BYTES in *. lia.
    + split; cbn [directories prefix_lengths resolved symlinks rest]; try done.
      * cbn [chain]. unfold HC_ROOTED_DEPTH_MAX, HC_ROOTED_PATH_MAX, Zlength'. split_and!; simpl; try done; lia.
      * split; [|done]. unfold w1. cbn [table handle_of]. by rewrite decide_True.
      * unfold w1. cbn [table next_fd]. repeat constructor; simpl; try lia. eapply Forall_impl; [done|]. intros ?. simpl. lia.
      * unfold HC_ROOTED_SYMLINK_MAX. lia.
    + rewrite walk_turns_value. unfold turns_left. cbn [symlinks rest]. unfold HC_ROOTED_PATH_MAX in *. lia.
    + done.
  - intros [r dirs] w2 Hrep. apply gives_bind, gives_close_directories, gives_bind, gives_close. intros s al _. unfold give. destruct r; [done|done].
Qed.

(** C12: on a tree of files, a read beneath a mounted directory returns what the
    resolution of its path in the tree gives, whatever way symbolic links make it
    go: the contents of the file when they are within the limit, or the error of
    the resolution; an error of memory is the only other result.  A resolution
    has one result, and goes up only by [..], never above the root. *)
Theorem read_beneath_exact fuel a0 a1 a2 w root limit s al : hc_string a0 V_PATH = true → hc_string a1 V_PATH = true →
  mounted w (bytes_of a0) root → bytes_of a1 ≠ [] → head (bytes_of a1) ≠ Some slash →
  Zlength' (bytes_of a1) ≤ HC_ROOTED_PATH_MAX → value_index a2 = Some limit → limit ≤ HC_MAX_BYTES →
  HC_MAX_BYTES + 2 ≤ Z.of_nat fuel → world s = w →
  match hc_read_beneath fuel a0 a1 a2 s al with
  | (Ret v, _, _) =>
      failure_code "fs_read_beneath" "out_of_memory" v ∨
      ∃ r, resolves [root] (bytes_of a1) 0 r ∧ reports_result limit r v ∧ ∀ r', resolves [root] (bytes_of a1) 0 r' → r' = r
  | (NoMem, _, _) => True
  | (Trap _ _, _, _) | (Undef, _, _) | (Diverge, _, _) => False
  end.
Proof.
  intros H0 H1 Hm Hne Hs Hlen Hi Hl Hf Hw.
  assert (0 ∉ bytes_of a1) as Hz by (apply andb_true_iff in H1 as [_ H1%negb_true_iff]; by apply nul_free).
  assert (hc_string a0 V_PATH && hc_string a1 V_PATH && is_kind a2 V_NAT = true) as Hk.
  { rewrite H0, H1. by destruct a2. }
  pose proof (beneath_gives fuel a0 a1 a2 w root limit Hm Hs Hne Hlen Hz Hi Hl Hk s al Hw) as Hg.
  pose proof (wp_read_beneath fuel a0 a1 a2 s Hf al) as Ht.
  destruct (hc_read_beneath fuel a0 a1 a2 s al) as [[[v|k m| | |] s'] al'] eqn:He; try done.
  destruct (Hg v eq_refl) as [|(r & Hr & Hv)]; [by left|right]. exists r. split_and!; [done..|].
  intros r' Hr'. by eapply resolves_functional.
Qed.

(** A root with a directory, a file in it, and links to it: one back through the
    root, one that leads out. *)
Definition sample_root : list Z * node :=
  ([], Directory 2 [(str "a", Directory 3 [(str "f", File (str "hello")); (str "back", SymLink (str "../a/f")); (str "out", SymLink (str "../../etc"))]);
                    (str "l", SymLink (str "a/back"))]).
Definition sample_disk : Disk := mkDisk [(str "/srv", [sample_root])] [] 3.
Definition sample_request (path : string) (s : Sys Disk) : outcome Value * Sys Disk * allocator :=
  hc_read_beneath 16 (Path (str "/srv")) (Path (str path)) (Nat_ {| sign := 1; limbs := [100] |}) s [].

(** Through two links, one of which starts again at the root. *)
Example through_links :
  let '(o, s, _) := sample_request "a/../l" (mkSys sample_disk [] []) in
  (match o with Ret (Variant _ [Record_ _ _ [_; Bytes b]]) => bool_decide (b = str "hello") | _ => false end, bool_decide (held s = [])) = (true, true).
Proof. vm_compute. reflexivity. Qed.
Example not_outside :
  let '(o, s, _) := sample_request "a/out/passwd" (mkSys sample_disk [] []) in
  (match o with Ret (Variant _ [Record_ _ _ [_; Str t; _]]) => bool_decide (data t = str "invalid_argument") | _ => false end, bool_decide (held s = [])) = (true, true).
Proof. vm_compute. reflexivity. Qed.

Lemma sample_mounted : mounted sample_disk (str "/srv") sample_root.
Proof. split_and!; [done|by eexists _, _|constructor]. Qed.

Lemma read_beneath_exact_witness : ∃ fuel, HC_MAX_BYTES + 2 ≤ Z.of_nat fuel ∧
  match hc_read_beneath fuel (Path (str "/srv")) (Path (str "l")) (Nat_ {| sign := 1; limbs := [100] |}) (mkSys sample_disk [] []) [] with
  | (Ret v, _, _) => failure_code "fs_read_beneath" "out_of_memory" v ∨ ∃ r, resolves [sample_root] (str "l") 0 r ∧ reports_result 100 r v
  | (NoMem, _, _) => True
  | _ => False
  end.
Proof.
  exists (Z.to_nat 20000000). assert (HC_MAX_BYTES + 2 ≤ Z.of_nat (Z.to_nat 20000000)) as Hf.
  { rewrite Z2Nat.id by lia. vm_compute. discriminate. }
  split; [exact Hf|]. revert Hf. generalize (Z.to_nat 20000000). intros fuel Hf.
  assert (Zlength' (str "l") ≤ HC_ROOTED_PATH_MAX) as H1 by (vm_compute; discriminate).
  assert (100 ≤ HC_MAX_BYTES) as H2 by (vm_compute; discriminate).
  pose proof (read_beneath_exact fuel (Path (str "/srv")) (Path (str "l")) (Nat_ {| sign := 1; limbs := [100] |}) sample_disk sample_root 100
    (mkSys sample_disk [] []) [] eq_refl eq_refl sample_mounted ltac:(done) ltac:(done) H1 eq_refl H2 Hf eq_refl) as H.
  destruct (hc_read_beneath _ _ _ _ _ _) as [[[v|k m| | |] s'] al']; try exact H.
  destruct H as [H|(r & Hr & Hv & _)]; [left; exact H|right; exists r; split; [exact Hr|exact Hv]].
Defined.
