(* ===== verification/Capabilities.v ===== *)
(** * Host capabilities: the rest of src/src/vm/host_capabilities.c

    Files, directories, sleeping and decoding, and the dispatch of a capability
    by its name.  The calls beyond those of [Posix] are a second interface. *)

From Stdlib Require Import ZArith Lia Sorting.Sorted.
From stdpp Require Import prelude strings sorting.
From S2P Require Import Prelude Bigint Value Equal Numeric Utf8 Render Collections HostTypes Host.
From S2P Require Import Posix Rooted.

#[local] Open Scope Z_scope.

Definition HC_MAX_NS : Z := 31536000000000000.
Definition HC_MAX_FILE_BYTES : Z := 128 * 1024 * 1024.

(** ** The interface *)

(** A directory stream gives a name, its end, or an error; [nanosleep] gives an
    error and what is left to sleep. *)
Class Services (W : Type) := {
  sys_opendir : list Z → W → answer Z * W;
  sys_readdir : Z → W → answer (option (list Z)) * W;
  sys_closedir : Z → W → option Z * W;
  sys_nanosleep : Z → W → option (Z * Z) * W;
  sys_mkdtemp : list Z → W → answer (list Z) * W;
  sys_mkstemp : list Z → W → answer (Z * list Z) * W;
  sys_mkdir : list Z → W → option Z * W;
  sys_unlink : list Z → W → option Z * W;
  sys_rmdir : list Z → W → option Z * W;
}.

(** What the manual pages say of them: a stream is finite, its names are not
    empty and hold no NUL nor slash, a made name has no NUL; a sleep is
    interrupted only by a signal. *)
Class ServicesLaws (W : Type) `{!Posix W, !PosixLaws W, !Services W} := {
  entries_left : Z → W → nat;
  stream_bound : W → nat;
  opendir_bound p w d : fst (sys_opendir p w) = inl d → (entries_left d (snd (sys_opendir p w)) ≤ stream_bound w)%nat;
  opendir_signals p w : (signals (snd (sys_opendir p w)) ≤ signals w)%nat;
  readdir_signals d w : (signals (snd (sys_readdir d w)) ≤ signals w)%nat;
  closedir_signals d w : (signals (snd (sys_closedir d w)) ≤ signals w)%nat;
  nanosleep_signals n w : (signals (snd (sys_nanosleep n w)) ≤ signals w)%nat;
  mkdtemp_signals p w : (signals (snd (sys_mkdtemp p w)) ≤ signals w)%nat;
  mkstemp_signals p w : (signals (snd (sys_mkstemp p w)) ≤ signals w)%nat;
  mkdir_signals p w : (signals (snd (sys_mkdir p w)) ≤ signals w)%nat;
  unlink_signals p w : (signals (snd (sys_unlink p w)) ≤ signals w)%nat;
  rmdir_signals p w : (signals (snd (sys_rmdir p w)) ≤ signals w)%nat;
  nanosleep_interrupted n w e r : fst (sys_nanosleep n w) = Some (e, r) → e = EINTR → (signals (snd (sys_nanosleep n w)) < signals w)%nat;
  readdir_finite d w n : fst (sys_readdir d w) = inl (Some n) → (entries_left d (snd (sys_readdir d w)) < entries_left d w)%nat;
  lstat_numbers p w i : fst (sys_lstat p w) = inl i → st_size i < 2 ^ 63;
  readdir_names d w n : fst (sys_readdir d w) = inl (Some n) → n ≠ [] ∧ 0 ∉ n ∧ slash ∉ n ∧ Forall is_byte n ∧ Zlength' n < 2 ^ 32;
}.

(** ** Helpers *)

Definition hc_unit : M Value := host_variant "Ok" value_unit.

Definition hc_duration (n : PnBigInt) : string + Z :=
  if sign n <? 0 then inl "negative_duration"
  else match pn_big_fits_size n with
       | Some ns => if ns >? HC_MAX_NS then inl "out_of_range" else inr ns
       | None => inl "out_of_range"
       end.

Definition hc_path_compare (a b : list Z) : Z :=
  let n := Nat.min (length a) (length b) in
  let result := memcmp (take n a) (take n b) in
  if negb (result =? 0) then result
  else Z.b2z (Nat.ltb (length b) (length a)) - Z.b2z (Nat.ltb (length a) (length b)).

Definition path_le (a b : Value) : Prop := hc_path_compare (bytes_of a) (bytes_of b) ≤ 0.
#[global] Instance path_le_dec a b : Decision (path_le a b) := Z_le_dec _ _.

Section calls.
Context {W : Type} `{!Posix W, !Services W}.

(** ** Single calls *)

Definition opendir (path : list Z) : IO W (answer Z) := obtain (Named DirectoryMode path) (sys_opendir path).
Definition readdir (d : Z) : IO W (answer (option (list Z))) := on d (λ _, ask (sys_readdir d)).
Definition closedir (d : Z) : IO W (option Z) :=
  on d (λ _ s al, let '(e, w) := sys_closedir d (world s) in (Ret e, mkSys w (remove_one d (held s)) (reads s), al)).
Definition mkstemp (template : list Z) : IO W (answer (Z * list Z)) := λ s al,
  let '(a, w) := sys_mkstemp template (world s) in
  (Ret a, mkSys w (match a with inl (fd, name) => (fd, Named WriteMode name) :: held s | inr _ => held s end) (reads s), al).

Notation fails name code e := (lift (hc_error name code e)).

(** [host_sleep] *)
Fixpoint sleep_loop (fuel : nat) (delay : Z) : IO W Value :=
  match fuel with
  | O => endless
  | S fuel =>
      r ← ask (sys_nanosleep delay);
      match r with
      | None => lift hc_unit
      | Some (errno, left_) =>
          if negb (errno =? EINTR) then fails "host_sleep" None errno else sleep_loop fuel left_
      end
  end.
Definition host_sleep (fuel : nat) (a0 : Value) : IO W Value :=
  match a0 with
  | Duration n =>
      match hc_duration n with
      | inl problem => fails "host_sleep" (Some problem) 0
      | inr ns => sleep_loop fuel ns
      end
  | _ => stop "VM trap: sleep requires Duration"
  end.

Definition host_decode_utf8 (a0 : Value) : IO W Value :=
  match a0 with
  | Bytes b =>
      if negb (utf8 b) then fails "host_decode_utf8" (Some "invalid_utf8") 0
      else lift (host_variant "Ok" (value_data V_STR b))
  | _ => stop "VM trap: UTF-8 decode requires Bytes"
  end.

(** ** Files *)

Definition fs_read (fuel : nat) (path : list Z) (a1 : Value) : IO W Value :=
  match a1 with
  | Nat_ n =>
      match pn_big_fits_size n with
      | None => fails "fs_read" (Some "out_of_range") 0
      | Some limit =>
          if limit >? HC_MAX_FILE_BYTES then fails "fs_read" (Some "out_of_range") 0
          else
            fd ← open ReadMode path;
            match fd with
            | inr e => fails "fs_read" None e
            | inl fd =>
                info ← fstat fd;
                match info with
                | inr e => _ ← close fd; fails "fs_read" None e
                | inl info =>
                    if negb (bool_decide (st_kind info = RegularKind))
                    then _ ← close fd; fails "fs_read" (Some "not_regular_file") 0
                    else
                      '(problem, e, data) ← read_all fuel fd limit empty_buffer;
                      failed ← close fd;
                      let e := match failed with Some errno => if e =? 0 then errno else e | None => e end in
                      if negb (e =? 0) || bool_decide (problem ≠ None) then fails "fs_read" problem e
                      else lift (host_variant "Ok" (value_data V_BYTES (content data)))
                end
            end
      end
  | _ => stop "VM trap: read limit requires Nat"
  end.

(** [while (!e && at < length)]: the error, 0 when everything was written. *)
Fixpoint write_all (fuel : nat) (fd : Z) (bytes : list Z) : IO W Z :=
  match bytes with
  | [] => mret 0
  | _ =>
      match fuel with
      | O => endless
      | S fuel =>
          n ← write fd bytes;
          match n with
          | inl n => if 0 <? n then write_all fuel fd (drop (Z.to_nat n) bytes) else mret EIO
          | inr errno => if errno =? EINTR then write_all fuel fd bytes else mret errno
          end
      end
  end.

Definition fs_write (fuel : nat) (path : list Z) (a1 : Value) : IO W Value :=
  match a1 with
  | Bytes bytes =>
      if Zlength' bytes >? HC_MAX_FILE_BYTES then fails "fs_write" (Some "out_of_range") 0
      else
        fd ← open WriteMode path;
        match fd with
        | inr e => fails "fs_write" None e
        | inl fd =>
            info ← fstat fd;
            match info with
            | inl info =>
                if negb (bool_decide (st_kind info = RegularKind))
                then _ ← close fd; fails "fs_write" (Some "not_regular_file") 0
                else
                  truncated ← ftruncate fd;
                  e ← match truncated with Some errno => mret errno | None => write_all fuel fd bytes end;
                  failed ← close fd;
                  let e := match failed with Some errno => if e =? 0 then errno else e | None => e end in
                  if negb (e =? 0) then fails "fs_write" None e else lift hc_unit
            | inr e =>
                failed ← close fd;
                let e := match failed with Some errno => if e =? 0 then errno else e | None => e end in
                if negb (e =? 0) then fails "fs_write" None e else lift hc_unit
            end
        end
  | _ => stop "VM trap: write requires Bytes"
  end.

Definition kind_name (k : file_kind) : string :=
  match k with RegularKind => "RegularFile" | DirectoryKind => "Directory" | LinkKind => "SymbolicLink" | OtherKind => "OtherFile" end.

Definition fs_metadata (path : list Z) : IO W Value :=
  info ← ask (sys_lstat path);
  match info with
  | inr e => fails "fs_metadata" None e
  | inl info =>
      lift (host_variant "Ok"
        (kind ← named_value V_VARIANT (str (kind_name (st_kind info))) [] [];
         size ← value_size (if st_size info <? 0 then 0 else st_size info);
         named_value V_RECORD (str "FileMetadata") [str "kind"; str "size"] [kind; size]))
  end.

(** ** Directories *)

(** The loop of [fs_list]: a problem, its number, and the paths so far. *)
Fixpoint list_loop (fuel : nat) (dir : Z) (items : list Value) (bytes : Z) : IO W (option string * Z * list Value) :=
  match fuel with
  | O => endless
  | S fuel =>
      entry ← readdir dir;
      match entry with
      | inr errno => mret (None, errno, items)
      | inl None => mret (None, 0, items)
      | inl (Some name) =>
          if is_name name "." || is_name name ".." then list_loop fuel dir items bytes
          else
            let n := Z.of_nat (strlen name) in
            let bytes := u64 (bytes + n) in
            if (bytes >? HC_MAX_BYTES) || (65536 <=? Zlength' items) then mret (Some "output_limit", 0, items)
            else
              grown ← or_none alloc;
              match grown with
              | None => mret (Some "out_of_memory", 0, items)
              | Some _ =>
                  item ← or_none (value_data V_PATH (take (strlen name) name));
                  match item with
                  | None => mret (Some "out_of_memory", 0, items)
                  | Some item => list_loop fuel dir (items ++ [item]) bytes
                  end
              end
      end
  end.

Definition fs_list (fuel : nat) (path : list Z) : IO W Value :=
  dir ← opendir path;
  match dir with
  | inr e => fails "fs_list" None e
  | inl dir =>
      '(problem, e, items) ← list_loop fuel dir [] 0;
      failed ← closedir dir;
      let e := match failed with Some errno => if e =? 0 then errno else e | None => e end in
      let items := merge_sort path_le items in
      if negb (e =? 0) || bool_decide (problem ≠ None) then fails "fs_list" problem e
      else lift (host_variant "Ok" (value_sequence V_ARRAY items))
  end.

(** ** Temporary files *)

(** The result; when it could not be made, what was created is removed again. *)
Definition temp_result (name : string) (directory : bool) (e : Z) (created : list Z) : IO W Value :=
  result ← or_none (if negb (e =? 0) then hc_error name None e else host_variant "Ok" (value_data V_PATH created));
  _ ← match result with
      | None =>
          if e =? 0 then (if directory then ask (sys_rmdir created) else ask (sys_unlink created)) else mret None
      | Some _ => mret None
      end;
  give result.

Definition fs_temp (name : string) (directory : bool) (path : list Z) : IO W Value :=
  template ← or_none (b ← buffer_text empty_buffer path; buffer_text b (str "/panack-XXXXXX"));
  match template with
  | None => give None
  | Some template =>
      if directory then
        made ← ask (sys_mkdtemp (content template));
        match made with
        | inr e => temp_result name directory e (content template)
        | inl created => temp_result name directory 0 created
        end
      else
        made ← mkstemp (content template);
        match made with
        | inr e => temp_result name directory e (content template)
        | inl (fd, created) =>
            failed ← close fd;
            match failed with
            | Some e => _ ← ask (sys_unlink created); temp_result name directory e created
            | None => temp_result name directory 0 created
            end
        end
  end.

Definition fs_change (name : list Z) (path : list Z) : IO W Value :=
  failed ← (if is_name name "fs_create_directory" then ask (sys_mkdir path)
            else if is_name name "fs_remove_file" then ask (sys_unlink path)
            else ask (sys_rmdir path));
  match failed with
  | Some e =>
      fails (if is_name name "fs_create_directory" then "fs_create_directory"
             else if is_name name "fs_remove_file" then "fs_remove_file" else "fs_remove_directory") None e
  | None => lift hc_unit
  end.

(** ** Dispatch *)

(** [process] is [hc_process], given whether the environment is exact. *)
Definition host_capability_call (process : bool → list Value → IO W Value) (fuel : nat) (name : list Z) (a : list Value) : IO W Value :=
  let arg i := lift (rd a i) in
  if is_name name "fs_root_identity" then a0 ← arg 0%nat; hc_root_identity a0
  else if is_name name "fs_read_beneath" then
    a0 ← arg 0%nat; a1 ← arg 1%nat; a2 ← arg 2%nat; hc_read_beneath fuel a0 a1 a2
  else if is_name name "fs_directories_overlap" then a0 ← arg 0%nat; a1 ← arg 1%nat; hc_directories_overlap a0 a1
  else if is_name name "process_run" || is_name name "process_run_isolated"
  then process (is_name name "process_run_isolated") a
  else if is_name name "host_decode_utf8" then a0 ← arg 0%nat; host_decode_utf8 a0
  else if is_name name "host_sleep" then a0 ← arg 0%nat; host_sleep fuel a0
  else
    a0 ← arg 0%nat;
    if negb (hc_string a0 V_PATH) then stop "VM trap: filesystem requires Path"
    else
      let path := bytes_of a0 in
      if is_name name "fs_read" then a1 ← arg 1%nat; fs_read fuel path a1
      else if is_name name "fs_write" then a1 ← arg 1%nat; fs_write fuel path a1
      else if is_name name "fs_metadata" then fs_metadata path
      else if is_name name "fs_list" then fs_list fuel path
      else if is_name name "fs_temp_file" then fs_temp "fs_temp_file" false path
      else if is_name name "fs_temp_directory" then fs_temp "fs_temp_directory" true path
      else fs_change name path.
End calls.

(** ** The order of paths *)

Lemma hc_path_compare_lex a b : hc_path_compare a b = lex a b.
Proof.
  unfold hc_path_compare. rewrite <-compare_strings_lex. cbv zeta. destruct (negb _); [done|]. unfold sign_of_difference.
  destruct (Nat.ltb_spec (length b) (length a)), (Nat.ltb_spec (length a) (length b)),
    (Z.ltb_spec (Z.of_nat (length b)) (Z.of_nat (length a))), (Z.ltb_spec (Z.of_nat (length a)) (Z.of_nat (length b))); simpl; lia.
Qed.
Lemma lex_antisym a b : lex b a = - lex a b.
Proof.
  revert b. induction a as [|x a IH]; intros [|y b]; simpl; try done.
  destruct (Z.eqb_spec x y), (Z.eqb_spec y x), (Z.ltb_spec x y), (Z.ltb_spec y x); try lia; apply IH.
Qed.
Lemma lex_le_trans a b c : lex a b ≤ 0 → lex b c ≤ 0 → lex a c ≤ 0.
Proof.
  revert b c. induction a as [|x a IH]; intros [|y b] [|z c]; simpl; try lia.
  destruct (Z.eqb_spec x y), (Z.eqb_spec y z), (Z.eqb_spec x z), (Z.ltb_spec x y), (Z.ltb_spec y z), (Z.ltb_spec x z); subst; try lia; eauto.
Qed.
#[global] Instance path_le_total : Total path_le.
Proof. intros a b. unfold path_le. rewrite !hc_path_compare_lex, (lex_antisym (bytes_of a) (bytes_of b)). lia. Qed.
#[global] Instance path_le_trans : Transitive path_le.
Proof. intros a b c. unfold path_le. rewrite !hc_path_compare_lex. apply lex_le_trans. Qed.

(** ** Every call returns, and leaves no descriptor open *)

Section specified.
Context {W : Type} `{!Posix W, !PosixLaws W, !Services W, !ServicesLaws W}.
Implicit Types s : Sys W.

(** What a call leaves, with its result. *)
Definition ends_clean s (op : string) (P : Value → Prop) (v : Value) s' : Prop := left_clean s s' ∧ result_of op P v.

Lemma wp_fails op code e P s s' : left_clean s s' →
  wp (lift (hc_error op code e)) s' (ends_clean s op P) (left_clean s).
Proof. intros Hc. apply wp_fail; [|done]. intros v Hv. split; [done|by left]. Qed.
Lemma wp_ok op P (m : M Value) s s' : left_clean s s' → runs m P (λ _ _, True) →
  wp (lift (host_variant "Ok" m)) s' (ends_clean s op P) (left_clean s).
Proof.
  intros Hc Hm. eapply (wp_lift _ (result_of op P)); [|by intros v Hv|done].
  eapply host_ok_spec; [done|]. intros x Hx. right. eauto.
Qed.
Lemma unit_runs E : runs value_unit (λ v, v = VUnit) E.
Proof. unfold value_unit. mbind runs_alloc as ? _. by mret. Qed.
Lemma left_clean_trans s s1 s2 : left_clean s s1 → left_clean s1 s2 → left_clean s s2.
Proof. intros [H1 N1] [H2 N2]. split; [congruence|lia]. Qed.
Lemma later_clean s s' : later s s' → left_clean s s'.
Proof. intros (H1 & _ & N1). by split. Qed.

Lemma wp_sleep_loop fuel delay s s0 : left_clean s0 s → (signals (world s) < fuel)%nat →
  wp (sleep_loop fuel delay) s (ends_clean s0 "host_sleep" (λ x, x = VUnit)) (left_clean s0).
Proof.
  revert delay s. induction fuel as [|fuel IH]; intros delay s Hc Hf; [lia|]. simpl. apply wp_bind, wp_ask.
  pose proof (nanosleep_signals delay (world s)) as Hn. pose proof (nanosleep_interrupted delay (world s)) as Hi.
  destruct (sys_nanosleep delay (world s)) as [r w]. simpl in *.
  assert (left_clean s0 (mkSys w (held s) (reads s))) as Hc' by (destruct Hc; split; simpl; [done|lia]).
  destruct r as [[e l]|]; [|apply wp_ok; [done|apply unit_runs]].
  destruct (Z.eqb_spec e EINTR) as [->|]; simpl; [|by apply wp_fails].
  apply IH; [done|]. specialize (Hi _ _ eq_refl eq_refl). simpl. lia.
Qed.
Lemma wp_host_sleep fuel a0 s : (signals (world s) < fuel)%nat →
  wp (host_sleep fuel a0) s (ends_clean s "host_sleep" (λ x, x = VUnit)) (left_clean s).
Proof.
  intros Hf. unfold host_sleep. destruct a0; try (by apply wp_stop).
  destruct (hc_duration n); [by apply wp_fails|by apply wp_sleep_loop].
Qed.

Lemma wp_host_decode_utf8 a0 s :
  wp (host_decode_utf8 a0) s
    (ends_clean s "host_decode_utf8" (λ x, ∃ b, a0 = Bytes b ∧ utf8 b = true ∧ x = Str (text_of b))) (left_clean s).
Proof.
  unfold host_decode_utf8. destruct a0; try (by apply wp_stop). destruct (utf8 bytes) eqn:Hu; simpl; [|by apply wp_fails].
  apply wp_ok; [done|]. apply value_data_spec. eauto.
Qed.

Lemma wp_fs_metadata path s :
  wp (fs_metadata path) s (ends_clean s "fs_metadata" (λ x, ∃ k n, x = Record_ (str "FileMetadata") [str "kind"; str "size"]
    [Variant (str (kind_name k)) []; Nat_ n] ∧ wf n ∧ 0 ≤ to_Z n)) (left_clean s).
Proof.
  unfold fs_metadata. apply wp_bind, wp_ask. pose proof (lstat_signals path (world s)) as Hs. pose proof (lstat_numbers path (world s)) as Hn.
  destruct (sys_lstat path (world s)) as [i w]. simpl in *.
  assert (left_clean s (mkSys w (held s) (reads s))) as Hc by done.
  destruct i as [i|e]; [|by apply wp_fails]. specialize (Hn _ eq_refl). apply wp_ok; [done|].
  eapply (runs_bind _ _ (λ v, v = Variant (str (kind_name (st_kind i))) [])); [apply variant_spec; by destruct (st_kind i)|]. intros ? ->.
  eapply (runs_bind _ _ (λ v, ∃ n, v = Nat_ n ∧ wf n ∧ 0 ≤ to_Z n)).
  { apply size_spec; [destruct (Z.ltb_spec (st_size i) 0); lia|]. intros b Wb Hb. exists b. split_and!; [done..|].
    rewrite Hb. destruct (Z.ltb_spec (st_size i) 0); lia. }
  intros ? (n & -> & Hwf & Hn0). apply record_spec. eauto 10.
Qed.

(** A descriptor is closed, and the call fails. *)
Lemma wp_close_fails op code e P fd o s s1 : held s1 = (fd, o) :: held s → (signals (world s1) ≤ signals (world s))%nat →
  wp (_ ← close fd; lift (hc_error op code e)) s1 (ends_clean s op P) (left_clean s).
Proof.
  intros Hh Hs. apply wp_bind. eapply wp_close_head; [done|]. intros _ w Hw. apply wp_fails. split; simpl; [done|lia].
Qed.

Lemma fits_nonneg n l : pn_big_fits_size n = Some l → 0 ≤ l.
Proof. intros H. by apply (index_nonneg (Nat_ n)). Qed.

Lemma wp_fs_read fuel path a1 s : Z.of_nat (signals (world s)) + HC_MAX_FILE_BYTES + 2 ≤ Z.of_nat fuel →
  wp (fs_read fuel path a1) s
    (ends_clean s "fs_read" (λ x, ∃ b limit, x = Bytes b ∧ value_index a1 = Some limit ∧ Zlength' b ≤ limit ∧ Forall is_byte b)) (left_clean s).
Proof.
  intros Hf. unfold fs_read. destruct a1; try (by apply wp_stop).
  destruct (pn_big_fits_size n) as [limit|] eqn:Hl; [|by apply wp_fails]. pose proof (fits_nonneg _ _ Hl) as Hnn.
  destruct (Z.gtb_spec limit HC_MAX_FILE_BYTES); [by apply wp_fails|].
  apply wp_bind, wp_open; [|intros e s' Hs; by apply wp_fails, later_clean]. intros fd w Hw.
  apply wp_bind, wp_fstat; [simpl; rewrite decide_True by done; by eexists|]. intros info s1 (H1 & R1 & S1) _. simpl in H1, S1.
  destruct info as [info|e]; [|eapply wp_close_fails; [done|lia]].
  destruct (bool_decide (st_kind info = RegularKind)); simpl; [|eapply wp_close_fails; [done|lia]].
  apply wp_bind. eapply wp_read_all; [done|by right|done|unfold Zlength'; simpl; lia|unfold HC_MAX_FILE_BYTES in *; lia|unfold Zlength'; simpl; lia|].
  intros problem e data rs w2 Hw2 _ _ Hb Hlen. apply wp_bind. eapply wp_close_head; [done|]. simpl. intros failed w3 Hw3.
  assert (left_clean s (mkSys w3 (held s) (rs ++ reads s1))) as Hc by (split; simpl; [done|lia]).
  destruct (negb _ || _); [by apply wp_fails|]. apply wp_ok; [done|]. apply value_data_spec. exists (content data), limit. done.
Qed.

Lemma wp_write_all fuel fd o h bytes s (Q : Z → Sys W → Prop) X : held s = (fd, o) :: h →
  (signals (world s) + length bytes < fuel)%nat →
  (∀ e s', held s' = (fd, o) :: h → (signals (world s') ≤ signals (world s))%nat → Q e s') → wp (write_all fuel fd bytes) s Q X.
Proof.
  revert bytes s. induction fuel as [|fuel IH]; intros bytes s Hh Hf HQ; [lia|]. destruct bytes as [|b bytes]; [by apply wp_ret, HQ|].
  cbn [write_all]. apply wp_bind, wp_write; [rewrite Hh, origin_of_head; by eexists|]. intros a s1 (H1 & _ & S1) Hi Hn. rewrite Hh in H1.
  destruct a as [n|e].
  - specialize (Hn _ eq_refl). destruct (Z.ltb_spec 0 n); [|by apply wp_ret, HQ].
    apply IH; [done| |intros e s2 H2 S2; apply HQ; [done|lia]]. rewrite length_drop. simpl length in *. unfold Zlength' in Hn. simpl length in Hn. lia.
  - destruct (Z.eqb_spec e EINTR) as [->|]; [|by apply wp_ret, HQ]. specialize (Hi eq_refl).
    apply IH; [done|simpl length in *; lia|]. intros e s2 H2 S2. apply HQ; [done|lia].
Qed.

Lemma wp_fs_write fuel path a1 s : Z.of_nat (signals (world s)) + HC_MAX_FILE_BYTES + 2 ≤ Z.of_nat fuel →
  wp (fs_write fuel path a1) s (ends_clean s "fs_write" (λ x, x = VUnit)) (left_clean s).
Proof.
  intros Hf. unfold fs_write. destruct a1; try (by apply wp_stop).
  destruct (Z.gtb_spec (Zlength' bytes) HC_MAX_FILE_BYTES); [by apply wp_fails|].
  apply wp_bind, wp_open; [|intros e s' Hs; by apply wp_fails, later_clean]. intros fd w Hw.
  apply wp_bind, wp_fstat; [simpl; rewrite decide_True by done; by eexists|]. intros info s1 (H1 & R1 & S1) _. simpl in H1, S1.
  assert (∀ e s2, held s2 = (fd, Named WriteMode path) :: held s → (signals (world s2) ≤ signals (world s))%nat →
    wp (failed ← close fd;
        let e := match failed with Some errno => if e =? 0 then errno else e | None => e end in
        if negb (e =? 0) then lift (hc_error "fs_write" None e) else lift hc_unit) s2
      (ends_clean s "fs_write" (λ x, x = VUnit)) (left_clean s)) as Hend.
  { intros e s2 H2 S2. apply wp_bind. eapply wp_close_head; [done|]. intros failed w2 Hw2. cbv zeta.
    assert (left_clean s (mkSys w2 (held s) (reads s2))) as Hc by (split; simpl; [done|lia]).
    destruct (negb _); [by apply wp_fails|]. apply wp_ok; [done|apply unit_runs]. }
  destruct info as [info|e]; [|apply Hend; [done|lia]].
  destruct (bool_decide (st_kind info = RegularKind)); simpl; [|eapply wp_close_fails; [done|lia]].
  apply wp_bind, wp_ftruncate; [rewrite H1, origin_of_head; by eexists|]. intros t s2 (H2 & _ & S2). rewrite H1 in H2.
  apply wp_bind. destruct t as [e|]; [apply wp_ret, Hend; [done|lia]|].
  eapply wp_write_all; [done|unfold Zlength' in *; lia|]. intros e s3 H3 S3. apply Hend; [done|lia].
Qed.

(** An entry of a listing. *)
Definition listed (x : Value) : Prop := ∃ n, x = Path n ∧ plain_name n.

Lemma cstr_whole (l : list Z) : 0 ∉ l → cstr l = l.
Proof.
  induction l as [|c l IH]; [done|]. intros [Hc Hs]%not_elem_of_cons. simpl. destruct (Z.eqb_spec c 0); [congruence|]. by rewrite IH.
Qed.
Lemma not_named n t : 0 ∉ n → cstr (str t) = str t → is_name n t = false → n ≠ str t.
Proof.
  intros Hz Ht Hn ->. unfold is_name in Hn. rewrite streq_cstr in Hn. by apply bool_decide_eq_false in Hn.
Qed.

Lemma wp_list_loop fuel dir o h items bytes s (Q : option string * Z * list Value → Sys W → Prop) X : held s = (dir, o) :: h →
  (entries_left dir (world s) < fuel)%nat → Forall listed items → Zlength' items ≤ 65536 →
  (∀ problem e items' s', held s' = (dir, o) :: h → (signals (world s') ≤ signals (world s))%nat → Forall listed items' →
     Zlength' items' ≤ 65536 → Q (problem, e, items') s') →
  wp (list_loop fuel dir items bytes) s Q X.
Proof.
  revert items bytes s. induction fuel as [|fuel IH]; intros items bytes s Hh Hf Hi Hn HQ; [lia|]. cbn [list_loop].
  apply wp_bind. eapply wp_on; [rewrite Hh; apply origin_of_head|]. apply wp_ask.
  pose proof (readdir_signals dir (world s)) as Hs. pose proof (readdir_finite dir (world s)) as Hfin.
  pose proof (readdir_names dir (world s)) as Hnames. destruct (sys_readdir dir (world s)) as [a w]. cbn [fst snd] in *.
  destruct a as [[name|]|e]; [|apply wp_ret, HQ; done..]. specialize (Hfin _ eq_refl).
  destruct (Hnames _ eq_refl) as (Hne & Hz & Hsl & Hb & Hlen).
  assert (∀ (s' : Sys W) items', held s' = (dir, o) :: h → world s' = w → Forall listed items' → Zlength' items' ≤ 65536 →
    ∀ bytes', wp (list_loop fuel dir items' bytes') s' Q X) as Hrec.
  { intros s' items' Hh' Hw' Hi' Hn' bytes'. apply IH; [done|rewrite Hw'; lia|done|done|].
    intros problem e items'' s'' H1 H2 H3 H4. apply HQ; try done. rewrite Hw' in H2. lia. }
  destruct (is_name name "." || is_name name "..") eqn:Hdots; [by apply Hrec|].
  apply orb_false_iff in Hdots as [Hd1 Hd2]. destruct (_ || _) eqn:Hlim; [by apply wp_ret, HQ|].
  apply orb_false_iff in Hlim as [_ Hcount]. apply Z.leb_gt in Hcount.
  apply wp_bind. eapply (wp_or_none _ (λ _, True)); [apply runs_alloc|intros _ _|by apply wp_ret, HQ].
  apply wp_bind. eapply (wp_or_none _ (λ v, v = Path name)); [|intros ? ->|by apply wp_ret, HQ].
  { apply value_data_spec. f_equal. unfold strlen. rewrite cstr_whole by done. by rewrite take_ge. }
  apply Hrec; [done|done| |].
  - apply Forall_app. split; [done|]. constructor; [|done]. exists name. split; [done|]. split_and!; try done; by apply not_named.
  - unfold Zlength' in *. rewrite length_app. simpl. lia.
Qed.

Lemma sequence_runs l (P : Value → Prop) E : P (Array l) → runs (value_sequence V_ARRAY l) P E.
Proof. intros HP. unfold value_sequence. mbind runs_alloc as ? _. mbind runs_calloc as ? _. by mret. Qed.

Lemma wp_fs_list fuel path s : (stream_bound (world s) < fuel)%nat →
  wp (fs_list fuel path) s
    (ends_clean s "fs_list" (λ x, ∃ l, x = Array l ∧ StronglySorted path_le l ∧ Forall listed l)) (left_clean s).
Proof.
  intros Hf. unfold fs_list. apply wp_bind, wp_obtain_answer.
  pose proof (opendir_signals path (world s)) as Hs. pose proof (opendir_bound path (world s)) as Hb.
  destruct (sys_opendir path (world s)) as [[dir|e] w]; cbn [fst snd] in *; [|by apply wp_fails].
  specialize (Hb _ eq_refl). apply wp_bind. eapply wp_list_loop; [done|simpl; lia|constructor|done|].
  intros problem e items s1 H1 S1 Hl _. simpl in S1. apply wp_bind. eapply wp_on; [rewrite H1; apply origin_of_head|].
  intros al. pose proof (closedir_signals dir (world s1)) as Hc. destruct (sys_closedir dir (world s1)) as [failed w2].
  rewrite H1, remove_head. cbn [snd] in Hc. cbv beta zeta.
  assert (left_clean s (mkSys w2 (held s) (reads s1))) as Hclean by (split; simpl; [done|lia]).
  destruct (negb _ || _); [by apply wp_fails|]. apply wp_ok; [done|]. apply sequence_runs. eexists. split; [done|].
  split; [apply StronglySorted_merge_sort; apply _|]. by rewrite merge_sort_Permutation.
Qed.

Lemma cstr_length (l : list Z) : (length (cstr l) ≤ length l)%nat.
Proof. induction l as [|c l IH]; simpl; [done|]. destruct (c =? 0); simpl; lia. Qed.

Lemma wp_temp_result name directory e created s s1 : left_clean s s1 →
  wp (temp_result name directory e created) s1 (ends_clean s name (λ x, x = Path created)) (left_clean s).
Proof.
  intros Hc. unfold temp_result. apply wp_bind. eapply (wp_or_none _ (result_of name (λ x, x = Path created))).
  - destruct (negb _).
    + apply hc_error_spec. intros v Hv. by left.
    + eapply (host_ok_spec _ (λ x, x = Path created)); [by apply value_data_spec|]. intros x ->. right. eauto.
  - intros v Hv. apply wp_bind, wp_ret, wp_give. done.
  - apply wp_bind. destruct (e =? 0); [|by apply wp_ret, wp_give].
    assert (∀ f : W → option Z * W, (signals (snd (f (world s1))) ≤ signals (world s1))%nat →
      wp (ask f) s1 (λ _ s', wp (give None) s' (ends_clean s name (λ x, x = Path created)) (left_clean s)) (left_clean s)) as Hask.
    { intros f Hn. apply wp_ask, wp_give. destruct Hc. split; simpl; [done|lia]. }
    destruct directory; apply Hask; [apply rmdir_signals|apply unlink_signals].
Qed.

Lemma wp_fs_temp name directory path s : Zlength' path < 2 ^ 32 →
  wp (fs_temp name directory path) s (ends_clean s name (λ x, ∃ p, x = Path p)) (left_clean s).
Proof.
  intros Hlen. unfold fs_temp. apply wp_bind. eapply (wp_or_none _ (λ _, True)); [|intros t _|by apply wp_give].
  { unfold buffer_text. pose proof (cstr_length path) as Hcl. eapply runs_bind; [apply buffer_add_spec; [by right|unfold room, Zlength' in *; simpl; lia]|].
    intros b [Hb Hcb]. eapply runs_mono; [apply buffer_add_spec; [done|]|done|done].
    unfold room. rewrite Hcb. unfold Zlength' in *. simpl. lia. }
  assert (∀ e created s1, left_clean s s1 → wp (temp_result name directory e created) s1 (ends_clean s name (λ x, ∃ p, x = Path p)) (left_clean s)) as Hres.
  { intros e created s1 Hc. eapply wp_mono; [by apply wp_temp_result| |done].
    intros v s2 [H1 [Hf|(x & -> & ->)]]; split; [done|by left|done|right; eauto]. }
  destruct directory.
  - apply wp_bind, wp_ask. pose proof (mkdtemp_signals (content t) (world s)). destruct (sys_mkdtemp _ _) as [[c|e] w]; by apply Hres.
  - apply wp_bind. intros al. unfold mkstemp. pose proof (mkstemp_signals (content t) (world s)) as Hm.
    destruct (sys_mkstemp _ _) as [[[fd created]|e] w]; cbn [fst snd] in Hm; cbv beta; [|by apply Hres].
    apply wp_bind. eapply wp_close_head; [done|]. simpl. intros failed w2 Hw2.
    assert (left_clean s (mkSys w2 (held s) (reads s))) as Hclean by (split; simpl; [done|lia]).
    destruct failed as [e|]; [|by apply Hres]. apply wp_bind, wp_ask. apply Hres.
    pose proof (unlink_signals created w2). split; simpl; [done|lia].
Qed.

Lemma wp_fs_change name path s : wp (fs_change name path) s (λ v s', left_clean s s' ∧ ∃ op, result_of op (λ x, x = VUnit) v) (left_clean s).
Proof.
  unfold fs_change. apply wp_bind.
  assert (∀ f : W → option Z * W, (signals (snd (f (world s))) ≤ signals (world s))%nat →
    ∀ op, wp (ask f) s (λ failed s', wp (match failed with Some e => lift (hc_error op None e) | None => lift hc_unit end) s'
      (λ v s', left_clean s s' ∧ ∃ op, result_of op (λ x, x = VUnit) v) (left_clean s)) (left_clean s)) as Hask.
  { intros f Hn op. apply wp_ask. assert (left_clean s (mkSys (snd (f (world s))) (held s) (reads s))) as Hc by done.
    eapply (wp_mono _ _ (ends_clean s op (λ x, x = VUnit))); [|intros v s' []; eauto|done].
    destruct (fst (f (world s))); [by apply wp_fails|apply wp_ok; [done|apply unit_runs]]. }
  destruct (is_name name "fs_create_directory"); [apply Hask, mkdir_signals|].
  destruct (is_name name "fs_remove_file"); apply Hask; [apply unlink_signals|apply rmdir_signals].
Qed.
End specified.
