(* ===== verification/Process.v ===== *)
(** * Running a program: [hc_process] of src/src/vm/host_capabilities.c

    A child process with its input, output and a pipe that reports a failed
    launch; the loop that feeds it, collects its output under a limit and waits
    for it under a timeout; and the cleanup at every end.  What the child does
    between [fork] and [execve] is the plan that [fork] is given.  The masking
    of SIGPIPE is one call that may fail.  Runs are modelled without a coverage
    collector. *)

From Stdlib Require Import ZArith Lia Sorting.Sorted.
From stdpp Require Import prelude strings.
From S2P Require Import Prelude Bigint Value Numeric Utf8 Render Collections HostTypes Host Posix.
From S2P Require Import Rooted Capabilities.

#[local] Open Scope Z_scope.

Definition ECHILD : Z := 10.

(** What the child does: its descriptors, its directory, and what it executes. *)
Record ChildPlan := mkChildPlan {
  plan_streams : list Z;
  plan_report : Z;
  plan_directory : list Z;
  plan_argv : list (list Z);
  plan_env : list (list Z);
}.

(** ** The interface *)

Class Processes (W : Type) := {
  sys_clock : W → answer Z * W;
  sys_pipe : W → answer (Z * Z) * W;
  sys_dupfd : Z → W → answer Z * W;
  sys_cloexec : Z → W → option Z * W;
  sys_nonblock : Z → W → option Z * W;
  sys_fork : ChildPlan → W → answer Z * W;
  sys_setpgid : Z → W → option Z * W;
  sys_poll : list Z → Z → W → answer (list bool) * W;
  sys_sigblock : W → option Z * W;
  sys_kill : Z → W → option Z * W;
  (** a status, or none yet; and a status *)
  sys_waitpid_nohang : Z → W → answer (option Z) * W;
  sys_waitpid : Z → W → answer Z * W;
}.

(** What the manual pages say of them: descriptors are not negative, numbers of
    processes positive; [poll] ignores negative descriptors; waiting for a child
    fails only when it is interrupted.  Of the calls that can be interrupted, and
    of the readings of the clock before the time [horizon], there are finitely
    many. *)
Class ProcessesLaws (W : Type) `{!Posix W, !PosixLaws W, !Processes W} := {
  horizon : Z;
  clock_signals w : (signals (snd (sys_clock w)) ≤ signals w)%nat;
  clock_finite w now : fst (sys_clock w) = inl now → now < horizon → (signals (snd (sys_clock w)) < signals w)%nat;
  clock_range w now : fst (sys_clock w) = inl now → 0 ≤ now < 2 ^ 64;
  pipe_signals w : (signals (snd (sys_pipe w)) ≤ signals w)%nat;
  pipe_descriptors w r n : fst (sys_pipe w) = inl (r, n) → 0 ≤ r ∧ 0 ≤ n;
  dupfd_signals d w : (signals (snd (sys_dupfd d w)) ≤ signals w)%nat;
  dupfd_descriptor d w r : fst (sys_dupfd d w) = inl r → 0 ≤ r;
  cloexec_signals d w : (signals (snd (sys_cloexec d w)) ≤ signals w)%nat;
  nonblock_signals d w : (signals (snd (sys_nonblock d w)) ≤ signals w)%nat;
  fork_signals p w : (signals (snd (sys_fork p w)) ≤ signals w)%nat;
  fork_child p w c : fst (sys_fork p w) = inl c → 0 < c;
  setpgid_signals c w : (signals (snd (sys_setpgid c w)) ≤ signals w)%nat;
  poll_signals l t w : (signals (snd (sys_poll l t w)) ≤ signals w)%nat;
  poll_ignores l t w b i d : fst (sys_poll l t w) = inl b → b !! i = Some true → l !! i = Some d → 0 ≤ d;
  poll_length l t w b : fst (sys_poll l t w) = inl b → length b = length l;
  sigblock_signals w : (signals (snd (sys_sigblock w)) ≤ signals w)%nat;
  kill_signals c w : (signals (snd (sys_kill c w)) ≤ signals w)%nat;
  nohang_signals c w : (signals (snd (sys_waitpid_nohang c w)) ≤ signals w)%nat;
  waitpid_signals c w : (signals (snd (sys_waitpid c w)) ≤ signals w)%nat;
  waitpid_interrupted c w e : fst (sys_waitpid c w) = inr e → e = EINTR ∧ (signals (snd (sys_waitpid c w)) < signals w)%nat;
}.

(** ** Arguments and environment *)

Definition equals_sign : Z := 61.
(** [strchr(entry, '=') - entry] *)
Fixpoint name_length (entry : list Z) : option nat :=
  match entry with
  | [] => None
  | c :: entry => if c =? 0 then None else if c =? equals_sign then Some 0%nat else S <$> name_length entry
  end.
(** [!strncmp(prior, entry, n) && prior[n] == '='] *)
Definition same_variable (prior entry : list Z) (n : nat) : bool := names_entry (take n entry) prior.

(** The checks of a list: passed, a trap, or an error code. *)
Inductive checked := Passed | Refused (message : string) | Invalid (code : string).

Fixpoint check_arguments (items : list Value) : checked :=
  match items with
  | [] => Passed
  | v :: items =>
      if negb (is_kind v V_STR) then Refused "VM trap: process argument requires Str"
      else if negb (hc_string v V_STR) then Invalid "invalid_argument"
      else check_arguments items
  end.

Fixpoint check_environment (prior items : list Value) : checked :=
  match items with
  | [] => Passed
  | v :: items =>
      if negb (is_kind v V_STR) then Refused "VM trap: environment entry requires Str"
      else
        match name_length (bytes_of v) with
        | Some (S _ as n) =>
            if negb (hc_string v V_STR) then Invalid "invalid_environment"
            else if existsb (λ p, same_variable (bytes_of p) (bytes_of v) n) prior then Invalid "invalid_environment"
            else check_environment (prior ++ [v]) items
        | _ => Invalid "invalid_environment"
        end
  end.

(** Whether an inherited entry is given a new value. *)
Definition replaced (additions : list Value) (inherited : list Z) : bool :=
  existsb (λ v, same_variable inherited (bytes_of v) (default 0%nat (name_length (bytes_of v)))) additions.

Fixpoint copies (l : list (list Z)) : M (list (list Z)) :=
  match l with [] => mret [] | x :: l => x ← copy_text x; l ← copies l; mret (x :: l) end.

(** The environment of the child: the inherited entries that are not replaced,
    then those that were given. *)
Definition child_environment (inherited : list (list Z)) (additions : list Value) : list (list Z) :=
  filter (λ e, replaced additions e = false) inherited ++ (bytes_of <$> additions).

(** [calloc] twice, then a [strdup] for each string. *)
Definition build_vectors (program : list Z) (arguments : list Value) (environment : list (list Z)) :
    M (list (list Z) * list (list Z)) :=
  _ ← alloc; _ ← alloc;
  argv ← copies (program :: (bytes_of <$> arguments));
  env ← copies environment;
  mret (argv, env).

(** ** Pipes *)

(** [pipes[i][j]] is at [2 * i + j]; -1 when it is closed. *)
Definition end_at (pipes : list Z) (k : nat) : Z := default (-1) (pipes !! k).
Definition no_pipes : list Z := replicate 8 (-1).

(** The output of the child and what is known of it. *)
Record Run := mkRun {
  pipes : list Z;
  sent : nat;
  reaped : bool;
  status : Z;
  output0 : Buffer;
  output1 : Buffer;
}.
Definition set_pipes (p : list Z) (r : Run) : Run := mkRun p (sent r) (reaped r) (status r) (output0 r) (output1 r).
Definition set_sent (n : nat) (r : Run) : Run := mkRun (pipes r) n (reaped r) (status r) (output0 r) (output1 r).
Definition set_reaped (st : Z) (r : Run) : Run := mkRun (pipes r) (sent r) true st (output0 r) (output1 r).

(** [problem] and [error] at the label [finish]. *)
Definition verdict : Type := option string * Z.

Section process.
Context {W : Type} `{!Posix W, !Processes W}.

Definition hc_close (k : nat) (p : list Z) : IO W (list Z) :=
  if 0 <=? end_at p k then _ ← close (end_at p k); mret (<[k:=-1]> p) else mret p.

Definition pipe : IO W (answer (Z * Z)) := λ s al,
  let '(a, w) := sys_pipe (world s) in
  (Ret a, mkSys w (match a with inl (r, n) => (r, Pipe) :: (n, Pipe) :: held s | inr _ => held s end) (reads s), al).
Definition dupfd (d : Z) : IO W (answer Z) := on d (λ o, obtain o (sys_dupfd d)).
Definition cloexec (d : Z) : IO W (option Z) := on d (λ _, ask (sys_cloexec d)).
Definition nonblock (d : Z) : IO W (option Z) := on d (λ _, ask (sys_nonblock d)).

Definition fork (plan : ChildPlan) : IO W (answer Z) := λ s al,
  let '(a, w) := sys_fork plan (world s) in
  (Ret a, mkSys w (match a with inl child => (- child, Process) :: held s | inr _ => held s end) (reads s), al).
(** A child that was waited for is gone; waiting for it again is an error. *)
Definition waitpid_nohang (child : Z) : IO W (answer (option Z)) := λ s al,
  match origin_of (- child) (held s) with
  | Some _ =>
      let '(a, w) := sys_waitpid_nohang child (world s) in
      (Ret a, mkSys w (match a with inl (Some _) => remove_one (- child) (held s) | _ => held s end) (reads s), al)
  | None => (Ret (inr ECHILD), s, al)
  end.
Definition waitpid (child : Z) : IO W (answer Z) := λ s al,
  match origin_of (- child) (held s) with
  | Some _ =>
      let '(a, w) := sys_waitpid child (world s) in
      (Ret a, mkSys w (match a with inl _ => remove_one (- child) (held s) | _ => held s end) (reads s), al)
  | None => (Ret (inr ECHILD), s, al)
  end.

(** The descriptor of one end, moved above those of the standard streams. *)
Definition settle_end (k : nat) (p : list Z) : IO W (list Z * option Z) :=
  moved ← (if end_at p k <=? 2 then
             moved ← dupfd (end_at p k);
             match moved with
             | inr e => mret (p, Some e)
             | inl fd => _ ← close (end_at p k); mret (<[k:=fd]> p, None)
             end
           else mret (p, None));
  match moved with
  | (p, Some e) => mret (p, Some e)
  | (p, None) => e ← cloexec (end_at p k); mret (p, e)
  end.

(** The loop that makes the pipes from the [i]-th on. *)
Fixpoint make_pipes (count i : nat) (p : list Z) : IO W (list Z * option Z) :=
  match count with
  | O => mret (p, None)
  | S count =>
      made ← pipe;
      match made with
      | inr e => mret (p, Some e)
      | inl (r, n) =>
          first ← settle_end (2 * i) (<[2 * i:=r]> (<[2 * i + 1:=n]> p))%nat;
          match first with
          | (p, Some e) => mret (p, Some e)
          | (p, None) =>
              second ← settle_end (2 * i + 1) p;
              match second with
              | (p, Some e) => mret (p, Some e)
              | (p, None) => make_pipes count (S i) p
              end
          end
      end
  end.

Fixpoint close_ends (l : list nat) (p : list Z) : IO W (list Z) :=
  match l with [] => mret p | k :: l => p ← hc_close k p; close_ends l p end.

(** The ends the parent uses: input, output, error and report. *)
Definition parent_ends : list nat := [1; 2; 4; 6]%nat.
Fixpoint set_nonblock (l : list nat) (p : list Z) : IO W (option Z) :=
  match l with
  | [] => mret None
  | k :: l => e ← nonblock (end_at p k); match e with Some e => mret (Some e) | None => set_nonblock l p end
  end.

(** ** The loop *)

(** A run, and the verdict once it is left for [finish]. *)
Notation run_step := (IO W (Run * option verdict)).

(** The input is ready: what the write did. *)
Definition feed (input : list Z) (r : Run) : run_step :=
  blocked ← ask sys_sigblock;
  match blocked with
  | Some e => mret (r, Some (None, e))
  | None =>
      wrote ← write (end_at (pipes r) 1) (take (Nat.min 4096 (length input - sent r)) (drop (sent r) input));
      match wrote with
      | inl n => mret (if 0 <? n then set_sent (sent r + Z.to_nat n) r else r, None)
      | inr e =>
          if e =? EPIPE then p ← hc_close 1 (pipes r); mret (set_pipes p r, None)
          else if negb (e =? EAGAIN) && negb (e =? EINTR) then mret (r, Some (None, e))
          else mret (r, None)
      end
  end.

(** [memcpy(&error, chunk, sizeof(error))] *)
Definition int_of_bytes (b : list Z) : Z :=
  let n := foldr (λ x acc, x + 256 * acc) 0 (take 4 b) in if n <? 2 ^ 31 then n else n - 2 ^ 32.

(** One of the other pipes is ready. *)
Definition collect_output (limit : Z) (i : nat) (r : Run) : run_step :=
  n ← read (end_at (pipes r) (2 * i)) 8192;
  match n with
  | inl [] => p ← hc_close (2 * i) (pipes r); mret (set_pipes p r, None)
  | inr e => mret (r, if negb (e =? EAGAIN) && negb (e =? EINTR) then Some (None, e) else None)
  | inl chunk =>
      if Nat.eqb i 3 then
        if negb (Nat.eqb (length chunk) 4) then mret (r, Some (Some "io_error", 0))
        else mret (r, Some (Some "launch_failed", int_of_bytes chunk))
      else if Zlength' (content (output0 r)) + Zlength' (content (output1 r)) + Zlength' chunk >? limit
      then mret (r, Some (Some "output_limit", 0))
      else
        grown ← or_none (buffer_add (if Nat.eqb i 1 then output0 r else output1 r) chunk);
        match grown with
        | None => mret (r, Some (Some "out_of_memory", 0))
        | Some b =>
            mret (if Nat.eqb i 1 then mkRun (pipes r) (sent r) (reaped r) (status r) b (output1 r)
                  else mkRun (pipes r) (sent r) (reaped r) (status r) (output0 r) b, None)
        end
  end.

(** [if (fds[k].revents)], unless the loop was left. *)
Definition when_ready (b : bool) (m : Run → run_step) (x : Run * option verdict) : run_step :=
  match x with (r, None) => if b then m r else mret x | _ => mret x end.

Definition reap (child : Z) (r : Run) : run_step :=
  if reaped r then mret (r, None)
  else
    result ← waitpid_nohang child;
    match result with
    | inl (Some st) => mret (set_reaped st r, None)
    | inl None => mret (r, None)
    | inr e => mret (r, if negb (e =? EINTR) then Some (None, e) else None)
    end.

(** What [poll] found: the input, then output, error and report, then the child. *)
Definition serve_pipes (input : list Z) (limit child : Z) (ready : list bool) (r : Run) : run_step :=
  let set_ k := default false (ready !! k) in
  x ← when_ready (set_ 0%nat) (feed input) (r, None);
  x ← when_ready (set_ 1%nat) (collect_output limit 1) x;
  x ← when_ready (set_ 2%nat) (collect_output limit 2) x;
  x ← when_ready (set_ 3%nat) (collect_output limit 3) x;
  when_ready true (reap child) x.

Definition going (r : Run) : bool :=
  negb (reaped r) || (0 <=? end_at (pipes r) 2) || (0 <=? end_at (pipes r) 4) || (0 <=? end_at (pipes r) 6).

(** The loop: the run at its end, and the verdict when it was left for [finish]. *)
Fixpoint process_loop (turns : nat) (input : list Z) (timeout limit child start : Z) (r : Run) : run_step :=
  if negb (going r) then mret (r, None)
  else
    match turns with
    | O => endless
    | S turns =>
        now ← ask sys_clock;
        match now with
        | inr e => mret (r, Some (Some "clock_unavailable", e))
        | inl now =>
            if timeout <=? u64 (now - start) then mret (r, Some (Some "timeout", 0))
            else
              p ← (if Nat.eqb (sent r) (length input) then hc_close 1 (pipes r) else mret (pipes r));
              let r := set_pipes p r in
              let remaining := (timeout - u64 (now - start) + 999999) / 1000000 in
              let wait_ms := if remaining >? 10 then 10 else remaining in
              ready ← ask (sys_poll (end_at p <$> parent_ends) wait_ms);
              match ready with
              | inr e => if e =? EINTR then process_loop turns input timeout limit child start r else mret (r, Some (None, e))
              | inl ready =>
                  next ← serve_pipes input limit child ready r;
                  match next with
                  | (r, None) => process_loop turns input timeout limit child start r
                  | (r, Some v) => mret (r, Some v)
                  end
              end
        end
    end.

(** ** The end *)

(** [while (waitpid(...) < 0 && errno == EINTR)]: the status, when it was waited for. *)
Fixpoint wait_loop (fuel : nat) (child st : Z) : IO W Z :=
  match fuel with
  | O => endless
  | S fuel =>
      r ← waitpid child;
      match r with
      | inl st => mret st
      | inr e => if e =? EINTR then wait_loop fuel child st else mret st
      end
  end.

(** [finish], where [child] is not positive when there is none to end. *)
Definition finish (fuel : nat) (operation : string) (child : Z) (r : Run) (v : verdict) : IO W Value :=
  st ← (if 0 <? child then
          _ ← ask (sys_kill (- child));
          _ ← (if negb (reaped r) then ask (sys_kill child) else mret None);
          wait_loop fuel child (status r)
        else mret (status r));
  _ ← close_ends (seq 0 8) (pipes r);
  let '(problem, error) := v in
  if bool_decide (problem ≠ None) || negb (error =? 0) then lift (hc_error operation problem error)
  else
    lift (host_variant "Ok"
      (exit_code ← value_size (if Z.land st 127 =? 0 then Z.land (Z.shiftr st 8) 255 else 0);
       signal ← value_size (if (Z.land st 127 =? 0) || (Z.land st 127 =? 127) then 0 else Z.land st 127);
       stdout ← value_data V_BYTES (content (output0 r));
       stderr ← value_data V_BYTES (content (output1 r));
       named_value V_RECORD (str "ProcessOutput") [str "exit_code"; str "signal"; str "stdout"; str "stderr"]
         [exit_code; signal; stdout; stderr])).

(** The parent after [fork]. *)
Definition parent (turns fuel : nat) (operation : string) (input : list Z) (timeout limit child start : Z) (r : Run) : IO W Value :=
  _ ← ask (sys_setpgid child);
  p ← close_ends [0; 3; 5; 7]%nat (pipes r);
  let r := set_pipes p r in
  blocking ← set_nonblock parent_ends p;
  match blocking with
  | Some e => finish fuel operation child r (None, e)
  | None =>
      '(r, v) ← process_loop turns input timeout limit child start r;
      match v with
      | Some v => finish fuel operation child r v
      | None => finish fuel operation (-1) r (None, 0)
      end
  end.

(** [hc_process], with the environment of the invocation. *)
Definition hc_process (turns fuel : nat) (environment : list (list Z)) (operation : string) (isolated : bool) (a : list Value) :
    IO W Value :=
  a0 ← lift (rd a 0); a1 ← lift (rd a 1); a2 ← lift (rd a 2); a3 ← lift (rd a 3);
  a4 ← lift (rd a 4); a5 ← lift (rd a 5); a6 ← lift (rd a 6);
  if negb (hc_string a0 V_PATH && hc_string a3 V_PATH) then stop "VM trap: process requires Path"
  else
    match a1, a2, a4, a5, a6 with
    | Array arguments, Bytes input, Array additions, Duration d, Nat_ n =>
        match hc_duration d with
        | inl problem => lift (hc_error operation (Some problem) 0)
        | inr timeout =>
            match pn_big_fits_size n with
            | None => lift (hc_error operation (Some "out_of_range") 0)
            | Some limit =>
                if (limit >? HC_MAX_BYTES) || (Zlength' input >? HC_MAX_BYTES) || (Zlength' arguments >? 4096) ||
                   (Zlength' additions >? 4096)
                then lift (hc_error operation (Some "out_of_range") 0)
                else
                  match check_arguments arguments with
                  | Refused msg => stop msg
                  | Invalid code => lift (hc_error operation (Some code) 0)
                  | Passed =>
                      match check_environment [] additions with
                      | Refused msg => stop msg
                      | Invalid code => lift (hc_error operation (Some code) 0)
                      | Passed =>
                          if timeout =? 0 then lift (hc_error operation (Some "timeout") 0)
                          else
                            '(argv, env) ← lift (build_vectors (bytes_of a0) arguments
                              (child_environment (if isolated then [] else environment) additions));
                            let r := mkRun no_pipes 0 false 0 empty_buffer empty_buffer in
                            start ← ask sys_clock;
                            match start with
                            | inr e => finish fuel operation (-1) r (Some "clock_unavailable", e)
                            | inl start =>
                                made ← make_pipes 4 0 no_pipes;
                                match made with
                                | (p, Some e) => finish fuel operation (-1) (set_pipes p r) (None, e)
                                | (p, None) =>
                                    child ← fork (mkChildPlan [end_at p 0; end_at p 3; end_at p 5] (end_at p 7) (bytes_of a3) argv env);
                                    match child with
                                    | inr e => finish fuel operation (-1) (set_pipes p r) (None, e)
                                    | inl child => parent turns fuel operation input timeout limit child start (set_pipes p r)
                                    end
                                end
                            end
                      end
                  end
            end
        end
    | _, _, _, _, _ => stop "VM trap: invalid process operands"
    end.
End process.

(** ** Descriptors and children *)

(** What is held, by number. *)
Notation numbers s := (held s).*1.

Lemma origin_number d l : is_Some (origin_of d l) ↔ d ∈ l.*1.
Proof.
  induction l as [|[x o] l IH]; simpl.
  - split; [by intros [? ?]|by intros ?%not_elem_of_nil].
  - destruct (decide (x = d)) as [->|]; [split; [intros _; apply list_elem_of_here|by eexists]|].
    rewrite IH, elem_of_cons. split; [by right|]. by intros [->|].
Qed.
Lemma remove_number d l : d ∈ l.*1 → l.*1 ≡ₚ d :: (remove_one d l).*1.
Proof.
  induction l as [|[x o] l IH]; simpl; [by intros ?%not_elem_of_nil|]. destruct (decide (x = d)) as [->|]; [done|].
  intros [->|Hd]%elem_of_cons; [done|]. simpl. rewrite (IH Hd) at 1. by apply Permutation_swap.
Qed.
Lemma remove_number_rest d l rest : l.*1 ≡ₚ d :: rest → (remove_one d l).*1 ≡ₚ rest.
Proof.
  intros Hl. apply (Permutation_cons_inv (a := d)). rewrite <-remove_number; [done|]. rewrite Hl. apply list_elem_of_here.
Qed.

(** The ends of pipes that are open. *)
Definition opened (p : list Z) : list Z := filter (λ d, 0 ≤ d) p.

Lemma opened_close k p : 0 ≤ end_at p k → opened p ≡ₚ end_at p k :: opened (<[k:=-1]> p).
Proof.
  unfold end_at, opened. revert k. induction p as [|x p IH]; intros [|k]; simpl; try done.
  - intros Hx. rewrite filter_cons_True by done. by rewrite filter_cons_False by lia.
  - intros Hk. rewrite !filter_cons. destruct (decide (0 ≤ x)); [|by apply IH]. rewrite (IH k Hk) at 1. apply Permutation_swap.
Qed.
Lemma opened_open k p d : (k < length p)%nat → end_at p k < 0 → 0 ≤ d → opened (<[k:=d]> p) ≡ₚ d :: opened p.
Proof.
  unfold end_at, opened. revert k. induction p as [|x p IH]; intros [|k]; simpl; try lia.
  - intros _ Hx Hd. rewrite filter_cons_True by done. rewrite filter_cons_False by lia. done.
  - intros Hk Hx Hd. rewrite !filter_cons. specialize (IH k ltac:(lia) Hx Hd). destruct (decide (0 ≤ x)); [|done].
    rewrite IH. apply Permutation_swap.
Qed.
Lemma opened_end k p : 0 ≤ end_at p k → end_at p k ∈ opened p.
Proof. intros Hk. rewrite (opened_close k p Hk). apply list_elem_of_here. Qed.
Lemma opened_none p : (∀ k, (k < length p)%nat → end_at p k < 0) → opened p = [].
Proof.
  unfold opened, end_at. induction p as [|x p IH]; intros H; [done|]. rewrite filter_cons_False by (specialize (H 0%nat); simpl in H; lia).
  apply IH. intros k Hk. apply (H (S k)). simpl. lia.
Qed.
Lemma end_insert k p d : (k < length p)%nat → end_at (<[k:=d]> p) k = d.
Proof. intros Hk. unfold end_at. by rewrite list_lookup_insert_eq. Qed.
Lemma end_insert_ne k j p d : k ≠ j → end_at (<[k:=d]> p) j = end_at p j.
Proof. intros Hk. unfold end_at. by rewrite list_lookup_insert_ne. Qed.

Section clean.
Context {W : Type} `{!Posix W, !PosixLaws W, !Services W, !ServicesLaws W, !Processes W, !ProcessesLaws W}.
Implicit Types s : Sys W.
Context (n : nat) (h : list Z).

(** The pipes, the child while it was not waited for, and what the caller held. *)
Definition owns (p kids : list Z) s : Prop :=
  numbers s ≡ₚ opened p ++ kids ++ h ∧ length p = 8%nat ∧ (signals (world s) ≤ n)%nat.

Lemma owns_later p kids s s' : owns p kids s → later s s' → owns p kids s'.
Proof. intros (Hn & Hl & Hs) (Eh & _ & Es). split_and!; [by rewrite Eh|done|lia]. Qed.
Lemma owns_world p kids s w rs : owns p kids s → (signals w ≤ signals (world s))%nat → owns p kids (mkSys w (held s) rs).
Proof. intros (Hn & Hl & Hs) Hw. split_and!; [done|done|simpl; lia]. Qed.
Lemma owns_end p kids s k : owns p kids s → 0 ≤ end_at p k → is_Some (origin_of (end_at p k) (held s)).
Proof. intros (Hn & _) Hk. apply origin_number. rewrite Hn. apply elem_of_app. left. by apply opened_end. Qed.

(** Another end is as it was. *)
Definition other_ends (l : list nat) (p p' : list Z) : Prop := ∀ j, j ∉ l → end_at p' j = end_at p j.

Lemma wp_hc_close k p kids s (Q : list Z → Sys W → Prop) X : owns p kids s → (k < 8)%nat →
  (∀ p' s', owns p' kids s' → end_at p' k < 0 → other_ends [k] p p' → (signals (world s') ≤ signals (world s))%nat → Q p' s') →
  wp (hc_close k p) s Q X.
Proof.
  intros Ho Hk HQ. unfold hc_close. destruct (Z.leb_spec 0 (end_at p k)) as [Hp|Hp]; [|by apply wp_ret, HQ].
  apply wp_bind, wp_close; [by eapply owns_end|]. intros e w Hw. destruct Ho as (Hn & Hl & Hs). apply wp_ret, HQ.
  - split_and!; simpl; [|by rewrite length_insert|lia]. apply remove_number_rest. rewrite Hn, (opened_close k p Hp) at 1. done.
  - rewrite end_insert by lia. lia.
  - intros j Hj. apply end_insert_ne. intros ->. apply Hj. apply list_elem_of_here.
  - done.
Qed.

Lemma wp_close_ends l p kids s (Q : list Z → Sys W → Prop) X : owns p kids s → Forall (λ k, (k < 8)%nat) l →
  (∀ p' s', owns p' kids s' → Forall (λ k, end_at p' k < 0) l → other_ends l p p' → (signals (world s') ≤ signals (world s))%nat → Q p' s') →
  wp (close_ends l p) s Q X.
Proof.
  revert p s Q. induction l as [|k l IH]; intros p s Q Ho Hl HQ; [by apply wp_ret, HQ|]. inversion_clear Hl as [|? ? Hk Hl'].
  cbn [close_ends]. apply wp_bind. eapply wp_hc_close; [done..|]. intros p1 s1 Ho1 Hc1 Hu1 Hs1.
  eapply IH; [done..|]. intros p2 s2 Ho2 Hc2 Hu2 Hs2. apply HQ; [done| |intros j Hj|lia].
  - constructor; [|done]. destruct (decide (k ∈ l)) as [Hin|Hni]; [by apply (proj1 (Forall_forall _ _) Hc2)|]. by rewrite Hu2.
  - apply not_elem_of_cons in Hj as [Hj1 Hj2]. rewrite Hu2 by done. apply Hu1. by intros ?%list_elem_of_singleton.
Qed.

Lemma wp_on_end {A} (f : W → A * W) k p kids s (Q : A → Sys W → Prop) X : owns p kids s → 0 ≤ end_at p k →
  (signals (snd (f (world s))) ≤ signals (world s))%nat →
  (∀ a s', owns p kids s' → (signals (world s') ≤ signals (world s))%nat → Q a s') → wp (on (end_at p k) (λ _, ask f)) s Q X.
Proof.
  intros Ho Hk Hs HQ. destruct (owns_end _ _ _ _ Ho Hk) as [o Hor]. eapply wp_on; [done|]. apply wp_ask, HQ; [|done].
  by apply owns_world.
Qed.

Lemma wp_set_nonblock l p kids s (Q : option Z → Sys W → Prop) X : owns p kids s → Forall (λ k, 0 ≤ end_at p k) l →
  (∀ e s', owns p kids s' → (signals (world s') ≤ signals (world s))%nat → Q e s') → wp (set_nonblock l p) s Q X.
Proof.
  revert s. induction l as [|k l IH]; intros s Ho Hl HQ; [by apply wp_ret, HQ|]. inversion_clear Hl as [|? ? Hk Hl'].
  cbn [set_nonblock]. apply wp_bind. eapply wp_on_end; [done|done|apply nonblock_signals|]. intros [e|] s' Ho' Hs'; [by apply wp_ret, HQ|].
  apply IH; [done..|]. intros e s2 Ho2 Hs2. apply HQ; [done|lia].
Qed.

(** An end keeps its place when it is moved. *)
Lemma owns_move p kids s k fd : owns p kids s → (k < 8)%nat → 0 ≤ end_at p k → 0 ≤ fd →
  ∀ w rs l, l.*1 ≡ₚ fd :: opened (<[k:=-1]> p) ++ kids ++ h → (signals w ≤ n)%nat → owns (<[k:=fd]> p) kids (mkSys w l rs).
Proof.
  intros (Hn & Hl & Hs) Hk Hp Hfd w rs l Hperm Hw. split_and!; simpl; [|by rewrite length_insert|done].
  rewrite Hperm, app_comm_cons. f_equiv. rewrite <-(list_insert_insert_eq p k fd (-1)). symmetry. apply opened_open; [rewrite length_insert; lia| |done].
  rewrite end_insert by lia. lia.
Qed.

Lemma wp_settle_end k p kids s (Q : list Z * option Z → Sys W → Prop) X : owns p kids s → (k < 8)%nat → 0 ≤ end_at p k →
  (∀ p' e s', owns p' kids s' → 0 ≤ end_at p' k → other_ends [k] p p' → (signals (world s') ≤ signals (world s))%nat → Q (p', e) s') →
  wp (settle_end k p) s Q X.
Proof.
  intros Ho Hk Hp HQ. unfold settle_end. apply wp_bind.
  assert (∀ p1 s1, owns p1 kids s1 → 0 ≤ end_at p1 k → other_ends [k] p p1 → (signals (world s1) ≤ signals (world s))%nat →
    wp (e ← cloexec (end_at p1 k); mret (p1, e)) s1 Q X) as Hc.
  { intros p1 s1 Ho1 Hp1 Hu1 Hs1. apply wp_bind. eapply wp_on_end; [done|done|apply cloexec_signals|].
    intros e s2 Ho2 Hs2. apply wp_ret, HQ; try done. lia. }
  destruct (end_at p k <=? 2); [|by apply wp_ret, Hc]. destruct (owns_end _ _ _ _ Ho Hp) as [o Hor].
  apply wp_bind. eapply wp_on; [done|]. apply wp_obtain_answer.
  pose proof (dupfd_signals (end_at p k) (world s)) as Hds. pose proof (dupfd_descriptor (end_at p k) (world s)) as Hdd.
  destruct (sys_dupfd (end_at p k) (world s)) as [[fd|e] w]; cbn [fst snd] in *; [|apply wp_ret, wp_ret, HQ; [by apply owns_world|done..]].
  specialize (Hdd _ eq_refl). apply wp_bind, wp_close; cbn [held]; [apply origin_number; rewrite fmap_cons; apply elem_of_cons; right; apply origin_number; by eexists|].
  intros e w2 Hw2. cbn [world held reads] in *. apply wp_ret. pose proof Ho as (Hn & Hl & Hsn). apply Hc.
  - apply (owns_move p kids s k fd); try done; [|lia]. apply remove_number_rest. rewrite fmap_cons. cbn [fst]. rewrite Hn, (opened_close k p Hp) at 1.
    apply Permutation_swap.
  - by rewrite end_insert by lia.
  - intros j Hj. apply end_insert_ne. intros ->. apply Hj. apply list_elem_of_here.
  - simpl. lia.
Qed.

Lemma wp_make_pipes count i p s (Q : list Z * option Z → Sys W → Prop) X : owns p [] s → (i + count = 4)%nat →
  (∀ j, (j < 2 * i)%nat → 0 ≤ end_at p j) → (∀ j, (2 * i ≤ j)%nat → end_at p j < 0) →
  (∀ p' e s', owns p' [] s' → (e = None → ∀ j, (j < 8)%nat → 0 ≤ end_at p' j) → (signals (world s') ≤ signals (world s))%nat → Q (p', e) s') →
  wp (make_pipes count i p) s Q X.
Proof.
  revert i p s. induction count as [|count IH]; intros i p s Ho Hi Hopen Hclosed HQ.
  { apply wp_ret, HQ; [done| |done]. intros _ j Hj. apply Hopen. lia. }
  cbn [make_pipes]. apply wp_bind. intros al. unfold pipe. pose proof (pipe_signals (world s)) as Hps. pose proof (pipe_descriptors (world s)) as Hpd.
  destruct (sys_pipe (world s)) as [[[r m]|e] w]; cbn [fst snd] in *; cbv beta.
  2: { apply wp_ret, HQ; [by apply owns_world|done|done]. }
  destruct (Hpd _ _ eq_refl) as [Hr Hm]. pose proof Ho as (Hn & Hl & Hs).
  assert (owns (<[(2 * i)%nat:=r]> (<[(2 * i + 1)%nat:=m]> p)) [] (mkSys w ((r, Pipe) :: (m, Pipe) :: held s) (reads s))) as Ho1.
  { split_and!; simpl; [|by rewrite !length_insert|lia]. rewrite opened_open; [|rewrite length_insert; lia| |done].
    - simpl. f_equiv. rewrite opened_open; [|lia|apply Hclosed; lia|done]. simpl. by f_equiv.
    - rewrite end_insert_ne by lia. apply Hclosed. lia. }
  apply wp_bind. eapply wp_settle_end; [done|lia|rewrite end_insert; [done|rewrite length_insert; lia]|].
  intros p1 e1 s1 Ho2 He1 Hu1 Hs1. destruct e1 as [e1|]; [apply wp_ret, HQ; [done|done|simpl in *; lia]|].
  apply wp_bind. eapply wp_settle_end; [done|lia| |].
  { rewrite Hu1 by (intros ?%list_elem_of_singleton; lia). rewrite end_insert_ne by lia. by rewrite end_insert by lia. }
  intros p2 e2 s2 Ho3 He2 Hu2 Hs2. destruct e2 as [e2|]; [apply wp_ret, HQ; [done|done|simpl in *; lia]|].
  assert (∀ j, j ≠ (2 * i)%nat → j ≠ (2 * i + 1)%nat → end_at p2 j = end_at p j) as Hsame.
  { intros j Hj1 Hj2. rewrite Hu2, Hu1 by (by intros ?%list_elem_of_singleton). rewrite !end_insert_ne by lia. done. }
  apply IH; [done|lia| | |].
  - intros j Hj. destruct (decide (j = 2 * i)%nat) as [->|]; [rewrite Hu2 by (intros ?%list_elem_of_singleton; lia); done|].
    destruct (decide (j = 2 * i + 1)%nat) as [->|]; [done|]. rewrite Hsame by done. apply Hopen. lia.
  - intros j Hj. rewrite Hsame by lia. apply Hclosed. lia.
  - intros p' e s' Ho' He' Hs'. apply HQ; [done|done|simpl in *; lia].
Qed.

(** *** The loop *)

Context (limit child : Z) (input : list Z).
Hypothesis (limit_small : limit ≤ HC_MAX_BYTES) (child_number : 0 < child) (no_kids : Forall (λ d, 0 ≤ d) h).

Definition kids (r : Run) : list Z := if reaped r then [] else [- child].

(** A run holds its pipes and its child, and its output is within the limit. *)
Record run_ok (r : Run) s : Prop := {
  run_owns : owns (pipes r) (kids r) s;
  run_buffers : wf_buffer (output0 r) ∧ wf_buffer (output1 r);
  run_limit : Zlength' (content (output0 r)) + Zlength' (content (output1 r)) ≤ limit;
}.
(** After a step of a run, which touched one end. *)
Definition stepped (l : list nat) (r : Run) s (x : Run * option verdict) s' : Prop :=
  run_ok (fst x) s' ∧ other_ends l (pipes r) (pipes (fst x)) ∧ (signals (world s') ≤ signals (world s))%nat.

Lemma run_ok_same r s s' : run_ok r s → owns (pipes r) (kids r) s' → run_ok r s'.
Proof. by intros [_ Hb Hl] Ho. Qed.
Lemma stepped_same l r s s' v : run_ok r s → owns (pipes r) (kids r) s' → (signals (world s') ≤ signals (world s))%nat →
  stepped l r s (r, v) s'.
Proof. intros Hr Ho Hs. split_and!; [by eapply run_ok_same|by intros j _|done]. Qed.

Lemma wp_step_close k r s s1 X : run_ok r s → owns (pipes r) (kids r) s1 → (signals (world s1) ≤ signals (world s))%nat → (k < 8)%nat →
  wp (p ← hc_close k (pipes r); mret (set_pipes p r, None)) s1 (stepped [k] r s) X.
Proof.
  intros [_ Hb Hl] Ho Hs Hk. apply wp_bind. eapply wp_hc_close; [done..|]. intros p' s' Ho' _ Hu Hs'. apply wp_ret.
  split_and!; [by split|done|lia].
Qed.

Lemma wp_feed r s X : run_ok r s → 0 ≤ end_at (pipes r) 1 → wp (feed input r) s (stepped [1%nat] r s) X.
Proof.
  intros Hr He. unfold feed. apply wp_bind, wp_ask. pose proof (sigblock_signals (world s)) as Hs.
  pose proof (owns_world _ _ _ _ (reads s) (run_owns _ _ Hr) Hs) as Ho1.
  destruct (fst (sys_sigblock (world s))); [by apply wp_ret, stepped_same|].
  apply wp_bind, wp_write; [by eapply owns_end|]. intros a s2 L2 _ _. pose proof (owns_later _ _ _ _ Ho1 L2) as Ho2.
  destruct L2 as (_ & _ & S2). simpl in S2. assert (signals (world s2) ≤ signals (world s))%nat as Hs2 by lia.
  destruct a as [m|e].
  - apply wp_ret. destruct (0 <? m); [|by apply stepped_same]. destruct Hr as [_ Hb Hl]. split_and!; [by split|by intros j _|done].
  - destruct (e =? EPIPE); [by apply wp_step_close; [..|lia]|]. destruct (negb _ && _); by apply wp_ret, stepped_same.
Qed.

Lemma wp_collect i r s X : (1 ≤ i ≤ 3)%nat → run_ok r s → 0 ≤ end_at (pipes r) (2 * i) →
  wp (collect_output limit i r) s (stepped [(2 * i)%nat] r s) X.
Proof.
  intros Hi Hr He. unfold collect_output. destruct (owns_end _ _ _ _ (run_owns _ _ Hr) He) as [o Ho].
  apply wp_bind. eapply wp_read; [done|done|]. intros a w Hw _ Hb.
  pose proof (owns_world _ _ _ _ (o :: reads s) (run_owns _ _ Hr) Hw) as Ho1.
  destruct a as [[|b chunk]|e]; [by apply wp_step_close; [..|lia]| |by apply wp_ret, stepped_same].
  destruct (Hb _ eq_refl) as [Hlen _].
  destruct (Nat.eqb i 3); [destruct (negb _); by apply wp_ret, stepped_same|].
  destruct (Z.gtb_spec (Zlength' (content (output0 r)) + Zlength' (content (output1 r)) + Zlength' (b :: chunk)) limit) as [|Hfit]; [by apply wp_ret, stepped_same|].
  destruct Hr as [Hown [Hw0 Hw1] Hl]. unfold HC_MAX_BYTES, Zlength' in *. apply wp_bind.
  eapply wp_or_none; [apply buffer_add_spec; [by destruct (Nat.eqb i 1)|unfold room; destruct (Nat.eqb i 1); lia]| |by apply wp_ret, stepped_same; [split|..]].
  intros d [Hwd Hcd]. apply wp_ret. destruct (Nat.eqb i 1); (split_and!; [split; [done|done|]|by intros j _|done]);
    cbn [fst output0 output1] in *; unfold Zlength'; rewrite Hcd, length_app; lia.
Qed.

Lemma wp_reap r s X : run_ok r s → wp (reap child r) s (stepped [] r s) X.
Proof.
  intros Hr. unfold reap. destruct (reaped r) eqn:Hrp; [by apply wp_ret, stepped_same; [..|apply Hr|]|].
  apply wp_bind. intros al. unfold waitpid_nohang. pose proof (run_owns _ _ Hr) as Ho. pose proof Ho as (Hn & Hl & Hs).
  unfold kids in Hn. rewrite Hrp in Hn.
  destruct (proj2 (origin_number (- child) (held s))) as [o Hor]; [rewrite Hn; apply elem_of_app; right; apply list_elem_of_here|]. rewrite Hor.
  pose proof (nohang_signals child (world s)) as Hw. destruct (sys_waitpid_nohang child (world s)) as [[[st|]|e] w]; cbn [fst snd] in *; cbv beta.
  - apply wp_ret. destruct Hr as [_ Hb Hlim]. split_and!; [split; [|done|done]|by intros j _|done].
    split_and!; simpl; [|done|lia]. apply remove_number_rest. rewrite Hn. unfold kids. simpl. apply Permutation_sym, Permutation_middle.
  - apply wp_ret, stepped_same; [done| |done]. by apply owns_world.
  - apply wp_ret, stepped_same; [done| |done]. by apply owns_world.
Qed.

(** A step that is taken when its end is ready. *)
Lemma wp_when_ready b m k l r0 s0 x s X : stepped l r0 s0 x s → k ∉ l →
  (b = true → 0 ≤ end_at (pipes r0) k) →
  (∀ r s', run_ok r s' → 0 ≤ end_at (pipes r) k → wp (m r) s' (stepped [k] r s') X) →
  wp (when_ready b m x) s (stepped (k :: l) r0 s0) X.
Proof.
  intros (Hr & Hu & Hs) Hk Hb Hm. assert (stepped (k :: l) r0 s0 x s) as Hsame.
  { split_and!; [done| |done]. intros j Hj. apply Hu. by intros ?%(list_elem_of_further _ k). }
  unfold when_ready. destruct x as [r [v|]]; [by apply wp_ret|]. destruct b; [|by apply wp_ret]. cbn [fst] in *.
  eapply wp_mono; [apply Hm; [done|rewrite Hu by done; by apply Hb]| |done].
  intros x' s' (Hr' & Hu' & Hs'). split_and!; [done| |lia]. intros j Hj. apply not_elem_of_cons in Hj as [Hj1 Hj2].
  rewrite Hu' by (by intros ?%list_elem_of_singleton). by apply Hu.
Qed.

Lemma wp_serve ready r s X : run_ok r s →
  (∀ i d, ready !! i = Some true → (end_at (pipes r) <$> parent_ends) !! i = Some d → 0 ≤ d) →
  wp (serve_pipes input limit child ready r) s (λ x s', run_ok (fst x) s' ∧ (signals (world s') ≤ signals (world s))%nat) X.
Proof.
  intros Hr Hready. unfold serve_pipes.
  assert (∀ i k, parent_ends !! i = Some k → default false (ready !! i) = true → 0 ≤ end_at (pipes r) k) as Hend.
  { intros i k Hi Hd. destruct (ready !! i) as [[]|] eqn:Hri; try done. apply (Hready i); [done|]. by rewrite list_lookup_fmap, Hi. }
  assert (stepped [] r s (r, None) s) as H0 by (apply stepped_same; [done|apply Hr|done]).
  apply wp_bind. eapply wp_mono; [eapply (wp_when_ready _ _ 1); [exact H0|apply not_elem_of_nil|by apply (Hend 0%nat)|intros; by apply wp_feed]| |done]. intros x1 s1 H1.
  apply wp_bind. eapply wp_mono; [eapply (wp_when_ready _ _ 2); [exact H1|by intros ?%list_elem_of_singleton|by apply (Hend 1%nat)|intros; by apply (wp_collect 1); [lia|..]]| |done]. intros x2 s2 H2.
  apply wp_bind. eapply wp_mono; [eapply (wp_when_ready _ _ 4); [exact H2|set_solver by lia|by apply (Hend 2%nat)|intros; by apply (wp_collect 2); [lia|..]]| |done]. intros x3 s3 H3.
  apply wp_bind. eapply wp_mono; [eapply (wp_when_ready _ _ 6); [exact H3|set_solver by lia|by apply (Hend 3%nat)|intros; by apply (wp_collect 3); [lia|..]]| |done].
  intros [r4 v4] s4 (Hr4 & _ & Hs4). cbn [fst] in Hr4. unfold when_ready. destruct v4 as [v4|]; [by apply wp_ret|].
  eapply wp_mono; [by apply wp_reap| |done]. intros x5 s5 (Hr5 & _ & Hs5). split; [done|lia].
Qed.

Lemma going_over r : going r = false → reaped r = true.
Proof. unfold going. by destruct (reaped r). Qed.

Context (start timeout : Z).
Hypothesis (time_ok : start + timeout ≤ horizon) (start_range : 0 ≤ start < 2 ^ 64) (timeout_range : 0 < timeout < 2 ^ 63).

Lemma wp_run_loop turns r s (Q : Run * option verdict → Sys W → Prop) X : run_ok r s → (signals (world s) < turns)%nat →
  (∀ x s', run_ok (fst x) s' → (snd x = None → reaped (fst x) = true) → (signals (world s') ≤ signals (world s))%nat → Q x s') →
  wp (process_loop turns input timeout limit child start r) s Q X.
Proof.
  revert r s. induction turns as [|turns IH]; intros r s Hr Ht HQ; [lia|]. cbn [process_loop].
  destruct (going r) eqn:Hg; cbn [negb]; [|apply wp_ret, HQ; [done|intros _; by apply going_over|done]].
  apply wp_bind, wp_ask. pose proof (clock_signals (world s)) as Hc. pose proof (clock_finite (world s)) as Hf.
  pose proof (clock_range (world s)) as Hrange. pose proof (owns_world _ _ _ _ (reads s) (run_owns _ _ Hr) Hc) as Ho1.
  destruct (sys_clock (world s)) as [[now|e] w]; cbn [fst snd] in *; [|apply wp_ret, HQ; [by eapply run_ok_same|done|done]].
  specialize (Hrange _ eq_refl). destruct (Z.leb_spec timeout (u64 (now - start))) as [|Hin]; [apply wp_ret, HQ; [by eapply run_ok_same|done|done]|].
  assert (now < horizon) as Hnow.
  { destruct (Z.ltb_spec now start); [lia|]. rewrite u64_small in Hin by lia. lia. }
  specialize (Hf _ eq_refl Hnow).
  assert (run_ok r (mkSys w (held s) (reads s))) as Hr1 by by eapply run_ok_same.
  apply wp_bind. eapply (wp_mono _ _ (λ p s', run_ok (set_pipes p r) s' ∧ (signals (world s') ≤ signals w)%nat)).
  { destruct (Nat.eqb (sent r) (length input)); [|apply wp_ret; destruct r; done].
    eapply wp_hc_close; [apply Hr1|lia|]. intros p' s' Ho' _ _ Hs'. split; [|done]. destruct Hr as [_ Hb Hl]. by split. }
  2: done. intros p s2 [Hr2 Hs2]. apply wp_bind, wp_ask.
  pose proof (poll_signals (end_at p <$> parent_ends)) as Hps. pose proof (poll_ignores (end_at p <$> parent_ends)) as Hpi.
  match goal with |- context [sys_poll ?l ?t ?w] => specialize (Hps t w); specialize (Hpi t w); destruct (sys_poll l t w) as [[ready|e] w3] end; cbn [fst snd] in *.
  - assert (run_ok (set_pipes p r) (mkSys w3 (held s2) (reads s2))) as Hr3.
    { eapply run_ok_same; [exact Hr2|]. by apply owns_world; [apply Hr2|]. }
    apply wp_bind. eapply wp_mono; [apply (wp_serve ready _ _ X Hr3)| |done].
    + intros i d Hi Hd. by eapply Hpi.
    + intros [r4 [v|]] s4 [Hr4 Hs4]; cbn [fst world] in *; [apply wp_ret, HQ; [done|done|lia]|].
      apply IH; [done|lia|]. intros x s' Hx Hn Hs'. apply HQ; [done|done|lia].
  - assert (run_ok (set_pipes p r) (mkSys w3 (held s2) (reads s2))) as Hr3.
    { eapply run_ok_same; [exact Hr2|]. by apply owns_world; [apply Hr2|]. }
    destruct (e =? EINTR); [|apply wp_ret, HQ; [done|done|simpl; lia]].
    apply IH; [done|simpl; lia|]. intros x s' Hx Hn Hs'. apply HQ; [done|done|simpl in *; lia].
Qed.

(** *** The end *)

(** What the call promises of its result. *)
Definition process_output (x : Value) : Prop := ∃ code signal out err,
  x = Record_ (str "ProcessOutput") [str "exit_code"; str "signal"; str "stdout"; str "stderr"] [Nat_ code; Nat_ signal; Bytes out; Bytes err] ∧
  Zlength' out + Zlength' err ≤ limit.
(** Nothing of the call is left. *)
Definition all_gone s : Prop := numbers s ≡ₚ h ∧ (signals (world s) ≤ n)%nat.
Definition process_ends (operation : string) (v : Value) s : Prop := all_gone s ∧ result_of operation process_output v.

Lemma wp_wait_loop fuel st r s (Q : Z → Sys W → Prop) X : owns (pipes r) (kids r) s → (signals (world s) < fuel)%nat →
  (∀ st' s', owns (pipes r) [] s' → Q st' s') → wp (wait_loop fuel child st) s Q X.
Proof.
  revert s. induction fuel as [|fuel IH]; intros s Ho Hf HQ; [lia|]. cbn [wait_loop]. apply wp_bind. intros al. unfold waitpid.
  pose proof Ho as (Hn & Hl & Hs). unfold kids in *. destruct (reaped r).
  - destruct (origin_of (- child) (held s)) as [o|] eqn:Hor.
    + exfalso. assert (- child ∈ numbers s) as Hin by (apply origin_number; by eexists). rewrite Hn in Hin.
      apply elem_of_app in Hin as [Hin|Hin]; [apply list_elem_of_filter in Hin as [Hin _]; lia|].
      apply (proj1 (Forall_forall _ _) no_kids) in Hin. lia.
    + cbv beta. apply wp_ret. by apply HQ.
  - destruct (proj2 (origin_number (- child) (held s))) as [o Hor]; [rewrite Hn; apply elem_of_app; right; apply list_elem_of_here|]. rewrite Hor.
    pose proof (waitpid_signals child (world s)) as Hw. pose proof (waitpid_interrupted child (world s)) as Hi.
    destruct (sys_waitpid child (world s)) as [[st'|e] w]; cbn [fst snd] in *; cbv beta.
    + apply wp_ret, HQ. split_and!; simpl; [|done|lia]. apply remove_number_rest. rewrite Hn. apply Permutation_sym, Permutation_middle.
    + destruct (Hi _ eq_refl) as [-> Hlt]. cbn [Z.eqb]. rewrite Z.eqb_refl. apply IH; [by apply owns_world|simpl; lia|done].
Qed.

Lemma land_ones_range x k : 0 ≤ k → 0 ≤ Z.land x (Z.ones k) < 2 ^ k.
Proof. intros Hk. rewrite Z.land_ones by done. apply Z.mod_pos_bound. lia. Qed.

Lemma output_runs st r E : Zlength' (content (output0 r)) + Zlength' (content (output1 r)) ≤ limit →
  runs (exit_code ← value_size (if Z.land st 127 =? 0 then Z.land (Z.shiftr st 8) 255 else 0);
        signal ← value_size (if (Z.land st 127 =? 0) || (Z.land st 127 =? 127) then 0 else Z.land st 127);
        stdout ← value_data V_BYTES (content (output0 r));
        stderr ← value_data V_BYTES (content (output1 r));
        named_value V_RECORD (str "ProcessOutput") [str "exit_code"; str "signal"; str "stdout"; str "stderr"]
          [exit_code; signal; stdout; stderr]) process_output E.
Proof.
  intros Hl. pose proof (land_ones_range st 7 ltac:(lia)). pose proof (land_ones_range (Z.shiftr st 8) 8 ltac:(lia)).
  change (Z.ones 7) with 127 in *. change (Z.ones 8) with 255 in *.
  eapply (runs_bind _ _ (λ v, ∃ b, v = Nat_ b)); [apply size_spec; [case_match; lia|eauto]|]. intros ? [code ->].
  eapply (runs_bind _ _ (λ v, ∃ b, v = Nat_ b)); [apply size_spec; [case_match; lia|eauto]|]. intros ? [signal ->].
  eapply (runs_bind _ _ (λ v, v = Bytes (content (output0 r)))); [by apply value_data_spec|]. intros ? ->.
  eapply (runs_bind _ _ (λ v, v = Bytes (content (output1 r)))); [by apply value_data_spec|]. intros ? ->.
  apply record_spec. do 4 eexists. done.
Qed.

(** The call ends, from whatever point: the child is ended and waited for, the pipes are closed. *)
Lemma wp_finish fuel operation c r v s : (signals (world s) < fuel)%nat →
  owns (pipes r) (if decide (c = child) then kids r else []) s → c = child ∨ c = -1 →
  Zlength' (content (output0 r)) + Zlength' (content (output1 r)) ≤ limit →
  wp (finish fuel operation c r v) s (process_ends operation) all_gone.
Proof.
  intros Hf Ho Hc Hl. unfold finish. apply wp_bind.
  eapply (wp_mono _ _ (λ _ s', owns (pipes r) [] s')).
  { destruct Hc as [->|Hc]; [rewrite decide_True in Ho by done|rewrite decide_False in Ho by lia].
    - destruct (Z.ltb_spec 0 child); [|lia]. apply wp_bind, wp_ask. pose proof (kill_signals (- child) (world s)) as Hk.
      set (s1 := mkSys _ _ _). assert (owns (pipes r) (kids r) s1) as Ho1 by by apply owns_world.
      apply wp_bind. eapply (wp_mono _ _ (λ _ s', owns (pipes r) (kids r) s' ∧ (signals (world s') < fuel)%nat)).
      + destruct (negb (reaped r)); [|apply wp_ret; split; [done|simpl; lia]].
        apply wp_ask. pose proof (kill_signals child (world s1)) as Hk1. simpl in Hk1. split; [by apply owns_world|simpl; lia].
      + intros _ s2 [Ho2 Hf2]. eapply wp_wait_loop; [done|done|]. by intros.
      + done.
    - destruct (Z.ltb_spec 0 c); [lia|]. by apply wp_ret. }
  2: { intros s' Ho'. exact Ho'. }
  intros st s' Ho'. apply wp_bind. eapply wp_close_ends; [done| |].
  { apply Forall_forall. intros k Hk. apply elem_of_seq in Hk. lia. }
  intros p' s2 (Hn2 & Hl2 & Hs2) Hclosed _ _. assert (all_gone s2) as Hgone.
  { split; [|done]. rewrite Hn2, opened_none; [done|]. intros k Hk. apply (proj1 (Forall_forall _ _) Hclosed), elem_of_seq. lia. }
  destruct v as [problem error]. destruct (_ || _).
  - apply wp_fail; [|done]. intros v Hv. split; [done|by left].
  - eapply (wp_lift _ (result_of operation process_output)); [|by intros v Hv|done].
    eapply host_ok_spec; [by apply output_runs|]. intros x Hx. right. eauto.
Qed.

Lemma wp_parent turns fuel operation r s : (signals (world s) < turns)%nat → (signals (world s) < fuel)%nat →
  run_ok r s → reaped r = false → (∀ j, (j < 8)%nat → 0 ≤ end_at (pipes r) j) →
  wp (parent turns fuel operation input timeout limit child start r) s (process_ends operation) all_gone.
Proof.
  intros Ht Hf Hr Hrp Hopen. unfold parent. apply wp_bind, wp_ask. pose proof (setpgid_signals child (world s)) as Hsp.
  pose proof (owns_world _ _ _ _ (reads s) (run_owns _ _ Hr) Hsp) as Ho1. set (s1 := mkSys _ _ _) in *.
  apply wp_bind. eapply wp_close_ends; [done|repeat constructor; lia|]. intros p2 s2 Ho2 _ Hu2 Hs2. cbv zeta.
  assert (run_ok (set_pipes p2 r) s2) as Hr2 by (destruct Hr as [_ Hb Hl]; by split).
  apply wp_bind. eapply wp_set_nonblock; [done| |].
  { unfold parent_ends. repeat constructor; rewrite Hu2 by set_solver by lia; apply Hopen; lia. }
  intros e s3 Ho3 Hs3. assert (run_ok (set_pipes p2 r) s3) as Hr3 by by eapply run_ok_same.
  assert (signals (world s3) ≤ signals (world s))%nat as Hs3' by (simpl in *; lia).
  destruct e as [e|]; [apply wp_finish; [lia|rewrite decide_True by done; exact Ho3|by left|apply Hr3]|].
  apply wp_bind. eapply wp_run_loop; [done|lia|]. intros [r4 v4] s4 Hr4 Hv4 Hs4. cbn [fst snd] in *.
  destruct v4 as [v4|]; [apply wp_finish; [lia|rewrite decide_True by done; apply Hr4|by left|apply Hr4]|].
  apply wp_finish; [lia| |by right|apply Hr4]. rewrite decide_False by lia. pose proof (run_owns _ _ Hr4) as Ho4.
  unfold kids in Ho4. by rewrite (Hv4 eq_refl) in Ho4.
Qed.
End clean.

(** ** The theorems *)

Section capabilities.
Context {W : Type} `{!Posix W, !PosixLaws W, !Services W, !ServicesLaws W, !Processes W, !ProcessesLaws W}.
Implicit Types s : Sys W.

(** What a call may find: no children of its caller among its resources, and a
    clock that is read finitely often before any timeout that starts now. *)
Record call_ready (turns fuel : nat) s : Prop := {
  ready_turns : (signals (world s) < turns)%nat;
  ready_fuel : Z.of_nat (signals (world s)) + HC_MAX_FILE_BYTES + 2 ≤ Z.of_nat fuel;
  ready_streams : (stream_bound (world s) < fuel)%nat;
  ready_numbers : Forall (λ d, 0 ≤ d) (numbers s);
  ready_clock now : fst (sys_clock (world s)) = inl now → now + HC_MAX_NS ≤ horizon;
}.

Lemma copies_runs l E : runs (copies l) (λ _, True) E.
Proof.
  induction l as [|x l IH]; [by mret|]. cbn [copies]. unfold copy_text.
  eapply (runs_bind _ _ (λ _, True)); [mbind runs_alloc as ? _; by mret|]. intros ? _. mbind IH as ? _. by mret.
Qed.
Lemma vectors_runs p a e E : runs (build_vectors p a e) (λ _, True) E.
Proof.
  unfold build_vectors. mbind runs_alloc as ? _. mbind runs_alloc as ? _. mbind copies_runs as ? _. mbind copies_runs as ? _. by mret.
Qed.
Lemma duration_range d t : hc_duration d = inr t → 0 ≤ t ≤ HC_MAX_NS.
Proof.
  unfold hc_duration. intros H. repeat case_match; simplify_eq. split; [by eapply fits_nonneg|lia].
Qed.

Definition limit_of (a : list Value) : Z := default 0 (a !! 6%nat ≫= value_index).

Lemma wp_process turns fuel environment operation isolated a s : call_ready turns fuel s → (7 ≤ length a)%nat →
  wp (hc_process turns fuel environment operation isolated a) s
    (process_ends (signals (world s)) (numbers s) (limit_of a) operation) (all_gone (signals (world s)) (numbers s)).
Proof.
  intros [Ht Hf Hst Hnum Hclock] Ha. unfold hc_process.
  destruct a as [|a0 [|a1 [|a2 [|a3 [|a4 [|a5 [|a6 a]]]]]]]; try (simpl in Ha; lia). clear Ha.
  do 7 (apply wp_bind; eapply wp_rd; [done|]).
  assert (all_gone (signals (world s)) (numbers s) s) as Hgone by done.
  assert (∀ code e, wp (lift (hc_error operation code e)) s (process_ends (signals (world s)) (numbers s) (limit_of (a0 :: a1 :: a2 :: a3 :: a4 :: a5 :: a6 :: a)) operation)
    (all_gone (signals (world s)) (numbers s))) as Herr.
  { intros code e. apply wp_fail; [|done]. intros v Hv. split; [done|by left]. }
  destruct (negb _); [by apply wp_stop|].
  destruct a1 as [| | | | | | | | | | | |arguments| | | | | | | | |]; try (by apply wp_stop).
  destruct a2 as [| | | | | | | | | | | | | | | | |input| | | |]; try (by apply wp_stop).
  destruct a4 as [| | | | | | | | | | | |additions| | | | | | | | |]; try (by apply wp_stop).
  destruct a5 as [|d| | | | | | | | | | | | | | | | | | | |]; try (by apply wp_stop).
  destruct a6 as [| | | | |n| | | | | | | | | | | | | | | |]; try (by apply wp_stop).
  destruct (hc_duration d) as [problem|timeout] eqn:Hd; [apply Herr|]. pose proof (duration_range _ _ Hd) as Hdr.
  destruct (pn_big_fits_size n) as [limit|] eqn:Hl; [|apply Herr]. pose proof (fits_nonneg _ _ Hl) as Hnn.
  destruct (_ || _) eqn:Hrange; [apply Herr|].
  assert (limit ≤ HC_MAX_BYTES) as Hlim by (repeat (apply orb_false_iff in Hrange as [Hrange _]); lia).
  destruct (check_arguments arguments); [|by apply wp_stop|apply Herr].
  destruct (check_environment [] additions); [|by apply wp_stop|apply Herr].
  destruct (Z.eqb_spec timeout 0); [apply Herr|].
  apply wp_bind. eapply wp_lift; [apply vectors_runs| |done]. intros [argv env] _.
  replace (limit_of _) with limit by (unfold limit_of; simpl; by rewrite Hl). clear Herr.
  apply wp_bind, wp_ask. pose proof (clock_signals (world s)) as Hcs. pose proof (clock_range (world s)) as Hcr.
  assert (owns (signals (world s)) (numbers s) no_pipes [] (mkSys (snd (sys_clock (world s))) (held s) (reads s))) as Ho.
  { split_and!; simpl; [done|done|done]. }
  assert (0 < 1) as Hone by lia. assert (HC_MAX_FILE_BYTES = 134217728) as HM by done.
  assert (∀ e p' s1 problem, owns (signals (world s)) (numbers s) p' [] s1 →
    wp (finish fuel operation (-1) (mkRun p' 0 false 0 empty_buffer empty_buffer) (problem, e)) s1
      (process_ends (signals (world s)) (numbers s) limit operation) (all_gone (signals (world s)) (numbers s))) as Hfin.
  { intros e p' s1 problem Ho'. apply (wp_finish _ _ limit 1); try done.
    - destruct Ho' as (_ & _ & Hs'). lia.
    - by right. }
  destruct (sys_clock (world s)) as [[start|e] w]; cbn [fst snd] in *; [|by apply Hfin].
  specialize (Hcr _ eq_refl). specialize (Hclock _ eq_refl).
  apply wp_bind. eapply wp_make_pipes; [done|done|intros j Hj; lia| |].
  { intros j _. unfold end_at, no_pipes. destruct (decide (j < 8)%nat); [rewrite lookup_replicate_2 by done|rewrite lookup_ge_None_2 by (rewrite length_replicate; lia)]; simpl; lia. }
  intros p2 e2 s2 Ho2 Hopen Hs2. destruct e2 as [e2|]; [by apply Hfin|]. specialize (Hopen eq_refl). simpl in Hs2.
  apply wp_bind. intros al. unfold fork. pose proof (fork_signals (mkChildPlan [end_at p2 0; end_at p2 3; end_at p2 5] (end_at p2 7) (bytes_of a3) argv env) (world s2)) as Hfs.
  pose proof (fork_child (mkChildPlan [end_at p2 0; end_at p2 3; end_at p2 5] (end_at p2 7) (bytes_of a3) argv env) (world s2)) as Hfc.
  destruct (sys_fork _ (world s2)) as [[child|e3] w3]; cbn [fst snd] in *; cbv beta; [|apply Hfin; by apply owns_world].
  specialize (Hfc _ eq_refl). destruct Ho2 as (Hn2 & Hl2 & Hs2').
  apply (wp_parent (signals (world s)) (numbers s) limit child input); try done.
  - unfold HC_MAX_NS in *. lia.
  - unfold HC_MAX_NS in *. lia.
  - simpl. lia.
  - simpl. lia.
  - split; [|split; by right|unfold Zlength'; simpl; lia].
    split_and!; simpl; [|done|lia]. rewrite Hn2. simpl. apply Permutation_middle.
Qed.

Definition process_name (isolated : bool) : string := if isolated then "process_run_isolated" else "process_run".

(** The arguments a capability reads. *)
Definition capability_arity (name : list Z) : nat :=
  if is_name name "fs_read_beneath" then 3
  else if is_name name "process_run" || is_name name "process_run_isolated" then 7
  else if is_name name "fs_directories_overlap" || is_name name "fs_read" || is_name name "fs_write" then 2
  else 1.

(** What a capability answers, unless it traps. *)
Definition capability_answer (name : list Z) (a : list Value) (v : Value) : Prop :=
  let arg i := default Void (a !! i) in
  if is_name name "fs_root_identity" then result_of "fs_root_identity" root_identity v
  else if is_name name "fs_read_beneath" then read_outcome (read_limit (arg 2%nat)) v
  else if is_name name "fs_directories_overlap" then result_of "fs_directories_overlap" (λ x, ∃ b, x = Bool_ b) v
  else if is_name name "process_run" || is_name name "process_run_isolated"
  then result_of (process_name (is_name name "process_run_isolated")) (process_output (limit_of a)) v
  else if is_name name "host_decode_utf8"
  then result_of "host_decode_utf8" (λ x, ∃ b, arg 0%nat = Bytes b ∧ utf8 b = true ∧ x = Str (text_of b)) v
  else if is_name name "host_sleep" then result_of "host_sleep" (λ x, x = VUnit) v
  else if is_name name "fs_read" then
    result_of "fs_read" (λ x, ∃ b limit, x = Bytes b ∧ value_index (arg 1%nat) = Some limit ∧ Zlength' b ≤ limit ∧ Forall is_byte b) v
  else if is_name name "fs_write" then result_of "fs_write" (λ x, x = VUnit) v
  else if is_name name "fs_metadata" then
    result_of "fs_metadata" (λ x, ∃ k n, x = Record_ (str "FileMetadata") [str "kind"; str "size"]
      [Variant (str (kind_name k)) []; Nat_ n] ∧ wf n ∧ 0 ≤ to_Z n) v
  else if is_name name "fs_list" then
    result_of "fs_list" (λ x, ∃ l, x = Array l ∧ StronglySorted path_le l ∧ Forall listed l) v
  else if is_name name "fs_temp_file" then result_of "fs_temp_file" (λ x, ∃ p, x = Path p) v
  else if is_name name "fs_temp_directory" then result_of "fs_temp_directory" (λ x, ∃ p, x = Path p) v
  else ∃ op, result_of op (λ x, x = VUnit) v.

(** [host_capability_call] with the processes it runs. *)
Definition host_call_capability (turns fuel : nat) (environment : list (list Z)) (name : list Z) (a : list Value) : IO W Value :=
  host_capability_call (λ isolated a, hc_process turns fuel environment (process_name isolated) isolated a) fuel name a.

Lemma clean_gone s s' : left_clean s s' → all_gone (signals (world s)) (numbers s) s'.
Proof. intros [Hh Hs]. split; [by rewrite Hh|done]. Qed.
Lemma wp_gone (m : IO W Value) s (P P' : Value → Prop) : wp m s (λ v s', left_clean s s' ∧ P v) (left_clean s) → (∀ v, P v → P' v) →
  wp m s (λ v s', all_gone (signals (world s)) (numbers s) s' ∧ P' v) (all_gone (signals (world s)) (numbers s)).
Proof. intros Hm HP. eapply wp_mono; [done| |apply clean_gone]. intros v s' [Hc Hv]. split; [by apply clean_gone|auto]. Qed.

(** The argument a capability reads is there. *)
Ltac arity Ha := repeat case_match; simpl in Ha; lia.

Lemma wp_capability turns fuel environment name a s : call_ready turns fuel s → (capability_arity name ≤ length a)%nat →
  Forall (λ v, Zlength' (bytes_of v) < 2 ^ 32) a →
  wp (host_call_capability turns fuel environment name a) s
    (λ v s', all_gone (signals (world s)) (numbers s) s' ∧ capability_answer name a v) (all_gone (signals (world s)) (numbers s)).
Proof.
  intros Hready Ha Hlens. pose proof Hready as [Ht Hf Hst _ _].
  assert (HC_MAX_BYTES = 16777216) as E1 by done. assert (HC_MAX_FILE_BYTES = 134217728) as E2 by done.
  unfold host_call_capability, host_capability_call, capability_answer, capability_arity in *. cbv zeta.
  assert (∀ i, (i < length a)%nat → ∃ v, a !! i = Some v ∧ default Void (a !! i) = v) as Harg.
  { intros i Hi. destruct (lookup_lt_is_Some_2 a i Hi) as [v Hv]. exists v. by rewrite Hv. }
  destruct (is_name name "fs_root_identity").
  { destruct (Harg 0%nat) as (v0 & Hv0 & _); [arity Ha|]. apply wp_bind. eapply wp_rd; [done|]. eapply wp_gone; [apply wp_root_identity|done]. }
  destruct (is_name name "fs_read_beneath").
  { destruct (Harg 0%nat) as (v0 & Hv0 & _); [lia|]. destruct (Harg 1%nat) as (v1 & Hv1 & _); [lia|]. destruct (Harg 2%nat) as (v2 & Hv2 & ->); [lia|].
    do 3 (apply wp_bind; eapply wp_rd; [done|]). eapply (wp_gone _ _ (read_outcome (read_limit v2))); [|done].
    eapply wp_mono; [apply wp_read_beneath; lia| |done]. intros v s' (Hc & _ & Ho). done. }
  destruct (is_name name "fs_directories_overlap").
  { destruct (Harg 0%nat) as (v0 & Hv0 & _); [arity Ha|].
    destruct (Harg 1%nat) as (v1 & Hv1 & _); [arity Ha|].
    do 2 (apply wp_bind; eapply wp_rd; [done|]). eapply wp_gone; [apply wp_directories_overlap|done]. }
  destruct (is_name name "process_run" || is_name name "process_run_isolated"); [by apply wp_process|].
  destruct (Harg 0%nat) as (v0 & Hv0 & Hd0); [arity Ha|].
  destruct (is_name name "host_decode_utf8").
  { apply wp_bind. eapply wp_rd; [done|]. rewrite Hd0. eapply wp_gone; [apply wp_host_decode_utf8|done]. }
  destruct (is_name name "host_sleep").
  { apply wp_bind. eapply wp_rd; [done|]. eapply wp_gone; [apply wp_host_sleep; lia|done]. }
  apply wp_bind. eapply wp_rd; [done|]. destruct (negb (hc_string v0 V_PATH)); [by apply wp_stop|].
  destruct (is_name name "fs_read").
  { destruct (Harg 1%nat) as (v1 & Hv1 & ->); [arity Ha|]. apply wp_bind. eapply wp_rd; [done|]. eapply wp_gone; [by apply wp_fs_read|done]. }
  destruct (is_name name "fs_write").
  { destruct (Harg 1%nat) as (v1 & Hv1 & _); [arity Ha|]. apply wp_bind. eapply wp_rd; [done|]. eapply wp_gone; [by apply wp_fs_write|done]. }
  destruct (is_name name "fs_metadata"); [eapply wp_gone; [apply wp_fs_metadata|done]|].
  destruct (is_name name "fs_list"); [eapply wp_gone; [by apply wp_fs_list|done]|].
  assert (Zlength' (bytes_of v0) < 2 ^ 32) as Hlen by (by eapply (Forall_lookup_1 _ _ _ _ Hlens)).
  destruct (is_name name "fs_temp_file"); [eapply wp_gone; [by apply wp_fs_temp|done]|].
  destruct (is_name name "fs_temp_directory"); [eapply wp_gone; [by apply wp_fs_temp|done]|].
  eapply wp_gone; [apply wp_fs_change|done].
Qed.

(** C11: a capability (reading beneath a root, files, directories, sleeping,
    decoding, and running a process) returns on every input and whatever the
    system answers: it answers a value of its type, an [Error] value, traps or
    runs out of memory; on each of these ends every descriptor it opened is
    closed and every child it started was waited for, so that what is held is
    what was held before. *)
Theorem capabilities_clean turns fuel environment name a s al :
  call_ready turns fuel s → (capability_arity name ≤ length a)%nat → Forall (λ v, Zlength' (bytes_of v) < 2 ^ 32) a →
  match host_call_capability turns fuel environment name a s al with
  | (Ret v, s', _) => numbers s' ≡ₚ numbers s ∧ capability_answer name a v
  | (Trap _ _, s', _) | (NoMem, s', _) => numbers s' ≡ₚ numbers s
  | _ => False
  end.
Proof.
  intros Hr Ha Hl. pose proof (wp_capability turns fuel environment name a s Hr Ha Hl al) as Hw.
  destruct (host_call_capability _ _ _ _ _ _ _) as [[[v|k m| | |] s'] al']; try done; [|by destruct Hw..].
  destruct Hw as [[Hn _] Hv]. done.
Qed.
End capabilities.

(** ** The environment of a child *)

(** A name of a variable. *)
Definition variable (name : list Z) : Prop := name ≠ [] ∧ 0 ∉ name ∧ equals_sign ∉ name.

Lemma name_length_lt e n : name_length e = Some n → cstr e !! n = Some 61 ∧ take n (cstr e) = take n e ∧ equals_sign ∉ take n e ∧ (n < length e)%nat.
Proof.
  revert n. induction e as [|c e IH]; simpl; intros n H; [done|]. destruct (Z.eqb_spec c 0); [done|].
  destruct (Z.eqb_spec c equals_sign) as [->|Hc]; simplify_eq/=.
  - split_and!; [done|done|apply not_elem_of_nil|lia].
  - destruct (name_length e) as [m|]; simplify_eq/=. destruct (IH m eq_refl) as (H1 & H2 & H3 & H4). split_and!; simpl.
    + done.
    + by rewrite H2.
    + apply not_elem_of_cons. done.
    + lia.
Qed.
Lemma name_length_cut e n : (∀ i, (i < n)%nat → e !! i ≠ Some 0 ∧ e !! i ≠ Some equals_sign) → e !! n = Some equals_sign → name_length e = Some n.
Proof.
  revert n. induction e as [|c e IH]; intros n Hi Hn; [done|]. simpl. destruct n as [|n]; simplify_eq/=; [done|].
  destruct (Hi 0%nat ltac:(lia)) as [H1 H2]. simpl in H1, H2. rewrite !(proj2 (Z.eqb_neq _ _)) by congruence.
  rewrite (IH n); [done| |done]. intros i Hi'. apply (Hi (S i)). lia.
Qed.
Lemma cstr_prefix e i x : cstr e !! i = Some x → e !! i = Some x ∧ x ≠ 0.
Proof.
  revert i. induction e as [|c e IH]; intros i H; simpl in *; [done|]. destruct (Z.eqb_spec c 0); [done|].
  destruct i as [|i]; simplify_eq/=; [done|]. by apply IH.
Qed.

(** An entry has one name. *)
Lemma names_variable name e : variable name → names_entry name e = true ↔ name_length e = Some (length name) ∧ take (length name) e = name.
Proof.
  intros (Hne & H0 & Heq). unfold names_entry. rewrite andb_true_iff, !bool_decide_eq_true. split.
  - intros [Ht Hl]. assert (∀ i, (i < length name)%nat → e !! i = name !! i) as Hsame.
    { intros i Hi. destruct (lookup_lt_is_Some_2 name i Hi) as [x Hx]. rewrite Hx. apply cstr_prefix.
      rewrite <-Ht in Hx. apply lookup_take_Some in Hx. apply Hx. }
    pose proof (cstr_prefix _ _ _ Hl) as [He _]. assert (name_length e = Some (length name)) as Hn.
    { apply name_length_cut; [|done]. intros i Hi. rewrite (Hsame i Hi).
      split; intros Hx; [apply H0|apply Heq]; by apply list_elem_of_lookup_2 in Hx. }
    split; [done|]. apply name_length_lt in Hn as (_ & H2 & _). by rewrite <-H2.
  - intros [Hn Ht]. apply name_length_lt in Hn as (H1 & H2 & _). split; [by rewrite H2|done].
Qed.

(** An entry that was let through has a name. *)
Definition entry_ok (v : Value) : Prop := ∃ n, name_length (bytes_of v) = Some n ∧ variable (take n (bytes_of v)).

Lemma no_nul_value v k : hc_string v k = true → 0 ∉ bytes_of v.
Proof.
  unfold hc_string. rewrite andb_true_iff, negb_true_iff. intros [_ H] Hin.
  assert (existsb (Z.eqb 0) (bytes_of v) = true); [|congruence]. apply existsb_exists. exists 0. by rewrite <-list_elem_of_In.
Qed.
Lemma check_environment_ok prior items : check_environment prior items = Passed → Forall entry_ok items.
Proof.
  revert prior. induction items as [|v items IH]; intros prior H; [done|]. cbn [check_environment] in H.
  destruct (negb _); [done|]. destruct (name_length (bytes_of v)) as [[|n]|] eqn:Hn; [done| |done].
  destruct (negb _) eqn:Hs; [done|]. destruct (existsb _ _); [done|]. constructor; [|by eapply IH].
  exists (S n). split; [done|]. apply negb_false_iff, no_nul_value in Hs. pose proof (name_length_lt _ _ Hn) as (_ & _ & H3 & H4).
  split_and!; [|by intros Hin; apply Hs; eapply subseteq_take|done]. intros Hnil%(f_equal length). rewrite length_take in Hnil. change (length (@nil Z)) with 0%nat in Hnil. lia.
Qed.

Lemma replaced_by additions e : replaced additions e = true ↔
  ∃ v, v ∈ additions ∧ names_entry (take (default 0%nat (name_length (bytes_of v))) (bytes_of v)) e = true.
Proof.
  unfold replaced, same_variable. rewrite existsb_exists. split; intros (v & Hv & H); exists v; [by rewrite list_elem_of_In|by rewrite <-list_elem_of_In].
Qed.

Lemma value_app l k name : environment_value (l ++ k) name =
  match environment_value l name with Some v => Some v | None => environment_value k name end.
Proof. induction l as [|e l IH]; simpl; [done|]. by destruct (names_entry name e). Qed.
Lemma value_none l name : environment_value l name = None ↔ ∀ e, e ∈ l → names_entry name e = false.
Proof.
  induction l as [|e l IH]; simpl; [split; [by intros _ e ?%not_elem_of_nil|done]|]. destruct (names_entry name e) eqn:He.
  - split; [done|]. intros H. by rewrite (H e (list_elem_of_here _ _)) in He.
  - rewrite IH. split; intros H x Hx; [|apply H, elem_of_cons; by right]. apply elem_of_cons in Hx as [->|Hx]; [done|by apply H].
Qed.
Lemma value_filter l name (P : list Z → Prop) `{!∀ e, Decision (P e)} : (∀ e, e ∈ l → names_entry name e = true → P e) →
  environment_value (filter P l) name = environment_value l name.
Proof.
  induction l as [|e l IH]; intros HP; [done|]. rewrite filter_cons. cbn [environment_value].
  specialize (IH (λ x Hx, HP x (list_elem_of_further _ _ _ Hx))). destruct (names_entry name e) eqn:He.
  - rewrite decide_True by (apply HP; [apply list_elem_of_here|done]). simpl. by rewrite He.
  - destruct (decide (P e)); simpl; [by rewrite He|done].
Qed.

(** An inherited entry that names a given variable is replaced, and no other. *)
Lemma replaced_iff additions e name : Forall entry_ok additions → variable name → names_entry name e = true →
  replaced additions e = true ↔ is_Some (environment_value (bytes_of <$> additions) name).
Proof.
  intros Hok Hname He. rewrite replaced_by, <-not_eq_None_Some, value_none. split.
  - intros (v & Hv & Hn) Hall. destruct (proj1 (Forall_forall _ _) Hok v Hv) as (n & Hl & Hvar). rewrite Hl in Hn. simpl in Hn.
    apply (names_variable _ _ Hvar) in Hn as [E1 E2]. apply (names_variable _ _ Hname) in He as [E3 E4].
    assert (take n (bytes_of v) = name) as Ev by (rewrite <-E2, <-E4; congruence).
    specialize (Hall (bytes_of v) (list_elem_of_fmap_2 _ _ _ Hv)). apply not_true_iff_false in Hall. apply Hall, (names_variable _ _ Hname).
    pose proof (name_length_lt _ _ Hl) as (_ & _ & _ & Hlen). rewrite <-Ev. rewrite length_take_le by lia. done.
  - intros H. destruct (existsb (λ v, names_entry name (bytes_of v)) additions) eqn:Hex.
    + apply existsb_exists in Hex as (v & Hv%list_elem_of_In & Hn). exists v. split; [done|].
      apply (names_variable _ _ Hname) in Hn as [E1 E2]. rewrite E1. simpl. by rewrite E2.
    + destruct H. intros x (v & -> & Hv)%list_elem_of_fmap. apply not_true_iff_false. intros Hn. apply not_true_iff_false in Hex. apply Hex.
      apply existsb_exists. exists v. by rewrite <-list_elem_of_In.
Qed.

(** C40: the environment of a child process: when the entries that a program gives
    are accepted, a variable has in the child the value that was given, and
    otherwise the value it has in the parent; nothing is inherited by an isolated
    process. *)
Theorem child_environment_exact inherited additions name : check_environment [] additions = Passed → variable name →
  environment_value (child_environment inherited additions) name =
    match environment_value (bytes_of <$> additions) name with
    | Some value => Some value
    | None => environment_value inherited name
    end.
Proof.
  intros Hok%check_environment_ok Hname. unfold child_environment. rewrite value_app.
  destruct (environment_value (bytes_of <$> additions) name) as [value|] eqn:Hv.
  - replace (environment_value (filter _ _) name) with (@None (list Z)); [done|]. symmetry. apply value_none.
    intros e [Hr He]%list_elem_of_filter. apply not_true_iff_false. intros Hn. apply not_true_iff_false in Hr. apply Hr.
    rewrite replaced_iff by done. by rewrite Hv.
  - rewrite value_filter; [by destruct (environment_value inherited name)|]. intros e He Hn. apply not_true_iff_false.
    rewrite replaced_iff by done. rewrite Hv. by intros [? ?].
Qed.

Lemma child_environment_exact_witness :
  environment_value (child_environment [str "PATH=/bin"; str "HOME=/root"] [Str (text_of (str "HOME=/tmp"))]) (str "HOME") = Some (str "/tmp").
Proof.
  rewrite (child_environment_exact [str "PATH=/bin"; str "HOME=/root"] [Str (text_of (str "HOME=/tmp"))] (str "HOME")).
  - vm_compute. reflexivity.
  - vm_compute. reflexivity.
  - apply (bool_decide_unpack (str "HOME" ≠ [] ∧ 0 ∉ str "HOME" ∧ equals_sign ∉ str "HOME")). vm_compute. exact I.
Defined.

(** ** A small system *)

(** The next descriptor, how often the clock will still be read in time, and
    whether the child has said what it has to say. *)
Record Box := mkBox { next_fd : Z; ticks : nat; said : bool }.
Definition with_fd (w : Box) : Box := mkBox (next_fd w + 1) (ticks w) (said w).

#[local] Instance box_posix : Posix Box := {
  sys_open _ _ w := (inr ENOENT, w);
  sys_openat _ _ _ w := (inr ENOENT, w);
  sys_dup _ w := (inr EIO, w);
  sys_fstat _ w := (inr EIO, w);
  sys_fstatat _ _ w := (inr ENOENT, w);
  sys_lstat _ w := (inr ENOENT, w);
  sys_readlinkat _ _ _ w := (inr ENOENT, w);
  sys_read _ k w := (inl (if said w then [] else take (Z.to_nat k) [104; 105]), mkBox (next_fd w) (ticks w) true);
  sys_write _ _ w := (inr EPIPE, w);
  sys_ftruncate _ w := (None, w);
  sys_close _ w := (None, w);
}.
#[local] Instance box_laws : PosixLaws Box.
Proof.
  refine {| signals := ticks |}; try (intros; apply le_n); try done.
  intros d k [fd n b] l Hk [= <-]. destruct b; [by split|]. split; [unfold Zlength'; rewrite length_take; lia|].
  apply Forall_take. by repeat constructor.
Defined.
#[local] Instance box_services : Services Box := {
  sys_opendir _ w := (inr ENOENT, w);
  sys_readdir _ w := (inl None, w);
  sys_closedir _ w := (None, w);
  sys_nanosleep _ w := (None, w);
  sys_mkdtemp _ w := (inr EACCES, w);
  sys_mkstemp _ w := (inr EACCES, w);
  sys_mkdir _ w := (None, w);
  sys_unlink _ w := (None, w);
  sys_rmdir _ w := (None, w);
}.
#[local] Instance box_services_laws : ServicesLaws Box.
Proof. refine {| entries_left := λ _ _, 0%nat; stream_bound := λ _, 0%nat |}; try (intros; apply le_n); done. Defined.
#[local] Instance box_processes : Processes Box := {
  sys_clock w := match ticks w with
                 | S n => (inl 0, mkBox (next_fd w) n (said w))
                 | O => (inl HC_MAX_NS, w)
                 end;
  sys_pipe w := (inl (Z.abs (next_fd w), Z.abs (next_fd w) + 1), with_fd (with_fd w));
  sys_dupfd _ w := (inl (Z.abs (next_fd w)), with_fd w);
  sys_cloexec _ w := (None, w);
  sys_nonblock _ w := (None, w);
  sys_fork _ w := (inl 77, w);
  sys_setpgid _ w := (None, w);
  sys_poll l _ w := (inl (Z.leb 0 <$> l), w);
  sys_sigblock w := (None, w);
  sys_kill _ w := (None, w);
  sys_waitpid_nohang _ w := (inl (Some 768), w);
  sys_waitpid _ w := (inl 768, w);
}.
#[local] Instance box_processes_laws : ProcessesLaws Box.
Proof.
  refine {| horizon := HC_MAX_NS |}; try (intros; apply le_n); try done.
  - intros [fd [|n] b]; simpl; lia.
  - intros [fd [|n] b] now [= <-]; simpl; lia.
  - intros [fd [|n] b] now [= <-]; [|lia]. unfold HC_MAX_NS. lia.
  - intros w r n [= <- <-]. lia.
  - intros d w r [= <-]. lia.
  - intros p w c [= <-]. lia.
  - intros l t w b i d [= <-] Hb Hd. rewrite list_lookup_fmap, Hd in Hb. simplify_eq/=. lia.
  - intros l t w b [= <-]. by rewrite length_fmap.
Defined.

Definition sample_arguments : list Value :=
  [Path (str "/bin/hi"); Array []; Bytes []; Path (str "/"); Array [Str (text_of (str "HOME=/tmp"))];
   Duration {| sign := 1; limbs := [1000] |}; Nat_ {| sign := 1; limbs := [9] |}].
Definition sample_system : Sys Box := mkSys (mkBox 1 9 false) [] [].

(** The child's output and its exit code. *)
Example runs_hi :
  match host_call_capability 10 8 [] (str "process_run") sample_arguments sample_system [] with
  | (Ret (Variant n [Record_ _ _ [Nat_ code; _; Bytes out; Bytes err]]), s, _) =>
      bool_decide (n = str "Ok") && (to_Z code =? 3) && bool_decide (out = str "hi") && bool_decide (err = []) && bool_decide (held s = [])
  | _ => false
  end = true.
Proof. vm_compute. reflexivity. Qed.

Lemma sample_ready fuel : 134217739 ≤ Z.of_nat fuel → call_ready 10 fuel sample_system.
Proof.
  intros Hf. split; simpl; [lia| |lia|constructor|by intros now [= <-]]. change HC_MAX_FILE_BYTES with 134217728. lia.
Qed.

Lemma capabilities_clean_witness : ∃ fuel, call_ready 10 fuel sample_system ∧
  match host_call_capability 10 fuel [] (str "process_run") sample_arguments sample_system [] with
  | (Ret v, s', _) => numbers s' ≡ₚ [] ∧ capability_answer (str "process_run") sample_arguments v
  | (Trap _ _, s', _) | (NoMem, s', _) => numbers s' ≡ₚ []
  | _ => False
  end.
Proof.
  exists (Z.to_nat 134217739). assert (134217739 ≤ Z.of_nat (Z.to_nat 134217739)) as Hf by (rewrite Z2Nat.id by lia; lia).
  revert Hf. generalize (Z.to_nat 134217739). intros fuel Hf. split; [exact (sample_ready fuel Hf)|].
  assert (Forall (λ v, Zlength' (bytes_of v) < 2 ^ 32) sample_arguments) as Hl by (repeat constructor).
  exact (capabilities_clean 10 fuel [] (str "process_run") sample_arguments sample_system [] (sample_ready fuel Hf) (le_n 7) Hl).
Defined.
