(* ===== verification/Detached.v ===== *)
(** * Detached operations: the protocol of console_write.c and root_read.c

    Both files hand an operation to a detached thread and share it with its
    owner: a counter bounds the operations in flight, the worker publishes its
    result under a mutex, and whoever comes last frees the operation.  This file
    is that protocol, as steps of owners and workers that interleave freely; a
    step is one critical section, one atomic access, or one stretch of code that
    touches nothing shared.  [ConsoleWrite] and [RootRead] instantiate it.

    An access to an operation that has been freed is undefined. *)

From Stdlib Require Import ZArith Lia.
From stdpp Require Import prelude gmap strings relations.
From S2P Require Import Prelude Value.

(** A value, or NULL. *)
Definition or_null (m : M Value) (al : allocator) : option Value :=
  match fst (m al) with Ret v => Some v | _ => None end.

(** How the preparation of an admitted operation ends: released again with a
    NULL, finished with a result, or handed to a worker. *)
Inductive Prepared (J : Type) := Released (j : J) | Finished (j : J) (r : option Value) | Started (j : J).
Arguments Released {_}. Arguments Finished {_}. Arguments Started {_}.

(** What the two files do in their own way. *)
Class Detached := {
  (** the arguments of the call that starts an operation *)
  Request : Type;
  Job : Type;
  (** the local variables of a worker *)
  Local : Type;
  (** what the operating system answers to the owner, and to the worker *)
  Setting : Type;
  Answer : Type;
  workers : Z;
  (** a NULL with its diagnostic, or a new operation that may be done at once *)
  open_job : Setting → Request → allocator → option string + Job * option (option Value);
  over_limit : Job → allocator → option Value;
  prepare : Setting → Request → Job → allocator → Prepared Job;
  begin_work : Local;
  (** one call of the worker, or its result and error *)
  work : Answer → allocator → Local → Job → (Local + option Value * option string) * Job;
}.

(** What the files promise of their own parts: the counter fits its type, a
    worker is given a job it can work on, and leaves nothing behind. *)
Class DetachedLaws `{!Detached} := {
  fresh : Request → Job → Prop;
  busy : Local → Job → Prop;
  idle : Job → Prop;
  workers_range : 0 < workers < 2 ^ 32;
  open_fresh s q al j : open_job s q al = inr (j, None) → fresh q j;
  prepare_busy s q j al j' : fresh q j → prepare s q j al = Started j' → busy begin_work j';
  work_busy a al l j l' j' : busy l j → work a al l j = (inl l', j') → busy l' j';
  work_idle a al l j r j' : busy l j → work a al l j = (inr r, j') → idle j';
}.

Section protocol.
Context `{!Detached}.

Record Operation := mkOperation {
  job : Job;
  op_admitted : bool;
  op_done : bool;
  op_abandoned : bool;
  op_result : option Value;
  op_error : option string;
}.

(** Where the owner of an operation is. *)
Inductive Owner :=
| Reserving (q : Request) (count : Z)
| Preparing (q : Request)
| Held
| Destroying (done : bool)
| OwnerReleasing
| Gone.
(** Where its worker is. *)
Inductive Worker :=
| Working (l : Local)
| Publishing (r : option Value) (e : option string)
| Leaving (abandoned : bool)
| WorkerReleasing
| Ended.

(** An operation with its two threads; [None] once it has been freed. *)
Record Cell := mkCell { operation : option Operation; owner : Owner; worker : Worker }.

Record Pool := mkPool { active_count : Z; cells : list Cell }.

Definition set_admitted_op (o : Operation) : Operation :=
  mkOperation (job o) true (op_done o) (op_abandoned o) (op_result o) (op_error o).
Definition set_job (j : Job) (o : Operation) : Operation :=
  mkOperation j (op_admitted o) (op_done o) (op_abandoned o) (op_result o) (op_error o).
Definition set_published (r : option Value) (e : option string) (o : Operation) : Operation :=
  mkOperation (job o) (op_admitted o) true (op_abandoned o) r e.
Definition set_abandoned (o : Operation) : Operation :=
  mkOperation (job o) (op_admitted o) (op_done o) true (op_result o) (op_error o).

(** ** Steps *)

(** What a step does to the cell and to the counter.  [None]: the thread is not
    at this step. *)
Definition effect : Type := option (outcome (Cell * Z)).

Definition go (c : Cell) (n : Z) : effect := Some (Ret (c, n)).
(** [operation->...] *)
Definition access (c : Cell) (k : Operation → effect) : effect :=
  match operation c with Some o => k o | None => Some Undef end.

(** The loop on the counter: a weak exchange may fail although the counter has
    the expected value, and then reads it again. *)
Definition reserve (spurious : bool) (al : allocator) (c : Cell) (n : Z) : effect :=
  match owner c with
  | Reserving q count =>
      access c (λ o,
        if count <? workers then
          if negb spurious && (n =? count)
          then go (mkCell (Some (set_admitted_op o)) (Preparing q) (worker c)) (count + 1)
          else go (mkCell (Some o) (Reserving q n) (worker c)) n
        else if count =? workers
        then go (mkCell (Some (set_published (over_limit (job o) al) None o)) Held (worker c)) n
        else go (mkCell (Some (set_admitted_op o)) (Preparing q) (worker c)) n)
  | _ => None
  end.

(** Freeing reads whether the operation was admitted; the counter is decremented
    afterwards. *)
Definition freed (o : Operation) (next rest : Owner) : Owner := if op_admitted o then next else rest.

Definition prepare_step (s : Setting) (al : allocator) (c : Cell) (n : Z) : effect :=
  match owner c with
  | Preparing q =>
      access c (λ o,
        match prepare s q (job o) al with
        | Released _ => go (mkCell None (freed o OwnerReleasing Gone) (worker c)) n
        | Finished j r => go (mkCell (Some (set_published r None (set_job j o))) Held (worker c)) n
        | Started j => go (mkCell (Some (set_job j o)) Held (Working begin_work)) n
        end)
  | _ => None
  end.

(** One step of the worker outside the critical section. *)
Definition work_step (a : Answer) (al : allocator) (c : Cell) (n : Z) : effect :=
  match worker c with
  | Working l =>
      access c (λ o,
        match work a al l (job o) with
        | (inl l, j) => go (mkCell (Some (set_job j o)) (owner c) (Working l)) n
        | (inr (r, e), j) => go (mkCell (Some (set_job j o)) (owner c) (Publishing r e)) n
        end)
  | _ => None
  end.

(** The critical section of the worker. *)
Definition publish (c : Cell) (n : Z) : effect :=
  match worker c with
  | Publishing r e =>
      access c (λ o, go (mkCell (Some (set_published r e o)) (owner c) (Leaving (op_abandoned o))) n)
  | _ => None
  end.

Definition leave (c : Cell) (n : Z) : effect :=
  match worker c with
  | Leaving true => access c (λ o, go (mkCell None (owner c) (if op_admitted o then WorkerReleasing else Ended)) n)
  | Leaving false => go (mkCell (operation c) (owner c) Ended) n
  | _ => None
  end.

(** [atomic_fetch_sub] on an unsigned counter *)
Definition worker_release (c : Cell) (n : Z) : effect :=
  match worker c with WorkerReleasing => go (mkCell (operation c) (owner c) Ended) (u32 (n - 1)) | _ => None end.
Definition owner_release (c : Cell) (n : Z) : effect :=
  match owner c with OwnerReleasing => go (mkCell (operation c) Gone (worker c)) (u32 (n - 1)) | _ => None end.

(** The critical sections of the owner: polling, and giving the operation up. *)
Definition poll_operation (c : Cell) (n : Z) : effect :=
  match owner c with Held => access c (λ o, go c n) | _ => None end.
Definition poll_answer (c : Cell) : option bool :=
  match owner c, operation c with Held, Some o => Some (op_done o) | _, _ => None end.
(** Waiting returns when the operation is done. *)
Definition wait_operation (c : Cell) (n : Z) : effect :=
  match owner c with Held => access c (λ o, if op_done o then go c n else None) | _ => None end.
Definition destroy_operation (c : Cell) (n : Z) : effect :=
  match owner c with
  | Held => access c (λ o, go (mkCell (Some (set_abandoned o)) (Destroying (op_done o)) (worker c)) n)
  | _ => None
  end.
Definition destroy_free (c : Cell) (n : Z) : effect :=
  match owner c with
  | Destroying true => access c (λ o, go (mkCell None (freed o OwnerReleasing Gone) (worker c)) n)
  | Destroying false => go (mkCell (operation c) Gone (worker c)) n
  | _ => None
  end.

(** Freeing and the decrement that follows, with no step of another thread between. *)
Definition free_operation (c : Cell) (n : Z) : effect :=
  match destroy_free c n with
  | Some (Ret (c, n)) => match owner_release c n with None => go c n | e => e end
  | e => e
  end.

(** An operation is made: done at once, or about to reserve its place. *)
Definition new_operation (q : Request) (j : Job) (r : option (option Value)) (n : Z) : Cell :=
  match r with
  | Some r => mkCell (Some (mkOperation j false true false r None)) Held Ended
  | None => mkCell (Some (mkOperation j false false false None None)) (Reserving q n) Ended
  end.

Inductive action :=
| Reserve (spurious : bool) (al : allocator)
| Prepare (s : Setting) (al : allocator)
| Work (a : Answer) (al : allocator)
| Publish
| Leave
| WorkerRelease
| OwnerRelease
| PollOperation
| WaitOperation
| DestroyOperation
| DestroyFree.

Definition act (a : action) : Cell → Z → effect :=
  match a with
  | Reserve b al => reserve b al
  | Prepare s al => prepare_step s al
  | Work a al => work_step a al
  | Publish => publish
  | Leave => leave
  | WorkerRelease => worker_release
  | OwnerRelease => owner_release
  | PollOperation => poll_operation
  | WaitOperation => wait_operation
  | DestroyOperation => destroy_operation
  | DestroyFree => destroy_free
  end.

(** The pool takes a step: a new operation, or one thread of one operation. *)
Inductive pool_step : Pool → Pool → Prop :=
| step_new s q al j r p : open_job s q al = inr (j, r) →
    pool_step p (mkPool (active_count p) (cells p ++ [new_operation q j r (active_count p)]))
| step_act i a c c' n' p : cells p !! i = Some c → act a c (active_count p) = Some (Ret (c', n')) →
    pool_step p (mkPool n' (<[i:=c']> (cells p))).

Definition no_operations : Pool := mkPool 0 [].

Definition was_freed (p : Pool) (i : nat) : bool :=
  match cells p !! i with Some c => match operation c with None => true | Some _ => false end | None => false end.

(** A run of the pool, for one order of the steps. *)
Inductive entry := New (s : Setting) (q : Request) (al : allocator) | Act (i : nat) (a : action).
Fixpoint schedule (l : list entry) (p : Pool) : option Pool :=
  match l with
  | [] => Some p
  | New s q al :: l =>
      match open_job s q al with
      | inr (j, r) => schedule l (mkPool (active_count p) (cells p ++ [new_operation q j r (active_count p)]))
      | inl _ => schedule l p
      end
  | Act i a :: l =>
      match cells p !! i with
      | Some c =>
          match act a c (active_count p) with
          | Some (Ret (c', n')) => schedule l (mkPool n' (<[i:=c']> (cells p)))
          | _ => None
          end
      | None => None
      end
  end.

Lemma schedule_reaches l p p' : schedule l p = Some p' → rtc pool_step p p'.
Proof.
  revert p. induction l as [|[s q al|i a] l IH]; simpl; intros p Hs; [simplify_eq; apply rtc_refl|..].
  - destruct (open_job s q al) as [|[j r]] eqn:Hj; [auto|]. eapply rtc_l; [by eapply step_new|auto].
  - repeat case_match; simplify_eq. eapply rtc_l; [by eapply step_act|auto].
Qed.

Lemma scheduled l p : rtc pool_step p (default p (schedule l p)).
Proof. destruct (schedule l p) eqn:Hs; [by eapply schedule_reaches|apply rtc_refl]. Qed.

(** ** The invariant *)

Context `{!DetachedLaws}.

(** How owner, operation and worker can stand to each other. *)
Inductive phase : Cell → Prop :=
| ph_reserving o q count : op_done o = false → op_abandoned o = false → op_admitted o = false → 0 ≤ count ≤ workers →
    fresh q (job o) → phase (mkCell (Some o) (Reserving q count) Ended)
| ph_preparing o q : op_done o = false → op_abandoned o = false → op_admitted o = true → fresh q (job o) →
    phase (mkCell (Some o) (Preparing q) Ended)
| ph_running o ow w : op_done o = false → op_admitted o = true →
    (op_abandoned o = false ∧ ow = Held ∨ op_abandoned o = true ∧ (ow = Destroying false ∨ ow = Gone)) →
    match w with Working l => busy l (job o) | Publishing _ _ => idle (job o) | _ => False end →
    phase (mkCell (Some o) ow w)
| ph_published o ow w : op_done o = true →
    (op_abandoned o = false ∧ ow = Held ∨ op_abandoned o = true ∧ ow = Destroying true) →
    (w = Leaving false ∧ idle (job o) ∨ w = Ended) → phase (mkCell (Some o) ow w)
| ph_orphan o ow : op_done o = true → op_admitted o = true → (ow = Destroying false ∨ ow = Gone) →
    idle (job o) → phase (mkCell (Some o) ow (Leaving true))
| ph_freed ow w : (ow = OwnerReleasing ∨ ow = Gone) → (w = Leaving false ∨ w = Ended) → phase (mkCell None ow w)
| ph_freed_by_worker ow w : (ow = Destroying false ∨ ow = Gone) → (w = WorkerReleasing ∨ w = Ended) →
    phase (mkCell None ow w).

(** The places an operation takes: while it is admitted, and until the counter
    has been decremented after it was freed. *)
Definition places (c : Cell) : nat :=
  (match operation c with Some o => if op_admitted o then 1 else 0 | None => 0 end) +
  (match owner c with OwnerReleasing => 1 | _ => 0 end) + (match worker c with WorkerReleasing => 1 | _ => 0 end).

Definition total (l : list Cell) : nat := sum_list_with places l.

(** The places of all operations are counted, and within the limit. *)
Record pool_ok (p : Pool) : Prop := {
  pool_phases : Forall phase (cells p);
  pool_count : active_count p = Z.of_nat (total (cells p));
  pool_bound : active_count p ≤ workers;
}.

Lemma total_insert l i c c' : l !! i = Some c → (total (<[i:=c']> l) + places c = total l + places c')%nat.
Proof.
  revert i. induction l as [|d l IH]; intros [|i]; simpl; try done.
  - intros [= ->]. lia.
  - intros Hi. specialize (IH i Hi). unfold total in *. lia.
Qed.
Lemma total_lookup l i c : l !! i = Some c → (places c ≤ total l)%nat.
Proof.
  revert i. induction l as [|d l IH]; intros [|i]; simpl; try done.
  - intros [= ->]. lia.
  - intros Hi. specialize (IH i Hi). unfold total in *. lia.
Qed.

(** ** Its steps *)

(** A step of a thread, its effect read off the operation the phase gives. *)
Ltac phase_cases := repeat first [progress destruct_and? | progress destruct_or?].
Ltac thread_step :=
  intros Hph; destruct Hph; unfold act, reserve, prepare_step, work_step, publish, leave, worker_release, owner_release,
    poll_operation, wait_operation, destroy_operation, destroy_free, access, go, freed in *;
  phase_cases; subst; simpl in *; try done.

(** Nothing is accessed after it has been freed. *)
Lemma act_defined a c n : phase c → act a c n ≠ Some Undef.
Proof. destruct a; thread_step; repeat case_match; simplify_eq; done. Qed.

Ltac known_admitted := repeat match goal with H : op_admitted ?o = _ |- _ => rewrite ?H in *; clear H end.

Ltac known_flags := repeat match goal with
  | H : op_admitted ?o = _ |- context [op_admitted ?o] => rewrite H
  | H : op_done ?o = _ |- context [op_done ?o] => rewrite H
  | H : op_abandoned ?o = _ |- context [op_abandoned ?o] => rewrite H
  end.

(** The counter moves with the places. *)
Definition counted (c c' : Cell) (n n' : Z) : Prop :=
  phase c' ∧ n' + Z.of_nat (places c) = n + Z.of_nat (places c') ∧ n' ≤ workers.

Lemma reserve_counted b al c n c' n' : phase c → Z.of_nat (places c) ≤ n ≤ workers →
  reserve b al c n = Some (Ret (c', n')) → counted c c' n n'.
Proof.
  pose proof workers_range. intros Hph Hn. revert Hph. thread_step.
  unfold counted, places in *; simpl in *. destruct (count <? workers) eqn:Hc.
  - destruct (negb b && (n =? count)) eqn:Hx; intros [= <- <-]; simpl.
    + apply andb_true_iff in Hx as [_ Hx%Z.eqb_eq]. split_and!; [by constructor|known_admitted; lia..].
    + split_and!; [constructor; try done; lia|done|lia].
  - destruct (count =? workers) eqn:He; [|lia]. intros [= <- <-]. simpl.
    split_and!; [apply ph_published; auto|done|lia].
Qed.

Lemma prepare_counted s al c n c' n' : phase c → Z.of_nat (places c) ≤ n ≤ workers →
  prepare_step s al c n = Some (Ret (c', n')) → counted c c' n n'.
Proof.
  intros Hph Hn. revert Hph. thread_step. unfold counted, places in *; simpl in *.
  destruct (prepare s q (job o) al) as [j|j r|j] eqn:Hp; intros [= <- <-]; simpl.
  - split_and!; [apply ph_freed|known_admitted; simpl; lia..]; known_admitted; auto.
  - split_and!; [apply ph_published; auto|known_admitted; lia..].
  - split_and!; [apply ph_running; simpl; eauto using prepare_busy|known_admitted; lia..].
Qed.

(** The phase after a step, tried in turn. *)
Ltac phase_side := simpl; known_flags; first
  [ done | by left | by right | by left; split | by right; split | by right; split; [|left] | by right; split; [|right]
  | by eapply work_busy | by eapply work_idle | by left; split; [|eapply work_idle] ].
Ltac next_phase := known_flags; first
  [ apply ph_running; solve [phase_side] | apply ph_published; solve [phase_side] | apply ph_orphan; solve [phase_side]
  | apply ph_freed; solve [phase_side] | apply ph_freed_by_worker; solve [phase_side] ].
Ltac next_counted := intros; repeat (case_match; try done); simplify_eq/=; unfold counted, places in *; simpl in *;
  split_and!; first [ solve [next_phase] | known_admitted; unfold u32; rewrite ?Z.mod_small by lia; simpl in *; lia ].

Lemma worker_counted a c n c' n' : match a with Work _ _ | Publish | Leave | WorkerRelease => True | _ => False end →
  phase c → Z.of_nat (places c) ≤ n ≤ workers → act a c n = Some (Ret (c', n')) → counted c c' n n'.
Proof.
  pose proof workers_range. intros Ha Hph Hn. revert Ha Hph. destruct a; intros []; thread_step.
  all: next_counted.
Qed.

Lemma owner_counted a c n c' n' : match a with Reserve _ _ | Prepare _ _ | Work _ _ | Publish | Leave | WorkerRelease => False | _ => True end →
  phase c → Z.of_nat (places c) ≤ n ≤ workers → act a c n = Some (Ret (c', n')) → counted c c' n n'.
Proof.
  pose proof workers_range. intros Ha Hph Hn. revert Ha Hph. destruct a; intros []; thread_step.
  all: next_counted.
Qed.

Lemma act_counted a c n c' n' : phase c → Z.of_nat (places c) ≤ n ≤ workers →
  act a c n = Some (Ret (c', n')) → counted c c' n n'.
Proof.
  destruct a; first [apply reserve_counted|apply prepare_counted|by apply worker_counted|by apply owner_counted].
Qed.

Lemma new_phase s q al j r n : open_job s q al = inr (j, r) → 0 ≤ n ≤ workers →
  phase (new_operation q j r n) ∧ places (new_operation q j r n) = 0%nat.
Proof.
  intros Hj Hn. destruct r; simpl; split; try done; [apply ph_published|apply ph_reserving]; simpl; eauto using open_fresh.
Qed.

Lemma no_operations_ok : pool_ok no_operations.
Proof. pose proof workers_range. split; simpl; [constructor|done|lia]. Qed.

Lemma pool_step_ok p p' : pool_ok p → pool_step p p' → pool_ok p'.
Proof.
  intros [Hph Hn Hw] Hs. destruct Hs as [s q al j r p Hj|i a c c' n' p Hi Ha]; simpl.
  - destruct (new_phase s q al j r (active_count p) Hj) as [Hc H1]; [lia|].
    split; simpl; [apply Forall_app; auto| |done].
    unfold total in *. rewrite sum_list_with_app. cbn [sum_list_with]. lia.
  - pose proof (Forall_lookup_1 _ _ _ _ Hph Hi) as Hc. pose proof (total_lookup _ _ _ Hi).
    destruct (act_counted a c (active_count p) c' n' Hc ltac:(lia) Ha) as (Hc' & He & Hw').
    split; simpl; [by apply Forall_insert| |done].
    pose proof (total_insert _ _ _ c' Hi). lia.
Qed.

Lemma pool_reaches_ok p : rtc pool_step no_operations p → pool_ok p.
Proof.
  intros Hr. assert (∀ q, rtc pool_step q p → pool_ok q → pool_ok p) as Hind.
  { clear. intros q. induction 1; eauto using pool_step_ok. }
  eauto using no_operations_ok.
Qed.

(** ** What holds of every pool that can be reached *)

Definition in_flight (c : Cell) : bool :=
  match worker c with Working _ | Publishing _ _ => true | _ => false end.
(** The next step of a worker, whatever the call it makes is answered. *)
Definition worker_goes_on (c : Cell) (n : Z) : Prop :=
  match worker c with
  | Ended => True
  | Working _ => ∀ a al, ∃ c' n', work_step a al c n = Some (Ret (c', n'))
  | _ => ∃ a c' n', act a c n = Some (Ret (c', n'))
  end.

Record contract (p : Pool) : Prop := {
  (** no thread touches an operation that has been freed *)
  safe_access i c a : cells p !! i = Some c → act a c (active_count p) ≠ Some Undef;
  (** the counter counts the places taken, and never exceeds the limit *)
  places_counted : active_count p = Z.of_nat (total (cells p)) ∧ active_count p ≤ workers;
  (** a worker runs only in an admitted operation, on a job it can work on, and is never stuck *)
  workers_admitted i c : cells p !! i = Some c → in_flight c = true →
    ∃ o, operation c = Some o ∧ op_admitted o = true ∧ op_done o = false ∧
      ∀ l, worker c = Working l → busy l (job o);
  workers_go_on i c : cells p !! i = Some c → worker_goes_on c (active_count p);
  (** who holds an operation finds its result, or a worker that will publish it *)
  result_comes i c : cells p !! i = Some c → owner c = Held →
    ∃ o, operation c = Some o ∧ op_abandoned o = false ∧ (op_done o = true ∨ in_flight c = true);
  (** when every thread has ended, everything has been freed and every place given back *)
  nothing_left : Forall (λ c, owner c = Gone ∧ worker c = Ended) (cells p) →
    active_count p = 0 ∧ Forall (λ c, operation c = None) (cells p);
}.

Lemma phase_goes_on c n : phase c → worker_goes_on c n.
Proof.
  intros Hph. unfold worker_goes_on. destruct (worker c) as [l|r e|b| |] eqn:Hw; [intros a al|exists Publish|exists Leave|exists WorkerRelease|done];
    unfold act, work_step, publish, leave, worker_release, access, go; rewrite Hw; destruct Hph; simplify_eq/=; eauto;
    destruct_or?; destruct_and?; simplify_eq/=; repeat case_match; eauto; done.
Qed.

Lemma total_none l : Forall (λ c, owner c = Gone ∧ worker c = Ended) l → Forall (λ c, operation c = None) l → total l = 0%nat.
Proof.
  unfold total. induction l as [|c l IH]; intros Hg Ho; [done|]. inversion_clear Hg as [|? ? [Hc1 Hc2] Hl]. inversion_clear Ho.
  simpl. rewrite IH by done. unfold places. by rewrite H1, Hc1, Hc2.
Qed.

Theorem pool_contract p : rtc pool_step no_operations p → contract p.
Proof.
  intros [Hph Hn Hw]%pool_reaches_ok.
  assert (∀ i c, cells p !! i = Some c → phase c) as Hc by (intros i c; by apply Forall_lookup_1).
  split; try done.
  - intros i c a Hi. apply act_defined; eauto.
  - intros i c Hi Hf. destruct (Hc _ _ Hi); unfold in_flight in *; simpl in *; phase_cases; subst; try done;
      (eexists; split_and!; [done..|]; intros l ->; done).
  - intros i c Hi. apply phase_goes_on; eauto.
  - intros i c Hi Hf. destruct (Hc _ _ Hi); unfold in_flight in *; simpl in *; phase_cases; subst; try done;
      eexists; (split; [done|]); (split; [done|]); auto; destruct w; auto.
  - intros Hg. assert (Forall (λ c, operation c = None) (cells p)) as Ho.
    { apply Forall_lookup. intros i c Hi. pose proof (Forall_lookup_1 _ _ _ _ Hg Hi) as [Ho He].
      destruct (Hc _ _ Hi); simpl in *; phase_cases; simplify_eq/=; done. }
    split; [|done]. rewrite Hn, total_none; done.
Qed.

(** A published result stays as it is while its owner holds the operation. *)
Lemma result_kept p i c o p' : pool_ok p → pool_step p p' → cells p !! i = Some c → owner c = Held →
  operation c = Some o → op_done o = true →
  ∃ c', cells p' !! i = Some c' ∧
    (owner c' = Held ∧ operation c' = Some o ∨ owner c' = Destroying true ∧ operation c' = Some (set_abandoned o)).
Proof.
  intros Hok Hs Hi Ho Hop Hd. pose proof (Forall_lookup_1 _ _ _ _ (pool_phases _ Hok) Hi) as Hph.
  destruct Hs as [s q al j r p Hj|k a d d' n' p Hk Ha]; simpl.
  - exists c. split; [by apply lookup_app_l_Some|auto].
  - destruct (decide (k = i)) as [->|]; [|exists c; rewrite list_lookup_insert_ne by done; auto].
    assert (d = c) as -> by congruence. exists d'. split; [apply list_lookup_insert_eq; eauto using lookup_lt_Some|].
    clear -Hph Ho Hop Hd Ha. revert Ha. destruct a; revert Hph; thread_step; intros; simplify_eq/=; rewrite ?Hd in *; simplify_eq/=; auto.
Qed.
End protocol.
