(* ===== verification/ConsoleWrite.v ===== *)
(** * Asynchronous console output: src/src/vm/console_write.c

    [host_stdout_async] and [host_stderr_async] copy their text and a newline,
    duplicate the standard stream, and hand both to a detached thread.  The
    threads are those of [Detached]; this file is what a console write does in
    its own way: its checks, its copies, the loop of its worker and its results. *)

From Stdlib Require Import ZArith Lia.
From stdpp Require Import prelude gmap strings relations.
From S2P Require Import Prelude Value Collections HostTypes Posix Detached.

#[local] Open Scope Z_scope.

Definition CONSOLE_WORKERS : Z := 4.
Definition CONSOLE_BYTES : Z := 16384.

(** The fields of [struct VMConsoleWrite] that only one thread uses at a time;
    the shared ones are those of [Operation]. *)
Record VMConsoleWrite := mkConsoleWrite {
  cw_bytes : option (list Z);
  cw_length : Z;
  cw_fd : Z;
  cw_standard_error : bool;
}.

Definition write_error (standard_error : bool) (code : string) (native : Z) : M Value :=
  operation ← value_data V_STR (str (if standard_error then "host_stderr" else "host_stdout"));
  code ← value_data V_STR (str code);
  native ← value_size (u64 native);
  host_variant "Error"
    (named_value V_RECORD (str "HostError") [str "operation"; str "code"; str "native_code"] [operation; code; native]).

(** What the system answers while a write is started: whether the mutex, the
    condition and the attributes can be made, the duplicated descriptor and
    errno, and the errors of detaching and creating the thread. *)
Record WriteSetting := mkWriteSetting {
  mutex_made : bool;
  condition_made : bool;
  duplicate : Z * Z;
  attributes_made : bool;
  detach_error : Z;
  create_error : Z;
}.

(** What the system answers to the worker: the error of blocking the signal, the
    count of a write and errno, the error of closing. *)
Record WriteAnswer := mkWriteAnswer {
  mask_error : Z;
  write_answer : Z * Z;
  close_error : option Z;
}.

(** [console_write_start] until the place is reserved. *)
Definition console_write_open (s : WriteSetting) (q : Value * bool) (al : allocator) :
    option string + VMConsoleWrite * option (option Value) :=
  let '(message, standard_error) := q in
  if negb (is_kind message V_STR) then inl (Some "VM trap: asynchronous console output requires Str")
  else
    match alloc al with
    | (Ret _, al) =>
        if negb (mutex_made s) then inl None
        else if negb (condition_made s) then inl None
        else
          let operation := mkConsoleWrite None 0 (-1) standard_error in
          if Zlength' (bytes_of message) >? CONSOLE_BYTES
          then inr (operation, Some (or_null (write_error standard_error "out_of_range" 0) al))
          else inr (operation, None)
    | _ => inl None
    end.

(** The rest of it, once the operation is admitted. *)
Definition console_write_prepare (s : WriteSetting) (q : Value * bool) (operation : VMConsoleWrite) (al : allocator) :
    Prepared VMConsoleWrite :=
  let '(message, standard_error) := q in
  let length := Zlength' (bytes_of message) + 1 in
  match alloc al with
  | (Ret _, al) =>
      let bytes := bytes_of message ++ [10] in
      let '(fd, errno) := duplicate s in
      let operation := mkConsoleWrite (Some bytes) length fd (cw_standard_error operation) in
      if fd <? 0 then Finished operation (or_null (write_error standard_error "io_error" errno) al)
      else if negb (attributes_made s) then Released operation
      else
        let error := if detach_error s =? 0 then create_error s else detach_error s in
        if negb (error =? 0)
        then Finished operation (or_null (write_error standard_error "resource_limit" error) al)
        else Started operation
  | _ => Released (mkConsoleWrite None length (-1) (cw_standard_error operation))
  end.

(** Where the worker is: about to block the signal, writing, or about to close. *)
Inductive WriteLocal := Masking | Writing (sent : Z) | Closing (error sent : Z).

(** The condition of the loop. *)
Definition write_next (operation : VMConsoleWrite) (error sent : Z) : WriteLocal :=
  if (error =? 0) && (sent <? cw_length operation) then Writing sent else Closing error sent.

Definition write_worker (a : WriteAnswer) (al : allocator) (l : WriteLocal) (operation : VMConsoleWrite) :
    (WriteLocal + option Value * option string) * VMConsoleWrite :=
  match l with
  | Masking => (inl (write_next operation (mask_error a) 0), operation)
  | Writing sent =>
      let '(count, errno) := write_answer a in
      let '(error, sent) :=
        if 0 <? count then (0, u64 (sent + count))
        else if count =? 0 then (EIO, sent)
        else if negb (errno =? EINTR) then (errno, sent)
        else (0, sent) in
      (inl (write_next operation error sent), operation)
  | Closing error sent =>
      let error := match close_error a with Some errno => if error =? 0 then errno else error | None => error end in
      let operation := mkConsoleWrite (cw_bytes operation) (cw_length operation) (-1) (cw_standard_error operation) in
      let result :=
        if negb (error =? 0) then write_error (cw_standard_error operation) "io_error" error
        else host_variant "Ok" value_unit in
      (inr (or_null result al, None), operation)
  end.

#[global] Instance console_writes : Detached := {
  Request := Value * bool;
  Job := VMConsoleWrite;
  Local := WriteLocal;
  Setting := WriteSetting;
  Answer := WriteAnswer;
  workers := CONSOLE_WORKERS;
  open_job := console_write_open;
  over_limit o := or_null (write_error (cw_standard_error o) "resource_limit" 0);
  prepare := console_write_prepare;
  begin_work := Masking;
  work := write_worker;
}.

(** The descriptor that [free_write] closes, if it is still open. *)
Definition still_open (operation : VMConsoleWrite) : option Z :=
  if 0 <=? cw_fd operation then Some (cw_fd operation) else None.
Definition free_write (c : Cell) (n : Z) : effect := free_operation c n.

Definition console_write_poll (c : Cell) : option bool := poll_answer c.
Definition console_write_wait (c : Cell) (n : Z) : effect := wait_operation c n.
Definition console_write_result (c : Cell) : option (option Value) := op_result <$> operation c.
(** The critical section, then the free of an operation that was done. *)
Definition console_write_destroy (c : Cell) (n : Z) : effect :=
  match destroy_operation c n with
  | Some (Ret (c, n)) => free_write c n
  | e => e
  end.
Definition console_write_active_count (p : Pool) : Z := u64 (active_count p).

(** ** What it promises to the protocol *)

Definition open_write (l : WriteLocal) (o : VMConsoleWrite) : Prop :=
  0 ≤ cw_fd o ∧ ∃ bytes, cw_bytes o = Some bytes ∧ cw_length o = Zlength' bytes ∧
    match l with
    | Masking => True
    | Writing sent => 0 ≤ sent < cw_length o
    | Closing error sent => 0 ≤ sent ∧ (error = 0 → cw_length o ≤ sent)
    end.

Lemma write_next_open o error sent bytes : 0 ≤ cw_fd o → cw_bytes o = Some bytes → cw_length o = Zlength' bytes →
  0 ≤ sent → open_write (write_next o error sent) o.
Proof.
  intros Hf Hb Hl Hs. split; [done|]. exists bytes. split_and!; [done..|]. unfold write_next.
  destruct (error =? 0) eqn:He; simpl; [|split; [done|intros ->; done]].
  destruct (sent <? cw_length o) eqn:Hc; split; try done; lia.
Qed.

Lemma open_short s q al o : console_write_open s q al = inr (o, None) →
  is_kind (fst q) V_STR = true ∧ Zlength' (bytes_of (fst q)) ≤ CONSOLE_BYTES ∧ cw_fd o = -1.
Proof.
  unfold console_write_open. intros H. repeat case_match; simplify_eq/=. split_and!; [by apply negb_false_iff|lia|done].
Qed.

Lemma prepare_open s q o al o' : console_write_prepare s q o al = Started o' → open_write Masking o'.
Proof.
  unfold console_write_prepare. intros H. repeat case_match; simplify_eq/=;
    (split; simpl; [lia|]); (eexists; split_and!; [done| |done]); unfold Zlength'; rewrite length_app; simpl; lia.
Qed.

Lemma worker_open a al l o l' o' : open_write l o → write_worker a al l o = (inl l', o') → open_write l' o'.
Proof.
  intros (Hf & bytes & Hb & Hl & Hs). destruct l as [|sent|error sent]; simpl; intros He; [| |done].
  - simplify_eq. by eapply write_next_open.
  - assert (∀ z, 0 ≤ u64 z) by (intros; unfold u64; apply Z.mod_pos_bound; lia).
    repeat case_match; simplify_eq; (eapply write_next_open; [done..|]); auto; lia.
Qed.

Lemma worker_closed a al l o r o' : write_worker a al l o = (inr r, o') → cw_fd o' = -1.
Proof. destruct l; simpl; intros H; repeat case_match; by simplify_eq/=. Qed.

#[global] Instance console_writes_laws : DetachedLaws := {
  fresh q o := is_kind (fst q) V_STR = true ∧ Zlength' (bytes_of (fst q)) ≤ CONSOLE_BYTES ∧ cw_fd o = -1;
  busy := open_write;
  idle o := cw_fd o = -1;
  workers_range := conj eq_refl eq_refl;
  open_fresh := open_short;
  prepare_busy s q o al o' _ H := prepare_open s q o al o' H;
  work_busy := worker_open;
  work_idle a al l o r o' _ H := worker_closed a al l o r o' H;
}.

(** ** What a worker delivers *)

(** The bytes the system takes in one call. *)
Definition taken (a : WriteAnswer) (l : WriteLocal) (o : VMConsoleWrite) : list Z :=
  match l, cw_bytes o with
  | Writing sent, Some bytes => take (Z.to_nat (fst (write_answer a))) (drop (Z.to_nat sent) bytes)
  | _, _ => []
  end.
(** The worker with the answers it is given: all bytes taken, and its result. *)
Fixpoint worker_run (answers : list WriteAnswer) (al : allocator) (l : WriteLocal) (o : VMConsoleWrite) :
    list Z * option (option Value * option string) :=
  match answers with
  | [] => ([], None)
  | a :: answers =>
      match write_worker a al l o with
      | (inl l', o') => let '(rest, r) := worker_run answers al l' o' in (taken a l o ++ rest, r)
      | (inr r, _) => (taken a l o, Some r)
      end
  end.

(** The type of the count that [write] returns. *)
Definition counts_fit (answers : list WriteAnswer) : Prop := Forall (λ a, fst (write_answer a) < 2 ^ 63) answers.
(** No call is interrupted, and a failed one gives its reason. *)
Definition uninterrupted (answers : list WriteAnswer) : Prop :=
  Forall (λ a, fst (write_answer a) < 0 → snd (write_answer a) ∉ [0; EINTR]) answers.

Definition sent_of (l : WriteLocal) : Z :=
  match l with Masking => 0 | Writing sent | Closing _ sent => sent end.
Definition reports_ok (r : option Value) : Prop := ∃ v, r = Some (Variant (str "Ok") [v]).

Lemma host_variant_name name m : yields (host_variant name m) (λ v, ∃ x, v = Variant (cstr (str name)) [x]).
Proof.
  unfold host_variant, named_value, copy_text.
  eapply yields_bind; [apply yields_any|]. intros x _. eapply yields_bind; [apply yields_any|]. intros _ _.
  eapply (yields_bind _ _ (λ n, n = cstr (str name))); [|intros ? ->].
  { eapply yields_bind; [apply yields_any|]. intros _ _. by apply yields_ret. }
  eapply yields_bind; [apply yields_any|]. intros _ _. apply yields_ret. eauto.
Qed.
Lemma error_not_ok se code e al : ¬ reports_ok (or_null (write_error se code e) al).
Proof.
  intros [v Hv]. assert (yields (write_error se code e) (λ v, ∃ x, v = Variant (cstr (str "Error")) [x])) as Hy.
  { unfold write_error. do 3 (eapply yields_bind; [apply yields_any|]; intros ? _). apply host_variant_name. }
  specialize (Hy al). unfold or_null in Hv. destruct (write_error se code e al) as [[] al']; simplify_eq/=.
  destruct Hy as [x Hx]. by simplify_eq.
Qed.

Lemma next_sent o error sent : sent_of (write_next o error sent) = sent.
Proof. unfold write_next. by case_match. Qed.

Lemma worker_step_takes a al l o l' o' bytes : fst (write_answer a) < 2 ^ 63 → open_write l o → cw_bytes o = Some bytes →
  Zlength' bytes < 2 ^ 63 → write_worker a al l o = (inl l', o') →
  o' = o ∧ taken a l o ++ drop (Z.to_nat (sent_of l')) bytes = drop (Z.to_nat (sent_of l)) bytes.
Proof.
  intros Ha (Hf & bs & Hb' & Hl & Hs) Hb Hlen. assert (bs = bytes) as -> by congruence.
  unfold taken. rewrite Hb. destruct l as [|sent|error sent]; simpl; intros Hw; [| |done].
  - simplify_eq. by rewrite next_sent.
  - destruct (write_answer a) as [count errno]. simpl in *. destruct (0 <? count) eqn:Hc.
    + simplify_eq. split; [done|]. rewrite next_sent, u64_small by lia.
      rewrite Z2Nat.inj_add by lia. rewrite <-drop_drop. apply take_drop.
    + replace (Z.to_nat count) with 0%nat by lia. repeat case_match; simplify_eq; by rewrite next_sent.
Qed.

Lemma worker_step_result a al l o r e o' bytes : open_write l o → cw_bytes o = Some bytes →
  write_worker a al l o = (inr (r, e), o') →
  taken a l o = [] ∧ (reports_ok r → drop (Z.to_nat (sent_of l)) bytes = []).
Proof.
  intros (Hf & bs & Hb' & Hl & Hs) Hb. assert (bs = bytes) as -> by congruence.
  unfold taken. destruct l as [|sent|error sent]; simpl; intros Hw; [done|by repeat case_match|].
  split; [done|]. intros Hok. apply drop_ge. destruct Hs as [Hs He]. unfold Zlength' in *.
  assert (error = 0) as Herr; [|specialize (He Herr); lia].
  destruct (decide (error = 0)) as [|Hn]; [done|exfalso].
  assert ((error =? 0) = false) as Hz by lia. rewrite Hz in Hw.
  destruct (close_error a); rewrite Hz in Hw; simpl in Hw; injection Hw as <- <- <-; by apply error_not_ok in Hok.
Qed.

(** The bytes the system took are the ones from [sent] on, all of them when the
    worker reports that it succeeded. *)
Lemma worker_run_takes answers al l o bytes out r e : counts_fit answers → open_write l o → cw_bytes o = Some bytes →
  Zlength' bytes < 2 ^ 63 → worker_run answers al l o = (out, Some (r, e)) →
  out `prefix_of` drop (Z.to_nat (sent_of l)) bytes ∧ (reports_ok r → out = drop (Z.to_nat (sent_of l)) bytes).
Proof.
  revert l o out. induction answers as [|a answers IH]; intros l o out Hfit Ho Hb Hlen; [done|].
  inversion_clear Hfit as [|? ? Ha Hfit']. simpl.
  destruct (write_worker a al l o) as [[l'|[r' e']] o'] eqn:Hw.
  - pose proof (worker_open _ _ _ _ _ _ Ho Hw) as Ho'.
    destruct (worker_step_takes _ _ _ _ _ _ _ Ha Ho Hb Hlen Hw) as [-> <-].
    destruct (worker_run answers al l' o) as [rest res] eqn:Hr. intros [= <- ->].
    destruct (IH l' o rest Hfit' Ho' Hb Hlen Hr) as [Hp Hok]. split; [by apply prefix_app|]. intros Hk. by rewrite (Hok Hk).
  - intros [= <- -> ->]. destruct (worker_step_result _ _ _ _ _ _ _ _ Ho Hb Hw) as [-> Hd]. split; [apply prefix_nil|].
    intros Hk. by rewrite (Hd Hk).
Qed.

(** Bytes and calls left. *)
Definition left_to_do (l : WriteLocal) (o : VMConsoleWrite) : Z :=
  match l with Masking => cw_length o + 2 | Writing sent => cw_length o - sent + 1 | Closing _ _ => 1 end.

Lemma worker_step_left a al l o l' o' : fst (write_answer a) < 2 ^ 63 →
  (fst (write_answer a) < 0 → snd (write_answer a) ∉ [0; EINTR]) → open_write l o → cw_length o < 2 ^ 63 →
  write_worker a al l o = (inl l', o') → o' = o ∧ left_to_do l' o < left_to_do l o.
Proof.
  intros Ha Hi (Hf & bs & Hb & Hl & Hs) Hlen. unfold Zlength' in Hl.
  destruct l as [|sent|error sent]; simpl; intros Hw; [| |done].
  - simplify_eq. split; [done|]. unfold write_next. case_match; simpl; lia.
  - destruct (write_answer a) as [count errno]. simpl in *. unfold write_next in Hw.
    destruct (0 <? count) eqn:Hc; [rewrite u64_small in Hw by lia|destruct (count =? 0) eqn:Hz].
    + simplify_eq. split; [done|]. case_match; simpl; lia.
    + simplify_eq. split; [done|]. simpl. lia.
    + assert (errno ∉ [0; EINTR]) as Hn by (apply Hi; lia). apply not_elem_of_cons in Hn as [H0 Hn].
      apply not_elem_of_cons in Hn as [Hn _]. assert ((errno =? EINTR) = false) as E1 by lia. rewrite E1 in Hw. simpl in Hw.
      assert ((errno =? 0) = false) as E0 by lia. rewrite E0 in Hw. simplify_eq/=. split; [done|lia].
Qed.

Lemma worker_run_ends answers al l o : counts_fit answers → uninterrupted answers → open_write l o →
  left_to_do l o ≤ Z.of_nat (length answers) → cw_length o < 2 ^ 63 → is_Some (snd (worker_run answers al l o)).
Proof.
  revert l. induction answers as [|a answers IH]; intros l Hfit Hu Ho Hn Hlen.
  { destruct Ho as (_ & bs & _ & Hl & Hs). unfold Zlength' in Hl. destruct l; simpl in *; lia. }
  inversion_clear Hfit as [|? ? Ha Hfit']. inversion_clear Hu as [|? ? Hi Hu']. simpl.
  destruct (write_worker a al l o) as [[l'|r] o'] eqn:Hw; [|by eexists].
  destruct (worker_step_left _ _ _ _ _ _ Ha Hi Ho Hlen Hw) as [-> Hd].
  destruct (worker_run answers al l' o) as [rest res] eqn:Hr. simpl.
  change res with (snd (rest, res)). rewrite <-Hr. apply IH; try done; [by eapply worker_open|simpl in Hn; lia].
Qed.

(** ** The contract of console_write.h *)


(** C39: an admitted console write sends its text and a newline: the bytes the
    system took are a beginning of them, all of them when Ok is reported; and the
    worker ends after at most one call for each byte and two more, when no call is
    interrupted. *)
Theorem console_write_delivers s message se o al o' answers al' : console_write_prepare s (message, se) o al = Started o' →
  Zlength' (bytes_of message) ≤ CONSOLE_BYTES → counts_fit answers →
  (∀ out r e, worker_run answers al' Masking o' = (out, Some (r, e)) →
     out `prefix_of` bytes_of message ++ [10] ∧ (reports_ok r → out = bytes_of message ++ [10])) ∧
  (uninterrupted answers → Zlength' (bytes_of message) + 3 ≤ Z.of_nat (length answers) →
     is_Some (snd (worker_run answers al' Masking o'))).
Proof.
  intros Hp Hm Hfit. pose proof (prepare_open _ _ _ _ _ Hp) as Ho.
  assert (cw_bytes o' = Some (bytes_of message ++ [10]) ∧ cw_length o' = Zlength' (bytes_of message) + 1) as [Hb Hl].
  { unfold console_write_prepare in Hp. by repeat case_match; simplify_eq. }
  unfold CONSOLE_BYTES in Hm. split.
  - intros out r e Hr. apply (worker_run_takes answers al' Masking o' _ out r e); try done.
    unfold Zlength' in *. rewrite length_app. simpl. lia.
  - intros Hu Hn. apply worker_run_ends; try done; simpl; lia.
Qed.

(** ** Instances *)

Definition willing : WriteSetting := mkWriteSetting true true (7, 0) true 0 0.
Definition greeting : Value := Str (text_of (str "hi")).
(** Two writes: the first is published while its owner destroys it; the second
    still writes. *)
Definition two_writes : list entry :=
  [New willing (greeting, false) []; Act 0 (Reserve false []); Act 0 (Prepare willing []);
   New willing (greeting, true) []; Act 1 (Reserve true []); Act 1 (Reserve false []); Act 1 (Prepare willing []);
   Act 0 (Work (mkWriteAnswer 0 (0, 0) None) []); Act 0 (Work (mkWriteAnswer 0 (3, 0) None) []);
   Act 0 DestroyOperation; Act 0 (Work (mkWriteAnswer 0 (0, 0) None) []); Act 0 Publish; Act 0 DestroyFree;
   Act 0 Leave; Act 0 WorkerRelease; Act 1 (Work (mkWriteAnswer 0 (0, 0) None) [])].
Definition one_writing : Pool := default no_operations (schedule two_writes no_operations).

Lemma one_writing_reached : rtc pool_step no_operations one_writing.
Proof. apply scheduled. Qed.


Lemma console_write_delivers_witness :
  let o := mkConsoleWrite (Some (str "hi" ++ [10])) 3 7 false in
  console_write_prepare willing (greeting, false) (mkConsoleWrite None 0 (-1) false) [] = Started o ∧
  is_Some (snd (worker_run (replicate 5 (mkWriteAnswer 0 (1, 0) None)) [] Masking o)).
Proof.
  split; [reflexivity|].
  refine (proj2 (console_write_delivers willing greeting false (mkConsoleWrite None 0 (-1) false) [] _ _ [] eq_refl _ _) _ _).
  - vm_compute. discriminate.
  - repeat constructor.
  - repeat constructor; simpl; lia.
  - vm_compute. discriminate.
Defined.
