(* ===== verification/RootRead.v ===== *)
(** * Asynchronous file reads: src/src/vm/root_read.c

    [fs_read_beneath_async] and [fs_root_identity_async] copy their arguments and
    hand them to a detached thread, which makes the capability call.  The threads
    are those of [Detached]; this file is what such a read does in its own way.
    What the call answers is an argument of the worker. *)

From Stdlib Require Import ZArith Lia.
From stdpp Require Import prelude gmap strings relations.
From S2P Require Import Prelude Bigint Value Numeric Collections HostTypes Detached.

#[local] Open Scope Z_scope.

Definition ROOT_READ_WORKERS : Z := 32.
Definition ROOT_READ_BYTES : Z := 16 * 1024 * 1024.
Definition ROOT_READ_PATH : Z := 4096.

(** The fields of [struct VMRootRead] that only one thread uses at a time; the
    shared ones are those of [Operation]. *)
Record VMRootRead := mkRootRead { rr_arguments : list (option Value); rr_identity_only : bool }.

Definition read_failure (identity_only : bool) (code : string) : M Value :=
  operation ← value_data V_STR (str (if identity_only then "fs_root_identity" else "fs_read_beneath"));
  code ← value_data V_STR (str code);
  native ← value_size 0;
  host_variant "Error"
    (named_value V_RECORD (str "HostError") [str "operation"; str "code"; str "native_code"] [operation; code; native]).

(** The arguments of the call: the path, and, unless only the identity is asked
    for, the path beneath it and the limit. *)
Record ReadRequest := mkReadRequest { root_path : Value; beneath : option (Value * Value) }.
Definition identity_only (q : ReadRequest) : bool := match beneath q with None => true | Some _ => false end.

(** What the system answers while a read is started. *)
Record ReadSetting := mkReadSetting {
  rs_mutex_made : bool;
  rs_condition_made : bool;
  rs_attributes_made : bool;
  rs_detach_error : Z;
  rs_create_error : Z;
}.

(** [kind != V_PATH || memchr(data, 0, length)] *)
Definition bad_path (v : Value) : bool := negb (is_kind v V_PATH) || existsb (Z.eqb 0) (bytes_of v).

Definition bad_request (q : ReadRequest) : bool :=
  bad_path (root_path q) ||
  match beneath q with
  | Some (path, limit) => negb (is_kind path V_PATH) || negb (is_kind limit V_NAT) || existsb (Z.eqb 0) (bytes_of path)
  | None => false
  end.

Definition long_path (v : Value) : bool := Zlength' (bytes_of v) >? ROOT_READ_PATH.
(** The limit, unless the request is out of range; 0 when only the identity is asked for. *)
Definition request_limit (q : ReadRequest) : option Z :=
  if long_path (root_path q) then None
  else
    match beneath q with
    | None => Some 0
    | Some (path, limit) =>
        if long_path path then None
        else match value_index limit with
             | Some limit => if limit >? ROOT_READ_BYTES then None else Some limit
             | None => None
             end
    end.

(** [root_read_start] until the place is reserved. *)
Definition root_read_open (s : ReadSetting) (q : ReadRequest) (al : allocator) :
    option string + VMRootRead * option (option Value) :=
  if bad_request q then inl (Some "VM trap: invalid asynchronous filesystem arguments")
  else
    match alloc al with
    | (Ret _, al) =>
        if negb (rs_mutex_made s) then inl None
        else if negb (rs_condition_made s) then inl None
        else
          let read := mkRootRead [None; None; None] (identity_only q) in
          match request_limit q with
          | None => inr (read, Some (or_null (read_failure (identity_only q) "out_of_range") al))
          | Some _ => inr (read, None)
          end
    | _ => inl None
    end.

(** A value or NULL, and what is left of the allocator. *)
Definition made (m : M Value) (al : allocator) : option Value * allocator :=
  (or_null m al, snd (m al)).

(** The rest of it, once the operation is admitted. *)
Definition root_read_prepare (s : ReadSetting) (q : ReadRequest) (read : VMRootRead) (al : allocator) :
    Prepared VMRootRead :=
  let limit := default 0 (request_limit q) in
  let '(a0, al) := made (value_data V_PATH (bytes_of (root_path q))) al in
  let '(a1, al) :=
    made (value_data V_PATH match beneath q with None => [] | Some (path, _) => bytes_of path end) al in
  let '(a2, al) := made (value_size limit) al in
  let read := mkRootRead [a0; a1; a2] (rr_identity_only read) in
  match a0, a1, a2 with
  | Some _, Some _, Some _ =>
      if negb (rs_attributes_made s) then Released read
      else
        let error := if rs_detach_error s =? 0 then rs_create_error s else rs_detach_error s in
        if negb (error =? 0) then Finished read (or_null (read_failure (identity_only q) "resource_limit") al)
        else Started read
  | _, _, _ => Released read
  end.

(** The name and the arguments of the call the worker makes. *)
Definition capability_call (read : VMRootRead) : string * option (list Value) :=
  (if rr_identity_only read then "fs_root_identity" else "fs_read_beneath", mapM id (rr_arguments read)).

(** The worker makes one call, with a virtual machine of its own. *)
Definition read_worker (a : option Value * option string) (al : allocator) (l : unit) (read : VMRootRead) :
    (unit + option Value * option string) * VMRootRead :=
  (inr a, read).

#[global] Instance root_reads : Detached := {
  Request := ReadRequest;
  Job := VMRootRead;
  Local := unit;
  Setting := ReadSetting;
  Answer := option Value * option string;
  workers := ROOT_READ_WORKERS;
  open_job := root_read_open;
  over_limit read := or_null (read_failure (rr_identity_only read) "resource_limit");
  prepare := root_read_prepare;
  begin_work := tt;
  work := read_worker;
}.

Definition free_read (c : Cell) (n : Z) : effect := free_operation c n.
Definition root_read_poll (c : Cell) : option bool := poll_answer c.
Definition root_read_wait (c : Cell) (n : Z) : effect := wait_operation c n.
Definition root_read_result (c : Cell) : option (option Value) := op_result <$> operation c.
Definition root_read_error (c : Cell) : option (option string) := op_error <$> operation c.
(** The critical section, then the free of an operation that was done. *)
Definition root_read_destroy (c : Cell) (n : Z) : effect :=
  match destroy_operation c n with
  | Some (Ret (c, n)) => free_read c n
  | e => e
  end.
Definition root_read_active_count (p : Pool) : Z := u64 (active_count p).

(** ** What it promises to the protocol *)

(** A path the call may be given. *)
Definition good_path (s : list Z) : Prop := 0 ∉ s ∧ Zlength' s ≤ ROOT_READ_PATH.

(** The request passed the checks. *)
Definition accepted (q : ReadRequest) (read : VMRootRead) : Prop :=
  bad_request q = false ∧ is_Some (request_limit q) ∧ rr_identity_only read = identity_only q.

(** The call the worker is about to make. *)
Definition ready_call (read : VMRootRead) : Prop :=
  ∃ s t n, rr_arguments read = [Some (Path s); Some (Path t); Some (Nat_ n)] ∧ good_path s ∧ good_path t ∧
    wf n ∧ 0 ≤ to_Z n ≤ ROOT_READ_BYTES ∧ (rr_identity_only read = true → t = [] ∧ to_Z n = 0).

Lemma open_accepted s q al read : root_read_open s q al = inr (read, None) → accepted q read.
Proof. unfold root_read_open, accepted. intros H. repeat case_match; simplify_eq/=; eauto. Qed.

Lemma made_yields m P al : yields m P → ∀ v, fst (made m al) = Some v → P v.
Proof. intros Hy v. specialize (Hy al). unfold made, or_null. simpl. destruct (fst (m al)); intros [= ->]; done. Qed.

Lemma path_copied s : yields (value_data V_PATH s) (λ v, v = Path s).
Proof. by eapply (yields_runs _ _ no_trap), value_data_spec. Qed.
Lemma size_made n : 0 ≤ n < 2 ^ 64 → yields (value_size n) (λ v, ∃ b, v = Nat_ b ∧ wf b ∧ to_Z b = n).
Proof.
  intros Hn. apply (yields_runs _ _ no_trap). unfold value_size. eapply runs_bind; [by apply from_u64_spec|].
  intros b (Wb & Hb & Sb). apply value_big_spec; [eapply sized_mono; [done|lia]|eauto].
Qed.

Lemma limit_range q l : request_limit q = Some l → 0 ≤ l ≤ ROOT_READ_BYTES.
Proof.
  assert (∀ l z, fits_size_loop l = Some z → 0 ≤ z) as Hn.
  { intros [|x l0] z; simpl; intros H; [by simplify_eq|]. repeat case_match; simplify_eq. unfold u64. apply Z.mod_pos_bound. lia. }
  unfold request_limit, value_index, pn_big_fits_size. intros H.
  repeat case_match; simplify_eq; try (unfold ROOT_READ_BYTES; lia). split; [by eapply Hn|lia].
Qed.

Lemma good_paths q l : bad_request q = false → request_limit q = Some l →
  good_path (bytes_of (root_path q)) ∧ good_path match beneath q with None => [] | Some (path, _) => bytes_of path end.
Proof.
  unfold bad_request, bad_path, request_limit, long_path, good_path. intros Hb Hl.
  assert (∀ s, existsb (Z.eqb 0) s = false → 0 ∉ s) as Hz.
  { intros s Hs Hin. enough (existsb (Z.eqb 0) s = true) by congruence. apply existsb_exists. exists 0. by rewrite <-list_elem_of_In. }
  destruct (beneath q) as [[path limit]|]; repeat (apply orb_false_iff in Hb as [Hb ?H]); repeat case_match; simplify_eq;
    (split; split); first [by apply Hz|apply Hz; by apply orb_false_iff in H as [_ H]|by apply not_elem_of_nil|by unfold Zlength', ROOT_READ_PATH in *; simpl in *; lia].
Qed.

Lemma prepare_ready s q read al read' : accepted q read → root_read_prepare s q read al = Started read' → ready_call read'.
Proof.
  intros (Hb & [limit Hl] & Hi) Hp. destruct (good_paths q limit Hb Hl) as [G0 G1]. pose proof (limit_range q limit Hl) as Hr.
  unfold root_read_prepare in Hp. rewrite Hl in Hp. cbn [default id] in Hp.
  destruct (made (value_data V_PATH (bytes_of (root_path q))) al) as [a0 al0] eqn:M0.
  destruct (made (value_data V_PATH _) al0) as [a1 al1] eqn:M1.
  destruct (made (value_size limit) al1) as [a2 al2] eqn:M2.
  destruct a0 as [v0|]; [|done]. destruct a1 as [v1|]; [|done]. destruct a2 as [v2|]; [|done].
  assert (v0 = Path (bytes_of (root_path q))) as -> by (apply (made_yields _ _ al (path_copied _)); by rewrite M0).
  assert (v1 = Path match beneath q with None => [] | Some (path, _) => bytes_of path end) as ->
    by (apply (made_yields _ _ al0 (path_copied _)); by rewrite M1).
  assert (∃ b, v2 = Nat_ b ∧ wf b ∧ to_Z b = limit) as (n & -> & Wn & Hn).
  { apply (made_yields _ _ al1 (size_made limit ltac:(unfold ROOT_READ_BYTES in Hr; lia))). by rewrite M2. }
  repeat case_match; simplify_eq; (do 3 eexists; split_and!; [done..|lia|lia|]); simpl; rewrite Hi; unfold identity_only;
    intros Hid; case_match; try done; (split; [done|]); unfold request_limit in Hl; repeat case_match; by simplify_eq.
Qed.

#[global] Instance root_reads_laws : DetachedLaws := {
  fresh := accepted;
  busy _ := ready_call;
  idle _ := True;
  workers_range := conj eq_refl eq_refl;
  open_fresh := open_accepted;
  prepare_busy := prepare_ready;
  work_busy a al l read l' read' H E := ltac:(discriminate E);
  work_idle a al l read r read' _ _ := I;
}.

(** ** The contract of root_read.h *)

(** C29: whatever the system answers and however the threads interleave, no thread
    of an asynchronous read touches an operation after it was freed, at most 32
    workers are admitted, abandoned ones included; each worker makes its call with
    copies of a path and a path beneath it of at most 4096 bytes without NUL and a
    limit of at most 16 MiB; the owner finds a result or a worker that will publish
    one; a published result and error stay; and when all threads have ended nothing
    is left. *)
Theorem root_reads_safe p : rtc pool_step no_operations p →
  contract p ∧
  0 ≤ root_read_active_count p ≤ ROOT_READ_WORKERS ∧
  (∀ i c, cells p !! i = Some c → ∀ l o, worker c = Working l → operation c = Some o →
     ∃ s t n, snd (capability_call (job o)) = Some [Path s; Path t; Nat_ n] ∧ good_path s ∧ good_path t ∧
       0 ≤ to_Z n ≤ ROOT_READ_BYTES) ∧
  (∀ i c o p', pool_step p p' → cells p !! i = Some c → operation c = Some o → root_read_poll c = Some true →
     ∃ c', cells p' !! i = Some c' ∧ root_read_result c' = root_read_result c ∧ root_read_error c' = root_read_error c).
Proof.
  intros Hp. pose proof (pool_contract p Hp) as Hc. pose proof (pool_reaches_ok p Hp) as Hok. split; [done|]. split; [|split].
  - pose proof (places_counted _ Hc) as [Hn Hw]. simpl in Hw. unfold root_read_active_count, ROOT_READ_WORKERS in *.
    rewrite u64_small; lia.
  - intros i c Hi l o Hw Ho. destruct (workers_admitted _ Hc _ _ Hi) as (o' & Ho' & _ & _ & Hb); [unfold in_flight; by rewrite Hw|].
    assert (o' = o) as -> by congruence. destruct (Hb l Hw) as (s & t & n & Ha & Gs & Gt & _ & Hn & _).
    exists s, t, n. split; [|done]. unfold capability_call. simpl. by rewrite Ha.
  - intros i c o p' Hs Hi Ho Hd. unfold root_read_poll, poll_answer in Hd. rewrite Ho in Hd.
    destruct (owner c) eqn:Hown; simplify_eq. destruct (result_kept p i c o p' Hok Hs Hi Hown Ho) as (c' & Hi' & Hr); [congruence|].
    exists c'. unfold root_read_result, root_read_error. rewrite Ho. destruct Hr as [[_ ->]|[_ ->]]; done.
Qed.

(** ** An instance *)

Definition ready_system : ReadSetting := mkReadSetting true true true 0 0.
Definition some_read : ReadRequest :=
  mkReadRequest (Path (str "/srv")) (Some (Path (str "a/b"), Nat_ {| sign := 1; limbs := [100] |})).
(** A read that is abandoned before its worker has an answer. *)
Definition abandoned_read : list entry :=
  [New ready_system some_read []; Act 0 (Reserve false []); Act 0 (Prepare ready_system []);
   Act 0 DestroyOperation; Act 0 DestroyFree].
Definition one_abandoned : Pool := default no_operations (schedule abandoned_read no_operations).

Lemma root_reads_safe_witness :
  rtc pool_step no_operations one_abandoned ∧ active_count one_abandoned = 1 ∧ was_freed one_abandoned 0 = false ∧
  contract one_abandoned.
Proof.
  split; [apply scheduled|]. split; [vm_compute; reflexivity|]. split; [vm_compute; reflexivity|].
  exact (proj1 (root_reads_safe one_abandoned (scheduled abandoned_read no_operations))).
Defined.
