(* ===== verification/Exchange.v ===== *)
(** * Outbound TCP exchanges: src/src/vm/tcp.c

    An exchange sends a request to an IPv4 peer, ends its side of the stream,
    and collects the response under a limit and a deadline, without blocking:
    the owner polls it until it is done.  The calls of the operating system are
    those of [TcpServer] and three more.  Beside the world, a wire keeps what the
    code cannot see: the last reading of the clock and the bytes that the system
    took and delivered. *)

From Stdlib Require Import ZArith Lia.
From stdpp Require Import prelude strings.
From S2P Require Import Prelude Bigint Value Numeric Collections HostTypes Posix Rooted TcpServer.

#[local] Open Scope Z_scope.

Definition TCP_BYTE_LIMIT : Z := 1024 * 1024.
Definition TCP_TIMEOUT_LIMIT : Z := 60000.
Definition INET_ADDRSTRLEN : Z := 16.
Definition INT_MAX : Z := 2147483647.

(** ** The interface *)

(** [connect]: a connection, one in progress, or failure. *)
Inductive connect_result := Connected | InProgress | ConnectFailed.

Class Peers (W : Type) := {
  sys_connect : Z → list Z → Z → W → connect_result * W;
  (** [SO_ERROR] could be read and is 0 *)
  sys_so_error : Z → W → bool * W;
  sys_shutdown : Z → W → bool * W;
}.

Record Wire (W : Type) := mkWire {
  net : W;
  last_ms : option Z;
  outgoing : list Z;
  incoming : list Z;
  ended : bool;
}.
Arguments mkWire {_}. Arguments net {_}. Arguments last_ms {_}. Arguments outgoing {_}. Arguments incoming {_}. Arguments ended {_}.

Definition milliseconds (r : option (Z * Z)) : option Z :=
  match r with Some (sec, nsec) => Some (u64 (u64 (u64 sec * 1000) + u64 nsec / 1000000)) | None => None end.

(** ** Exchanges *)

Record VMTcpExchange := mkExchange {
  request : list Z;
  result : option Value;
  (** the bytes of [response] up to [received] *)
  response : list Z;
  sent : nat;
  limit : Z;
  deadline : Z;
  fd : Z;
  connecting : bool;
  sent_eof : bool;
  done : bool;
}.
Definition with_fd (n : Z) (e : VMTcpExchange) : VMTcpExchange :=
  mkExchange (request e) (result e) (response e) (sent e) (limit e) (deadline e) n (connecting e) (sent_eof e) (done e).
Definition with_result (r : option Value) (e : VMTcpExchange) : VMTcpExchange :=
  mkExchange (request e) r (response e) (sent e) (limit e) (deadline e) (fd e) (connecting e) (sent_eof e) true.
Definition with_connecting (b : bool) (e : VMTcpExchange) : VMTcpExchange :=
  mkExchange (request e) (result e) (response e) (sent e) (limit e) (deadline e) (fd e) b (sent_eof e) (done e).
Definition with_sent (n : nat) (e : VMTcpExchange) : VMTcpExchange :=
  mkExchange (request e) (result e) (response e) n (limit e) (deadline e) (fd e) (connecting e) (sent_eof e) (done e).
Definition with_eof (e : VMTcpExchange) : VMTcpExchange :=
  mkExchange (request e) (result e) (response e) (sent e) (limit e) (deadline e) (fd e) (connecting e) true (done e).
Definition with_response (l : list Z) (e : VMTcpExchange) : VMTcpExchange :=
  mkExchange (request e) (result e) l (sent e) (limit e) (deadline e) (fd e) (connecting e) (sent_eof e) (done e).

(** The variant of an error message, or of bytes. *)
Definition outcome_value (error : option string) (bytes : list Z) : M Value :=
  payload ← match error with Some m => value_data V_STR (str m) | None => value_data V_BYTES bytes end;
  named_value V_VARIANT (str (match error with Some _ => "Error" | None => "Ok" end)) [] [payload].

Section exchange.
Context {W : Type} `{!Sockets W, !Peers W}.
Notation io := (IO (Wire W)).

Definition on_net {A} (f : W → A * W) : io A :=
  ask (λ w, let '(a, n) := f (net w) in (a, mkWire n (last_ms w) (outgoing w) (incoming w) (ended w))).
Definition monotonic_ms : io (option Z) :=
  ask (λ w, let '(r, n) := clock_gettime (net w) in
            (milliseconds r, mkWire n (milliseconds r) (outgoing w) (incoming w) (ended w))).
Definition new_socket : io Z := λ s al,
  let '(d, n) := sys_socket (net (world s)) in
  let w := world s in
  (Ret d, mkSys (mkWire n (last_ms w) (outgoing w) (incoming w) (ended w)) (if 0 <=? d then (d, Socket) :: held s else held s) (reads s), al).
Definition close_fd (d : Z) : io unit :=
  on d (λ _ s al,
    let w := world s in
    (Ret tt, mkSys (mkWire (sys_close d (net w)) (last_ms w) (outgoing w) (incoming w) (ended w)) (remove_one d (held s)) (reads s), al)).
Definition send (d : Z) (bytes : list Z) : io send_result :=
  on d (λ _, ask (λ w, let '(r, n) := sys_send d bytes (net w) in
    (r, mkWire n (last_ms w) (outgoing w ++ match r with Sent k => take (Z.to_nat k) bytes | _ => [] end) (incoming w) (ended w)))).
Definition recv (d size : Z) : io recv_result :=
  on d (λ _, ask (λ w, let '(r, n) := sys_recv d size (net w) in
    (r, mkWire n (last_ms w) (outgoing w) (incoming w ++ match r with Received b => b | _ => [] end) (ended w)))).
Definition shutdown_write (d : Z) : io bool :=
  on d (λ _, ask (λ w, let '(b, n) := sys_shutdown d (net w) in
    (b, mkWire n (last_ms w) (outgoing w) (incoming w) (ended w || b)))).
Definition on_socket {A} (d : Z) (f : W → A * W) : io A := on d (λ _, on_net f).

Definition close_socket (e : VMTcpExchange) : io VMTcpExchange :=
  if 0 <=? fd e then _ ← close_fd (fd e); mret (with_fd (-1) e) else mret e.

(** [finish(exchange, error)], where [None] is success. *)
Definition finish_exchange (error : option string) (e : VMTcpExchange) : io VMTcpExchange :=
  e ← close_socket e;
  r ← or_none (outcome_value error (response e));
  mret (with_result r e).
Definition fail_exchange (m : string) (e : VMTcpExchange) : io VMTcpExchange := finish_exchange (Some m) e.

(** The port, the limit and the timeout, unless an argument is refused. *)
Definition exchange_arguments (a0 a1 a2 a3 a4 : Value) : option (Z * Z * Z) :=
  if negb (is_kind a0 V_STR && is_kind a1 V_NAT && is_kind a2 V_BYTES && is_kind a3 V_NAT && is_kind a4 V_NAT) then None
  else
    match value_index a1, value_index a3, value_index a4 with
    | Some port, Some limit, Some timeout =>
        if (port =? 0) || (port >? 65535) || (limit >? TCP_BYTE_LIMIT) || (Zlength' (bytes_of a2) >? TCP_BYTE_LIMIT) ||
           (timeout =? 0) || (timeout >? TCP_TIMEOUT_LIMIT)
        then None else Some (port, limit, timeout)
    | _, _, _ => None
    end.

Definition bad_address (address : list Z) : bool :=
  bool_decide (address = []) || (INET_ADDRSTRLEN <=? Zlength' address) || existsb (Z.eqb 0) address || negb (inet_pton address).

(** The socket: configured, and connected or connecting. *)
Definition connect_exchange (address : list Z) (port : Z) (e : VMTcpExchange) : io VMTcpExchange :=
  d ← new_socket;
  let e := with_fd d e in
  configured ← (if d <? 0 then mret false
                else
                  a ← on_socket d (fcntl_nonblock d);
                  if (a : bool) then on_socket d (fcntl_cloexec d) else mret false);
  if negb configured then fail_exchange "TCP socket failed" e
  else
    r ← on_socket d (sys_connect d address port);
    match r with
    | Connected => mret e
    | InProgress => mret (with_connecting true e)
    | ConnectFailed => fail_exchange "TCP connect failed" e
    end.

Definition tcp_exchange_start (a : list Value) : io VMTcpExchange :=
  _ ← lift alloc;
  a0 ← lift (rd a 0); a1 ← lift (rd a 1); a2 ← lift (rd a 2); a3 ← lift (rd a 3); a4 ← lift (rd a 4);
  let empty := mkExchange [] None [] 0 0 0 (-1) false false false in
  match exchange_arguments a0 a1 a2 a3 a4 with
  | None => fail_exchange "invalid TCP arguments" empty
  | Some (port, limit, timeout) =>
      let empty := mkExchange [] None [] 0 limit 0 (-1) false false false in
      if bad_address (bytes_of a0) then fail_exchange "invalid IPv4 address" empty
      else
        now ← monotonic_ms;
        match now with
        | None => fail_exchange "TCP clock failed" empty
        | Some now =>
            if UINT64_MAX - now <? timeout then fail_exchange "TCP clock failed" empty
            else
              buffer ← or_none alloc;
              let e := mkExchange [] None [] 0 limit (now + timeout) (-1) false false false in
              match buffer with
              | None => mret (with_result None e)
              | Some _ =>
                  connect_exchange (bytes_of a0) port
                    (mkExchange (bytes_of a2) None [] 0 limit (now + timeout) (-1) false false false)
              end
        end
  end.

(** The socket can be written to. *)
Definition exchange_write (e : VMTcpExchange) : io VMTcpExchange :=
  let left_ := (length (request e) - sent e)%nat in
  e ← (if Nat.eqb left_ 0 then mret e
       else
         r ← send (fd e) (take (Nat.min left_ 16384) (drop (sent e) (request e)));
         match r with
         | Sent n => if 0 <? n then mret (with_sent (sent e + Z.to_nat n) e) else fail_exchange "TCP write failed" e
         | SendAgain => mret e
         | SendFailed => fail_exchange "TCP write failed" e
         end);
  if done e then mret e
  else if Nat.eqb (sent e) (length (request e)) then
    b ← shutdown_write (fd e);
    if (b : bool) then mret (with_eof e) else fail_exchange "TCP shutdown failed" e
  else mret e.

(** [memcpy(exchange->response + exchange->received, buffer, count)], into
    [limit ? limit : 1] bytes. *)
Definition store_response (bytes : list Z) (e : VMTcpExchange) : io VMTcpExchange := λ s al,
  if Zlength' (response e) + Zlength' bytes <=? Z.max 1 (limit e) then (Ret (with_response (response e ++ bytes) e), s, al)
  else (Undef, s, al).

(** The socket can be read from. *)
Definition exchange_read (e : VMTcpExchange) : io VMTcpExchange :=
  r ← recv (fd e) 16384;
  match r with
  | Received [] => finish_exchange (if sent_eof e then None else Some "TCP peer closed before request completed") e
  | Received bytes =>
      if Zlength' bytes >? u64 (limit e - Zlength' (response e)) then fail_exchange "TCP response limit exceeded" e
      else store_response bytes e
  | RecvAgain => mret e
  | RecvFailed => fail_exchange "TCP read failed" e
  end.

(** What is done with the events of the socket. *)
Definition exchange_ready (revents : Z) (e : VMTcpExchange) : io VMTcpExchange :=
  if has revents POLLNVAL then fail_exchange "TCP socket failed" e
  else
    e ← (if connecting e then
           ok ← on_socket (fd e) (sys_so_error (fd e));
           if (ok : bool) then mret (with_connecting false e) else fail_exchange "TCP connect failed" e
         else mret e);
    if done e then mret e
    else
      e ← (if negb (sent_eof e) && has revents POLLOUT then exchange_write e else mret e);
      if done e then mret e
      else if has revents (Z.lor POLLIN (Z.lor POLLHUP POLLERR)) then exchange_read e else mret e.

(** The deadline, by the clock. *)
Definition exchange_clock (e : VMTcpExchange) : io (VMTcpExchange * Z) :=
  now ← monotonic_ms;
  match now with
  | None => e ← fail_exchange "TCP clock failed" e; mret (e, 0)
  | Some now => if deadline e <=? now then e ← fail_exchange "TCP timed out" e; mret (e, now) else mret (e, now)
  end.

Definition tcp_exchange_poll (max_wait_ms : Z) (e : VMTcpExchange) : io (VMTcpExchange * bool) :=
  if done e then mret (e, true)
  else
    '(e, now) ← exchange_clock e;
    if done e then mret (e, true)
    else
      let remaining := deadline e - now in
      let wait := Z.min remaining (Z.min max_wait_ms INT_MAX) in
      let events := if connecting e || negb (sent_eof e) then Z.lor POLLIN POLLOUT else POLLIN in
      r ← on_socket (fd e) (sys_poll [mkPollfd (fd e) events] wait);
      match r with
      | PollFailed => e ← fail_exchange "TCP poll failed" e; mret (e, done e)
      | PollInterrupted => mret (e, done e)
      | Ready count revents =>
          '(e, _) ← exchange_clock e;
          if done e || (count =? 0) then mret (e, done e)
          else e ← exchange_ready (default 0 (head revents)) e; mret (e, done e)
      end.

Definition tcp_exchange_result (e : VMTcpExchange) : option Value := result e.
Definition tcp_exchange_destroy (e : VMTcpExchange) : io unit := _ ← close_socket e; mret tt.
End exchange.

(** ** What an exchange keeps *)

Definition error_value (v : Value) : Prop := ∃ m, v = Variant (str "Error") [Str (text_of (str m))].

Lemma outcome_runs error bytes E :
  runs (outcome_value error bytes) (λ v, match error with Some _ => error_value v | None => v = Variant (str "Ok") [Bytes bytes] end) E.
Proof.
  unfold outcome_value. destruct error as [m|].
  - eapply (runs_bind _ _ (λ v, v = Str (text_of (str m)))); [by apply value_data_spec|]. intros ? ->. apply variant_spec. by exists m.
  - eapply (runs_bind _ _ (λ v, v = Bytes bytes)); [by apply value_data_spec|]. intros ? ->. by apply variant_spec.
Qed.

Section sound.
Context {W : Type} `{!Sockets W, !SocketsLaws W, !Peers W}.
Implicit Types (s : Sys (Wire W)) (e : VMTcpExchange) (w : Wire W).
(** the arguments, and what the caller holds *)
Context (a : list Value) (h : list (Z * origin)).

(** The exchange is the one that was asked for. *)
Definition asked e : Prop :=
  (∃ v, a !! 2%nat = Some v ∧ request e = bytes_of v) ∧ (∃ v, a !! 3%nat = Some v ∧ value_index v = Some (limit e)).
Definition in_time e w : Prop := ∃ t, last_ms w = Some t ∧ t < deadline e.

(** The answer of an exchange that is done: none when memory was refused, an
    error, or all that was received. *)
Definition exchange_answer e w : Prop :=
  match result e with
  | None => True
  | Some v => error_value v ∨
      v = Variant (str "Ok") [Bytes (incoming w)] ∧ asked e ∧ outgoing w = request e ∧ ended w = true ∧
      Zlength' (incoming w) ≤ limit e ∧ in_time e w
  end.
Definition exchange_going e w : Prop := result e = None ∧ asked e ∧ incoming w = response e ∧ in_time e w.

Record steady e s : Prop := {
  steady_held : held s = if 0 <=? fd e then (fd e, Socket) :: h else h;
  steady_out : outgoing (world s) = take (sent e) (request e);
  steady_sent : (sent e ≤ length (request e))%nat;
  steady_end : ended (world s) = sent_eof e;
  steady_eof : sent_eof e = true → sent e = length (request e);
  steady_limit : Zlength' (response e) ≤ limit e < 2 ^ 64;
}.
Definition sound e s : Prop :=
  steady e s ∧ (0 <=? fd e) = negb (done e) ∧ if done e then exchange_answer e (world s) else exchange_going e (world s).

(** A call that leaves the wire alone, apart from the clock. *)
Definition same_wire w w' : Prop := outgoing w' = outgoing w ∧ incoming w' = incoming w ∧ ended w' = ended w.
Definition quiet s s' : Prop := held s' = held s ∧ same_wire (world s) (world s').
Definition quiet_time s s' : Prop := quiet s s' ∧ last_ms (world s') = last_ms (world s).

Lemma steady_quiet e s s' : steady e s → quiet s s' → steady e s'.
Proof. intros [H1 H2 H3 H4 H5 H6] (E1 & E2 & E3 & E4). split; by rewrite ?E1, ?E2, ?E3, ?E4. Qed.
Lemma going_quiet e s s' : exchange_going e (world s) → quiet_time s s' → exchange_going e (world s').
Proof.
  intros (H1 & H2 & H3 & H4) [(E1 & E2 & E3 & E4) E5]. split_and!; [done|done|by rewrite E3|]. unfold in_time. by rewrite E5.
Qed.
Lemma sound_quiet e s s' : sound e s → done e = false → quiet_time s s' → sound e s'.
Proof.
  intros (H1 & H2 & H3) Hd Hq. split; [eapply steady_quiet; [done|apply Hq]|]. split; [done|]. rewrite Hd in *. by eapply going_quiet.
Qed.

Lemma wp_on_net {A} (f : W → A * W) s (Q : A → Sys (Wire W) → Prop) X :
  (∀ x s', quiet_time s s' → Q x s') → wp (on_net f) s Q X.
Proof. intros H. apply wp_ask. destruct (f (net (world s))) as [x n] eqn:E. simpl. apply H. done. Qed.
Lemma wp_on_socket {A} d (f : W → A * W) s (Q : A → Sys (Wire W) → Prop) X : is_Some (origin_of d (held s)) →
  (∀ x s', quiet_time s s' → Q x s') → wp (on_socket d f) s Q X.
Proof. intros [o Ho] H. eapply wp_on; [done|]. by apply wp_on_net. Qed.
Lemma wp_ms s (Q : option Z → Sys (Wire W) → Prop) X :
  (∀ r s', quiet s s' → last_ms (world s') = r → Q r s') → wp monotonic_ms s Q X.
Proof. intros H. apply wp_ask. destruct (clock_gettime (net (world s))) as [r n]. simpl. by apply H. Qed.

Lemma open_fd e s : steady e s → 0 ≤ fd e → is_Some (origin_of (fd e) (held s)).
Proof. intros [Hh _ _ _ _ _] Hd. rewrite Hh, (proj2 (Z.leb_le _ _) Hd). eexists. apply origin_of_head. Qed.

Lemma wp_close_socket e s (Q : VMTcpExchange → Sys (Wire W) → Prop) X : steady e s →
  (∀ n s', n < 0 → held s' = h → same_wire (world s) (world s') → last_ms (world s') = last_ms (world s) → Q (with_fd n e) s') →
  wp (close_socket e) s Q X.
Proof.
  intros Hs H. pose proof (steady_held _ _ Hs) as Hh. unfold close_socket. destruct (Z.leb_spec 0 (fd e)) as [Hd|Hd].
  - apply wp_bind. destruct (open_fd _ _ Hs Hd) as [o Ho]. eapply wp_on; [done|]. intros al. cbn. apply wp_ret, H; [lia|simpl|done..].
    rewrite Hh. apply remove_head.
  - apply wp_ret. replace e with (with_fd (fd e) e) at 1 by by destruct e. by apply H.
Qed.

(** The end, which closes the socket whatever it reports. *)
Lemma wp_finish_exchange error e s (Q : VMTcpExchange → Sys (Wire W) → Prop) X : steady e s →
  (error = None → exchange_going e (world s) ∧ sent_eof e = true) →
  (∀ e' s', sound e' s' → done e' = true → Q e' s') → wp (finish_exchange error e) s Q X.
Proof.
  intros Hs Hok H. unfold finish_exchange. apply wp_bind, wp_close_socket; [done|]. intros n s1 Hn Hh (E1 & E2 & E3) E4. apply wp_bind.
  assert (∀ r, exchange_answer (with_result r (with_fd n e)) (world s1) → wp (mret (with_result r (with_fd n e))) s1 Q X) as Hr.
  { intros r Ha. apply wp_ret, H; [|done]. assert ((0 <=? n) = false) as Hn' by (apply Z.leb_gt; lia). split; [|done].
    destruct Hs. split; simpl; rewrite ?Hn', ?E1, ?E3; done. }
  eapply wp_or_none; [apply outcome_runs| |by apply Hr]. intros v Hv. apply Hr. unfold exchange_answer. simpl.
  destruct error as [m|]; [by left|right]. subst v. destruct (Hok eq_refl) as [(_ & Hq & Hin & t & Ht & Hlt) Heof].
  destruct Hs as [_ H2 _ H4 H5 H6]. rewrite (H5 Heof), take_ge in H2 by lia.
  rewrite E1, E2, E3, H2, H4, Hin. split_and!; [done|done|done|done|apply H6|]. exists t. by rewrite E4.
Qed.
Lemma wp_fail_exchange m e s (Q : VMTcpExchange → Sys (Wire W) → Prop) X : steady e s →
  (∀ e' s', sound e' s' → done e' = true → Q e' s') → wp (fail_exchange m e) s Q X.
Proof. intros Hs H. by apply wp_finish_exchange. Qed.

(** A step that ends in a sound state. *)
Notation sounds m s := (wp m s (λ e' s', sound e' s') (λ _, False)).

Lemma sound_fd e s : sound e s → done e = false → 0 ≤ fd e.
Proof. intros (_ & Hf & _) Hd. rewrite Hd in Hf. by apply Z.leb_le. Qed.

Lemma sent_prefix (l : list Z) n k m : (m ≤ k)%nat → take n l ++ take m (take k (drop n l)) = take (n + m) l.
Proof. intros Hk. rewrite take_take, Nat.min_l by done. apply take_take_drop. Qed.

(** More of the request was taken. *)
Lemma sound_sent e s n k (x : W) : sound e s → done e = false → sent_eof e = false → (n ≤ length (request e) - sent e)%nat → (n ≤ k)%nat →
  sound (with_sent (sent e + n) e)
    (mkSys (mkWire x (last_ms (world s)) (outgoing (world s) ++ take n (take k (drop (sent e) (request e)))) (incoming (world s)) (ended (world s)))
      (held s) (reads s)).
Proof.
  intros (Hst & Hf & Hg) Hd Heof Hn Hk. rewrite Hd in Hf, Hg. destruct Hst. split; [|split; simpl; rewrite Hd; done].
  split; simpl; try done; [|lia|by rewrite Heof]. by rewrite steady_out0, sent_prefix.
Qed.

Lemma wp_exchange_send e s : sound e s → done e = false → sent_eof e = false →
  wp (if Nat.eqb (length (request e) - sent e) 0 then mret e
      else
        r ← send (fd e) (take (Nat.min (length (request e) - sent e) 16384) (drop (sent e) (request e)));
        match r with
        | Sent n => if 0 <? n then mret (with_sent (sent e + Z.to_nat n) e) else fail_exchange "TCP write failed" e
        | SendAgain => mret e
        | SendFailed => fail_exchange "TCP write failed" e
        end) s (λ e' s', sound e' s' ∧ (done e' = false → sent_eof e' = false)) (λ _, False).
Proof.
  intros Hs Hd Heof. pose proof (sound_fd _ _ Hs Hd) as Hfd. pose proof Hs as (Hst & Hf & Hg).
  destruct (Nat.eqb_spec (length (request e) - sent e) 0) as [Hz|Hz]; [by apply wp_ret|].
  apply wp_bind. destruct (open_fd _ _ Hst Hfd) as [o Ho]. eapply wp_on; [done|]. apply wp_ask.
  set (k := Nat.min _ _). set (b := take k _). pose proof (send_bound (fd e) b (net (world s))) as Hb.
  destruct (sys_send (fd e) b (net (world s))) as [r n] eqn:E. cbn [fst snd].
  assert (length b ≤ k)%nat as Hbk by (unfold b; rewrite length_take; lia).
  assert (∀ e' s', sound e' s' → done e' = true → sound e' s' ∧ (done e' = false → sent_eof e' = false)) as Hfin by (intros; split; congruence).
  assert (steady e (mkSys (mkWire n (last_ms (world s)) (outgoing (world s) ++ []) (incoming (world s)) (ended (world s))) (held s) (reads s))) as Hst'.
  { rewrite app_nil_r. by eapply steady_quiet. }
  assert (sound e (mkSys (mkWire n (last_ms (world s)) (outgoing (world s) ++ []) (incoming (world s)) (ended (world s))) (held s) (reads s))) as Hs'.
  { rewrite app_nil_r. by eapply sound_quiet. }
  destruct r as [m| |]; [|by apply wp_ret|by apply wp_fail_exchange].
  destruct (Hb _ _ eq_refl) as [Hm1 Hm2]. destruct (Z.ltb_spec 0 m) as [Hm|Hm].
  - apply wp_ret. split; [|done]. apply sound_sent; [done..|lia|lia].
  - replace (take (Z.to_nat m) b) with (@nil Z) by (by replace (Z.to_nat m) with 0%nat by lia). by apply wp_fail_exchange.
Qed.

Lemma wp_exchange_write e s : sound e s → done e = false → sent_eof e = false → sounds (exchange_write e) s.
Proof.
  intros Hs Hd Heof. unfold exchange_write. apply wp_bind. eapply wp_mono; [by apply wp_exchange_send| |done]. intros e1 s1 [Hs1 He1].
  destruct (done e1) eqn:Hd1; [by apply wp_ret|]. specialize (He1 eq_refl). pose proof (sound_fd _ _ Hs1 Hd1) as Hfd.
  destruct (Nat.eqb_spec (sent e1) (length (request e1))) as [Hall|Hall]; [|by apply wp_ret]. pose proof Hs1 as (Hst & Hf & Hg).
  apply wp_bind. destruct (open_fd _ _ Hst Hfd) as [o Ho]. eapply wp_on; [done|]. apply wp_ask.
  destruct (sys_shutdown (fd e1) (net (world s1))) as [[|] n]; cbn [fst snd].
  - apply wp_ret. destruct Hst. rewrite Hd1 in Hf, Hg. split; [|split; simpl; rewrite Hd1; done]. split; simpl; try done. apply orb_true_r.
  - apply wp_fail_exchange; [|done]. rewrite orb_false_r. by eapply steady_quiet.
Qed.

Lemma wp_exchange_read e s : sound e s → done e = false → sounds (exchange_read e) s.
Proof.
  intros Hs Hd. pose proof (sound_fd _ _ Hs Hd) as Hfd. pose proof Hs as (Hst & Hf & Hg). rewrite Hd in Hf, Hg. unfold exchange_read.
  apply wp_bind. destruct (open_fd _ _ Hst Hfd) as [o Ho]. eapply wp_on; [done|]. apply wp_ask.
  destruct (sys_recv (fd e) 16384 (net (world s))) as [r n] eqn:E. cbn [fst snd].
  assert (∀ l, steady e (mkSys (mkWire n (last_ms (world s)) (outgoing (world s)) l (ended (world s))) (held s) (reads s))) as Hst'.
  { intros l. destruct Hst. by split. }
  assert (∀ r', r' = Received [] ∨ r' = RecvAgain → sound e (mkSys (mkWire n (last_ms (world s)) (outgoing (world s))
    (incoming (world s) ++ match r' with Received b => b | _ => [] end) (ended (world s))) (held s) (reads s))) as Hs'.
  { intros r' [-> | ->]; rewrite app_nil_r; by eapply sound_quiet. }
  destruct r as [[|x bytes]| |]; [|set (b := x :: bytes) in *|apply wp_ret, (Hs' RecvAgain); by right|by apply wp_fail_exchange].
  - destruct (sent_eof e) eqn:Heof; [|by apply wp_fail_exchange]. apply wp_finish_exchange; [done| |done]. intros _.
    specialize (Hs' _ (or_introl eq_refl)) as (_ & _ & Hg'). by rewrite Hd in Hg'.
  - pose proof (steady_limit _ _ Hst) as Hlim. unfold u64. assert (0 ≤ Zlength' (response e)) by (unfold Zlength'; lia).
    rewrite Z.mod_small by lia. destruct (Z.gtb_spec (Zlength' b) (limit e - Zlength' (response e))) as [Hb|Hb]; [by apply wp_fail_exchange|].
    intros al. unfold store_response. rewrite (proj2 (Z.leb_le _ _)) by lia. destruct Hg as (G1 & G2 & G3 & G4).
    destruct Hst. split; [|split; simpl; rewrite Hd; [done|]].
    + split; simpl; try done. unfold Zlength' in *. rewrite length_app. lia.
    + split_and!; simpl; [done|done|by rewrite G3|done].
Qed.

Lemma sound_connecting b e s : sound e s → sound (with_connecting b e) s.
Proof. intros (H1 & H2 & H3). destruct H1. by split. Qed.

Lemma wp_exchange_ready r e s : sound e s → done e = false → sounds (exchange_ready r e) s.
Proof.
  intros Hs Hd. pose proof (sound_fd _ _ Hs Hd) as Hfd. unfold exchange_ready. destruct (has r POLLNVAL); [apply wp_fail_exchange; [apply Hs|done]|].
  apply wp_bind. eapply (wp_mono _ _ (λ e' s', sound e' s') _ (λ _, False)); [|intros e1 s1 Hs1|done].
  - destruct (connecting e); [|by apply wp_ret]. apply wp_bind. apply wp_on_socket; [by apply open_fd; [apply Hs|]|].
    intros ok s1 Hq. destruct ok; [|apply wp_fail_exchange; [eapply steady_quiet; [apply Hs|apply Hq]|done]].
    by apply wp_ret, sound_connecting, (sound_quiet _ s).
  - destruct (done e1) eqn:Hd1; [by apply wp_ret|]. apply wp_bind. eapply (wp_mono _ _ (λ e' s', sound e' s') _ (λ _, False)); [|intros e2 s2 Hs2|done].
    + destruct (sent_eof e1) eqn:Heof; [by apply wp_ret|]. destruct (has r POLLOUT); [by apply wp_exchange_write|by apply wp_ret].
    + destruct (done e2) eqn:Hd2; [by apply wp_ret|]. destruct (has r _); [by apply wp_exchange_read|by apply wp_ret].
Qed.

Lemma wp_exchange_clock e s : sound e s → done e = false →
  wp (exchange_clock e) s (λ '(e', t) s', sound e' s' ∧ (done e' = false → e' = e ∧ last_ms (world s') = Some t)) (λ _, False).
Proof.
  intros Hs Hd. unfold exchange_clock. apply wp_bind, wp_ms. intros t s1 Hq Ht. pose proof Hs as (Hst & Hf & Hg).
  assert (steady e s1) as Hst1 by by eapply steady_quiet. rewrite Hd in Hf, Hg.
  assert (∀ m t, wp (e' ← fail_exchange m e; mret (e', t)) s1 (λ '(e', t) s', sound e' s' ∧ (done e' = false → e' = e ∧ last_ms (world s') = Some t)) (λ _, False)) as Hfail.
  { intros m t'. apply wp_bind, wp_fail_exchange; [done|]. intros e' s' Hs' Hd'. apply wp_ret. split; [done|congruence]. }
  destruct t as [t|]; [|apply Hfail]. destruct (Z.leb_spec (deadline e) t) as [Hl|Hl]; [apply Hfail|]. apply wp_ret.
  split; [|done]. split; [done|]. split; [by rewrite Hd|]. rewrite Hd. destruct Hg as (G1 & G2 & G3 & G4).
  destruct Hq as (E1 & E2 & E3 & E4). split_and!; [done|done|by rewrite E3|by exists t].
Qed.

Lemma wp_poll n e s : sound e s → wp (tcp_exchange_poll n e) s (λ '(e', b) s', sound e' s' ∧ b = done e') (λ _, False).
Proof.
  intros Hs. unfold tcp_exchange_poll. destruct (done e) eqn:Hd; [by apply wp_ret|]. apply wp_bind.
  eapply wp_mono; [by apply wp_exchange_clock| |done]. intros [e1 t] s1 [Hs1 Ht]. destruct (done e1) eqn:Hd1; [by apply wp_ret|].
  pose proof (sound_fd _ _ Hs1 Hd1) as Hfd. apply wp_bind, wp_on_socket; [by apply open_fd; [apply Hs1|]|]. intros r s2 Hq.
  pose proof (sound_quiet _ _ _ Hs1 Hd1 Hq) as Hs2. destruct r as [c l| |].
  - apply wp_bind. eapply wp_mono; [by apply wp_exchange_clock| |done]. intros [e3 t'] s3 [Hs3 _].
    destruct (done e3) eqn:Hd3; [by apply wp_ret|]. destruct (c =? 0); [by apply wp_ret|]. apply wp_bind.
    eapply wp_mono; [by apply wp_exchange_ready| |done]. intros e4 s4 Hs4. by apply wp_ret.
  - by apply wp_ret.
  - apply wp_bind, wp_fail_exchange; [apply Hs2|]. intros e' s' Hs' Hd'. by apply wp_ret.
Qed.

Definition fresh_wire w : Prop := outgoing w = [] ∧ incoming w = [] ∧ ended w = false.

(** An exchange without a socket. *)
Lemma steady_new q l t s : held s = h → fresh_wire (world s) → 0 ≤ l < 2 ^ 64 → steady (mkExchange q None [] 0 l t (-1) false false false) s.
Proof. intros Hh (H1 & H2 & H3) Hl. split; simpl; try done; [lia]. Qed.

Lemma wp_new_socket s (Q : Z → Sys (Wire W) → Prop) X :
  (∀ d s', held s' = (if 0 <=? d then (d, Socket) :: held s else held s) → same_wire (world s) (world s') → last_ms (world s') = last_ms (world s) → Q d s') →
  wp new_socket s Q X.
Proof. intros H al. unfold new_socket. destruct (sys_socket (net (world s))) as [d n]. by apply H. Qed.

Lemma wp_connect address port q l t s : held s = h → fresh_wire (world s) → 0 ≤ l < 2 ^ 64 →
  asked (mkExchange q None [] 0 l t (-1) false false false) → (∃ now, last_ms (world s) = Some now ∧ now < t) →
  sounds (connect_exchange address port (mkExchange q None [] 0 l t (-1) false false false)) s.
Proof.
  intros Hh (W1 & W2 & W3) Hl Ha Ht. unfold connect_exchange. apply wp_bind, wp_new_socket. intros d s1 Hd (E1 & E2 & E3) E4.
  set (e := with_fd d _). rewrite Hh in Hd. assert (steady e s1) as Hst.
  { split; simpl; try done; [by rewrite E1|lia|by rewrite E3]. }
  assert (0 ≤ d → sound e s1) as Hs1.
  { intros Hpos. split; [done|]. split; simpl; [by apply Z.leb_le|]. split_and!; [done|done|by rewrite E2|]. unfold in_time. by rewrite E4. }
  assert (fd e = d ∧ done e = false) as [Hfd Hdn] by done. clearbody e.
  apply wp_bind. eapply (wp_mono _ _ (λ ok s', steady e s' ∧ (ok = true → sound e s' ∧ 0 ≤ d)) _ (λ _, False)); [| |done].
  - destruct (Z.ltb_spec d 0) as [Hn|Hn]; [by apply wp_ret|]. specialize (Hs1 Hn). apply wp_bind, wp_on_socket.
    { rewrite <-Hfd. apply open_fd; [done|lia]. }
    intros ok s2 Hq. pose proof (sound_quiet _ _ _ Hs1 Hdn Hq) as Hs2. pose proof (proj1 Hs2) as Hst2. destruct ok; [|by apply wp_ret].
    apply wp_on_socket; [rewrite <-Hfd; apply open_fd; [done|lia]|]. intros ok s3 Hq3. pose proof (sound_quiet _ _ _ Hs2 Hdn Hq3) as Hs3.
    split; [apply Hs3|done].
  - intros ok s2 [Hst2 Hok]. destruct ok; [|by apply wp_fail_exchange]. destruct (Hok eq_refl) as [Hs2 Hn]. apply wp_bind, wp_on_socket.
    { rewrite <-Hfd. apply open_fd; [done|lia]. }
    intros r s3 Hq3. pose proof (sound_quiet _ _ _ Hs2 Hdn Hq3) as Hs3.
    destruct r; [by apply wp_ret|by apply wp_ret, sound_connecting|apply wp_fail_exchange; [apply Hs3|done]].
Qed.

Lemma arguments_bounds a0 a1 a2 a3 a4 port l timeout : exchange_arguments a0 a1 a2 a3 a4 = Some (port, l, timeout) →
  value_index a3 = Some l ∧ 0 ≤ l ≤ TCP_BYTE_LIMIT ∧ 0 < timeout.
Proof.
  unfold exchange_arguments. intros H. repeat case_match; simplify_eq. repeat match goal with H : _ || _ = false |- _ => apply orb_false_iff in H as [? ?] end.
  assert (0 ≤ l) by (by eapply index_nonneg). assert (0 ≤ timeout) by (by eapply index_nonneg). split; [done|lia].
Qed.

Lemma wp_start s : held s = h → fresh_wire (world s) → (5 ≤ length a)%nat →
  wp (tcp_exchange_start a) s (λ e s', sound e s') (λ s', held s' = h).
Proof.
  intros Hh Hw Hlen. unfold tcp_exchange_start. apply wp_bind. eapply wp_lift; [apply runs_alloc| |done]. intros _ _.
  assert (∀ i, (i < 5)%nat → ∃ v, a !! i = Some v) as Harg by (intros i Hi; apply lookup_lt_is_Some_2; lia).
  destruct (Harg 0%nat) as [a0 H0]; [lia|]. destruct (Harg 1%nat) as [a1 H1]; [lia|]. destruct (Harg 2%nat) as [a2 H2]; [lia|].
  destruct (Harg 3%nat) as [a3 H3]; [lia|]. destruct (Harg 4%nat) as [a4 H4]; [lia|]. do 5 (apply wp_bind; eapply wp_rd; [done|]).
  assert (TCP_BYTE_LIMIT = 1048576) as HL by done.
  destruct (exchange_arguments a0 a1 a2 a3 a4) as [[[port l] timeout]|] eqn:Hargs; [|apply wp_fail_exchange; [apply steady_new; [done..|lia]|done]].
  apply arguments_bounds in Hargs as (Hl & Hl' & Hto).
  destruct (bad_address _); [apply wp_fail_exchange; [apply steady_new; [done..|lia]|done]|].
  apply wp_bind, wp_ms. intros r s1 (E1 & E2 & E3 & E4) Hr. rewrite Hh in E1. destruct Hw as (W1 & W2 & W3).
  assert (fresh_wire (world s1)) as Hw1 by (split_and!; congruence).
  destruct r as [now|]; [|apply wp_fail_exchange; [apply steady_new; [done..|lia]|done]].
  destruct (_ <? _); [apply wp_fail_exchange; [apply steady_new; [done..|lia]|done]|].
  apply wp_bind. eapply (wp_or_none _ (λ _, True)); [apply runs_alloc|intros _ _|].
  - eapply wp_mono; [apply wp_connect; [done|done|lia|split; [by exists a2|by exists a3]|exists now; split; [done|lia]]|done|done].
  - apply wp_ret. pose proof (steady_new [] l (now + timeout) s1 E1 Hw1 ltac:(lia)) as Hst. destruct Hst. split; [by split|done].
Qed.

(** ** Exchanges and their owners *)

(** The owner polls with these waits, and looks at the exchange. *)
Fixpoint poll_all (waits : list Z) (e : VMTcpExchange) : IO (Wire W) VMTcpExchange :=
  match waits with [] => mret e | n :: waits => '(e, _) ← tcp_exchange_poll n e; poll_all waits e end.

Lemma wp_poll_all waits e s : sound e s → sounds (poll_all waits e) s.
Proof.
  revert e s. induction waits as [|n waits IH]; intros e s Hs; [by apply wp_ret|]. cbn [poll_all]. apply wp_bind.
  eapply wp_mono; [by apply wp_poll| |done]. intros [e1 b] s1 [Hs1 _]. by apply IH.
Qed.

Lemma wp_destroy e s : sound e s → wp (tcp_exchange_destroy e) s (λ _ s', held s' = h) (λ _, False).
Proof. intros Hs. unfold tcp_exchange_destroy. apply wp_bind, wp_close_socket; [apply Hs|]. intros n s1 _ Hh _ _. by apply wp_ret. Qed.
End sound.

(** ** The theorem *)

Section contract.
Context {W : Type} `{!Sockets W, !SocketsLaws W, !Peers W}.

(** The state of an exchange between two calls of its owner. *)
Definition exchange_state (a : list Value) (s : Sys (Wire W)) (e : VMTcpExchange) (s' : Sys (Wire W)) : Prop :=
  let w := world s' in
  if done e then held s' = held s ∧ exchange_answer a e w
  else held s' = (fd e, Socket) :: held s ∧ asked a e ∧ tcp_exchange_result e = None ∧ outgoing w `prefix_of` request e ∧
       incoming w = response e ∧ Zlength' (incoming w) ≤ limit e ∧ in_time e w.

(** C26: an outbound exchange, polled any number of times, on any system: it is
    never undefined; while it is going it holds one socket, has sent a prefix of
    the request, keeps the response within its limit, and its deadline had not
    passed at the last reading of the clock; once it is done its socket is
    closed, and it reports an error or, as [Ok], all bytes the peer sent, and
    then the whole request was sent and ended, in time. *)
Theorem exchange_protocol a waits (s : Sys (Wire W)) al : fresh_wire (world s) → (5 ≤ length a)%nat →
  match (e ← tcp_exchange_start a; poll_all waits e) s al with
  | (Ret e, s', _) => exchange_state a s e s'
  | (Trap _ _, s', _) | (NoMem, s', _) => held s' = held s
  | _ => False
  end.
Proof.
  intros Hw Ha. assert (wp (e ← tcp_exchange_start a; poll_all waits e) s (λ e s', sound a (held s) e s') (λ s', held s' = held s)) as H.
  { apply wp_bind. eapply wp_mono; [by apply wp_start| |done]. intros e s1 Hs1. eapply wp_mono; [by apply wp_poll_all|done|done]. }
  specialize (H al). destruct ((e ← tcp_exchange_start a; poll_all waits e) s al) as [[[e|k m| | |] s'] al']; try done.
  destruct H as (Hst & Hf & Hr). unfold exchange_state. pose proof (steady_held _ _ _ Hst) as Hh. destruct (done e); rewrite Hf in Hh; [done|].
  destruct Hr as (H1 & H2 & H3 & H4). destruct Hst as [_ Ho _ _ _ Hl]. split_and!; try done.
  - rewrite Ho. apply prefix_take.
  - rewrite H3. apply Hl.
Qed.
End contract.

(** A peer that answers once; its clock does not move. *)
#[local] Instance ponging : Sockets bool := {
  clock_gettime w := (Some (0, 0), w);
  inet_pton _ := true;
  TcpServer.sys_socket w := (3, w);
  fcntl_nonblock _ w := (true, w);
  fcntl_cloexec _ w := (true, w);
  setsockopt_reuse _ w := (true, w);
  sys_bind _ _ _ w := (true, w);
  sys_listen _ _ w := (true, w);
  sys_accept _ w := (AcceptAgain, w);
  sys_recv _ n w := if n <? 4 then (RecvAgain, w) else (Received (if w then [] else str "pong"), true);
  sys_send _ l w := (Sent (Z.of_nat (length l)), w);
  TcpServer.sys_poll l _ w := (Ready (Z.of_nat (length l)) (poll_events <$> l), w);
  TcpServer.sys_close _ w := w;
  write_log _ w := w;
}.
#[local] Instance ponging_laws : SocketsLaws bool.
Proof.
  split.
  - intros fd n w bytes w'. simpl. destruct (Z.ltb_spec n 4); [done|]. intros [= <- <-]. destruct w; simpl; lia.
  - intros fd l w n w' [= <- <-]. lia.
Qed.
#[local] Instance ponging_peers : Peers bool := {
  sys_connect _ _ _ w := (InProgress, w);
  sys_so_error _ w := (true, w);
  sys_shutdown _ w := (true, w);
}.

Definition ping : list Value :=
  [Str (text_of (str "127.0.0.1")); Nat_ {| sign := 1; limbs := [80] |}; Bytes (str "ping");
   Nat_ {| sign := 1; limbs := [9] |}; Nat_ {| sign := 1; limbs := [100] |}].
Definition quiet_line : Sys (Wire bool) := mkSys (mkWire false None [] [] false) [] [].

Example ping_pong :
  match (e ← tcp_exchange_start ping; poll_all [5; 5; 5] e) quiet_line [] with
  | (Ret e, s, _) => match result e with
      | Some (Variant n [Bytes b]) => bool_decide (n = str "Ok") && bool_decide (b = str "pong") && bool_decide (outgoing (world s) = str "ping")
      | _ => false
      end
  | _ => false
  end = true.
Proof. vm_compute. reflexivity. Qed.

Lemma exchange_protocol_witness :
  match (e ← tcp_exchange_start ping; poll_all [5; 5; 5] e) quiet_line [] with
  | (Ret e, s', _) => exchange_state ping quiet_line e s'
  | (Trap _ _, s', _) | (NoMem, s', _) => held s' = held quiet_line
  | _ => False
  end.
Proof.
  assert (fresh_wire (world quiet_line)) as H1 by (split_and!; reflexivity). assert (5 ≤ length ping)%nat as H2 by (simpl; lia).
  apply (exchange_protocol ping [5; 5; 5] quiet_line [] H1 H2).
Defined.
