(* ===== verification/HttpTransport.v ===== *)
(** * HTTP transports: src/src/vm/http_transport.c

    A transport connects to a host through libcurl, sends a request, and
    collects the response or hands it out in chunks, under a limit and a
    deadline; and the table of streams of an invocation.  libcurl, [poll] and the
    clock are an interface of calls.  Beside the world, [Lines] keeps the curl
    handles that are in use, so that using another is undefined, and a log of the
    bytes that went over each handle. *)

From Stdlib Require Import ZArith Lia.
From stdpp Require Import prelude strings.
From S2P Require Import Prelude Bigint Digits Value Numeric Collections HostTypes Posix Rooted TcpServer Exchange.

#[local] Open Scope Z_scope.

Definition HTTP_TRANSPORT_BYTE_LIMIT : Z := 16 * 1024 * 1024.
Definition HTTP_TRANSPORT_TIMEOUT_LIMIT : Z := 60000.
Definition HTTP_TRANSPORT_CHUNK : Z := 16384.
Definition HTTP_STREAM_HANDLES : nat := 512.

(** ** Host names *)

Definition is_dot (c : Z) : bool := c =? 46.
Definition is_hyphen (c : Z) : bool := c =? 45.
Definition alphanumeric (c : Z) : bool :=
  ((97 <=? c) && (c <=? 122)) || ((65 <=? c) && (c <=? 90)) || ((48 <=? c) && (c <=? 57)).

(** The loop, with the byte before: [None] when it returns false, or the state at
    its end. *)
Fixpoint host_loop (l : list Z) (before : Z) (label_length : nat) (label_starts_hyphen : bool) : option (Z * nat * bool) :=
  match l with
  | [] => Some (before, label_length, label_starts_hyphen)
  | c :: l =>
      if is_dot c then
        if Nat.eqb label_length 0 || label_starts_hyphen || is_hyphen before then None else host_loop l c 0 false
      else if negb (alphanumeric c) && negb (is_hyphen c) then None
      else if Nat.ltb 63 (S label_length) then None
      else host_loop l c (S label_length) (if Nat.eqb label_length 0 then is_hyphen c else label_starts_hyphen)
  end.

Definition valid_host (host : Value) : bool :=
  is_kind host V_STR && negb (bool_decide (bytes_of host = [])) && (Zlength' (bytes_of host) <=? 253) &&
  negb (existsb (Z.eqb 0) (bytes_of host)) &&
  match host_loop (bytes_of host) 0 0 false with
  | Some (last_, label_length, label_starts_hyphen) => negb (Nat.eqb label_length 0) && negb label_starts_hyphen && negb (is_hyphen last_)
  | None => false
  end.

(** [snprintf(url, sizeof(url), "%s://%.*s:%zu/", ...)] *)
Definition url_of (secure : bool) (host : list Z) (port : Z) : list Z :=
  str (if secure then "https" else "http") ++ str "://" ++ host ++ str ":" ++ ((λ d, 48 + d) <$> digits_of 10 port) ++ str "/".
Definition URL_SIZE : Z := 300.

(** ** libcurl *)

Definition CURLE_OK : Z := 0.
Definition CURLE_COULDNT_RESOLVE_HOST : Z := 6.
Definition CURLE_OPERATION_TIMEDOUT : Z := 28.
Definition CURLE_SSL_CONNECT_ERROR : Z := 35.
Definition CURLE_SSL_CERTPROBLEM : Z := 58.
Definition CURLE_PEER_FAILED_VERIFICATION : Z := 60.
Definition CURLE_USE_SSL_FAILED : Z := 64.
Definition CURLE_SSL_CACERT_BADFILE : Z := 77.
Definition CURLE_AGAIN : Z := 81.
Definition CURLE_SSL_ISSUER_ERROR : Z := 83.

Definition connect_error (code : Z) : string :=
  if code =? CURLE_OPERATION_TIMEDOUT then "HTTP transport timed out"
  else if code =? CURLE_COULDNT_RESOLVE_HOST then "HTTP DNS failed"
  else if (code =? CURLE_PEER_FAILED_VERIFICATION) || (code =? CURLE_SSL_CACERT_BADFILE) || (code =? CURLE_SSL_ISSUER_ERROR)
  then "HTTP TLS verification failed"
  else if (code =? CURLE_SSL_CONNECT_ERROR) || (code =? CURLE_USE_SSL_FAILED) || (code =? CURLE_SSL_CERTPROBLEM) then "HTTP TLS failed"
  else "HTTP connection failed".

Inductive curl_option :=
| OptUrl (url : list Z) | OptConnectOnly | OptHttpVersion11 | OptNoSignal | OptTimeoutMs (ms : Z) | OptConnectTimeoutMs (ms : Z)
| OptNoProxy | OptNoProxyHosts | OptVerifyPeer | OptVerifyHost | OptHttpOnly | OptCaInfo (path : list Z).

(** The calls, with the type of their answers.  A message of [InfoRead] is a
    finished transfer with its code, or of another kind. *)
Inductive CurlE : Type → Type :=
| GlobalInit : CurlE bool
| AsyncDns : CurlE bool
| GlobalCleanup : CurlE unit
| MultiInit (taken : list Z) : CurlE (option Z)
| EasyInit (taken : list Z) : CurlE (option Z)
| SetOpt (easy : Z) (o : curl_option) : CurlE bool
| AddHandle (multi easy : Z) : CurlE bool
| RemoveHandle (multi easy : Z) : CurlE unit
| EasyCleanup (easy : Z) : CurlE unit
| MultiCleanup (multi : Z) : CurlE unit
| Perform (multi : Z) : CurlE bool
| InfoRead (multi : Z) : CurlE (option (option Z))
| ActiveSocket (easy : Z) : CurlE (option Z)
| MultiPoll (multi wait : Z) : CurlE bool
| EasySend (easy : Z) (bytes : list Z) : CurlE (Z * Z)
| EasyRecv (easy size : Z) : CurlE (Z * list Z)
| PollSocket (socket events wait : Z) : CurlE poll_result
| Clock : CurlE (option (Z * Z)).

Class CurlHost (W : Type) := curl_do : ∀ A, CurlE A → W → A * W.
Arguments curl_do {_ _ _} _ _.

(** What the manuals say: a new handle is none of those in use, [curl_easy_send]
    takes and [curl_easy_recv] gives at most what it is offered, the messages of
    a transfer are few; and of the readings of the clock before any time there
    are finitely many. *)
Class CurlLaws (W : Type) `{!CurlHost W} := {
  readings : Z → W → nat;
  messages : Z → W → nat;
  message_bound : nat;
  do_readings A (c : CurlE A) w D : (readings D (snd (curl_do c w)) ≤ readings D w)%nat;
  clock_readings w t D : milliseconds (fst (curl_do Clock w)) = Some t → t < D → (readings D (snd (curl_do Clock w)) < readings D w)%nat;
  message_count m w : (messages m w ≤ message_bound)%nat;
  message_taken m w x : fst (curl_do (InfoRead m) w) = Some x → (messages m (snd (curl_do (InfoRead m) w)) < messages m w)%nat;
  fresh_multi l w m : fst (curl_do (MultiInit l) w) = Some m → m ∉ l;
  fresh_easy l w h : fst (curl_do (EasyInit l) w) = Some h → h ∉ l;
  easy_send_bound h b w n : fst (curl_do (EasySend h b) w) = (CURLE_OK, n) → 0 ≤ n ≤ Zlength' b;
  easy_recv_bound h k w b : 0 ≤ k → fst (curl_do (EasyRecv h k) w) = (CURLE_OK, b) → Zlength' b ≤ k;
}.

(** What went over a handle since it was made. *)
Inductive event := Opened (easy : Z) | Out (easy : Z) (bytes : list Z) | In_ (easy : Z) (bytes : list Z).

Record Lines (W : Type) := mkLines {
  host : W;
  clock_at : option Z;
  log : list event;
  handles : list Z;
  curl_initialized : bool;
}.
Arguments mkLines {_}. Arguments host {_}. Arguments clock_at {_}. Arguments log {_}. Arguments handles {_}. Arguments curl_initialized {_}.

Fixpoint flow (out : bool) (h : Z) (l : list event) : list Z :=
  match l with
  | [] => []
  | Opened x :: l => if decide (x = h) then [] else flow out h l
  | Out x b :: l => flow out h l ++ (if out && bool_decide (x = h) then b else [])
  | In_ x b :: l => flow out h l ++ (if negb out && bool_decide (x = h) then b else [])
  end.

(** ** Transports *)

Record VMHttpTransport := mkTransport {
  request : list Z;
  result : option Value;
  (** the bytes of [response] up to [received] *)
  response : list Z;
  sent : nat;
  limit : Z;
  total : Z;
  deadline : Z;
  done : bool;
  connecting : bool;
  streaming : bool;
  paused : bool;
  multi : option Z;
  easy : option Z;
  socket : option Z;
}.

Definition set_multi m (t : VMHttpTransport) := mkTransport (request t) (result t) (response t) (sent t) (limit t) (total t) (deadline t)
  (done t) (connecting t) (streaming t) (paused t) m (easy t) (socket t).
Definition set_easy h (t : VMHttpTransport) := mkTransport (request t) (result t) (response t) (sent t) (limit t) (total t) (deadline t)
  (done t) (connecting t) (streaming t) (paused t) (multi t) h (socket t).
Definition set_socket k (t : VMHttpTransport) := mkTransport (request t) (result t) (response t) (sent t) (limit t) (total t) (deadline t)
  (done t) (connecting t) (streaming t) (paused t) (multi t) (easy t) k.
Definition set_connecting b (t : VMHttpTransport) := mkTransport (request t) (result t) (response t) (sent t) (limit t) (total t) (deadline t)
  (done t) b (streaming t) (paused t) (multi t) (easy t) (socket t).
Definition set_done r (t : VMHttpTransport) := mkTransport (request t) r (response t) (sent t) (limit t) (total t) (deadline t)
  true (connecting t) (streaming t) (paused t) (multi t) (easy t) (socket t).
Definition set_sent n (t : VMHttpTransport) := mkTransport (request t) (result t) (response t) n (limit t) (total t) (deadline t)
  (done t) (connecting t) (streaming t) (paused t) (multi t) (easy t) (socket t).
Definition set_received l n (t : VMHttpTransport) := mkTransport (request t) (result t) l (sent t) (limit t) n (deadline t)
  (done t) (connecting t) (streaming t) (paused t) (multi t) (easy t) (socket t).
Definition set_paused r b (t : VMHttpTransport) := mkTransport (request t) r (response t) (sent t) (limit t) (total t) (deadline t)
  (done t) (connecting t) (streaming t) b (multi t) (easy t) (socket t).
Definition clear_chunk (t : VMHttpTransport) := mkTransport (request t) None [] (sent t) (limit t) (total t) (deadline t)
  (done t) (connecting t) (streaming t) false (multi t) (easy t) (socket t).

(** The slots that were used, in order; [NULL] once closed. *)
Notation VMHttpStreams := (list (option VMHttpTransport)).

Section transport.
Context {W : Type} `{!CurlHost W}.
Notation io := (IO (Lines W)).

(** A call that uses no handle, and one that uses handles. *)
Definition invoke {A} (c : CurlE A) : io A :=
  ask (λ w, let '(a, n) := curl_do c (host w) in (a, mkLines n (clock_at w) (log w) (handles w) (curl_initialized w))).
Definition live {A} (l : list Z) (m : io A) : io A := λ s al,
  if decide (Forall (λ h, h ∈ handles (world s)) l) then m s al else (Undef, s, al).

Definition transport_ms : io (option Z) :=
  ask (λ w, let '(r, n) := curl_do Clock (host w) in
            (milliseconds r, mkLines n (milliseconds r) (log w) (handles w) (curl_initialized w))).
Definition multi_init : io (option Z) :=
  ask (λ w, let '(r, n) := curl_do (MultiInit (handles w)) (host w) in
            (r, mkLines n (clock_at w) (log w) (option_list r ++ handles w) (curl_initialized w))).
Definition easy_init : io (option Z) :=
  ask (λ w, let '(r, n) := curl_do (EasyInit (handles w)) (host w) in
            (r, mkLines n (clock_at w) (match r with Some h => Opened h :: log w | None => log w end)
                  (option_list r ++ handles w) (curl_initialized w))).
Definition forget (h : Z) (c : CurlE unit) : io unit :=
  live [h] (ask (λ w, let '(_, n) := curl_do c (host w) in
    (tt, mkLines n (clock_at w) (log w) (list_difference (handles w) [h]) (curl_initialized w)))).
Definition easy_send (h : Z) (bytes : list Z) : io (Z * Z) :=
  live [h] (ask (λ w, let '(r, n) := curl_do (EasySend h bytes) (host w) in
    (r, mkLines n (clock_at w) (if fst r =? CURLE_OK then Out h (take (Z.to_nat (snd r)) bytes) :: log w else log w)
          (handles w) (curl_initialized w)))).
Definition easy_recv (h size : Z) : io (Z * list Z) :=
  live [h] (ask (λ w, let '(r, n) := curl_do (EasyRecv h size) (host w) in
    (r, mkLines n (clock_at w) (if fst r =? CURLE_OK then In_ h (snd r) :: log w else log w) (handles w) (curl_initialized w)))).

(** [initialize_curl], within its lock. *)
Definition initialize_curl : io bool :=
  initialized ← ask (λ w, (curl_initialized w, w));
  if (initialized : bool) then mret true
  else
    ok ← invoke GlobalInit;
    if negb ok then mret false
    else
      dns ← invoke AsyncDns;
      if (dns : bool) then
        ask (λ w, (true, mkLines (host w) (clock_at w) (log w) (handles w) true))
      else _ ← invoke GlobalCleanup; mret false.

Definition cleanup_curl (t : VMHttpTransport) : io VMHttpTransport :=
  _ ← match easy t, multi t with Some h, Some m => live [m; h] (invoke (RemoveHandle m h)) | _, _ => mret tt end;
  t ← match easy t with Some h => _ ← forget h (EasyCleanup h); mret (set_easy None t) | None => mret t end;
  t ← match multi t with Some m => _ ← forget m (MultiCleanup m); mret (set_multi None t) | None => mret t end;
  mret (set_socket None t).

Definition finish_transport (error : option string) (t : VMHttpTransport) : io VMHttpTransport :=
  t ← cleanup_curl t;
  payload ← or_none (match error with Some m => value_data V_STR (str m) | None => value_data V_BYTES (response t) end);
  match payload with
  | None => mret (set_done (result t) t)
  | Some p =>
      r ← or_none (named_value V_VARIANT (str (match error with Some _ => "Error" | None => "Ok" end)) [] [p]);
      mret (set_done r t)
  end.
Definition fail_transport (m : string) (t : VMHttpTransport) : io VMHttpTransport := finish_transport (Some m) t.

(** The port, whether TLS is used, the limit and the timeout. *)
Definition transport_arguments (streaming : bool) (a0 a1 a2 a3 a4 a5 : Value) : option (Z * bool * Z * Z) :=
  if negb (valid_host a0) then None
  else
    match a1, a2, a3, a4, a5 with
    | Nat_ _, Bool_ secure, Bytes body, Nat_ _, Nat_ _ =>
        match value_index a1, value_index a4, value_index a5 with
        | Some port, Some limit, Some timeout =>
            if (port =? 0) || (port >? 65535) || (Zlength' body >? (if streaming then 65536 else HTTP_TRANSPORT_BYTE_LIMIT)) ||
               (limit >? (if streaming then 268435456 else HTTP_TRANSPORT_BYTE_LIMIT)) || (timeout =? 0) ||
               (timeout >? HTTP_TRANSPORT_TIMEOUT_LIMIT)
            then None else Some (port, secure, limit, timeout)
        | _, _, _ => None
        end
    | _, _, _, _, _ => None
    end.

Definition transport_options (url : list Z) (timeout : Z) (ca_bundle : option (list Z)) : list curl_option :=
  [OptUrl url; OptConnectOnly; OptHttpVersion11; OptNoSignal; OptTimeoutMs timeout; OptConnectTimeoutMs timeout;
   OptNoProxy; OptNoProxyHosts; OptVerifyPeer; OptVerifyHost; OptHttpOnly] ++
  match ca_bundle with Some ((_ :: _) as p) => [OptCaInfo p] | _ => [] end.
(** [SETOPT] in turn, until one fails. *)
Fixpoint set_options (h : Z) (l : list curl_option) : io bool :=
  match l with
  | [] => mret true
  | o :: l => ok ← live [h] (invoke (SetOpt h o)); if (ok : bool) then set_options h l else mret false
  end.

Definition transport_connect (ca_bundle : option (list Z)) (secure : bool) (hostname : list Z) (port timeout : Z)
    (t : VMHttpTransport) : io VMHttpTransport :=
  m ← multi_init;
  h ← easy_init;
  let t := set_easy h (set_multi m t) in
  match m, h with
  | Some m, Some h =>
      let url := url_of secure hostname port in
      if URL_SIZE <=? Zlength' url then fail_transport "invalid HTTP transport arguments" t
      else
        ok ← set_options h (transport_options url timeout ca_bundle);
        ok ← (if (ok : bool) then live [m; h] (invoke (AddHandle m h)) else mret false);
        if (ok : bool) then mret (set_connecting true t) else fail_transport "HTTP transport initialization failed" t
  | _, _ => fail_transport "HTTP transport initialization failed" t
  end.

Definition transport_start (ca_bundle : option (list Z)) (streaming : bool) (a : list Value) : io VMHttpTransport :=
  _ ← lift alloc;
  a0 ← lift (rd a 0); a1 ← lift (rd a 1); a2 ← lift (rd a 2); a3 ← lift (rd a 3); a4 ← lift (rd a 4); a5 ← lift (rd a 5);
  let new q limit deadline := mkTransport q None [] 0 limit 0 deadline false false streaming false None None None in
  match transport_arguments streaming a0 a1 a2 a3 a4 a5 with
  | None => fail_transport "invalid HTTP transport arguments" (new [] 0 0)
  | Some (port, secure, limit, timeout) =>
      ready ← initialize_curl;
      if negb ready then fail_transport "HTTP asynchronous DNS is unavailable" (new [] limit 0)
      else
        now ← transport_ms;
        match now with
        | None => fail_transport "HTTP transport clock failed" (new [] limit 0)
        | Some now =>
            if UINT64_MAX - now <? timeout then fail_transport "HTTP transport clock failed" (new [] limit 0)
            else
              buffer ← or_none alloc;
              match buffer with
              | None => mret (set_done None (new [] limit (now + timeout)))
              | Some _ => transport_connect ca_bundle secure (bytes_of a0) port timeout (new (bytes_of a3) limit (now + timeout))
              end
        end
  end.
Definition http_transport_start (ca_bundle : option (list Z)) (a : list Value) : io VMHttpTransport := transport_start ca_bundle false a.

(** The deadline, by the clock: the reading when there is time left. *)
Definition transport_clock (t : VMHttpTransport) : io (VMHttpTransport * Z) :=
  now ← transport_ms;
  match now with
  | None => t ← fail_transport "HTTP transport clock failed" t; mret (t, 0)
  | Some now => if deadline t <=? now then t ← fail_transport "HTTP transport timed out" t; mret (t, now) else mret (t, now)
  end.
Definition wait_time (t : VMHttpTransport) (now max_wait_ms : Z) : Z := Z.min (deadline t - now) (Z.min max_wait_ms INT_MAX).

Inductive VMHttpWaitOutcome := VM_HTTP_WAIT_PENDING | VM_HTTP_WAIT_READY | VM_HTTP_WAIT_TIMEOUT | VM_HTTP_WAIT_INVALID.
Definition http_transport_classify_wait (now deadline ready revents : Z) : VMHttpWaitOutcome :=
  if deadline <=? now then VM_HTTP_WAIT_TIMEOUT
  else if (ready >? 0) && has revents POLLNVAL then VM_HTTP_WAIT_INVALID
  else if ready >? 0 then VM_HTTP_WAIT_READY
  else VM_HTTP_WAIT_PENDING.

(** [wait_socket]: whether the socket is ready. *)
Definition wait_socket (events max_wait_ms : Z) (t : VMHttpTransport) : io (VMHttpTransport * bool) :=
  '(t, now) ← transport_clock t;
  if done t then mret (t, false)
  else
    r ← invoke (PollSocket (default (-1) (socket t)) events (wait_time t now max_wait_ms));
    match r with
    | PollFailed => t ← fail_transport "HTTP transport polling failed" t; mret (t, false)
    | _ =>
        let '(ready, revents) := match r with Ready n l => (n, default 0 (head l)) | _ => (-1, 0) end in
        now ← transport_ms;
        match now with
        | None => t ← fail_transport "HTTP transport clock failed" t; mret (t, false)
        | Some now =>
            match http_transport_classify_wait now (deadline t) ready revents with
            | VM_HTTP_WAIT_TIMEOUT => t ← fail_transport "HTTP transport timed out" t; mret (t, false)
            | VM_HTTP_WAIT_INVALID => t ← fail_transport "HTTP connection failed" t; mret (t, false)
            | VM_HTTP_WAIT_READY => mret (t, true)
            | VM_HTTP_WAIT_PENDING => mret (t, false)
            end
        end
    end.

(** The loop over the messages: [None] when there are no more of them. *)
Fixpoint message_loop (fuel : nat) (m h : Z) (t : VMHttpTransport) : io (option VMHttpTransport) :=
  match fuel with
  | O => endless
  | S fuel =>
      message ← live [m] (invoke (InfoRead m));
      match message with
      | None => mret None
      | Some None => message_loop fuel m h t
      | Some (Some code) =>
          if negb (code =? CURLE_OK) then t ← fail_transport (connect_error code) t; mret (Some t)
          else
            k ← live [h] (invoke (ActiveSocket h));
            match k with
            | None => t ← fail_transport "HTTP connection failed" t; mret (Some t)
            | Some k => mret (Some (set_connecting false (set_socket (Some k) t)))
            end
      end
  end.

Definition poll_connect (fuel : nat) (max_wait_ms : Z) (t : VMHttpTransport) : io (VMHttpTransport * bool) :=
  match multi t, easy t with
  | Some m, Some h =>
      ok ← live [m] (invoke (Perform m));
      if negb ok then t ← fail_transport "HTTP connection failed" t; mret (t, done t)
      else
        '(t, _) ← transport_clock t;
        if done t then mret (t, true)
        else
          found ← message_loop fuel m h t;
          match found with
          | Some t => mret (t, done t)
          | None =>
              '(t, now) ← transport_clock t;
              if done t then mret (t, true)
              else
                ok ← live [m] (invoke (MultiPoll m (wait_time t now max_wait_ms)));
                t ← (if negb ok then fail_transport "HTTP transport polling failed" t else mret t);
                mret (t, done t)
          end
  | _, _ => λ s al, (Undef, s, al)
  end.

(** More of the request is sent. *)
Definition transport_send (h : Z) (t : VMHttpTransport) : io (VMHttpTransport * bool) :=
  let left_ := Nat.min (length (request t) - sent t) (Z.to_nat HTTP_TRANSPORT_CHUNK) in
  '(code, n) ← easy_send h (take left_ (drop (sent t) (request t)));
  if code =? CURLE_OK then mret (set_sent (sent t + Z.to_nat n) t, false)
  else
    t ← (if negb (code =? CURLE_AGAIN) then fail_transport "HTTP transport write failed" t else mret t);
    mret (t, done t).

(** [memcpy(transport->response + transport->received, buffer, received)] *)
Definition transport_store (bytes : list Z) (t : VMHttpTransport) : io VMHttpTransport := λ s al,
  if Zlength' (response t) + Zlength' bytes <=? (if streaming t then HTTP_TRANSPORT_CHUNK else Z.max 1 (limit t))
  then (Ret (set_received (response t ++ bytes) (total t + Zlength' bytes) t), s, al)
  else (Undef, s, al).

(** More of the response is received. *)
Definition transport_receive (h : Z) (t : VMHttpTransport) : io (VMHttpTransport * bool) :=
  '(code, bytes) ← easy_recv h HTTP_TRANSPORT_CHUNK;
  t ← (if code =? CURLE_OK then
         if Zlength' bytes =? 0 then finish_transport None t
         else if Zlength' bytes >? u64 (limit t - total t) then fail_transport "HTTP response limit exceeded" t
         else
           t ← transport_store bytes t;
           if streaming t then
             r ← or_none (chunk ← value_data V_BYTES (response t); named_value V_VARIANT (str "Ok") [] [chunk]);
             mret (set_paused r true t)
           else mret t
       else if negb (code =? CURLE_AGAIN) then fail_transport "HTTP transport read failed" t
       else mret t);
  mret (t, done t || paused t).

Definition http_transport_poll (fuel : nat) (max_wait_ms : Z) (t : VMHttpTransport) : io (VMHttpTransport * bool) :=
  if done t || paused t then mret (t, true)
  else
    '(t, _) ← transport_clock t;
    if done t then mret (t, true)
    else if connecting t then poll_connect fuel max_wait_ms t
    else
      let sending := Nat.ltb (sent t) (length (request t)) in
      '(t, ready) ← wait_socket (if sending then POLLOUT else POLLIN) max_wait_ms t;
      if negb ready then mret (t, done t)
      else
        match easy t with
        | Some h => if sending then transport_send h t else transport_receive h t
        | None => λ s al, (Undef, s, al)
        end.

Definition http_transport_result (t : VMHttpTransport) : option Value := result t.
Definition http_transport_destroy (t : VMHttpTransport) : io unit := _ ← cleanup_curl t; mret tt.

(** ** Streams *)

(** A pointer that is NULL when memory was refused. *)
Definition attempt {A} (m : io A) : io (option A) := λ s al,
  match m s al with
  | (Ret a, s, al) => (Ret (Some a), s, al)
  | (NoMem, s, al) => (Ret None, s, al)
  | (Trap k msg, s, al) => (Trap k msg, s, al)
  | (Undef, s, al) => (Undef, s, al)
  | (Diverge, s, al) => (Diverge, s, al)
  end.

Definition stream_error (message : string) : M Value :=
  text ← value_data V_STR (str message); named_value V_VARIANT (str "Error") [] [text].

Fixpoint stream_loop (turns fuel : nat) (t : VMHttpTransport) : io VMHttpTransport :=
  '(t, ended) ← http_transport_poll fuel 20 t;
  if (ended : bool) then mret t
  else match turns with O => endless | S turns => stream_loop turns fuel t end.

Definition stream_open (ca_bundle : option (list Z)) (a : list Value) (v : option VMHttpStreams) :
    io (option VMHttpStreams * option Value) :=
  v ← match v with Some v => mret (Some v) | None => r ← or_none alloc; mret (match r with Some _ => Some [] | None => None end) end;
  match v with
  | None => r ← or_none (stream_error "HTTP stream resource limit exceeded"); mret (None, r)
  | Some v =>
      if Nat.eqb (length v) HTTP_STREAM_HANDLES
      then r ← or_none (stream_error "HTTP stream resource limit exceeded"); mret (Some v, r)
      else
        t ← attempt (transport_start ca_bundle true a);
        match t with
        | None => mret (Some v, None)
        | Some t =>
            if done t then _ ← http_transport_destroy t; mret (Some v, result t)
            else
              r ← or_none (handle ← value_size (Z.of_nat (length v) + 1); named_value V_VARIANT (str "Ok") [] [handle]);
              mret (Some (v ++ [Some t]), r)
        end
  end.

(** [http_stream_call]: the table, and the result, which is missing when memory
    was refused. *)
Definition http_stream_call (ca_bundle : option (list Z)) (turns fuel : nat) (name : list Z) (a : list Value)
    (v : option VMHttpStreams) : io (option VMHttpStreams * option Value) :=
  if is_name name "http_stream_open" then stream_open ca_bundle a v
  else
    a0 ← lift (rd a 0);
    let invalid := r ← or_none (stream_error "invalid HTTP stream handle"); mret (v, r) in
    match value_index a0, v with
    | Some (Zpos p), Some slots =>
        let i := (Pos.to_nat p - 1)%nat in
        match slots !! i with
        | Some (Some t) =>
            if is_name name "http_stream_close" then
              _ ← http_transport_destroy t;
              r ← or_none (u ← value_unit; named_value V_VARIANT (str "Ok") [] [u]);
              mret (Some (<[i:=None]> slots), r)
            else if negb (is_name name "http_stream_read")
            then r ← or_none (stream_error "invalid HTTP stream operation"); mret (v, r)
            else
              t ← stream_loop turns fuel (if paused t then clear_chunk t else t);
              mret (Some (<[i:=Some t]> slots), result t)
        | _ => invalid
        end
    | _, _ => invalid
    end.

Fixpoint destroy_slots (l : list (option VMHttpTransport)) : io unit :=
  match l with
  | [] => mret tt
  | Some t :: l => _ ← http_transport_destroy t; destroy_slots l
  | None :: l => destroy_slots l
  end.
Definition http_stream_destroy (v : option VMHttpStreams) : io (option VMHttpStreams) :=
  match v with None => mret None | Some slots => _ ← destroy_slots slots; mret None end.
End transport.

(** ** What a transport keeps *)

Lemma flow_other o h x b l : x ≠ h → flow o h (Out x b :: l) = flow o h l ∧ flow o h (In_ x b :: l) = flow o h l ∧ flow o h (Opened x :: l) = flow o h l.
Proof.
  intros Hx. simpl. rewrite !bool_decide_false by done. rewrite !andb_false_r, !app_nil_r, decide_False by done. done.
Qed.
Lemma flow_out h b l : flow true h (Out h b :: l) = flow true h l ++ b ∧ flow false h (Out h b :: l) = flow false h l.
Proof. simpl. rewrite bool_decide_true by done. simpl. by rewrite app_nil_r. Qed.
Lemma flow_in h b l : flow false h (In_ h b :: l) = flow false h l ++ b ∧ flow true h (In_ h b :: l) = flow true h l.
Proof. simpl. rewrite bool_decide_true by done. simpl. by rewrite app_nil_r. Qed.

Definition own (t : VMHttpTransport) : list Z := option_list (multi t) ++ option_list (easy t).
Definition ok_value (b : list Z) : Value := Variant (str "Ok") [Bytes b].

Section sound.
Context {W : Type} `{!CurlHost W, !CurlLaws W}.
Implicit Types (s : Sys (Lines W)) (w : Lines W) (t : VMHttpTransport).

(** The calls keep handles and log. *)
Definition calm s s' : Prop := handles (world s') = handles (world s) ∧ log (world s') = log (world s) ∧
  ∀ D, (readings D (host (world s')) ≤ readings D (host (world s)))%nat.
Definition calm_time s s' : Prop := calm s s' ∧ clock_at (world s') = clock_at (world s).

Lemma wp_invoke {A} (c : CurlE A) s (Q : A → Sys (Lines W) → Prop) X :
  (∀ a s', calm_time s s' → a = fst (curl_do c (host (world s))) → host (world s') = snd (curl_do c (host (world s))) → Q a s') → wp (invoke c) s Q X.
Proof.
  intros H. apply wp_ask. pose proof (do_readings A c (host (world s))) as Hr. destruct (curl_do c (host (world s))) as [a n]. by apply H.
Qed.
Lemma wp_live {A} l (m : IO (Lines W) A) s Q X : Forall (λ h, h ∈ handles (world s)) l → wp m s Q X → wp (live l m) s Q X.
Proof. intros Hl Hm al. unfold live. rewrite decide_True by done. apply Hm. Qed.
Lemma wp_transport_ms s (Q : option Z → Sys (Lines W) → Prop) X :
  (∀ r s', calm s s' → clock_at (world s') = r →
    (∀ now D, r = Some now → now < D → (readings D (host (world s')) < readings D (host (world s)))%nat) → Q r s') → wp transport_ms s Q X.
Proof.
  intros H. apply wp_ask. pose proof (do_readings _ Clock (host (world s))) as Hr. pose proof (clock_readings (host (world s))) as Hc.
  destruct (curl_do Clock (host (world s))) as [a n]. apply H; [done|done|]. intros now D. apply Hc.
Qed.

(** other handles, what went over them, and the readings there may be *)
Context (h : list Z) (fl : bool → Z → list Z) (n : Z → nat).

Record tsteady t s : Prop := {
  t_own : handles (world s) ≡ₚ own t ++ h;
  t_nodup : NoDup (handles (world s));
  t_frame o x : x ∈ h → flow o x (log (world s)) = fl o x;
  t_read D : (readings D (host (world s)) ≤ n D)%nat;
}.
Lemma tsteady_calm t s s' : tsteady t s → calm s s' → tsteady t s'.
Proof.
  intros [H1 H2 H3 H4] (E1 & E2 & E3). split; rewrite ?E1, ?E2; try done. intros D. specialize (E3 D). specialize (H4 D). lia.
Qed.
Lemma tsteady_own t t' s : tsteady t s → own t' = own t → tsteady t' s.
Proof. intros [H1 H2 H3 H4] E. split; try done. by rewrite E. Qed.

Lemma own_easy t hd s : tsteady t s → easy t = Some hd → hd ∈ handles (world s).
Proof. intros [H1 _ _ _] E. rewrite H1. unfold own. rewrite E. apply elem_of_app. left. apply elem_of_app. right. apply list_elem_of_here. Qed.
Lemma own_multi t m s : tsteady t s → multi t = Some m → m ∈ handles (world s).
Proof. intros [H1 _ _ _] E. rewrite H1. unfold own. rewrite E. apply elem_of_app. left. apply list_elem_of_here. Qed.
Lemma easy_not_other t hd s : tsteady t s → easy t = Some hd → hd ∉ h.
Proof.
  intros [H1 H2 _ _] E Hin. rewrite H1 in H2. apply NoDup_app in H2 as (_ & H2 & _). apply (H2 hd); [|done]. unfold own. rewrite E.
  apply elem_of_app. right. apply list_elem_of_here.
Qed.

(** *** Ending *)

Lemma difference_permutation (l k : list Z) x : NoDup l → l ≡ₚ x :: k → list_difference l [x] ≡ₚ k.
Proof.
  intros Hn Hp. apply NoDup_Permutation.
  - apply NoDup_list_difference, Hn.
  - rewrite Hp in Hn. by apply NoDup_cons in Hn as [_ ?].
  - intros y. rewrite list_elem_of_difference, list_elem_of_singleton, Hp, elem_of_cons. rewrite Hp in Hn. apply NoDup_cons in Hn as [Hx _].
    split; [intros [[->|] ?]; done|]. intros Hy. split; [by right|]. by intros ->.
Qed.

Lemma wp_forget x (c : CurlE unit) k s (Q : unit → Sys (Lines W) → Prop) X : NoDup (handles (world s)) → handles (world s) ≡ₚ x :: k →
  (∀ s', handles (world s') ≡ₚ k → NoDup (handles (world s')) → log (world s') = log (world s) → clock_at (world s') = clock_at (world s) →
    (∀ D, (readings D (host (world s')) ≤ readings D (host (world s)))%nat) → Q tt s') → wp (forget x c) s Q X.
Proof.
  intros Hn Hp H. apply wp_live; [constructor; [rewrite Hp; apply list_elem_of_here|constructor]|]. apply wp_ask.
  pose proof (do_readings _ c (host (world s))) as Hr. destruct (curl_do c (host (world s))) as [[] w]. apply H; simpl; try done.
  - by apply difference_permutation.
  - by apply NoDup_list_difference.
Qed.

(** What is left of a transport without its handles. *)
Definition stripped t : VMHttpTransport := set_socket None (set_multi None (set_easy None t)).
(** A state without the handles. *)
Definition released s s' : Prop := handles (world s') ≡ₚ h ∧ NoDup (handles (world s')) ∧ log (world s') = log (world s) ∧
  clock_at (world s') = clock_at (world s) ∧ ∀ D, (readings D (host (world s')) ≤ readings D (host (world s)))%nat.

Lemma wp_cleanup t s (Q : VMHttpTransport → Sys (Lines W) → Prop) X : tsteady t s →
  (∀ s', released s s' → Q (stripped t) s') → wp (cleanup_curl t) s Q X.
Proof.
  intros Hs H. unfold cleanup_curl. apply wp_bind.
  eapply (wp_mono _ _ (λ _ s', calm_time s s') _ X); [| |done].
  { destruct (easy t) as [hd|] eqn:He, (multi t) as [m|] eqn:Hm; try (apply wp_ret; split; [split_and!|]; done).
    apply wp_live; [constructor; [by eapply own_multi|constructor; [by eapply own_easy|constructor]]|]. apply wp_invoke. intros ? s' Hc _ _. done. }
  intros _ s1 Hc1. pose proof (tsteady_calm _ _ _ Hs (proj1 Hc1)) as [P1 N1 _ _]. destruct Hc1 as [(_ & L1 & R1) C1]. unfold own in P1.
  apply wp_bind. eapply (wp_mono _ _ (λ t' s', t' = set_easy None t ∧ handles (world s') ≡ₚ option_list (multi t) ++ h ∧ NoDup (handles (world s')) ∧
    log (world s') = log (world s) ∧ clock_at (world s') = clock_at (world s) ∧ ∀ D, (readings D (host (world s')) ≤ readings D (host (world s)))%nat) _ X); [| |done].
  { destruct (easy t) as [hd|] eqn:He; [|apply wp_ret; split; [by destruct t; simpl in *; subst|]; simpl in P1; rewrite app_nil_r in P1; done].
    apply wp_bind. eapply (wp_forget _ _ (option_list (multi t) ++ h)); [done|rewrite P1; simpl; destruct (multi t); simpl; [apply Permutation_swap|done]|].
    intros s2 P2 N2 L2 C2 R2. apply wp_ret. split_and!; try done; [congruence|congruence|]. intros D. specialize (R1 D). specialize (R2 D). lia. }
  intros t2 s2 (-> & P2 & N2 & L2 & C2 & R2). apply wp_bind. change (multi (set_easy None t)) with (multi t).
  destruct (multi t) as [m|] eqn:Hm.
  - apply wp_bind. eapply (wp_forget _ _ h); [done|exact P2|]. intros s3 P3 N3 L3 C3 R3. apply wp_ret, wp_ret, H. split_and!; try done; [congruence|congruence|].
    intros D. specialize (R3 D). specialize (R2 D). lia.
  - apply wp_ret, wp_ret. replace (set_socket None (set_easy None t)) with (stripped t) by (unfold stripped; destruct t; simpl in *; by subst). by apply H.
Qed.

Lemma steady_released t s s' : tsteady t s → released s s' → ∀ t', own t' = [] → tsteady t' s'.
Proof.
  intros [H1 H2 H3 H4] (E1 & E2 & E3 & E4 & E5) t' Ho. split; rewrite ?Ho, ?E3; try done. intros D. specialize (H4 D). specialize (E5 D). lia.
Qed.

(** The ways a transport can be done. *)
Definition ends_with (error : option string) t (r : option Value) : Prop :=
  r = None ∨ r = result t ∨ ∃ v, r = Some v ∧ match error with Some _ => error_value v | None => v = ok_value (response t) end.

Lemma wp_finish_transport error t s (Q : VMHttpTransport → Sys (Lines W) → Prop) X : tsteady t s →
  (∀ r s', released s s' → ends_with error t r → Q (set_done r (stripped t)) s') → wp (finish_transport error t) s Q X.
Proof.
  intros Hs H. unfold finish_transport. apply wp_bind, wp_cleanup; [done|]. intros s1 Hr. apply wp_bind.
  eapply (wp_or_none _ (λ v, v = match error with Some m => Str (text_of (str m)) | None => Bytes (response t) end)).
  - destruct error; by apply value_data_spec.
  - intros p ->. apply wp_bind.
    eapply (wp_or_none _ (λ v, v = Variant (str (match error with Some _ => "Error" | None => "Ok" end)) [match error with Some m => Str (text_of (str m)) | None => Bytes (response t) end])).
    + apply variant_spec. by destruct error.
    + intros v ->. apply wp_ret, H; [done|]. right; right. eexists; split; [done|]. destruct error as [m|]; [by exists m|done].
    + apply wp_ret, H; [done|by left].
  - apply wp_ret. apply (H (result t)); [done|]. right; by left.
Qed.

(** *** Going on *)

(** What was sent and received over the handle of a transport. *)
Record tgoing t w : Prop := {
  g_over : ∃ hd m, easy t = Some hd ∧ multi t = Some m ∧ flow true hd (log w) = take (sent t) (request t) ∧
    Zlength' (flow false hd (log w)) = total t ∧ (streaming t = false → response t = flow false hd (log w));
  g_sent : (sent t ≤ length (request t))%nat;
  g_limit : total t ≤ limit t < 2 ^ 64;
  g_idle : paused t = false → result t = None ∧ (streaming t = true → response t = []);
  g_paused : paused t = true →
    streaming t = true ∧ sent t = length (request t) ∧ response t ≠ [] ∧ (result t = None ∨ result t = Some (ok_value (response t)));
}.
(** A transport that is done. *)
Definition settled t : Prop :=
  result t = None ∨ (∃ v, result t = Some v ∧ error_value v) ∨ result t = Some (ok_value (response t)) ∧ (streaming t = true → response t = []).
Definition tok t s : Prop :=
  tsteady t s ∧ paused t && done t = false ∧ if done t then own t = [] ∧ settled t else tgoing t (world s).

(** What a call does to a transport that is going: it keeps what was asked; when
    it is done with [Ok], the request was sent in time and the response is
    complete; when it goes on, a chunk that was handed out is all that came. *)
Definition step_ok t s t' s' : Prop :=
  tok t' s' ∧ (request t' = request t ∧ limit t' = limit t ∧ deadline t' = deadline t ∧ streaming t' = streaming t) ∧
  ∀ hd, easy t = Some hd →
    if done t' then
      ∀ b, result t' = Some (ok_value b) → b = response t ∧ flow true hd (log (world s')) = request t ∧
        flow false hd (log (world s')) = flow false hd (log (world s)) ∧ ∃ now, clock_at (world s') = Some now ∧ now < deadline t
    else easy t' = Some hd ∧ (∃ now, clock_at (world s') = Some now ∧ now < deadline t) ∧
      (streaming t = true → flow false hd (log (world s')) = flow false hd (log (world s)) ++ (if paused t' then response t' else [])).

(** A transport at rest, before a poll. *)
Definition idle t s : Prop := tok t s ∧ done t = false ∧ paused t = false.

Lemma own_stripped r t : own (set_done r (stripped t)) = [].
Proof. done. Qed.

Lemma wp_fail_transport m t s0 s (Q : VMHttpTransport → Sys (Lines W) → Prop) X : tsteady t s → idle t s0 →
  (∀ t' s', step_ok t s0 t' s' → done t' = true → paused t' = false →
    (∀ D, (readings D (host (world s')) ≤ readings D (host (world s)))%nat) → Q t' s') →
  wp (fail_transport m t) s Q X.
Proof.
  intros Hs ((_ & _ & Hg) & Hd & Hp) H. rewrite Hd in Hg. destruct (g_idle _ _ Hg Hp) as [Hr _]. apply wp_finish_transport; [done|]. intros r s' Hrel He.
  apply H; [|done|done|apply Hrel]. split; [|split; [done|]].
  - split; [by eapply steady_released|]. split; [simpl; by rewrite Hp|]. split; [done|].
    destruct He as [-> | [-> |(v & -> & Hv)]]; [by left|by left|right; left; by exists v].
  - intros hd _ b Hb. simpl in Hb. destruct He as [-> | [-> |(v & -> & m' & ->)]]; [done|congruence|done].
Qed.

Lemma idle_calm t s s' : idle t s → calm s s' → idle t s'.
Proof.
  intros ((Hs & Hpd & Hg) & Hd & Hp) Hc. split; [|done]. split; [by eapply tsteady_calm|]. split; [done|]. rewrite Hd in *.
  destruct Hg, Hc as (_ & El & _). split; try done. by rewrite El.
Qed.
Lemma idle_steady t s : idle t s → tsteady t s.
Proof. by intros [[? _] _]. Qed.
Lemma steady_later t s s' : idle t s → calm s s' → tsteady t s'.
Proof. intros Hi. apply tsteady_calm. by apply idle_steady. Qed.
Lemma idle_going t s : idle t s → tgoing t (world s).
Proof. intros ((_ & _ & Hg) & Hd & _). by rewrite Hd in Hg. Qed.

(** The clock had not reached the deadline. *)
Definition timely t s : Prop := ∃ now, clock_at (world s) = Some now ∧ now < deadline t.

Lemma step_idle t s s' : idle t s → calm s s' → timely t s' → step_ok t s t s'.
Proof.
  intros Hi Hc Ht. pose proof (idle_calm _ _ _ Hi Hc) as (Ht' & Hd & Hp). split; [done|]. split; [done|]. intros hd He. rewrite Hd.
  split; [done|]. split; [done|]. intros _. destruct Hc as (_ & -> & _). by rewrite Hp, app_nil_r.
Qed.

Lemma wp_transport_clock t s (Q : VMHttpTransport * Z → Sys (Lines W) → Prop) X : idle t s →
  (∀ t' s' x, step_ok t s t' s' → done t' = true → paused t' = false → Q (t', x) s') →
  (∀ now s', idle t s' → calm s s' → clock_at (world s') = Some now → now < deadline t →
     (readings (deadline t) (host (world s')) < readings (deadline t) (host (world s)))%nat → Q (t, now) s') →
  wp (transport_clock t) s Q X.
Proof.
  intros Hi Hdone Hgo. unfold transport_clock. apply wp_bind, wp_transport_ms. intros r s1 Hc Hr Hread.
  assert (tsteady t s1) as Hs1 by (by eapply steady_later).
  assert (∀ m x, wp (t' ← fail_transport m t; mret (t', x)) s1 Q X) as Hf.
  { intros m x. apply wp_bind. eapply wp_fail_transport; [done|done|]. intros t' s' H1 H2 H3 _. apply wp_ret. by apply Hdone. }
  destruct r as [now|]; [|apply Hf]. destruct (Z.leb_spec (deadline t) now) as [Hl|Hl]; [apply Hf|]. apply wp_ret, Hgo; try done.
  - by eapply idle_calm.
  - by eapply Hread.
Qed.

Lemma step_from t s s1 t' s' : calm s s1 → step_ok t s1 t' s' → step_ok t s t' s'.
Proof. intros (_ & El & _) (H1 & H2 & H3). split; [done|]. split; [done|]. by rewrite El in H3. Qed.
Lemma calm_trans s1 s2 s3 : calm s1 s2 → calm s2 s3 → calm s1 s3.
Proof. intros (A1 & A2 & A3) (B1 & B2 & B3). split_and!; [congruence..|]. intros D. specialize (A3 D). specialize (B3 D). lia. Qed.

(** A poll: the step, whether the transport is done or paused, and otherwise a
    reading of the clock that was early enough. *)
Definition poll_post t s (x : VMHttpTransport * bool) s' : Prop :=
  step_ok t s (fst x) s' ∧ snd x = done (fst x) || paused (fst x) ∧
  (snd x = false → (readings (deadline t) (host (world s')) < readings (deadline t) (host (world s)))%nat).

Lemma post_done t s t' s' : step_ok t s t' s' → done t' = true → poll_post t s (t', true) s'.
Proof. intros H Hd. split; [done|]. split; [|done]. simpl. by rewrite Hd. Qed.
Lemma post_idle t s s' : idle t s → calm s s' → timely t s' →
  (readings (deadline t) (host (world s')) < readings (deadline t) (host (world s)))%nat → poll_post t s (t, false) s'.
Proof. intros Hi Hc Ht Hr. split; [by apply step_idle|]. destruct Hi as (_ & Hd & Hp). split; [|done]. simpl. by rewrite Hd, Hp. Qed.
Lemma post_from t s s1 x s' : calm s s1 → poll_post t s1 x s' → poll_post t s x s'.
Proof.
  intros Hc (H1 & H2 & H3). split; [by eapply step_from|]. split; [done|]. intros Hb. specialize (H3 Hb). destruct Hc as (_ & _ & Hr).
  specialize (Hr (deadline t)). lia.
Qed.

(** Failure within a poll. *)
Lemma wp_poll_fail m t s s1 X : idle t s → calm s s1 →
  wp (t' ← fail_transport m t; mret (t', done t')) s1 (poll_post t s) X.
Proof.
  intros Hi Hc. apply wp_bind. eapply wp_fail_transport; [by eapply steady_later|done|].
  intros t' s' H1 H2 H3 _. apply wp_ret. rewrite H2. by apply post_done.
Qed.

Lemma wp_wait_socket events k t s (Q : VMHttpTransport * bool → Sys (Lines W) → Prop) X : idle t s →
  (∀ t' s', step_ok t s t' s' → done t' = true → Q (t', false) s') →
  (∀ b s', idle t s' → calm s s' → timely t s' →
     (readings (deadline t) (host (world s')) < readings (deadline t) (host (world s)))%nat → Q (t, b) s') →
  wp (wait_socket events k t) s Q X.
Proof.
  intros Hi Hdone Hgo. unfold wait_socket. apply wp_bind, wp_transport_clock; [done| |].
  { intros t' s' x H1 H2 _. rewrite H2. apply wp_ret. by apply Hdone. }
  intros now s1 Hi1 Hc1 Hnow Hlt Hrd. destruct Hi1 as (Hok1 & Hd1 & Hp1). rewrite Hd1. assert (idle t s1) as Hi1 by done. apply wp_bind, wp_invoke.
  intros r s2 [Hc2 Hck2] _ _. assert (calm s s2) as Hc02 by by eapply calm_trans. pose proof (idle_calm _ _ _ Hi Hc02) as Hi2.
  assert (∀ m s3, calm s s3 → wp (t' ← fail_transport m t; mret (t', false)) s3 Q X) as Hf.
  { intros m s3 Hc3. apply wp_bind. eapply wp_fail_transport; [exact (steady_later _ _ _ Hi Hc3)|exact Hi|].
    intros t' s' H1 H2 H3 _. apply wp_ret. by apply Hdone. }
  assert (∀ ready revents, wp (now ← transport_ms;
        match now with
        | None => t ← fail_transport "HTTP transport clock failed" t; mret (t, false)
        | Some now =>
            match http_transport_classify_wait now (deadline t) ready revents with
            | VM_HTTP_WAIT_TIMEOUT => t ← fail_transport "HTTP transport timed out" t; mret (t, false)
            | VM_HTTP_WAIT_INVALID => t ← fail_transport "HTTP connection failed" t; mret (t, false)
            | VM_HTTP_WAIT_READY => mret (t, true)
            | VM_HTTP_WAIT_PENDING => mret (t, false)
            end
        end) s2 Q X) as Hrest.
  { intros ready revents. apply wp_bind, wp_transport_ms. intros r2 s3 Hc3 Hr2 _. assert (calm s s3) as Hc03 by by eapply calm_trans.
    destruct r2 as [now2|]; [|by apply Hf]. unfold http_transport_classify_wait. destruct (Z.leb_spec (deadline t) now2); [by apply Hf|].
    assert (∀ b, Q (t, b) s3) as Hq.
    { intros b. apply Hgo; [by eapply idle_calm|done|by exists now2|]. destruct Hc2 as (_ & _ & R2), Hc3 as (_ & _ & R3).
      specialize (R2 (deadline t)). specialize (R3 (deadline t)). lia. }
    destruct (_ && _); [by apply Hf|]. destruct (_ >? _); by apply wp_ret. }
  destruct r; [apply Hrest|apply Hrest|by apply Hf].
Qed.

Lemma wp_message_loop fuel m hd t s s1 (Q : option VMHttpTransport → Sys (Lines W) → Prop) X : idle t s → calm s s1 →
  multi t = Some m → easy t = Some hd → timely t s1 → (messages m (host (world s1)) < fuel)%nat →
  (∀ t' s', step_ok t s t' s' → paused t' = false → (∀ D, (readings D (host (world s')) ≤ readings D (host (world s1)))%nat) → Q (Some t') s') →
  (∀ s', calm s1 s' → timely t s' → Q None s') → wp (message_loop fuel m hd t) s1 Q X.
Proof.
  intros Hi Hc1 Hm He. revert s1 Hc1. induction fuel as [|fuel IH]; intros s1 Hc1 Ht Hf HQ HN; [lia|]. cbn [message_loop]. apply wp_bind.
  assert (tsteady t s1) as Hs1 by (by eapply steady_later).
  apply wp_live; [constructor; [by eapply own_multi|constructor]|]. apply wp_invoke. intros r s2 [Hc2 Hk2] Hr Hw.
  assert (calm s s2) as Hc02 by by eapply calm_trans. assert (timely t s2) as Ht2 by (unfold timely; by rewrite Hk2).
  assert (tsteady t s2) as Hs2 by by eapply tsteady_calm.
  assert (∀ msg s3, calm s2 s3 → wp (t' ← fail_transport msg t; mret (Some t')) s3 Q X) as Hfail.
  { intros msg s3 Hc3. apply wp_bind. eapply wp_fail_transport; [by eapply tsteady_calm|exact Hi|].
    intros t' s' H1 H2 H3 R. apply wp_ret. apply HQ; [done|done|]. intros D. specialize (R D). destruct Hc2 as (_ & _ & R2), Hc3 as (_ & _ & R3).
    specialize (R2 D). specialize (R3 D). lia. }
  destruct r as [[code|]|]; [|apply IH; try done|apply wp_ret; by apply HN].
  - destruct (negb _); [by apply Hfail|]. apply wp_bind, wp_live; [constructor; [by eapply own_easy|constructor]|]. apply wp_invoke.
    intros k s3 [Hc3 Hk3] _ _. destruct k as [k|]; [|by apply Hfail]. apply wp_ret. apply HQ; [|apply Hi|].
    + assert (calm s s3) as Hc03 by by eapply calm_trans. assert (timely t s3) as Ht3 by (unfold timely; by rewrite Hk3).
      pose proof (step_idle _ _ _ Hi Hc03 Ht3) as ((K1 & K2 & K3) & K4 & K5). split; [|split; [done|exact K5]].
      split; [by eapply tsteady_own|]. split; [done|]. simpl. destruct (done t); [done|]. by destruct K3.
    + intros D. destruct Hc2 as (_ & _ & R2), Hc3 as (_ & _ & R3). specialize (R2 D). specialize (R3 D). lia.
  - symmetry in Hr. pose proof (message_taken m (host (world s1)) None Hr). rewrite Hw. lia.
  - intros t' s' H1 H2 R. apply HQ; [done|done|]. intros D. specialize (R D). destruct Hc2 as (_ & _ & R2). specialize (R2 D). lia.
  - intros s' Hc3 Ht3. apply HN; [by eapply calm_trans|done].
Qed.

Lemma wp_poll_connect fuel k t s X : idle t s → (message_bound < fuel)%nat → wp (poll_connect fuel k t) s (poll_post t s) X.
Proof.
  intros Hi Hf. pose proof (g_over _ _ (idle_going _ _ Hi)) as (hd & m & He & Hm & _). unfold poll_connect. rewrite Hm, He. apply wp_bind.
  apply wp_live; [constructor; [eapply own_multi; [by apply idle_steady|done]|constructor]|]. apply wp_invoke. intros ok s1 [Hc1 _] _ _.
  destruct ok; simpl; [|by apply wp_poll_fail]. pose proof (idle_calm _ _ _ Hi Hc1) as Hi1. apply wp_bind, wp_transport_clock; [done| |].
  { intros t' s' x H1 H2 H3. rewrite H2. apply wp_ret, post_done; [by eapply step_from|done]. }
  intros now s2 Hi2 Hc2 Hnow Hlt Hrd. assert (calm s s2) as Hc02 by by eapply calm_trans. rewrite (proj1 (proj2 Hi2)). apply wp_bind.
  assert (readings (deadline t) (host (world s2)) < readings (deadline t) (host (world s)))%nat as Hrd2.
  { destruct Hc1 as (_ & _ & R1). specialize (R1 (deadline t)). lia. }
  eapply (wp_message_loop _ _ _ _ s s2); [exact Hi|done|done|done|by exists now|pose proof (message_count m (host (world s2))); lia| |].
  { intros t' s' H1 H2 R. apply wp_ret. split; [done|]. split; [simpl; by rewrite H2, orb_false_r|]. intros _. specialize (R (deadline t)). lia. }
  intros s3 Hc3 _. assert (calm s s3) as Hc03 by by eapply calm_trans. pose proof (idle_calm _ _ _ Hi Hc03) as Hi3.
  apply wp_bind, wp_transport_clock; [done| |].
  { intros t' s' x H1 H2 H3. rewrite H2. apply wp_ret, post_done; [by eapply step_from|done]. }
  intros now4 s4 Hi4 Hc4 Hnow4 Hlt4 Hrd4. rewrite (proj1 (proj2 Hi4)). apply wp_bind.
  apply wp_live; [constructor; [eapply own_multi; [by apply idle_steady|done]|constructor]|]. apply wp_invoke. intros ok s5 [Hc5 Hk5] _ _.
  assert (calm s s5) as Hc05 by (eapply calm_trans; [|done]; by eapply calm_trans). destruct ok; simpl; [|by apply wp_poll_fail].
  apply wp_bind, wp_ret, wp_ret. destruct Hi as (Hok & Hd & Hp). rewrite Hd. apply post_idle; [done|done|exists now4; by rewrite Hk5|].
  destruct Hc5 as (_ & _ & R5), Hc3 as (_ & _ & R3). specialize (R5 (deadline t)). specialize (R3 (deadline t)). lia.
Qed.

(** An entry of the log of the own handle. *)
Lemma frame_event t hd s e : tsteady t s → easy t = Some hd →
  (∃ b, e = Out hd b ∨ e = In_ hd b) → ∀ o x, x ∈ h → flow o x (e :: log (world s)) = fl o x.
Proof.
  intros Hs He (b & Hb) o x Hx. assert (hd ≠ x) as Hne by (intros ->; by apply (easy_not_other _ _ _ Hs He)).
  destruct (flow_other o x hd b (log (world s)) Hne) as (E1 & E2 & _). destruct Hb as [-> | ->]; rewrite ?E1, ?E2; by apply (t_frame _ _ Hs).
Qed.
Lemma steady_event t hd s e x : tsteady t s → easy t = Some hd → (∃ b, e = Out hd b ∨ e = In_ hd b) →
  (∀ D, (readings D x ≤ readings D (host (world s)))%nat) →
  tsteady t (mkSys (mkLines x (clock_at (world s)) (e :: log (world s)) (handles (world s)) (curl_initialized (world s))) (held s) (reads s)).
Proof.
  intros Hs He Hb Hx. pose proof Hs as [H1 H2 H3 H4]. split; simpl; try done; [by eapply frame_event|]. intros D. specialize (H4 D). specialize (Hx D). lia.
Qed.

Lemma wp_transport_send hd t s X : idle t s → easy t = Some hd → timely t s → (sent t < length (request t))%nat →
  wp (transport_send hd t) s (λ x s', step_ok t s (fst x) s' ∧ snd x = done (fst x) || paused (fst x) ∧
    ∀ D, (readings D (host (world s')) ≤ readings D (host (world s)))%nat) X.
Proof.
  intros Hi He Ht Hlen. unfold transport_send. pose proof (idle_steady _ _ Hi) as Hs. apply wp_bind.
  apply wp_live; [constructor; [by eapply own_easy|constructor]|]. apply wp_ask. set (k := Nat.min _ _). set (b := take k _).
  pose proof (easy_send_bound hd b (host (world s))) as Hb. pose proof (do_readings _ (EasySend hd b) (host (world s))) as Hr.
  destruct (curl_do (EasySend hd b) (host (world s))) as [[code m] x]. cbn [fst snd] in *. destruct (Z.eqb_spec code CURLE_OK) as [->|Hcode].
  - specialize (Hb _ eq_refl). apply wp_ret. destruct Hi as (Hok & Hd & Hp).
    assert (length b ≤ k)%nat as Hbk by (unfold b; rewrite length_take; lia). unfold Zlength' in Hb.
    pose proof (idle_going t s ltac:(done)) as [(hd' & mu & He' & Hm & F1 & F2 & F3) G2 G3 G4 G5]. simplify_eq.
    destruct (flow_out hd (take (Z.to_nat m) b) (log (world s))) as [O1 O2].
    split; [|split; [cbn [fst snd done paused set_sent]; by rewrite Hd, Hp|exact Hr]]. split; [|split; [done|]].
    + split; [eapply tsteady_own; [by eapply steady_event; [..|eauto|]|done]|]. simpl. rewrite Hd, Hp. split; [done|].
      split; [|cbn [sent request set_sent]; lia|done|done|simpl; congruence]. exists hd, mu. cbn [easy multi set_sent sent request total streaming response world log].
      split_and!; [done|done| |by rewrite O2|by rewrite O2]. rewrite O1, F1. apply sent_prefix. lia.
    + intros hd'' He''. assert (hd'' = hd) as -> by congruence. simpl. rewrite Hd. split; [done|]. split; [exact Ht|]. intros _. by rewrite Hp, !app_nil_r.
  - set (s1 := mkSys _ _ _). assert (calm s s1) as Hc by done. assert (timely t s1) as Ht1 by exact Ht. clearbody s1.
    apply wp_bind. destruct (code =? CURLE_AGAIN); simpl.
    + apply wp_ret, wp_ret. simpl. split; [by apply step_idle|]. destruct Hi as (Hok & Hd & Hp). rewrite Hd, Hp. split; [done|apply Hc].
    + eapply wp_fail_transport; [by eapply steady_later|exact Hi|]. intros t' s' H1 H2 H3 R. apply wp_ret. simpl. rewrite H2. split; [done|]. split; [done|].
      intros D. specialize (R D). destruct Hc as (_ & _ & Rc). specialize (Rc D). lia.
Qed.

(** The peer has closed: the transport is done. *)
Lemma wp_finish_ok t hd s s1 (Q : VMHttpTransport → Sys (Lines W) → Prop) X : idle t s → easy t = Some hd → tsteady t s1 → timely t s1 →
  sent t = length (request t) → (∀ o, flow o hd (log (world s1)) = flow o hd (log (world s))) →
  (∀ t' s', step_ok t s t' s' → done t' = true → (∀ D, (readings D (host (world s')) ≤ readings D (host (world s1)))%nat) → Q t' s') →
  wp (finish_transport None t) s1 Q X.
Proof.
  intros Hi He Hs1 Ht Hall Hflow HQ. apply wp_finish_transport; [done|]. intros r s' Hrel Hr. pose proof (idle_going _ _ Hi) as Hg.
  destruct Hi as (_ & Hd & Hp). destruct (g_idle _ _ Hg Hp) as [Hnone Hempty].
  pose proof Hrel as (_ & _ & Hlog & Hclk & R). apply HQ; [|done|done]. split; [|split; [done|]].
  - split; [by eapply steady_released|]. split; [simpl; by rewrite Hp|]. split; [done|].
    destruct Hr as [-> | [-> |(v & -> & ->)]]; [by left|by left|right; right; done].
  - intros hd' He' b Hb. assert (hd' = hd) as -> by congruence. simpl in Hb. destruct Hr as [-> | [-> |(v & -> & ->)]]; [done|congruence|].
    simplify_eq. rewrite Hlog, !Hflow. pose proof (g_over _ _ Hg) as (hd' & m & E1 & E2 & F1 & _). simplify_eq.
    rewrite F1, Hall, take_ge by lia. split_and!; try done. destruct Ht as (now & H1 & H2). exists now. by rewrite Hclk.
Qed.

Lemma wp_store bytes t s (Q : VMHttpTransport → Sys (Lines W) → Prop) X :
  Zlength' (response t) + Zlength' bytes ≤ (if streaming t then HTTP_TRANSPORT_CHUNK else Z.max 1 (limit t)) →
  Q (set_received (response t ++ bytes) (total t + Zlength' bytes) t) s → wp (transport_store bytes t) s Q X.
Proof. intros Hfit HQ al. unfold transport_store. by rewrite (proj2 (Z.leb_le _ _) Hfit). Qed.

(** Bytes arrived within the limit. *)
Lemma wp_receive_chunk t hd bytes s s1 X : idle t s → easy t = Some hd → tsteady t s1 → timely t s1 →
  log (world s1) = In_ hd bytes :: log (world s) → Zlength' bytes ≤ HTTP_TRANSPORT_CHUNK → Zlength' bytes ≤ limit t - total t → sent t = length (request t) → bytes ≠ [] →
  wp (t ← transport_store bytes t;
      if streaming t then
        r ← or_none (chunk ← value_data V_BYTES (response t); named_value V_VARIANT (str "Ok") [] [chunk]);
        mret (set_paused r true t)
      else mret t) s1 (λ t' s', step_ok t s t' s' ∧ done t' = false ∧ s' = s1) X.
Proof.
  intros Hi He Hs1 Ht Hlog Hlen Hlim Hall Hne. pose proof (idle_going _ _ Hi) as [(hd' & m & E1 & Hm & F1 & F2 & F3) G2 G3 G4 G5]. simplify_eq.
  destruct Hi as (_ & Hd & Hp). destruct (G4 Hp) as [Hnone Hempty]. destruct (flow_in hd bytes (log (world s))) as [I1 I2].
  assert (0 ≤ Zlength' (response t)) by (unfold Zlength'; lia).
  assert (Zlength' (response t) + Zlength' bytes ≤ (if streaming t then HTTP_TRANSPORT_CHUNK else Z.max 1 (limit t))) as Hfit.
  { destruct (streaming t); [rewrite Hempty by done; unfold Zlength' at 1; simpl; lia|]. rewrite F3, F2 by done. lia. }
  apply wp_bind, wp_store; [done|]. set (t1 := set_received _ _ t).
  assert (∀ r, (if streaming t then r = None ∨ r = Some (ok_value bytes) else r = None) →
    step_ok t s (set_paused r (streaming t) t1) s1) as Hstep.
  { intros r Hr. split; [|split; [done|]].
    - split; [by eapply tsteady_own|]. simpl. rewrite Hd. split; [apply andb_false_r|]. split; simpl.
      + exists hd, m. rewrite Hlog, I1, I2. split_and!; try done; [|intros Hst; by rewrite F3].
        unfold Zlength' in *. rewrite length_app. lia.
      + done.
      + lia.
      + intros Hst. rewrite Hst in *. done.
      + intros Hst. rewrite Hst in *. split; [done|]. split; [done|]. by rewrite Hempty.
    - intros hd' He'. assert (hd' = hd) as -> by congruence. simpl. rewrite Hd. split; [done|]. split; [done|]. intros Hst.
      rewrite Hst, Hempty by done. rewrite Hlog. exact I1. }
  change (streaming t1) with (streaming t). destruct (streaming t) eqn:Hst.
  - apply wp_bind. eapply (wp_or_none _ (λ v, v = ok_value bytes)).
    + eapply (runs_bind _ _ (λ v, v = Bytes bytes)); [apply value_data_spec; simpl; by rewrite Hempty|]. intros ? ->. by apply variant_spec.
    + intros v ->. apply wp_ret. split; [apply Hstep; by right|done].
    + apply wp_ret. split; [apply Hstep; by left|done].
  - apply wp_ret. split; [|done]. replace t1 with (set_paused None false t1); [by apply Hstep|]. unfold t1. destruct t; simpl in *. by subst.
Qed.

Lemma wp_transport_receive hd t s X : idle t s → easy t = Some hd → timely t s → sent t = length (request t) →
  wp (transport_receive hd t) s (λ x s', step_ok t s (fst x) s' ∧ snd x = done (fst x) || paused (fst x) ∧
    ∀ D, (readings D (host (world s')) ≤ readings D (host (world s)))%nat) X.
Proof.
  intros Hi He Ht Hall. unfold transport_receive. pose proof (idle_steady _ _ Hi) as Hs. apply wp_bind.
  apply wp_live; [constructor; [by eapply own_easy|constructor]|]. apply wp_ask.
  pose proof (easy_recv_bound hd HTTP_TRANSPORT_CHUNK (host (world s))) as Hb.
  pose proof (do_readings _ (EasyRecv hd HTTP_TRANSPORT_CHUNK) (host (world s))) as Hr.
  destruct (curl_do (EasyRecv hd HTTP_TRANSPORT_CHUNK) (host (world s))) as [[code bytes] x]. cbn [fst snd] in *. apply wp_bind.
  eapply (wp_mono _ _ (λ t' s', step_ok t s t' s' ∧ ∀ D, (readings D (host (world s')) ≤ readings D (host (world s)))%nat) _ X); [| |done].
  2:{ intros t' s' [H1 H2]. by apply wp_ret. }
  destruct (Z.eqb_spec code CURLE_OK) as [->|Hcode].
  - specialize (Hb bytes ltac:(done) eq_refl).
    assert (tsteady t (mkSys (mkLines x (clock_at (world s)) (In_ hd bytes :: log (world s)) (handles (world s)) (curl_initialized (world s))) (held s) (reads s))) as Hs1
      by (eapply steady_event; eauto).
    set (s1 := mkSys (mkLines _ _ (_ :: _) _ _) _ _) in *.
    assert (log (world s1) = In_ hd bytes :: log (world s) ∧ timely t s1 ∧ (∀ D, (readings D (host (world s1)) ≤ readings D (host (world s)))%nat)) as (Hl1 & Ht1 & R1) by done.
    clearbody s1. destruct (Z.eqb_spec (Zlength' bytes) 0) as [Hz|Hz].
    { assert (bytes = []) as -> by (destruct bytes; [done|unfold Zlength' in Hz; simpl in Hz; lia]).
      eapply (wp_finish_ok t hd s s1); [done..| |].
      - intros o. rewrite Hl1. destruct (flow_in hd [] (log (world s))) as [I1 I2]. rewrite app_nil_r in I1. by destruct o.
      - intros t' s' H1 H2 R. split; [done|]. intros D. specialize (R D). specialize (R1 D). lia. }
    pose proof (idle_going _ _ Hi) as [(hd' & m & E1 & Hm & F1 & F2 & F3) G2 G3 G4 G5].
    assert (0 ≤ total t) by (rewrite <-F2; unfold Zlength'; lia). unfold u64. rewrite Z.mod_small by lia.
    destruct (Z.gtb_spec (Zlength' bytes) (limit t - total t)) as [Hbig|Hfit].
    + eapply wp_fail_transport; [exact Hs1|exact Hi|]. intros t' s' H1 H2 H3 R. split; [done|]. intros D. specialize (R D). specialize (R1 D). lia.
    + eapply wp_mono; [eapply (wp_receive_chunk t hd bytes s s1); try done; intros ->; done| |done]. intros t' s' (H1 & H2 & ->). done.
  - set (s1 := mkSys _ _ _). assert (calm s s1) as Hc by done. assert (timely t s1) as Ht1 by exact Ht. clearbody s1.
    destruct (code =? CURLE_AGAIN); simpl.
    + apply wp_ret. split; [by apply step_idle|apply Hc].
    + eapply wp_fail_transport; [by eapply steady_later|exact Hi|]. intros t' s' H1 H2 H3 R. split; [done|].
      intros D. specialize (R D). destruct Hc as (_ & _ & Rc). specialize (Rc D). lia.
Qed.

Lemma wp_transport_poll fuel k t s X : idle t s → (message_bound < fuel)%nat → wp (http_transport_poll fuel k t) s (poll_post t s) X.
Proof.
  intros Hi Hf. unfold http_transport_poll. pose proof Hi as (_ & Hd & Hp). rewrite Hd, Hp. simpl. apply wp_bind, wp_transport_clock; [done| |].
  { intros t' s' x H1 H2 H3. rewrite H2. by apply wp_ret, post_done. }
  intros now s1 Hi1 Hc1 Hnow Hlt Hrd. rewrite Hd. destruct (connecting t).
  { eapply wp_mono; [by apply wp_poll_connect| |done]. intros x s' H. by eapply post_from. }
  apply wp_bind, wp_wait_socket; [done| |].
  { intros t' s' H1 H2. apply wp_ret. rewrite H2. apply post_done; [by eapply step_from|done]. }
  intros b s2 Hi2 Hc2 Ht2 Hrd2. assert (calm s s2) as Hc02 by by eapply calm_trans.
  assert (readings (deadline t) (host (world s2)) < readings (deadline t) (host (world s)))%nat as Hrd02 by lia.
  destruct b; simpl; [|apply wp_ret; rewrite Hd; by apply post_idle].
  pose proof (g_over _ _ (idle_going _ _ Hi)) as (hd & m & He & _). pose proof (g_sent _ _ (idle_going _ _ Hi)) as Hsent. rewrite He.
  assert (∀ x s', step_ok t s2 (fst x) s' ∧ snd x = done (fst x) || paused (fst x) ∧ (∀ D, (readings D (host (world s')) ≤ readings D (host (world s2)))%nat) → poll_post t s x s') as Hpost.
  { intros x s' (H1 & H2 & R). split; [by eapply step_from|]. split; [done|]. intros _. specialize (R (deadline t)). lia. }
  destruct (Nat.ltb_spec (sent t) (length (request t))).
  - eapply wp_mono; [by apply wp_transport_send|apply Hpost|done].
  - eapply wp_mono; [apply wp_transport_receive; [done..|lia]|apply Hpost|done].
Qed.

(** *** Reading a stream *)

Lemma step_trans t s t1 s1 t' s' : streaming t = true → idle t s → step_ok t s t1 s1 → done t1 = false → paused t1 = false →
  step_ok t1 s1 t' s' → step_ok t s t' s'.
Proof.
  intros Hst Hi (Hok1 & (E1 & E2 & E3 & E4) & H1) Hd1 Hp1 (Hok' & (K1 & K2 & K3 & K4) & H2). split; [done|].
  split; [split_and!; congruence|]. intros hd He. specialize (H1 hd He). rewrite Hd1, Hp1 in H1. destruct H1 as (He1 & _ & Hf1). specialize (H2 hd He1).
  specialize (Hf1 Hst). rewrite app_nil_r in Hf1.
  assert (response t1 = [] ∧ response t = []) as [Hr1 Hr].
  { destruct Hok1 as (_ & _ & Hg1). rewrite Hd1 in Hg1. split; [by apply (g_idle _ _ Hg1); [|congruence]|].
    by apply (g_idle _ _ (idle_going _ _ Hi)); [apply Hi|]. }
  rewrite E1, E3, E4, Hf1 in H2. destruct (done t').
  - intros b Hb. specialize (H2 b Hb). by rewrite Hr, <-Hr1.
  - done.
Qed.

Lemma wp_stream_loop turns fuel t s X : idle t s → streaming t = true → (message_bound < fuel)%nat →
  (readings (deadline t) (host (world s)) ≤ turns)%nat →
  wp (stream_loop turns fuel t) s (λ t' s', step_ok t s t' s' ∧ done t' || paused t' = true) X.
Proof.
  revert t s. induction turns as [|turns IH]; intros t s Hi Hst Hf Hr; cbn [stream_loop]; apply wp_bind;
    (eapply wp_mono; [by apply wp_transport_poll| |done]); intros [t1 b] s1 (H1 & H2 & H3); simpl in H1, H2, H3.
  { destruct b; [apply wp_ret; split; [done|by rewrite <-H2]|]. specialize (H3 eq_refl). lia. }
  destruct b; [apply wp_ret; split; [done|by rewrite <-H2]|]. specialize (H3 eq_refl). symmetry in H2. apply orb_false_iff in H2 as [Hd1 Hp1]. pose proof H1 as (Hok1 & (E1 & E2 & E3 & E4) & _). eapply wp_mono; [apply IH| |done].
  - done.
  - congruence.
  - done.
  - rewrite E3. lia.
  - intros t' s' [H4 H5]. split; [by eapply step_trans|done].
Qed.

Lemma clear_idle t s : tok t s → paused t = true → idle (clear_chunk t) s.
Proof.
  intros (Hs & Hpd & Hg) Hp. rewrite Hp in Hpd. simpl in Hpd. rewrite Hpd in Hg. split; [|done]. split; [by eapply tsteady_own|]. split; [done|].
  simpl. rewrite Hpd. destruct Hg as [(hd & m & E1 & Hm & F1 & F2 & F3) G2 G3 G4 G5]. destruct (G5 Hp) as (Hst & _ & _).
  split; simpl; try done. exists hd, m. split_and!; try done. congruence.
Qed.

(** What a read of a stream gives. *)
Definition read_ok t s t' s' : Prop :=
  tok t' s' ∧ (request t' = request t ∧ limit t' = limit t ∧ deadline t' = deadline t ∧ streaming t' = streaming t) ∧
  if done t then t' = t
  else ∀ hd, easy t = Some hd → ∀ b, result t' = Some (ok_value b) → (b = [] ↔ done t' = true) ∧
    flow true hd (log (world s')) = request t ∧ flow false hd (log (world s')) = flow false hd (log (world s)) ++ b ∧
    Zlength' (flow false hd (log (world s'))) ≤ limit t ∧ ∃ now, clock_at (world s') = Some now ∧ now < deadline t.

Lemma wp_stream_read turns fuel t s X : tok t s → streaming t = true → (message_bound < fuel)%nat →
  (∀ D, (n D ≤ turns)%nat) → wp (stream_loop turns fuel (if paused t then clear_chunk t else t)) s (read_ok t s) X.
Proof.
  intros Hok Hst Hf Hn. destruct (done t) eqn:Hd.
  { assert (paused t = false) as Hp by (destruct Hok as (_ & Hp & _); rewrite Hd, andb_true_r in Hp; done). rewrite Hp.
    destruct turns; cbn [stream_loop]; apply wp_bind; unfold http_transport_poll; rewrite Hd; simpl; apply wp_ret, wp_ret; unfold read_ok; by rewrite Hd. }
  assert (idle (if paused t then clear_chunk t else t) s) as Hi by (destruct (paused t) eqn:Hp; [by apply clear_idle|done]).
  set (t0 := if paused t then clear_chunk t else t) in *.
  assert (request t0 = request t ∧ limit t0 = limit t ∧ deadline t0 = deadline t ∧ streaming t0 = true ∧ easy t0 = easy t) as (E1 & E2 & E3 & E4 & E5)
    by (unfold t0; by destruct (paused t)).
  eapply wp_mono; [apply wp_stream_loop; [done|done|done|]| |done].
  { etrans; [apply (t_read _ _ (idle_steady _ _ Hi))|apply Hn]. }
  intros t' s' [(Hok' & (K1 & K2 & K3 & K4) & Hstep) Hend]. split; [done|]. split; [split_and!; congruence|]. rewrite Hd. intros hd He b Hb.
  rewrite <-E5 in He. specialize (Hstep hd He). pose proof (idle_going _ _ Hi) as Hg0. destruct (g_over _ _ Hg0) as (hd' & m & He' & _ & _ & F2 & _).
  simplify_eq. pose proof (g_limit _ _ Hg0) as Hlim. destruct (g_idle _ _ Hg0 (proj2 (proj2 Hi))) as [_ Hempty]. rewrite <-E1, <-E2, <-E3.
  destruct (done t') eqn:Hd'.
  - destruct (Hstep b Hb) as (-> & H1 & H2 & H3). rewrite H2, (Hempty E4), app_nil_r. split_and!; [done|done|done|lia|done].
  - destruct Hstep as (He'' & Htime & Hflow). simpl in Hend. specialize (Hflow E4). rewrite Hend in Hflow. destruct Hok' as (_ & _ & Hg'). rewrite Hd' in Hg'.
    destruct (g_paused _ _ Hg' Hend) as (_ & Hall & Hne & [Hnone|Hres]); [congruence|]. rewrite Hb in Hres. injection Hres as ->.
    destruct (g_over _ _ Hg') as (hd'' & m'' & Hx & _ & G1 & G2 & _). assert (hd'' = hd) as -> by congruence.
    rewrite Hall, take_ge in G1 by lia. split_and!; [split; [done|congruence]|congruence|congruence| |done]. rewrite G2. pose proof (g_limit _ _ Hg'). lia.
Qed.

(** *** Starting *)

(** A transport that was just made for these arguments. *)
Definition started (a : list Value) (b : bool) t s : Prop :=
  tok t s ∧ paused t = false ∧ streaming t = b ∧ (done t = true → result t = None ∨ ∃ v, result t = Some v ∧ error_value v) ∧
  (done t = false → (∃ v, a !! 3%nat = Some v ∧ request t = bytes_of v) ∧ (∃ v, a !! 4%nat = Some v ∧ value_index v = Some (limit t)) ∧
    ∃ hd, easy t = Some hd ∧ ∀ o, flow o hd (log (world s)) = []).

Lemma wp_fail_new a b m t s X : tsteady t s → result t = None → paused t = false → streaming t = b →
  wp (fail_transport m t) s (λ t' s', started a b t' s') X.
Proof.
  intros Hs Hr Hp Hb. apply wp_finish_transport; [done|]. intros r s' Hrel He. split; [|split; [done|split; [done|split; [|done]]]].
  2:{ intros _. destruct He as [-> | [-> |(v & -> & Hv)]]; [by left|by left|right; by exists v]. }
  split; [by eapply steady_released|]. split; [simpl; by rewrite Hp|]. split; [done|].
  destruct He as [-> | [-> |(v & -> & Hv)]]; [by left|by left|right; left; by exists v].
Qed.

Lemma wp_set_options hd l s (Q : bool → Sys (Lines W) → Prop) X : hd ∈ handles (world s) → (∀ ok s', calm_time s s' → Q ok s') → wp (set_options hd l) s Q X.
Proof.
  revert s. induction l as [|o l IH]; intros s Hh HQ; cbn [set_options]; [by apply wp_ret, HQ|]. apply wp_bind.
  apply wp_live; [by constructor|]. apply wp_invoke. intros ok s1 [Hc1 Hk1] _ _. destruct ok; [|apply wp_ret, HQ; done].
  apply IH; [destruct Hc1 as (-> & _); done|]. intros ok s2 [Hc2 Hk2]. apply HQ. split; [by eapply calm_trans|congruence].
Qed.

Lemma wp_multi_init t s (Q : option Z → Sys (Lines W) → Prop) X : tsteady t s → own t = [] →
  (∀ r s', tsteady (set_multi r t) s' → log (world s') = log (world s) → clock_at (world s') = clock_at (world s) → Q r s') → wp multi_init s Q X.
Proof.
  intros [H1 H2 H3 H4] Ho HQ. apply wp_ask. pose proof (fresh_multi (handles (world s)) (host (world s))) as Hf.
  pose proof (do_readings _ (MultiInit (handles (world s))) (host (world s))) as Hr. destruct (curl_do (MultiInit (handles (world s))) (host (world s))) as [r x].
  apply HQ; [|done|done]. cbn [fst snd] in *. assert (easy t = None) as He by (unfold own in Ho; destruct (easy t), (multi t); done).
  split; simpl.
  - unfold own. simpl. rewrite He, app_nil_r, H1, Ho. done.
  - destruct r as [m|]; [|done]. constructor; [by apply Hf|done].
  - done.
  - intros D. specialize (H4 D). specialize (Hr D). lia.
Qed.

Lemma wp_easy_init t s (Q : option Z → Sys (Lines W) → Prop) X : tsteady t s → easy t = None →
  (∀ r s', tsteady (set_easy r t) s' → (∀ hd, r = Some hd → ∀ o, flow o hd (log (world s')) = []) → clock_at (world s') = clock_at (world s) → Q r s') →
  wp easy_init s Q X.
Proof.
  intros [H1 H2 H3 H4] He HQ. apply wp_ask. pose proof (fresh_easy (handles (world s)) (host (world s))) as Hf.
  pose proof (do_readings _ (EasyInit (handles (world s))) (host (world s))) as Hr. destruct (curl_do (EasyInit (handles (world s))) (host (world s))) as [r x].
  cbn [fst snd] in *. unfold own in H1. rewrite He, app_nil_r in H1. apply HQ.
  - split; simpl.
    + unfold own. simpl. rewrite H1. destruct r; simpl; [|by rewrite app_nil_r]. rewrite <-app_assoc. apply Permutation_middle.
    + destruct r as [m|]; [|done]. constructor; [by apply Hf|done].
    + intros o y Hy. destruct r as [hd|]; [|by apply H3]. specialize (Hf hd eq_refl). assert (hd ≠ y) as Hne.
      { intros ->. apply Hf. rewrite H1. apply elem_of_app. by right. }
      destruct (flow_other o y hd [] (log (world s)) Hne) as (_ & _ & ->). by apply H3.
    + intros D. specialize (H4 D). specialize (Hr D). lia.
  - intros hd -> o. simpl. by rewrite decide_True.
  - done.
Qed.

Lemma wp_transport_connect a b v ca secure hostname port timeout q l d s X : (∃ x, a !! 3%nat = Some x ∧ q = bytes_of x) →
  a !! 4%nat = Some v → value_index v = Some l → 0 ≤ l < 2 ^ 64 → tsteady (mkTransport q None [] 0 l 0 d false false b false None None None) s →
  wp (transport_connect ca secure hostname port timeout (mkTransport q None [] 0 l 0 d false false b false None None None)) s
    (λ t' s', started a b t' s') X.
Proof.
  intros Hq Ha Hv Hl Hs. unfold transport_connect. apply wp_bind. eapply wp_multi_init; [done|done|]. intros m s1 Hs1 _ _.
  apply wp_bind. eapply wp_easy_init; [done|done|]. intros hd s2 Hs2 Hlog Hck. cbv zeta. destruct m as [m|]; [|by apply wp_fail_new].
  destruct hd as [hd|]; [|by apply wp_fail_new]. set (t := set_easy _ _) in *. specialize (Hlog hd eq_refl). destruct (_ <=? _); [by apply wp_fail_new|].
  apply wp_bind, wp_set_options; [by eapply own_easy|]. intros ok s3 [Hc3 _]. pose proof (tsteady_calm _ _ _ Hs2 Hc3) as Hs3. apply wp_bind.
  eapply (wp_mono _ _ (λ _ s', calm s3 s') _ X); [| |done].
  { destruct ok; [|apply wp_ret; done]. apply wp_live; [constructor; [by eapply own_multi|constructor; [by eapply own_easy|constructor]]|].
    apply wp_invoke. intros ? s' [Hc _] _ _. done. }
  intros ok' s4 Hc4. pose proof (tsteady_calm _ _ _ Hs3 Hc4) as Hs4. destruct ok'; [|by apply wp_fail_new]. apply wp_ret.
  assert (log (world s4) = log (world s2)) as El by (destruct Hc3 as (_ & E3 & _), Hc4 as (_ & E4 & _); congruence).
  assert (∀ o, flow o hd (log (world s4)) = []) as Hfl by (intros o; by rewrite El).
  split; [|split; [done|split; [done|split; [done|]]]].
  - split; [by eapply tsteady_own|]. split; [done|]. split; simpl; try done; try lia. exists hd, m. rewrite !Hfl. done.
  - intros _. split; [done|]. split; [by exists v|]. by exists hd.
Qed.

Lemma transport_arguments_ok b a0 a1 a2 a3 a4 a5 port secure l timeout : transport_arguments b a0 a1 a2 a3 a4 a5 = Some (port, secure, l, timeout) →
  value_index a4 = Some l ∧ 0 ≤ l ≤ 268435456.
Proof.
  unfold transport_arguments. intros H. assert (HTTP_TRANSPORT_BYTE_LIMIT = 16777216) as E by done. repeat case_match; simplify_eq;
    repeat match goal with H : _ || _ = false |- _ => apply orb_false_iff in H as [? ?] end;
    (split; [done|]); assert (0 ≤ l) by (by eapply index_nonneg); lia.
Qed.

Lemma wp_initialize s (Q : bool → Sys (Lines W) → Prop) X : (∀ ok s', calm s s' → Q ok s') → wp initialize_curl s Q X.
Proof.
  intros HQ. unfold initialize_curl. apply wp_bind, wp_ask. simpl. destruct s as [w hs rs]. simpl.
  destruct (curl_initialized w); [by apply wp_ret, HQ|]. apply wp_bind, wp_invoke.
  intros ok s1 [Hc1 _] _ _. destruct ok; simpl; [|by apply wp_ret, HQ]. apply wp_bind, wp_invoke. intros dns s2 [Hc2 _] _ _.
  assert (calm (mkSys w hs rs) s2) as Hc02 by by eapply calm_trans. destruct dns; [apply wp_ask, HQ; exact Hc02|].
  apply wp_bind, wp_invoke. intros ? s3 [Hc3 _] _ _. apply wp_ret, HQ. by eapply calm_trans.
Qed.

Lemma wp_transport_start ca b a t0 s : tsteady t0 s → own t0 = [] → (6 ≤ length a)%nat →
  wp (transport_start ca b a) s (λ t' s', started a b t' s') (λ s', s' = s).
Proof.
  intros Hs Ho Hlen. unfold transport_start. apply wp_bind. eapply wp_lift; [apply runs_alloc| |done]. intros _ _.
  assert (∀ i, (i < 6)%nat → ∃ v, a !! i = Some v) as Harg by (intros i Hi; apply lookup_lt_is_Some_2; lia).
  destruct (Harg 0%nat) as [a0 H0]; [lia|]. destruct (Harg 1%nat) as [a1 H1]; [lia|]. destruct (Harg 2%nat) as [a2 H2]; [lia|].
  destruct (Harg 3%nat) as [a3 H3]; [lia|]. destruct (Harg 4%nat) as [a4 H4]; [lia|]. destruct (Harg 5%nat) as [a5 H5]; [lia|].
  do 6 (apply wp_bind; eapply wp_rd; [done|]). cbv zeta.
  assert (∀ q l d s', calm s s' → tsteady (mkTransport q None [] 0 l 0 d false false b false None None None) s') as Hnew.
  { intros q l d s' Hc. eapply tsteady_own; [by eapply tsteady_calm|by rewrite Ho]. }
  destruct (transport_arguments b a0 a1 a2 a3 a4 a5) as [[[[port secure] l] timeout]|] eqn:Hargs; [|apply wp_fail_new; try done; by apply Hnew].
  apply transport_arguments_ok in Hargs as [Hv Hl]. apply wp_bind, wp_initialize. intros ok s1 Hc1.
  destruct ok; simpl; [|apply wp_fail_new; try done; by apply Hnew]. apply wp_bind, wp_transport_ms. intros r s2 Hc2 _ _.
  assert (calm s s2) as Hc02 by by eapply calm_trans. destruct r as [now|]; [|apply wp_fail_new; try done; by apply Hnew].
  destruct (_ <? _); [apply wp_fail_new; try done; by apply Hnew|].
  apply wp_bind. eapply (wp_or_none _ (λ _, True)); [apply runs_alloc|intros _ _|].
  - eapply wp_transport_connect; [by exists a3|done|done|lia|by apply Hnew].
  - apply wp_ret. split; [|split; [done|split; [done|split; [by left|done]]]].
    split; [eapply tsteady_own; [by apply (Hnew [] l (now + timeout))|done]|]. split; [done|]. split; [done|by left].
Qed.
End sound.

(** ** Host names *)

Definition host_byte (c : Z) : bool := alphanumeric c || is_hyphen c.
(** A label: 1 to 63 letters, digits and hyphens, with no hyphen at its ends. *)
Definition label_ok (l : list Z) : Prop :=
  l ≠ [] ∧ (length l ≤ 63)%nat ∧ Forall (λ c, host_byte c = true) l ∧ head l ≠ Some 45 ∧ last l ≠ Some 45.
(** The labels after the first, each with its dot. *)
Fixpoint dotted (labels : list (list Z)) : list Z := match labels with [] => [] | l :: labels => 46 :: l ++ dotted labels end.

(** The loop within a label of which [cur] was read. *)
Definition in_label (cur : list Z) (before : Z) (n : nat) (starts : bool) : Prop :=
  n = length cur ∧ (n ≤ 63)%nat ∧ Forall (λ c, host_byte c = true) cur ∧
  (cur ≠ [] → head cur = Some 45 ↔ starts = true) ∧ (cur ≠ [] → last cur = Some before).
Definition label_end (n : nat) (starts : bool) (before : Z) : bool := negb (Nat.eqb n 0) && negb starts && negb (is_hyphen before).

Lemma label_end_ok cur before n starts : in_label cur before n starts → label_end n starts before = true ↔ label_ok cur.
Proof.
  intros (-> & Hn & Hf & Hh & Hl). unfold label_end, label_ok. rewrite !andb_true_iff, !negb_true_iff, Nat.eqb_neq. unfold is_hyphen. rewrite Z.eqb_neq. split.
  - intros [[H0 Hs] Hb]. assert (cur ≠ []) as Hne by (by intros ->). split_and!; try done.
    + intros H. apply (Hh Hne) in H. congruence.
    + rewrite (Hl Hne). congruence.
  - intros (Hne & _ & _ & H1 & H2). split_and!.
    + by destruct cur.
    + apply not_true_iff_false. intros Hs. by apply H1, (Hh Hne).
    + intros ->. by apply H2, Hl.
Qed.

Lemma host_byte_dot : host_byte 46 = false.
Proof. done. Qed.

(** What follows the label that is being read. *)
Lemma host_loop_exact l cur before n starts : in_label cur before n starts →
  match host_loop l before n starts with Some (b, n', st) => label_end n' st b | None => false end = true ↔
  ∃ w labels, l = w ++ dotted labels ∧ label_ok (cur ++ w) ∧ Forall label_ok labels.
Proof.
  revert cur before n starts. induction l as [|c l IH]; intros cur before n starts Hin; cbn [host_loop].
  - rewrite label_end_ok by done. split.
    + intros Hc. exists [], []. by rewrite (app_nil_r cur).
    + intros (w & labels & Hl & Hw & _). symmetry in Hl. apply app_nil in Hl as [-> _]. by rewrite app_nil_r in Hw.
  - destruct (is_dot c) eqn:Hdot.
    + apply Z.eqb_eq in Hdot as ->. assert (Nat.eqb n 0 || starts || is_hyphen before = negb (label_end n starts before)) as ->
        by (unfold label_end; by destruct (Nat.eqb n 0), starts, (is_hyphen before)).
      pose proof (label_end_ok _ _ _ _ Hin) as Hend. destruct (label_end n starts before); simpl.
      * rewrite (IH [] 46 0%nat false) by (split_and!; [done|lia|constructor|done|done]). split.
        -- intros (w & labels & -> & Hw & Hls). exists [], (w :: labels). rewrite (app_nil_r cur). split_and!; [done|by apply Hend|by constructor].
        -- intros (w & labels & Hl & Hw & Hls). destruct w as [|x w].
           ++ destruct labels as [|first labels]; [done|]. simplify_eq/=. inversion_clear Hls. by exists first, labels.
           ++ simplify_eq/=. destruct Hw as (_ & _ & Hw & _). rewrite Forall_app, Forall_cons, host_byte_dot in Hw. by destruct Hw as (_ & ? & _).
      * split; [done|]. intros (w & labels & Hl & Hw & Hls). destruct w as [|x w].
        -- rewrite app_nil_r in Hw. by apply Hend in Hw.
        -- simplify_eq/=. destruct Hw as (_ & _ & Hw & _). rewrite Forall_app, Forall_cons, host_byte_dot in Hw. by destruct Hw as (_ & ? & _).
    + assert (∀ w labels, c :: l = w ++ dotted labels → ∃ w', w = c :: w' ∧ l = w' ++ dotted labels) as Hcut.
      { intros [|x w] labels Hl; simplify_eq/=; [|by exists w]. destruct labels; simplify_eq/=. }
      replace (negb (alphanumeric c) && negb (is_hyphen c)) with (negb (host_byte c)) by (unfold host_byte; by rewrite negb_orb).
      destruct (host_byte c) eqn:Hc; simpl.
      2:{ split; [done|]. intros (w & labels & Hl & (_ & _ & Hw & _) & _). apply Hcut in Hl as (w' & -> & _).
          rewrite Forall_app, Forall_cons, Hc in Hw. by destruct Hw as (_ & ? & _). }
      destruct Hin as (-> & Hn & Hf & Hh & Hl). destruct (Nat.ltb_spec 63 (S (length cur))) as [Hlong|Hshort].
      { split; [done|]. intros (w & labels & E & (_ & Hlen & _) & _). apply Hcut in E as (w' & -> & _). rewrite length_app in Hlen. simpl in Hlen. lia. }
      rewrite (IH (cur ++ [c])).
      * split.
        -- intros (w & labels & -> & Hw & Hls). exists (c :: w), labels. rewrite <-app_assoc in Hw. done.
        -- intros (w & labels & E & Hw & Hls). apply Hcut in E as (w' & -> & ->). exists w', labels. by rewrite <-app_assoc.
      * split_and!.
        -- rewrite length_app. simpl. lia.
        -- lia.
        -- apply Forall_app. by repeat constructor.
        -- intros _. destruct cur as [|x cur]; simpl; [|by apply Hh]. unfold is_hyphen. rewrite Z.eqb_eq. split; [by intros [= ->]|by intros ->].
        -- intros _. by rewrite last_snoc.
Qed.

Lemma dotted_no_nul labels : Forall label_ok labels → 0 ∉ dotted labels.
Proof.
  induction 1 as [|l labels (_ & _ & Hl & _) _ IH]; simpl; [apply not_elem_of_nil|]. apply not_elem_of_cons. split; [done|].
  intros [H|H]%elem_of_app; [|done]. by apply (proj1 (Forall_forall _ _) Hl) in H.
Qed.

(** A host name is accepted exactly when it is a string of at most 253 bytes
    made of labels between single dots, where a label has 1 to 63 letters, digits
    and hyphens and no hyphen at either end. *)
Theorem valid_host_exact v : valid_host v = true ↔
  ∃ t first labels, v = Str t ∧ data t = first ++ dotted labels ∧ Forall label_ok (first :: labels) ∧ Zlength' (data t) ≤ 253.
Proof.
  assert (∀ b, match host_loop b 0 0 false with Some (x, n', st) => negb (Nat.eqb n' 0) && negb st && negb (is_hyphen x) | None => false end = true ↔
    ∃ w labels, b = w ++ dotted labels ∧ label_ok w ∧ Forall label_ok labels) as Hloop.
  { intros b. apply (host_loop_exact b [] 0 0 false). split_and!; [done|lia|constructor|done|done]. }
  unfold valid_host. rewrite !andb_true_iff, Hloop, Z.leb_le. split.
  - intros ((((Hk & Hne) & Hlen) & Hz) & w & labels & Hb & Hw & Hls). destruct v; try done. eexists _, w, labels. split_and!; [done|done|by constructor|done].
  - intros (t & first & labels & -> & Hd & Hls & Hlen). inversion_clear Hls as [|? ? Hw Hls']. cbn [bytes_of]. split_and!; try done.
    + rewrite negb_true_iff, bool_decide_eq_false. rewrite Hd. destruct Hw as (Hne & _). destruct first; [done|]. done.
    + rewrite negb_true_iff. apply not_true_iff_false. intros (x & Hx & Hx0%Z.eqb_eq)%existsb_exists. subst x. apply list_elem_of_In in Hx.
      rewrite Hd in Hx. apply elem_of_app in Hx as [Hx|Hx]; [|by apply (dotted_no_nul labels)]. destruct Hw as (_ & _ & Hw & _).
      by apply (proj1 (Forall_forall _ _) Hw) in Hx.
    + by exists first, labels.
Qed.

Example host_names :
  (valid_host (Str (text_of (str "www.example-1.org"))), valid_host (Str (text_of (str "-a.org"))), valid_host (Str (text_of (str "a..org"))),
   valid_host (Str (text_of (str "a.org."))), valid_host (Str (text_of (str "a_b.org")))) = (true, false, false, false, false).
Proof. vm_compute. reflexivity. Qed.
