(* ===== verification/HttpStreams.v ===== *)
(** * HTTP streams: the table of src/src/vm/http_transport.c

    The invariant of the table of streams of an invocation, and what each call
    on it gives: streams do not disturb each other, their handles are those in
    use, and what is read from one is what came over its handle, in order. *)

From Stdlib Require Import ZArith Lia.
From stdpp Require Import prelude strings.
From S2P Require Import Prelude Bigint Value Collections HostTypes Posix Rooted TcpServer Exchange HttpTransport.

#[local] Open Scope Z_scope.

Definition slot_own (o : option VMHttpTransport) : list Z := match o with Some t => own t | None => [] end.
Definition owns (l : list (option VMHttpTransport)) : list Z := l ≫= slot_own.
Definition slots_of (v : option VMHttpStreams) : list (option VMHttpTransport) := default [] v.

Lemma owns_insert l i o o' : l !! i = Some o → owns (<[i:=o']> l) ≡ₚ slot_own o' ++ owns (<[i:=None]> l).
Proof.
  unfold owns. revert i. induction l as [|x l IH]; intros [|i] Hi; simplify_eq/=; [done|]. rewrite (IH i Hi). apply Permutation_app_swap_app.
Qed.
Lemma owns_slot l i o : l !! i = Some o → owns l ≡ₚ slot_own o ++ owns (<[i:=None]> l).
Proof. intros Hi. rewrite <-(list_insert_id l i o Hi) at 1. by eapply owns_insert. Qed.
Lemma owns_app l o : owns (l ++ [o]) = owns l ++ slot_own o.
Proof. unfold owns. rewrite bind_app. simpl. by rewrite app_nil_r. Qed.
Lemma owns_elem l i t hd : l !! i = Some (Some t) → hd ∈ own t → hd ∈ owns l.
Proof. intros Hi Hd. rewrite (owns_slot _ _ _ Hi). apply elem_of_app. by left. Qed.
Lemma easy_owned t hd : easy t = Some hd → hd ∈ own t.
Proof. intros He. unfold own. rewrite He. apply elem_of_app. right. apply list_elem_of_here. Qed.

Section streams.
Context {W : Type} `{!CurlHost W, !CurlLaws W}.
Implicit Types (s : Sys (Lines W)) (w : Lines W) (t : VMHttpTransport) (l : list (option VMHttpTransport)).

(** An open stream. *)
Definition stream_ok t w : Prop :=
  streaming t = true ∧ paused t && done t = false ∧ if done t then own t = [] ∧ settled t else tgoing t w.

(** The table, where the caller has the handles [h] and the clock may still be
    read [n] times. *)
Record table_ok (h : list Z) (n : Z → nat) l s : Prop := {
  table_handles : handles (world s) ≡ₚ owns l ++ h;
  table_nodup : NoDup (handles (world s));
  table_read D : (readings D (host (world s)) ≤ n D)%nat;
  table_count : (length l ≤ HTTP_STREAM_HANDLES)%nat;
  table_slots i t : l !! i = Some (Some t) → stream_ok t (world s);
}.

Lemma stream_flow t w w' : stream_ok t w → (∀ o hd, easy t = Some hd → flow o hd (log w') = flow o hd (log w)) → stream_ok t w'.
Proof.
  intros (H1 & H2 & H3) Hf. split; [done|]. split; [done|]. destruct (done t); [done|]. destruct H3 as [(hd & m & E1 & Hm & F1 & F2 & F3) G2 G3 G4 G5].
  split; try done. exists hd, m. rewrite !Hf by done. done.
Qed.

(** The flows of a state. *)
Definition flows s (o : bool) (x : Z) : list Z := flow o x (log (world s)).

(** A stream and the others. *)
Lemma table_tok h n l s i t : table_ok h n l s → l !! i = Some (Some t) → tok (owns (<[i:=None]> l) ++ h) (flows s) n t s.
Proof.
  intros [H1 H2 H3 H4 H5] Hi. pose proof (H5 _ _ Hi) as (_ & Hp & Hg). split; [|done]. split; try done.
  rewrite H1, (owns_slot _ _ _ Hi). by rewrite <-app_assoc.
Qed.

(** A stream changes, the others do not. *)
Lemma table_update h n l s i o o' s' : table_ok h n l s → l !! i = Some o →
  handles (world s') ≡ₚ slot_own o' ++ owns (<[i:=None]> l) ++ h → NoDup (handles (world s')) → (∀ D, (readings D (host (world s')) ≤ n D)%nat) →
  (∀ b x, x ∈ owns (<[i:=None]> l) ++ h → flow b x (log (world s')) = flows s b x) →
  (∀ t, o' = Some t → stream_ok t (world s')) → table_ok h n (<[i:=o']> l) s'.
Proof.
  intros [H1 H2 H3 H4 H5] Hi Hh Hn Hr Hf Ho. split; try done.
  - rewrite Hh, (owns_insert _ _ _ o' Hi). by rewrite <-app_assoc.
  - by rewrite length_insert.
  - intros j t Hj. destruct (decide (i = j)) as [->|Hne].
    + rewrite list_lookup_insert_eq in Hj by (by eapply lookup_lt_Some). apply Ho. congruence.
    + rewrite list_lookup_insert_ne in Hj by done. eapply stream_flow; [by eapply H5|]. intros b hd He. apply Hf. apply elem_of_app. left.
      eapply (owns_elem _ j); [by rewrite list_lookup_insert_ne|by apply easy_owned].
Qed.

(** Nothing but the clock moves. *)
Lemma table_same h n l s s' : table_ok h n l s → handles (world s') = handles (world s) → log (world s') = log (world s) →
  (∀ D, (readings D (host (world s')) ≤ readings D (host (world s)))%nat) → table_ok h n l s'.
Proof.
  intros [H1 H2 H3 H4 H5] Eh El Hr. split; rewrite ?Eh; try done.
  - intros D. specialize (H3 D). specialize (Hr D). lia.
  - intros i t Hi. eapply stream_flow; [by eapply H5|]. by rewrite El.
Qed.

(** ** What the calls answer *)

Definition refused (r : option Value) : Prop := r = None ∨ ∃ v, r = Some v ∧ error_value v.

Lemma wp_refuse message {B} (b : B) s (Q : B * option Value → Sys (Lines W) → Prop) X :
  (∀ r, refused r → Q (b, r) s) → wp (r ← or_none (stream_error message); mret (b, r)) s Q X.
Proof.
  intros HQ. apply wp_bind. eapply (wp_or_none _ (λ v, error_value v)).
  - unfold stream_error. eapply (runs_bind _ _ (λ v, v = Str (text_of (str message)))); [by apply value_data_spec|]. intros ? ->.
    apply variant_spec. by exists message.
  - intros v Hv. apply wp_ret, HQ. right. by exists v.
  - apply wp_ret, HQ. by left.
Qed.

(** The slot of a handle. *)
Definition slot_at (a : list Value) l : option (nat * VMHttpTransport) :=
  match a !! 0%nat ≫= value_index with
  | Some (Zpos p) => let i := (Pos.to_nat p - 1)%nat in match l !! i with Some (Some t) => Some (i, t) | _ => None end
  | _ => None
  end.

(** A read: a stream that is done answers as before; otherwise [Ok] carries the
    next bytes of the stream, none at its end, after the whole request was sent,
    within the limit and in time. *)
Definition read_answer t s t' s' (r : option Value) : Prop :=
  r = result t' ∧
  if done t then t' = t
  else refused r ∨ ∃ hd b, easy t = Some hd ∧ r = Some (ok_value b) ∧ (b = [] ↔ done t' = true) ∧
    flow true hd (log (world s')) = request t ∧ flow false hd (log (world s')) = flow false hd (log (world s)) ++ b ∧
    Zlength' (flow false hd (log (world s'))) ≤ limit t ∧ ∃ now, clock_at (world s') = Some now ∧ now < deadline t.

(** ** The calls keep the table *)

Section calls.
Context (h : list Z) (n : Z → nat) (ca : option (list Z)).

(** A transport without handles, to start from. *)
Definition blank : VMHttpTransport := mkTransport [] None [] 0 0 0 0 false false true false None None None.
Lemma table_blank l s : table_ok h n l s → tsteady (owns l ++ h) (flows s) n blank s.
Proof. intros [H1 H2 H3 H4 H5]. by split. Qed.

(** A new stream. *)
Lemma table_open l s t s' a : table_ok h n l s → (length l < HTTP_STREAM_HANDLES)%nat → started (owns l ++ h) (flows s) n a true t s' → done t = false →
  table_ok h n (l ++ [Some t]) s'.
Proof.
  intros [H1 H2 H3 H4 H5] Hlen (([K1 K2 K3 K4] & K5 & K6) & Hp & Hst & _) Hd. split; try done.
  - rewrite K1, owns_app. simpl. rewrite <-app_assoc. apply Permutation_app_swap_app.
  - rewrite length_app. simpl. lia.
  - intros i x Hi. apply lookup_app_Some in Hi as [Hi|[_ Hi]].
    + eapply stream_flow; [by eapply H5|]. intros b hd He. apply K3, elem_of_app. left. eapply owns_elem; [done|by apply easy_owned].
    + apply list_lookup_singleton_Some in Hi as [_ [= ->]]. done.
Qed.
(** The handles of a stream are given back. *)
Lemma table_rest l s s' : table_ok h n l s → handles (world s') ≡ₚ owns l ++ h → NoDup (handles (world s')) → 
  (∀ b x, x ∈ owns l ++ h → flow b x (log (world s')) = flows s b x) → (∀ D, (readings D (host (world s')) ≤ n D)%nat) → table_ok h n l s'.
Proof.
  intros [H1 H2 H3 H4 H5] K1 K2 K3 K4. split; try done. intros i x Hi. eapply stream_flow; [by eapply H5|]. intros b hd He.
  apply K3, elem_of_app. left. eapply owns_elem; [done|by apply easy_owned].
Qed.

Lemma wp_destroyed H fl t s (Q : unit → Sys (Lines W) → Prop) X : tsteady H fl n t s → (∀ s', released H s s' → Q tt s') → wp (http_transport_destroy t) s Q X.
Proof. intros Hs HQ. unfold http_transport_destroy. apply wp_bind. eapply wp_cleanup; [done|]. intros s' Hr. apply wp_ret. by apply HQ. Qed.
Lemma wp_attempt {A} (m : IO (Lines W) A) s (Q : option A → Sys (Lines W) → Prop) (X X' : Sys (Lines W) → Prop) :
  wp m s (λ a s', Q (Some a) s') X' → (∀ s', X' s' → Q None s' ∧ X s') → wp (attempt m) s Q X.
Proof.
  intros Hm HX al. specialize (Hm al). unfold attempt. destruct (m s al) as [[[a|k msg| | |] s'] al']; try done; by apply HX.
Qed.

(** An open stream, or why there is none. *)
Definition open_answer l l' (r : option Value) : Prop :=
  (l' = l ∧ refused r) ∨
  (∃ t, l' = l ++ [Some t] ∧ (r = None ∨ ∃ k, r = Some (Variant (str "Ok") [Nat_ k]) ∧ to_Z k = Zlength' l + 1)).

Lemma wp_stream_open v a s : table_ok h n (slots_of v) s → (6 ≤ length a)%nat →
  wp (stream_open ca a v) s (λ x s', table_ok h n (slots_of (fst x)) s' ∧ open_answer (slots_of v) (slots_of (fst x)) (snd x)) (table_ok h n (slots_of v)).
Proof.
  intros Hok Ha. unfold stream_open. apply wp_bind.
  eapply (wp_mono _ _ (λ v' s', s' = s ∧ slots_of v' = slots_of v) _ (λ _, False)); [| |done].
  { destruct v as [v|]; [by apply wp_ret|]. apply wp_bind. eapply (wp_or_none _ (λ _, True)); [apply runs_alloc|intros _ _|]; by apply wp_ret. }
  intros v1 s1 (-> & Hv). rewrite <-Hv in Hok |- *. clear Hv v. destruct v1 as [l|]; [|apply wp_refuse; intros r Hr; split; [done|by left]].
  change (slots_of (Some l)) with l in *.
  destruct (Nat.eqb_spec (length l) HTTP_STREAM_HANDLES) as [Hfull|Hfree]; [apply wp_refuse; intros r Hr; split; [done|by left]|].
  assert (length l < HTTP_STREAM_HANDLES)%nat as Hlen by (destruct Hok; lia). apply wp_bind.
  assert (tsteady (owns l ++ h) (flows s) n blank s) as Hb by by apply table_blank.
  eapply (wp_attempt _ _ _ _ (λ s', s' = s)); [|by intros s' ->; split; [apply wp_ret; split; [|left; split; [|left]]|]].
  eapply wp_mono; [by eapply (wp_transport_start _ _ _ ca true a blank)| |by intros s' ->]. intros t s1 Hst. pose proof Hst as ((Hs1 & Hp1 & Hg1) & _ & _ & Hres & _).
  destruct (done t) eqn:Hd.
  - apply wp_bind. eapply wp_destroyed; [done|]. intros s2 (R1 & R2 & R3 & _ & R5). apply wp_ret. split; [|left; split; [done|]].
    + apply (table_rest _ s); [done|done|done|intros b x Hx; rewrite R3; by apply (t_frame _ _ _ _ _ Hs1)|].
      intros D. etrans; [apply R5|apply (t_read _ _ _ _ _ Hs1)].
    + destruct (Hres eq_refl) as [->|(v & -> & Hv)]; [by left|right; by exists v].
  - apply wp_bind. pose proof (table_open _ _ _ _ _ Hok Hlen Hst Hd) as Hok'. assert (HTTP_STREAM_HANDLES = 512%nat) as E by done.
    eapply (wp_or_none _ (λ v, ∃ k, v = Variant (str "Ok") [Nat_ k] ∧ to_Z k = Zlength' l + 1)).
    + eapply (runs_bind _ _ (λ v, ∃ k, v = Nat_ k ∧ to_Z k = Zlength' l + 1)); [apply size_spec; [lia|]; intros b _ Hb'; by exists b|].
      intros v (k & -> & Hk). apply variant_spec. by exists k.
    + intros v (k & -> & Hk). apply wp_ret. split; [done|]. right. exists t. split; [done|]. right. by exists k.
    + apply wp_ret. split; [done|]. right. exists t. split; [done|by left].
Qed.

(** ** One call *)

Definition stream_answer (name : list Z) (a : list Value) l s l' s' (r : option Value) : Prop :=
  if is_name name "http_stream_open" then open_answer l l' r
  else
    match slot_at a l with
    | None => l' = l ∧ refused r
    | Some (i, t) =>
        if is_name name "http_stream_close" then l' = <[i:=None]> l ∧ (r = None ∨ r = Some (Variant (str "Ok") [VUnit]))
        else if is_name name "http_stream_read" then ∃ t', l' = <[i:=Some t']> l ∧ read_answer t s t' s' r
        else l' = l ∧ refused r
    end.

Lemma read_answered t s t' s' H fl m : tok H fl m t s → streaming t = true → read_ok H fl m t s t' s' → read_answer t s t' s' (result t').
Proof.
  intros Hok Hst (Hok' & (E1 & E2 & E3 & E4) & Hr). split; [done|]. destruct (done t) eqn:Hd; [done|].
  destruct Hok as (_ & _ & Hg). rewrite Hd in Hg. destruct (g_over _ _ Hg) as (hd & mu & He & _). specialize (Hr hd He).
  assert (refused (result t') ∨ ∃ b, result t' = Some (ok_value b)) as [Hf|(b & Hb)].
  { destruct Hok' as (_ & Hpd & Hg'). destruct (done t') eqn:Hd'.
    - destruct Hg' as [_ [Hn|[(v & Hv & Hev)|[Ho _]]]]; [left; by left|left; right; by exists v|right; by eexists].
    - destruct (paused t') eqn:Hp'.
      + destruct (g_paused _ _ Hg' Hp') as (_ & _ & _ & [Hn|Ho]); [left; by left|right; by eexists].
      + left. left. apply (g_idle _ _ Hg' Hp'). }
  - by left.
  - right. exists hd, b. specialize (Hr b Hb). by destruct Hr.
Qed.

(** The arguments of a call. *)
Definition call_arity (name : list Z) : nat := if is_name name "http_stream_open" then 6 else 1.

Lemma wp_stream_call turns fuel name a v s : table_ok h n (slots_of v) s → (call_arity name ≤ length a)%nat →
  (message_bound < fuel)%nat → (∀ D, (n D ≤ turns)%nat) →
  wp (http_stream_call ca turns fuel name a v) s
    (λ x s', table_ok h n (slots_of (fst x)) s' ∧ stream_answer name a (slots_of v) s (slots_of (fst x)) s' (snd x)) (table_ok h n (slots_of v)).
Proof.
  intros Hok Ha Hf Ht. unfold http_stream_call, stream_answer, call_arity in *. destruct (is_name name "http_stream_open"); [by apply wp_stream_open|].
  destruct a as [|a0 a]; [simpl in Ha; lia|]. apply wp_bind. eapply wp_rd; [done|]. cbv zeta. unfold slot_at. cbn [lookup list_lookup mbind option_bind].
  assert (∀ m, wp (r ← or_none (stream_error m); mret (v, r)) s (λ x s', table_ok h n (slots_of (fst x)) s' ∧ slots_of (fst x) = slots_of v ∧ refused (snd x))
    (table_ok h n (slots_of v))) as Hinv by (intros m; apply wp_refuse; by intros r Hr).
  destruct (value_index a0) as [[|p|p]|]; try apply Hinv. destruct v as [l|]; [|apply Hinv].
  change (slots_of (Some l)) with l in *.
  destruct (l !! (Pos.to_nat p - 1)%nat) as [[t|]|] eqn:Hi; [|apply Hinv..]. set (i := (Pos.to_nat p - 1)%nat) in *. clearbody i.
  pose proof (table_tok _ _ _ _ _ _ Hok Hi) as Htok. pose proof (table_slots _ _ _ _ Hok _ _ Hi) as (Hst & _).
  destruct (is_name name "http_stream_close").
  { apply wp_bind. eapply wp_destroyed; [apply Htok|]. intros s2 (R1 & R2 & R3 & _ & R5).
    assert (table_ok h n (<[i:=None]> l) s2) as Hok2.
    { eapply (table_update _ _ _ s); try done; [|by intros b x _; rewrite R3]. intros D. etrans; [apply R5|apply Hok]. }
    apply wp_bind. eapply (wp_or_none _ (λ v, v = Variant (str "Ok") [VUnit])).
    - eapply (runs_bind _ _ (λ v, v = VUnit)); [unfold value_unit; mbind runs_alloc as ? _; by mret|]. intros ? ->. by apply variant_spec.
    - intros ? ->. apply wp_ret. split; [done|]. split; [done|by right].
    - apply wp_ret. split; [done|]. split; [done|by left]. }
  destruct (is_name name "http_stream_read"); [|apply Hinv]. cbn [negb]. apply wp_bind.
  eapply wp_mono; [by eapply wp_stream_read| |done]. intros t' s' Hread. apply wp_ret.
  pose proof (read_answered _ _ _ _ _ _ _ Htok Hst Hread) as Hans. destruct Hread as (([K1 K2 K3 K4] & K5 & K6) & (E1 & E2 & E3 & E4) & _). split.
  - eapply (table_update _ _ _ s); try done. intros x [= <-]. split; [congruence|done].
  - by exists t'.
Qed.
End calls.
End streams.

(** ** Invocations *)

Section invocation.
Context {W : Type} `{!CurlHost W, !CurlLaws W} (ca : option (list Z)) (turns fuel : nat).
Implicit Types (s : Sys (Lines W)) (v : option VMHttpStreams).

(** The tables that calls of a program lead to. *)
Inductive streams_reach (s0 : Sys (Lines W)) : option VMHttpStreams → Sys (Lines W) → Prop :=
| reach_start : streams_reach s0 None s0
| reach_call v s name a al v' r s' al' : streams_reach s0 v s → (call_arity name ≤ length a)%nat →
    http_stream_call ca turns fuel name a v s al = (Ret (v', r), s', al') → streams_reach s0 v' s'.

(** Bounds of the loops: messages of a transfer, and readings of the clock. *)
Definition enough s0 : Prop := (message_bound < fuel)%nat ∧ (∀ D, (readings D (host (world s0)) ≤ turns)%nat) ∧ NoDup (handles (world s0)).

Lemma reach_ok s0 v s : enough s0 → streams_reach s0 v s → table_ok (handles (world s0)) (λ D, readings D (host (world s0))) (slots_of v) s.
Proof.
  intros (Hf & Ht & Hn) Hr. induction Hr as [|v s name a al v' r s' al' Hr IH Ha Hcall].
  - split; simpl; try done. lia.
  - pose proof (wp_stream_call _ _ ca turns fuel name a v s IH Ha Hf Ht al) as Hw. rewrite Hcall in Hw. apply Hw.
Qed.

Lemma wp_destroy_slots (l : list (option VMHttpTransport)) h s X : handles (world s) ≡ₚ owns l ++ h → NoDup (handles (world s)) →
  wp (destroy_slots l) s (λ _ s', handles (world s') ≡ₚ h) X.
Proof.
  revert s. induction l as [|[t|] l IH]; intros s Hh Hn; cbn [destroy_slots]; [by apply wp_ret| |by apply IH]. apply wp_bind.
  eapply (wp_destroyed (λ D, readings D (host (world s))) (owns l ++ h) (flows s)).
  - split; try done. rewrite Hh. unfold owns. simpl. by rewrite <-app_assoc.
  - intros s' (R1 & R2 & _). by apply IH.
Qed.

(** C27: the HTTP streams of an invocation, after any calls with any arguments and
    whatever the network does: at most 512 slots are used; the curl handles in
    use are those of the open streams; no call uses a handle that is not in use,
    overruns a buffer or loops for ever; a stale or foreign handle is refused and
    changes nothing; what is read from a stream is exactly what came next over
    its own connection, after its whole request was sent, within its limit and
    before its deadline, and an empty chunk marks the end; and when the
    invocation ends every handle is given back. *)
Theorem http_streams_safe s0 v s : enough s0 → streams_reach s0 v s →
  handles (world s) ≡ₚ owns (slots_of v) ++ handles (world s0) ∧ (length (slots_of v) ≤ HTTP_STREAM_HANDLES)%nat ∧
  (∀ name a al, (call_arity name ≤ length a)%nat →
    match http_stream_call ca turns fuel name a v s al with
    | (Ret (v', r), s', _) => stream_answer name a (slots_of v) s (slots_of v') s' r
    | (Trap _ _, s', _) | (NoMem, s', _) => handles (world s') ≡ₚ handles (world s)
    | _ => False
    end) ∧
  (∀ al, match http_stream_destroy v s al with (Ret None, s', _) => handles (world s') ≡ₚ handles (world s0) | _ => False end).
Proof.
  intros He Hr. pose proof (reach_ok _ _ _ He Hr) as Hok. destruct He as (Hf & Ht & Hn). split; [apply Hok|]. split; [apply Hok|]. split.
  - intros name a al Ha. pose proof (wp_stream_call _ _ ca turns fuel name a v s Hok Ha Hf Ht al) as Hw.
    assert (∀ s', table_ok (handles (world s0)) (λ D, readings D (host (world s0))) (slots_of v) s' → handles (world s') ≡ₚ handles (world s)) as Hsame.
    { intros s' Hs'. by rewrite (table_handles _ _ _ _ Hs'), (table_handles _ _ _ _ Hok). }
    destruct (http_stream_call _ _ _ _ _ _ _ _) as [[[[v' r]|k m| | |] s'] al']; [apply Hw|by apply Hsame..|done|done].
  - intros al. destruct v as [l|]; [|apply Hok]. assert (wp (http_stream_destroy (Some l)) s (λ v' s', v' = None ∧ handles (world s') ≡ₚ handles (world s0)) (λ _, False)) as Hw.
    { unfold http_stream_destroy. apply wp_bind. eapply (wp_mono _ _ _ _ (λ _, False)); [eapply wp_destroy_slots; [apply Hok|apply Hok]| |done]. intros u s' Hs'. by apply wp_ret. }
    specialize (Hw al). destruct (http_stream_destroy _ _ _) as [[[v'|k m| | |] s'] al']; try done. by destruct Hw as [-> ?].
Qed.
End invocation.

(** ** A small network *)

(** The readings of the clock that are left, whether a transfer has finished, and
    whether the peer has answered. *)
Record Pond := mkPond { pond_ticks : nat; pond_message : bool; pond_said : bool }.
Definition next_handle (l : list Z) : Z := foldr Z.max 0 l + 1.

#[local] Instance pond_host : CurlHost Pond := λ A c w,
  match c in CurlE A return A * Pond with
  | GlobalInit | AsyncDns | SetOpt _ _ | AddHandle _ _ | MultiPoll _ _ => (true, w)
  | Perform _ => (true, mkPond (pond_ticks w) true (pond_said w))
  | GlobalCleanup | RemoveHandle _ _ | EasyCleanup _ | MultiCleanup _ => (tt, w)
  | MultiInit l | EasyInit l => (Some (next_handle l), w)
  | InfoRead _ => if pond_message w then (Some (Some 0), mkPond (pond_ticks w) false (pond_said w)) else (None, w)
  | ActiveSocket _ => (Some 5, w)
  | EasySend _ b => ((CURLE_OK, Zlength' b), w)
  | EasyRecv _ k => ((CURLE_OK, if pond_said w then [] else take (Z.to_nat k) (str "pong")), mkPond (pond_ticks w) (pond_message w) true)
  | PollSocket _ events _ => (Ready 1 [events], w)
  | Clock => match pond_ticks w with
             | S n => (Some (0, 0), mkPond n (pond_message w) (pond_said w))
             | O => (None, w)
             end
  end.

Lemma next_handle_fresh l : next_handle l ∉ l.
Proof.
  assert (∀ x, x ∈ l → x < next_handle l) as H.
  { unfold next_handle. induction l as [|y l IH]; intros x Hx; [by apply not_elem_of_nil in Hx|]. simpl.
    apply elem_of_cons in Hx as [->|Hx]; [lia|]. specialize (IH x Hx). lia. }
  intros Hin. specialize (H _ Hin). lia.
Qed.

#[local] Instance pond_laws : CurlLaws Pond.
Proof.
  refine {| readings := λ _ w, pond_ticks w; messages := λ _ w, if pond_message w then 1%nat else 0%nat; message_bound := 1%nat |}.
  - intros A c w D. destruct w as [[|n] [] []], c; simpl; lia.
  - intros [[|n] m b] t D; simpl; [done|]. intros _ _. lia.
  - intros m [n [] b]; simpl; lia.
  - intros m [n [] b] x; simpl; [lia|done].
  - intros l w m [= <-]. apply next_handle_fresh.
  - intros l w m [= <-]. apply next_handle_fresh.
  - intros h b w n [= <-]. unfold Zlength'. lia.
  - intros h k [n m []] b Hk [= <-]; [unfold Zlength'; simpl; lia|]. unfold Zlength'. rewrite length_take. lia.
Defined.

Definition open_arguments : list Value :=
  [Str (text_of (str "example.org")); Nat_ {| sign := 1; limbs := [80] |}; Bool_ true; Bytes (str "ping");
   Nat_ {| sign := 1; limbs := [9] |}; Nat_ {| sign := 1; limbs := [100] |}].
Definition handle_one : list Value := [Nat_ {| sign := 1; limbs := [1] |}].
Definition still_pond : Sys (Lines Pond) := mkSys (mkLines (mkPond 30 false false) None [] [] false) [] [].

Definition pond_call (name : string) (a : list Value) (v : option VMHttpStreams) : IO (Lines Pond) (option VMHttpStreams * option Value) :=
  http_stream_call None 30 2 (str name) a v.

(** Open, read the response, read its end, close. *)
Example pond_session :
  match ('(v, _) ← pond_call "http_stream_open" open_arguments None;
         '(v, r1) ← pond_call "http_stream_read" handle_one v;
         '(v, r2) ← pond_call "http_stream_read" handle_one v;
         '(v, r3) ← pond_call "http_stream_close" handle_one v;
         '(v, r4) ← pond_call "http_stream_read" handle_one v;
         mret (r1, r2, r4)) still_pond [] with
  | (Ret (Some (Variant _ [Bytes b1]), Some (Variant _ [Bytes b2]), Some (Variant n _)), s, _) =>
      bool_decide (b1 = str "pong") && bool_decide (b2 = []) && bool_decide (n = str "Error") && bool_decide (handles (world s) = [])
  | _ => false
  end = true.
Proof. vm_compute. reflexivity. Qed.

(** The table after the stream was opened. *)
Definition after_open : option VMHttpStreams * option Value * Sys (Lines Pond) :=
  match pond_call "http_stream_open" open_arguments None still_pond [] with (Ret (v, r), s, _) => (v, r, s) | _ => (None, None, still_pond) end.

Lemma opened_pond : ∃ r al, http_stream_call None 30 2 (str "http_stream_open") open_arguments None still_pond [] =
  (Ret (fst (fst after_open), r), snd after_open, al) ∧ length (slots_of (fst (fst after_open))) = 1%nat.
Proof. eexists _, _. split; vm_compute; reflexivity. Qed.
Lemma pond_reached : streams_reach None 30 2 still_pond (fst (fst after_open)) (snd after_open).
Proof.
  destruct opened_pond as (r & al & E & _). eapply reach_call; [apply reach_start| |exact E]. unfold call_arity. destruct (is_name _ _); simpl; lia.
Qed.

Lemma http_streams_safe_witness : enough 30 2 still_pond ∧ streams_reach None 30 2 still_pond (fst (fst after_open)) (snd after_open) ∧
  length (slots_of (fst (fst after_open))) = 1%nat ∧ handles (world (snd after_open)) ≡ₚ owns (slots_of (fst (fst after_open))) ++ handles (world still_pond).
Proof.
  assert (enough 30 2 still_pond) as He by (split; [simpl; lia|split; [intros D; simpl; lia|constructor]]).
  pose proof pond_reached as Hr. split; [exact He|]. split; [exact Hr|]. split; [by destruct opened_pond as (_ & _ & _ & ?)|].
  exact (proj1 (http_streams_safe None 30 2 still_pond (fst (fst after_open)) (snd after_open) He Hr)).
Defined.
